(* ===== verification/_CoqProject ===== *)
-Q . S2P
Prelude.v
Ordered.v
Utf8.v
Protocol.v
Codec.v
WireSpec.v
Validators.v
Writers.v
Readers.v
Decoding.v
CodecFacts.v
Strs.v
Totals.v
Policy.v
PolicyFacts.v
PolicyText.v
Broker.v
Effects.v
Invariants.v
BrokerFacts.v
Routing.v
Reliability.v
Lifecycle.v
Journal.v
Transport.v
TransportFacts.v
Daemon.v
DaemonFacts.v
SessionFacts.v
Concurrency.v
Trail.v
Handshake.v
Commands.v
Addressing.v
Provenance.v
CommandLineFacts.v
Dbus.v
Client.v
ClientFacts.v
EndToEnd.v
Deployment.v
RequestResponse.v
Outcomes.v
