(* ===== verification/Prelude.v ===== *)
(** * busd: a verification development of the BUS/1-preview message broker

    busd is a local message bus: processes connect to a daemon over a Unix
    socket, say HELLO, and exchange frames that the daemon routes.  The parts of
    the program, and how they interact:

    - [crates/bus-protocol/src/lib.rs]: names, header values, the envelope of a
      message, the twelve frames, and the codec between frames and packets.
      Everything else is written in terms of these types.
    - [crates/bus-policy/src/lib.rs]: the [Policy] trait the broker consults
      before every operation, its fixed implementations, and the policy file.
    - [crates/bus-broker/src/lib.rs]: the broker's state machine (peers,
      namespaces, D-Bus names, subscriptions, pending deliveries, monitoring).
      It does no I/O and reads no clock: the daemon calls one method per frame
      received, one per disconnection, and [tick] with the time.
    - [crates/busd/src/main.rs]: the daemon.  One thread per connection
      ([serve_peer], [dispatch_session]) and a scheduler share the broker and
      the table of sessions behind locks, and forward the broker's events.
    - [crates/bus-client/src/lib.rs]: the client library, its reconnecting
      variant and the deduplication cache.
    - [crates/bus-transport-unix/src/lib.rs]: connections and listeners over
      SEQPACKET sockets, with descriptor passing.
    - [crates/bus-transport-dbus/src/lib.rs]: the names of a D-Bus transport.

    ** Files

    - [Prelude.v] (this file): Rust's [Result] with panics as values
      ([result]), the state-and-error monad of the broker's methods ([St]),
      machine integers as [N] with their checked and saturating operations, and
      byte strings with big-endian conversion.
    - [Ordered.v], [Strs.v], [Utf8.v], [Totals.v]: the standard library the code
      uses: [Ord] and the iteration order of [BTreeMap] and [BTreeSet], the
      stable [sort_by], [str] methods, [from_utf8], sums over a map's values.
    - [Protocol.v], [Codec.v]: bus-protocol.  One definition per function, the
      reader threading its position, [Panic] where Rust would panic.
    - [WireSpec.v]: the abstract specification of the codec, after
      docs/wire-protocol.md: which values may travel and the bytes of each.
    - [Validators.v], [Writers.v], [Readers.v], [Decoding.v]: the refinement of
      the grammar by the validators, the [push_*] writers, the reader methods,
      the frame bodies and the header.  [CodecFacts.v]: the codec's theorems.
    - [Policy.v], [PolicyFacts.v], [PolicyText.v]: bus-policy, its theorems, and
      the text of a configuration.  [Policy] is a type class; the broker's
      theorems are proved for any instance.
    - [Broker.v]: bus-broker, one definition per method.  [Effects.v]: what each
      handler does to the state, the interface every later proof uses.
      [Invariants.v]: the commands, the states they reach, the invariant.
    - [BrokerFacts.v], [Routing.v], [Reliability.v], [Lifecycle.v]: the broker's
      theorems: identities, names, quotas and mediation; recipients; admission,
      clock, acknowledgements and responses; the life of a pending delivery
      under one command and under any run.  [Journal.v]: what the broker tells
      about itself, its lifecycle events, monitor records and counters.
    - [Transport.v], [TransportFacts.v]: bus-transport-unix.  An operation is a
      tree of system calls ([sys]) run against an arbitrary [kernel]; closing a
      descriptor is a call, so ownership can be followed.
    - [Daemon.v]: busd.  The command line ([parse_command]), the attested
      credentials ([credentials_from_peer]), and the threads: a [phase] is a
      point where a thread of the code can be interleaved with another,
      [thread_step] goes from one to the next, a [World] is the shared state
      with all threads, what they have sent and what they have written, and
      [execute] runs any sequence of steps from [run_daemon]'s start.  The
      broker's lock is held across a step where the code holds it while it
      sends ([holds_broker]); the steps that need it then wait.
      [DaemonFacts.v]: the invariant of a [World].
      [SessionFacts.v]: what a session does for its client.
      [Concurrency.v]: the lock, and deadlines under any interleaving.
      [Trail.v]: the lines on standard error.  [Handshake.v]: what a connection
      gets, in order.  [Commands.v]: the broker commands of a run.
      [Addressing.v], [Provenance.v]: which packets go to whom, in which order,
      and where they come from.  [CommandLineFacts.v]: the grammar of the command
      line.
    - [Dbus.v]: bus-transport-dbus, with its theorems.
    - [Client.v], [ClientFacts.v]: bus-client, as operations on a [Link], the
      client's side of a connection.
    - [EndToEnd.v], [RequestResponse.v], [Outcomes.v]: client, codec, session
      threads, scheduler and broker together: control operations, a request and
      its response, a deadline.
      [Deployment.v]: command line, policy file, daemon and broker together.

    ** How the model corresponds to the code

    Definitions keep the source's names; a method [T::m] is [m] or [T_m].  A
    struct is a [Record] with the source's fields, an enum an [Inductive] with
    its constructors prefixed by the type ([Frame] has the fields of its
    [Message] variant in the record [Message]).  Unsigned integers are [N] with
    the width's bound; where the code adds, multiplies or converts, the model
    uses [checked_add], [saturating_add], [u16_try_from] and the like.  A string
    is its UTF-8 bytes.  [BTreeMap<K, V>] is [gmap K V], and iterating it goes
    through [bt_entries], which is sorted.  A [&mut self] method is a function
    from state to result and state: when it fails the state it had reached is
    returned too, so that partial effects of failing calls are visible.  The
    [expect] of [tick] and its [u8] increment are [Panic] when they would be.

    ** What the theorems show

    - Codec ([CodecFacts.v]): on arbitrary bytes the decoder accepts exactly the
      packets of the grammar and never panics; the encoder emits exactly them;
      hence both round trips, injectivity, independence from the limits, and the
      validity of everything accepted.
    - Policy ([PolicyFacts.v]): parsing ends in a valid configuration or an
      error that names the line that fails; evaluation is the first-match
      decision of the documentation;
      claimed metadata cannot influence a policy that does not select on it.
      Every configuration a file can hold is what parsing its text gives
      ([PolicyText.v]).
    - Broker invariants ([BrokerFacts.v], [Invariants.v]): every state reached
      by any sequence of commands, failing ones included, is consistent and
      within its quotas; no command panics; identities are fresh; ownership is
      stable; nothing bypasses the policy; a disconnection releases what the
      connection held.
    - Delivery ([Routing.v], [Reliability.v], [Lifecycle.v]): recipients are the
      destination's; admission, acknowledgement, response and clock on every
      branch; retransmission is bounded and ordered; every tracked message is
      closed once, with one outcome or the final response; what recipients get
      carries no broker-owned header.
    - Broker journal ([Journal.v]): the lifecycle events, replayed, are the
      broker's peers and owners; the monitor window has no gap; the counters of
      the clock count what it reports.
    - Daemon ([DaemonFacts.v], [SessionFacts.v]): in every interleaving the
      broker is a reachable one and no thread panics; each peer belongs to one
      connection and its attested credentials; messages leave with the broker's
      word for their sender; operations are answered truthfully; which recipients
      get an event, and where a failing send cuts a dispatch short; a session
      whose client is gone ends.
    - Daemon, concurrently ([Concurrency.v], [Trail.v], [Handshake.v]): a client
      that does not read its refusal stops the bus until it does, and nothing
      else holds the broker's lock; no delivery stays pending past its deadline
      once the scheduler gets its turns; each printed line about a denial is
      true, no refusal goes unprinted, and no client can forge a line; WELCOME comes
      first, once, with the right identity.
    - Daemon, as a message bus ([Commands.v], [Addressing.v], [Provenance.v]): a
      run of the daemon is a sequence of broker commands; what each session and
      the scheduler send to a peer is what the broker returned for it, in order
      and at most once; every message sent was received, unchanged, from the
      client it names, who was allowed to send it.
    - Deployment ([CommandLineFacts.v], [Deployment.v]): the command line means
      what its grammar says; the policy it names governs everything the broker
      ever holds, and its limits bound the daemon.
    - Transport ([TransportFacts.v]): control messages survive the trip and are
      read inside their buffer, except that the release build leaves it on a
      length that overflows; opening a connection leaks no descriptor; which of
      the descriptors the kernel announced are returned, closed or lost.
    - Client ([ClientFacts.v]): what a request waits for and returns; what
      reconnecting restores; the cache is a window.
    - Composition ([EndToEnd.v], [RequestResponse.v], [Outcomes.v]): the result
      of an operation is the broker's decision; a request returns the response
      of its recipient, attested; a deadline ends the wait.

    The reachability theorems assume that every message given to the broker
    satisfies [proper_message]; [daemon_runs_commands] discharges this for the
    daemon, whose messages come from the decoder.

    ** Bounds

    No definition of the codec or the broker needs fuel: the loops of the reader
    run over the decoded count, and [tick] over the keys it has collected.  The
    [trim] functions of [Strs.v] recurse with the length of the string as fuel,
    each step of which removes at least one byte.  [parse_loop] of the transport
    has one unit more than the bytes of control data, of which each round
    consumes sixteen: [parse_descriptors_safe] shows that it does not run out
    unless a length overflows.
    [request_loop] recurses over the answers of the link, and is [Blocked] when
    they end.  The steps that [dispatch_delivers] and [session_winds_down] need
    are counted by [dispatch_bound] and [winding].  [deadlines_are_met] counts
    the steps of the scheduler that find the broker's lock free ([scheduled]),
    against the sends it has left ([scheduler_bound]).  [usize] is 64 bits wide.

    ** Not modelled

    The kernel, the clock and the file system answer through arguments; the
    texts of the system's error numbers are an argument of [log_line].  The line
    that says where the daemon listens, which prints the operator's path, and the
    sleep of its scheduler have no effect on the
    state and are left out; so is a connection whose credentials the kernel
    refuses to tell, which [serve_peer] drops before it does anything, and a
    failing [accept], which ends the program.  The lock of the session table is
    held within a step only; the broker's is modelled.  A lock could only be
    poisoned by a panic, and no thread panics, so [lock_error] is never reached;
    the clock of a running daemon is taken to be after the Unix epoch ([now_ms]
    panics before it).  The threads run in any order, but which order a real
    scheduler picks is not modelled: a theorem that something happens says after
    which steps.  The zbus library is a parameter of [DbusTransport].  Memory
    exhaustion is outside the model, except for the reservation of
    [DeduplicationCache::new].  Accessors that return a field are the record's
    projections. *)

From Stdlib Require Export NArith ZArith Lia.
From Stdlib Require Strings.String Numbers.DecimalString.
From Stdlib Require Export Strings.Byte.
From stdpp Require Export prelude strings gmap sorting.

Declare Scope busd_scope.
Delimit Scope busd_scope with busd.

#[global] Set Default Goal Selector "!".

(** ** Outcomes of Rust computations

    [Ok] and [Err] are the two constructors of Rust's [Result]; [Panic] is the
    abnormal termination of a panicking expression (an index out of range, an
    [expect] on [None], an arithmetic overflow in a build that checks for it).  A
    function that never panics is proved so, it is not assumed.  In the release
    build an overflow wraps instead: where that can happen ([add_usize] in
    [Transport.v]) the build is a parameter, elsewhere [Panic] is unreachable. *)
Inductive result (E A : Type) : Type :=
| Ok (a : A)
| Err (e : E)
| Panic.
Arguments Ok {E A} _.
Arguments Err {E A} _.
Arguments Panic {E A}.

#[export] Instance result_ret {E} : MRet (result E) := fun A a => Ok a.
#[export] Instance result_bind {E} : MBind (result E) := fun A B f m =>
  match m with Ok a => f a | Err e => Err e | Panic => Panic end.
#[export] Instance result_fmap {E} : FMap (result E) := fun A B f m =>
  match m with Ok a => Ok (f a) | Err e => Err e | Panic => Panic end.

#[export] Instance result_eq_dec {E A} `{EqDecision E} `{EqDecision A} : EqDecision (result E A).
Proof. solve_decision. Defined.

(** [Result::map_err]. *)
Definition map_err {E F A} (f : E -> F) (m : result E A) : result F A :=
  match m with Ok a => Ok a | Err e => Err (f e) | Panic => Panic end.

(** [Option::ok_or]. *)
Definition ok_or {E A} (e : E) (o : option A) : result E A :=
  match o with Some a => Ok a | None => Err e end.

(** [Option::expect]: a panic on [None]. *)
Definition expect {E A} (o : option A) : result E A :=
  match o with Some a => Ok a | None => Panic end.

Definition is_ok {E A} (m : result E A) : bool := match m with Ok _ => true | _ => false end.

(** ** State-passing computations: [&mut self] methods that return a [Result].
    The state is threaded through errors too: what a handler changed before it
    failed stays changed, as it does in the code. *)
Definition St (S E A : Type) : Type := S -> result E A * S.

#[export] Instance St_ret {S E} : MRet (St S E) := fun A a s => (Ok a, s).
#[export] Instance St_bind {S E} : MBind (St S E) := fun A B f m s =>
  match m s with
  | (Ok a, s') => f a s'
  | (Err e, s') => (Err e, s')
  | (Panic, s') => (Panic, s')
  end.

Definition lift {S E A} (m : result E A) : St S E A := fun s => (m, s).
Definition fail {S E A} (e : E) : St S E A := fun s => (Err e, s).
Definition get_state {S E} : St S E S := fun s => (Ok s, s).
Definition modify {S E} (f : S -> S) : St S E unit := fun s => (Ok tt, f s).

(** ** Machine integers

    Unsigned integers are [N] values below their width's bound. *)
Definition u8_max : N := 255.
Definition u16_max : N := 65535.
Definition u32_max : N := 4294967295.
Definition u64_max : N := 18446744073709551615.
(** [usize] of the 64-bit Linux targets the daemon runs on. *)
Definition usize_max : N := 18446744073709551615.

Definition checked_add (m a b : N) : option N :=
  if decide (a + b <= m)%N then Some (a + b)%N else None.
Definition saturating_add (m a b : N) : N := N.min m (a + b).
Definition saturating_mul (m a b : N) : N := N.min m (a * b).
Definition saturating_sub (a b : N) : N := (a - b)%N.

Lemma checked_add_Some m a b c : checked_add m a b = Some c <-> c = (a + b)%N /\ (a + b <= m)%N.
Proof. unfold checked_add. destruct (decide _); split; intros; destruct_and?; simplify_eq; done. Qed.

Lemma checked_add_None m a b : checked_add m a b = None <-> (m < a + b)%N.
Proof. unfold checked_add. destruct (decide _); split; intros; simplify_eq; lia || done. Qed.

(** [.len()] of a slice, vector or string. *)
Definition len {A} (l : list A) : N := N.of_nat (length l).

Lemma len_nil {A} : len (@nil A) = 0%N.
Proof. reflexivity. Qed.
Lemma len_cons {A} (x : A) l : len (x :: l) = (1 + len l)%N.
Proof. unfold len; cbn [length]; lia. Qed.
Lemma len_app {A} (l k : list A) : len (l ++ k) = (len l + len k)%N.
Proof. unfold len; rewrite length_app; lia. Qed.
Lemma len_zero {A} (l : list A) : len l = 0%N <-> l = [].
Proof. destruct l; unfold len; cbn; split; intros; try done; lia. Qed.

(** ** Bytes and strings

    A Rust [str] is its UTF-8 bytes; [Utf8.v] says which byte lists are text. *)
Abbreviation bytes := (list byte).

Definition byte_val (b : byte) : N := Byte.to_N b.

(** A string literal of the source. *)
Definition bs (s : string) : bytes := String.list_byte_of_string s.

#[export] Instance byte_eq_dec : EqDecision byte.
Proof. intros x y. destruct (Byte.byte_eq_dec x y); [left | right]; done. Defined.

#[export] Instance byte_val_inj : Inj (=) (=) byte_val.
Proof.
  intros x y H. unfold byte_val in H.
  pose proof (Byte.of_to_N x) as Hx. pose proof (Byte.of_to_N y) as Hy.
  rewrite H in Hx. congruence.
Qed.

#[export] Instance byte_countable : Countable byte :=
  inj_countable byte_val Byte.of_N Byte.of_to_N.

Lemma byte_val_bound b : (byte_val b < 256)%N.
Proof. pose proof (Byte.to_N_bounded b). unfold byte_val. lia. Qed.

(** The low eight bits of a value, as a byte ([value as u8]). *)
Definition byte_of (n : N) : byte := default x00 (Byte.of_N (n mod 256)).

Lemma byte_val_of n : byte_val (byte_of n) = (n mod 256)%N.
Proof.
  unfold byte_of, byte_val.
  assert (n mod 256 < 256)%N as Hlt by (apply N.mod_lt; lia).
  destruct (Byte.of_N (n mod 256)) eqn:E; cbn.
  - by apply Byte.to_of_N.
  - apply Byte.of_N_None_iff in E. lia.
Qed.

Lemma byte_of_val b : byte_of (byte_val b) = b.
Proof.
  apply (inj byte_val). rewrite byte_val_of.
  apply N.mod_small, byte_val_bound.
Qed.

(** [is_ascii_graphic], [is_ascii_alphabetic], [is_ascii_alphanumeric]. *)
Definition in_range (b : byte) (lo hi : N) : bool :=
  (lo <=? byte_val b)%N && (byte_val b <=? hi)%N.
Definition is_ascii_graphic (b : byte) : bool := in_range b 0x21 0x7e.
Definition is_ascii_digit (b : byte) : bool := in_range b 0x30 0x39.
Definition is_ascii_alphabetic (b : byte) : bool :=
  in_range b 0x41 0x5a || in_range b 0x61 0x7a.
Definition is_ascii_alphanumeric (b : byte) : bool :=
  is_ascii_alphabetic b || is_ascii_digit b.
Definition is_ascii (b : byte) : bool := (byte_val b <? 128)%N.

Definition byte_eqb (a b : byte) : bool := bool_decide (a = b).

(** ** Big-endian integers: [to_be_bytes] and [from_be_bytes] *)

Fixpoint to_be (w : nat) (v : N) : bytes :=
  match w with
  | O => []
  | S w' => byte_of (v / 256 ^ N.of_nat w') :: to_be w' v
  end.

Fixpoint from_be (l : bytes) : N :=
  match l with
  | [] => 0
  | b :: k => byte_val b * 256 ^ len k + from_be k
  end.

Lemma length_to_be w v : length (to_be w v) = w.
Proof. induction w; cbn; congruence. Qed.

Lemma len_to_be w v : len (to_be w v) = N.of_nat w.
Proof. unfold len. by rewrite length_to_be. Qed.

Lemma from_be_bound l : (from_be l < 256 ^ len l)%N.
Proof.
  induction l as [|b l IH]; [done|]. cbn [from_be]. rewrite len_cons, N.pow_add_r.
  pose proof (byte_val_bound b). nia.
Qed.

Lemma from_be_to_be w v : from_be (to_be w v) = (v mod 256 ^ N.of_nat w)%N.
Proof.
  induction w as [|w IH]; [by rewrite N.mod_1_r|].
  cbn [to_be from_be]. rewrite len_to_be, byte_val_of, IH.
  rewrite Nat2N.inj_succ, N.pow_succ_r'.
  rewrite (N.mul_comm 256), N.Div0.mod_mul_r. lia.
Qed.

Lemma from_be_to_be_small w v :
  (v < 256 ^ N.of_nat w)%N -> from_be (to_be w v) = v.
Proof. intros. rewrite from_be_to_be. by apply N.mod_small. Qed.

Lemma to_be_add_high w a v : to_be w (a * 256 ^ N.of_nat w + v) = to_be w v.
Proof.
  revert a. induction w as [|w IH]; intros a; [done|]. cbn [to_be].
  rewrite Nat2N.inj_succ, N.pow_succ_r'. f_equal.
  - apply (inj byte_val). rewrite !byte_val_of.
    replace (a * (256 * 256 ^ N.of_nat w) + v)%N
      with ((a * 256) * 256 ^ N.of_nat w + v)%N by lia.
    rewrite N.div_add_l by (by apply N.pow_nonzero).
    by rewrite N.add_comm, N.Div0.mod_add.
  - replace (a * (256 * 256 ^ N.of_nat w) + v)%N
      with ((a * 256) * 256 ^ N.of_nat w + v)%N by lia. apply IH.
Qed.

Lemma to_be_from_be l w : length l = w -> to_be w (from_be l) = l.
Proof.
  intros <-. induction l as [|b l IH]; [done|]. cbn [length to_be from_be].
  fold (len l). f_equal.
  - apply (inj byte_val). rewrite byte_val_of.
    rewrite N.div_add_l by (by apply N.pow_nonzero).
    rewrite (N.div_small (from_be l)) by apply from_be_bound.
    rewrite N.add_0_r. apply N.mod_small, byte_val_bound.
  - unfold len. by rewrite to_be_add_high.
Qed.

#[global] Arguments to_be : simpl never.
#[global] Arguments from_be : simpl never.
#[global] Arguments byte_of : simpl never.

(** ** Prefixes: [str::strip_prefix] and [starts_with] *)

Fixpoint strip_prefix (p s : bytes) : option bytes :=
  match p, s with
  | [], _ => Some s
  | _ :: _, [] => None
  | a :: p', b :: s' => if decide (a = b) then strip_prefix p' s' else None
  end.

Definition starts_with (s p : bytes) : bool :=
  match strip_prefix p s with Some _ => true | None => false end.

Lemma strip_prefix_Some p s r : strip_prefix p s = Some r <-> s = p ++ r.
Proof.
  revert s. induction p as [|a p IH]; intros s; cbn; [split; congruence|].
  destruct s as [|b s]; [done|].
  destruct (decide (a = b)) as [->|Hne]; [rewrite IH|]; split; congruence.
Qed.

Lemma starts_with_iff s p : starts_with s p = true <-> exists r, s = p ++ r.
Proof.
  unfold starts_with. destruct (strip_prefix p s) as [r|] eqn:E.
  - apply strip_prefix_Some in E. split; [by exists r | done].
  - split; [done|]. intros [r Hr]. apply strip_prefix_Some in Hr. congruence.
Qed.

(** ** Decimal and hexadecimal text: [Display] of integers, [{:#06x}] *)

Definition dec (n : N) : bytes := bs (DecimalString.NilZero.string_of_uint (N.to_uint n)).

Definition hex_digit (n : N) : byte := byte_of (if (n <? 10)%N then 48 + n else 87 + n).

Definition hex16 (n : N) : bytes :=
  bs "0x" ++ (hex_digit <$> [n / 4096; n / 256 mod 16; n / 16 mod 16; n mod 16])%N.

Example hex16_example : hex16 0x1a2 = bs "0x01a2".
Proof. reflexivity. Qed.
Example dec_example : dec 1024 = bs "1024".
Proof. reflexivity. Qed.
