(* ===== verification/Ordered.v ===== *)
(** * Ordered collections

    Rust's [Ord] trait as a type class, the stable [slice::sort_by], and the
    iteration order of [BTreeMap] and [BTreeSet].  A [BTreeMap<K, V>] is a
    [gmap K V]; whatever the code does by iterating it goes through
    [bt_entries], which lists the entries by strictly increasing key. *)

From S2P Require Export Prelude.

(** ** The [Ord] trait *)

Class Ord (A : Type) : Type := cmp : A -> A -> comparison.

Class OrdLaws (A : Type) `{Ord A} : Prop := {
  cmp_eq (x y : A) : cmp x y = Eq <-> x = y;
  cmp_antisym (x y : A) : cmp y x = CompOpp (cmp x y);
  cmp_lt_trans (x y z : A) : cmp x y = Lt -> cmp y z = Lt -> cmp x z = Lt;
}.

Definition ord_lt {A} `{Ord A} (x y : A) : Prop := cmp x y = Lt.
Definition ord_le {A} `{Ord A} (x y : A) : Prop := cmp x y <> Gt.
(** The operator [<=] of the source, as a boolean. *)
Definition ord_leb {A} `{Ord A} (x y : A) : bool := match cmp x y with Gt => false | _ => true end.

Section ord_facts.
Context {A : Type} `{OrdLaws A}.
Implicit Types x y z : A.

Lemma cmp_refl x : cmp x x = Eq.
Proof. by apply cmp_eq. Qed.
Lemma cmp_gt x y : cmp x y = Gt <-> ord_lt y x.
Proof. unfold ord_lt. rewrite (cmp_antisym x y). by destruct (cmp x y). Qed.
Lemma ord_lt_irrefl x : ~ ord_lt x x.
Proof. unfold ord_lt. by rewrite cmp_refl. Qed.
#[export] Instance ord_lt_trans : Transitive (ord_lt (A := A)).
Proof. intros x y z. apply cmp_lt_trans. Qed.
#[export] Instance ord_lt_antisymm : AntiSymm (=) (ord_lt (A := A)).
Proof. intros x y Hxy Hyx. exfalso. apply (ord_lt_irrefl x). by transitivity y. Qed.
Lemma ord_lt_ne x y : ord_lt x y -> x <> y.
Proof. intros Hlt ->. by apply ord_lt_irrefl in Hlt. Qed.
Lemma ord_le_lt_eq x y : ord_le x y <-> ord_lt x y \/ x = y.
Proof.
  unfold ord_le, ord_lt. rewrite <- cmp_eq. destruct (cmp x y); intuition congruence.
Qed.
Lemma ord_not_le x y : ord_leb x y = false <-> ord_lt y x.
Proof. unfold ord_leb. rewrite <- cmp_gt. by destruct (cmp x y). Qed.
#[export] Instance ord_le_trans : Transitive (ord_le (A := A)).
Proof.
  intros x y z. rewrite !ord_le_lt_eq.
  intros [Hxy | ->] [Hyz | ->]; auto. left. by transitivity y.
Qed.
End ord_facts.

#[export] Instance N_ord : Ord N := N.compare.
#[export] Instance N_ord_laws : OrdLaws N.
Proof.
  split; unfold cmp, N_ord.
  - apply N.compare_eq_iff.
  - intros x y. apply N.compare_antisym.
  - intros x y z. rewrite !N.compare_lt_iff. lia.
Qed.

(** A type ordered by an injective projection: [#[derive(Ord)]] on a newtype. *)
Definition cmp_by {A B} `{Ord B} (f : A -> B) (x y : A) : comparison := cmp (f x) (f y).

Lemma cmp_by_laws {A B} `{OrdLaws B} (f : A -> B) `{!Inj (=) (=) f} :
  @OrdLaws A (cmp_by f).
Proof.
  split; unfold cmp, cmp_by.
  - intros x y. rewrite cmp_eq. split; [apply (inj f) | congruence].
  - intros x y. apply cmp_antisym.
  - intros x y z. apply cmp_lt_trans.
Qed.

#[export] Instance byte_ord : Ord byte := cmp_by byte_val.
#[export] Instance byte_ord_laws : OrdLaws byte := cmp_by_laws byte_val.

(** Slices, vectors and strings compare lexicographically. *)
Fixpoint list_cmp {A} `{Ord A} (l k : list A) : comparison :=
  match l, k with
  | [], [] => Eq
  | [], _ :: _ => Lt
  | _ :: _, [] => Gt
  | x :: l', y :: k' => match cmp x y with Eq => list_cmp l' k' | c => c end
  end.

#[export] Instance list_ord {A} `{Ord A} : Ord (list A) := list_cmp.

#[export] Instance list_ord_laws {A} `{OrdLaws A} : OrdLaws (list A).
Proof.
  split; unfold cmp, list_ord.
  - induction x as [|a l IH]; intros [|b k]; cbn; try done.
    specialize (IH k). destruct (cmp a b) eqn:E.
    + apply cmp_eq in E as ->. rewrite IH. split; [by intros -> | by intros [= ->]].
    + split; [done | intros [= -> ->]]. by rewrite cmp_refl in E.
    + split; [done | intros [= -> ->]]. by rewrite cmp_refl in E.
  - induction x as [|a l IH]; intros [|b k]; cbn; try done.
    rewrite (cmp_antisym a b). by destruct (cmp a b); cbn.
  - induction x as [|a l IH]; intros [|b k] [|c m]; cbn; try done.
    destruct (cmp a b) eqn:E1, (cmp b c) eqn:E2; try done.
    + apply cmp_eq in E1 as ->. rewrite E2. apply IH.
    + apply cmp_eq in E1 as ->. by rewrite E2.
    + apply cmp_eq in E2 as ->. by rewrite E1.
    + by rewrite (cmp_lt_trans a b c).
Qed.

(** ** [slice::sort_by]: stable insertion *)

Fixpoint insert_by {A} (c : A -> A -> comparison) (x : A) (l : list A) : list A :=
  match l with
  | [] => [x]
  | y :: k => match c x y with Gt => y :: insert_by c x k | _ => x :: l end
  end.

Definition sort_by {A} (c : A -> A -> comparison) (l : list A) : list A :=
  foldr (insert_by c) [] l.

Section sort_by.
Context {A : Type} (c : A -> A -> comparison).
Implicit Types l k : list A.

Let le (x y : A) : Prop := c x y <> Gt.

Lemma insert_by_perm x l : insert_by c x l ≡ₚ x :: l.
Proof.
  induction l as [|y l IH]; cbn; [done|].
  destruct (c x y); try done. rewrite IH. apply Permutation_swap.
Qed.

Lemma sort_by_perm l : sort_by c l ≡ₚ l.
Proof.
  induction l as [|x l IH]; cbn; [done|].
  rewrite insert_by_perm. by f_equiv.
Qed.

(** A total preorder, as [sort_by] requires of its comparison. *)
Hypothesis c_antisym : forall x y, c y x = CompOpp (c x y).
Hypothesis c_trans : forall x y z, le x y -> le y z -> le x z.

Lemma insert_by_sorted x l :
  StronglySorted le l -> StronglySorted le (insert_by c x l).
Proof.
  intros Hl. induction Hl as [|y l Hl IH Hy]; cbn; [by repeat constructor|].
  destruct (c x y) eqn:E.
  1,2: constructor; [by constructor|]; constructor; [unfold le; congruence|];
    eapply Forall_impl; [exact Hy|]; intros z Hz; apply (c_trans x y z); [|done];
    unfold le; congruence.
  constructor; [done|]. rewrite insert_by_perm. constructor; [|done].
  unfold le. rewrite (c_antisym x y), E. done.
Qed.

Lemma sort_by_sorted l : StronglySorted le (sort_by c l).
Proof. induction l; cbn; [constructor|]. by apply insert_by_sorted. Qed.

(** Stability: elements that compare equal keep their order. *)
Lemma insert_by_filter (P : A -> Prop) `{forall x, Decision (P x)} x l :
  (forall y z, P y -> P z -> c y z <> Gt) ->
  filter P (insert_by c x l) = filter P (x :: l).
Proof.
  intros HP. induction l as [|y l IH]; [done|]. cbn [insert_by].
  destruct (c x y) eqn:E; [done..|].
  rewrite filter_cons, IH, !filter_cons.
  repeat case_decide; try done. by exfalso; apply (HP x y).
Qed.

Lemma sort_by_stable (P : A -> Prop) `{forall x, Decision (P x)} l :
  (forall y z, P y -> P z -> c y z <> Gt) ->
  filter P (sort_by c l) = filter P l.
Proof.
  intros HP. induction l as [|x l IH]; [done|]. cbn [sort_by foldr].
  rewrite insert_by_filter by done. rewrite !filter_cons. unfold sort_by in IH.
  by rewrite IH.
Qed.
End sort_by.

(** ** [BTreeMap] and [BTreeSet] *)

Section btree.
Context {K : Type} `{Countable K} `{!Ord K}.

Definition entry_cmp {V} (a b : K * V) : comparison := cmp a.1 b.1.

(** [map.iter()]. *)
Definition bt_entries {V} (m : gmap K V) : list (K * V) :=
  sort_by entry_cmp (map_to_list m).
(** [map.keys()]. *)
Definition bt_keys {V} (m : gmap K V) : list K := (bt_entries m).*1.
(** [map.values()]. *)
Definition bt_values {V} (m : gmap K V) : list V := (bt_entries m).*2.
(** [set.iter()]. *)
Definition bs_elems (s : gset K) : list K := sort_by cmp (elements s).
(** [map.len()] and [set.len()]. *)
Definition bt_len {V} (m : gmap K V) : N := N.of_nat (size m).
Definition bs_len (s : gset K) : N := N.of_nat (size s).

Definition key_lt {V} (a b : K * V) : Prop := ord_lt a.1 b.1.

Lemma elem_of_bt_entries {V} (m : gmap K V) k v :
  (k, v) ∈ bt_entries m <-> m !! k = Some v.
Proof. unfold bt_entries. rewrite sort_by_perm. apply elem_of_map_to_list. Qed.

Lemma bt_entries_perm {V} (m : gmap K V) : bt_entries m ≡ₚ map_to_list m.
Proof. apply sort_by_perm. Qed.

Lemma bt_keys_nodup {V} (m : gmap K V) : NoDup (bt_keys m).
Proof. unfold bt_keys. rewrite bt_entries_perm. apply NoDup_fst_map_to_list. Qed.

Lemma elem_of_bt_keys {V} (m : gmap K V) k : k ∈ bt_keys m <-> is_Some (m !! k).
Proof.
  unfold bt_keys. rewrite list_elem_of_fmap. split.
  - intros [[k' v] [-> Hin]]. apply elem_of_bt_entries in Hin. by exists v.
  - intros [v Hv]. exists (k, v). by rewrite elem_of_bt_entries.
Qed.

Lemma elem_of_bt_values {V} (m : gmap K V) v :
  v ∈ bt_values m <-> exists k, m !! k = Some v.
Proof.
  unfold bt_values. rewrite list_elem_of_fmap. split.
  - intros [[k v'] [-> Hin]]. apply elem_of_bt_entries in Hin. by exists k.
  - intros [k Hk]. exists (k, v). by rewrite elem_of_bt_entries.
Qed.

Lemma length_bt_entries {V} (m : gmap K V) : len (bt_entries m) = bt_len m.
Proof.
  unfold len, bt_len. f_equal. rewrite bt_entries_perm. apply length_map_to_list.
Qed.

Lemma elem_of_bs_elems (s : gset K) k : k ∈ bs_elems s <-> k ∈ s.
Proof. unfold bs_elems. rewrite sort_by_perm. apply elem_of_elements. Qed.

Lemma bs_elems_nodup (s : gset K) : NoDup (bs_elems s).
Proof. unfold bs_elems. rewrite sort_by_perm. apply NoDup_elements. Qed.

Lemma length_bs_elems (s : gset K) : len (bs_elems s) = bs_len s.
Proof. unfold len, bs_len, bs_elems. by rewrite sort_by_perm. Qed.

Context `{!OrdLaws K}.

#[export] Instance key_lt_antisymm {V} : AntiSymm (=) (key_lt (V := V)).
Proof.
  intros a b Hab Hba. exfalso. apply (ord_lt_irrefl a.1). by transitivity b.1.
Qed.

Lemma sorted_nodup (l : list K) : StronglySorted ord_lt l -> NoDup l.
Proof.
  induction 1 as [|a l Hl IH Ha]; constructor; [|done].
  intros Hin. rewrite Forall_forall in Ha. by apply (ord_lt_irrefl a), Ha.
Qed.

Lemma le_antisym_sorted {V} (l : list (K * V)) :
  NoDup l.*1 -> StronglySorted (fun a b => entry_cmp a b <> Gt) l ->
  StronglySorted key_lt l.
Proof.
  intros Hnd Hl. induction Hl as [|a l Hl IH Ha]; [constructor|].
  cbn in Hnd. apply NoDup_cons in Hnd as [Hn Hnd].
  constructor; [by apply IH|].
  apply Forall_forall. intros b Hb. rewrite Forall_forall in Ha.
  specialize (Ha b Hb). unfold entry_cmp in Ha. apply ord_le_lt_eq in Ha as [?|Heq]; [done|].
  destruct Hn. rewrite Heq. by apply list_elem_of_fmap_2.
Qed.

Lemma bt_entries_sorted {V} (m : gmap K V) : StronglySorted key_lt (bt_entries m).
Proof.
  apply le_antisym_sorted; [apply bt_keys_nodup|]. apply sort_by_sorted.
  - intros a b. apply cmp_antisym.
  - intros a b c. apply ord_le_trans.
Qed.

Lemma bt_keys_sorted {V} (m : gmap K V) : StronglySorted ord_lt (bt_keys m).
Proof.
  unfold bt_keys. generalize (bt_entries_sorted m).
  induction 1 as [|a l Hl IH Ha]; cbn; [constructor|]. constructor; [done|].
  rewrite Forall_fmap. exact Ha.
Qed.

Lemma bs_elems_sorted (s : gset K) : StronglySorted ord_lt (bs_elems s).
Proof.
  pose proof (bs_elems_nodup s) as Hnd.
  assert (StronglySorted ord_le (bs_elems s)) as Hs.
  { apply sort_by_sorted; [intros; apply cmp_antisym | intros x y z; apply ord_le_trans]. }
  revert Hnd. induction Hs as [|a l Hl IH Ha]; [constructor|].
  intros [Hn Hnd]%NoDup_cons. constructor; [by apply IH|].
  apply Forall_forall. intros b Hb. rewrite Forall_forall in Ha.
  destruct (proj1 (ord_le_lt_eq _ _) (Ha b Hb)) as [?| ->]; done.
Qed.

(** The ordered listing is the only one: a strictly sorted list of the
    entries of a map is what iterating the map yields. *)
Lemma bt_entries_list_to_map {V} (l : list (K * V)) :
  StronglySorted key_lt l -> bt_entries (list_to_map l) = l.
Proof.
  intros Hl. assert (NoDup l.*1) as Hnd.
  { induction Hl as [|a l Hl IH Ha]; cbn; constructor; [|done].
    rewrite list_elem_of_fmap. intros [b [Heq Hb]]. rewrite Forall_forall in Ha.
    specialize (Ha b Hb). unfold key_lt in Ha. rewrite Heq in Ha.
    by apply ord_lt_irrefl in Ha. }
  apply (StronglySorted_unique key_lt); [apply bt_entries_sorted | done |].
  rewrite bt_entries_perm. by apply map_to_list_to_map.
Qed.

Lemma list_to_map_bt_entries {V} (m : gmap K V) : list_to_map (bt_entries m) = m.
Proof.
  rewrite <- (list_to_map_to_list m) at 2.
  apply list_to_map_proper; [apply bt_keys_nodup | apply bt_entries_perm].
Qed.

Lemma bs_elems_list_to_set (l : list K) :
  StronglySorted ord_lt l -> bs_elems (list_to_set l) = l.
Proof.
  intros Hl. pose proof (sorted_nodup l Hl) as Hnd.
  apply (StronglySorted_unique ord_lt); [apply bs_elems_sorted | done |].
  unfold bs_elems. rewrite sort_by_perm. by apply elements_list_to_set.
Qed.

Lemma list_to_set_bs_elems (s : gset K) : list_to_set (bs_elems s) = s.
Proof. apply set_eq. intros k. rewrite elem_of_list_to_set. apply elem_of_bs_elems. Qed.
End btree.
