(* ===== verification/Utf8.v ===== *)
(** * UTF-8 text: [std::str::from_utf8]

    The decoder accepts the text fields of a frame through
    [std::str::from_utf8] (crates/bus-protocol/src/lib.rs, [Reader::text]).
    [utf8_valid] is that validator, byte by byte; [utf8_valid_iff] shows it
    accepts exactly the encodings of sequences of Unicode scalar values. *)

From S2P Require Export Prelude.

Local Open Scope N_scope.

#[local] Ltac Zify.zify_post_hook ::= Z.to_euclidean_division_equations.

(** A continuation byte [10xxxxxx]. *)
Definition utf8_cont (b : byte) : bool := in_range b 0x80 0xbf.

(** The number of bytes a lead byte announces; 0 for a byte that leads nothing. *)
Definition utf8_width (b : byte) : nat :=
  if is_ascii b then 1
  else if in_range b 0xc2 0xdf then 2
  else if in_range b 0xe0 0xef then 3
  else if in_range b 0xf0 0xf4 then 4 else 0.

(** The second byte allowed after a three-byte and a four-byte lead. *)
Definition utf8_second3 (a b : byte) : bool :=
  (if byte_val a =? 0xe0 then in_range b 0xa0 0xbf
   else if byte_val a =? 0xed then in_range b 0x80 0x9f else utf8_cont b)%N.
Definition utf8_second4 (a b : byte) : bool :=
  (if byte_val a =? 0xf0 then in_range b 0x90 0xbf
   else if byte_val a =? 0xf4 then in_range b 0x80 0x8f else utf8_cont b)%N.

Fixpoint utf8_valid (l : bytes) : bool :=
  match l with
  | [] => true
  | a :: l1 =>
      match utf8_width a, l1 with
      | 1%nat, _ => utf8_valid l1
      | 2%nat, b :: l2 => utf8_cont b && utf8_valid l2
      | 3%nat, b :: c :: l3 => utf8_second3 a b && utf8_cont c && utf8_valid l3
      | 4%nat, b :: c :: d :: l4 =>
          utf8_second4 a b && utf8_cont c && utf8_cont d && utf8_valid l4
      | _, _ => false
      end
  end.

(** [std::str::from_utf8]: the error carries no information the code uses. *)
Definition from_utf8 (l : bytes) : result unit bytes :=
  if utf8_valid l then Ok l else Err tt.

(** ** The specification: encodings of scalar values *)

Definition scalar (c : N) : Prop := c < 0xd800 \/ 0xe000 <= c < 0x110000.

Definition encode_scalar (c : N) : bytes :=
  if c <? 0x80 then [byte_of c]
  else if c <? 0x800 then [byte_of (0xc0 + c / 64); byte_of (0x80 + c mod 64)]
  else if c <? 0x10000 then
    [byte_of (0xe0 + c / 4096); byte_of (0x80 + c / 64 mod 64); byte_of (0x80 + c mod 64)]
  else
    [byte_of (0xf0 + c / 262144); byte_of (0x80 + c / 4096 mod 64);
     byte_of (0x80 + c / 64 mod 64); byte_of (0x80 + c mod 64)].

Definition encode_scalars (cs : list N) : bytes := concat (encode_scalar <$> cs).

Lemma byte_val_of_small n : n < 256 -> byte_val (byte_of n) = n.
Proof. intros. rewrite byte_val_of. by apply N.mod_small. Qed.

(** Decides every comparison of byte values in the goal by linear arithmetic. *)
Ltac decide_ranges :=
  unfold utf8_second3, utf8_second4, utf8_cont, in_range, is_ascii;
  rewrite ?byte_val_of_small by lia;
  repeat match goal with
  | |- context [N.leb ?a ?b] => destruct (N.leb_spec a b); try lia
  | |- context [N.ltb ?a ?b] => destruct (N.ltb_spec a b); try lia
  | |- context [N.eqb ?a ?b] => destruct (N.eqb_spec a b); try lia
  end; cbn; try done; try lia.

(** What each width says of the lead byte. *)
Lemma utf8_width_spec a :
  match utf8_width a with
  | 1%nat => byte_val a < 128
  | 2%nat => 0xc2 <= byte_val a <= 0xdf
  | 3%nat => 0xe0 <= byte_val a <= 0xef
  | 4%nat => 0xf0 <= byte_val a <= 0xf4
  | _ => 128 <= byte_val a < 0xc2 \/ 0xf4 < byte_val a
  end.
Proof. unfold utf8_width. decide_ranges. Qed.

(** A byte in the range of a width has that width. *)
Lemma utf8_width_of n w :
  n < 256 ->
  match w with
  | 1%nat => n < 128
  | 2%nat => 0xc2 <= n <= 0xdf
  | 3%nat => 0xe0 <= n <= 0xef
  | 4%nat => 0xf0 <= n <= 0xf4
  | _ => False
  end -> utf8_width (byte_of n) = w.
Proof.
  intros Hn Hw. pose proof (utf8_width_spec (byte_of n)) as Hs.
  rewrite byte_val_of_small in Hs by done.
  destruct (utf8_width _) as [|[|[|[|[|]]]]], w as [|[|[|[|[|]]]]]; lia.
Qed.

Lemma utf8_valid_encode c l :
  scalar c -> utf8_valid (encode_scalar c ++ l) = utf8_valid l.
Proof.
  unfold scalar, encode_scalar. intros Hc.
  destruct (N.ltb_spec c 0x80); [|destruct (N.ltb_spec c 0x800);
    [|destruct (N.ltb_spec c 0x10000)]]; cbn [app utf8_valid].
  - by rewrite (utf8_width_of c 1) by lia.
  - rewrite (utf8_width_of _ 2) by lia. decide_ranges.
  - rewrite (utf8_width_of _ 3) by lia. decide_ranges.
  - rewrite (utf8_width_of _ 4) by lia. decide_ranges.
Qed.

Lemma utf8_valid_encodes cs : Forall scalar cs -> utf8_valid (encode_scalars cs) = true.
Proof.
  induction 1 as [|c cs Hc _ IH]; [done|].
  unfold encode_scalars. cbn. by rewrite utf8_valid_encode.
Qed.

(** Equality of bytes is equality of their values, and the value of a
    multi-byte sequence is the code point it encodes. *)
Lemma byte_of_eq n b : n = byte_val b -> byte_of n = b.
Proof. intros ->. apply byte_of_val. Qed.

Ltac range_hyps :=
  unfold utf8_second3, utf8_second4, utf8_cont, in_range in *;
  repeat match goal with
  | H : (_ && _)%bool = true |- _ => apply andb_true_iff in H as [? ?]
  | H : N.leb _ _ = true |- _ => apply N.leb_le in H
  | H : (if ?c =? ?d then _ else _) = true |- _ => destruct (N.eqb_spec c d)
  end.

Ltac pick_scalar c :=
  exists c; split; [unfold scalar; lia|]; unfold encode_scalar;
  repeat match goal with |- context [N.ltb ?a ?b] => destruct (N.ltb_spec a b); try lia end;
  cbn [app]; repeat f_equal; symmetry; apply byte_of_eq; lia.

(** The first character of valid text. *)
Lemma utf8_valid_head a l :
  utf8_valid (a :: l) = true ->
  exists k, utf8_valid k = true /\ (length k <= length l)%nat /\
    exists c, scalar c /\ a :: l = encode_scalar c ++ k.
Proof.
  cbn [utf8_valid]. pose proof (utf8_width_spec a) as Hw.
  destruct (utf8_width a) as [|[|[|[|[|w]]]]]; try done.
  - intros Hl. exists l. do 2 (split; [done|]). pick_scalar (byte_val a).
  - destruct l as [|b l]; [done|]. intros [Hb Hl]%andb_true_iff.
    exists l. split; [done|]. split; [cbn; lia|]. range_hyps.
    pick_scalar ((byte_val a - 0xc0) * 64 + (byte_val b - 0x80)).
  - destruct l as [|b [|c l]]; try done. intros [[Hb Hc]%andb_true_iff Hl]%andb_true_iff.
    exists l. split; [done|]. split; [cbn; lia|]. range_hyps.
    all: pick_scalar ((byte_val a - 0xe0) * 4096 + (byte_val b - 0x80) * 64 + (byte_val c - 0x80)).
  - destruct l as [|b [|c [|d l]]]; try done.
    intros [[[Hb Hc]%andb_true_iff Hd]%andb_true_iff Hl]%andb_true_iff.
    exists l. split; [done|]. split; [cbn; lia|]. range_hyps.
    all: pick_scalar ((byte_val a - 0xf0) * 262144 + (byte_val b - 0x80) * 4096
                      + (byte_val c - 0x80) * 64 + (byte_val d - 0x80)).
Qed.

Theorem utf8_valid_iff l :
  utf8_valid l = true <-> exists cs, Forall scalar cs /\ l = encode_scalars cs.
Proof.
  split; [|intros (cs & Hcs & ->); by apply utf8_valid_encodes].
  induction l as [l IH] using (induction_ltof1 _ (@length byte)); unfold ltof in IH.
  destruct l as [|a l]; [by exists []|].
  intros (k & Hk & Hlen & c & Hc & ->)%utf8_valid_head.
  destruct (IH k) as (cs & Hcs & ->); [|done|].
  { cbn. lia. }
  exists (c :: cs). split; [by constructor | done].
Qed.

Lemma utf8_valid_app l k :
  utf8_valid l = true -> utf8_valid k = true -> utf8_valid (l ++ k) = true.
Proof.
  rewrite !utf8_valid_iff. intros (cs & Hcs & ->) (ds & Hds & ->).
  exists (cs ++ ds). split; [by apply Forall_app|].
  unfold encode_scalars. by rewrite fmap_app, concat_app.
Qed.

(** ASCII text is text. *)
Lemma utf8_valid_ascii l : forallb is_ascii l = true -> utf8_valid l = true.
Proof.
  induction l as [|a l IH]; [done|]. cbn [forallb utf8_valid].
  intros [Ha Hl]%andb_true_iff. unfold utf8_width. rewrite Ha. by apply IH.
Qed.

(** ** [to_string_lossy]

    Each maximal ill-formed sequence becomes a replacement character. *)

Definition replacement_character : bytes := [xef; xbf; xbd].

Fixpoint to_string_lossy (l : bytes) : bytes :=
  match l with
  | [] => []
  | a :: l1 =>
      match utf8_width a, l1 with
      | 1%nat, _ => a :: to_string_lossy l1
      | 2%nat, b :: l2 =>
          if utf8_cont b then a :: b :: to_string_lossy l2
          else replacement_character ++ to_string_lossy l1
      | 3%nat, b :: l2 =>
          if utf8_second3 a b then
            match l2 with
            | c :: l3 =>
                if utf8_cont c then a :: b :: c :: to_string_lossy l3
                else replacement_character ++ to_string_lossy l2
            | [] => replacement_character
            end
          else replacement_character ++ to_string_lossy l1
      | 4%nat, b :: l2 =>
          if utf8_second4 a b then
            match l2 with
            | c :: l3 =>
                if utf8_cont c then
                  match l3 with
                  | d :: l4 =>
                      if utf8_cont d then a :: b :: c :: d :: to_string_lossy l4
                      else replacement_character ++ to_string_lossy l3
                  | [] => replacement_character
                  end
                else replacement_character ++ to_string_lossy l2
            | [] => replacement_character
            end
          else replacement_character ++ to_string_lossy l1
      | _, _ => replacement_character ++ to_string_lossy l1
      end
  end.

Lemma replacement_valid l : utf8_valid (replacement_character ++ l) = utf8_valid l.
Proof. done. Qed.

(** Whatever the bytes, the result is text; text is left alone. *)
Lemma to_string_lossy_valid l : utf8_valid (to_string_lossy l) = true.
Proof.
  enough (forall n l, (length l <= n)%nat -> utf8_valid (to_string_lossy l) = true) as H
    by by apply (H (length l)).
  clear l. induction n as [|n IH]; intros [|a l] Hl; cbn in Hl; try done; [lia|].
  cbn [to_string_lossy].
  destruct (utf8_width a) as [|[|[|[|[|]]]]] eqn:Ew; try (apply IH; lia).
  - cbn [utf8_valid]. rewrite Ew. apply IH. lia.
  - destruct l as [|b l]; [done|]. destruct (utf8_cont b) eqn:Eb; [|apply IH; lia].
    cbn [utf8_valid]. rewrite Ew, Eb. apply IH. cbn in Hl. lia.
  - destruct l as [|b l]; [done|]. destruct (utf8_second3 a b) eqn:Eb; [|apply IH; lia].
    destruct l as [|c l]; [done|]. cbn in Hl. destruct (utf8_cont c) eqn:Ec; [|apply IH; cbn; lia].
    cbn [utf8_valid]. rewrite Ew, Eb, Ec. apply IH. lia.
  - destruct l as [|b l]; [done|]. destruct (utf8_second4 a b) eqn:Eb; [|apply IH; lia].
    destruct l as [|c l]; [done|]. cbn in Hl. destruct (utf8_cont c) eqn:Ec; [|apply IH; cbn; lia].
    destruct l as [|d l]; [done|]. cbn in Hl. destruct (utf8_cont d) eqn:Ed; [|apply IH; cbn; lia].
    cbn [utf8_valid]. rewrite Ew, Eb, Ec, Ed. apply IH. lia.
Qed.

Lemma to_string_lossy_id l : utf8_valid l = true -> to_string_lossy l = l.
Proof.
  enough (forall n l, (length l <= n)%nat -> utf8_valid l = true -> to_string_lossy l = l) as H
    by by apply (H (length l)).
  clear l. induction n as [|n IH]; intros [|a l] Hl Hv; cbn in Hl; try done; [lia|].
  cbn [to_string_lossy]. cbn [utf8_valid] in Hv.
  destruct (utf8_width a) as [|[|[|[|[|]]]]] eqn:Ew; try done.
  - f_equal. apply IH; [lia|done].
  - destruct l as [|b l]; [done|]. apply andb_true_iff in Hv as [-> Hv].
    do 2 f_equal. apply IH; [cbn in Hl; lia|done].
  - destruct l as [|b [|c l]]; try done. rewrite !andb_true_iff in Hv. destruct Hv as [[-> ->] Hv].
    do 3 f_equal. apply IH; [cbn in Hl; lia|done].
  - destruct l as [|b [|c [|d l]]]; try done. rewrite !andb_true_iff in Hv.
    destruct Hv as [[[-> ->] ->] Hv]. do 4 f_equal. apply IH; [cbn in Hl; lia|done].
Qed.
