(* ===== verification/Protocol.v ===== *)
(** * The BUS/1-preview data model (crates/bus-protocol/src/lib.rs)

    Names, header values, the enumerations of the envelope, and the frames,
    with the validators of names and of delivery options.  The invariants a
    Rust type carries by construction (integer widths, UTF-8 strings, names
    that went through [parse]) are the [wf_*] predicates. *)

From S2P Require Export Prelude Ordered Utf8.

Local Open Scope N_scope.

(** ** Constants *)

Definition MAGIC : bytes := bs "BUS1".
Definition VERSION : byte := x03.
Definition HEADER_SIZE : N := 12.
Definition MAX_NAME_LENGTH : N := 255.

(** ** Identities and names *)

Record PeerId := PeerId_new { PeerId_get : N }.
Record MessageId := MessageId_new { MessageId_as_bytes : bytes }.
Record ClientId := ClientId_of { ClientId_as_str : bytes }.
Record Namespace := Namespace_of { Namespace_as_str : bytes }.
Record Channel := Channel_of { Channel_as_str : bytes }.

Definition MessageId_absent : MessageId := MessageId_new (replicate 16 x00).
Definition MessageId_is_absent (m : MessageId) : bool :=
  bool_decide (MessageId_as_bytes m = replicate 16 x00).

Inductive NameError := NameError_MissingNamespaceScheme | NameError_Invalid.

Definition validate_name (value : bytes) : result NameError unit :=
  if bool_decide (value = []) || (MAX_NAME_LENGTH <? len value)
     || negb (forallb (fun b => is_ascii_graphic b && negb (byte_eqb b x2f)) value)
  then Err NameError_Invalid
  else Ok tt.

Definition ClientId_parse (value : bytes) : result NameError ClientId :=
  _ ← validate_name value; Ok (ClientId_of value).

Definition Channel_parse (value : bytes) : result NameError Channel :=
  _ ← validate_name value; Ok (Channel_of value).

Definition Namespace_parse (value : bytes) : result NameError Namespace :=
  match strip_prefix (bs "bus://") value with
  | None => Err NameError_MissingNamespaceScheme
  | Some name => _ ← validate_name name; Ok (Namespace_of value)
  end.

(** ** Headers and capabilities *)

Inductive HeaderValue :=
| HeaderValue_Text (value : bytes)
| HeaderValue_Unsigned (value : N)
| HeaderValue_Boolean (value : bool)
| HeaderValue_Binary (value : bytes).

Abbreviation Headers := (gmap bytes HeaderValue).
Abbreviation Capabilities := (gset bytes).

(** ** The envelope's enumerations *)

Inductive MessageKind := MessageKind_Signal | MessageKind_Request | MessageKind_Response.

Inductive AckPolicy :=
| AckPolicy_None | AckPolicy_Accepted | AckPolicy_Received | AckPolicy_Processed.

Inductive AckRequirement :=
| AckRequirement_None | AckRequirement_Any | AckRequirement_All
| AckRequirement_Minimum (minimum : N).

Inductive RequestPolicy :=
| RequestPolicy_Exact | RequestPolicy_First | RequestPolicy_FirstSuccess | RequestPolicy_All.

Inductive RetryPolicy :=
| RetryPolicy_None
| RetryPolicy_Exponential (initial_backoff_ms max_attempts : N).

Inductive DeliveryOutcome :=
| DeliveryOutcome_Accepted | DeliveryOutcome_Received | DeliveryOutcome_Processed
| DeliveryOutcome_Timeout | DeliveryOutcome_NoRecipient
| DeliveryOutcome_RecipientDisconnected | DeliveryOutcome_DeliveryFailed.

Inductive ClientSelection :=
| ClientSelection_First | ClientSelection_Any | ClientSelection_All.

Inductive Destination :=
| Destination_Broker
| Destination_Peer (peer : PeerId)
| Destination_Namespace (namespace : Namespace)
| Destination_Channel (channel : Channel)
| Destination_ClientId (client_id : ClientId) (selection : ClientSelection)
| Destination_Broadcast.

Inductive ControlOperation :=
| ControlOperation_Claim | ControlOperation_Subscribe | ControlOperation_Unsubscribe.

Inductive HeaderFilter :=
| HeaderFilter_Exists (name : bytes)
| HeaderFilter_NotExists (name : bytes)
| HeaderFilter_Equal (name : bytes) (value : HeaderValue)
| HeaderFilter_NotEqual (name : bytes) (value : HeaderValue)
| HeaderFilter_Prefix (name : bytes) (value : HeaderValue).

Inductive Status :=
| Status_Success | Status_Error | Status_Unsupported
| Status_Denied | Status_Busy | Status_NotFound.

Inductive ProtocolErrorCode :=
| ProtocolErrorCode_MalformedFrame | ProtocolErrorCode_UnsupportedVersion
| ProtocolErrorCode_UnknownFrameKind | ProtocolErrorCode_LimitExceeded
| ProtocolErrorCode_NonCanonical | ProtocolErrorCode_InvalidState
| ProtocolErrorCode_NoRecipient.

(** ** Frames *)

(** The fields of [Frame::Message]. *)
Record Message := {
  m_kind : MessageKind;
  m_ack_policy : AckPolicy;
  m_ack_requirement : AckRequirement;
  m_request_policy : RequestPolicy;
  m_deadline_ms : N;
  m_retry : RetryPolicy;
  m_destination : Destination;
  m_message_id : MessageId;
  m_correlation_id : MessageId;
  m_status : Status;
  m_headers : Headers;
  m_payload : bytes;
}.

Inductive Frame :=
| Frame_Hello (client_id : option ClientId) (headers : Headers) (capabilities : Capabilities)
| Frame_Welcome (peer_id : PeerId) (capabilities : Capabilities)
| Frame_Claim (namespace : Namespace) (headers : Headers)
| Frame_Subscribe (channel : Channel) (filters : list HeaderFilter)
| Frame_Unsubscribe (channel : Channel)
| Frame_Message (message : Message)
| Frame_Acknowledge (message_id : MessageId) (policy : AckPolicy)
| Frame_DeliveryResult (message_id : MessageId) (outcome : DeliveryOutcome)
| Frame_ProtocolError (code : ProtocolErrorCode) (message : bytes)
| Frame_ControlResult (operation : ControlOperation)
| Frame_ResolveNamespace (namespace : Namespace)
| Frame_NamespaceResolved (namespace : Namespace) (owner : option PeerId).

(** ** Limits and errors *)

Record FrameLimits := {
  maximum_frame_size : N;
  maximum_headers : N;
  maximum_capabilities : N;
  maximum_filters : N;
}.

Definition FrameLimits_default : FrameLimits := {|
  maximum_frame_size := 1048576;
  maximum_headers := 128;
  maximum_capabilities := 128;
  maximum_filters := 64;
|}.

Inductive CodecError :=
| CodecError_Truncated
| CodecError_InvalidMagic
| CodecError_UnsupportedVersion (version : N)
| CodecError_UnknownFrameKind (kind : N)
| CodecError_ReservedFlags (flags : N)
| CodecError_LengthMismatch
| CodecError_FrameTooLarge
| CodecError_LimitExceeded (name : string)
| CodecError_InvalidValue (name : string)
| CodecError_NonCanonical (name : string)
| CodecError_InvalidName (error : NameError)
| CodecError_InvalidUtf8.

(** ** Decidable equality, countability and order *)

#[export] Instance PeerId_eq_dec : EqDecision PeerId.
Proof. solve_decision. Defined.
#[export] Instance MessageId_eq_dec : EqDecision MessageId.
Proof. solve_decision. Defined.
#[export] Instance ClientId_eq_dec : EqDecision ClientId.
Proof. solve_decision. Defined.
#[export] Instance Namespace_eq_dec : EqDecision Namespace.
Proof. solve_decision. Defined.
#[export] Instance Channel_eq_dec : EqDecision Channel.
Proof. solve_decision. Defined.
#[export] Instance NameError_eq_dec : EqDecision NameError.
Proof. solve_decision. Defined.
#[export] Instance HeaderValue_eq_dec : EqDecision HeaderValue.
Proof. solve_decision. Defined.
#[export] Instance MessageKind_eq_dec : EqDecision MessageKind.
Proof. solve_decision. Defined.
#[export] Instance AckPolicy_eq_dec : EqDecision AckPolicy.
Proof. solve_decision. Defined.
#[export] Instance AckRequirement_eq_dec : EqDecision AckRequirement.
Proof. solve_decision. Defined.
#[export] Instance RequestPolicy_eq_dec : EqDecision RequestPolicy.
Proof. solve_decision. Defined.
#[export] Instance RetryPolicy_eq_dec : EqDecision RetryPolicy.
Proof. solve_decision. Defined.
#[export] Instance DeliveryOutcome_eq_dec : EqDecision DeliveryOutcome.
Proof. solve_decision. Defined.
#[export] Instance ClientSelection_eq_dec : EqDecision ClientSelection.
Proof. solve_decision. Defined.
#[export] Instance Destination_eq_dec : EqDecision Destination.
Proof. solve_decision. Defined.
#[export] Instance ControlOperation_eq_dec : EqDecision ControlOperation.
Proof. solve_decision. Defined.
#[export] Instance HeaderFilter_eq_dec : EqDecision HeaderFilter.
Proof. solve_decision. Defined.
#[export] Instance Status_eq_dec : EqDecision Status.
Proof. solve_decision. Defined.
#[export] Instance ProtocolErrorCode_eq_dec : EqDecision ProtocolErrorCode.
Proof. solve_decision. Defined.
#[export] Instance Message_eq_dec : EqDecision Message.
Proof. solve_decision. Defined.
#[export] Instance Frame_eq_dec : EqDecision Frame.
Proof. solve_decision. Defined.
#[export] Instance CodecError_eq_dec : EqDecision CodecError.
Proof. solve_decision. Defined.

#[export] Instance PeerId_get_inj : Inj (=) (=) PeerId_get.
Proof. by intros [x] [y] [= ->]. Qed.
#[export] Instance MessageId_as_bytes_inj : Inj (=) (=) MessageId_as_bytes.
Proof. by intros [x] [y] [= ->]. Qed.
#[export] Instance Namespace_as_str_inj : Inj (=) (=) Namespace_as_str.
Proof. by intros [x] [y] [= ->]. Qed.
#[export] Instance Channel_as_str_inj : Inj (=) (=) Channel_as_str.
Proof. by intros [x] [y] [= ->]. Qed.

#[export] Program Instance PeerId_countable : Countable PeerId :=
  inj_countable' PeerId_get PeerId_new _.
Next Obligation. by intros []. Qed.
#[export] Program Instance MessageId_countable : Countable MessageId :=
  inj_countable' MessageId_as_bytes MessageId_new _.
Next Obligation. by intros []. Qed.
#[export] Program Instance Namespace_countable : Countable Namespace :=
  inj_countable' Namespace_as_str Namespace_of _.
Next Obligation. by intros []. Qed.
#[export] Program Instance Channel_countable : Countable Channel :=
  inj_countable' Channel_as_str Channel_of _.
Next Obligation. by intros []. Qed.

#[export] Instance PeerId_ord : Ord PeerId := cmp_by PeerId_get.
#[export] Instance PeerId_ord_laws : OrdLaws PeerId := cmp_by_laws PeerId_get.
#[export] Instance MessageId_ord : Ord MessageId := cmp_by MessageId_as_bytes.
#[export] Instance MessageId_ord_laws : OrdLaws MessageId := cmp_by_laws MessageId_as_bytes.
#[export] Instance Namespace_ord : Ord Namespace := cmp_by Namespace_as_str.
#[export] Instance Namespace_ord_laws : OrdLaws Namespace := cmp_by_laws Namespace_as_str.
#[export] Instance Channel_ord : Ord Channel := cmp_by Channel_as_str.
#[export] Instance Channel_ord_laws : OrdLaws Channel := cmp_by_laws Channel_as_str.

(** ** Validation of a message envelope *)

(** [matches!(policy, AckPolicy::Received | AckPolicy::Processed)]: the
    policies that wait for a receiver. *)
Definition ack_policy_waits (policy : AckPolicy) : bool :=
  match policy with AckPolicy_Received | AckPolicy_Processed => true | _ => false end.

Definition validate_delivery_options (kind : MessageKind) (ack_policy : AckPolicy)
    (ack_requirement : AckRequirement) (request_policy : RequestPolicy)
    (deadline_ms : N) (retry : RetryPolicy) : result CodecError unit :=
  if negb (ack_policy_waits ack_policy)
     && negb (bool_decide (ack_requirement = AckRequirement_None))
  then Err (CodecError_NonCanonical "acknowledgement requirement")
  else if ack_policy_waits ack_policy && bool_decide (ack_requirement = AckRequirement_None)
  then Err (CodecError_InvalidValue "acknowledgement requirement")
  else if ack_policy_waits ack_policy && (deadline_ms =? 0)
  then Err (CodecError_InvalidValue "acknowledgement deadline")
  else if negb (bool_decide (retry = RetryPolicy_None))
     && negb (bool_decide (kind = MessageKind_Request))
     && negb (ack_policy_waits ack_policy)
  then Err (CodecError_InvalidValue "retry acknowledgement policy")
  else if negb (bool_decide (kind = MessageKind_Request))
     && negb (bool_decide (request_policy = RequestPolicy_Exact))
  then Err (CodecError_NonCanonical "non-request routing policy")
  else if bool_decide (kind = MessageKind_Request) && (deadline_ms =? 0)
  then Err (CodecError_InvalidValue "request deadline")
  else if bool_decide (kind = MessageKind_Response)
     && (negb (deadline_ms =? 0) || negb (bool_decide (retry = RetryPolicy_None)))
  then Err (CodecError_NonCanonical "response delivery options")
  else Ok tt.

Definition validate_message_identity (kind : MessageKind)
    (message_id correlation_id : MessageId) (status : Status) : result CodecError unit :=
  if MessageId_is_absent message_id then Err (CodecError_InvalidValue "message ID")
  else match kind with
  | MessageKind_Response =>
      if MessageId_is_absent correlation_id
      then Err (CodecError_InvalidValue "response correlation ID")
      else Ok tt
  | _ =>
      if negb (MessageId_is_absent correlation_id)
      then Err (CodecError_NonCanonical "non-response correlation ID")
      else if negb (bool_decide (status = Status_Success))
      then Err (CodecError_InvalidValue "non-response status")
      else Ok tt
  end.

(** ** One-byte tags *)

Definition message_kind_tag (value : MessageKind) : N :=
  match value with
  | MessageKind_Signal => 0
  | MessageKind_Request => 1
  | MessageKind_Response => 2
  end.

Definition ack_policy_tag (value : AckPolicy) : N :=
  match value with
  | AckPolicy_None => 0
  | AckPolicy_Accepted => 1
  | AckPolicy_Received => 2
  | AckPolicy_Processed => 3
  end.

Definition request_policy_tag (value : RequestPolicy) : N :=
  match value with
  | RequestPolicy_Exact => 0
  | RequestPolicy_First => 1
  | RequestPolicy_FirstSuccess => 2
  | RequestPolicy_All => 3
  end.

Definition delivery_outcome_tag (value : DeliveryOutcome) : N :=
  match value with
  | DeliveryOutcome_Accepted => 0
  | DeliveryOutcome_Received => 1
  | DeliveryOutcome_Processed => 2
  | DeliveryOutcome_Timeout => 3
  | DeliveryOutcome_NoRecipient => 4
  | DeliveryOutcome_RecipientDisconnected => 5
  | DeliveryOutcome_DeliveryFailed => 6
  end.

Definition status_tag (value : Status) : N :=
  match value with
  | Status_Success => 0
  | Status_Error => 1
  | Status_Unsupported => 2
  | Status_Denied => 3
  | Status_Busy => 4
  | Status_NotFound => 5
  end.

Definition protocol_error_code_tag (value : ProtocolErrorCode) : N :=
  match value with
  | ProtocolErrorCode_MalformedFrame => 0
  | ProtocolErrorCode_UnsupportedVersion => 1
  | ProtocolErrorCode_UnknownFrameKind => 2
  | ProtocolErrorCode_LimitExceeded => 3
  | ProtocolErrorCode_NonCanonical => 4
  | ProtocolErrorCode_InvalidState => 5
  | ProtocolErrorCode_NoRecipient => 6
  end.

Definition client_selection_tag (value : ClientSelection) : N :=
  match value with
  | ClientSelection_First => 0
  | ClientSelection_Any => 1
  | ClientSelection_All => 2
  end.

Definition control_operation_tag (value : ControlOperation) : N :=
  match value with
  | ControlOperation_Claim => 0
  | ControlOperation_Subscribe => 1
  | ControlOperation_Unsubscribe => 2
  end.

Definition decode_message_kind (value : N) : result CodecError MessageKind :=
  match value with
  | 0 => Ok MessageKind_Signal
  | 1 => Ok MessageKind_Request
  | 2 => Ok MessageKind_Response
  | _ => Err (CodecError_InvalidValue "message kind")
  end.

Definition decode_ack_policy (value : N) : result CodecError AckPolicy :=
  match value with
  | 0 => Ok AckPolicy_None
  | 1 => Ok AckPolicy_Accepted
  | 2 => Ok AckPolicy_Received
  | 3 => Ok AckPolicy_Processed
  | _ => Err (CodecError_InvalidValue "acknowledgement policy")
  end.

Definition decode_request_policy (value : N) : result CodecError RequestPolicy :=
  match value with
  | 0 => Ok RequestPolicy_Exact
  | 1 => Ok RequestPolicy_First
  | 2 => Ok RequestPolicy_FirstSuccess
  | 3 => Ok RequestPolicy_All
  | _ => Err (CodecError_InvalidValue "request routing policy")
  end.

Definition decode_delivery_outcome (value : N) : result CodecError DeliveryOutcome :=
  match value with
  | 0 => Ok DeliveryOutcome_Accepted
  | 1 => Ok DeliveryOutcome_Received
  | 2 => Ok DeliveryOutcome_Processed
  | 3 => Ok DeliveryOutcome_Timeout
  | 4 => Ok DeliveryOutcome_NoRecipient
  | 5 => Ok DeliveryOutcome_RecipientDisconnected
  | 6 => Ok DeliveryOutcome_DeliveryFailed
  | _ => Err (CodecError_InvalidValue "delivery outcome")
  end.

Definition decode_status (value : N) : result CodecError Status :=
  match value with
  | 0 => Ok Status_Success
  | 1 => Ok Status_Error
  | 2 => Ok Status_Unsupported
  | 3 => Ok Status_Denied
  | 4 => Ok Status_Busy
  | 5 => Ok Status_NotFound
  | _ => Err (CodecError_InvalidValue "status")
  end.

Definition decode_protocol_error_code (value : N) : result CodecError ProtocolErrorCode :=
  match value with
  | 0 => Ok ProtocolErrorCode_MalformedFrame
  | 1 => Ok ProtocolErrorCode_UnsupportedVersion
  | 2 => Ok ProtocolErrorCode_UnknownFrameKind
  | 3 => Ok ProtocolErrorCode_LimitExceeded
  | 4 => Ok ProtocolErrorCode_NonCanonical
  | 5 => Ok ProtocolErrorCode_InvalidState
  | 6 => Ok ProtocolErrorCode_NoRecipient
  | _ => Err (CodecError_InvalidValue "protocol error code")
  end.

Definition decode_client_selection (value : N) : result CodecError ClientSelection :=
  match value with
  | 0 => Ok ClientSelection_First
  | 1 => Ok ClientSelection_Any
  | 2 => Ok ClientSelection_All
  | _ => Err (CodecError_InvalidValue "client selection")
  end.

Definition decode_control_operation (value : N) : result CodecError ControlOperation :=
  match value with
  | 0 => Ok ControlOperation_Claim
  | 1 => Ok ControlOperation_Subscribe
  | 2 => Ok ControlOperation_Unsubscribe
  | _ => Err (CodecError_InvalidValue "control operation")
  end.

(** ** [Display]: the text the daemon sends in [PROTOCOL_ERROR] frames *)

Definition PeerId_to_string (p : PeerId) : bytes := bs ":" ++ dec (PeerId_get p).

Definition NameError_to_string (e : NameError) : bytes :=
  match e with
  | NameError_MissingNamespaceScheme => bs "namespace must start with bus://"
  | NameError_Invalid =>
      bs "name must contain at most 255 visible ASCII characters except / and whitespace"
  end.

Definition CodecError_to_string (e : CodecError) : bytes :=
  match e with
  | CodecError_Truncated => bs "truncated BUS/1 frame"
  | CodecError_InvalidMagic => bs "invalid BUS/1 frame magic"
  | CodecError_UnsupportedVersion version => bs "unsupported BUS/1 version " ++ dec version
  | CodecError_UnknownFrameKind kind => bs "unknown BUS/1 frame kind " ++ dec kind
  | CodecError_ReservedFlags flags => bs "reserved BUS/1 flags are set: " ++ hex16 flags
  | CodecError_LengthMismatch => bs "BUS/1 body length does not match packet length"
  | CodecError_FrameTooLarge => bs "BUS/1 frame exceeds configured size limit"
  | CodecError_LimitExceeded name => bs "BUS/1 " ++ bs name ++ bs " exceeds configured limit"
  | CodecError_InvalidValue name => bs "invalid BUS/1 " ++ bs name
  | CodecError_NonCanonical name => bs "non-canonical BUS/1 " ++ bs name
  | CodecError_InvalidName error => NameError_to_string error
  | CodecError_InvalidUtf8 => bs "BUS/1 text is not valid UTF-8"
  end.
