(* ===== verification/Codec.v ===== *)
(** * The frame codec (crates/bus-protocol/src/lib.rs)

    [Reader] and its methods, the [push_*] writers, [Frame::encode_with_limits]
    and [Frame::decode_with_limits], statement by statement.  A [push_*]
    function takes the output vector and returns it extended; a reader method
    threads the [Reader] with its position.  Slice indexing and [expect] are
    [Panic] where they would panic. *)

From S2P Require Export Protocol.

Local Open Scope N_scope.

(** ** Writers *)

(** [for item in items { body(item)?; }] over a mutable accumulator. *)
Fixpoint for_each {E A S} (items : list A) (body : S -> A -> result E S) (s : S) : result E S :=
  match items with
  | [] => Ok s
  | item :: rest => s' ← body s item; for_each rest body s'
  end.

(** [u16::try_from] and [u32::try_from]. *)
Definition u16_try_from (n : N) : option N := if n <=? u16_max then Some n else None.
Definition u32_try_from (n : N) : option N := if n <=? u32_max then Some n else None.

Definition push_u8 (output : bytes) (value : N) : bytes := output ++ [byte_of value].
Definition push_u16 (output : bytes) (value : N) : bytes := output ++ to_be 2 value.
Definition push_u32 (output : bytes) (value : N) : bytes := output ++ to_be 4 value.
Definition push_u64 (output : bytes) (value : N) : bytes := output ++ to_be 8 value.

Definition push_text (output value : bytes) : result CodecError bytes :=
  length ← ok_or (CodecError_LimitExceeded "text length") (u16_try_from (len value));
  Ok (push_u16 output length ++ value).

Definition push_name (output value : bytes) : result CodecError bytes :=
  _ ← map_err CodecError_InvalidName (validate_name value);
  push_text output value.

Definition push_namespace (output : bytes) (value : Namespace) : result CodecError bytes :=
  push_text output (Namespace_as_str value).

Definition push_binary (output value : bytes) : result CodecError bytes :=
  length ← ok_or (CodecError_LimitExceeded "binary length") (u32_try_from (len value));
  Ok (push_u32 output length ++ value).

Definition push_ack_requirement (output : bytes) (value : AckRequirement)
    : result CodecError bytes :=
  match value with
  | AckRequirement_None => Ok (push_u8 output 0)
  | AckRequirement_Any => Ok (push_u8 output 1)
  | AckRequirement_All => Ok (push_u8 output 2)
  | AckRequirement_Minimum minimum =>
      if negb (minimum =? 0) then Ok (push_u16 (push_u8 output 3) minimum)
      else Err (CodecError_InvalidValue "acknowledgement minimum")
  end.

Definition push_retry_policy (output : bytes) (value : RetryPolicy)
    : result CodecError bytes :=
  match value with
  | RetryPolicy_None => Ok (push_u8 output 0)
  | RetryPolicy_Exponential initial_backoff_ms max_attempts =>
      if negb (initial_backoff_ms =? 0) && (2 <=? max_attempts)
      then Ok (push_u8 (push_u32 (push_u8 output 1) initial_backoff_ms) max_attempts)
      else Err (CodecError_InvalidValue "retry policy")
  end.

Definition push_value (output : bytes) (value : HeaderValue) : result CodecError bytes :=
  match value with
  | HeaderValue_Text value => push_text (push_u8 output 0) value
  | HeaderValue_Unsigned value => Ok (push_u64 (push_u8 output 1) value)
  | HeaderValue_Boolean value =>
      Ok (push_u8 (push_u8 output 2) (if value then 1 else 0))
  | HeaderValue_Binary value => push_binary (push_u8 output 3) value
  end.

Definition push_headers (output : bytes) (headers : Headers) (limits : FrameLimits)
    : result CodecError bytes :=
  if maximum_headers limits <? bt_len headers
  then Err (CodecError_LimitExceeded "header count")
  else
    count ← ok_or (CodecError_LimitExceeded "header count") (u16_try_from (bt_len headers));
    for_each (bt_entries headers)
      (fun output '(name, value) => output ← push_name output name; push_value output value)
      (push_u16 output count).

Definition push_capabilities (output : bytes) (capabilities : Capabilities)
    (limits : FrameLimits) : result CodecError bytes :=
  if maximum_capabilities limits <? bs_len capabilities
  then Err (CodecError_LimitExceeded "capability count")
  else
    count ← ok_or (CodecError_LimitExceeded "capability count")
              (u16_try_from (bs_len capabilities));
    for_each (bs_elems capabilities) push_name (push_u16 output count).

(** The body of the loop of [push_filters]: one filter on its own. *)
Definition encode_filter (filter : HeaderFilter) : result CodecError bytes :=
  match filter with
  | HeaderFilter_Exists name => push_name (push_u8 [] 0) name
  | HeaderFilter_NotExists name => push_name (push_u8 [] 1) name
  | HeaderFilter_Equal name header =>
      value ← push_name (push_u8 [] 2) name; push_value value header
  | HeaderFilter_NotEqual name header =>
      value ← push_name (push_u8 [] 3) name; push_value value header
  | HeaderFilter_Prefix name header =>
      value ← push_name (push_u8 [] 4) name; push_value value header
  end.

(** [encoded.windows(2).any(|pair| pair[0] >= pair[1])]. *)
Fixpoint windows_any_ge (encoded : list bytes) : bool :=
  match encoded with
  | a :: ((b :: _) as rest) => ord_leb b a || windows_any_ge rest
  | _ => false
  end.

Definition push_filters (output : bytes) (filters : list HeaderFilter) (limits : FrameLimits)
    : result CodecError bytes :=
  if maximum_filters limits <? len filters
  then Err (CodecError_LimitExceeded "filter count")
  else
    encoded ← mapM encode_filter filters;
    if windows_any_ge encoded then Err (CodecError_NonCanonical "filters")
    else
      count ← ok_or (CodecError_LimitExceeded "filter count") (u16_try_from (len encoded));
      Ok (push_u16 output count ++ concat encoded).

Definition push_destination (output : bytes) (destination : Destination)
    : result CodecError bytes :=
  match destination with
  | Destination_Broker => Ok (push_u8 output 0)
  | Destination_Peer peer =>
      if PeerId_get peer =? 0 then Err (CodecError_InvalidValue "peer ID")
      else Ok (push_u64 (push_u8 output 1) (PeerId_get peer))
  | Destination_Namespace namespace => push_namespace (push_u8 output 2) namespace
  | Destination_Channel channel => push_name (push_u8 output 3) (Channel_as_str channel)
  | Destination_Broadcast => Ok (push_u8 output 4)
  | Destination_ClientId client_id selection =>
      output ← push_name (push_u8 output 5) (ClientId_as_str client_id);
      Ok (push_u8 output (client_selection_tag selection))
  end.

(** The [Self::Message] arm of [encode_body]. *)
Definition push_message (body : bytes) (m : Message) (limits : FrameLimits)
    : result CodecError bytes :=
  _ ← validate_delivery_options (m_kind m) (m_ack_policy m) (m_ack_requirement m)
        (m_request_policy m) (m_deadline_ms m) (m_retry m);
  _ ← validate_message_identity (m_kind m) (m_message_id m) (m_correlation_id m) (m_status m);
  let body := push_u8 body (message_kind_tag (m_kind m)) in
  let body := push_u8 body (ack_policy_tag (m_ack_policy m)) in
  body ← push_ack_requirement body (m_ack_requirement m);
  let body := push_u8 body (request_policy_tag (m_request_policy m)) in
  let body := push_u32 body (m_deadline_ms m) in
  body ← push_retry_policy body (m_retry m);
  body ← push_destination body (m_destination m);
  let body := body ++ MessageId_as_bytes (m_message_id m) in
  let body := body ++ MessageId_as_bytes (m_correlation_id m) in
  let body := push_u8 body (status_tag (m_status m)) in
  body ← push_headers body (m_headers m) limits;
  push_binary body (m_payload m).

(** The optional owner in the [Self::NamespaceResolved] arm of [encode_body]. *)
Definition push_owner (body : bytes) (owner : option PeerId) : result CodecError bytes :=
  match owner with
  | Some peer_id =>
      if negb (PeerId_get peer_id =? 0)
      then Ok (push_u64 (push_u8 body 1) (PeerId_get peer_id))
      else Err (CodecError_InvalidValue "peer ID")
  | None => Ok (push_u8 body 0)
  end.

Definition encode_body (frame : Frame) (limits : FrameLimits) : result CodecError (N * bytes) :=
  match frame with
  | Frame_Hello client_id headers capabilities =>
      body ← match client_id with
             | Some id => push_name (push_u8 [] 1) (ClientId_as_str id)
             | None => Ok (push_u8 [] 0)
             end;
      body ← push_headers body headers limits;
      body ← push_capabilities body capabilities limits;
      Ok (1, body)
  | Frame_Welcome peer_id capabilities =>
      if PeerId_get peer_id =? 0 then Err (CodecError_InvalidValue "peer ID")
      else
        body ← push_capabilities (push_u64 [] (PeerId_get peer_id)) capabilities limits;
        Ok (2, body)
  | Frame_Claim namespace headers =>
      body ← push_namespace [] namespace;
      body ← push_headers body headers limits;
      Ok (3, body)
  | Frame_Subscribe channel filters =>
      body ← push_name [] (Channel_as_str channel);
      body ← push_filters body filters limits;
      Ok (4, body)
  | Frame_Unsubscribe channel =>
      body ← push_name [] (Channel_as_str channel);
      Ok (5, body)
  | Frame_Message message =>
      body ← push_message [] message limits;
      Ok (6, body)
  | Frame_Acknowledge message_id policy =>
      if MessageId_is_absent message_id || negb (ack_policy_waits policy)
      then Err (CodecError_InvalidValue "acknowledgement")
      else Ok (11, push_u8 (MessageId_as_bytes message_id) (ack_policy_tag policy))
  | Frame_DeliveryResult message_id outcome =>
      if MessageId_is_absent message_id then Err (CodecError_InvalidValue "message ID")
      else Ok (12, push_u8 (MessageId_as_bytes message_id) (delivery_outcome_tag outcome))
  | Frame_ProtocolError code message =>
      body ← push_text (push_u8 [] (protocol_error_code_tag code)) message;
      Ok (7, body)
  | Frame_ControlResult operation => Ok (8, push_u8 [] (control_operation_tag operation))
  | Frame_ResolveNamespace namespace =>
      body ← push_namespace [] namespace;
      Ok (9, body)
  | Frame_NamespaceResolved namespace owner =>
      body ← push_namespace [] namespace;
      body ← push_owner body owner;
      Ok (10, body)
  end.

Definition encode_with_limits (frame : Frame) (limits : FrameLimits) : result CodecError bytes :=
  '(kind, body) ← encode_body frame limits;
  total ← ok_or CodecError_FrameTooLarge (checked_add usize_max HEADER_SIZE (len body));
  if (maximum_frame_size limits <? total) || (u32_max <? len body)
  then Err CodecError_FrameTooLarge
  else
    let packet := MAGIC ++ [VERSION] in
    let packet := push_u8 packet kind in
    let packet := push_u16 packet 0 in
    let packet := push_u32 packet (len body) in
    Ok (packet ++ body).

Definition encode (frame : Frame) : result CodecError bytes :=
  encode_with_limits frame FrameLimits_default.

Record Encoder := Encoder_new { encoder_limits : FrameLimits }.

Definition Encoder_encode (self : Encoder) (frame : Frame) : result CodecError bytes :=
  encode_with_limits frame (encoder_limits self).

(** ** The reader *)

Record Reader := { r_bytes : bytes; r_position : N }.

Abbreviation reader := (St Reader CodecError).

Definition Reader_new (bytes : bytes) : Reader := {| r_bytes := bytes; r_position := 0 |}.

Definition is_empty (r : Reader) : bool := r_position r =? len (r_bytes r).

(** [bytes.get(start..end)]. *)
Definition slice_get (l : bytes) (start stop : N) : option bytes :=
  if (start <=? stop) && (stop <=? len l)
  then Some (take (N.to_nat (stop - start)) (drop (N.to_nat start) l))
  else None.

Definition read_take (length : N) : reader bytes := fun r =>
  match checked_add usize_max (r_position r) length with
  | None => (Err CodecError_Truncated, r)
  | Some stop =>
      match slice_get (r_bytes r) (r_position r) stop with
      | None => (Err CodecError_Truncated, r)
      | Some value => (Ok value, {| r_bytes := r_bytes r; r_position := stop |})
      end
  end.

(** [slice[0]] and [slice.try_into().expect("fixed length")]. *)
Definition index_0 (l : bytes) : result CodecError byte := expect (head l).
Definition to_array (width : N) (l : bytes) : result CodecError bytes :=
  if len l =? width then Ok l else Panic.

Definition read_u8 : reader N :=
  slice ← read_take 1;
  b ← lift (index_0 slice);
  mret (byte_val b).

Definition read_be (width : N) : reader N :=
  slice ← read_take width;
  array ← lift (to_array width slice);
  mret (from_be array).

Definition read_u16 : reader N := read_be 2.
Definition read_u32 : reader N := read_be 4.
Definition read_u64 : reader N := read_be 8.

Definition read_array_16 : reader bytes :=
  slice ← read_take 16;
  lift (to_array 16 slice).

Definition read_text : reader bytes :=
  length ← read_u16;
  slice ← read_take length;
  lift (map_err (fun _ => CodecError_InvalidUtf8) (from_utf8 slice)).

Definition read_name : reader bytes :=
  value ← read_text;
  _ ← lift (map_err CodecError_InvalidName (validate_name value));
  mret value.

Definition read_namespace : reader Namespace :=
  value ← read_text;
  lift (map_err CodecError_InvalidName (Namespace_parse value)).

(** [Channel::parse(reader.name()?)] and [ClientId::parse(reader.name()?)]. *)
Definition read_channel : reader Channel :=
  value ← read_name;
  lift (map_err CodecError_InvalidName (Channel_parse value)).

Definition read_client_id : reader ClientId :=
  value ← read_name;
  lift (map_err CodecError_InvalidName (ClientId_parse value)).

Definition read_binary : reader bytes :=
  length ← read_u32;
  read_take length.

Definition read_value : reader HeaderValue :=
  tag ← read_u8;
  match tag with
  | 0 => value ← read_text; mret (HeaderValue_Text value)
  | 1 => value ← read_u64; mret (HeaderValue_Unsigned value)
  | 2 =>
      boolean ← read_u8;
      match boolean with
      | 0 => mret (HeaderValue_Boolean false)
      | 1 => mret (HeaderValue_Boolean true)
      | _ => fail (CodecError_InvalidValue "boolean")
      end
  | 3 => value ← read_binary; mret (HeaderValue_Binary value)
  | _ => fail (CodecError_InvalidValue "header value tag")
  end.

(** [previous.as_ref().is_some_and(|value| item <= *value)]. *)
Definition out_of_order (previous : option bytes) (item : bytes) : bool :=
  match previous with Some value => ord_leb item value | None => false end.

(** The loop [for _ in 0..count] of [Reader::headers]. *)
Fixpoint read_headers_loop (count : nat) (headers : Headers) (previous : option bytes)
    : reader Headers :=
  match count with
  | O => mret headers
  | S count =>
      name ← read_name;
      if out_of_order previous name then fail (CodecError_NonCanonical "headers")
      else
        value ← read_value;
        read_headers_loop count (<[name := value]> headers) (Some name)
  end.

Definition read_headers (limits : FrameLimits) : reader Headers :=
  count ← read_u16;
  if maximum_headers limits <? count then fail (CodecError_LimitExceeded "header count")
  else read_headers_loop (N.to_nat count) ∅ None.

Fixpoint read_capabilities_loop (count : nat) (capabilities : Capabilities)
    (previous : option bytes) : reader Capabilities :=
  match count with
  | O => mret capabilities
  | S count =>
      capability ← read_name;
      if out_of_order previous capability
      then fail (CodecError_NonCanonical "capabilities")
      else read_capabilities_loop count ({[capability]} ∪ capabilities) (Some capability)
  end.

Definition read_capabilities (limits : FrameLimits) : reader Capabilities :=
  count ← read_u16;
  if maximum_capabilities limits <? count
  then fail (CodecError_LimitExceeded "capability count")
  else read_capabilities_loop (N.to_nat count) ∅ None.

Definition read_filter : reader HeaderFilter :=
  tag ← read_u8;
  name ← read_name;
  match tag with
  | 0 => mret (HeaderFilter_Exists name)
  | 1 => mret (HeaderFilter_NotExists name)
  | 2 => value ← read_value; mret (HeaderFilter_Equal name value)
  | 3 => value ← read_value; mret (HeaderFilter_NotEqual name value)
  | 4 => value ← read_value; mret (HeaderFilter_Prefix name value)
  | _ => fail (CodecError_InvalidValue "filter tag")
  end.

(** [&self.bytes[start..self.position]]: panics when the range is invalid. *)
Definition slice_index (l : bytes) (start stop : N) : result CodecError bytes :=
  expect (slice_get l start stop).

Fixpoint read_filters_loop (count : nat) (filters : list HeaderFilter)
    (previous : option bytes) : reader (list HeaderFilter) :=
  match count with
  | O => mret filters
  | S count =>
      start ← get_state;
      filter ← read_filter;
      now ← get_state;
      encoded ← lift (slice_index (r_bytes now) (r_position start) (r_position now));
      if out_of_order previous encoded then fail (CodecError_NonCanonical "filters")
      else read_filters_loop count (filters ++ [filter]) (Some encoded)
  end.

Definition read_filters (limits : FrameLimits) : reader (list HeaderFilter) :=
  count ← read_u16;
  if maximum_filters limits <? count then fail (CodecError_LimitExceeded "filter count")
  else read_filters_loop (N.to_nat count) [] None.

Definition read_ack_requirement : reader AckRequirement :=
  tag ← read_u8;
  match tag with
  | 0 => mret AckRequirement_None
  | 1 => mret AckRequirement_Any
  | 2 => mret AckRequirement_All
  | 3 =>
      minimum ← read_u16;
      if minimum =? 0 then fail (CodecError_InvalidValue "acknowledgement minimum")
      else mret (AckRequirement_Minimum minimum)
  | _ => fail (CodecError_InvalidValue "acknowledgement requirement")
  end.

Definition read_retry_policy : reader RetryPolicy :=
  tag ← read_u8;
  match tag with
  | 0 => mret RetryPolicy_None
  | 1 =>
      initial_backoff_ms ← read_u32;
      max_attempts ← read_u8;
      if (initial_backoff_ms =? 0) || (max_attempts <? 2)
      then fail (CodecError_InvalidValue "retry policy")
      else mret (RetryPolicy_Exponential initial_backoff_ms max_attempts)
  | _ => fail (CodecError_InvalidValue "retry policy")
  end.

(** [PeerId::new(reader.u64()?)] followed by the non-zero check. *)
Definition read_peer_id : reader PeerId :=
  value ← read_u64;
  if value =? 0 then fail (CodecError_InvalidValue "peer ID") else mret (PeerId_new value).

Definition read_destination : reader Destination :=
  tag ← read_u8;
  match tag with
  | 0 => mret Destination_Broker
  | 1 => peer ← read_peer_id; mret (Destination_Peer peer)
  | 2 => namespace ← read_namespace; mret (Destination_Namespace namespace)
  | 3 => channel ← read_channel; mret (Destination_Channel channel)
  | 4 => mret Destination_Broadcast
  | 5 =>
      client_id ← read_client_id;
      selection ← read_u8;
      selection ← lift (decode_client_selection selection);
      mret (Destination_ClientId client_id selection)
  | _ => fail (CodecError_InvalidValue "destination selector")
  end.

(** ** Frame bodies *)

Definition decode_hello (limits : FrameLimits) : reader Frame :=
  marker ← read_u8;
  client_id ←
    match marker with
    | 0 => mret None
    | 1 => id ← read_client_id; mret (Some id)
    | _ => fail (CodecError_InvalidValue "HELLO client ID marker")
    end;
  headers ← read_headers limits;
  capabilities ← read_capabilities limits;
  mret (Frame_Hello client_id headers capabilities).

Definition decode_welcome (limits : FrameLimits) : reader Frame :=
  peer_id ← read_peer_id;
  capabilities ← read_capabilities limits;
  mret (Frame_Welcome peer_id capabilities).

Definition decode_claim (limits : FrameLimits) : reader Frame :=
  namespace ← read_namespace;
  headers ← read_headers limits;
  mret (Frame_Claim namespace headers).

Definition decode_subscribe (limits : FrameLimits) : reader Frame :=
  channel ← read_channel;
  filters ← read_filters limits;
  mret (Frame_Subscribe channel filters).

Definition decode_unsubscribe : reader Frame :=
  channel ← read_channel;
  mret (Frame_Unsubscribe channel).

Definition decode_message (limits : FrameLimits) : reader Frame :=
  kind ← read_u8;
  kind ← lift (decode_message_kind kind);
  ack_policy ← read_u8;
  ack_policy ← lift (decode_ack_policy ack_policy);
  ack_requirement ← read_ack_requirement;
  request_policy ← read_u8;
  request_policy ← lift (decode_request_policy request_policy);
  deadline_ms ← read_u32;
  retry ← read_retry_policy;
  destination ← read_destination;
  message_id ← read_array_16;
  correlation_id ← read_array_16;
  status ← read_u8;
  status ← lift (decode_status status);
  let message_id := MessageId_new message_id in
  let correlation_id := MessageId_new correlation_id in
  _ ← lift (validate_delivery_options kind ack_policy ack_requirement request_policy
              deadline_ms retry);
  _ ← lift (validate_message_identity kind message_id correlation_id status);
  headers ← read_headers limits;
  payload ← read_binary;
  mret (Frame_Message {|
    m_kind := kind;
    m_ack_policy := ack_policy;
    m_ack_requirement := ack_requirement;
    m_request_policy := request_policy;
    m_deadline_ms := deadline_ms;
    m_retry := retry;
    m_destination := destination;
    m_message_id := message_id;
    m_correlation_id := correlation_id;
    m_status := status;
    m_headers := headers;
    m_payload := payload;
  |}).

Definition decode_acknowledge : reader Frame :=
  message_id ← read_array_16;
  policy ← read_u8;
  policy ← lift (decode_ack_policy policy);
  if MessageId_is_absent (MessageId_new message_id) || negb (ack_policy_waits policy)
  then fail (CodecError_InvalidValue "acknowledgement")
  else mret (Frame_Acknowledge (MessageId_new message_id) policy).

Definition decode_delivery_result : reader Frame :=
  message_id ← read_array_16;
  if MessageId_is_absent (MessageId_new message_id)
  then fail (CodecError_InvalidValue "message ID")
  else
    outcome ← read_u8;
    outcome ← lift (decode_delivery_outcome outcome);
    mret (Frame_DeliveryResult (MessageId_new message_id) outcome).

Definition decode_protocol_error : reader Frame :=
  code ← read_u8;
  code ← lift (decode_protocol_error_code code);
  message ← read_text;
  mret (Frame_ProtocolError code message).

Definition decode_control_result : reader Frame :=
  operation ← read_u8;
  operation ← lift (decode_control_operation operation);
  mret (Frame_ControlResult operation).

Definition decode_resolve_namespace : reader Frame :=
  namespace ← read_namespace;
  mret (Frame_ResolveNamespace namespace).

Definition decode_namespace_resolved : reader Frame :=
  namespace ← read_namespace;
  marker ← read_u8;
  owner ←
    match marker with
    | 0 => mret None
    | 1 => peer_id ← read_peer_id; mret (Some peer_id)
    | _ => fail (CodecError_InvalidValue "namespace owner marker")
    end;
  mret (Frame_NamespaceResolved namespace owner).

(** The dispatch on the frame kind in [decode_with_limits]. *)
Definition decode_body (kind : N) (limits : FrameLimits) : reader Frame :=
  match kind with
  | 1 => decode_hello limits
  | 2 => decode_welcome limits
  | 3 => decode_claim limits
  | 4 => decode_subscribe limits
  | 5 => decode_unsubscribe
  | 6 => decode_message limits
  | 7 => decode_protocol_error
  | 8 => decode_control_result
  | 9 => decode_resolve_namespace
  | 10 => decode_namespace_resolved
  | 11 => decode_acknowledge
  | 12 => decode_delivery_result
  | _ => fail (CodecError_UnknownFrameKind kind)
  end.

(** [packet[i]] and [&packet[start..]]: panics out of bounds. *)
Definition index (l : bytes) (i : N) : result CodecError byte := expect (l !! N.to_nat i).
Definition slice_from (l : bytes) (start : N) : result CodecError bytes :=
  slice_index l start (len l).

Definition decode_with_limits (packet : bytes) (limits : FrameLimits) : result CodecError Frame :=
  if len packet <? HEADER_SIZE then Err CodecError_Truncated
  else
    magic ← slice_index packet 0 4;
    if negb (bool_decide (magic = MAGIC)) then Err CodecError_InvalidMagic
    else
      version ← index packet 4;
      if negb (byte_eqb version VERSION)
      then Err (CodecError_UnsupportedVersion (byte_val version))
      else
        f6 ← index packet 6;
        f7 ← index packet 7;
        let flags := from_be [f6; f7] in
        if negb (flags =? 0) then Err (CodecError_ReservedFlags flags)
        else
          l8 ← index packet 8;
          l9 ← index packet 9;
          l10 ← index packet 10;
          l11 ← index packet 11;
          let length := from_be [l8; l9; l10; l11] in
          expected ← ok_or CodecError_FrameTooLarge (checked_add usize_max HEADER_SIZE length);
          if negb (expected =? len packet) then Err CodecError_LengthMismatch
          else if maximum_frame_size limits <? expected then Err CodecError_FrameTooLarge
          else
            body ← slice_from packet HEADER_SIZE;
            kind ← index packet 5;
            let '(outcome, reader) := decode_body (byte_val kind) limits (Reader_new body) in
            frame ← outcome;
            if negb (is_empty reader) then Err (CodecError_NonCanonical "trailing frame body")
            else Ok frame.

Definition decode (packet : bytes) : result CodecError Frame :=
  decode_with_limits packet FrameLimits_default.

Record Decoder := Decoder_new { decoder_limits : FrameLimits }.

Definition Decoder_decode (self : Decoder) (packet : bytes) : result CodecError Frame :=
  decode_with_limits packet (decoder_limits self).

(** ** The reference vectors of the protocol's test suite *)

Definition hello_example : Frame :=
  Frame_Hello (Some (ClientId_of (bs "app")))
    {[ bs "version" := HeaderValue_Text (bs "one") ]} {[ bs "alpha" ]}.

Definition hello_vector : bytes :=
  bs "BUS1" ++ [x03; x01; x00; x00; x00; x00; x00; x20; x01; x00; x03] ++ bs "app"
  ++ [x00; x01; x00; x07] ++ bs "version" ++ [x00; x00; x03] ++ bs "one"
  ++ [x00; x01; x00; x05] ++ bs "alpha".

Example hello_golden_vector :
  encode hello_example = Ok hello_vector /\ decode hello_vector = Ok hello_example.
Proof. vm_compute. split; reflexivity. Qed.

Definition example_message : Message := {|
  m_kind := MessageKind_Signal;
  m_ack_policy := AckPolicy_None;
  m_ack_requirement := AckRequirement_None;
  m_request_policy := RequestPolicy_Exact;
  m_deadline_ms := 0;
  m_retry := RetryPolicy_None;
  m_destination := Destination_Namespace (Namespace_of (bs "bus://svc"));
  m_message_id := MessageId_new
    [x01; x02; x03; x04; x05; x06; x07; x08; x09; x0a; x0b; x0c; x0d; x0e; x0f; x10];
  m_correlation_id := MessageId_absent;
  m_status := Status_Success;
  m_headers := ∅;
  m_payload := bs "abc";
|}.

Definition message_example : Frame := Frame_Message example_message.

Definition message_vector : bytes :=
  bs "BUS1" ++ [x03; x06; x00; x00; x00; x00; x00; x3f] ++ replicate 9 x00
  ++ [x02; x00; x09] ++ bs "bus://svc"
  ++ [x01; x02; x03; x04; x05; x06; x07; x08; x09; x0a; x0b; x0c; x0d; x0e; x0f; x10]
  ++ replicate 22 x00 ++ [x03] ++ bs "abc".

Example message_golden_vector :
  encode message_example = Ok message_vector /\ decode message_vector = Ok message_example.
Proof. vm_compute. split; reflexivity. Qed.
