(* ===== verification/WireSpec.v ===== *)
(** * The BUS/1-preview wire grammar (docs/wire-protocol.md)

    The abstract specification of the codec: for every type of the protocol,
    which values may travel ([*_ok]) and the bytes that stand for a value
    ([*_wire]).  Nothing here refers to the reader or the writers; [CodecFacts.v]
    proves that the encoder emits, and the decoder accepts, exactly this. *)

From S2P Require Export Protocol.

Local Open Scope N_scope.

(** ** Primitives *)

Definition u8_wire (n : N) : bytes := [byte_of n].
Definition u16_wire (n : N) : bytes := to_be 2 n.
Definition u32_wire (n : N) : bytes := to_be 4 n.
Definition u64_wire (n : N) : bytes := to_be 8 n.

(** [u16 byte-length] followed by valid UTF-8. *)
Definition text_ok (s : bytes) : Prop := utf8_valid s = true /\ len s <= u16_max.
Definition text_wire (s : bytes) : bytes := u16_wire (len s) ++ s.

(** 1 to 255 visible ASCII bytes other than [/]. *)
Definition name_byte (b : byte) : Prop := 0x21 <= byte_val b <= 0x7e /\ b <> x2f.
Definition name_ok (s : bytes) : Prop := s <> [] /\ len s <= 255 /\ Forall name_byte s.

(** Literal [bus://] followed by a name. *)
Definition namespace_ok (n : Namespace) : Prop :=
  exists name, Namespace_as_str n = bs "bus://" ++ name /\ name_ok name.
Definition namespace_wire (n : Namespace) : bytes := text_wire (Namespace_as_str n).

Definition binary_ok (s : bytes) : Prop := len s <= u32_max.
Definition binary_wire (s : bytes) : bytes := u32_wire (len s) ++ s.

(** A 16-byte identifier and a non-zero peer identifier. *)
Definition id_ok (m : MessageId) : Prop := len (MessageId_as_bytes m) = 16.
Definition peer_ok (p : PeerId) : Prop := 1 <= PeerId_get p <= u64_max.
Definition peer_wire (p : PeerId) : bytes := u64_wire (PeerId_get p).

(** ** Header values, headers, capabilities and filters *)

Definition value_ok (v : HeaderValue) : Prop :=
  match v with
  | HeaderValue_Text s => text_ok s
  | HeaderValue_Unsigned n => n <= u64_max
  | HeaderValue_Boolean _ => True
  | HeaderValue_Binary s => binary_ok s
  end.

Definition value_wire (v : HeaderValue) : bytes :=
  match v with
  | HeaderValue_Text s => u8_wire 0 ++ text_wire s
  | HeaderValue_Unsigned n => u8_wire 1 ++ u64_wire n
  | HeaderValue_Boolean b => u8_wire 2 ++ u8_wire (if b then 1 else 0)
  | HeaderValue_Binary s => u8_wire 3 ++ binary_wire s
  end.

Definition entry_ok (e : bytes * HeaderValue) : Prop := name_ok e.1 /\ value_ok e.2.
Definition entry_wire (e : bytes * HeaderValue) : bytes := text_wire e.1 ++ value_wire e.2.

(** Pairs in strictly increasing bytewise order of their names. *)
Definition headers_ok (limits : FrameLimits) (h : Headers) : Prop :=
  bt_len h <= maximum_headers limits /\ bt_len h <= u16_max /\
  Forall entry_ok (bt_entries h).
Definition headers_wire (h : Headers) : bytes :=
  u16_wire (bt_len h) ++ concat (entry_wire <$> bt_entries h).

Definition capabilities_ok (limits : FrameLimits) (c : Capabilities) : Prop :=
  bs_len c <= maximum_capabilities limits /\ bs_len c <= u16_max /\
  Forall name_ok (bs_elems c).
Definition capabilities_wire (c : Capabilities) : bytes :=
  u16_wire (bs_len c) ++ concat (text_wire <$> bs_elems c).

Definition filter_ok (f : HeaderFilter) : Prop :=
  match f with
  | HeaderFilter_Exists n | HeaderFilter_NotExists n => name_ok n
  | HeaderFilter_Equal n v | HeaderFilter_NotEqual n v | HeaderFilter_Prefix n v =>
      name_ok n /\ value_ok v
  end.

Definition filter_wire (f : HeaderFilter) : bytes :=
  match f with
  | HeaderFilter_Exists n => u8_wire 0 ++ text_wire n
  | HeaderFilter_NotExists n => u8_wire 1 ++ text_wire n
  | HeaderFilter_Equal n v => u8_wire 2 ++ text_wire n ++ value_wire v
  | HeaderFilter_NotEqual n v => u8_wire 3 ++ text_wire n ++ value_wire v
  | HeaderFilter_Prefix n v => u8_wire 4 ++ text_wire n ++ value_wire v
  end.

(** Filters strictly increase by their complete binary encoding. *)
Definition filters_ok (limits : FrameLimits) (fs : list HeaderFilter) : Prop :=
  len fs <= maximum_filters limits /\ len fs <= u16_max /\ Forall filter_ok fs /\
  StronglySorted ord_lt (filter_wire <$> fs).
Definition filters_wire (fs : list HeaderFilter) : bytes :=
  u16_wire (len fs) ++ concat (filter_wire <$> fs).

(** ** The message envelope *)

Definition ack_requirement_ok (r : AckRequirement) : Prop :=
  match r with AckRequirement_Minimum n => 1 <= n <= u16_max | _ => True end.
Definition ack_requirement_wire (r : AckRequirement) : bytes :=
  match r with
  | AckRequirement_None => u8_wire 0
  | AckRequirement_Any => u8_wire 1
  | AckRequirement_All => u8_wire 2
  | AckRequirement_Minimum n => u8_wire 3 ++ u16_wire n
  end.

Definition retry_ok (r : RetryPolicy) : Prop :=
  match r with
  | RetryPolicy_None => True
  | RetryPolicy_Exponential b n => 1 <= b <= u32_max /\ 2 <= n <= u8_max
  end.
Definition retry_wire (r : RetryPolicy) : bytes :=
  match r with
  | RetryPolicy_None => u8_wire 0
  | RetryPolicy_Exponential b n => u8_wire 1 ++ u32_wire b ++ u8_wire n
  end.

Definition destination_ok (d : Destination) : Prop :=
  match d with
  | Destination_Broker | Destination_Broadcast => True
  | Destination_Peer p => peer_ok p
  | Destination_Namespace n => namespace_ok n
  | Destination_Channel c => name_ok (Channel_as_str c)
  | Destination_ClientId c _ => name_ok (ClientId_as_str c)
  end.
Definition destination_wire (d : Destination) : bytes :=
  match d with
  | Destination_Broker => u8_wire 0
  | Destination_Peer p => u8_wire 1 ++ peer_wire p
  | Destination_Namespace n => u8_wire 2 ++ namespace_wire n
  | Destination_Channel c => u8_wire 3 ++ text_wire (Channel_as_str c)
  | Destination_Broadcast => u8_wire 4
  | Destination_ClientId c s =>
      u8_wire 5 ++ text_wire (ClientId_as_str c) ++ u8_wire (client_selection_tag s)
  end.

(** A receiver acknowledgement is required. *)
Definition waits (p : AckPolicy) : Prop := p = AckPolicy_Received \/ p = AckPolicy_Processed.

(** The rules of "Message envelope" on acknowledgement, deadline and retry. *)
Definition delivery_options_ok (kind : MessageKind) (ack_policy : AckPolicy)
    (ack_requirement : AckRequirement) (request_policy : RequestPolicy)
    (deadline_ms : N) (retry : RetryPolicy) : Prop :=
  (waits ack_policy <-> ack_requirement <> AckRequirement_None) /\
  (waits ack_policy -> deadline_ms <> 0) /\
  (retry <> RetryPolicy_None -> kind = MessageKind_Request \/ waits ack_policy) /\
  (kind <> MessageKind_Request -> request_policy = RequestPolicy_Exact) /\
  (kind = MessageKind_Request -> deadline_ms <> 0) /\
  (kind = MessageKind_Response -> deadline_ms = 0 /\ retry = RetryPolicy_None).

(** The rules on identifiers and status. *)
Definition identity_ok (kind : MessageKind) (message_id correlation_id : MessageId)
    (status : Status) : Prop :=
  message_id <> MessageId_absent /\
  (kind = MessageKind_Response -> correlation_id <> MessageId_absent) /\
  (kind <> MessageKind_Response -> correlation_id = MessageId_absent /\ status = Status_Success).

Definition message_ok (limits : FrameLimits) (m : Message) : Prop :=
  delivery_options_ok (m_kind m) (m_ack_policy m) (m_ack_requirement m)
    (m_request_policy m) (m_deadline_ms m) (m_retry m) /\
  identity_ok (m_kind m) (m_message_id m) (m_correlation_id m) (m_status m) /\
  ack_requirement_ok (m_ack_requirement m) /\ m_deadline_ms m <= u32_max /\
  retry_ok (m_retry m) /\ destination_ok (m_destination m) /\
  id_ok (m_message_id m) /\ id_ok (m_correlation_id m) /\
  headers_ok limits (m_headers m) /\ binary_ok (m_payload m).

Definition message_wire (m : Message) : bytes :=
  u8_wire (message_kind_tag (m_kind m)) ++
  u8_wire (ack_policy_tag (m_ack_policy m)) ++
  ack_requirement_wire (m_ack_requirement m) ++
  u8_wire (request_policy_tag (m_request_policy m)) ++
  u32_wire (m_deadline_ms m) ++
  retry_wire (m_retry m) ++
  destination_wire (m_destination m) ++
  MessageId_as_bytes (m_message_id m) ++
  MessageId_as_bytes (m_correlation_id m) ++
  u8_wire (status_tag (m_status m)) ++
  headers_wire (m_headers m) ++
  binary_wire (m_payload m).

(** ** Frames and packets *)

Definition frame_kind (f : Frame) : N :=
  match f with
  | Frame_Hello _ _ _ => 1
  | Frame_Welcome _ _ => 2
  | Frame_Claim _ _ => 3
  | Frame_Subscribe _ _ => 4
  | Frame_Unsubscribe _ => 5
  | Frame_Message _ => 6
  | Frame_ProtocolError _ _ => 7
  | Frame_ControlResult _ => 8
  | Frame_ResolveNamespace _ => 9
  | Frame_NamespaceResolved _ _ => 10
  | Frame_Acknowledge _ _ => 11
  | Frame_DeliveryResult _ _ => 12
  end.

Definition body_ok (limits : FrameLimits) (f : Frame) : Prop :=
  match f with
  | Frame_Hello id h c =>
      match id with Some i => name_ok (ClientId_as_str i) | None => True end /\
      headers_ok limits h /\ capabilities_ok limits c
  | Frame_Welcome p c => peer_ok p /\ capabilities_ok limits c
  | Frame_Claim n h => namespace_ok n /\ headers_ok limits h
  | Frame_Subscribe c fs => name_ok (Channel_as_str c) /\ filters_ok limits fs
  | Frame_Unsubscribe c => name_ok (Channel_as_str c)
  | Frame_Message m => message_ok limits m
  | Frame_Acknowledge i p => id_ok i /\ i <> MessageId_absent /\ waits p
  | Frame_DeliveryResult i _ => id_ok i /\ i <> MessageId_absent
  | Frame_ProtocolError _ t => text_ok t
  | Frame_ControlResult _ => True
  | Frame_ResolveNamespace n => namespace_ok n
  | Frame_NamespaceResolved n o =>
      namespace_ok n /\ match o with Some p => peer_ok p | None => True end
  end.

Definition body_wire (f : Frame) : bytes :=
  match f with
  | Frame_Hello id h c =>
      match id with
      | Some i => u8_wire 1 ++ text_wire (ClientId_as_str i)
      | None => u8_wire 0
      end ++ headers_wire h ++ capabilities_wire c
  | Frame_Welcome p c => peer_wire p ++ capabilities_wire c
  | Frame_Claim n h => namespace_wire n ++ headers_wire h
  | Frame_Subscribe c fs => text_wire (Channel_as_str c) ++ filters_wire fs
  | Frame_Unsubscribe c => text_wire (Channel_as_str c)
  | Frame_Message m => message_wire m
  | Frame_Acknowledge i p => MessageId_as_bytes i ++ u8_wire (ack_policy_tag p)
  | Frame_DeliveryResult i o => MessageId_as_bytes i ++ u8_wire (delivery_outcome_tag o)
  | Frame_ProtocolError c t => u8_wire (protocol_error_code_tag c) ++ text_wire t
  | Frame_ControlResult o => u8_wire (control_operation_tag o)
  | Frame_ResolveNamespace n => namespace_wire n
  | Frame_NamespaceResolved n o =>
      namespace_wire n ++
      match o with Some p => u8_wire 1 ++ peer_wire p | None => u8_wire 0 end
  end.

Definition frame_ok (limits : FrameLimits) (f : Frame) : Prop :=
  body_ok limits f /\ HEADER_SIZE + len (body_wire f) <= maximum_frame_size limits /\
  len (body_wire f) <= u32_max.

Definition packet_wire (f : Frame) : bytes :=
  MAGIC ++ [VERSION] ++ u8_wire (frame_kind f) ++ u16_wire 0 ++
  u32_wire (len (body_wire f)) ++ body_wire f.

(** [packet] stands for [f] under [limits]. *)
Definition stands_for (limits : FrameLimits) (f : Frame) (packet : bytes) : Prop :=
  frame_ok limits f /\ packet = packet_wire f.

(** ** Type invariants

    What the Rust types guarantee of a value before it reaches the encoder:
    integer widths, sixteen-byte identifiers, UTF-8 strings, and names that
    only [parse] constructs. *)

Definition wf_value (v : HeaderValue) : Prop :=
  match v with
  | HeaderValue_Text s => utf8_valid s = true
  | HeaderValue_Unsigned n => n <= u64_max
  | _ => True
  end.
Definition wf_headers (h : Headers) : Prop := map_Forall (fun _ v => wf_value v) h.
Definition wf_filter (f : HeaderFilter) : Prop :=
  match f with
  | HeaderFilter_Exists _ | HeaderFilter_NotExists _ => True
  | HeaderFilter_Equal _ v | HeaderFilter_NotEqual _ v | HeaderFilter_Prefix _ v => wf_value v
  end.
Definition wf_peer (p : PeerId) : Prop := PeerId_get p <= u64_max.
Definition wf_ack_requirement (r : AckRequirement) : Prop :=
  match r with AckRequirement_Minimum n => n <= u16_max | _ => True end.
Definition wf_retry (r : RetryPolicy) : Prop :=
  match r with RetryPolicy_None => True | RetryPolicy_Exponential b n => b <= u32_max /\ n <= u8_max end.
Definition wf_destination (d : Destination) : Prop :=
  match d with
  | Destination_Peer p => wf_peer p
  | Destination_Namespace n => namespace_ok n
  | Destination_Channel c => name_ok (Channel_as_str c)
  | Destination_ClientId c _ => name_ok (ClientId_as_str c)
  | _ => True
  end.
Definition wf_message (m : Message) : Prop :=
  wf_ack_requirement (m_ack_requirement m) /\ m_deadline_ms m <= u32_max /\
  wf_retry (m_retry m) /\ wf_destination (m_destination m) /\
  id_ok (m_message_id m) /\ id_ok (m_correlation_id m) /\ wf_headers (m_headers m).
Definition wf_frame (f : Frame) : Prop :=
  match f with
  | Frame_Hello id h c =>
      match id with Some i => name_ok (ClientId_as_str i) | None => True end /\ wf_headers h
  | Frame_Welcome p c => wf_peer p
  | Frame_Claim n h => namespace_ok n /\ wf_headers h
  | Frame_Subscribe c fs => name_ok (Channel_as_str c) /\ Forall wf_filter fs
  | Frame_Unsubscribe c => name_ok (Channel_as_str c)
  | Frame_Message m => wf_message m
  | Frame_Acknowledge i _ | Frame_DeliveryResult i _ => id_ok i
  | Frame_ProtocolError _ t => utf8_valid t = true
  | Frame_ControlResult _ => True
  | Frame_ResolveNamespace n => namespace_ok n
  | Frame_NamespaceResolved n o =>
      namespace_ok n /\ match o with Some p => wf_peer p | None => True end
  end.

(** ** Boolean tests and propositions *)

Lemma waits_iff p : ack_policy_waits p = true <-> waits p.
Proof. unfold waits. destruct p; cbn; intuition congruence. Qed.

Lemma not_waits_iff p : ack_policy_waits p = false <-> ~ waits p.
Proof. rewrite <- waits_iff. by destruct (ack_policy_waits p). Qed.

#[export] Instance waits_dec p : Decision (waits p).
Proof. unfold waits. apply _. Defined.

(** Turns boolean tests of the code into propositions. *)
Ltac bool_props :=
  repeat match goal with
  | H : andb _ _ = true |- _ => apply andb_true_iff in H as [? ?]
  | H : orb _ _ = false |- _ => apply orb_false_iff in H as [? ?]
  | H : negb _ = true |- _ => apply negb_true_iff in H
  | H : negb _ = false |- _ => apply negb_false_iff in H
  end;
  rewrite ?andb_false_iff, ?orb_true_iff, ?negb_true_iff, ?negb_false_iff,
    ?bool_decide_eq_true, ?bool_decide_eq_false, ?waits_iff, ?not_waits_iff,
    ?N.eqb_eq, ?N.eqb_neq, ?N.ltb_lt, ?N.ltb_ge, ?N.leb_le, ?N.leb_gt in *.

Lemma reflect_bool_decide (P : Prop) `{Decision P} : reflect P (bool_decide P).
Proof. destruct (bool_decide P) eqn:E; constructor; by bool_props. Qed.

Lemma reflect_waits p : reflect (waits p) (ack_policy_waits p).
Proof. destruct (ack_policy_waits p) eqn:E; constructor; by bool_props. Qed.
