(* ===== verification/Validators.v ===== *)
(** * The protocol's validators decide the grammar's side conditions

    [validate_name], [Namespace::parse], [validate_delivery_options],
    [validate_message_identity] and the one-byte tag decoders, against the
    declarative conditions of [WireSpec.v]. *)

From S2P Require Export WireSpec Codec.

Local Open Scope N_scope.

(** A check that succeeds exactly when [P] holds and never panics. *)
Definition checks {E A} (m : result E A) (P : Prop) : Prop :=
  match m with Ok _ => P | Err _ => ~ P | Panic => False end.

Lemma checks_iff {E A} (m : result E A) P Q : (P <-> Q) -> checks m P -> checks m Q.
Proof. intros HPQ. destruct m; cbn; tauto. Qed.

Lemma checks_map_err {E F A} (f : E -> F) (m : result E A) P :
  checks m P -> checks (map_err f m) P.
Proof. by destruct m. Qed.

Lemma checks_ok {E A} (m : result E A) P : checks m P -> P -> exists a, m = Ok a.
Proof. destruct m as [a| |]; cbn; [by exists a | done | done]. Qed.

Lemma checks_holds {E A} (m : result E A) P a : checks m P -> m = Ok a -> P.
Proof. by intros Hm ->. Qed.

Lemma checks_tt {E} (m : result E unit) P : checks m P -> P -> m = Ok tt.
Proof. intros Hm HP. destruct (checks_ok m P Hm HP) as [[] ->]. done. Qed.

Lemma validate_delivery_options_spec kind ap ar rp d r :
  checks (validate_delivery_options kind ap ar rp d r)
    (delivery_options_ok kind ap ar rp d r).
Proof.
  unfold validate_delivery_options, delivery_options_ok.
  destruct (reflect_waits ap), (reflect_bool_decide (ar = AckRequirement_None)),
    (N.eqb_spec d 0), (reflect_bool_decide (r = RetryPolicy_None)),
    (reflect_bool_decide (rp = RequestPolicy_Exact)),
    (reflect_bool_decide (kind = MessageKind_Request)),
    (reflect_bool_decide (kind = MessageKind_Response)); cbn;
    intuition congruence.
Qed.

Lemma absent_iff m : MessageId_is_absent m = true <-> m = MessageId_absent.
Proof.
  unfold MessageId_is_absent. rewrite bool_decide_eq_true.
  destruct m as [l]; cbn. unfold MessageId_absent. split; [by intros -> | by intros [=]].
Qed.

Lemma reflect_absent m : reflect (m = MessageId_absent) (MessageId_is_absent m).
Proof. apply iff_reflect. symmetry. apply absent_iff. Qed.

Lemma validate_message_identity_spec kind mid cid st :
  checks (validate_message_identity kind mid cid st) (identity_ok kind mid cid st).
Proof.
  unfold validate_message_identity, identity_ok.
  destruct (reflect_absent mid), (reflect_absent cid),
    (reflect_bool_decide (st = Status_Success)), kind; cbn; intuition congruence.
Qed.

(** ** Names *)

Lemma name_byte_iff b :
  is_ascii_graphic b && negb (byte_eqb b x2f) = true <-> name_byte b.
Proof.
  unfold name_byte, is_ascii_graphic, in_range, byte_eqb.
  rewrite !andb_true_iff, !N.leb_le, negb_true_iff, bool_decide_eq_false. tauto.
Qed.

Lemma validate_name_spec s : checks (validate_name s) (name_ok s).
Proof.
  unfold validate_name, name_ok.
  assert (forallb (fun b => is_ascii_graphic b && negb (byte_eqb b x2f)) s = true
          <-> Forall name_byte s) as Hall.
  { rewrite forallb_forall, Forall_forall. setoid_rewrite name_byte_iff.
    by setoid_rewrite list_elem_of_In. }
  destruct (forallb _ s) eqn:E; destruct (reflect_bool_decide (s = [])),
    (N.ltb_spec MAX_NAME_LENGTH (len s)); cbn; unfold MAX_NAME_LENGTH in *;
    intuition (try congruence; try lia).
Qed.

Lemma name_ascii s : Forall name_byte s -> utf8_valid s = true.
Proof.
  intros Hs. apply utf8_valid_ascii, forallb_forall. intros b Hb%list_elem_of_In.
  rewrite Forall_forall in Hs. destruct (Hs b Hb) as [[_ Hhi] _].
  apply N.ltb_lt. lia.
Qed.

(** A name always fits a text field. *)
Lemma name_text_ok s : name_ok s -> text_ok s.
Proof.
  intros (_ & Hlen & Hs). split; [by apply name_ascii|]. unfold u16_max. lia.
Qed.

Lemma namespace_text_ok n : namespace_ok n -> text_ok (Namespace_as_str n).
Proof.
  intros (name & -> & _ & Hlen & Hs). split.
  - apply utf8_valid_app; [done | by apply name_ascii].
  - rewrite len_app. unfold u16_max. change (len (bs "bus://")) with 6. lia.
Qed.

Lemma Namespace_parse_spec s :
  checks (Namespace_parse s) (namespace_ok (Namespace_of s)).
Proof.
  unfold Namespace_parse, namespace_ok; cbn [Namespace_as_str].
  destruct (strip_prefix (bs "bus://") s) as [name|] eqn:E.
  - apply strip_prefix_Some in E. pose proof (validate_name_spec name) as Hn.
    destruct (validate_name name) as [[]| |]; cbn in *; [by exists name| |done].
    intros (name' & Heq & Hok). rewrite E in Heq. by injection Heq as <-.
  - intros (name & Hs & _). apply strip_prefix_Some in Hs. congruence.
Qed.

Lemma Namespace_parse_value s n : Namespace_parse s = Ok n -> n = Namespace_of s.
Proof.
  unfold Namespace_parse. destruct (strip_prefix _ s); [|done].
  destruct (validate_name _); cbn; congruence.
Qed.

Lemma Channel_parse_spec s :
  checks (Channel_parse s) (name_ok s).
Proof.
  unfold Channel_parse. pose proof (validate_name_spec s). by destruct (validate_name s).
Qed.

Lemma ClientId_parse_spec s :
  checks (ClientId_parse s) (name_ok s).
Proof.
  unfold ClientId_parse. pose proof (validate_name_spec s). by destruct (validate_name s).
Qed.
