(* ===== verification/Writers.v ===== *)
(** * The writers refine the grammar

    [emits w ok s]: run on any output vector, the writer [w] appends exactly
    [s] when [ok] holds, fails when it does not, and never panics.  Sequencing
    composes these specifications, so each [push_*] function is proved by the
    shape of its body. *)

From S2P Require Export Validators.

Local Open Scope N_scope.

Definition emits (w : bytes -> result CodecError bytes) (ok : Prop) (s : bytes) : Prop :=
  forall out, match w out with
  | Ok out' => ok /\ out' = out ++ s
  | Err _ => ~ ok
  | Panic => False
  end.

Lemma emits_iff w ok ok' s s' :
  emits w ok s -> (ok <-> ok') -> s = s' -> emits w ok' s'.
Proof. intros Hw Hok -> out. specialize (Hw out). destruct (w out); tauto. Qed.

Lemma emits_push s : emits (fun out => Ok (out ++ s)) True s.
Proof. done. Qed.

Lemma emits_bind w1 w2 ok1 ok2 s1 s2 :
  emits w1 ok1 s1 -> emits w2 ok2 s2 ->
  emits (fun out => out' ← w1 out; w2 out') (ok1 /\ ok2) (s1 ++ s2).
Proof.
  intros H1 H2 out. specialize (H1 out). cbn. unfold mbind, result_bind.
  destruct (w1 out) as [o1| |]; [|tauto|done]. destruct H1 as [? ->].
  specialize (H2 (out ++ s1)). destruct (w2 (out ++ s1)); [|tauto|done].
  rewrite app_assoc. tauto.
Qed.

(** Bytes pushed before a writer runs. *)
Lemma emits_prefix w ok s1 s2 :
  emits w ok s2 -> emits (fun out => w (out ++ s1)) ok (s1 ++ s2).
Proof.
  intros H out. specialize (H (out ++ s1)). destruct (w _); [|done..].
  by rewrite app_assoc.
Qed.

(** A check that runs before a writer. *)
Lemma emits_check {A} (m : result CodecError A) w P ok s :
  checks m P -> emits w ok s ->
  emits (fun out => _ ← m; w out) (P /\ ok) s.
Proof.
  intros Hm Hw out. specialize (Hw out). cbn. unfold mbind, result_bind.
  destruct m; cbn in Hm; [|tauto|done]. destruct (w out); tauto.
Qed.

Lemma emits_if_err (b : bool) e w (P ok : Prop) s :
  (b = true <-> ~ P) -> (b = false -> P) -> emits w ok s ->
  emits (fun out => if b then Err e else w out) (P /\ ok) s.
Proof.
  intros Hb Hb' Hw out. specialize (Hw out).
  destruct b; [tauto|]. specialize (Hb' eq_refl). destruct (w out); tauto.
Qed.

(** [for item in items { body(item)?; }]. *)
Lemma emits_for_each {A} (items : list A) body (ok : A -> Prop) (wire : A -> bytes) :
  (forall x, x ∈ items -> emits (fun out => body out x) (ok x) (wire x)) ->
  emits (for_each items body) (Forall ok items) (concat (wire <$> items)).
Proof.
  induction items as [|x items IH]; intros Hx; cbn.
  - intros out. by rewrite app_nil_r.
  - eapply emits_iff; [apply (emits_bind (fun out => body out x)) | | reflexivity].
    + apply Hx. by left.
    + apply IH. intros y Hy. apply Hx. by right.
    + by rewrite Forall_cons.
Qed.

(** ** The fields *)

Lemma u8_wire_of b : u8_wire (byte_val b) = [b].
Proof. unfold u8_wire. by rewrite byte_of_val. Qed.

Lemma u16_try_from_spec e n :
  checks (ok_or (E := CodecError) e (u16_try_from n)) (n <= u16_max).
Proof. unfold u16_try_from. destruct (N.leb_spec n u16_max); cbn; lia. Qed.

Lemma u32_try_from_spec e n :
  checks (ok_or (E := CodecError) e (u32_try_from n)) (n <= u32_max).
Proof. unfold u32_try_from. destruct (N.leb_spec n u32_max); cbn; lia. Qed.

Lemma push_text_emits s :
  utf8_valid s = true -> emits (fun out => push_text out s) (text_ok s) (text_wire s).
Proof.
  intros Hs out. unfold push_text, text_ok, text_wire, u16_try_from, push_u16, u16_wire.
  destruct (N.leb_spec (len s) u16_max); cbn.
  - by rewrite app_assoc.
  - intros [_ ?]. lia.
Qed.

Lemma push_name_emits s : emits (fun out => push_name out s) (name_ok s) (text_wire s).
Proof.
  intros out. unfold push_name. pose proof (validate_name_spec s) as Hn.
  destruct (validate_name s) as [[]| |]; cbn in *; [|done..].
  pose proof (name_text_ok s Hn) as Ht.
  pose proof (push_text_emits s (proj1 Ht) out) as He.
  destruct (push_text out s); tauto.
Qed.

Lemma push_namespace_emits n :
  namespace_ok n -> emits (fun out => push_namespace out n) True (namespace_wire n).
Proof.
  intros Hn. pose proof (namespace_text_ok n Hn) as Ht.
  eapply emits_iff; [apply push_text_emits, Ht | tauto | done].
Qed.

Lemma push_binary_emits s : emits (fun out => push_binary out s) (binary_ok s) (binary_wire s).
Proof.
  intros out. unfold push_binary, binary_ok, binary_wire, u32_try_from, push_u32, u32_wire.
  destruct (N.leb_spec (len s) u32_max); cbn; [by rewrite app_assoc | lia].
Qed.

Lemma push_value_emits v :
  wf_value v -> emits (fun out => push_value out v) (value_ok v) (value_wire v).
Proof.
  intros Hv. destruct v as [s|n|b|s]; unfold push_value, value_ok, value_wire.
  - apply (emits_prefix (fun out => push_text out s)), push_text_emits, Hv.
  - intros out. unfold push_u8, push_u64. by rewrite <- app_assoc.
  - intros out. unfold push_u8. by rewrite <- app_assoc.
  - apply (emits_prefix (fun out => push_binary out s)), push_binary_emits.
Qed.

Lemma push_headers_emits limits h :
  wf_headers h ->
  emits (fun out => push_headers out h limits) (headers_ok limits h) (headers_wire h).
Proof.
  intros Hh. unfold push_headers, headers_ok, headers_wire.
  apply emits_if_err.
  { rewrite N.ltb_lt. lia. }
  { by rewrite N.ltb_ge. }
  pose proof (u16_try_from_spec (CodecError_LimitExceeded "header count") (bt_len h)) as Hc.
  unfold u16_try_from in *. destruct (N.leb_spec (bt_len h) u16_max); cbn in *.
  - eapply emits_iff; [apply emits_prefix, emits_for_each with (ok := entry_ok) (wire := entry_wire)
                      | by intuition | done].
    intros [k v] Hkv%elem_of_bt_entries. unfold entry_ok, entry_wire; cbn.
    apply emits_bind; [apply push_name_emits | apply push_value_emits, (Hh k v Hkv)].
  - intros out; cbn. intuition.
Qed.

Lemma push_capabilities_emits limits c :
  emits (fun out => push_capabilities out c limits) (capabilities_ok limits c)
    (capabilities_wire c).
Proof.
  unfold push_capabilities, capabilities_ok, capabilities_wire.
  apply emits_if_err.
  { rewrite N.ltb_lt. lia. }
  { by rewrite N.ltb_ge. }
  unfold u16_try_from. destruct (N.leb_spec (bs_len c) u16_max); cbn.
  - eapply emits_iff; [apply emits_prefix, emits_for_each with (ok := name_ok) (wire := text_wire)
                      | by intuition | done].
    intros k _. apply push_name_emits.
  - intros out; cbn. intuition lia.
Qed.

(** ** Filters *)

(** A writer run on an empty vector, as the loop of [push_filters] runs it. *)
Lemma emits_nil w ok s :
  emits w ok s -> match w [] with Ok e => ok /\ e = s | Err _ => ~ ok | Panic => False end.
Proof. intros Hw. exact (Hw []). Qed.

Lemma push_named_value_emits tag name v :
  wf_value v ->
  emits (fun out => value ← push_name (push_u8 out tag) name; push_value value v)
    (name_ok name /\ value_ok v) (u8_wire tag ++ text_wire name ++ value_wire v).
Proof.
  intros Hv.
  apply (emits_prefix (fun out => value ← push_name out name; push_value value v)).
  apply emits_bind; [apply push_name_emits | by apply push_value_emits].
Qed.

Lemma encode_filter_spec f :
  wf_filter f ->
  match encode_filter f with
  | Ok e => filter_ok f /\ e = filter_wire f
  | Err _ => ~ filter_ok f
  | Panic => False
  end.
Proof.
  intros Hf. destruct f as [n|n|n v|n v|n v];
    [apply (emits_nil (fun out => push_name (push_u8 out 0) n))
    |apply (emits_nil (fun out => push_name (push_u8 out 1) n))
    |apply (emits_nil (fun out => value ← push_name (push_u8 out 2) n; push_value value v))
    |apply (emits_nil (fun out => value ← push_name (push_u8 out 3) n; push_value value v))
    |apply (emits_nil (fun out => value ← push_name (push_u8 out 4) n; push_value value v))].
  1,2: apply (emits_prefix (fun out => push_name out n)), push_name_emits.
  all: by apply push_named_value_emits.
Qed.

Lemma mapM_encode_filter fs :
  Forall wf_filter fs ->
  match mapM encode_filter fs with
  | Ok encoded => Forall filter_ok fs /\ encoded = filter_wire <$> fs
  | Err _ => ~ Forall filter_ok fs
  | Panic => False
  end.
Proof.
  induction 1 as [|f fs Hf _ IH]; [by split|].
  cbn [mapM]. pose proof (encode_filter_spec f Hf) as He. pose proof (Forall_cons filter_ok f fs).
  unfold mbind, result_bind. destruct (encode_filter f) as [e| |]; [|tauto|done].
  destruct (mapM encode_filter fs); cbn in *; [|tauto|done].
  destruct He as [? ->], IH as [? ->]. tauto.
Qed.

Lemma windows_any_ge_spec l : windows_any_ge l = false <-> StronglySorted ord_lt l.
Proof.
  split.
  - intros Hl. apply Sorted_StronglySorted; [apply _|].
    induction l as [|a l IH]; [constructor|]. destruct l as [|b l]; [by repeat constructor|].
    cbn [windows_any_ge] in Hl. apply orb_false_iff in Hl as [Hab Hl].
    constructor; [by apply IH|]. constructor. by apply ord_not_le.
  - induction 1 as [|a l Hl IH Ha]; [done|]. destruct l as [|b l]; [done|].
    apply Forall_cons in Ha as [Ha _].
    apply orb_false_iff. split; [by apply ord_not_le | exact IH].
Qed.

Lemma push_filters_emits limits fs :
  Forall wf_filter fs ->
  emits (fun out => push_filters out fs limits) (filters_ok limits fs) (filters_wire fs).
Proof.
  intros Hfs. unfold push_filters, filters_ok, filters_wire.
  apply emits_if_err.
  { rewrite N.ltb_lt. lia. }
  { by rewrite N.ltb_ge. }
  pose proof (mapM_encode_filter fs Hfs) as He. unfold mbind, result_bind.
  intros out. destruct (mapM encode_filter fs) as [encoded| |]; [|tauto|done].
  destruct He as [Hok ->]. destruct (windows_any_ge (filter_wire <$> fs)) eqn:Ew.
  - rewrite <- windows_any_ge_spec. intuition congruence.
  - apply windows_any_ge_spec in Ew. unfold u16_try_from, push_u16, u16_wire.
    replace (len (filter_wire <$> fs)) with (len fs) by (unfold len; by rewrite length_fmap).
    destruct (N.leb_spec (len fs) u16_max); cbn; [by rewrite app_assoc | intuition lia].
Qed.

(** ** The envelope *)

Lemma push_ack_requirement_emits r :
  wf_ack_requirement r ->
  emits (fun out => push_ack_requirement out r) (ack_requirement_ok r) (ack_requirement_wire r).
Proof.
  intros Hr out. destruct r; cbn in *; try done.
  destruct (N.eqb_spec minimum 0); cbn; [lia|].
  unfold push_u16, push_u8. rewrite <- app_assoc. split; [lia | done].
Qed.

Lemma push_retry_policy_emits r :
  wf_retry r -> emits (fun out => push_retry_policy out r) (retry_ok r) (retry_wire r).
Proof.
  intros Hr out. destruct r as [|b n]; cbn in *; [done|].
  destruct (N.eqb_spec b 0), (N.leb_spec 2 n); cbn; try lia.
  unfold push_u32, push_u8. rewrite <- !app_assoc. split; [lia | done].
Qed.

Lemma push_destination_emits d :
  wf_destination d ->
  emits (fun out => push_destination out d) (destination_ok d) (destination_wire d).
Proof.
  intros Hd. destruct d as [|p|n|c|c s|]; try done; unfold push_destination, destination_wire.
  - intros out. cbn in *. unfold peer_ok, wf_peer, push_u64, push_u8 in *.
    destruct (N.eqb_spec (PeerId_get p) 0); [lia|]. rewrite <- app_assoc. split; [lia | done].
  - eapply emits_iff; [apply (emits_prefix (fun out => push_namespace out n)),
      push_namespace_emits, Hd | by split | done].
  - apply (emits_prefix (fun out => push_name out (Channel_as_str c))), push_name_emits.
  - apply (emits_prefix (fun out => out ← push_name out (ClientId_as_str c); Ok (push_u8 out _))).
    eapply emits_iff; [apply emits_bind; [apply push_name_emits | apply emits_push] | | done].
    by split; [intros [] | intros ?; split].
Qed.

Lemma push_message_emits limits m :
  wf_message m ->
  emits (fun out => push_message out m limits) (message_ok limits m) (message_wire m).
Proof.
  intros (Har & Hd & Hr & Hdst & Hmid & Hcid & Hh). unfold push_message, message_wire.
  eapply emits_iff; [
    eapply emits_check; [apply validate_delivery_options_spec|];
    eapply emits_check; [apply validate_message_identity_spec|];
    apply (emits_prefix (fun out => push_ack_requirement (push_u8 out _) _ ≫= _));
    apply (emits_prefix (fun out => push_ack_requirement out _ ≫= _));
    eapply emits_bind; [by apply push_ack_requirement_emits|];
    apply (emits_prefix (fun out => push_retry_policy (push_u32 out _) _ ≫= _));
    apply (emits_prefix (fun out => push_retry_policy out _ ≫= _));
    eapply emits_bind; [by apply push_retry_policy_emits|];
    eapply emits_bind; [by apply push_destination_emits|];
    apply (emits_prefix (fun out => push_headers (push_u8 (out ++ _) _) _ _ ≫= _));
    apply (emits_prefix (fun out => push_headers (push_u8 out _) _ _ ≫= _));
    apply (emits_prefix (fun out => push_headers out _ _ ≫= _));
    eapply emits_bind; [by apply push_headers_emits | apply push_binary_emits]
  | unfold message_ok; tauto | done].
Qed.

(** ** Frames *)

(** The same specification for a computation that ends with a frame kind. *)
Definition frames (r : result CodecError (N * bytes)) (ok : Prop) (kind : N) (body : bytes) : Prop :=
  match r with
  | Ok (k, b) => ok /\ k = kind /\ b = body
  | Err _ => ~ ok
  | Panic => False
  end.

Lemma frames_iff r ok ok' kind body body' :
  frames r ok kind body -> (ok <-> ok') -> body = body' -> frames r ok' kind body'.
Proof. intros Hr Hok <-. destruct r as [[]| |]; cbn in *; tauto. Qed.

Lemma frames_ret kind body : frames (Ok (kind, body)) True kind body.
Proof. done. Qed.

Lemma frames_step w out k ok1 ok2 kind s body :
  emits w ok1 s -> frames (k (out ++ s)) ok2 kind body ->
  frames (body ← w out; k body) (ok1 /\ ok2) kind body.
Proof.
  intros Hw Hk. specialize (Hw out). unfold mbind, result_bind.
  destruct (w out); [|cbn; tauto|done]. destruct Hw as [? ->].
  destruct (k (out ++ s)) as [[]| |]; cbn in *; tauto.
Qed.

Lemma frames_if_err (b : bool) e r (P ok : Prop) kind body :
  (b = true <-> ~ P) -> (b = false -> P) -> frames r ok kind body ->
  frames (if b then Err e else r) (P /\ ok) kind body.
Proof.
  intros Hb Hb' Hr. destruct b; cbn; [tauto|].
  specialize (Hb' eq_refl). destruct r as [[]| |]; cbn in *; tauto.
Qed.

(** One step of a body, the writer named. *)
Ltac frames_with w := eapply (frames_step (fun out => w out)); [by eauto with writers|].
Ltac frames_close :=
  cbn -[u8_wire]; unfold push_u8, push_u64; rewrite ?app_nil_l, <- ?app_assoc; first [done | tauto].

Create HintDb writers.
#[export] Hint Resolve push_name_emits push_namespace_emits push_headers_emits
  push_capabilities_emits push_filters_emits push_text_emits push_message_emits : writers.

(** The optional owner of [NAMESPACE_RESOLVED]. *)
Lemma push_owner_emits (o : option PeerId) :
  match o with Some p => wf_peer p | None => True end ->
  emits (fun out => push_owner out o)
    (match o with Some p => peer_ok p | None => True end)
    (match o with Some p => u8_wire 1 ++ peer_wire p | None => u8_wire 0 end).
Proof.
  intros Ho out. destruct o as [p|]; [|done]. cbn [push_owner].
  unfold wf_peer, peer_ok, peer_wire in *.
  destruct (N.eqb_spec (PeerId_get p) 0); cbn; [lia|].
  unfold push_u64, push_u8. rewrite <- app_assoc. split; [lia | done].
Qed.

#[export] Hint Resolve push_owner_emits : writers.

(** A body written by a sequence of steps [t] reaches the end. *)
Tactic Notation "frames_body" tactic1(t) :=
  eapply frames_iff; [t; apply frames_ret|frames_close|frames_close].

Lemma encode_body_spec limits f :
  wf_frame f ->
  frames (encode_body f limits) (body_ok limits f) (frame_kind f) (body_wire f).
Proof.
  intros Hf.
  destruct f as [id h c|p c|n h|c fs|c|m|i p|i o|c t|o|n|n o];
    cbn [wf_frame] in Hf; unfold encode_body, body_ok, frame_kind, body_wire.
  - destruct Hf as [Hid Hh]. destruct id as [i|].
    + frames_body (frames_with (fun out => push_name out (ClientId_as_str i));
        frames_with (fun out => push_headers out h limits);
        frames_with (fun out => push_capabilities out c limits)).
    + frames_body (frames_with (fun out => push_headers out h limits);
        frames_with (fun out => push_capabilities out c limits)).
  - unfold peer_ok, peer_wire, wf_peer in *. destruct (N.eqb_spec (PeerId_get p) 0); [cbn; lia|].
    eapply frames_iff; [frames_with (fun out => push_capabilities out c limits); apply frames_ret
                       |intuition lia|frames_close].
  - destruct Hf as [Hn Hh]. frames_body (frames_with (fun out => push_namespace out n);
      frames_with (fun out => push_headers out h limits)).
  - destruct Hf as [Hc Hfs]. frames_body (frames_with (fun out => push_name out (Channel_as_str c));
      frames_with (fun out => push_filters out fs limits)).
  - frames_body (frames_with (fun out => push_name out (Channel_as_str c))).
  - frames_body (frames_with (fun out => push_message out m limits)).
  - destruct (reflect_absent i), (reflect_waits p); cbn; tauto.
  - destruct (reflect_absent i); cbn; tauto.
  - frames_body (frames_with (fun out => push_text out t)).
  - done.
  - frames_body (frames_with (fun out => push_namespace out n)).
  - destruct Hf as [Hn Ho]. eapply frames_iff;
      [frames_with (fun out => push_namespace out n); frames_with (fun out => push_owner out o); apply frames_ret
      |destruct o; cbn; tauto|frames_close].
Qed.

(** The encoder refines the grammar: it produces the packet that stands for a
    frame, and fails exactly when no packet does. *)
Lemma encode_refines limits f :
  wf_frame f ->
  match encode_with_limits f limits with
  | Ok packet => stands_for limits f packet
  | Err _ => forall packet, ~ stands_for limits f packet
  | Panic => False
  end.
Proof.
  intros Hf. pose proof (encode_body_spec limits f Hf) as Hb.
  unfold encode_with_limits, stands_for, frame_ok, mbind, result_bind.
  destruct (encode_body f limits) as [[kind body]| |]; cbn in Hb; [|by intuition|done].
  destruct Hb as (Hok & -> & ->). unfold checked_add.
  destruct (decide (HEADER_SIZE + len (body_wire f) <= usize_max)) as [Hu|Hu]; cbn.
  - destruct (N.ltb_spec (maximum_frame_size limits) (HEADER_SIZE + len (body_wire f))),
      (N.ltb_spec u32_max (len (body_wire f))); cbn; try (intros packet; lia).
    by repeat split.
  - unfold HEADER_SIZE, usize_max, u32_max in *. intros packet; lia.
Qed.

(** ** No value makes a writer panic, well formed or not *)

Definition total {A} (r : result CodecError A) : Prop := r <> Panic.

Lemma total_bind {A B} (r : result CodecError A) (k : A -> result CodecError B) :
  total r -> (forall a, total (k a)) -> total (a ← r; k a).
Proof. intros Hr Hk. unfold mbind, result_bind. destruct r; [apply Hk|done|done]. Qed.

Lemma total_checks {A} (r : result CodecError A) P : checks r P -> total r.
Proof. by destruct r. Qed.

Lemma validate_delivery_options_total k ap ar rp d r : total (validate_delivery_options k ap ar rp d r).
Proof. eapply total_checks, validate_delivery_options_spec. Qed.

Lemma validate_message_identity_total k m c st : total (validate_message_identity k m c st).
Proof. eapply total_checks, validate_message_identity_spec. Qed.

Lemma validate_name_total s : total (map_err CodecError_InvalidName (validate_name s)).
Proof. pose proof (validate_name_spec s) as Hs. by destruct (validate_name s). Qed.

Lemma total_ok_or {A} e (o : option A) : total (ok_or e o).
Proof. by destruct o. Qed.

Lemma total_for_each {A S} (items : list A) (body : S -> A -> result CodecError S) s :
  (forall s a, total (body s a)) -> total (for_each items body s).
Proof.
  intros Hb. revert s. induction items as [|a items IH]; intros s; [done|]. by apply total_bind.
Qed.

Lemma total_mapM {A B} (f : A -> result CodecError B) l : (forall a, total (f a)) -> total (mapM f l).
Proof.
  intros Hf. induction l as [|a l IH]; [done|]. cbn. apply total_bind; [done|]. intros b.
  by apply total_bind.
Qed.

Create HintDb total.
#[export] Hint Resolve validate_delivery_options_total validate_message_identity_total
  validate_name_total total_ok_or : total.

(** Splits a writer into its steps. *)
Ltac total_steps :=
  repeat (first
    [ progress intros
    | apply total_bind
    | apply total_for_each
    | apply total_mapM
    | solve [auto with total]
    | discriminate
    | match goal with
      | |- total (match ?x with _ => _ end) => destruct x
      end ]).

Lemma push_text_total out s : total (push_text out s).
Proof. unfold push_text. total_steps. Qed.
#[export] Hint Resolve push_text_total : total.
Lemma push_name_total out s : total (push_name out s).
Proof. unfold push_name. total_steps. Qed.
#[export] Hint Resolve push_name_total : total.
Lemma push_namespace_total out n : total (push_namespace out n).
Proof. unfold push_namespace. total_steps. Qed.
#[export] Hint Resolve push_namespace_total : total.
Lemma push_binary_total out s : total (push_binary out s).
Proof. unfold push_binary. total_steps. Qed.
#[export] Hint Resolve push_binary_total : total.
Lemma push_value_total out v : total (push_value out v).
Proof. unfold push_value. total_steps. Qed.
#[export] Hint Resolve push_value_total : total.
Lemma push_headers_total out h l : total (push_headers out h l).
Proof. unfold push_headers. total_steps. Qed.
#[export] Hint Resolve push_headers_total : total.
Lemma push_capabilities_total out c l : total (push_capabilities out c l).
Proof. unfold push_capabilities. total_steps. Qed.
#[export] Hint Resolve push_capabilities_total : total.
Lemma encode_filter_total f : total (encode_filter f).
Proof. unfold encode_filter. total_steps. Qed.
#[export] Hint Resolve encode_filter_total : total.
Lemma push_filters_total out fs l : total (push_filters out fs l).
Proof. unfold push_filters. total_steps. Qed.
#[export] Hint Resolve push_filters_total : total.
Lemma push_ack_requirement_total out r : total (push_ack_requirement out r).
Proof. unfold push_ack_requirement. total_steps. Qed.
Lemma push_retry_policy_total out r : total (push_retry_policy out r).
Proof. unfold push_retry_policy. total_steps. Qed.
Lemma push_destination_total out d : total (push_destination out d).
Proof. unfold push_destination. total_steps. Qed.
#[export] Hint Resolve push_ack_requirement_total push_retry_policy_total
  push_destination_total : total.
Lemma push_message_total out m l : total (push_message out m l).
Proof. unfold push_message. total_steps. Qed.
#[export] Hint Resolve push_message_total : total.
Lemma push_owner_total out o : total (push_owner out o).
Proof. unfold push_owner. total_steps. Qed.
#[export] Hint Resolve push_owner_total : total.

Lemma encode_total f limits : encode_with_limits f limits <> Panic.
Proof.
  enough (total (encode_with_limits f limits)) by done. unfold encode_with_limits.
  apply total_bind; [unfold encode_body; total_steps|]. intros [kind body]. total_steps.
Qed.

(** The kind byte of a packet. *)
Lemma encode_body_kind f limits kind body :
  encode_body f limits = Ok (kind, body) -> kind = frame_kind f.
Proof.
  unfold encode_body, mbind, result_bind. intros He.
  destruct f; repeat match type of He with
  | context [match ?x with _ => _ end] => destruct x
  end; by simplify_eq.
Qed.

Lemma encode_kind f limits packet :
  encode_with_limits f limits = Ok packet -> packet !! 5%nat = Some (byte_of (frame_kind f)).
Proof.
  unfold encode_with_limits, mbind, result_bind. intros He.
  destruct (encode_body f limits) as [[kind body]| |] eqn:Eb; [|done..].
  apply encode_body_kind in Eb as ->. destruct (ok_or _ _); [|done..].
  destruct (_ || _); [done|]. by injection He as <-.
Qed.

Lemma encode_bounded f limits packet :
  encode_with_limits f limits = Ok packet -> HEADER_SIZE <= len packet <= maximum_frame_size limits.
Proof.
  unfold encode_with_limits, mbind, result_bind. intros He.
  destruct (encode_body f limits) as [[kind body]| |]; [|done..]. unfold checked_add in He.
  destruct (decide _) in He; cbn [ok_or] in He; [|done].
  destruct (N.ltb_spec (maximum_frame_size limits) (HEADER_SIZE + len body)); [done|].
  destruct (_ <? _) in He; [done|]. injection He as <-.
  unfold HEADER_SIZE, len in *. cbn [length app]. lia.
Qed.
