(* ===== verification/Readers.v ===== *)
(** * The reader refines the grammar

    [reads p P]: on a reader whose remaining bytes start with [s], the method
    [p] returns [v] and advances by [s] exactly when [P v s] holds; whatever
    the bytes are, it never panics.  The specifications compose through bind,
    so each reader method is proved by the shape of its body. *)

From S2P Require Export Validators Writers.

Local Open Scope N_scope.

(** ** Positions *)

(** The position stays inside the buffer, and a buffer fits in memory. *)
Definition wf_reader (r : Reader) : Prop :=
  r_position r <= len (r_bytes r) /\ len (r_bytes r) <= usize_max.

Definition rest (r : Reader) : bytes := drop (N.to_nat (r_position r)) (r_bytes r).

Definition skip (n : N) (r : Reader) : Reader :=
  {| r_bytes := r_bytes r; r_position := r_position r + n |}.

Lemma skip_0 r : skip 0 r = r.
Proof. destruct r. unfold skip; cbn. by rewrite N.add_0_r. Qed.

Lemma skip_skip n m r : skip m (skip n r) = skip (n + m) r.
Proof. unfold skip; cbn. by rewrite N.add_assoc. Qed.

Lemma len_rest r : wf_reader r -> len (rest r) = len (r_bytes r) - r_position r.
Proof. intros [? _]. unfold rest, len in *. rewrite length_drop. lia. Qed.

Lemma rest_skip r s k : rest r = s ++ k -> rest (skip (len s) r) = k.
Proof.
  unfold rest, skip; cbn. intros Hr. rewrite N2Nat.inj_add, <- drop_drop, Hr.
  unfold len. by rewrite Nat2N.id, drop_app_length.
Qed.

Lemma wf_skip r s k : wf_reader r -> rest r = s ++ k -> wf_reader (skip (len s) r).
Proof.
  intros Hwf Hr. pose proof (len_rest r Hwf) as Hl. rewrite Hr, len_app in Hl.
  destruct Hwf as [Hp Hb]. split; cbn; lia.
Qed.

(** The bytes between two positions. *)
Lemma slice_skip r s k :
  wf_reader r -> rest r = s ++ k ->
  slice_get (r_bytes r) (r_position r) (r_position r + len s) = Some s.
Proof.
  intros Hwf Hr. pose proof (len_rest r Hwf) as Hl. rewrite Hr, len_app in Hl.
  destruct Hwf as [Hp _]. unfold slice_get.
  destruct (N.leb_spec (r_position r) (r_position r + len s)),
    (N.leb_spec (r_position r + len s) (len (r_bytes r))); cbn; try lia.
  replace (r_position r + len s - r_position r) with (len s) by lia.
  unfold rest in Hr. rewrite Hr. unfold len. by rewrite Nat2N.id, take_app_length.
Qed.

(** ** The specification of a reader method *)

Record reads {A} (p : reader A) (P : A -> bytes -> Prop) : Prop := {
  reads_accept r v s k :
    wf_reader r -> rest r = s ++ k -> P v s -> p r = (Ok v, skip (len s) r);
  reads_sound r v r' :
    wf_reader r -> p r = (Ok v, r') ->
    exists s k, rest r = s ++ k /\ P v s /\ r' = skip (len s) r;
  reads_no_panic r : wf_reader r -> (p r).1 <> Panic;
}.

Lemma reads_iff {A} (p : reader A) (P Q : A -> bytes -> Prop) :
  reads p P -> (forall v s, P v s <-> Q v s) -> reads p Q.
Proof.
  intros [Ha Hs Hn] HPQ. split; [|intros r v r' Hwf Hp|done].
  - intros r v s k Hwf Hr HQ. apply (Ha r v s k); [done..|]. by apply HPQ.
  - destruct (Hs r v r' Hwf Hp) as (s & k & Hr & HP & Hr').
    exists s, k. by rewrite <- HPQ.
Qed.

Lemma reads_ret {A} (a : A) : reads (mret a) (fun v s => v = a /\ s = []).
Proof.
  split; [|intros r v r' _ [= <- <-]|done].
  - intros r v s k _ _ [-> ->]. by rewrite skip_0.
  - exists [], (rest r). by rewrite skip_0.
Qed.

Lemma reads_fail {A} e : reads (fail (A := A) e) (fun _ _ => False).
Proof. by split. Qed.

Lemma reads_lift {A} (m : result CodecError A) :
  m <> Panic -> reads (lift m) (fun v s => m = Ok v /\ s = []).
Proof.
  intros Hm. split; [|intros r v r' _ [= Hv <-]|done].
  - intros r v s k _ _ [-> ->]. unfold lift. by rewrite skip_0.
  - exists [], (rest r). by rewrite skip_0.
Qed.

Lemma reads_bind {A B} (p : reader A) (f : A -> reader B) P Q :
  reads p P -> (forall x s, P x s -> reads (f x) (Q x)) ->
  reads (x ← p; f x) (fun v s => exists x s1 s2, P x s1 /\ Q x v s2 /\ s = s1 ++ s2).
Proof.
  intros Hp Hf. split.
  - intros r v s k Hwf Hr (x & s1 & s2 & HP & HQ & ->). rewrite <- app_assoc in Hr.
    unfold mbind, St_bind. rewrite (reads_accept _ _ Hp r x s1 (s2 ++ k)) by done.
    rewrite (reads_accept _ _ (Hf x s1 HP) _ v s2 k).
    + by rewrite skip_skip, len_app.
    + by apply (wf_skip r s1 (s2 ++ k)).
    + by apply rest_skip.
    + done.
  - intros r v r' Hwf. unfold mbind, St_bind.
    destruct (p r) as [[x| |] r1] eqn:E; [|done|done]. intros Hx.
    destruct (reads_sound _ _ Hp r x r1 Hwf E) as (s1 & k1 & Hr1 & HP & ->).
    destruct (reads_sound _ _ (Hf x s1 HP) _ v r' (wf_skip r s1 k1 Hwf Hr1) Hx)
      as (s2 & k2 & Hr2 & HQ & ->).
    rewrite (rest_skip r s1 k1 Hr1) in Hr2. subst k1.
    exists (s1 ++ s2), k2. rewrite <- app_assoc, len_app, skip_skip.
    split; [done|]. split; [by exists x, s1, s2 | done].
  - intros r Hwf. unfold mbind, St_bind.
    pose proof (reads_no_panic _ _ Hp r Hwf) as Hn.
    destruct (p r) as [[x| |] r1] eqn:E; [|done|done].
    destruct (reads_sound _ _ Hp r x r1 Hwf E) as (s1 & k1 & Hr1 & HP & ->).
    apply (reads_no_panic _ _ (Hf x s1 HP)). by apply (wf_skip r s1 k1).
Qed.

(** The common case: a field whose grammar is a condition and a rendering. *)
Definition exactly {A} (ok : A -> Prop) (wire : A -> bytes) (v : A) (s : bytes) : Prop :=
  ok v /\ s = wire v.

Lemma reads_field {A B} (p : reader A) (f : A -> reader B) ok wire Q :
  reads p (exactly ok wire) -> (forall x, ok x -> reads (f x) (Q x)) ->
  reads (x ← p; f x) (fun v s => exists x, ok x /\ exists s', Q x v s' /\ s = wire x ++ s').
Proof.
  intros Hp Hf. eapply reads_iff.
  - apply reads_bind; [exact Hp|]. intros x s [Hx _]. by apply Hf.
  - intros v s. split.
    + intros (x & s1 & s2 & [Hx ->] & HQ & ->). eauto 10.
    + intros (x & Hx & s' & HQ & ->). exists x, (wire x), s'. by repeat split.
Qed.

(** A pure check between two fields. *)
Lemma reads_guard {A B} (m : result CodecError A) (P : Prop) (f : A -> reader B) Q :
  checks m P -> (forall a, m = Ok a -> P -> reads (f a) Q) ->
  reads (a ← lift m; f a) (fun v s => P /\ Q v s).
Proof.
  intros Hm Hf. destruct m as [a| |]; cbn in Hm; [|by split; cbn; [tauto| |]|done].
  eapply reads_iff; [exact (Hf a eq_refl Hm)|]. intuition.
Qed.

Lemma reads_if_fail {A} (b : bool) e (p : reader A) (C : Prop) Q :
  (b = false <-> C) -> (C -> reads p Q) ->
  reads (if b then fail e else p) (fun v s => C /\ Q v s).
Proof.
  intros Hb Hp. destruct b.
  - eapply reads_iff; [apply reads_fail|]. intuition congruence.
  - assert C as HC by tauto. eapply reads_iff; [by apply Hp|]. tauto.
Qed.

Lemma reads_take n : reads (read_take n) (fun v s => v = s /\ len s = n).
Proof.
  assert (forall r v s k, wf_reader r -> rest r = s ++ k -> v = s /\ len s = n ->
            read_take n r = (Ok v, skip (len s) r)) as Ha.
  { intros r v s k Hwf Hr [-> <-]. unfold read_take.
    pose proof (len_rest r Hwf) as Hl. rewrite Hr, len_app in Hl.
    pose proof Hwf as [Hp Hb]. unfold checked_add.
    destruct (decide (r_position r + len s <= usize_max)) as [_|?]; [|lia].
    by rewrite (slice_skip r s k Hwf Hr). }
  split; [done| |].
  - intros r v r' Hwf. unfold read_take, checked_add, slice_get.
    destruct (decide _) as [?|?]; [|done].
    destruct (N.leb_spec (r_position r) (r_position r + n)); [|done].
    destruct (N.leb_spec (r_position r + n) (len (r_bytes r))) as [Hle|]; [|done].
    cbn. intros [= <- <-].
    replace (r_position r + n - r_position r) with n by lia. fold (rest r).
    assert (len (take (N.to_nat n) (rest r)) = n) as Hn.
    { pose proof (len_rest r Hwf). unfold len in *. rewrite length_take. lia. }
    exists (take (N.to_nat n) (rest r)), (drop (N.to_nat n) (rest r)).
    rewrite take_drop, Hn. done.
  - intros r Hwf. unfold read_take, checked_add, slice_get.
    destruct (decide _) as [?|?]; [|done]. by destruct (_ && _).
Qed.

(** ** Fields *)

Lemma len_1 {A} (s : list A) : len s = 1 -> exists x, s = [x].
Proof. unfold len. destruct s as [|x [|]]; cbn; try lia. by exists x. Qed.

Lemma reads_u8 : reads read_u8 (exactly (fun n => n <= u8_max) u8_wire).
Proof.
  eapply reads_iff.
  - apply reads_bind; [apply reads_take|]. intros x s Hx.
    apply reads_bind; [|intros; apply reads_ret].
    apply reads_lift. by destruct Hx as [-> (b & ->)%len_1].
  - unfold exactly. intros n s. split.
    + intros (x & s1 & s2 & [-> (b & ->)%len_1] & (b' & s3 & s4 & [[= <-] ->] & [-> ->] & ->) & ->).
      cbn. rewrite u8_wire_of. pose proof (byte_val_bound b). unfold u8_max. by split; [lia|].
    + intros [Hn ->]. exists (u8_wire n), (u8_wire n), [].
      split; [done|]. split; [|by rewrite app_nil_r].
      exists (byte_of n), [], []. split; [done|]. split; [|done].
      unfold u8_max in Hn. by rewrite byte_val_of_small by lia.
Qed.

Lemma reads_be w :
  reads (read_be (N.of_nat w)) (exactly (fun n => n < 256 ^ N.of_nat w) (to_be w)).
Proof.
  eapply reads_iff.
  - apply reads_bind; [apply reads_take|]. intros x s Hx.
    apply reads_bind; [|intros; apply reads_ret].
    apply reads_lift. destruct Hx as [-> Hs]. unfold to_array. by rewrite Hs, N.eqb_refl.
  - unfold exactly. intros n s. split.
    + intros (x & s1 & s2 & [-> Hs] & (a & s3 & s4 & [Ha ->] & [-> ->] & ->) & ->).
      unfold to_array in Ha. rewrite Hs, N.eqb_refl in Ha. injection Ha as <-.
      rewrite !app_nil_r, <- Hs. split; [apply from_be_bound|].
      symmetry. apply to_be_from_be. unfold len in Hs. lia.
    + intros [Hn ->]. exists (to_be w n), (to_be w n), [].
      split; [by rewrite len_to_be|]. split; [|by rewrite app_nil_r].
      exists (to_be w n), [], []. unfold to_array. rewrite len_to_be, N.eqb_refl.
      split; [done|]. by rewrite from_be_to_be_small.
Qed.

Lemma exactly_iff {A} (ok ok' : A -> Prop) wire v s :
  (forall x, ok x <-> ok' x) -> exactly ok wire v s <-> exactly ok' wire v s.
Proof. intros Hok. unfold exactly. by rewrite Hok. Qed.

Lemma reads_u16 : reads read_u16 (exactly (fun n => n <= u16_max) u16_wire).
Proof.
  eapply reads_iff; [exact (reads_be 2)|]. intros. apply exactly_iff. intros n.
  unfold u16_max. change (256 ^ N.of_nat 2) with 65536. lia.
Qed.

Lemma reads_u32 : reads read_u32 (exactly (fun n => n <= u32_max) u32_wire).
Proof.
  eapply reads_iff; [exact (reads_be 4)|]. intros. apply exactly_iff. intros n.
  unfold u32_max. change (256 ^ N.of_nat 4) with 4294967296. lia.
Qed.

Lemma reads_u64 : reads read_u64 (exactly (fun n => n <= u64_max) u64_wire).
Proof.
  eapply reads_iff; [exact (reads_be 8)|]. intros. apply exactly_iff. intros n.
  unfold u64_max. change (256 ^ N.of_nat 8) with 18446744073709551616. lia.
Qed.

Lemma reads_array_16 :
  reads read_array_16 (exactly (fun l => len l = 16) id).
Proof.
  eapply reads_iff.
  - apply reads_bind; [apply reads_take|]. intros x s Hx.
    apply reads_lift. destruct Hx as [-> Hs]. unfold to_array. by rewrite Hs.
  - unfold exactly, id. intros n s. split.
    + intros (x & s1 & s2 & [-> Hs] & [Ha ->] & ->). unfold to_array in Ha.
      rewrite Hs in Ha. injection Ha as <-. by rewrite app_nil_r.
    + intros [Hn ->]. exists n, n, []. unfold to_array. rewrite Hn. by rewrite app_nil_r.
Qed.

(** A length-prefixed byte string. *)
Lemma reads_sized (p : reader N) ok wire :
  reads p (exactly ok wire) ->
  reads (length ← p; read_take length)
    (exactly (fun s => ok (len s)) (fun s => wire (len s) ++ s)).
Proof.
  intros Hp. eapply reads_iff; [eapply reads_field; [exact Hp | intros; apply reads_take]|].
  unfold exactly. intros v s. split.
  - intros (x & Hx & s' & [-> <-] & ->). done.
  - intros [Hok ->]. exists (len v). split; [done|]. by exists v.
Qed.

Lemma St_bind_assoc {S E A B C} (m : St S E A) (f : A -> St S E B) (g : B -> St S E C) s :
  (x ← m; y ← f x; g y) s = (y ← (x ← m; f x); g y) s.
Proof. unfold mbind, St_bind. by destruct (m s) as [[]?]. Qed.

Lemma reads_ext {A} (p q : reader A) P : (forall r, p r = q r) -> reads p P -> reads q P.
Proof.
  intros Hpq [Ha Hs Hn]. split; intros *; rewrite <- Hpq; [apply Ha | apply Hs | apply Hn].
Qed.

Lemma reads_text : reads read_text (exactly text_ok text_wire).
Proof.
  apply (reads_ext (slice ← (length ← read_u16; read_take length);
                    lift (map_err (fun _ => CodecError_InvalidUtf8) (from_utf8 slice)))).
  { intros r. symmetry. apply St_bind_assoc. }
  eapply reads_iff.
  - eapply reads_field; [exact (reads_sized _ _ _ reads_u16)|]. intros s _.
    apply reads_lift. unfold from_utf8. by destruct (utf8_valid s).
  - unfold exactly, from_utf8, text_ok. intros v s. split.
    + intros (x & Hx & s' & [Hv ->] & ->). destruct (utf8_valid x) eqn:E; [|done].
      injection Hv as <-. by rewrite app_nil_r.
    + intros [[Hu Hl] ->]. exists v. split; [done|]. exists []. rewrite Hu, app_nil_r. done.
Qed.

Lemma reads_name : reads read_name (exactly name_ok text_wire).
Proof.
  eapply reads_iff.
  - eapply reads_field; [exact reads_text|]. intros s _.
    eapply reads_guard; [apply checks_map_err, validate_name_spec|]. intros. apply reads_ret.
  - unfold exactly. intros v s. split.
    + intros (x & Hx & s' & (Hn & -> & ->) & ->). by rewrite app_nil_r.
    + intros [Hn ->]. exists v. split; [by apply name_text_ok|]. exists [].
      by rewrite app_nil_r.
Qed.

Lemma reads_namespace : reads read_namespace (exactly namespace_ok namespace_wire).
Proof.
  eapply reads_iff.
  - eapply reads_field; [exact reads_text|]. intros s _. apply reads_lift.
    pose proof (Namespace_parse_spec s). by destruct (Namespace_parse s).
  - unfold exactly. intros v s. split.
    + intros (x & Hx & s' & [Hp ->] & ->).
      pose proof (Namespace_parse_spec x) as Hok. destruct (Namespace_parse x) as [n| |] eqn:E; try done.
      apply Namespace_parse_value in E. cbn in Hp. injection Hp as <-. subst n.
      by rewrite app_nil_r.
    + intros [Hn ->]. exists (Namespace_as_str v). split; [by apply namespace_text_ok|].
      exists []. rewrite app_nil_r. split; [|done]. split; [|done].
      pose proof (Namespace_parse_spec (Namespace_as_str v)) as Hok. destruct v as [t]; cbn in *.
      destruct (checks_ok _ _ Hok Hn) as [n En]. rewrite En.
      by rewrite (Namespace_parse_value _ _ En).
Qed.

(** A name wrapped by a constructor that parses it again. *)
Lemma reads_channel :
  reads read_channel (exactly (fun c => name_ok (Channel_as_str c)) (fun c => text_wire (Channel_as_str c))).
Proof.
  eapply reads_iff.
  - eapply reads_field; [exact reads_name|]. intros s Hs. apply reads_lift.
    pose proof (Channel_parse_spec s). by destruct (Channel_parse s).
  - unfold exactly, Channel_parse. intros v s. split.
    + intros (x & Hx & s' & [Hp ->] & ->).
      rewrite (checks_tt _ _ (validate_name_spec x) Hx) in Hp. injection Hp as <-.
      by rewrite app_nil_r.
    + intros [Hn ->]. exists (Channel_as_str v). split; [done|]. exists [].
      rewrite (checks_tt _ _ (validate_name_spec _) Hn), app_nil_r. by destruct v.
Qed.

Lemma reads_client_id :
  reads read_client_id (exactly (fun c => name_ok (ClientId_as_str c)) (fun c => text_wire (ClientId_as_str c))).
Proof.
  eapply reads_iff.
  - eapply reads_field; [exact reads_name|]. intros s Hs. apply reads_lift.
    pose proof (ClientId_parse_spec s). by destruct (ClientId_parse s).
  - unfold exactly, ClientId_parse. intros v s. split.
    + intros (x & Hx & s' & [Hp ->] & ->).
      rewrite (checks_tt _ _ (validate_name_spec x) Hx) in Hp. injection Hp as <-.
      by rewrite app_nil_r.
    + intros [Hn ->]. exists (ClientId_as_str v). split; [done|]. exists [].
      rewrite (checks_tt _ _ (validate_name_spec _) Hn), app_nil_r. by destruct v.
Qed.

Lemma reads_binary : reads read_binary (exactly binary_ok binary_wire).
Proof. exact (reads_sized _ _ _ reads_u32). Qed.

Lemma reads_peer_id : reads read_peer_id (exactly peer_ok peer_wire).
Proof.
  eapply reads_iff.
  - eapply reads_field; [exact reads_u64|]. intros n _.
    apply reads_if_fail; [apply N.eqb_neq|]. intros _. apply reads_ret.
  - unfold exactly, peer_ok, peer_wire. intros v s. split.
    + intros (x & Hx & s' & (Hne & -> & ->) & ->). cbn. rewrite app_nil_r. split; [lia | done].
    + intros [Hv ->]. exists (PeerId_get v). split; [lia|]. exists [].
      rewrite app_nil_r. destruct v; cbn in *. repeat split; lia.
Qed.

(** ** Tagged unions *)

Lemma u8_wire_inj n m : n <= u8_max -> m <= u8_max -> u8_wire n = u8_wire m -> n = m.
Proof.
  unfold u8_max, u8_wire. intros Hn Hm [= Heq]. apply (f_equal byte_val) in Heq.
  rewrite !byte_val_of_small in Heq by lia. done.
Qed.

(** A union whose grammar starts with a one-byte tag: each tag's branch reads
    what the grammar says follows that tag. *)
Lemma reads_tagged {A} (f : N -> reader A) ok (wire : A -> bytes) :
  (forall v, ok v -> exists tag s, tag <= u8_max /\ wire v = u8_wire tag ++ s) ->
  (forall tag, tag <= u8_max ->
    reads (f tag) (fun v s => exactly ok wire v (u8_wire tag ++ s))) ->
  reads (tag ← read_u8; f tag) (exactly ok wire).
Proof.
  intros Htag Hf. eapply reads_iff; [eapply reads_field; [exact reads_u8 | exact Hf]|].
  intros v s. split.
  - by intros (tag & _ & s' & Hv & ->).
  - intros [Hok ->]. destruct (Htag v Hok) as (tag & s & Hle & Hw).
    exists tag. split; [done|]. exists s. split; [|done]. by split.
Qed.

Lemma u8_wire_app n m s t :
  n <= u8_max -> m <= u8_max -> u8_wire n ++ s = u8_wire m ++ t <-> n = m /\ s = t.
Proof.
  intros Hn Hm. split; [|by intros [-> ->]].
  intros Heq. apply app_inj_1 in Heq as [Hw Hs]; [|done]. split; [|done]. by apply u8_wire_inj.
Qed.

Ltac u8_small := first [assumption | clear; unfold u8_max; lia].

(** Splits a [match tag with 0 => .. | 1 => .. | _ => .. end]. *)
Ltac split_tag tag :=
  repeat match goal with
  | |- context [match ?x with _ => _ end] => is_var x; destruct x
  end.

(** Solves what is left of a branch once the grammar is compared with the tag. *)
Ltac by_tag :=
  unfold exactly; rewrite ?u8_wire_app by (unfold u8_max in *; lia);
  rewrite ?app_nil_r; intuition (try congruence; try lia; eauto).

(** A branch that rejects its tag: no value has it. *)
Ltac bad_tag :=
  eapply reads_iff; [apply reads_fail|];
  let v := fresh "v" in let s := fresh "s" in let Hw := fresh "Hw" in
  intros v s; split; [done|]; intros [_ Hw];
  destruct v; cbn -[u8_wire] in Hw;
  repeat match type of Hw with
  | context [if ?b then _ else _] => destruct b
  | _ = u8_wire ?n => rewrite <- (app_nil_r (u8_wire n)) in Hw
  end;
  (apply u8_wire_app in Hw as [? _]; [discriminate | u8_small..]).

(** One field wrapped in a constructor. *)
Lemma reads_wrap {A B} (p : reader A) (C : A -> B) ok wire :
  reads p (exactly ok wire) ->
  reads (x ← p; mret (C x)) (fun v s => exists x, v = C x /\ exactly ok wire x s).
Proof.
  intros Hp. eapply reads_iff; [eapply reads_field; [exact Hp | intros; apply reads_ret]|].
  unfold exactly. intros v s. split.
  - intros (x & Hx & s' & [-> ->] & ->). exists x. by rewrite app_nil_r.
  - intros (x & -> & Hx & ->). exists x. split; [done|]. exists []. by rewrite app_nil_r.
Qed.

(** The branch of a tag whose values are [C x]. *)
Ltac good_tag :=
  let v := fresh "v" in let s := fresh "s" in
  intros v s; split;
  [ intros (? & -> & ? & ->); split; [assumption | reflexivity]
  | intros [Hv Hw]; destruct v; cbn -[u8_wire] in Hv, Hw;
    repeat match type of Hw with
    | _ = u8_wire ?n => rewrite <- (app_nil_r (u8_wire n)) in Hw
    end;
    (apply u8_wire_app in Hw as [? ->]; [| u8_small..]);
    first [discriminate | eexists; split; [reflexivity | split; [eassumption | reflexivity]]] ].

(** A branch without fields. *)
Ltac empty_tag :=
  eapply reads_iff; [apply reads_ret|];
  let v := fresh "v" in let s := fresh "s" in
  intros v s; split;
  [ intros [-> ->]; by split
  | intros [Hv Hw]; destruct v; cbn -[u8_wire] in Hv, Hw;
    repeat match type of Hw with
    | _ = u8_wire ?n => rewrite <- (app_nil_r (u8_wire n)) in Hw
    end;
    (apply u8_wire_app in Hw as [? ->]; [| u8_small..]);
    first [discriminate | done] ].

Ltac has_tag :=
  intros [] ?; do 2 eexists;
  (split; [| first [reflexivity | rewrite app_nil_r; reflexivity]]); unfold u8_max; lia.

Definition boolean_wire (b : bool) : bytes := u8_wire (if b then 1 else 0).

Lemma reads_boolean :
  reads (boolean ← read_u8;
         match boolean with
         | 0 => mret (HeaderValue_Boolean false)
         | 1 => mret (HeaderValue_Boolean true)
         | _ => fail (CodecError_InvalidValue "boolean")
         end)
    (fun v s => exists b, v = HeaderValue_Boolean b /\ exactly (fun _ => True) boolean_wire b s).
Proof.
  eapply reads_iff.
  - eapply reads_field; [exact reads_u8|]. intros n _.
    instantiate (1 := fun n v s => exists b, n = (if b : bool then 1 else 0) /\
                                  v = HeaderValue_Boolean b /\ s = []).
    split_tag n; (eapply reads_iff; [apply reads_fail || apply reads_ret|]); cbn;
      intros v s; split; try done; try (by intros ([] & ? & _)).
    + intros [-> ->]. by exists false.
    + by intros ([] & ? & -> & ->).
    + intros [-> ->]. by exists true.
    + by intros ([] & ? & -> & ->).
  - unfold exactly, boolean_wire. intros v s. split.
    + intros (n & _ & s' & (b & -> & -> & ->) & ->). exists b. by rewrite app_nil_r.
    + intros (b & -> & _ & ->). exists (if b then 1 else 0).
      split; [destruct b; unfold u8_max; lia|]. exists []. rewrite app_nil_r.
      split; [by exists b | done].
Qed.

Lemma reads_value : reads read_value (exactly value_ok value_wire).
Proof.
  apply reads_tagged; [has_tag|].
  intros tag Htag. split_tag tag; try solve [bad_tag].
  - eapply reads_iff; [apply reads_wrap, reads_text | good_tag].
  - eapply reads_iff; [apply reads_wrap, reads_binary | good_tag].
  - eapply reads_iff; [apply reads_boolean | good_tag].
  - eapply reads_iff; [apply reads_wrap, reads_u64 | good_tag].
Qed.

(** One field, checked and wrapped. *)
Lemma reads_wrap_if {A B} (p : reader A) (C : A -> B) e b ok ok' wire :
  reads p (exactly ok wire) -> (forall x, ok' x <-> ok x /\ b x = false) ->
  reads (x ← p; if b x then fail e else mret (C x))
    (fun v s => exists x, v = C x /\ exactly ok' wire x s).
Proof.
  intros Hp Hok'. eapply reads_iff.
  - eapply reads_field; [exact Hp|]. intros x _.
    apply reads_if_fail; [reflexivity|]. intros _. apply reads_ret.
  - unfold exactly. intros v s. split.
    + intros (x & Hx & s' & (Hb & -> & ->) & ->). exists x. rewrite Hok', app_nil_r. done.
    + intros (x & -> & [Hx Hb]%Hok' & ->). exists x. split; [done|].
      exists []. by rewrite app_nil_r.
Qed.

Lemma reads_ack_requirement :
  reads read_ack_requirement (exactly ack_requirement_ok ack_requirement_wire).
Proof.
  apply reads_tagged; [has_tag|].
  intros tag Htag. split_tag tag; try solve [bad_tag | empty_tag].
  eapply reads_iff; [eapply reads_wrap_if with (ok' := fun n => 1 <= n <= u16_max);
                     [apply reads_u16 | intros n; rewrite N.eqb_neq; lia] | good_tag].
Qed.

Lemma reads_retry_policy : reads read_retry_policy (exactly retry_ok retry_wire).
Proof.
  apply reads_tagged; [has_tag|].
  intros tag Htag. split_tag tag; try solve [bad_tag | empty_tag].
  eapply reads_iff.
  - eapply reads_field; [apply reads_u32|]. intros b Hb.
    apply (reads_wrap_if read_u8 (RetryPolicy_Exponential b) _ (fun n => (b =? 0) || (n <? 2)) _
             (fun n => 1 <= b /\ 2 <= n <= u8_max) _ reads_u8).
    intros n. rewrite orb_false_iff, N.eqb_neq, N.ltb_ge. lia.
  - unfold exactly. intros v s. split.
    + intros (b & Hb & s' & (n & -> & (? & ?) & ->) & ->). by cbn.
    + intros [Hv Hw]. destruct v as [|b n]; cbn -[u8_wire] in Hv, Hw.
      * rewrite <- (app_nil_r (u8_wire 0)) in Hw.
        apply u8_wire_app in Hw as [? _]; [done | u8_small..].
      * apply u8_wire_app in Hw as [_ ->]; [|u8_small..].
        exists b. split; [tauto|]. exists (u8_wire n). split; [|done].
        exists n. by split; [|tauto].
Qed.

(** A tag decoder inverts the tag function and rejects every other byte. *)
Definition decodes {A} (dec : N -> result CodecError A) (tag : A -> N) : Prop :=
  (forall a, tag a <= u8_max) /\
  forall n, match dec n with
    | Ok a => forall b, tag b = n <-> b = a
    | Err _ => forall a, tag a <> n
    | Panic => False
    end.

Ltac tag_decoder :=
  split; [by intros [] | intros n; unfold_tag_decoder; split_tag n; cbn; try (by intros []); intros []; split; congruence]
with unfold_tag_decoder :=
  match goal with |- match ?d _ with _ => _ end => unfold d end.

Lemma decodes_message_kind : decodes decode_message_kind message_kind_tag.
Proof. tag_decoder. Qed.
Lemma decodes_ack_policy : decodes decode_ack_policy ack_policy_tag.
Proof. tag_decoder. Qed.
Lemma decodes_request_policy : decodes decode_request_policy request_policy_tag.
Proof. tag_decoder. Qed.
Lemma decodes_delivery_outcome : decodes decode_delivery_outcome delivery_outcome_tag.
Proof. tag_decoder. Qed.
Lemma decodes_status : decodes decode_status status_tag.
Proof. tag_decoder. Qed.
Lemma decodes_protocol_error_code : decodes decode_protocol_error_code protocol_error_code_tag.
Proof. tag_decoder. Qed.
Lemma decodes_client_selection : decodes decode_client_selection client_selection_tag.
Proof. tag_decoder. Qed.
Lemma decodes_control_operation : decodes decode_control_operation control_operation_tag.
Proof. tag_decoder. Qed.

(** [decode_x(reader.u8()?)?] followed by the rest of the body. *)
Lemma reads_tag {A B} (dec : N -> result CodecError A) (tag : A -> N) (f : A -> reader B) Q :
  decodes dec tag -> (forall a, reads (f a) (Q a)) ->
  reads (t ← read_u8; a ← lift (dec t); f a)
    (fun v s => exists a, True /\ exists s', Q a v s' /\ s = u8_wire (tag a) ++ s').
Proof.
  intros [Hle Hdec] Hf. eapply reads_iff.
  - eapply reads_field; [apply reads_u8|]. intros n _. eapply reads_bind.
    + apply reads_lift. specialize (Hdec n). by destruct (dec n).
    + intros a s _. apply Hf.
  - intros v s. split.
    + intros (n & _ & s' & (a & s1 & s2 & [Ha ->] & HQ & ->) & ->).
      specialize (Hdec n). rewrite Ha in Hdec. assert (tag a = n) as <- by by apply Hdec.
      eauto.
    + intros (a & _ & s' & HQ & ->). exists (tag a). split; [done|].
      exists s'. split; [|done]. exists a, [], s'. split; [|done]. split; [|done].
      specialize (Hdec (tag a)).
      destruct (dec (tag a)) as [a'| |] eqn:E; [|by destruct (Hdec a)|done].
      f_equal. symmetry. by apply Hdec.
Qed.

Lemma reads_destination : reads read_destination (exactly destination_ok destination_wire).
Proof.
  apply reads_tagged; [has_tag|].
  intros tag Htag. split_tag tag; try solve [bad_tag | empty_tag].
  - eapply reads_iff.
    + eapply reads_field; [apply reads_client_id|]. intros c _.
      eapply reads_tag; [apply decodes_client_selection | intros; apply reads_ret].
    + unfold exactly. intros v s. split.
      * intros (c & Hc & s' & (sel & _ & s2 & [-> ->] & ->) & ->). by rewrite app_nil_r.
      * intros [Hv Hw]. destruct v as [| | | |c sel|]; cbn -[u8_wire] in Hv, Hw;
          try rewrite <- (app_nil_r (u8_wire _)) in Hw;
          (apply u8_wire_app in Hw as [? ->]; [|u8_small..]); try discriminate.
        exists c. split; [done|]. exists (u8_wire (client_selection_tag sel)).
        split; [|done]. exists sel. split; [done|]. exists []. by rewrite app_nil_r.
  - eapply reads_iff; [apply reads_wrap, reads_channel | good_tag].
  - eapply reads_iff; [apply reads_wrap, reads_namespace | good_tag].
  - eapply reads_iff; [apply reads_wrap, reads_peer_id | good_tag].
Qed.

(** ** Ordered collections *)

Lemma out_of_order_iff previous item :
  out_of_order previous item = false <-> forall p, previous = Some p -> ord_lt p item.
Proof.
  destruct previous as [p|]; cbn; [|by split].
  rewrite ord_not_le. split; [by intros ? ? [= <-] | auto].
Qed.

(** What a loop accepts after [previous]: strictly increasing items. *)
Definition ascending (previous : option bytes) (l : list bytes) : Prop :=
  StronglySorted ord_lt l /\ Forall (fun x => forall p, previous = Some p -> ord_lt p x) l.

Lemma ascending_nil previous : ascending previous [].
Proof. by split; constructor. Qed.

Lemma ascending_cons previous x l :
  ascending previous (x :: l) <->
  (forall p, previous = Some p -> ord_lt p x) /\ ascending (Some x) l.
Proof.
  unfold ascending. split.
  - intros [[Hl Hx]%StronglySorted_inv [Hp _]%Forall_cons].
    repeat split; [done..|]. eapply Forall_impl; [exact Hx|]. by intros y Hy p [= <-].
  - intros [Hp [Hl Hx]]. split.
    + constructor; [done|]. eapply Forall_impl; [exact Hx|]. cbn. auto.
    + constructor; [done|]. eapply Forall_impl; [exact Hx|]. cbn.
      intros y Hy p Heq. transitivity x; auto.
Qed.

Lemma ascending_none l : ascending None l <-> StronglySorted ord_lt l.
Proof. unfold ascending. split; [by intros []|]. intros. split; [done|]. by apply Forall_true. Qed.

Lemma concat_wire_cons {A} (wire : A -> bytes) x l :
  concat (wire <$> x :: l) = wire x ++ concat (wire <$> l).
Proof. done. Qed.

(** Insertion into a map or set, item by item. *)
Definition insert_all (h : Headers) (l : list (bytes * HeaderValue)) : Headers :=
  foldl (fun h e => <[e.1 := e.2]> h) h l.

Lemma reads_headers_loop n h previous :
  reads (read_headers_loop n h previous)
    (fun v s => exists l, length l = n /\ Forall entry_ok l /\ ascending previous l.*1 /\
                v = insert_all h l /\ s = concat (entry_wire <$> l)).
Proof.
  revert h previous. induction n as [|n IH]; intros h previous; cbn [read_headers_loop].
  - eapply reads_iff; [apply reads_ret|]. intros v s. split.
    + intros [-> ->]. exists []. split; [done|]. split; [constructor|].
      split; [apply ascending_nil | done].
    + by intros ([|] & ? & _ & _ & -> & ->).
  - eapply reads_iff.
    + eapply reads_field; [apply reads_name|]. intros name Hn.
      apply reads_if_fail; [apply out_of_order_iff|]. intros _.
      eapply reads_field; [apply reads_value|]. intros value Hv. apply IH.
    + intros v s. split.
      * intros (name & Hn & s1 & (Ho & value & Hv & s2 & (l & <- & Hl & Ha & -> & ->) & ->) & ->).
        exists ((name, value) :: l). split; [done|]. split; [by constructor|].
        split; [by apply ascending_cons|]. split; [done|].
        unfold entry_wire at 2. by rewrite concat_wire_cons, <- app_assoc.
      * intros ([|[name value] l] & Hlen & Hl & Ha & -> & ->); [done|].
        apply Forall_cons in Hl as [[Hn Hv] Hl]. apply ascending_cons in Ha as [Ho Ha].
        injection Hlen as Hlen. exists name. split; [done|].
        exists (value_wire value ++ concat (entry_wire <$> l)).
        split; [|unfold entry_wire at 1; by rewrite concat_wire_cons, <- app_assoc]. split; [done|].
        exists value. split; [done|]. exists (concat (entry_wire <$> l)). split; [|done].
        by exists l.
Qed.

Lemma sorted_entries (l : list (bytes * HeaderValue)) :
  StronglySorted ord_lt l.*1 <-> StronglySorted key_lt l.
Proof.
  split.
  - induction l as [|e l IH]; [constructor|]. cbn. intros [Hl He]%StronglySorted_inv.
    constructor; [by apply IH|]. by rewrite Forall_fmap in He.
  - induction 1 as [|e l Hl IH He]; cbn; constructor; [done|]. by rewrite Forall_fmap.
Qed.

Lemma insert_all_sorted l :
  StronglySorted ord_lt l.*1 -> bt_entries (insert_all ∅ l) = l.
Proof.
  intros Hl. assert (insert_all ∅ l = list_to_map (reverse l)) as ->.
  { clear. unfold insert_all. induction l as [|e l IH] using rev_ind; [done|].
    rewrite foldl_app, reverse_snoc. cbn. by rewrite IH. }
  rewrite <- (list_to_map_proper l (reverse l)).
  - by apply bt_entries_list_to_map, sorted_entries.
  - by apply sorted_nodup.
  - symmetry. apply reverse_Permutation.
Qed.

Lemma insert_all_entries h : insert_all ∅ (bt_entries h) = h.
Proof.
  rewrite <- (list_to_map_bt_entries (insert_all _ _)), insert_all_sorted.
  - apply list_to_map_bt_entries.
  - apply bt_keys_sorted.
Qed.

Lemma reads_headers limits :
  reads (read_headers limits) (exactly (headers_ok limits) headers_wire).
Proof.
  eapply reads_iff.
  - eapply reads_field; [apply reads_u16|]. intros n _.
    apply reads_if_fail; [apply N.ltb_ge|]. intros _. apply reads_headers_loop.
  - unfold exactly, headers_ok, headers_wire. intros h s. split.
    + intros (n & Hn & s' & (Hm & l & Hlen & Hl & Ha%ascending_none & -> & ->) & ->).
      assert (bt_entries (insert_all ∅ l) = l) as He by by apply insert_all_sorted.
      assert (bt_len (insert_all ∅ l) = n) as Hbl.
      { rewrite <- length_bt_entries, He. unfold len. rewrite Hlen. apply N2Nat.id. }
      by rewrite He, Hbl.
    + intros [(Hm & Hn & Hl) ->]. exists (bt_len h). split; [done|].
      exists (concat (entry_wire <$> bt_entries h)). split; [|done]. split; [done|].
      exists (bt_entries h). rewrite <- length_bt_entries. unfold len. rewrite Nat2N.id.
      rewrite ascending_none, insert_all_entries. repeat split; [done|apply bt_keys_sorted].
Qed.

Definition add_all (c : Capabilities) (l : list bytes) : Capabilities :=
  foldl (fun c x => {[x]} ∪ c) c l.

Lemma add_all_to_set c l : add_all c l = list_to_set l ∪ c.
Proof.
  revert c. unfold add_all. induction l as [|x l IH]; intros c; cbn; [|rewrite IH]; set_solver.
Qed.

Lemma reads_capabilities_loop n c previous :
  reads (read_capabilities_loop n c previous)
    (fun v s => exists l, length l = n /\ Forall name_ok l /\ ascending previous l /\
                v = add_all c l /\ s = concat (text_wire <$> l)).
Proof.
  revert c previous. induction n as [|n IH]; intros c previous; cbn [read_capabilities_loop].
  - eapply reads_iff; [apply reads_ret|]. intros v s. split.
    + intros [-> ->]. exists []. split; [done|]. split; [constructor|].
      split; [apply ascending_nil | done].
    + by intros ([|] & ? & _ & _ & -> & ->).
  - eapply reads_iff.
    + eapply reads_field; [apply reads_name|]. intros name Hn.
      apply reads_if_fail; [apply out_of_order_iff|]. intros _. apply IH.
    + intros v s. split.
      * intros (name & Hn & s1 & (Ho & l & <- & Hl & Ha & -> & ->) & ->).
        exists (name :: l). split; [done|]. split; [by constructor|].
        split; [by apply ascending_cons|]. done.
      * intros ([|name l] & Hlen & Hl & Ha & -> & ->); [done|].
        apply Forall_cons in Hl as [Hn Hl]. apply ascending_cons in Ha as [Ho Ha].
        injection Hlen as Hlen. exists name. split; [done|].
        exists (concat (text_wire <$> l)). split; [|done]. split; [done|].
        by exists l.
Qed.

Lemma reads_capabilities limits :
  reads (read_capabilities limits) (exactly (capabilities_ok limits) capabilities_wire).
Proof.
  eapply reads_iff.
  - eapply reads_field; [apply reads_u16|]. intros n _.
    apply reads_if_fail; [apply N.ltb_ge|]. intros _. apply reads_capabilities_loop.
  - unfold exactly, capabilities_ok, capabilities_wire. intros c s. split.
    + intros (n & Hn & s' & (Hm & l & Hlen & Hl & Ha%ascending_none & -> & ->) & ->).
      rewrite add_all_to_set, (right_id_L ∅ (∪)), bs_elems_list_to_set by done.
      rewrite <- length_bs_elems, bs_elems_list_to_set by done.
      unfold len. rewrite Hlen, N2Nat.id. done.
    + intros [(Hm & Hn & Hl) ->]. exists (bs_len c). split; [done|].
      exists (concat (text_wire <$> bs_elems c)). split; [|done]. split; [done|].
      exists (bs_elems c). rewrite <- length_bs_elems. unfold len. rewrite Nat2N.id.
      rewrite ascending_none, add_all_to_set, list_to_set_bs_elems, (right_id_L ∅ (∪)).
      repeat split; [done|apply bs_elems_sorted].
Qed.
