(* ===== verification/Decoding.v ===== *)
(** * The decoder refines the grammar

    Filters, the twelve frame bodies and the packet header, ending with
    [decode_refines]: the decoder accepts exactly the packets of [WireSpec.v],
    with the frame they stand for, and never panics. *)

From S2P Require Export Readers.

Local Open Scope N_scope.

(** ** Filters *)

Definition filter_tag (f : HeaderFilter) : N :=
  match f with
  | HeaderFilter_Exists _ => 0
  | HeaderFilter_NotExists _ => 1
  | HeaderFilter_Equal _ _ => 2
  | HeaderFilter_NotEqual _ _ => 3
  | HeaderFilter_Prefix _ _ => 4
  end.

Lemma text_wire_app a b s t :
  text_ok a -> text_ok b -> text_wire a ++ s = text_wire b ++ t -> a = b /\ s = t.
Proof.
  unfold text_ok, text_wire, u16_max, u16_wire. intros [_ Ha] [_ Hb] Heq.
  rewrite <- !app_assoc in Heq.
  apply app_inj_1 in Heq as [Hl Heq]; [|by rewrite !length_to_be].
  apply (f_equal from_be) in Hl.
  rewrite !from_be_to_be_small in Hl by (change (256 ^ N.of_nat 2) with 65536; lia).
  apply app_inj_1 in Heq; [done|]. unfold len in Hl. lia.
Qed.

(** The part of a filter's branch after its tag and its name. *)
Definition filter_tail (tag : N) (name : bytes) (f : HeaderFilter) (s : bytes) : Prop :=
  exactly filter_ok filter_wire f (u8_wire tag ++ text_wire name ++ s).

Lemma reads_filter_value tag name (C : HeaderValue -> HeaderFilter) :
  (forall f s, (exists v, f = C v /\ exactly value_ok value_wire v s) <-> filter_tail tag name f s) ->
  reads (value ← read_value; mret (C value)) (filter_tail tag name).
Proof.
  intros Htail. eapply reads_iff; [apply reads_wrap, reads_value|].
  exact Htail.
Qed.

(** Compares the tag and the name of a filter with the ones read. *)
Ltac compare_filter :=
  let f := fresh "f" in let s := fresh "s" in
  intros f s; unfold filter_tail; split;
  [ | intros [Hok Hw]; destruct f; cbn -[u8_wire text_wire] in Hok, Hw;
      try match type of Hw with
      | _ = u8_wire _ ++ text_wire ?n => rewrite <- (app_nil_r (text_wire n)) in Hw
      end;
      (apply u8_wire_app in Hw as [? Hw]; [|u8_small..]); try discriminate;
      (apply text_wire_app in Hw as [-> ->]; [|by apply name_text_ok..|apply name_text_ok; tauto]) ].

Lemma reads_filter : reads read_filter (exactly filter_ok filter_wire).
Proof.
  apply reads_tagged; [has_tag|]. intros tag Htag.
  apply (reads_iff _ (fun f s => exists name, name_ok name /\ exists s',
           filter_tail tag name f s' /\ s = text_wire name ++ s')).
  - eapply reads_field; [apply reads_name|]. intros name Hn.
    split_tag tag.
    all: try solve [bad_tag].
    1, 5: eapply reads_iff; [apply reads_ret|]; compare_filter; [intros [-> ->] | done];
      split; [done|]; by rewrite app_nil_r.
    all: apply (reads_filter_value _ _ (fun v => _ name v)); compare_filter;
      [intros (v & -> & Hv & ->); by split | eexists; split; [done | split; [tauto | done]]].
  - intros f s. split.
    + by intros (name & _ & s' & Hf & ->).
    + intros Hf. assert (exists name s', name_ok name /\ s = text_wire name ++ s') as (name & s' & Hn & ->).
      { destruct Hf as [Hok Hw]. destruct f; cbn -[u8_wire text_wire] in Hok, Hw;
          (apply u8_wire_app in Hw as [? ->]; [|u8_small..]);
          eexists _, _; (split; [|reflexivity || by rewrite app_nil_r]); tauto. }
      eauto.
Qed.

(** The body of the filter loop: reads one field and captures its bytes. *)
Lemma reads_captured {A B} (p : reader A) (f : A -> bytes -> reader B) ok wire Q :
  reads p (exactly ok wire) -> (forall x, ok x -> reads (f x (wire x)) (Q x)) ->
  reads (start ← get_state; x ← p; now ← get_state;
         encoded ← lift (slice_index (r_bytes now) (r_position start) (r_position now));
         f x encoded)
    (fun v s => exists x, ok x /\ exists s', Q x v s' /\ s = wire x ++ s').
Proof.
  intros Hp Hf.
  assert (forall r x k, wf_reader r -> rest r = wire x ++ k ->
            slice_index (r_bytes r) (r_position r) (r_position r + len (wire x)) = Ok (wire x)) as Hs.
  { intros r x k Hwf Hr. unfold slice_index. by rewrite (slice_skip r (wire x) k). }
  split; unfold mbind, St_bind, get_state, lift; cbn.
  - intros r v s k Hwf Hr (x & Hx & s' & HQ & ->). rewrite <- app_assoc in Hr.
    rewrite (reads_accept _ _ Hp r x (wire x) (s' ++ k)) by done. cbn.
    rewrite (Hs r x (s' ++ k)) by done.
    rewrite (reads_accept _ _ (Hf x Hx) _ v s' k); [|by eapply wf_skip|by apply rest_skip|done].
    by rewrite skip_skip, len_app.
  - intros r v r' Hwf. destruct (p r) as [[x| |] r1] eqn:E; [|done|done].
    destruct (reads_sound _ _ Hp r x r1 Hwf E) as (s1 & k1 & Hr1 & [Hx ->] & ->). cbn.
    rewrite (Hs r x k1) by done. intros Hv.
    destruct (reads_sound _ _ (Hf x Hx) _ v r' (wf_skip r _ k1 Hwf Hr1) Hv)
      as (s2 & k2 & Hr2 & HQ & ->).
    rewrite (rest_skip r _ k1 Hr1) in Hr2. subst k1.
    exists (wire x ++ s2), k2. rewrite <- app_assoc, len_app, skip_skip. split; [done|].
    split; [|done]. exists x. split; [done|]. by exists s2.
  - intros r Hwf. pose proof (reads_no_panic _ _ Hp r Hwf) as Hn.
    destruct (p r) as [[x| |] r1] eqn:E; [|done|done].
    destruct (reads_sound _ _ Hp r x r1 Hwf E) as (s1 & k1 & Hr1 & [Hx ->] & ->). cbn.
    rewrite (Hs r x k1) by done. apply (reads_no_panic _ _ (Hf x Hx)). by eapply wf_skip.
Qed.

Lemma reads_filters_loop n acc previous :
  reads (read_filters_loop n acc previous)
    (fun v s => exists l, length l = n /\ Forall filter_ok l /\
                ascending previous (filter_wire <$> l) /\
                v = acc ++ l /\ s = concat (filter_wire <$> l)).
Proof.
  revert acc previous. induction n as [|n IH]; intros acc previous; cbn [read_filters_loop].
  - eapply reads_iff; [apply reads_ret|]. intros v s. split.
    + intros [-> ->]. exists []. rewrite app_nil_r. split; [done|]. split; [constructor|].
      split; [apply ascending_nil | done].
    + intros ([|] & ? & _ & _ & -> & ->); [by rewrite app_nil_r | done].
  - eapply reads_iff.
    + eapply (reads_captured _ (fun f encoded => _)); [apply reads_filter|]. intros f Hf.
      apply reads_if_fail; [apply out_of_order_iff|]. intros _. apply IH.
    + intros v s. split.
      * intros (f & Hf & s1 & (Ho & l & <- & Hl & Ha & -> & ->) & ->).
        exists (f :: l). rewrite <- app_assoc. split; [done|]. split; [by constructor|].
        split; [by apply ascending_cons | done].
      * intros ([|f l] & Hlen & Hl & Ha & -> & ->); [done|].
        apply Forall_cons in Hl as [Hf Hl]. apply ascending_cons in Ha as [Ho Ha].
        injection Hlen as Hlen. exists f. split; [done|].
        exists (concat (filter_wire <$> l)). split; [|done]. split; [done|].
        exists l. by rewrite <- app_assoc.
Qed.

Lemma reads_filters limits :
  reads (read_filters limits) (exactly (filters_ok limits) filters_wire).
Proof.
  eapply reads_iff.
  - eapply reads_field; [apply reads_u16|]. intros n _.
    apply reads_if_fail; [apply N.ltb_ge|]. intros _. apply reads_filters_loop.
  - unfold exactly, filters_ok, filters_wire. intros fs s. split.
    + intros (n & Hn & s' & (Hm & l & Hlen & Hl & Ha%ascending_none & -> & ->) & ->).
      cbn [app]. unfold len. rewrite Hlen, N2Nat.id. done.
    + intros [(Hm & Hn & Hl & Hs) ->]. exists (len fs). split; [done|].
      exists (concat (filter_wire <$> fs)). split; [|done]. split; [done|].
      exists fs. unfold len. rewrite Nat2N.id, ascending_none. done.
Qed.

(** ** Frame bodies *)

(** What a body reads is the grammar of the frames of its kind. *)
Definition body_of (limits : FrameLimits) (kind : N) (f : Frame) (s : bytes) : Prop :=
  frame_kind f = kind /\ exactly (body_ok limits) body_wire f s.

Ltac field H := eapply reads_field; [apply H|].
Ltac tagged H := eapply reads_tag; [apply H|].

Lemma reads_hello limits : reads (decode_hello limits) (body_of limits 1).
Proof.
  eapply reads_iff.
  - field reads_u8. intros marker Hm.
    apply reads_bind with (P := fun id s => match id with
      | None => marker = 0 /\ s = []
      | Some i => marker = 1 /\ name_ok (ClientId_as_str i) /\ s = text_wire (ClientId_as_str i)
      end).
    + split_tag marker; (eapply reads_iff;
        [apply reads_fail || apply reads_ret || apply reads_wrap, reads_client_id|]);
        unfold exactly; intros [i|] s; try (intuition congruence).
      * split; [by intros (x & [= <-] & ?)|]. intros (_ & ? & ?). by exists i.
      * split; [by intros (x & ? & ?)|]. by intros [? _].
    + intros id s _. field reads_headers. intros h Hh. field reads_capabilities.
      intros c Hc. apply reads_ret.
  - unfold body_of, exactly. intros f s. split.
    + intros (m & _ & s' & (id & s1 & s2 & Hid & (h & Hh & s3 & (c & Hc & s4 & [-> ->] & ->) & ->) & ->) & ->).
      rewrite app_nil_r. destruct id as [i|].
      * destruct Hid as (-> & Hi & ->). cbn -[u8_wire text_wire]. by rewrite <- app_assoc.
      * destruct Hid as (-> & ->). done.
    + intros [Hk [Hok ->]]. destruct f as [id h c| | | | | | | | | | |]; try done.
      destruct Hok as (Hi & Hh & Hc). exists (match id with Some _ => 1 | None => 0 end).
      split; [destruct id; unfold u8_max; lia|].
      exists (match id with Some i => text_wire (ClientId_as_str i) | None => [] end
              ++ headers_wire h ++ capabilities_wire c).
      split; [|destruct id; cbn -[u8_wire text_wire]; by rewrite <- ?app_assoc].
      exists id, (match id with Some i => text_wire (ClientId_as_str i) | None => [] end), (headers_wire h ++ capabilities_wire c).
      split; [by destruct id|]. split; [|done].
      exists h. split; [done|]. exists (capabilities_wire c). split; [|done].
      exists c. split; [done|]. exists []. by rewrite app_nil_r.
Qed.

(** Rebuilds the existential chain of a body from the frame it stands for;
    leaves the side conditions and the equation of the whole body. *)
Ltac provide :=
  lazymatch goal with
  | |- exists _, _ => eexists; provide
  | |- _ /\ _ = _ => split; [provide | try reflexivity]
  | |- _ /\ _ => split; [| provide]
  | |- _ = _ => reflexivity
  | |- _ => idtac
  end.

Ltac take_apart :=
  repeat match goal with
  | H : exists _, _ |- _ => destruct H
  | H : _ /\ _ |- _ => destruct H
  end.

(** The specification composed from the fields is [body_of]. *)
Ltac body_iff :=
  unfold body_of, exactly; let f := fresh "f" in let s := fresh "s" in
  intros f s; split;
  [ intros Hs; take_apart; subst; cbn -[u8_wire text_wire]; unfold id; rewrite ?app_nil_r;
    rewrite <- ?app_assoc; tauto
  | intros [Hk [Hok ->]]; destruct f; try discriminate Hk; cbn -[u8_wire text_wire] in Hok;
    provide; try tauto;
    cbn -[u8_wire text_wire]; unfold id; rewrite ?app_nil_r, <- ?app_assoc; reflexivity ].

Lemma reads_welcome limits : reads (decode_welcome limits) (body_of limits 2).
Proof.
  eapply reads_iff; [field reads_peer_id; intros p Hp; field reads_capabilities;
                     intros c Hc; apply reads_ret|].
  body_iff.
Qed.

Lemma reads_claim limits : reads (decode_claim limits) (body_of limits 3).
Proof.
  eapply reads_iff; [field reads_namespace; intros n Hn; field reads_headers;
                     intros h Hh; apply reads_ret|].
  body_iff.
Qed.

Lemma reads_subscribe limits : reads (decode_subscribe limits) (body_of limits 4).
Proof.
  eapply reads_iff; [field reads_channel; intros c Hc; field reads_filters;
                     intros fs Hfs; apply reads_ret|].
  body_iff.
Qed.

Lemma reads_unsubscribe limits : reads decode_unsubscribe (body_of limits 5).
Proof.
  eapply reads_iff; [field reads_channel; intros c Hc; apply reads_ret|]. body_iff.
Qed.

Lemma reads_protocol_error limits : reads decode_protocol_error (body_of limits 7).
Proof.
  eapply reads_iff; [tagged decodes_protocol_error_code; intros c; field reads_text;
                     intros t Ht; apply reads_ret|].
  body_iff.
Qed.

Lemma reads_control_result limits : reads decode_control_result (body_of limits 8).
Proof.
  eapply reads_iff; [tagged decodes_control_operation; intros o; apply reads_ret|].
  body_iff.
Qed.

Lemma reads_resolve_namespace limits : reads decode_resolve_namespace (body_of limits 9).
Proof.
  eapply reads_iff; [field reads_namespace; intros n Hn; apply reads_ret|]. body_iff.
Qed.

Lemma reads_message limits : reads (decode_message limits) (body_of limits 6).
Proof.
  eapply reads_iff.
  - tagged decodes_message_kind. intros kind. tagged decodes_ack_policy. intros ap.
    field reads_ack_requirement. intros ar Har. tagged decodes_request_policy. intros rp.
    field reads_u32. intros d Hd. field reads_retry_policy. intros r Hr.
    field reads_destination. intros dst Hdst. field reads_array_16. intros mid Hmid.
    field reads_array_16. intros cid Hcid. tagged decodes_status. intros st.
    eapply reads_guard; [apply validate_delivery_options_spec|]. intros _ _ _.
    eapply reads_guard; [apply validate_message_identity_spec|]. intros _ _ _.
    field reads_headers. intros h Hh. field reads_binary. intros p Hp. apply reads_ret.
  - unfold body_of, exactly; intros f s; split.
    + intros Hs. take_apart; subst.
      unfold id. rewrite app_nil_r. split; [done|]. split; [|done].
      unfold body_ok, message_ok, id_ok; cbn -[u8_wire]. tauto.
    + intros [Hk [Hok ->]]. destruct f as [| | | | |m| | | | | |]; try discriminate Hk.
      cbn [body_ok] in Hok. destruct m as [kind ap ar rp d r dst [mid] [cid] st h p].
      unfold message_ok, id_ok in Hok; cbn -[u8_wire] in Hok.
      provide; try tauto; unfold id; by rewrite app_nil_r.
Qed.

Lemma reads_acknowledge limits : reads decode_acknowledge (body_of limits 11).
Proof.
  eapply reads_iff.
  - field reads_array_16. intros i Hi. tagged decodes_ack_policy. intros p.
    apply reads_if_fail with (C := MessageId_new i <> MessageId_absent /\ waits p).
    + rewrite orb_false_iff, negb_false_iff, waits_iff.
      pose proof (absent_iff (MessageId_new i)). destruct (MessageId_is_absent _); intuition congruence.
    + intros _. apply reads_ret.
  - unfold body_of, exactly; intros f s; split.
    + intros Hs. take_apart; subst. unfold id. cbn -[u8_wire]. by rewrite app_nil_r.
    + intros [Hk [Hok ->]]. destruct f as [| | | | | |[i] p| | | | |]; try discriminate Hk.
      cbn -[u8_wire] in *. unfold id_ok in Hok; cbn in Hok.
      provide; try tauto; unfold id; by rewrite app_nil_r.
Qed.

Lemma reads_delivery_result limits : reads decode_delivery_result (body_of limits 12).
Proof.
  eapply reads_iff.
  - field reads_array_16. intros i Hi.
    apply reads_if_fail with (C := MessageId_new i <> MessageId_absent).
    + pose proof (absent_iff (MessageId_new i)). destruct (MessageId_is_absent _); intuition congruence.
    + intros _. tagged decodes_delivery_outcome. intros o. apply reads_ret.
  - unfold body_of, exactly; intros f s; split.
    + intros Hs. take_apart; subst. unfold id. cbn -[u8_wire]. by rewrite app_nil_r.
    + intros [Hk [Hok ->]]. destruct f as [| | | | | | |[i] o| | | |]; try discriminate Hk.
      cbn -[u8_wire] in *. unfold id_ok in Hok; cbn in Hok.
      provide; try tauto; unfold id; by rewrite app_nil_r.
Qed.

Lemma reads_namespace_resolved limits : reads decode_namespace_resolved (body_of limits 10).
Proof.
  eapply reads_iff.
  - field reads_namespace. intros n Hn. field reads_u8. intros marker Hm.
    apply reads_bind with (P := fun o s => match o with
      | None => marker = 0 /\ s = []
      | Some p => marker = 1 /\ peer_ok p /\ s = peer_wire p
      end).
    + split_tag marker; (eapply reads_iff;
        [apply reads_fail || apply reads_ret || apply reads_wrap, reads_peer_id|]);
        unfold exactly; intros [i|] s; try (intuition congruence).
      * split; [by intros (x & [= <-] & ?)|]. intros (_ & ? & ?). by exists i.
      * split; [by intros (x & ? & ?)|]. by intros [? _].
    + intros o s _. apply reads_ret.
  - unfold body_of, exactly. intros f s. split.
    + intros (n & Hn & s1 & (m & _ & s2 & (o & s3 & s4 & Ho & [-> ->] & ->) & ->) & ->).
      rewrite app_nil_r. destruct o as [p|]; take_apart; subst; done.
    + intros [Hk [Hok ->]]. destruct f as [| | | | | | | | | | |n o]; try discriminate Hk.
      destruct Hok as [Hn Ho]. exists n. split; [done|].
      exists (u8_wire (match o with Some _ => 1 | None => 0 end)
              ++ match o with Some p => peer_wire p | None => [] end).
      split; [|destruct o; cbn -[u8_wire]; by rewrite ?app_nil_r].
      exists (match o with Some _ => 1 | None => 0 end).
      split; [destruct o; unfold u8_max; lia|]. eexists. split; [|reflexivity].
      exists o, (match o with Some p => peer_wire p | None => [] end), [].
      rewrite app_nil_r. split; [by destruct o | done].
Qed.

Lemma frame_kind_range f : 1 <= frame_kind f <= 12.
Proof. destruct f; cbn; lia. Qed.

Lemma reads_body kind limits : reads (decode_body kind limits) (body_of limits kind).
Proof.
  unfold decode_body.
  split_tag kind;
    first [ apply reads_hello | apply reads_welcome | apply reads_claim | apply reads_subscribe
          | apply reads_unsubscribe | apply reads_message | apply reads_protocol_error
          | apply reads_control_result | apply reads_resolve_namespace
          | apply reads_namespace_resolved | apply reads_acknowledge | apply reads_delivery_result
          | eapply reads_iff; [apply reads_fail|]; intros f s; split; [done|];
            intros [Hk _]; by destruct f ].
Qed.

(** ** Packets *)

Lemma wf_Reader_new body : len body <= usize_max -> wf_reader (Reader_new body).
Proof. intros Hb. split; cbn; [lia | done]. Qed.

Lemma rest_new body : rest (Reader_new body) = body.
Proof. done. Qed.

(** A whole body: the reader consumes it all exactly when it is a frame of the kind. *)
Lemma decode_whole kind limits body :
  len body <= usize_max ->
  let '(outcome, reader) := decode_body kind limits (Reader_new body) in
  match outcome with
  | Ok f => if is_empty reader then body_of limits kind f body
            else forall g, ~ body_of limits kind g body
  | Err _ => forall g, ~ body_of limits kind g body
  | Panic => False
  end.
Proof.
  intros Hb. pose proof (wf_Reader_new body Hb) as Hwf.
  pose proof (reads_body kind limits) as Hr.
  destruct (decode_body kind limits (Reader_new body)) as [[f| |] r] eqn:E.
  - destruct (reads_sound _ _ Hr _ _ _ Hwf E) as (s & k & Hrest & Hf & ->).
    rewrite rest_new in Hrest. unfold is_empty, skip; cbn [Reader_new r_bytes r_position].
    rewrite N.add_0_l. destruct (N.eqb_spec (len s) (len body)) as [Hl|Hl].
    + subst body. rewrite len_app in Hl. assert (k = []) as -> by (apply len_zero; lia).
      by rewrite app_nil_r.
    + intros g Hg. pose proof (reads_accept _ _ Hr _ g body [] Hwf) as Ha.
      rewrite rest_new, app_nil_r, E in Ha. specialize (Ha eq_refl Hg).
      apply (f_equal (fun x => r_position x.2)) in Ha.
      unfold skip in Ha. cbn [snd Reader_new r_position] in Ha. lia.
  - intros g Hg. pose proof (reads_accept _ _ Hr _ g body [] Hwf) as Ha.
    rewrite rest_new, app_nil_r, E in Ha. by specialize (Ha eq_refl Hg).
  - apply (reads_no_panic _ _ Hr _ Hwf). by rewrite E.
Qed.

Lemma index_app (l k : bytes) b i : len l = i -> index (l ++ b :: k) i = Ok b.
Proof.
  intros <-. unfold index, len. rewrite Nat2N.id, list_lookup_middle; done.
Qed.

(** Every packet of at least twelve bytes is a header and a body. *)
Lemma packet_split (packet : bytes) :
  HEADER_SIZE <= len packet ->
  exists b0 b1 b2 b3 v k f6 f7 l8 l9 l10 l11 body,
    packet = [b0; b1; b2; b3; v; k; f6; f7; l8; l9; l10; l11] ++ body.
Proof.
  unfold HEADER_SIZE, len. intros Hl.
  do 12 (destruct packet as [|? packet]; [cbn in Hl; lia|]).
  by do 13 eexists.
Qed.

Lemma slice_from_app (h body : bytes) n :
  len h = n -> slice_from (h ++ body) n = Ok body.
Proof.
  intros <-. unfold slice_from, slice_index, slice_get. rewrite len_app.
  destruct (N.leb_spec (len h) (len h + len body)); [|lia]. rewrite N.leb_refl. cbn.
  rewrite N.add_comm, N.add_sub. unfold len. rewrite !Nat2N.id, drop_app_length, take_ge by done.
  done.
Qed.

Lemma header_iff f b0 b1 b2 b3 v k f6 f7 l8 l9 l10 l11 body :
  [b0; b1; b2; b3] ++ [v; k] ++ [f6; f7] ++ [l8; l9; l10; l11] ++ body = packet_wire f /\
  len (body_wire f) <= u32_max <->
  [b0; b1; b2; b3] = MAGIC /\ v = VERSION /\ byte_val k = frame_kind f /\
  from_be [f6; f7] = 0 /\ from_be [l8; l9; l10; l11] = len body /\ body = body_wire f.
Proof.
  unfold packet_wire, u32_max. split.
  - intros [Heq Hle]. apply (app_inj_1 [b0; b1; b2; b3]) in Heq as [Hm Heq]; [|done].
    cbn [app] in Heq. injection Heq as -> Hk Heq.
    assert ([f6; f7] = to_be 2 0) as E1 by (subst; reflexivity).
    assert ([l8; l9; l10; l11] = to_be 4 (len (body_wire f))) as E2 by (subst; reflexivity).
    rewrite E1, E2, Hk, byte_val_of_small by (pose proof (frame_kind_range f); lia).
    rewrite !from_be_to_be_small; [by subst|..]; [|done].
    change (256 ^ N.of_nat 4) with 4294967296. lia.
  - intros (-> & -> & Hk & Hf & Hl & ->).
    rewrite <- (byte_of_val k), Hk. unfold u8_wire, u16_wire, u32_wire.
    rewrite <- (to_be_from_be [f6; f7] 2 eq_refl), Hf.
    rewrite <- Hl, (to_be_from_be [l8; l9; l10; l11] 4 eq_refl). split; [done|].
    pose proof (from_be_bound [l8; l9; l10; l11]) as Hb.
    change (256 ^ len [l8; l9; l10; l11]) with 4294967296 in Hb. lia.
Qed.

Lemma slice_index_prefix (l k : bytes) n : len l = n -> slice_index (l ++ k) 0 n = Ok l.
Proof.
  intros <-. unfold slice_index, slice_get. rewrite len_app.
  rewrite (proj2 (N.leb_le 0 (len l))), (proj2 (N.leb_le (len l) _)) by lia.
  rewrite N.sub_0_r. unfold len. rewrite Nat2N.id. change (N.to_nat 0) with 0%nat.
  cbn [andb]. by rewrite drop_0, take_app_length.
Qed.

(** The checks of [decode_with_limits], on a packet split into its fields. *)
Lemma decode_packet_eq limits b0 b1 b2 b3 v k f6 f7 l8 l9 l10 l11 body :
  decode_with_limits ([b0; b1; b2; b3; v; k; f6; f7; l8; l9; l10; l11] ++ body) limits =
  if negb (bool_decide ([b0; b1; b2; b3] = MAGIC)) then Err CodecError_InvalidMagic
  else if negb (byte_eqb v VERSION) then Err (CodecError_UnsupportedVersion (byte_val v))
  else if negb (from_be [f6; f7] =? 0) then Err (CodecError_ReservedFlags (from_be [f6; f7]))
  else if negb (from_be [l8; l9; l10; l11] =? len body) then Err CodecError_LengthMismatch
  else if maximum_frame_size limits <? HEADER_SIZE + len body then Err CodecError_FrameTooLarge
  else
    let '(outcome, reader) := decode_body (byte_val k) limits (Reader_new body) in
    frame ← outcome;
    if negb (is_empty reader) then Err (CodecError_NonCanonical "trailing frame body")
    else Ok frame.
Proof.
  set (packet := [b0; b1; b2; b3; v; k; f6; f7; l8; l9; l10; l11] ++ body).
  assert (len packet = HEADER_SIZE + len body) as Hlen by (subst packet; by rewrite len_app).
  unfold decode_with_limits.
  destruct (N.ltb_spec (len packet) HEADER_SIZE) as [?|_]; [lia|].
  assert (slice_index packet 0 4 = Ok [b0; b1; b2; b3]) as ->
    by exact (slice_index_prefix [b0; b1; b2; b3] _ 4 eq_refl).
  assert (slice_from packet HEADER_SIZE = Ok body) as -> by exact (slice_from_app _ body _ eq_refl).
  change (index packet 4) with (@Ok CodecError _ v). change (index packet 5) with (@Ok CodecError _ k).
  change (index packet 6) with (@Ok CodecError _ f6). change (index packet 7) with (@Ok CodecError _ f7).
  change (index packet 8) with (@Ok CodecError _ l8). change (index packet 9) with (@Ok CodecError _ l9).
  change (index packet 10) with (@Ok CodecError _ l10). change (index packet 11) with (@Ok CodecError _ l11).
  cbn [mbind result_bind].
  destruct (negb (bool_decide _)); [done|]. destruct (negb (byte_eqb _ _)); [done|].
  destruct (negb (_ =? 0)); [done|].
  pose proof (from_be_bound [l8; l9; l10; l11]) as Hb.
  change (256 ^ len [l8; l9; l10; l11]) with 4294967296 in Hb.
  unfold checked_add. destruct (decide _) as [_|Hu]; [|unfold usize_max, HEADER_SIZE in Hu; lia].
  cbn [ok_or mbind result_bind]. rewrite Hlen.
  destruct (N.eqb_spec (from_be [l8; l9; l10; l11]) (len body)) as [->|Hne].
  - by rewrite N.eqb_refl.
  - rewrite (proj2 (N.eqb_neq _ _)); [done | lia].
Qed.

Lemma decode_packet limits b0 b1 b2 b3 v k f6 f7 l8 l9 l10 l11 body :
  let packet := [b0; b1; b2; b3; v; k; f6; f7; l8; l9; l10; l11] ++ body in
  let holds f := body_of limits (byte_val k) f body /\
    HEADER_SIZE + len body <= maximum_frame_size limits /\
    [b0; b1; b2; b3] = MAGIC /\ v = VERSION /\
    from_be [f6; f7] = 0 /\ from_be [l8; l9; l10; l11] = len body in
  match decode_with_limits packet limits with
  | Ok f => holds f
  | Err _ => forall f, ~ holds f
  | Panic => False
  end.
Proof.
  intros packet holds. unfold packet. rewrite decode_packet_eq. unfold byte_eqb.
  destruct (reflect_bool_decide ([b0; b1; b2; b3] = MAGIC)); cbn [negb]; [|subst holds; tauto].
  destruct (reflect_bool_decide (v = VERSION)); cbn [negb]; [|subst holds; tauto].
  destruct (N.eqb_spec (from_be [f6; f7]) 0); cbn [negb]; [|subst holds; tauto].
  destruct (N.eqb_spec (from_be [l8; l9; l10; l11]) (len body)) as [Hl|]; cbn [negb];
    [|subst holds; tauto].
  destruct (N.ltb_spec (maximum_frame_size limits) (HEADER_SIZE + len body));
    [subst holds; intros f (_ & Hsize & _); lia|].
  assert (len body <= usize_max) as Hb.
  { rewrite <- Hl. pose proof (from_be_bound [l8; l9; l10; l11]) as Hb.
    change (256 ^ len [l8; l9; l10; l11]) with 4294967296 in Hb. unfold usize_max. lia. }
  pose proof (decode_whole (byte_val k) limits body Hb) as Hw.
  destruct (decode_body (byte_val k) limits (Reader_new body)) as [[g| |] r]; cbn [mbind result_bind].
  - destruct (is_empty r); cbn [negb]; [by subst holds|]. intros g' [Hg _]. apply (Hw g' Hg).
  - intros g' [Hg _]. apply (Hw g' Hg).
  - apply Hw.
Qed.

(** The decoder refines the grammar: it returns the frame a packet stands for,
    and fails exactly when the packet stands for none. *)
Lemma decode_refines limits packet :
  match decode_with_limits packet limits with
  | Ok f => stands_for limits f packet
  | Err _ => forall f, ~ stands_for limits f packet
  | Panic => False
  end.
Proof.
  destruct (N.ltb_spec (len packet) HEADER_SIZE) as [Hlt|Hge].
  { unfold decode_with_limits. rewrite (proj2 (N.ltb_lt _ _) Hlt). intros f [_ ->]. unfold packet_wire, HEADER_SIZE in Hlt.
    rewrite !len_app in Hlt. change (len MAGIC) with 4 in Hlt.
    unfold u16_wire, u32_wire in Hlt. rewrite !len_to_be in Hlt.
    change (len (u8_wire _)) with 1 in Hlt. change (len [VERSION]) with 1 in Hlt. lia. }
  destruct (packet_split packet Hge)
    as (b0 & b1 & b2 & b3 & v & k & f6 & f7 & l8 & l9 & l10 & l11 & body & ->).
  assert (forall f, stands_for limits f ([b0; b1; b2; b3; v; k; f6; f7; l8; l9; l10; l11] ++ body) <->
    body_of limits (byte_val k) f body /\
    HEADER_SIZE + len body <= maximum_frame_size limits /\
    [b0; b1; b2; b3] = MAGIC /\ v = VERSION /\
    from_be [f6; f7] = 0 /\ from_be [l8; l9; l10; l11] = len body) as Hiff.
  { intros f. unfold stands_for, frame_ok, body_of, exactly.
    pose proof (header_iff f b0 b1 b2 b3 v k f6 f7 l8 l9 l10 l11 body) as Hh.
    cbn [app] in *. split.
    - intros [(Hok & Hm & Hu) Heq]. destruct (proj1 Hh (conj Heq Hu)) as (? & ? & ? & ? & ? & ->).
      done.
    - intros ((Hk & Hok & ->) & Hm & ? & ? & ? & ?). destruct (proj2 Hh) as [??]; done. }
  pose proof (decode_packet limits b0 b1 b2 b3 v k f6 f7 l8 l9 l10 l11 body) as Hd.
  cbv zeta in Hd. destruct (decode_with_limits _ limits) as [f| |].
  - by apply Hiff.
  - intros f Hf%Hiff. by apply (Hd f).
  - done.
Qed.
