(* ===== verification/CodecFacts.v ===== *)
(** * What the codec guarantees

    The consequences of the two refinements ([Writers.v], [Decoding.v]): the
    codec is a bijection between the frames that may travel and the canonical
    packets, it never panics on untrusted bytes, and what it accepts satisfies
    the documented rules and limits. *)

From S2P Require Export Decoding.

Local Open Scope N_scope.

(** ** Decoded values satisfy the type invariants *)

Lemma ok_wf_value v : value_ok v -> wf_value v.
Proof. destruct v; cbn; unfold text_ok; tauto. Qed.

Lemma ok_wf_headers limits h : headers_ok limits h -> wf_headers h.
Proof.
  intros (_ & _ & Hh) k v Hv. rewrite Forall_forall in Hh.
  apply ok_wf_value. apply (Hh (k, v)). by apply elem_of_bt_entries.
Qed.

Lemma ok_wf_filter f : filter_ok f -> wf_filter f.
Proof. destruct f; cbn; try done; intros [_ ?]; by apply ok_wf_value. Qed.

Lemma ok_wf_message limits m : message_ok limits m -> wf_message m.
Proof.
  unfold message_ok, wf_message.
  intros (_ & _ & Ha & Hd & Hr & Hdst & Hm & Hc & Hh%ok_wf_headers & _). repeat split; try done.
  - destruct (m_ack_requirement m); cbn in *; [done..|lia].
  - destruct (m_retry m); cbn in *; [done|lia].
  - destruct (m_destination m); cbn in *; try done. unfold peer_ok, wf_peer in *; lia.
Qed.

Lemma ok_wf_frame limits f : body_ok limits f -> wf_frame f.
Proof.
  destruct f as [id h c|p c|n h|c fs|c|m|i p|i o|c t|o|n|n o];
    cbn [body_ok wf_frame]; unfold peer_ok, wf_peer; try tauto.
  - intros (? & ?%ok_wf_headers & _). done.
  - intros (? & ?%ok_wf_headers). done.
  - intros (? & _ & _ & Hf & _). split; [done|]. eapply Forall_impl; [done|apply ok_wf_filter].
  - apply ok_wf_message.
  - unfold text_ok. tauto.
  - intros [? ?]. split; [done|]. destruct o; [lia | done].
Qed.

Lemma len_packet_wire f : len (packet_wire f) = HEADER_SIZE + len (body_wire f).
Proof.
  unfold packet_wire, u8_wire, u16_wire, u32_wire. rewrite !len_app, !len_to_be.
  change (len MAGIC) with 4. change (len [VERSION]) with 1. unfold len at 1; cbn [length].
  unfold HEADER_SIZE. lia.
Qed.

Lemma decode_stands_for limits f packet :
  stands_for limits f packet -> wf_frame f -> encode_with_limits f limits = Ok packet.
Proof.
  intros Hs Hf. pose proof (encode_refines limits f Hf) as He.
  destruct (encode_with_limits f limits) as [p| |]; [|by destruct (He packet)|done].
  destruct Hs as [_ ->], He as [_ ->]. done.
Qed.

Lemma stands_for_wf limits f packet : stands_for limits f packet -> wf_frame f.
Proof. intros [[Hok _] _]. by eapply ok_wf_frame. Qed.

Lemma encode_stands_for limits f packet :
  wf_frame f -> encode_with_limits f limits = Ok packet -> stands_for limits f packet.
Proof. intros Hf He. pose proof (encode_refines limits f Hf) as H. by rewrite He in H. Qed.

Lemma decode_ok_stands_for limits f packet :
  decode_with_limits packet limits = Ok f -> stands_for limits f packet.
Proof. intros Hd. pose proof (decode_refines limits packet) as H. by rewrite Hd in H. Qed.


Definition limits_le (l1 l2 : FrameLimits) : Prop :=
  maximum_frame_size l1 <= maximum_frame_size l2 /\
  maximum_headers l1 <= maximum_headers l2 /\
  maximum_capabilities l1 <= maximum_capabilities l2 /\
  maximum_filters l1 <= maximum_filters l2.

Lemma headers_ok_mono l1 l2 h : limits_le l1 l2 -> headers_ok l1 h -> headers_ok l2 h.
Proof. unfold limits_le, headers_ok. intuition lia. Qed.

Lemma capabilities_ok_mono l1 l2 c :
  limits_le l1 l2 -> capabilities_ok l1 c -> capabilities_ok l2 c.
Proof. unfold limits_le, capabilities_ok. intuition lia. Qed.

Lemma filters_ok_mono l1 l2 fs : limits_le l1 l2 -> filters_ok l1 fs -> filters_ok l2 fs.
Proof. unfold limits_le, filters_ok. intuition lia. Qed.

Lemma body_ok_mono l1 l2 f : limits_le l1 l2 -> body_ok l1 f -> body_ok l2 f.
Proof.
  intros Hl. pose proof (headers_ok_mono l1 l2) as Hh.
  pose proof (capabilities_ok_mono l1 l2) as Hc. pose proof (filters_ok_mono l1 l2) as Hf.
  destruct f; unfold body_ok, message_ok; naive_solver.
Qed.

Lemma stands_for_mono l1 l2 f p : limits_le l1 l2 -> stands_for l1 f p -> stands_for l2 f p.
Proof.
  intros Hl [(Hok & Hm & Hu) ->]. split; [|done]. split; [by eapply body_ok_mono|].
  unfold limits_le in Hl. split; [lia | done].
Qed.

Definition limits_max (l1 l2 : FrameLimits) : FrameLimits := {|
  maximum_frame_size := N.max (maximum_frame_size l1) (maximum_frame_size l2);
  maximum_headers := N.max (maximum_headers l1) (maximum_headers l2);
  maximum_capabilities := N.max (maximum_capabilities l1) (maximum_capabilities l2);
  maximum_filters := N.max (maximum_filters l1) (maximum_filters l2);
|}.

(** A packet stands for at most one frame, whatever the limits. *)
Lemma stands_for_unique l1 l2 f g packet :
  stands_for l1 f packet -> stands_for l2 g packet -> f = g.
Proof.
  intros Hf Hg.
  assert (stands_for (limits_max l1 l2) f packet) as [(Hok1 & _ & Hu1) ->]
    by (apply (stands_for_mono l1); [unfold limits_le; cbn; lia | done]).
  assert (stands_for (limits_max l1 l2) g (packet_wire f)) as [(Hok2 & _ & _) Heq]
    by (apply (stands_for_mono l2); [unfold limits_le; cbn; lia | done]).
  assert (frame_kind f = frame_kind g /\ body_wire f = body_wire g) as [Hk Hb].
  { unfold packet_wire in Heq. do 2 apply app_inv_head in Heq.
    apply app_inj_1 in Heq as [Hk Heq]; [|done]. apply app_inv_head in Heq.
    apply app_inj_1 in Heq as [_ Hb]; [|by unfold u32_wire; rewrite !length_to_be].
    split; [|done]. pose proof (frame_kind_range f). pose proof (frame_kind_range g).
    apply u8_wire_inj; [unfold u8_max; lia.. | done]. }
  assert (wf_reader (Reader_new (body_wire f))) as Hwf
    by (apply wf_Reader_new; unfold u32_max, usize_max in *; lia).
  pose proof (reads_body (frame_kind f) (limits_max l1 l2)) as Hr.
  pose proof (reads_accept _ _ Hr _ f (body_wire f) [] Hwf) as Hf'.
  pose proof (reads_accept _ _ Hr _ g (body_wire f) [] Hwf) as Hg'.
  rewrite rest_new, app_nil_r in Hf', Hg'.
  rewrite Hf' in Hg' by (done || by repeat split).
  by injection (Hg' eq_refl (conj (eq_sym Hk) (conj Hok2 Hb))) as ->.
Qed.

Lemma stands_for_decode limits f packet :
  stands_for limits f packet -> decode_with_limits packet limits = Ok f.
Proof.
  intros Hs. pose proof (decode_refines limits packet) as Hd.
  destruct (decode_with_limits packet limits) as [g|e|].
  - f_equal. by eapply stands_for_unique.
  - by destruct (Hd f).
  - done.
Qed.

Lemma hello_wf : wf_frame hello_example.
Proof.
  apply (stands_for_wf FrameLimits_default _ hello_vector), decode_ok_stands_for.
  by vm_compute.
Qed.

Lemma message_wf : wf_frame message_example.
Proof.
  apply (stands_for_wf FrameLimits_default _ message_vector), decode_ok_stands_for.
  by vm_compute.
Qed.

(** ** The contract *)

(** C1: round trip.  Whatever [Frame::encode_with_limits] produces from a value
    of the frame type, [Frame::decode_with_limits] under the same limits turns
    back into that very frame. *)
Theorem decode_encode limits f packet :
  wf_frame f -> encode_with_limits f limits = Ok packet ->
  decode_with_limits packet limits = Ok f.
Proof. intros Hf He. by apply stands_for_decode, encode_stands_for. Qed.

Lemma decode_encode_witness :
  wf_frame message_example /\
  encode_with_limits message_example FrameLimits_default = Ok message_vector /\
  decode_with_limits message_vector FrameLimits_default = Ok message_example.
Proof.
  split; [exact message_wf|]. split; [by vm_compute|].
  apply (decode_encode FrameLimits_default message_example message_vector);
    [exact message_wf | by vm_compute].
Defined.

(** C12: canonicity.  A packet has one accepted spelling: whatever the decoder
    accepts, the encoder reproduces byte for byte (so unsorted or duplicate
    headers, capabilities and filters, unknown tags, redundant flags and
    trailing bytes are all rejected). *)
Theorem encode_decode limits f packet :
  decode_with_limits packet limits = Ok f ->
  encode_with_limits f limits = Ok packet.
Proof.
  intros Hd. pose proof (decode_ok_stands_for _ _ _ Hd) as Hs.
  by apply decode_stands_for; [|eapply stands_for_wf].
Qed.

Lemma encode_decode_witness :
  decode_with_limits hello_vector FrameLimits_default = Ok hello_example /\
  encode_with_limits hello_example FrameLimits_default = Ok hello_vector.
Proof.
  split; [by vm_compute|].
  apply (encode_decode FrameLimits_default hello_example hello_vector); by vm_compute.
Defined.

(** C23: the decoder refines the wire grammar on arbitrary untrusted bytes.  It
    accepts exactly the packets that stand for a frame, with that frame, and no
    input makes it panic (every slice, index and fixed-length conversion of
    the reader is in range). *)
Theorem decoder_refines_grammar limits packet :
  match decode_with_limits packet limits with
  | Ok f => stands_for limits f packet
  | Err _ => forall f, ~ stands_for limits f packet
  | Panic => False
  end.
Proof. exact (decode_refines limits packet). Qed.

(** C24: the encoder refines the wire grammar.  On every value of the frame
    type it emits the packet that stands for it, fails exactly when the grammar
    has none under these limits, and never panics. *)
Theorem encoder_refines_grammar limits f :
  wf_frame f ->
  match encode_with_limits f limits with
  | Ok packet => stands_for limits f packet
  | Err _ => forall packet, ~ stands_for limits f packet
  | Panic => False
  end.
Proof. exact (encode_refines limits f). Qed.

Lemma encoder_refines_grammar_witness :
  wf_frame hello_example /\ stands_for FrameLimits_default hello_example hello_vector.
Proof.
  split; [exact hello_wf|].
  pose proof (encoder_refines_grammar FrameLimits_default hello_example hello_wf) as H.
  rewrite (proj1 hello_golden_vector : encode_with_limits _ FrameLimits_default = _) in H.
  exact H.
Defined.

(** No two frames share a packet, even when they were encoded under
    different limits. *)
Theorem encode_injective l1 l2 f g packet :
  wf_frame f -> wf_frame g ->
  encode_with_limits f l1 = Ok packet -> encode_with_limits g l2 = Ok packet -> f = g.
Proof.
  intros Hf Hg Ef Eg.
  by eapply stands_for_unique; [apply (encode_stands_for l1) | apply (encode_stands_for l2)].
Qed.

Lemma encode_injective_witness :
  encode_with_limits hello_example FrameLimits_default = Ok hello_vector /\
  hello_example = hello_example.
Proof.
  split; [by vm_compute|].
  apply (encode_injective FrameLimits_default FrameLimits_default _ _ hello_vector);
    first [exact hello_wf | by vm_compute].
Defined.

(** C40: an accepted MESSAGE satisfies every documented envelope rule: the
    acknowledgement, request-policy, deadline and retry rules, the identifier
    and status rules, a well-formed destination; its packet, headers and
    payload are within the limits. *)
Theorem decoded_message_valid limits m packet :
  decode_with_limits packet limits = Ok (Frame_Message m) ->
  delivery_options_ok (m_kind m) (m_ack_policy m) (m_ack_requirement m) (m_request_policy m)
    (m_deadline_ms m) (m_retry m) /\
  identity_ok (m_kind m) (m_message_id m) (m_correlation_id m) (m_status m) /\
  destination_ok (m_destination m) /\ retry_ok (m_retry m) /\
  ack_requirement_ok (m_ack_requirement m) /\
  bt_len (m_headers m) <= maximum_headers limits /\
  HEADER_SIZE + len (m_payload m) < len packet /\ len packet <= maximum_frame_size limits.
Proof.
  intros Hd. destruct (decode_ok_stands_for _ _ _ Hd) as [(Hok & Hm & Hu) ->].
  rewrite len_packet_wire. destruct Hok as (? & ? & ? & ? & ? & ? & ? & ? & (? & ? & ?) & ?).
  repeat (split; [done|]). split; [|done].
  cbn [body_wire]. unfold message_wire, binary_wire, u8_wire.
  rewrite !len_app, !len_cons. lia.
Qed.

Lemma decoded_message_valid_witness :
  decode_with_limits message_vector FrameLimits_default = Ok message_example /\
  HEADER_SIZE + len (m_payload example_message) < len message_vector.
Proof.
  split; [by vm_compute|].
  refine (proj1 (proj2 (proj2 (proj2 (proj2 (proj2 (proj2
    (decoded_message_valid FrameLimits_default example_message message_vector _)))))))); by vm_compute.
Defined.

(** Raising the limits never changes a result: a packet accepted under some
    limits decodes to the same frame under any limits that dominate them. *)
Theorem decode_limits_monotone l1 l2 f packet :
  limits_le l1 l2 ->
  decode_with_limits packet l1 = Ok f -> decode_with_limits packet l2 = Ok f.
Proof.
  intros Hl Hd. apply stands_for_decode, (stands_for_mono l1); [done|].
  by apply decode_ok_stands_for.
Qed.

Definition small_limits : FrameLimits := {|
  maximum_frame_size := 100;
  maximum_headers := 1;
  maximum_capabilities := 1;
  maximum_filters := 0;
|}.

Lemma decode_limits_monotone_witness :
  decode_with_limits hello_vector small_limits = Ok hello_example /\
  decode_with_limits hello_vector FrameLimits_default = Ok hello_example.
Proof.
  split; [by vm_compute|].
  apply (decode_limits_monotone small_limits FrameLimits_default hello_example hello_vector);
    by vm_compute.
Defined.

(** The header is checked before the body, in this order: length, magic,
    version, flags, declared length, size limit, frame kind; each failure is
    reported by its own error, which carries the offending value. *)
Theorem decode_header_errors limits m0 m1 m2 m3 v k f0 f1 l0 l1 l2 l3 body :
  let decoded m v k f l :=
    decode_with_limits (m ++ [v; k] ++ f ++ l ++ body) limits in
  let m := [m0; m1; m2; m3] in let f := [f0; f1] in let l := [l0; l1; l2; l3] in
  (forall short, len short < 12 -> decode_with_limits short limits = Err CodecError_Truncated) /\
  (m <> MAGIC -> decoded m v k f l = Err CodecError_InvalidMagic) /\
  (v <> VERSION -> decoded MAGIC v k f l = Err (CodecError_UnsupportedVersion (byte_val v))) /\
  (from_be f <> 0 -> decoded MAGIC VERSION k f l = Err (CodecError_ReservedFlags (from_be f))) /\
  (from_be l <> len body ->
     decoded MAGIC VERSION k [x00; x00] l = Err CodecError_LengthMismatch) /\
  (from_be l = len body -> maximum_frame_size limits < 12 + len body ->
     decoded MAGIC VERSION k [x00; x00] l = Err CodecError_FrameTooLarge) /\
  (from_be l = len body -> 12 + len body <= maximum_frame_size limits ->
     byte_val k = 0 \/ 12 < byte_val k ->
     decoded MAGIC VERSION k [x00; x00] l = Err (CodecError_UnknownFrameKind (byte_val k))).
Proof.
  intros decoded m f l. subst decoded; cbv beta.
  pose proof (fun m0 m1 m2 m3 v f0 f1 => decode_packet_eq limits m0 m1 m2 m3 v k f0 f1 l0 l1 l2 l3 body)
    as E.
  split; [|change MAGIC with [x42; x55; x53; x31]; subst m f l; cbn [app] in E |- *;
            rewrite !E; unfold byte_eqb].
  { intros short Hs. unfold decode_with_limits, HEADER_SIZE. by rewrite (proj2 (N.ltb_lt _ _) Hs). }
  rewrite !(bool_decide_eq_true_2 ([x42; x55; x53; x31] = MAGIC)) by done.
  rewrite !(bool_decide_eq_true_2 (VERSION = VERSION)) by done. cbn [negb].
  change (from_be [x00; x00] =? 0) with true. cbn [negb].
  split; [intros Hm; by rewrite bool_decide_eq_false_2|].
  split; [intros Hv; by rewrite bool_decide_eq_false_2|].
  split; [intros Hf; by rewrite (proj2 (N.eqb_neq _ _) Hf)|].
  split; [intros Hl; by rewrite (proj2 (N.eqb_neq _ _) Hl)|].
  unfold HEADER_SIZE.
  split; intros Hl; rewrite (proj2 (N.eqb_eq _ _) Hl); cbn [negb].
  - intros Hm. by rewrite (proj2 (N.ltb_lt _ _) Hm).
  - intros Hm Hk. rewrite (proj2 (N.ltb_ge _ _) Hm).
    assert (decode_body (byte_val k) limits = fail (CodecError_UnknownFrameKind (byte_val k))) as ->;
      [|done].
    unfold decode_body. clear -Hk. generalize dependent (byte_val k). intros n Hk.
    split_tag n; done || lia.
Qed.
