(* ===== verification/Strs.v ===== *)
(** * [str] methods of the Rust standard library

    The text operations the policy parser and the name validators use, on the
    UTF-8 bytes of a string: [split_once], [split], [lines], [trim],
    [trim_start_matches], [strip_suffix] and [parse] of unsigned integers.
    A separator is always an ASCII byte, which never occurs inside the encoding
    of another character, so splitting bytes splits characters. *)

From S2P Require Export Ordered Utf8.

Local Open Scope N_scope.

Implicit Types s p : bytes.

(** ** Splitting *)

(** [s.split_once(c)]: the texts before and after the first [c]. *)
Fixpoint split_once (c : byte) (s : bytes) : option (bytes * bytes) :=
  match s with
  | [] => None
  | b :: s' =>
      if byte_eqb b c then Some ([], s')
      else match split_once c s' with
           | Some (before, after) => Some (b :: before, after)
           | None => None
           end
  end.

(** [s.split(c)]: always at least one part. *)
Fixpoint split (c : byte) (s : bytes) : list bytes :=
  match s with
  | [] => [[]]
  | b :: s' =>
      if byte_eqb b c then [] :: split c s'
      else match split c s' with
           | part :: parts => (b :: part) :: parts
           | [] => [[b]]
           end
  end.

Fixpoint join (c : byte) (parts : list bytes) : bytes :=
  match parts with
  | [] => []
  | [p] => p
  | p :: ps => p ++ c :: join c ps
  end.

Lemma byte_eqb_true a b : byte_eqb a b = true <-> a = b.
Proof. apply bool_decide_eq_true. Qed.

Lemma byte_eqb_false a b : byte_eqb a b = false <-> a <> b.
Proof. apply bool_decide_eq_false. Qed.

Lemma split_once_Some c s before after :
  split_once c s = Some (before, after) <-> s = before ++ c :: after /\ c ∉ before.
Proof.
  revert before. induction s as [|b s IH]; intros before; cbn.
  { split; [done|]. by intros [?%eq_sym%app_nil _]; naive_solver. }
  destruct (byte_eqb b c) eqn:E.
  - apply byte_eqb_true in E as ->. split.
    + intros [= <- ->]. split; [done|]. apply not_elem_of_nil.
    + intros [Heq Hc]. destruct before as [|b' before]; cbn in Heq.
      * by injection Heq as ->.
      * injection Heq as -> _. set_solver.
  - apply byte_eqb_false in E. destruct (split_once c s) as [[x y]|] eqn:Es.
    + split.
      * intros [= <- ->]. destruct (proj1 (IH x) eq_refl) as [-> Hc]. set_solver.
      * intros [Heq Hc]. destruct before as [|b' before]; cbn in Heq; [congruence|].
        injection Heq as -> Heq. assert (c ∉ before) as Hc' by set_solver.
        pose proof (proj2 (IH before) (conj Heq Hc')). congruence.
    + split; [done|]. intros [Heq Hc].
      destruct before as [|b' before]; cbn in Heq; [congruence|].
      injection Heq as -> Heq. assert (c ∉ before) as Hc' by set_solver.
      pose proof (proj2 (IH before) (conj Heq Hc')). congruence.
Qed.

Lemma split_once_None c s : split_once c s = None <-> c ∉ s.
Proof.
  induction s as [|b s IH]; cbn; [set_solver|].
  destruct (byte_eqb b c) eqn:E.
  - apply byte_eqb_true in E as ->. set_solver.
  - apply byte_eqb_false in E. destruct (split_once c s) as [[]|]; set_solver.
Qed.

Lemma split_ne c s : split c s <> [].
Proof. destruct s as [|b s]; cbn; [done|]. destruct (byte_eqb b c); [done|]. by destruct (split c s). Qed.

(** The parts are the only separator-free parts that join to the text. *)
Lemma split_spec c s parts :
  split c s = parts <->
  parts <> [] /\ join c parts = s /\ Forall (fun p => c ∉ p) parts.
Proof.
  split.
  - intros <-. split; [apply split_ne|].
    induction s as [|b s [IHj IHf]]; [by split; repeat constructor; set_solver|].
    cbn. destruct (byte_eqb b c) eqn:E.
    + apply byte_eqb_true in E as ->. split; [|constructor; [set_solver|done]].
      pose proof (split_ne c s). destruct (split c s); [done|]. cbn. by rewrite <- IHj.
    + apply byte_eqb_false in E. pose proof (split_ne c s) as Hne.
      destruct (split c s) as [|q qs]; [done|].
      apply Forall_cons in IHf as [Hq Hqs]. split; [|constructor; [set_solver|done]].
      rewrite <- IHj. by destruct qs.
  - revert s. induction parts as [|q qs IH]; intros s; [by intros []|].
    intros (_ & <- & [Hq Hqs]%Forall_cons).
    destruct qs as [|r qs].
    + cbn. clear IH Hqs. induction q as [|b q IHq]; [done|]. cbn.
      destruct (byte_eqb b c) eqn:E; [apply byte_eqb_true in E; set_solver|].
      rewrite IHq by set_solver. done.
    + assert (split c (join c (r :: qs)) = r :: qs) as Hr by (apply IH; by split).
      change (join c (q :: r :: qs)) with (q ++ c :: join c (r :: qs)).
      clear IH. revert Hr. generalize (join c (r :: qs)). intros rest Hr.
      induction q as [|b q IHq]; cbn.
      * by rewrite (proj2 (byte_eqb_true c c) eq_refl), Hr.
      * destruct (byte_eqb b c) eqn:E; [apply byte_eqb_true in E; set_solver|].
        by rewrite IHq by set_solver.
Qed.

(** [s.strip_suffix(c)]. *)
Definition strip_suffix (c : byte) (s : bytes) : option bytes :=
  match last s with
  | Some b => if byte_eqb b c then Some (take (length s - 1) s) else None
  | None => None
  end.

Lemma strip_suffix_Some c s r : strip_suffix c s = Some r <-> s = r ++ [c].
Proof.
  unfold strip_suffix. induction s as [|b s _] using rev_ind; cbn.
  { split; [done|]. intros H%eq_sym. by destruct r. }
  rewrite last_snoc, length_app, Nat.add_sub, take_app_length.
  destruct (byte_eqb b c) eqn:E.
  - apply byte_eqb_true in E as ->. split; [by intros [= ->]|].
    intros H. apply app_inj_2 in H as [-> _]; done.
  - apply byte_eqb_false in E. split; [done|].
    intros H. apply app_inj_2 in H as [_ [= ->]]; done.
Qed.

(** [s.ends_with(c)]. *)
Definition ends_with (s : bytes) (c : byte) : bool :=
  match last s with Some b => byte_eqb b c | None => false end.

(** [s.lines()]: split after each line feed; the line ending (a line feed or a
    carriage return and a line feed) is removed; no empty last line. *)
Fixpoint split_inclusive (s : bytes) : list bytes :=
  match s with
  | [] => []
  | b :: s' =>
      if byte_eqb b x0a then [b] :: split_inclusive s'
      else match split_inclusive s' with
           | line :: lines => (b :: line) :: lines
           | [] => [[b]]
           end
  end.

Definition strip_line_ending (line : bytes) : bytes :=
  match strip_suffix x0a line with
  | None => line
  | Some line => match strip_suffix x0d line with None => line | Some line => line end
  end.

Definition lines (s : bytes) : list bytes := strip_line_ending <$> split_inclusive s.

Example lines_example :
  lines (bs "a" ++ [x0d; x0a] ++ bs "b" ++ [x0a; x0a] ++ bs "c" ++ [x0d])
  = [bs "a"; bs "b"; []; bs "c" ++ [x0d]].
Proof. reflexivity. Qed.

(** ** White space *)

(** The bytes of a [White_Space] character at the head of [s]: how many, or
    zero when [s] starts with another character. *)
Definition white_space_prefix (s : bytes) : nat :=
  match s with
  | b :: s' =>
      if in_range b 0x09 0x0d || byte_eqb b x20 then 1
      else match b, s' with
      | xc2, c :: _ => if byte_eqb c x85 || byte_eqb c xa0 then 2 else 0
      | xe1, x9a :: x80 :: _ => 3
      | xe2, x80 :: d :: _ =>
          if in_range d 0x80 0x8a || byte_eqb d xa8 || byte_eqb d xa9 || byte_eqb d xaf then 3 else 0
      | xe2, x81 :: x9f :: _ => 3
      | xe3, x80 :: x80 :: _ => 3
      | _, _ => 0
      end
  | [] => 0
  end%nat.

(** The same at the end of a text, read backwards. *)
Definition white_space_suffix (r : bytes) : nat :=
  match r with
  | d :: r' =>
      if in_range d 0x09 0x0d || byte_eqb d x20 then 1
      else match r' with
      | c :: r'' =>
          if Nat.eqb (white_space_prefix [c; d]) 2 then 2
          else match r'' with
          | b :: _ => if Nat.eqb (white_space_prefix [b; c; d]) 3 then 3 else 0
          | [] => 0
          end
      | [] => 0
      end
  | [] => 0
  end%nat.

Fixpoint trim_start_fuel (fuel : nat) (s : bytes) : bytes :=
  match fuel with
  | O => s
  | S fuel =>
      match white_space_prefix s with
      | O => s
      | n => trim_start_fuel fuel (drop n s)
      end
  end.

Fixpoint trim_end_fuel (fuel : nat) (r : bytes) : bytes :=
  match fuel with
  | O => r
  | S fuel =>
      match white_space_suffix r with
      | O => r
      | n => trim_end_fuel fuel (drop n r)
      end
  end.

(** Each round removes at least one byte, so the length is enough fuel. *)
Definition trim_start (s : bytes) : bytes := trim_start_fuel (length s) s.
Definition trim_end (s : bytes) : bytes := reverse (trim_end_fuel (length s) (reverse s)).
Definition trim (s : bytes) : bytes := trim_end (trim_start s).

Example trim_example : trim ([x09; xc2; xa0] ++ bs "a b" ++ [xe2; x80; x83; x0d; x0a]) = bs "a b".
Proof. reflexivity. Qed.

Lemma white_space_prefix_nil : white_space_prefix [] = 0%nat.
Proof. done. Qed.

(** With its length as fuel, [trim] stops only at a character that is not
    white space. *)
Lemma trim_start_done fuel s :
  (length s <= fuel)%nat -> white_space_prefix (trim_start_fuel fuel s) = 0%nat.
Proof.
  revert s. induction fuel as [|fuel IH]; intros s Hs; cbn.
  { by destruct s; cbn in Hs; [|lia]. }
  destruct (white_space_prefix s) eqn:E; [done|]. apply IH.
  rewrite length_drop. lia.
Qed.

Lemma trim_end_done fuel s :
  (length s <= fuel)%nat -> white_space_suffix (trim_end_fuel fuel s) = 0%nat.
Proof.
  revert s. induction fuel as [|fuel IH]; intros s Hs; cbn.
  { by destruct s; cbn in Hs; [|lia]. }
  destruct (white_space_suffix s) eqn:E; [done|]. apply IH.
  rewrite length_drop. lia.
Qed.

(** ** Prefix removal and numbers *)

(** [s.trim_start_matches(p)] for a non-empty [p]. *)
Fixpoint trim_start_matches_fuel (fuel : nat) (p s : bytes) : bytes :=
  match fuel with
  | O => s
  | S fuel =>
      match strip_prefix p s with
      | Some s' => trim_start_matches_fuel fuel p s'
      | None => s
      end
  end.
Definition trim_start_matches (p s : bytes) : bytes := trim_start_matches_fuel (length s) p s.

Example trim_start_matches_example :
  trim_start_matches (bs "header.") (bs "header.header.role") = bs "role".
Proof. reflexivity. Qed.

(** [s.parse::<u32>()] and the other unsigned widths: an optional plus sign,
    then digits, rejecting overflow of [maximum]. *)
Definition digit_value (b : byte) : option N :=
  if is_ascii_digit b then Some (byte_val b - 48) else None.

Fixpoint parse_digits (maximum accumulator : N) (s : bytes) : option N :=
  match s with
  | [] => Some accumulator
  | b :: s' =>
      digit ← digit_value b;
      let product := accumulator * 10 in
      if maximum <? product then None
      else
        accumulator ← checked_add maximum product digit;
        parse_digits maximum accumulator s'
  end.

Definition parse_unsigned (maximum : N) (s : bytes) : option N :=
  match s with
  | [] => None
  | b :: s' =>
      if byte_eqb b x2b then match s' with [] => None | _ => parse_digits maximum 0 s' end
      else parse_digits maximum 0 s
  end.

Lemma parse_digits_bound maximum acc s n :
  acc <= maximum -> parse_digits maximum acc s = Some n -> n <= maximum.
Proof.
  revert acc. induction s as [|b s IH]; intros acc Hacc; cbn; [by intros [= <-]|].
  destruct (digit_value b) as [d|]; cbn; [|done].
  destruct (maximum <? acc * 10); [done|]. unfold checked_add.
  destruct (decide _); cbn; [|done]. by apply IH.
Qed.

(** What is parsed fits the width. *)
Lemma parse_unsigned_bound maximum s n : parse_unsigned maximum s = Some n -> n <= maximum.
Proof.
  destruct s as [|b s]; cbn; [done|]. destruct (byte_eqb b x2b).
  - destruct s; [done|]. apply parse_digits_bound. lia.
  - apply (parse_digits_bound _ 0 (b :: s)). lia.
Qed.

Example parse_unsigned_examples :
  parse_unsigned u8_max (bs "255") = Some 255 /\ parse_unsigned u8_max (bs "256") = None /\
  parse_unsigned u8_max (bs "+0001") = Some 1 /\ parse_unsigned u8_max (bs "-1") = None /\
  parse_unsigned u8_max (bs "+") = None /\ parse_unsigned u8_max [] = None.
Proof. by vm_compute. Qed.
