(* ===== verification/Totals.v ===== *)
(** * Sums over the values of a map

    The quotas of the broker count or weigh the values of a map.  [total_of w m]
    is the sum of the weights; counting is weighing with zeros and ones. *)

From S2P Require Export Ordered.

Local Open Scope N_scope.

Definition sum_N (l : list N) : N := foldr N.add 0 l.

Lemma sum_N_app l k : sum_N (l ++ k) = sum_N l + sum_N k.
Proof. induction l as [|x l IH]; [done|]. cbn [app sum_N foldr] in *. unfold sum_N in *. lia. Qed.

#[export] Instance sum_N_perm : Proper ((≡ₚ) ==> (=)) sum_N.
Proof. intros l k. unfold sum_N. induction 1; cbn; lia. Qed.

(** Filtering and then weighing is weighing with zeros. *)
Lemma sum_N_filter {A} (Q : A -> Prop) `{forall x, Decision (Q x)} (f : A -> N) l :
  sum_N (f <$> filter Q l) = sum_N ((fun x => if decide (Q x) then f x else 0) <$> l).
Proof.
  induction l as [|x l IH]; [done|]. rewrite filter_cons, fmap_cons. cbn [sum_N foldr].
  destruct (decide (Q x)); cbn; unfold sum_N in *; lia.
Qed.

Lemma len_filter {A} (Q : A -> Prop) `{forall x, Decision (Q x)} (l : list A) :
  len (filter Q l) = sum_N ((fun x => if decide (Q x) then 1 else 0) <$> l).
Proof.
  rewrite <- (sum_N_filter Q (fun _ => 1)). induction (filter Q l) as [|x k IH]; [done|].
  rewrite fmap_cons, len_cons. cbn. unfold sum_N in *. lia.
Qed.

Section totals.
Context {K V : Type} `{Countable K} `{OrdLaws K}.

Implicit Types (m : gmap K V) (w : V -> N).

Definition total_of w m : N := sum_N (w <$> bt_values m).

Lemma bt_values_perm m : bt_values m ≡ₚ (map_to_list m).*2.
Proof. unfold bt_values. by rewrite bt_entries_perm. Qed.

Lemma total_list w m : total_of w m = sum_N ((fun e => w e.2) <$> map_to_list m).
Proof. unfold total_of. rewrite bt_values_perm. by rewrite <- list_fmap_compose. Qed.

Lemma total_empty w : total_of w ∅ = 0.
Proof. by rewrite total_list, map_to_list_empty. Qed.

Lemma total_insert w m k v : m !! k = None -> total_of w (<[k := v]> m) = w v + total_of w m.
Proof. intros Hk. by rewrite !total_list, map_to_list_insert by done. Qed.

Lemma total_delete w m k v : m !! k = Some v -> total_of w m = w v + total_of w (delete k m).
Proof.
  intros Hk. rewrite <- (insert_delete_id m k v Hk) at 1.
  by rewrite total_insert by apply lookup_delete_eq.
Qed.

Lemma total_delete_le w m k : total_of w (delete k m) <= total_of w m.
Proof.
  destruct (m !! k) as [v|] eqn:E.
  - rewrite (total_delete w m k v E). lia.
  - by rewrite delete_id.
Qed.

(** Replacing a value. *)
Lemma total_update w m k v v' :
  m !! k = Some v -> total_of w (<[k := v']> m) + w v = total_of w m + w v'.
Proof.
  intros Hk. rewrite (total_delete w m k v Hk), <- insert_delete_eq.
  rewrite total_insert by apply lookup_delete_eq. lia.
Qed.

(** Dropping values, or replacing them by lighter ones. *)
Lemma total_omap_le w m (f : V -> option V) :
  (forall k v v', m !! k = Some v -> f v = Some v' -> w v' <= w v) ->
  total_of w (omap f m) <= total_of w m.
Proof.
  induction m as [|k v m Hk IH] using map_ind; intros Hf.
  { by rewrite omap_empty, !total_empty. }
  assert (total_of w (omap f m) <= total_of w m) as Hle.
  { apply IH. intros j u u' Hj. apply (Hf j). rewrite lookup_insert_ne by congruence. done. }
  rewrite (total_insert w m k v Hk). destruct (f v) as [v'|] eqn:E.
  - rewrite (omap_insert_Some f m k v v') by done.
    rewrite total_insert by (by rewrite lookup_omap, Hk).
    specialize (Hf k v v' ltac:(apply lookup_insert_eq) E). lia.
  - rewrite (omap_insert_None f m k v) by done. etrans; [apply total_delete_le|]. lia.
Qed.

Lemma total_filter_le w m (Q : K * V -> Prop) `{forall x, Decision (Q x)} :
  total_of w (filter Q m) <= total_of w m.
Proof.
  induction m as [|k v m Hk IH] using map_ind.
  { by rewrite map_filter_empty. }
  rewrite (total_insert w m k v Hk), map_filter_insert.
  destruct (decide (Q (k, v))).
  - rewrite total_insert; [lia|]. rewrite map_lookup_filter, Hk. done.
  - rewrite delete_id by done. lia.
Qed.

(** What is filtered out weighs nothing afterwards. *)
Lemma total_zero w m : map_Forall (fun _ v => w v = 0) m -> total_of w m = 0.
Proof.
  induction m as [|k v m Hk IH] using map_ind; intros Hm; [apply total_empty|].
  apply map_Forall_insert in Hm as [Hv Hm]; [|done]. rewrite total_insert, Hv, IH by done. done.
Qed.

Lemma len_filter_values (Q : V -> Prop) `{forall x, Decision (Q x)} m :
  len (filter Q (bt_values m)) = total_of (fun v => if decide (Q v) then 1 else 0) m.
Proof. apply len_filter. Qed.

Lemma sum_filter_values (Q : V -> Prop) `{forall x, Decision (Q x)} (f : V -> N) m :
  sum_N (f <$> filter Q (bt_values m)) = total_of (fun v => if decide (Q v) then f v else 0) m.
Proof. apply sum_N_filter. Qed.
End totals.
