(* ===== verification/Policy.v ===== *)
(** * Authorization policy (crates/bus-policy/src/lib.rs)

    Credentials, actions, the [Policy] trait as a type class with its
    implementations, the configuration file parser and the evaluation of
    ordered rules. *)

From S2P Require Export Protocol Strs.

Local Open Scope N_scope.

(** ** Data *)

(** The broker-verified identity; [pid], [uid] and [gid] are [u32]. *)
Record Credentials := {
  pid : N;
  uid : N;
  gid : N;
  executable : option bytes;
  security_label : option bytes;
  cgroup : option bytes;
}.

Inductive Action :=
| Action_Connect
| Action_ClaimNamespace (value : Namespace)
| Action_Subscribe (value : Channel)
| Action_Publish (value : Channel)
| Action_SendPeer (value : PeerId)
| Action_SendNamespace (value : Namespace)
| Action_SendClient (value : ClientId)
| Action_Broadcast
| Action_Acknowledge
| Action_Monitor
| Action_RegisterDbusName (value : bytes).

#[export] Instance Action_eq_dec : EqDecision Action.
Proof. solve_decision. Defined.

(** [Action::name]. *)
Definition Action_name (action : Action) : bytes :=
  match action with
  | Action_Connect => bs "connect"
  | Action_ClaimNamespace _ => bs "claim-namespace"
  | Action_Subscribe _ => bs "subscribe"
  | Action_Publish _ => bs "publish"
  | Action_SendPeer _ => bs "send-peer"
  | Action_SendNamespace _ => bs "send-namespace"
  | Action_SendClient _ => bs "send-client"
  | Action_Broadcast => bs "broadcast"
  | Action_Acknowledge => bs "acknowledge"
  | Action_Monitor => bs "monitor"
  | Action_RegisterDbusName _ => bs "register-dbus-name"
  end.

(** [Action::target]. *)
Definition Action_target (action : Action) : option bytes :=
  match action with
  | Action_ClaimNamespace value | Action_SendNamespace value => Some (Namespace_as_str value)
  | Action_Subscribe value | Action_Publish value => Some (Channel_as_str value)
  | Action_SendPeer value => Some (PeerId_to_string value)
  | Action_SendClient value => Some (ClientId_as_str value)
  | Action_RegisterDbusName value => Some value
  | Action_Connect | Action_Broadcast | Action_Acknowledge | Action_Monitor => None
  end.

(** The context of one decision. *)
Record Request := {
  credentials : Credentials;
  client_id : option ClientId;
  claimed_headers : Headers;
  action : Action;
}.

(** The trait [Policy]. *)
Class Policy (P : Type) := permits : P -> Request -> bool.

Inductive AllowAll := allow_all.
#[export] Instance AllowAll_policy : Policy AllowAll := fun _ _ => true.

(** [impl Policy for Box<T>]. *)
Record Box (T : Type) := box { unbox : T }.
Arguments box {T} _.
Arguments unbox {T} _.
#[export] Instance Box_policy {T} `{Policy T} : Policy (Box T) :=
  fun self request => permits (unbox self) request.

Inductive SafeDefaults := safe_defaults.
#[export] Instance SafeDefaults_policy : Policy SafeDefaults := fun _ request =>
  negb match action request with
       | Action_Broadcast | Action_Monitor | Action_RegisterDbusName _ => true
       | _ => false
       end.

(** ** Configured rules *)

Inductive Effect := Effect_Allow | Effect_Deny.

#[export] Instance Effect_eq_dec : EqDecision Effect.
Proof. solve_decision. Defined.

Record Rule := {
  rule_effect : option Effect;
  rule_actions : list bytes;
  rule_uid : option N;
  rule_gid : option N;
  rule_executable : option bytes;
  rule_security_label : option bytes;
  rule_cgroup : option bytes;
  rule_client_id : option bytes;
  rule_target : option bytes;
  rule_headers : gmap bytes bytes;
}.

Definition Rule_default : Rule := {|
  rule_effect := None;
  rule_actions := [];
  rule_uid := None;
  rule_gid := None;
  rule_executable := None;
  rule_security_label := None;
  rule_cgroup := None;
  rule_client_id := None;
  rule_target := None;
  rule_headers := ∅;
|}.

Record Config := {
  config_version : N;
  config_default : Effect;
  config_rules : list Rule;
}.

Definition Config_default : Config := {|
  config_version := 1;
  config_default := Effect_Deny;
  config_rules := [];
|}.

(** [Option::is_none_or]. *)
Definition is_none_or {A} (o : option A) (f : A -> bool) : bool :=
  match o with None => true | Some a => f a end.

Definition target_matches (selector : bytes) (target : option bytes) : bool :=
  match target with
  | None => false
  | Some target =>
      match strip_suffix x2a selector with
      | None => bool_decide (selector = target)
      | Some prefix => starts_with target prefix
      end
  end.

Definition rule_matches (rule : Rule) (request : Request) : bool :=
  (bool_decide (rule_actions rule = [])
   || existsb (fun a => bool_decide (a = Action_name (action request))) (rule_actions rule))
  && is_none_or (rule_uid rule) (fun u => u =? uid (credentials request))
  && is_none_or (rule_gid rule) (fun g => g =? gid (credentials request))
  && is_none_or (rule_executable rule) (fun v => bool_decide (executable (credentials request) = Some v))
  && is_none_or (rule_security_label rule)
       (fun v => bool_decide (security_label (credentials request) = Some v))
  && is_none_or (rule_cgroup rule) (fun v => bool_decide (cgroup (credentials request) = Some v))
  && is_none_or (rule_client_id rule)
       (fun v => match client_id request with
                 | Some id => bool_decide (ClientId_as_str id = v)
                 | None => false
                 end)
  && is_none_or (rule_target rule) (fun s => target_matches s (Action_target (action request)))
  && forallb
       (fun '(name, value) =>
          match claimed_headers request !! name with
          | Some (HeaderValue_Text actual) => bool_decide (actual = value)
          | _ => false
          end)
       (bt_entries (rule_headers rule)).

(** [ConfigPolicy]: a validated configuration. *)
Record ConfigPolicy := { config : Config }.

#[export] Instance ConfigPolicy_policy : Policy ConfigPolicy := fun self request =>
  bool_decide
    (default (config_default (config self))
       (rule ← find (fun rule => rule_matches rule request) (config_rules (config self));
        rule_effect rule) = Effect_Allow).

(** ** Parsing *)

Record ConfigError := { error_line : N; error_message : string }.

Definition parse_effect (value : bytes) (line : N) : result ConfigError Effect :=
  if bool_decide (value = bs "allow") then Ok Effect_Allow
  else if bool_decide (value = bs "deny") then Ok Effect_Deny
  else Err {| error_line := line; error_message := "effect must be allow or deny" |}.

Definition parse_number (value : bytes) (line : N) (name : string) : result ConfigError N :=
  ok_or {| error_line := line; error_message := name +:+ " must be an unsigned integer" |}
    (parse_unsigned u32_max value).

(** [value[1..value.len() - 1]] of a text that starts and ends with a quote. *)
Definition unquote (value : bytes) (line : N) : result ConfigError bytes :=
  if starts_with value [x22] || ends_with value x22 then
    if (len value <? 2) || negb (starts_with value [x22]) || negb (ends_with value x22)
    then Err {| error_line := line; error_message := "strings must use matching double quotes" |}
    else Ok (take (length value - 2) (drop 1 value))
  else Ok value.

Definition known_actions : list bytes :=
  [bs "connect"; bs "claim-namespace"; bs "subscribe"; bs "publish"; bs "send-peer";
   bs "send-namespace"; bs "send-client"; bs "broadcast"; bs "acknowledge"; bs "monitor";
   bs "register-dbus-name"].

Definition validation_error (message : string) : ConfigError :=
  {| error_line := 0; error_message := message |}.

Definition validate_rule (rule : Rule) : result ConfigError () :=
  match rule_effect rule with
  | None => Err (validation_error "every rule requires an effect")
  | Some _ =>
      if forallb (fun a => existsb (fun k => bool_decide (a = k)) known_actions) (rule_actions rule)
      then Ok ()
      else Err (validation_error "unknown action")
  end.

Fixpoint validate_rules (rules : list Rule) : result ConfigError () :=
  match rules with
  | [] => Ok ()
  | rule :: rules => _ ← validate_rule rule; validate_rules rules
  end.

Definition validate_config (config : Config) : result ConfigError () :=
  if negb (config_version config =? 1) then Err (validation_error "unsupported policy version")
  else validate_rules (config_rules config).

(** The parser's state: the configuration so far and the open rule. *)
Record Parser := { p_config : Config; p_rule : option Rule }.

Definition push_rule (config : Config) (rule : Rule) : Config := {|
  config_version := config_version config;
  config_default := config_default config;
  config_rules := config_rules config ++ [rule];
|}.

(** [line.split_once('#').map_or(line, |(line, _)| line).trim()]. *)
Definition significant (raw_line : bytes) : bytes :=
  trim match split_once x23 raw_line with Some (line, _) => line | None => raw_line end.

(** The [actions] value: comma-separated, trimmed, empty items dropped. *)
Definition parse_actions (value : bytes) : list bytes :=
  filter (fun item => item <> []) (trim <$> split x2c value).

(** The top-level keys. *)
Definition parse_top_level (config : Config) (key value : bytes) (line : N)
    : result ConfigError Config :=
  if bool_decide (key = bs "version") then
    version ← ok_or {| error_line := line; error_message := "version must be an integer" |}
                (parse_unsigned u8_max value);
    Ok {| config_version := version; config_default := config_default config;
          config_rules := config_rules config |}
  else if bool_decide (key = bs "default") then
    effect ← parse_effect value line;
    Ok {| config_version := config_version config; config_default := effect;
          config_rules := config_rules config |}
  else Err {| error_line := line; error_message := "unknown top-level key" |}.

(** The keys inside a rule, in the order of the source's match arms. *)
Definition parse_rule_key (r : Rule) (key value : bytes) (line : N) : result ConfigError Rule :=
  let '(Build_Rule ef ac u g ex sl cg ci ta hd) := r in
  if bool_decide (key = bs "effect") then
    effect ← parse_effect value line;
    Ok (Build_Rule (Some effect) ac u g ex sl cg ci ta hd)
  else if bool_decide (key = bs "actions") then
    Ok (Build_Rule ef (parse_actions value) u g ex sl cg ci ta hd)
  else if bool_decide (key = bs "uid") then
    number ← parse_number value line "uid";
    Ok (Build_Rule ef ac (Some number) g ex sl cg ci ta hd)
  else if bool_decide (key = bs "gid") then
    number ← parse_number value line "gid";
    Ok (Build_Rule ef ac u (Some number) ex sl cg ci ta hd)
  else if bool_decide (key = bs "executable") then
    Ok (Build_Rule ef ac u g (Some value) sl cg ci ta hd)
  else if bool_decide (key = bs "security-label") then
    Ok (Build_Rule ef ac u g ex (Some value) cg ci ta hd)
  else if bool_decide (key = bs "cgroup") then
    Ok (Build_Rule ef ac u g ex sl (Some value) ci ta hd)
  else if bool_decide (key = bs "client-id") then
    Ok (Build_Rule ef ac u g ex sl cg (Some value) ta hd)
  else if bool_decide (key = bs "target") then
    Ok (Build_Rule ef ac u g ex sl cg ci (Some value) hd)
  else if starts_with key (bs "header.") then
    let name := trim_start_matches (bs "header.") key in
    if bool_decide (name = [])
    then Err {| error_line := line; error_message := "header selector needs a name" |}
    else Ok (Build_Rule ef ac u g ex sl cg ci ta (<[name := value]> hd))
  else Err {| error_line := line; error_message := "unknown rule key" |}.

(** The body of the loop over the input's lines. *)
Definition parse_line (parser : Parser) (line_number : N) (raw_line : bytes)
    : result ConfigError Parser :=
  let line := significant raw_line in
  if bool_decide (line = []) then Ok parser
  else if bool_decide (line = bs "[[rule]]") then
    Ok {| p_config := match p_rule parser with
                      | Some rule => push_rule (p_config parser) rule
                      | None => p_config parser
                      end;
          p_rule := Some Rule_default |}
  else
    match split_once x3d line with
    | None => Err {| error_line := line_number; error_message := "expected key = value" |}
    | Some (key, raw_value) =>
        let key := trim key in
        value ← unquote (trim raw_value) line_number;
        match p_rule parser with
        | None =>
            config ← parse_top_level (p_config parser) key value line_number;
            Ok {| p_config := config; p_rule := None |}
        | Some rule =>
            rule ← parse_rule_key rule key value line_number;
            Ok {| p_config := p_config parser; p_rule := Some rule |}
        end
    end.

Fixpoint parse_lines (parser : Parser) (line_number : N) (raw_lines : list bytes)
    : result ConfigError Parser :=
  match raw_lines with
  | [] => Ok parser
  | raw_line :: raw_lines =>
      parser ← parse_line parser line_number raw_line;
      parse_lines parser (line_number + 1) raw_lines
  end.

(** [Config::parse]. *)
Definition Config_parse (input : bytes) : result ConfigError Config :=
  parser ← parse_lines {| p_config := Config_default; p_rule := None |} 1 (lines input);
  let config := match p_rule parser with
                | Some rule => push_rule (p_config parser) rule
                | None => p_config parser
                end in
  _ ← validate_config config;
  Ok config.

(** [ConfigPolicy::new] and [ConfigPolicy::parse]. *)
Definition ConfigPolicy_new (c : Config) : result ConfigError ConfigPolicy :=
  _ ← validate_config c; Ok {| config := c |}.

Definition ConfigPolicy_parse (input : bytes) : result ConfigError ConfigPolicy :=
  c ← Config_parse input; ConfigPolicy_new c.

(** [Display for ConfigError]. *)
Definition ConfigError_to_string (e : ConfigError) : bytes :=
  if error_line e =? 0 then bs (error_message e)
  else bs "policy line " ++ dec (error_line e) ++ bs ": " ++ bs (error_message e).

(** ** The policy of the parser's test suite *)

Definition newline : bytes := [x0a].
Definition policy_example : bytes :=
  join x0a [bs "version = 1"; bs "default = deny"; bs ""; bs "[[rule]]"; bs "effect = deny";
    bs "actions = claim-namespace"; bs "target = bus://system*"; bs ""; bs "[[rule]]";
    bs "effect = allow # trailing comment"; bs "actions = claim-namespace"; bs "uid = 0"; bs ""].

Definition root_credentials : Credentials := {|
  pid := 1; uid := 0; gid := 0; executable := None; security_label := None; cgroup := None |}.

Definition claim_request (namespace : bytes) : Request := {|
  credentials := root_credentials;
  client_id := Some (ClientId_of (bs "worker"));
  claimed_headers := ∅;
  action := Action_ClaimNamespace (Namespace_of namespace);
|}.

Example policy_example_decisions :
  match ConfigPolicy_parse policy_example with
  | Ok p => permits p (claim_request (bs "bus://systemd")) = false /\
            permits p (claim_request (bs "bus://user-service")) = true
  | _ => False
  end.
Proof. vm_compute. by split. Qed.
