(* ===== verification/PolicyFacts.v ===== *)
(** * What the policy engine guarantees

    Evaluation of a configured policy is the documented first-match decision
    over its rules with the configured default; a parsed configuration is
    valid; decisions without claimed selectors depend only on authenticated
    identity. *)

From S2P Require Export Policy.

Local Open Scope N_scope.

(** ** Declarative selectors *)

(** A selector constrains a request only when it is populated. *)
Definition demands {A} (o : option A) (P : A -> Prop) : Prop := forall a, o = Some a -> P a.

Lemma is_none_or_iff {A} (o : option A) f (P : A -> Prop) :
  (forall a, f a = true <-> P a) -> is_none_or o f = true <-> demands o P.
Proof.
  intros Hf. unfold demands. destruct o as [a|]; cbn; [|by split].
  rewrite Hf. split; [by intros ? ? [= <-] | auto].
Qed.

(** A selector ending in [*] is a prefix, any other is exact; an action
    without a target never matches. *)
Definition target_selected (selector : bytes) (target : option bytes) : Prop :=
  exists t, target = Some t /\
    (t = selector /\ (forall p, selector <> p ++ bs "*") \/
     exists p r, selector = p ++ bs "*" /\ t = p ++ r).

Lemma target_matches_iff selector target :
  target_matches selector target = true <-> target_selected selector target.
Proof.
  unfold target_matches, target_selected. destruct target as [t|]; [|naive_solver].
  destruct (strip_suffix x2a selector) as [p|] eqn:E.
  - apply strip_suffix_Some in E as ->. rewrite starts_with_iff. split.
    + intros [r ->]. exists (p ++ r). split; [done|]. right. by exists p, r.
    + intros (t' & [= <-] & [[_ Hn]|(p' & r & Heq & ->)]); [by destruct (Hn p)|].
      apply app_inj_2 in Heq as [-> _]; [by exists r | done].
  - assert (forall p, selector <> p ++ bs "*") as Hn.
    { intros p Hp. pose proof (proj2 (strip_suffix_Some x2a selector p) Hp). congruence. }
    rewrite bool_decide_eq_true. split.
    + intros ->. exists t. by split; [|left].
    + intros (t' & [= <-] & [[-> _]|(p & r & Heq & _)]); [done|]. by destruct (Hn p).
Qed.

(** Every populated selector of the rule holds of the request. *)
Record selects (rule : Rule) (request : Request) : Prop := {
  selects_action : rule_actions rule = [] \/ Action_name (action request) ∈ rule_actions rule;
  selects_uid : demands (rule_uid rule) (fun u => uid (credentials request) = u);
  selects_gid : demands (rule_gid rule) (fun g => gid (credentials request) = g);
  selects_executable :
    demands (rule_executable rule) (fun v => executable (credentials request) = Some v);
  selects_security_label :
    demands (rule_security_label rule) (fun v => security_label (credentials request) = Some v);
  selects_cgroup : demands (rule_cgroup rule) (fun v => cgroup (credentials request) = Some v);
  selects_client_id :
    demands (rule_client_id rule) (fun v => client_id request = Some (ClientId_of v));
  selects_target :
    demands (rule_target rule) (fun s => target_selected s (Action_target (action request)));
  selects_headers : forall name value, rule_headers rule !! name = Some value ->
    claimed_headers request !! name = Some (HeaderValue_Text value);
}.

Lemma rule_matches_iff rule request : rule_matches rule request = true <-> selects rule request.
Proof.
  unfold rule_matches. rewrite !andb_true_iff, orb_true_iff, bool_decide_eq_true.
  rewrite existsb_exists, forallb_forall.
  rewrite !(is_none_or_iff _ (fun v => bool_decide (_ = Some v)) _ (fun v => bool_decide_eq_true _)).
  rewrite (is_none_or_iff (rule_uid rule) _ (fun u => uid (credentials request) = u))
    by (intros; rewrite N.eqb_eq; split; congruence).
  rewrite (is_none_or_iff (rule_gid rule) _ (fun u => gid (credentials request) = u))
    by (intros; rewrite N.eqb_eq; split; congruence).
  rewrite (is_none_or_iff (rule_target rule) _ (fun s => target_selected s (Action_target (action request))))
    by (intros; apply target_matches_iff).
  rewrite (is_none_or_iff (rule_client_id rule) _ (fun v => client_id request = Some (ClientId_of v))).
  2: { intros v. destruct (client_id request) as [[t]|]; cbn; [|by split].
       rewrite bool_decide_eq_true. split; [by intros -> | by intros [= ->]]. }
  setoid_rewrite bool_decide_eq_true.
  assert (forall (P : bytes * bytes -> Prop),
    (forall x, In x (bt_entries (rule_headers rule)) -> P x) <->
    (forall name value, rule_headers rule !! name = Some value -> P (name, value))) as Hh.
  { intros P. split.
    - intros H name value Hv. by apply H, list_elem_of_In, elem_of_bt_entries.
    - intros H [name value] Hin%list_elem_of_In%elem_of_bt_entries. by apply H. }
  rewrite Hh.
  assert ((exists x, In x (rule_actions rule) /\ x = Action_name (action request)) <->
          Action_name (action request) ∈ rule_actions rule) as Ha.
  { rewrite list_elem_of_In. naive_solver. }
  assert (forall name value : bytes,
    (match claimed_headers request !! name with
     | Some (HeaderValue_Text actual) => bool_decide (actual = value)
     | _ => false
     end = true) <-> claimed_headers request !! name = Some (HeaderValue_Text value)) as Hv.
  { intros name value. destruct (claimed_headers request !! name) as [[t| | |]|]; try (by split).
    rewrite bool_decide_eq_true. split; [by intros -> | by intros [= ->]]. }
  rewrite Ha. setoid_rewrite Hv. split; [|by intros []].
  intros ((((((((? & ?) & ?) & ?) & ?) & ?) & ?) & ?) & ?). by constructor.
Qed.

(** ** The decision procedure *)

(** The documented decision: the first rule that selects the request decides,
    and the default decides when there is none. *)
Inductive decision (fallback : Effect) (request : Request) : list Rule -> Effect -> Prop :=
| decision_default : decision fallback request [] fallback
| decision_match rule rules effect :
    selects rule request -> rule_effect rule = Some effect ->
    decision fallback request (rule :: rules) effect
| decision_skip rule rules effect :
    ~ selects rule request -> decision fallback request rules effect ->
    decision fallback request (rule :: rules) effect.

Lemma decision_functional d request rules e1 e2 :
  decision d request rules e1 -> decision d request rules e2 -> e1 = e2.
Proof. induction 1; inversion 1; simplify_eq; try done; auto. Qed.

(** What [validate_config] establishes. *)
Definition valid_rule (rule : Rule) : Prop :=
  is_Some (rule_effect rule) /\ Forall (fun a => a ∈ known_actions) (rule_actions rule).
Definition valid_config (c : Config) : Prop :=
  config_version c = 1 /\ Forall valid_rule (config_rules c).

Lemma validate_rule_spec rule :
  match validate_rule rule with
  | Ok _ => valid_rule rule
  | Err e => ~ valid_rule rule /\ error_line e = 0
  | Panic => False
  end.
Proof.
  unfold validate_rule, valid_rule. destruct (rule_effect rule) as [e|].
  - assert (forallb (fun a => existsb (fun k => bool_decide (a = k)) known_actions)
              (rule_actions rule) = true <->
            Forall (fun a => a ∈ known_actions) (rule_actions rule)) as Hall.
    { rewrite forallb_forall, Forall_forall. setoid_rewrite list_elem_of_In.
      setoid_rewrite existsb_exists. setoid_rewrite bool_decide_eq_true. naive_solver. }
    destruct (forallb _ _); [by split; [|apply Hall]|]. split; [|done].
    intros [_ H%Hall]. done.
  - split; [|done]. intros [[? ?] _]. done.
Qed.

Lemma validate_config_spec c :
  match validate_config c with
  | Ok _ => valid_config c
  | Err e => ~ valid_config c /\ error_line e = 0
  | Panic => False
  end.
Proof.
  unfold validate_config, valid_config.
  destruct (N.eqb_spec (config_version c) 1) as [Hv|Hv]; cbn [negb]; [|by split; [intros []|]].
  induction (config_rules c) as [|r rs IH]; cbn [validate_rules]; [done|].
  pose proof (validate_rule_spec r) as Hr. unfold mbind, result_bind.
  destruct (validate_rule r) as [[]|e|]; [|split; [|tauto]; by intros [_ [? ?]%Forall_cons]; tauto|done].
  destruct (validate_rules rs); rewrite ?Forall_cons; tauto.
Qed.

Lemma permits_decision (p : ConfigPolicy) request :
  valid_config (config p) ->
  exists effect,
    decision (config_default (config p)) request (config_rules (config p)) effect /\
    permits p request = bool_decide (effect = Effect_Allow).
Proof.
  intros [_ Hrules]. unfold permits, ConfigPolicy_policy.
  induction Hrules as [|rule rules [[e He] _] _ IH].
  - exists (config_default (config p)). split; [constructor | done].
  - cbn [find]. destruct (rule_matches rule request) eqn:Hm.
    + exists e. rewrite rule_matches_iff in Hm. split; [by apply decision_match|].
      cbn. by rewrite He.
    + destruct IH as (effect & Hd & Hp). exists effect. split; [|done].
      apply decision_skip; [|done]. rewrite <- rule_matches_iff. congruence.
Qed.

(** ** What the parser establishes *)

Definition valid_selectors (rule : Rule) : Prop :=
  demands (rule_uid rule) (fun u => u <= u32_max) /\
  demands (rule_gid rule) (fun g => g <= u32_max).

(** The parser's state while it runs, and the bound on the lines it blames. *)
Definition parser_ok (p : Parser) : Prop :=
  config_version (p_config p) <= u8_max /\ Forall valid_selectors (config_rules (p_config p)) /\
  demands (p_rule p) valid_selectors.

Lemma parse_number_spec value line name :
  match parse_number value line name with
  | Ok n => n <= u32_max
  | Err e => error_line e = line
  | Panic => False
  end.
Proof.
  unfold parse_number. destruct (parse_unsigned u32_max value) eqn:E; cbn; [|done].
  by eapply parse_unsigned_bound.
Qed.

Lemma parse_effect_spec value line :
  match parse_effect value line with
  | Ok _ => True
  | Err e => error_line e = line
  | Panic => False
  end.
Proof. unfold parse_effect. repeat destruct (bool_decide _); done. Qed.

Lemma unquote_spec value line :
  match unquote value line with
  | Ok _ => True
  | Err e => error_line e = line
  | Panic => False
  end.
Proof. unfold unquote. destruct (_ || _); [|done]. by destruct (_ || _). Qed.

Ltac parse_step :=
  match goal with
  | |- context [if ?b then _ else _] => destruct b
  | |- context [parse_effect ?v ?l] =>
      pose proof (parse_effect_spec v l); destruct (parse_effect v l)
  | |- context [parse_number ?v ?l ?n] =>
      pose proof (parse_number_spec v l n); destruct (parse_number v l n)
  end; unfold mbind, result_bind; cbn.

Lemma parse_rule_key_spec r key value line :
  valid_selectors r ->
  match parse_rule_key r key value line with
  | Ok r' => valid_selectors r'
  | Err e => error_line e = line
  | Panic => False
  end.
Proof.
  intros Hr. destruct r as [ef ac u g ex sl cg ci ta hd]. unfold parse_rule_key.
  repeat parse_step; try done; unfold valid_selectors, demands in *; cbn in *; naive_solver.
Qed.

Lemma parse_top_level_spec c key value line :
  match parse_top_level c key value line with
  | Ok c' => config_rules c' = config_rules c /\
             (config_version c <= u8_max -> config_version c' <= u8_max)
  | Err e => error_line e = line
  | Panic => False
  end.
Proof.
  unfold parse_top_level. destruct (bool_decide _).
  - destruct (parse_unsigned u8_max value) eqn:E; cbn; [|done].
    split; [done|]. intros _. by eapply parse_unsigned_bound.
  - repeat parse_step; done.
Qed.

Lemma push_rule_ok c r :
  config_version c <= u8_max -> Forall valid_selectors (config_rules c) -> valid_selectors r ->
  config_version (push_rule c r) <= u8_max /\ Forall valid_selectors (config_rules (push_rule c r)).
Proof. intros. split; [done|]. cbn. by rewrite Forall_app, Forall_singleton. Qed.

Lemma parse_line_spec p n raw :
  parser_ok p ->
  match parse_line p n raw with
  | Ok p' => parser_ok p'
  | Err e => error_line e = n
  | Panic => False
  end.
Proof.
  intros (Hv & Hr & Ho). unfold parse_line. destruct (bool_decide _); [done|].
  destruct (bool_decide _).
  { assert (demands (Some Rule_default) valid_selectors) as Hd by by intros r [= <-].
    destruct (p_rule p) as [r|]; [|by split; [|split]].
    destruct (push_rule_ok (p_config p) r Hv Hr (Ho r eq_refl)) as [? ?]. by split; [|split]. }
  destruct (split_once _ _) as [[key raw_value]|]; [|done].
  pose proof (unquote_spec (trim raw_value) n). unfold mbind, result_bind.
  destruct (unquote (trim raw_value) n) as [v| |]; [|done..].
  destruct (p_rule p) as [r|] eqn:E.
  - pose proof (parse_rule_key_spec r (trim key) v n (Ho r eq_refl)).
    destruct (parse_rule_key r (trim key) v n); [|done..]. split; [done|]. split; [done|].
    by intros r' [= <-].
  - pose proof (parse_top_level_spec (p_config p) (trim key) v n) as Ht.
    destruct (parse_top_level (p_config p) (trim key) v n); [|done..].
    destruct Ht as [Hrs Hvs]. split; [by apply Hvs|]. split; [by cbn; rewrite Hrs | done].
Qed.

Lemma parse_lines_spec raw p n :
  parser_ok p ->
  match parse_lines p n raw with
  | Ok p' => parser_ok p'
  | Err e => n <= error_line e < n + len raw
  | Panic => False
  end.
Proof.
  revert p n. induction raw as [|l raw IH]; intros p n Hp; cbn [parse_lines]; [done|].
  pose proof (parse_line_spec p n l Hp) as Hl. unfold mbind, result_bind. rewrite len_cons.
  destruct (parse_line p n l) as [p'|e|]; [|lia|done].
  specialize (IH p' (n + 1) Hl). destruct (parse_lines p' (n + 1) raw); [done|lia|done].
Qed.

Lemma Config_parse_spec input :
  match Config_parse input with
  | Ok c => valid_config c /\ Forall valid_selectors (config_rules c)
  | Err e => error_line e <= len (lines input)
  | Panic => False
  end.
Proof.
  unfold Config_parse.
  pose proof (parse_lines_spec (lines input) {| p_config := Config_default; p_rule := None |} 1) as Hl.
  unfold mbind, result_bind.
  destruct (parse_lines _ 1 (lines input)) as [p|e|].
  - assert (parser_ok p) as (_ & Hrs & Ho) by (apply Hl; split; [done|]; by split; [constructor|]).
    set (c := match p_rule p with Some rule => push_rule (p_config p) rule | None => p_config p end).
    assert (Forall valid_selectors (config_rules c)) as Hc.
    { subst c. destruct (p_rule p) as [r|]; [|done]. cbn. rewrite Forall_app, Forall_singleton. auto. }
    pose proof (validate_config_spec c) as Hv. destruct (validate_config c); [done|lia|done].
  - assert (1 <= error_line e < 1 + len (lines input)) as He
      by (apply Hl; split; [done|]; by split; [constructor|]).
    lia.
  - apply Hl. split; [done|]. by split; [constructor|].
Qed.

(** ** The contract *)

(** Whatever text a policy file holds, parsing it ends in a configuration
    or an error and never panics.  An accepted configuration is version 1, each
    of its rules has an effect and only known actions, and its user and group
    identifiers fit 32 bits; an error names a line of the file, or line 0 for a
    failed validation. *)
Theorem policy_parse_valid input :
  match ConfigPolicy_parse input with
  | Ok p => Config_parse input = Ok (config p) /\ valid_config (config p) /\
            Forall valid_selectors (config_rules (config p))
  | Err e => Config_parse input = Err e /\ error_line e <= len (lines input)
  | Panic => False
  end.
Proof.
  unfold ConfigPolicy_parse, ConfigPolicy_new. pose proof (Config_parse_spec input) as Hp.
  unfold mbind, result_bind. destruct (Config_parse input) as [c|e|]; [|done..].
  destruct Hp as [Hv Hs]. pose proof (validate_config_spec c) as Hc.
  destruct (validate_config c); [done | tauto | done].
Qed.

(** ** Where an error is *)

Definition initial_parser : Parser := {| p_config := Config_default; p_rule := None |}.

(** The configuration at the end of the file: the open rule is closed. *)
Definition finished (parser : Parser) : Config :=
  match p_rule parser with Some rule => push_rule (p_config parser) rule | None => p_config parser end.

Lemma initial_parser_ok : parser_ok initial_parser.
Proof. split; [done|]. by split; [constructor|]. Qed.

Lemma parse_lines_error raw p n e :
  parse_lines p n raw = Err e ->
  exists before line after q, raw = before ++ line :: after /\ parse_lines p n before = Ok q /\
    parse_line q (n + len before) line = Err e.
Proof.
  revert p n. induction raw as [|l raw IH]; intros p n; cbn [parse_lines]; [done|].
  unfold mbind, result_bind. destruct (parse_line p n l) as [q|e'|] eqn:El; [|intros [= ->]|done].
  - intros (before & line & after & q' & -> & Hb & He)%IH. exists (l :: before), line, after, q'.
    split; [done|]. cbn [parse_lines]. unfold mbind, result_bind. rewrite El, len_cons.
    split; [done|]. by replace (n + (1 + len before)) with (n + 1 + len before) by lia.
  - exists [], l, raw, p. split; [done|]. split; [done|]. by rewrite ?len_nil, N.add_0_r.
Qed.

(** An error of a line is the outcome whatever follows the line. *)
Lemma parse_lines_fails before line after p q n e :
  parse_lines p n before = Ok q -> parse_line q (n + len before) line = Err e ->
  parse_lines p n (before ++ line :: after) = Err e.
Proof.
  revert p n. induction before as [|l before IH]; intros p n; cbn [parse_lines app].
  - intros [= ->]. rewrite ?len_nil, N.add_0_r. unfold mbind, result_bind. by intros ->.
  - unfold mbind, result_bind. destruct (parse_line p n l) as [p'| |]; [|done..]. rewrite len_cons.
    intros Hb He. apply IH; [done|]. by replace (n + 1 + len before) with (n + (1 + len before)) by lia.
Qed.

Lemma Config_parse_eq input :
  Config_parse input =
    (parser ← parse_lines initial_parser 1 (lines input);
     _ ← validate_config (finished parser); Ok (finished parser)).
Proof. done. Qed.

(** C34: an error in a policy file is reported where it is, and whatever is wrong
    is reported.  Parsing any text ends, without a panic, in one of three ways.
    It is accepted: all of its lines parse and the configuration they make is
    valid.  It is rejected with a line number: that line exists, the lines before
    it parse, the line itself is what fails after them, and no change to the
    lines that follow makes a difference.  Or it is rejected with line number 0:
    every line parses, and the configuration they make is not valid. *)
Theorem policy_errors_located input :
  match ConfigPolicy_parse input with
  | Ok p => exists parser, parse_lines initial_parser 1 (lines input) = Ok parser /\
      config p = finished parser /\ valid_config (config p)
  | Err e =>
      (error_line e = 0 /\ exists parser, parse_lines initial_parser 1 (lines input) = Ok parser /\
         ~ valid_config (finished parser)) \/
      exists before line after parser,
        lines input = before ++ line :: after /\ error_line e = len before + 1 /\
        parse_lines initial_parser 1 before = Ok parser /\
        parse_line parser (error_line e) line = Err e /\
        forall input' after', lines input' = before ++ line :: after' -> ConfigPolicy_parse input' = Err e
  | Panic => False
  end.
Proof.
  pose proof (policy_parse_valid input) as Hv. unfold ConfigPolicy_parse, mbind, result_bind in *.
  rewrite Config_parse_eq in *. unfold mbind, result_bind in *.
  destruct (parse_lines initial_parser 1 (lines input)) as [parser|e|] eqn:El; [| |done].
  - pose proof (validate_config_spec (finished parser)) as Hf.
    destruct (validate_config (finished parser)) as [[]|e|] eqn:Ev; [| |done].
    + unfold ConfigPolicy_new, mbind, result_bind in *. rewrite Ev in *. cbn in *. by exists parser.
    + destruct Hf as [Hf He]. left. split; [done|]. by exists parser.
  - right. destruct (parse_lines_error _ _ _ _ El) as (before & line & after & q & Hl & Hb & He).
    pose proof (parse_lines_spec before initial_parser 1 initial_parser_ok) as Hq. rewrite Hb in Hq.
    pose proof (parse_line_spec q (1 + len before) line Hq) as Hn. rewrite He in Hn.
    exists before, line, after, q. split; [done|]. split; [lia|]. split; [done|]. split; [by rewrite Hn|].
    intros input' after' Hl'. by rewrite Config_parse_eq, Hl', (parse_lines_fails _ _ _ _ _ _ _ Hb He).
Qed.

(** C30: a loaded policy permits a request exactly when the documented decision
    is [allow]: the first rule whose populated selectors (actions, user, group,
    executable, label, cgroup, client identifier, target prefix, claimed
    headers) all hold decides, and the configured default decides otherwise. *)
Theorem policy_first_match input p request :
  ConfigPolicy_parse input = Ok p ->
  permits p request = true <->
  decision (config_default (config p)) request (config_rules (config p)) Effect_Allow.
Proof.
  intros Hp. pose proof (Config_parse_spec input) as Hs. unfold ConfigPolicy_parse in Hp.
  destruct (Config_parse input) as [c| |]; [|done..]. cbn in Hp. unfold ConfigPolicy_new in Hp.
  destruct (validate_config c); cbn in Hp; [|done..]. injection Hp as <-.
  destruct (permits_decision {| config := c |} request (proj1 Hs)) as (e & Hd & ->).
  cbn in *. rewrite bool_decide_eq_true. split; [by intros <-|].
  intros Hd'. by eapply decision_functional.
Qed.

Definition parsed_example : ConfigPolicy :=
  match ConfigPolicy_parse policy_example with Ok p => p | _ => {| config := Config_default |} end.

Lemma policy_first_match_witness :
  ConfigPolicy_parse policy_example = Ok parsed_example /\
  decision (config_default (config parsed_example)) (claim_request (bs "bus://user-service"))
    (config_rules (config parsed_example)) Effect_Allow.
Proof.
  split; [by vm_compute|].
  refine (proj1 (policy_first_match policy_example parsed_example _ _) _); by vm_compute.
Defined.

(** Rules that only use authenticated metadata. *)
Definition authenticated_only (rule : Rule) : Prop :=
  rule_client_id rule = None /\ rule_headers rule = ∅.

Lemma authenticated_only_matches rule c a id1 id2 h1 h2 :
  authenticated_only rule ->
  rule_matches rule (Build_Request c id1 h1 a) = rule_matches rule (Build_Request c id2 h2 a).
Proof.
  intros [Hc Hh]. unfold rule_matches. rewrite Hc, Hh. cbn. by rewrite !andb_true_r.
Qed.

(** Claimed metadata cannot influence a policy that does not ask for it.
    When no rule selects on the client identifier or on headers, two requests
    with the same authenticated credentials and the same action get the same
    decision, whatever the client claims about itself. *)
Theorem policy_ignores_claims (p : ConfigPolicy) c a id1 id2 h1 h2 :
  Forall authenticated_only (config_rules (config p)) ->
  permits p (Build_Request c id1 h1 a) = permits p (Build_Request c id2 h2 a).
Proof.
  intros Hrules. unfold permits, ConfigPolicy_policy. do 2 f_equal.
  induction Hrules as [|rule rules Hr _ IH]; [done|]. cbn [find].
  rewrite (authenticated_only_matches rule c a id1 id2 h1 h2 Hr).
  by destruct (rule_matches rule _).
Qed.

Lemma policy_ignores_claims_witness :
  Forall authenticated_only (config_rules (config parsed_example)) /\
  permits parsed_example (Build_Request root_credentials None ∅ Action_Broadcast) =
  permits parsed_example
    (Build_Request root_credentials (Some (ClientId_of (bs "admin")))
       {[ bs "role" := HeaderValue_Text (bs "root") ]} Action_Broadcast).
Proof.
  assert (Forall authenticated_only (config_rules (config parsed_example))) as H
    by (vm_compute; repeat constructor).
  split; [exact H|]. apply policy_ignores_claims. exact H.
Defined.
