(* ===== verification/PolicyText.v ===== *)
(** * Writing a policy down

    A canonical text for every configuration whose values a policy file can hold,
    and the proof that parsing it gives the configuration back. *)

From Stdlib Require DecimalN.
From S2P Require Export PolicyFacts.

Local Open Scope N_scope.

(** ** Trimming *)

Lemma graphic_prefix b s : is_ascii_graphic b = true -> white_space_prefix (b :: s) = 0%nat.
Proof. intros Hb. destruct b; try discriminate Hb; reflexivity. Qed.

Lemma graphic_suffix d r : is_ascii_graphic d = true -> white_space_suffix (d :: r) = 0%nat.
Proof.
  intros Hd. cbn [white_space_suffix].
  assert (in_range d 0x09 0x0d || byte_eqb d x20 = false) as -> by (destruct d; (discriminate Hd || reflexivity)).
  destruct r as [|c r]; [done|].
  assert (Nat.eqb (white_space_prefix [c; d]) 2 = false) as ->.
  { destruct c; try reflexivity; destruct d; (discriminate Hd || reflexivity). }
  destruct r as [|b r]; [done|].
  assert (Nat.eqb (white_space_prefix [b; c; d]) 3 = false) as ->; [|done].
  destruct b; try reflexivity; destruct c; try reflexivity; destruct d; (discriminate Hd || reflexivity).
Qed.

(** A text that starts and ends with graphic characters. *)
Definition solid (s : bytes) : Prop :=
  match head s, last s with
  | Some a, Some z => is_ascii_graphic a = true /\ is_ascii_graphic z = true
  | _, _ => False
  end.

Lemma trim_start_solid s : solid s -> trim_start s = s.
Proof.
  unfold solid, trim_start. destruct s as [|a s]; [done|]. cbn [head length trim_start_fuel].
  destruct (last (a :: s)); [|done]. intros [Ha _]. by rewrite graphic_prefix.
Qed.

Lemma trim_end_solid s : solid s -> trim_end s = s.
Proof.
  unfold solid, trim_end. destruct (head s) as [a|] eqn:Eh; [|done].
  induction s as [|z s _] using rev_ind; [done|]. rewrite last_snoc. intros [_ Hz].
  rewrite length_app, reverse_app, Nat.add_comm. cbn [length Nat.add trim_end_fuel].
  change (reverse [z] ++ reverse s) with (z :: reverse s). rewrite graphic_suffix by done.
  by rewrite reverse_cons, reverse_involutive.
Qed.

Lemma trim_solid s : solid s -> trim s = s.
Proof. intros Hs. unfold trim. by rewrite trim_start_solid, trim_end_solid. Qed.

Lemma trim_space_before s : solid s -> trim (x20 :: s) = s.
Proof.
  intros Hs. unfold trim. assert (trim_start (x20 :: s) = trim_start s) as ->; [done|by apply trim_solid].
Qed.

Lemma trim_space_after s : solid s -> trim (s ++ [x20]) = s.
Proof.
  intros Hs. unfold trim.
  assert (trim_start (s ++ [x20]) = s ++ [x20]) as ->.
  { unfold solid, trim_start in *. destruct s as [|a s]; [done|].
    cbn [head length app trim_start_fuel] in *. destruct (last (a :: s)); [|done].
    destruct Hs as [Ha _]. by rewrite graphic_prefix. }
  assert (trim_end (s ++ [x20]) = trim_end s) as ->; [|by apply trim_end_solid].
  unfold trim_end. rewrite length_app, reverse_app, Nat.add_comm. cbn [length Nat.add trim_end_fuel].
  change (reverse [x20] ++ reverse s) with (x20 :: reverse s).
  done.
Qed.

Lemma trim_nil : trim [] = [].
Proof. done. Qed.

(** ** Splitting and unquoting *)

Lemma split_line key value :
  x3d ∉ key -> split_once x3d (key ++ x20 :: x3d :: value) = Some (key ++ [x20], value).
Proof.
  intros Hk. apply split_once_Some. rewrite <- app_assoc. split; [done|].
  intros [Hx|Hx%list_elem_of_singleton]%elem_of_app; done.
Qed.

Definition quote (value : bytes) : bytes := x22 :: value ++ [x22].

Lemma quote_solid value : solid (quote value).
Proof. unfold solid, quote. cbn [head]. by rewrite app_comm_cons, last_snoc. Qed.

Lemma unquote_quote value line : unquote (quote value) line = Ok value.
Proof.
  unfold unquote, quote.
  assert (starts_with (x22 :: value ++ [x22]) [x22] = true) as -> by (apply starts_with_iff; by eexists).
  assert (ends_with (x22 :: value ++ [x22]) x22 = true) as ->
    by (unfold ends_with; by rewrite app_comm_cons, last_snoc).
  assert ((len (x22 :: value ++ [x22]) <? 2) = false) as ->.
  { apply N.ltb_ge. rewrite len_cons, len_app. unfold len. cbn. lia. }
  cbn [orb negb]. f_equal. change (drop 1 (x22 :: value ++ [x22])) with (value ++ [x22]).
  assert (length (x22 :: value ++ [x22]) - 2 = length value)%nat as ->; [|by rewrite take_app_length].
  cbn [length]. rewrite length_app. cbn [length]. lia.
Qed.

Lemma unquote_plain a value line :
  a <> x22 -> last (a :: value) <> Some x22 -> unquote (a :: value) line = Ok (a :: value).
Proof.
  intros Ha Hl. unfold unquote.
  assert (starts_with (a :: value) [x22] = false) as ->.
  { apply not_true_iff_false. intros [r Hr]%starts_with_iff. cbn in Hr. congruence. }
  unfold ends_with. destruct (last (a :: value)) as [z|]; [|done].
  assert (byte_eqb z x22 = false) as -> by (apply byte_eqb_false; congruence). done.
Qed.

(** ** Lines *)

Definition unlines (ls : list bytes) : bytes := concat ((fun l => l ++ [x0a]) <$> ls).

Lemma split_inclusive_line l rest :
  x0a ∉ l -> split_inclusive (l ++ (x0a :: rest)) = (l ++ [x0a]) :: split_inclusive rest.
Proof.
  induction l as [|b l IH]; intros Hl; [done|]. cbn.
  destruct (byte_eqb b x0a) eqn:E; [apply byte_eqb_true in E; set_solver|].
  rewrite IH by set_solver. done.
Qed.

(** A text that makes one line: no line feed, no carriage return at its end. *)
Definition one_text_line (l : bytes) : Prop := x0a ∉ l /\ last l <> Some x0d.

Lemma lines_unlines ls : Forall one_text_line ls -> lines (unlines ls) = ls.
Proof.
  unfold lines, unlines. induction 1 as [|l ls [Hl Hr] _ IH]; [done|].
  rewrite fmap_cons. cbn [concat]. rewrite <- app_assoc. cbn [app].
  rewrite split_inclusive_line, fmap_cons, IH by done. f_equal.
  unfold strip_line_ending. rewrite (proj2 (strip_suffix_Some x0a (l ++ [x0a]) l)) by done.
  destruct (strip_suffix x0d l) as [l'|] eqn:E; [|done].
  apply strip_suffix_Some in E as ->. by rewrite last_snoc in Hr.
Qed.

(** ** Numbers *)

Lemma byte_val_digit b : is_ascii_digit b = true -> digit_value b = Some (byte_val b - 48).
Proof. unfold digit_value. by intros ->. Qed.

(** The value of a decimal numeral, digit by digit. *)
Fixpoint uint_value (acc : N) (d : Decimal.uint) : N :=
  match d with
  | Decimal.Nil => acc
  | Decimal.D0 d => uint_value (acc * 10) d
  | Decimal.D1 d => uint_value (acc * 10 + 1) d
  | Decimal.D2 d => uint_value (acc * 10 + 2) d
  | Decimal.D3 d => uint_value (acc * 10 + 3) d
  | Decimal.D4 d => uint_value (acc * 10 + 4) d
  | Decimal.D5 d => uint_value (acc * 10 + 5) d
  | Decimal.D6 d => uint_value (acc * 10 + 6) d
  | Decimal.D7 d => uint_value (acc * 10 + 7) d
  | Decimal.D8 d => uint_value (acc * 10 + 8) d
  | Decimal.D9 d => uint_value (acc * 10 + 9) d
  end.

Lemma uint_value_le acc d : acc <= uint_value acc d.
Proof. revert acc. induction d as [|d IH|d IH|d IH|d IH|d IH|d IH|d IH|d IH|d IH|d IH]; intros acc; cbn; [lia|..];
  (etrans; [|apply IH]); lia.
Qed.

Lemma parse_uint maximum acc d :
  uint_value acc d <= maximum ->
  parse_digits maximum acc (bs (DecimalString.NilEmpty.string_of_uint d)) = Some (uint_value acc d).
Proof.
  revert acc. induction d as [|d IH|d IH|d IH|d IH|d IH|d IH|d IH|d IH|d IH|d IH]; intros acc Hm; [done|..];
    cbn [uint_value] in Hm |- *;
    match type of Hm with uint_value ?x _ <= _ => pose proof (uint_value_le x d) end.
  all: cbn; assert ((maximum <? acc * 10) = false) as -> by (apply N.ltb_ge; lia).
  all: match goal with |- context [checked_add ?m ?a ?b] =>
         replace (checked_add m a b) with (Some (a + b)) by (symmetry; apply checked_add_Some; lia) end.
  all: cbn; rewrite ?N.add_0_r; by apply IH.
Qed.

Lemma uint_value_pos d p : uint_value (Npos p) d = Npos (Pos.of_uint_acc d p).
Proof.
  revert p. induction d as [|d IH|d IH|d IH|d IH|d IH|d IH|d IH|d IH|d IH|d IH]; intros p;
    cbn [uint_value Pos.of_uint_acc]; [done|..]; rewrite <- IH; f_equal; lia.
Qed.

Lemma uint_value_of d : uint_value 0 d = N.of_uint d.
Proof.
  unfold N.of_uint. induction d as [|d IH|d IH|d IH|d IH|d IH|d IH|d IH|d IH|d IH|d IH];
    cbn [uint_value Pos.of_uint]; [done|done|..]; apply (uint_value_pos d).
Qed.

Definition digits (s : bytes) : Prop := Forall (fun b => is_ascii_digit b = true) s.

Lemma uint_digits d : digits (bs (DecimalString.NilEmpty.string_of_uint d)).
Proof. unfold digits. induction d; cbn; by constructor. Qed.

Lemma dec_digits n : digits (dec n) /\ dec n <> [].
Proof.
  unfold dec. destruct (N.to_uint n) as [|d|d|d|d|d|d|d|d|d|d];
    first [by split; [repeat constructor|] | split; [apply (uint_digits _)|done]].
Qed.

Lemma digits_ends s : digits s -> s <> [] ->
  exists a z, head s = Some a /\ last s = Some z /\ is_ascii_digit a = true /\ is_ascii_digit z = true.
Proof.
  intros Hs Hne. destruct s as [|a s]; [done|]. destruct (last (a :: s)) as [z|] eqn:E.
  - exists a, z. split; [done|]. split; [done|]. unfold digits in Hs. rewrite Forall_forall in Hs. split; apply Hs; [left|].
    apply last_Some in E as [l ->]. set_solver.
  - by apply last_None in E.
Qed.

Lemma digits_solid s : digits s -> s <> [] -> solid s.
Proof.
  intros Hs Hne. destruct (digits_ends s Hs Hne) as (a & z & Ha & Hz & Hda & Hdz).
  unfold solid. rewrite Ha, Hz.
  split; [destruct a|destruct z]; first [reflexivity | discriminate].
Qed.

Lemma digits_unquote s line : digits s -> s <> [] -> unquote s line = Ok s.
Proof.
  intros Hs Hne. destruct (digits_ends s Hs Hne) as (a & z & Ha & Hz & Hda & Hdz).
  destruct s as [|a' s]; [done|]. cbn in Ha. injection Ha as ->.
  apply unquote_plain; [by intros ->|]. rewrite Hz. intros [= ->]. done.
Qed.

Lemma dec_not n b : is_ascii_digit b = false -> b ∉ dec n.
Proof.
  intros Hb Hin. destruct (dec_digits n) as [Hd _]. unfold digits in Hd. rewrite Forall_forall in Hd.
  specialize (Hd b Hin). congruence.
Qed.

Lemma parse_dec maximum n : n <= maximum -> parse_unsigned maximum (dec n) = Some n.
Proof.
  intros Hn. destruct (dec_digits n) as [Hd Hne].
  assert (parse_digits maximum 0 (dec n) = Some n) as Hp.
  { assert (uint_value 0 (N.to_uint n) = n) as Hv by (rewrite uint_value_of; apply DecimalN.Unsigned.of_to).
    unfold dec. destruct (N.to_uint n) as [|d|d|d|d|d|d|d|d|d|d] eqn:E.
    1: { cbn in Hv. subst n. discriminate E. }
    all: rewrite <- Hv; apply parse_uint; rewrite Hv; done. }
  unfold parse_unsigned. destruct (dec n) as [|b s]; [done|].
  assert (byte_eqb b x2b = false) as ->; [|done].
  apply byte_eqb_false. intros ->. by inversion Hd.
Qed.

(** ** The text of a configuration *)

Definition assign (key text : bytes) : bytes := key ++ ([x20; x3d; x20] ++ text).

Definition effect_text (e : Effect) : bytes :=
  match e with Effect_Allow => bs "allow" | Effect_Deny => bs "deny" end.

(** A key, how its value is written, and the value. *)
Definition field : Type := bytes * bytes * bytes.

Definition plain_field (key value : bytes) : field := (key, value, value).
Definition quoted_field (key value : bytes) : field := (key, quote value, value).

Definition optional {A} (write : bytes -> A -> field) (key : bytes) (o : option A) : list field :=
  match o with Some a => [write key a] | None => [] end.

Definition rule_fields (r : Rule) : list field :=
  optional (fun key e => plain_field key (effect_text e)) (bs "effect") (rule_effect r) ++
  [quoted_field (bs "actions") (join x2c (rule_actions r))] ++
  optional (fun key n => plain_field key (dec n)) (bs "uid") (rule_uid r) ++
  optional (fun key n => plain_field key (dec n)) (bs "gid") (rule_gid r) ++
  optional quoted_field (bs "executable") (rule_executable r) ++
  optional quoted_field (bs "security-label") (rule_security_label r) ++
  optional quoted_field (bs "cgroup") (rule_cgroup r) ++
  optional quoted_field (bs "client-id") (rule_client_id r) ++
  optional quoted_field (bs "target") (rule_target r) ++
  ((fun e => quoted_field (bs "header." ++ e.1) e.2) <$> bt_entries (rule_headers r)).

Definition field_line (f : field) : bytes := assign f.1.1 f.1.2.

Definition rule_lines (r : Rule) : list bytes := bs "[[rule]]" :: (field_line <$> rule_fields r).

Definition config_lines (c : Config) : list bytes :=
  [assign (bs "version") (dec (config_version c)); assign (bs "default") (effect_text (config_default c))] ++
  concat (rule_lines <$> config_rules c).

Definition render (c : Config) : bytes := unlines (config_lines c).

(** What a line of the file can hold: no comment, no line feed. *)
Definition writable (value : bytes) : Prop := x23 ∉ value /\ x0a ∉ value.

Definition key_byte (b : byte) : Prop := is_ascii_graphic b = true /\ b <> x3d /\ b <> x23.
Definition key_ok (key : bytes) : Prop := key <> [] /\ Forall key_byte key.

Record writable_rule (r : Rule) : Prop := {
  writable_selectors : valid_selectors r;
  writable_executable : demands (rule_executable r) writable;
  writable_security_label : demands (rule_security_label r) writable;
  writable_cgroup : demands (rule_cgroup r) writable;
  writable_client_id : demands (rule_client_id r) writable;
  writable_target : demands (rule_target r) writable;
  writable_headers : map_Forall (fun name value =>
    key_ok name /\ starts_with name (bs "header.") = false /\ writable value) (rule_headers r);
}.

(** ** Lines that parse as written *)

Definition field_ok (f : field) : Prop :=
  key_ok f.1.1 /\ solid f.1.2 /\ writable f.1.2 /\ forall n, unquote f.1.2 n = Ok f.2.

Lemma key_solid key : key_ok key -> solid key.
Proof.
  intros [Hne Hk]. unfold solid. destruct key as [|a key]; [done|]. cbn [head].
  destruct (last (a :: key)) as [z|] eqn:E; [|by apply last_None in E].
  rewrite Forall_forall in Hk. split; apply Hk; [left|]. apply last_Some in E as [l ->]. set_solver.
Qed.

Lemma solid_around x y z : solid x -> solid z -> solid (x ++ y ++ z).
Proof.
  unfold solid. intros Hx Hz. assert (last (x ++ y ++ z) = last z) as ->.
  { destruct z as [|b z _] using rev_ind; [done|]. by rewrite !app_assoc, !last_snoc. }
  destruct x as [|a x]; [done|]. cbn [head app] in *. destruct (last (a :: x)); [|done].
  destruct (head z); [|done]. destruct (last z); [|done]. by split; [apply Hx|apply Hz].
Qed.

Lemma assign_solid key text : key_ok key -> solid text -> solid (assign key text).
Proof. intros Hk Ht. by apply solid_around; [apply key_solid|]. Qed.

Lemma key_not key b : key_ok key -> ~ key_byte b -> b ∉ key.
Proof. intros [_ Hk] Hb Hin. rewrite Forall_forall in Hk. by apply Hb, Hk. Qed.

Lemma parse_assign p n f :
  field_ok f ->
  parse_line p n (field_line f) =
    match p_rule p with
    | None =>
        config ← parse_top_level (p_config p) f.1.1 f.2 n; Ok {| p_config := config; p_rule := None |}
    | Some rule =>
        rule ← parse_rule_key rule f.1.1 f.2 n; Ok {| p_config := p_config p; p_rule := Some rule |}
    end.
Proof.
  destruct f as [[key text] value]. intros (Hk & Ht & [Hw _] & Hu). cbn [fst snd] in *.
  unfold field_line. cbn [fst snd].
  assert (significant (assign key text) = assign key text) as Hsig.
  { unfold significant. assert (split_once x23 (assign key text) = None) as ->.
    - apply split_once_None. unfold assign. rewrite !elem_of_app. intros [Hin|[Hin|Hin]]; [|set_solver|done].
      apply (key_not _ _ Hk) in Hin; [done|]. by intros (_ & _ & ?).
    - by apply trim_solid, assign_solid. }
  unfold parse_line. rewrite Hsig.
  assert (x3d ∈ assign key text) as Heq by (unfold assign; set_solver).
  rewrite bool_decide_eq_false_2 by (intros Hn; rewrite Hn in Heq; by apply not_elem_of_nil in Heq).
  rewrite bool_decide_eq_false_2.
  2: { intros Hn. rewrite Hn in Heq. revert Heq. apply (bool_decide_unpack (_ ∉ _)). by vm_compute. }
  assert (split_once x3d (assign key text) = Some (key ++ [x20], x20 :: text)) as ->.
  { apply split_once_Some. unfold assign. rewrite <- app_assoc. split; [done|].
    rewrite elem_of_app. intros [Hin|Hin]; [|set_solver].
    apply (key_not _ _ Hk) in Hin; [done|]. by intros (_ & ? & _). }
  rewrite trim_space_after by by apply key_solid. rewrite trim_space_before by done. by rewrite Hu.
Qed.

(** ** Rules *)

(** The fields turn one rule into another, whatever lines they stand on. *)
Inductive sets : Rule -> list field -> Rule -> Prop :=
| sets_none r : sets r [] r
| sets_field r r1 r2 f fs :
    (forall n, parse_rule_key r f.1.1 f.2 n = Ok r1) -> sets r1 fs r2 -> sets r (f :: fs) r2.

Lemma sets_app r r1 r2 fs fs' : sets r fs r1 -> sets r1 fs' r2 -> sets r (fs ++ fs') r2.
Proof. induction 1; [done|]. intros. cbn. eapply sets_field; eauto. Qed.

Lemma sets_one r r' f : (forall n, parse_rule_key r f.1.1 f.2 n = Ok r') -> sets r [f] r'.
Proof. intros. by eapply sets_field; [|constructor]. Qed.

Lemma parse_actions_join actions :
  Forall (fun a => a ∈ known_actions) actions -> parse_actions (join x2c actions) = actions.
Proof.
  intros Ha. assert (Forall (fun a => x2c ∉ a /\ trim a = a /\ a <> []) actions) as Hok.
  { eapply Forall_impl; [exact Ha|]. intros a Hin. unfold known_actions in Hin.
    repeat (apply elem_of_cons in Hin as [->|Hin];
            [split; [apply (bool_decide_unpack (_ ∉ _)); by vm_compute|by split]|]).
    by apply not_elem_of_nil in Hin. }
  clear Ha. unfold parse_actions. destruct actions as [|a l]; [done|].
  assert (split x2c (join x2c (a :: l)) = a :: l) as ->.
  { apply split_spec. split; [done|]. split; [done|]. eapply Forall_impl; [exact Hok|]. naive_solver. }
  induction Hok as [|b k (_ & Ht & Hb) _ IH]; [done|].
  rewrite fmap_cons, filter_cons, Ht, decide_True, IH by done. done.
Qed.

Lemma header_key_set ef ac u g ex sl cg ci ta hd name value n :
  starts_with name (bs "header.") = false -> name <> [] ->
  parse_rule_key (Build_Rule ef ac u g ex sl cg ci ta hd) (bs "header." ++ name) value n =
    Ok (Build_Rule ef ac u g ex sl cg ci ta (<[name := value]> hd)).
Proof.
  intros Hn Hne.
  assert (trim_start_matches (bs "header.") (bs "header." ++ name) = name) as Ht.
  { unfold trim_start_matches. change (length (bs "header." ++ name)) with (S (6 + length name)).
    cbn [trim_start_matches_fuel]. rewrite (proj2 (strip_prefix_Some _ _ name) eq_refl).
    cbn [Nat.add trim_start_matches_fuel].
    destruct (strip_prefix (bs "header.") name) as [r|] eqn:E; [|done].
    apply strip_prefix_Some in E. apply not_true_iff_false in Hn. destruct Hn.
    apply starts_with_iff. by exists r. }
  unfold parse_rule_key. rewrite !bool_decide_eq_false_2 by (intros Hx; discriminate Hx).
  assert (starts_with (bs "header." ++ name) (bs "header.") = true) as ->
    by (apply starts_with_iff; by eexists).
  rewrite Ht. by rewrite bool_decide_eq_false_2.
Qed.

Lemma headers_set ef ac u g ex sl cg ci ta (l : list (bytes * bytes)) hd :
  Forall (fun e => key_ok e.1 /\ starts_with e.1 (bs "header.") = false) l ->
  sets (Build_Rule ef ac u g ex sl cg ci ta hd)
    ((fun e => quoted_field (bs "header." ++ e.1) e.2) <$> l)
    (Build_Rule ef ac u g ex sl cg ci ta (foldl (fun h e => <[e.1 := e.2]> h) hd l)).
Proof.
  intros Hl. revert hd. induction Hl as [|[name value] l [[Hne _] Hs] _ IH]; intros hd; [constructor|].
  rewrite fmap_cons. eapply sets_field; [|apply IH]. intros n. by apply header_key_set.
Qed.

Lemma foldl_insert_union (l : list (bytes * bytes)) (hd : gmap bytes bytes) :
  NoDup l.*1 -> foldl (fun h e => <[e.1 := e.2]> h) hd l = list_to_map l ∪ hd.
Proof.
  revert hd. induction l as [|[k v] l IH]; intros hd Hnd; cbn; [by rewrite map_empty_union|].
  cbn in Hnd. apply NoDup_cons in Hnd as [Hk Hnd]. rewrite IH by done.
  rewrite <- insert_union_l. rewrite insert_union_r; [done|]. by apply not_elem_of_list_to_map_1.
Qed.

Lemma entries_map (m : gmap bytes bytes) :
  foldl (fun h e => <[e.1 := e.2]> h) ∅ (bt_entries m) = m.
Proof.
  rewrite foldl_insert_union by apply (bt_keys_nodup m). rewrite map_union_empty.
  rewrite (list_to_map_proper _ (map_to_list m)).
  - apply list_to_map_to_list.
  - apply (bt_keys_nodup m).
  - apply bt_entries_perm.
Qed.

(** The fields of a rule build it. *)
Lemma rule_fields_set r :
  valid_rule r -> writable_rule r -> sets Rule_default (rule_fields r) r.
Proof.
  destruct r as [ef ac u g ex sl cg ci ta hd]. intros [[e He] Hac] [[Hu Hg] _ _ _ _ _ Hhd].
  cbn [rule_effect rule_actions rule_uid rule_gid rule_headers] in *. subst ef.
  unfold rule_fields. cbn [rule_effect rule_actions rule_uid rule_gid rule_executable
    rule_security_label rule_cgroup rule_client_id rule_target rule_headers].
  eapply sets_app.
  { apply sets_one. intros n. by instantiate (1 := Build_Rule (Some e) [] None None None None None None None ∅); destruct e. }
  eapply sets_app.
  { apply sets_one. intros n. cbn [quoted_field fst snd].
    instantiate (1 := Build_Rule (Some e) ac None None None None None None None ∅).
    rewrite <- (parse_actions_join ac Hac) at 2. reflexivity. }
  eapply sets_app.
  { instantiate (1 := Build_Rule (Some e) ac u None None None None None None ∅).
    destruct u as [x|]; [|constructor]. apply sets_one. intros n. cbn [plain_field fst snd].
    transitivity (number ← parse_number (dec x) n "uid"; Ok (Build_Rule (Some e) ac (Some number) None None None None None None ∅));
      [reflexivity|]. unfold parse_number. by rewrite parse_dec by by apply Hu. }
  eapply sets_app.
  { instantiate (1 := Build_Rule (Some e) ac u g None None None None None ∅).
    destruct g as [x|]; [|constructor]. apply sets_one. intros n. cbn [plain_field fst snd].
    transitivity (number ← parse_number (dec x) n "gid"; Ok (Build_Rule (Some e) ac u (Some number) None None None None None ∅));
      [reflexivity|]. unfold parse_number. by rewrite parse_dec by by apply Hg. }
  eapply sets_app.
  { instantiate (1 := Build_Rule (Some e) ac u g ex None None None None ∅).
    destruct ex; [|constructor]. by apply sets_one. }
  eapply sets_app.
  { instantiate (1 := Build_Rule (Some e) ac u g ex sl None None None ∅).
    destruct sl; [|constructor]. by apply sets_one. }
  eapply sets_app.
  { instantiate (1 := Build_Rule (Some e) ac u g ex sl cg None None ∅).
    destruct cg; [|constructor]. by apply sets_one. }
  eapply sets_app.
  { instantiate (1 := Build_Rule (Some e) ac u g ex sl cg ci None ∅).
    destruct ci; [|constructor]. by apply sets_one. }
  eapply sets_app.
  { instantiate (1 := Build_Rule (Some e) ac u g ex sl cg ci ta ∅).
    destruct ta; [|constructor]. by apply sets_one. }
  rewrite <- (entries_map hd) at 2. apply headers_set. apply Forall_forall.
  intros [name value] Hin%elem_of_bt_entries. destruct (Hhd name value Hin) as (? & ? & _). done.
Qed.

(** ** The fields of a writable rule stand on lines of their own *)

Lemma literal_key_ok key : bool_decide (key <> [] /\ Forall (fun b => is_ascii_graphic b = true /\ b <> x3d /\ b <> x23) key) = true -> key_ok key.
Proof. apply bool_decide_eq_true. Qed.

Lemma quoted_ok key value : key_ok key -> writable value -> field_ok (quoted_field key value).
Proof.
  intros Hk [H1 H2]. split; [done|]. split; [apply quote_solid|]. split; [|intros n; apply unquote_quote].
  unfold writable, quoted_field, quote. cbn [fst snd]. rewrite !elem_of_cons, !elem_of_app, !list_elem_of_singleton.
  naive_solver.
Qed.

Lemma number_ok key n : key_ok key -> field_ok (plain_field key (dec n)).
Proof.
  intros Hk. destruct (dec_digits n) as [Hd Hne]. split; [done|]. split; [by apply digits_solid|].
  split; [by split; apply dec_not|]. intros line. by apply digits_unquote.
Qed.

Lemma effect_ok key e : key_ok key -> field_ok (plain_field key (effect_text e)).
Proof.
  intros Hk. split; [done|]. split; [by destruct e|]. split; [|by destruct e].
  destruct e; split; apply (bool_decide_unpack (_ ∉ _)); by vm_compute.
Qed.

Lemma optional_ok {A} (write : bytes -> A -> field) key o :
  demands o (fun a => field_ok (write key a)) -> Forall field_ok (optional write key o).
Proof. intros Ho. destruct o as [a|]; [|constructor]. constructor; [by apply Ho|constructor]. Qed.

Lemma actions_writable actions :
  Forall (fun a => a ∈ known_actions) actions -> writable (join x2c actions).
Proof.
  intros Ha. assert (Forall (fun a => x23 ∉ a /\ x0a ∉ a) actions) as Hok.
  { eapply Forall_impl; [exact Ha|]. intros a Hin. unfold known_actions in Hin.
    repeat (apply elem_of_cons in Hin as [->|Hin];
            [split; apply (bool_decide_unpack (_ ∉ _)); by vm_compute|]).
    by apply not_elem_of_nil in Hin. }
  clear Ha. induction Hok as [|a l [H1 H2] _ IH]; [split; apply not_elem_of_nil|].
  destruct l as [|b l]; [done|]. change (join x2c (a :: b :: l)) with (a ++ (x2c :: join x2c (b :: l))).
  destruct IH as [IH1 IH2]. split; rewrite elem_of_app, elem_of_cons; naive_solver.
Qed.

Lemma rule_fields_ok r : valid_rule r -> writable_rule r -> Forall field_ok (rule_fields r).
Proof.
  intros [_ Hac] [_ Hex Hsl Hcg Hci Hta Hhd]. unfold rule_fields.
  repeat apply Forall_app_2;
    try (apply optional_ok; intros a Ha;
         first [apply effect_ok | apply number_ok | apply quoted_ok]; [by apply literal_key_ok|by auto]);
    try (apply optional_ok; intros a Ha; first [apply effect_ok | apply number_ok]; by apply literal_key_ok).
  - constructor; [|constructor]. apply quoted_ok; [by apply literal_key_ok|by apply actions_writable].
  - apply Forall_fmap, Forall_forall. intros [name value] Hin%elem_of_bt_entries.
    destruct (Hhd name value Hin) as ([Hne Hk] & _ & Hw). apply quoted_ok; [|done]. split; [done|].
    apply Forall_app. split; [|done]. by apply (literal_key_ok (bs "header.")).
Qed.

Lemma field_one_line f : field_ok f -> one_text_line (field_line f).
Proof.
  destruct f as [[key text] value]. intros (Hk & Ht & [_ Hw] & _). cbn [fst snd] in *.
  unfold field_line. cbn [fst snd]. split.
  - unfold assign. rewrite !elem_of_app. intros [Hin|[Hin|Hin]]; [|set_solver|done].
    apply (key_not _ _ Hk) in Hin; [done|]. by intros (? & _).
  - pose proof (assign_solid key text Hk Ht) as Hs. unfold solid in Hs. intros Hl. rewrite Hl in Hs.
    destruct (head _); [|done]. by destruct Hs.
Qed.

(** ** Parsing the text *)

Lemma parse_lines_app l1 l2 p n :
  parse_lines p n (l1 ++ l2) = p1 ← parse_lines p n l1; parse_lines p1 (n + len l1) l2.
Proof.
  revert p n. induction l1 as [|l l1 IH]; intros p n; cbn [parse_lines app].
  - unfold mbind, result_bind, len. cbn. by rewrite N.add_0_r.
  - unfold mbind, result_bind in *. destruct (parse_line p n l); [|done..]. rewrite IH, len_cons.
    by replace (n + 1 + len l1) with (n + (1 + len l1)) by lia.
Qed.

Lemma parse_fields fs c r r' n :
  Forall field_ok fs -> sets r fs r' ->
  parse_lines {| p_config := c; p_rule := Some r |} n (field_line <$> fs) =
    Ok {| p_config := c; p_rule := Some r' |}.
Proof.
  intros Hok Hs. revert n Hok. induction Hs as [r|r r1 r2 f fs Hf _ IH]; intros n Hok; [done|].
  apply Forall_cons in Hok as [Hok1 Hok]. rewrite fmap_cons. cbn [parse_lines].
  rewrite parse_assign by done. cbn [p_rule]. rewrite Hf. by apply IH.
Qed.

Lemma parse_section c r n :
  valid_rule r -> writable_rule r ->
  forall p, match p_rule p with Some open => push_rule (p_config p) open | None => p_config p end = c ->
  parse_lines p n (rule_lines r) = Ok {| p_config := c; p_rule := Some r |}.
Proof.
  intros Hv Hw p Hp. unfold rule_lines. cbn [parse_lines].
  assert (parse_line p n (bs "[[rule]]") = Ok {| p_config := c; p_rule := Some Rule_default |}) as ->
    by (by rewrite <- Hp).
  apply (parse_fields (rule_fields r) c Rule_default r); [by apply rule_fields_ok|by apply rule_fields_set].
Qed.

Lemma parse_rules rules p n :
  Forall valid_rule rules -> Forall writable_rule rules ->
  exists p', parse_lines p n (concat (rule_lines <$> rules)) = Ok p' /\
    match p_rule p' with Some r => push_rule (p_config p') r | None => p_config p' end =
    let c := match p_rule p with Some r => push_rule (p_config p) r | None => p_config p end in
    {| config_version := config_version c; config_default := config_default c;
       config_rules := config_rules c ++ rules |}.
Proof.
  intros Hv Hw. revert p n Hw. induction Hv as [|r rules Hv _ IH]; intros p n Hw.
  - exists p. split; [done|]. cbv zeta. rewrite app_nil_r. by destruct (match p_rule p with Some _ => _ | _ => _ end).
  - apply Forall_cons in Hw as [Hw1 Hw]. rewrite fmap_cons. cbn [concat]. rewrite parse_lines_app.
    rewrite (parse_section _ r n Hv Hw1 p eq_refl). cbn [mbind result_bind].
    destruct (IH {| p_config := match p_rule p with Some r => push_rule (p_config p) r | None => p_config p end;
                    p_rule := Some r |} (n + len (rule_lines r)) Hw) as (p' & Hp' & Hc).
    exists p'. split; [exact Hp'|]. rewrite Hc. cbn. by rewrite <- app_assoc.
Qed.

Lemma config_lines_ok c :
  Forall valid_rule (config_rules c) -> Forall writable_rule (config_rules c) ->
  Forall one_text_line (config_lines c).
Proof.
  intros Hv Hw. unfold config_lines. apply Forall_app_2.
  - constructor; [|constructor; [|constructor]].
    + by apply (field_one_line (plain_field (bs "version") (dec (config_version c)))), number_ok, literal_key_ok.
    + by apply (field_one_line (plain_field (bs "default") (effect_text (config_default c)))), effect_ok, literal_key_ok.
  - apply Forall_concat, Forall_fmap, Forall_forall. intros r Hr. rewrite Forall_forall in Hv, Hw.
    unfold compose, rule_lines. constructor.
    + split; [apply (bool_decide_unpack (_ ∉ _)); by vm_compute|done].
    + apply Forall_fmap. eapply Forall_impl; [apply rule_fields_ok; [by apply Hv|by apply Hw]|].
      intros f. apply field_one_line.
Qed.

(** C28: every policy can be written down.  For each valid configuration whose
    values hold no comment sign or line feed and whose header selectors have names
    a key can spell, parsing the text of the configuration gives exactly the
    configuration: rules in order, every selector with its value, quotes, spaces,
    commas and equal signs in values included. *)
Theorem policy_roundtrip c :
  valid_config c -> Forall writable_rule (config_rules c) ->
  ConfigPolicy_parse (render c) = Ok {| config := c |}.
Proof.
  intros Hvalid Hw. pose proof Hvalid as [Hversion Hv].
  assert (Config_parse (render c) = Ok c) as Hc.
  { unfold Config_parse, render. rewrite lines_unlines by by apply config_lines_ok.
    unfold config_lines. rewrite parse_lines_app. cbn [parse_lines].
    rewrite (parse_assign _ _ (plain_field (bs "version") (dec (config_version c))))
      by by apply number_ok, literal_key_ok.
    cbn [p_rule plain_field fst snd]. unfold parse_top_level at 1.
    rewrite bool_decide_eq_true_2, parse_dec by (done || by rewrite Hversion). cbn [ok_or mbind result_bind].
    rewrite (parse_assign _ _ (plain_field (bs "default") (effect_text (config_default c))))
      by by apply effect_ok, literal_key_ok.
    cbn [p_rule plain_field fst snd p_config].
    set (p1 := {| p_config := {| config_version := config_version c; config_default := config_default c;
                                 config_rules := [] |}; p_rule := None |}).
    match goal with |- context [parse_top_level ?c0 ?k ?v ?n] =>
      assert (parse_top_level c0 k v n = Ok (p_config p1)) as -> by by (destruct (config_default c)) end.
    cbn [mbind result_bind].
    match goal with |- context [parse_lines _ ?n (concat _)] =>
      destruct (parse_rules (config_rules c) p1 n Hv Hw) as (p' & Hp' & Hc') end.
    change {| p_config := p_config p1; p_rule := None |} with p1. rewrite Hp'. cbn [mbind result_bind].
    rewrite Hc'. cbn [p1 p_rule p_config config_version config_default config_rules app].
    assert ({| config_version := config_version c; config_default := config_default c;
               config_rules := config_rules c |} = c) as -> by by destruct c.
    pose proof (validate_config_spec c) as Hvc. destruct (validate_config c); [done| |done].
    by destruct Hvc. }
  unfold ConfigPolicy_parse. rewrite Hc. cbn [mbind result_bind]. unfold ConfigPolicy_new.
  pose proof (validate_config_spec c) as Hvc. destruct (validate_config c); [done| |done].
  by destruct Hvc.
Qed.

(** ** Witness *)

Definition demo_rule : Rule := {|
  rule_effect := Some Effect_Allow;
  rule_actions := [bs "publish"; bs "subscribe"];
  rule_uid := Some 1000;
  rule_gid := None;
  rule_executable := Some (bs "/opt/my app/bin=1");
  rule_security_label := None;
  rule_cgroup := None;
  rule_client_id := None;
  rule_target := Some (bs "news*");
  rule_headers := {[ bs "role" := bs " editor, in chief " ]};
|}.

Definition demo_config : Config := {|
  config_version := 1; config_default := Effect_Deny; config_rules := [demo_rule] |}.

Example demo_config_text : render demo_config = unlines [
  bs "version = 1"; bs "default = deny"; bs "[[rule]]"; bs "effect = allow";
  assign (bs "actions") (quote (bs "publish,subscribe")); bs "uid = 1000";
  assign (bs "executable") (quote (bs "/opt/my app/bin=1")); assign (bs "target") (quote (bs "news*"));
  assign (bs "header.role") (quote (bs " editor, in chief "))].
Proof. by vm_compute. Qed.

Lemma policy_roundtrip_witness : ConfigPolicy_parse (render demo_config) = Ok {| config := demo_config |}.
Proof.
  apply policy_roundtrip.
  - split; [reflexivity|]. constructor; [|constructor]. split; [by eexists|].
    apply (bool_decide_unpack (Forall _ _)). by vm_compute.
  - constructor; [|constructor]. split; try (intros v [= <-]; apply (bool_decide_unpack (_ /\ _)); by vm_compute).
    + split; intros v [= <-]. by vm_compute.
    + intros name value. cbn. intros [<- <-]%lookup_singleton_Some.
      split; [by apply literal_key_ok|]. split; [done|]. apply (bool_decide_unpack (_ /\ _)). by vm_compute.
Defined.
