(* ===== verification/Broker.v ===== *)
(** * The broker's state and operations (crates/bus-broker/src/lib.rs)

    [Broker] with the fields of the struct, one [St] handler per [&mut self]
    method and one function per [&self] method.  A [BTreeMap] is a [gmap]
    whose iteration order is [bt_entries] ([Ordered.v]); [usize] counters of
    collections in memory are [N].  The state a handler leaves behind when it
    fails is the state it had reached, as in the code. *)

From S2P Require Export Totals Policy.

Local Open Scope N_scope.

(** ** Data *)

Record ClientHello := {
  hello_client_id : option ClientId;
  hello_headers : Headers;
  hello_capabilities : Capabilities;
}.

Record Peer := {
  peer_id : PeerId;
  peer_credentials : Credentials;
  peer_hello : ClientHello;
  peer_capabilities : Capabilities;
}.

Record ConnectedPeer := {
  connected_id : PeerId;
  connected_capabilities : Capabilities;
}.

Inductive MonitorKind :=
| MonitorKind_Connected | MonitorKind_Disconnected | MonitorKind_NamespaceClaimed
| MonitorKind_Subscribed | MonitorKind_Delivered | MonitorKind_Acknowledged
| MonitorKind_TimedOut | MonitorKind_Retried | MonitorKind_DroppedSignal.

Record MonitorEvent := {
  monitor_sequence : N;
  monitor_kind : MonitorKind;
  monitor_peer : PeerId;
  monitor_target : option bytes;
  monitor_message_id : option MessageId;
  monitor_payload_bytes : N;
}.

(** [u64] counters. *)
Record Metrics := {
  messages_routed : N;
  bytes_routed : N;
  timeouts : N;
  retries : N;
  dropped_signals : N;
}.

Definition Metrics_default : Metrics :=
  {| messages_routed := 0; bytes_routed := 0; timeouts := 0; retries := 0; dropped_signals := 0 |}.

Record MetricsSnapshot := {
  connected_peers : N;
  snapshot_namespaces : N;
  snapshot_subscriptions : N;
  totals : Metrics;
}.

Record Limits := {
  maximum_queued_bytes : N;
  maximum_queued_messages : N;
  maximum_in_flight_requests : N;
  maximum_subscriptions : N;
  maximum_namespace_claims : N;
}.

Definition Limits_default : Limits := {|
  maximum_queued_bytes := 4 * 1024 * 1024;
  maximum_queued_messages := 1024;
  maximum_in_flight_requests := 128;
  maximum_subscriptions := 256;
  maximum_namespace_claims := 64;
|}.

Inductive Limit :=
| Limit_QueuedBytes | Limit_QueuedMessages | Limit_InFlightRequests
| Limit_Subscriptions | Limit_NamespaceClaims.

Record PendingDelivery := {
  pd_sender : PeerId;
  pd_message : Frame;
  pd_recipients : gset PeerId;
  pd_acknowledgements : gset PeerId;
  pd_responses : gmap PeerId Frame;
  pd_acknowledgement_complete : bool;
  pd_deadline_ms : N;
  pd_attempts : N;
  pd_next_retry_ms : option N;
  pd_priority : N;
}.

Inductive DeliveryEvent :=
| DeliveryEvent_Deliver (sender : PeerId) (recipients : list PeerId) (message : Frame)
| DeliveryEvent_Result (sender : PeerId) (message_id : MessageId) (outcome : DeliveryOutcome).

Inductive LifecycleEvent :=
| LifecycleEvent_PeerConnected (peer : PeerId)
| LifecycleEvent_PeerDisconnected (peer : PeerId)
| LifecycleEvent_NamespaceOwnerChanged (namespace : Namespace) (previous current : option PeerId).

Inductive Error :=
| Error_UnknownPeer (peer : PeerId)
| Error_NamespaceAlreadyOwned (namespace : Namespace) (owner : PeerId)
| Error_DbusNameAlreadyOwned (name : bytes) (owner : PeerId)
| Error_InvalidDbusName (name : bytes)
| Error_Denied (action : Action)
| Error_PeerIdExhausted
| Error_ReservedHeader (header : bytes)
| Error_NoRecipient
| Error_InvalidDelivery
| Error_DuplicateMessage (message_id : MessageId)
| Error_UnknownDelivery (message_id : MessageId)
| Error_UnexpectedAcknowledgement (message_id : MessageId)
| Error_UnexpectedResponse (message_id : MessageId)
| Error_DeadlineOverflow
| Error_LimitExceeded (limit : Limit)
| Error_InvalidPriority.

#[export] Instance Limit_eq_dec : EqDecision Limit.
Proof. solve_decision. Defined.
#[export] Instance Error_eq_dec : EqDecision Error.
Proof. solve_decision. Defined.

(** The broker, for one policy implementation. *)
Record Broker (P : Type) := {
  b_policy : P;
  b_limits : Limits;
  b_capabilities : Capabilities;
  b_next_peer : N;
  b_peers : gmap PeerId Peer;
  b_namespaces : gmap Namespace PeerId;
  b_dbus_names : gmap bytes PeerId;
  b_subscriptions : gmap Channel (gmap PeerId (list HeaderFilter));
  b_deliveries : gmap MessageId PendingDelivery;
  b_events : list LifecycleEvent;
  b_metrics : Metrics;
  b_monitor_events : list MonitorEvent;
  b_next_monitor_sequence : N;
}.
Arguments b_policy {P}.
Arguments b_limits {P}.
Arguments b_capabilities {P}.
Arguments b_next_peer {P}.
Arguments b_peers {P}.
Arguments b_namespaces {P}.
Arguments b_dbus_names {P}.
Arguments b_subscriptions {P}.
Arguments b_deliveries {P}.
Arguments b_events {P}.
Arguments b_metrics {P}.
Arguments b_monitor_events {P}.
Arguments b_next_monitor_sequence {P}.

(** ** Assignments to one field *)

Definition set_next_peer {P : Type} (n : N) (b : Broker P) : Broker P := {|
  b_policy := b_policy b;
  b_limits := b_limits b;
  b_capabilities := b_capabilities b;
  b_next_peer := n;
  b_peers := b_peers b;
  b_namespaces := b_namespaces b;
  b_dbus_names := b_dbus_names b;
  b_subscriptions := b_subscriptions b;
  b_deliveries := b_deliveries b;
  b_events := b_events b;
  b_metrics := b_metrics b;
  b_monitor_events := b_monitor_events b;
  b_next_monitor_sequence := b_next_monitor_sequence b;
|}.

Definition set_peers {P : Type} (f : gmap PeerId Peer -> gmap PeerId Peer)
    (b : Broker P) : Broker P := {|
  b_policy := b_policy b;
  b_limits := b_limits b;
  b_capabilities := b_capabilities b;
  b_next_peer := b_next_peer b;
  b_peers := f (b_peers b);
  b_namespaces := b_namespaces b;
  b_dbus_names := b_dbus_names b;
  b_subscriptions := b_subscriptions b;
  b_deliveries := b_deliveries b;
  b_events := b_events b;
  b_metrics := b_metrics b;
  b_monitor_events := b_monitor_events b;
  b_next_monitor_sequence := b_next_monitor_sequence b;
|}.

Definition set_namespaces {P : Type} (f : gmap Namespace PeerId -> gmap Namespace PeerId)
    (b : Broker P) : Broker P := {|
  b_policy := b_policy b;
  b_limits := b_limits b;
  b_capabilities := b_capabilities b;
  b_next_peer := b_next_peer b;
  b_peers := b_peers b;
  b_namespaces := f (b_namespaces b);
  b_dbus_names := b_dbus_names b;
  b_subscriptions := b_subscriptions b;
  b_deliveries := b_deliveries b;
  b_events := b_events b;
  b_metrics := b_metrics b;
  b_monitor_events := b_monitor_events b;
  b_next_monitor_sequence := b_next_monitor_sequence b;
|}.

Definition set_dbus_names {P : Type} (f : gmap bytes PeerId -> gmap bytes PeerId)
    (b : Broker P) : Broker P := {|
  b_policy := b_policy b;
  b_limits := b_limits b;
  b_capabilities := b_capabilities b;
  b_next_peer := b_next_peer b;
  b_peers := b_peers b;
  b_namespaces := b_namespaces b;
  b_dbus_names := f (b_dbus_names b);
  b_subscriptions := b_subscriptions b;
  b_deliveries := b_deliveries b;
  b_events := b_events b;
  b_metrics := b_metrics b;
  b_monitor_events := b_monitor_events b;
  b_next_monitor_sequence := b_next_monitor_sequence b;
|}.

Definition set_subscriptions {P : Type} (f : gmap Channel (gmap PeerId (list HeaderFilter)) -> gmap Channel (gmap PeerId (list HeaderFilter)))
    (b : Broker P) : Broker P := {|
  b_policy := b_policy b;
  b_limits := b_limits b;
  b_capabilities := b_capabilities b;
  b_next_peer := b_next_peer b;
  b_peers := b_peers b;
  b_namespaces := b_namespaces b;
  b_dbus_names := b_dbus_names b;
  b_subscriptions := f (b_subscriptions b);
  b_deliveries := b_deliveries b;
  b_events := b_events b;
  b_metrics := b_metrics b;
  b_monitor_events := b_monitor_events b;
  b_next_monitor_sequence := b_next_monitor_sequence b;
|}.

Definition set_deliveries {P : Type} (f : gmap MessageId PendingDelivery -> gmap MessageId PendingDelivery)
    (b : Broker P) : Broker P := {|
  b_policy := b_policy b;
  b_limits := b_limits b;
  b_capabilities := b_capabilities b;
  b_next_peer := b_next_peer b;
  b_peers := b_peers b;
  b_namespaces := b_namespaces b;
  b_dbus_names := b_dbus_names b;
  b_subscriptions := b_subscriptions b;
  b_deliveries := f (b_deliveries b);
  b_events := b_events b;
  b_metrics := b_metrics b;
  b_monitor_events := b_monitor_events b;
  b_next_monitor_sequence := b_next_monitor_sequence b;
|}.

Definition set_events {P : Type} (f : list LifecycleEvent -> list LifecycleEvent)
    (b : Broker P) : Broker P := {|
  b_policy := b_policy b;
  b_limits := b_limits b;
  b_capabilities := b_capabilities b;
  b_next_peer := b_next_peer b;
  b_peers := b_peers b;
  b_namespaces := b_namespaces b;
  b_dbus_names := b_dbus_names b;
  b_subscriptions := b_subscriptions b;
  b_deliveries := b_deliveries b;
  b_events := f (b_events b);
  b_metrics := b_metrics b;
  b_monitor_events := b_monitor_events b;
  b_next_monitor_sequence := b_next_monitor_sequence b;
|}.

Definition set_metrics {P : Type} (f : Metrics -> Metrics)
    (b : Broker P) : Broker P := {|
  b_policy := b_policy b;
  b_limits := b_limits b;
  b_capabilities := b_capabilities b;
  b_next_peer := b_next_peer b;
  b_peers := b_peers b;
  b_namespaces := b_namespaces b;
  b_dbus_names := b_dbus_names b;
  b_subscriptions := b_subscriptions b;
  b_deliveries := b_deliveries b;
  b_events := b_events b;
  b_metrics := f (b_metrics b);
  b_monitor_events := b_monitor_events b;
  b_next_monitor_sequence := b_next_monitor_sequence b;
|}.

Definition set_monitor {P : Type} (events : list MonitorEvent) (next : N)
    (b : Broker P) : Broker P := {|
  b_policy := b_policy b;
  b_limits := b_limits b;
  b_capabilities := b_capabilities b;
  b_next_peer := b_next_peer b;
  b_peers := b_peers b;
  b_namespaces := b_namespaces b;
  b_dbus_names := b_dbus_names b;
  b_subscriptions := b_subscriptions b;
  b_deliveries := b_deliveries b;
  b_events := b_events b;
  b_metrics := b_metrics b;
  b_monitor_events := events;
  b_next_monitor_sequence := next;
|}.

(** ** Pure helpers *)

Definition starts_with_any (name : bytes) (prefixes : list bytes) : bool :=
  existsb (starts_with name) prefixes.

(** The loop [for name in headers.keys() { if reserved { return Err } }]. *)
Fixpoint reject_reserved (prefixes names : list bytes) : result Error () :=
  match names with
  | [] => Ok ()
  | name :: names =>
      if starts_with_any name prefixes then Err (Error_ReservedHeader name)
      else reject_reserved prefixes names
  end.

Definition validate_claimed_headers (headers : Headers) : result Error () :=
  reject_reserved [bs "auth."; bs "broker."; bs "peer."] (bt_keys headers).

Definition validate_message_headers (headers : Headers) : result Error () :=
  reject_reserved [bs "broker."; bs "peer."; bs "auth."] (bt_keys headers).

Definition message_priority (headers : Headers) : result Error N :=
  match headers !! bs "priority" with
  | None => Ok 0
  | Some (HeaderValue_Unsigned priority) =>
      if priority <=? 7 then Ok priority else Err Error_InvalidPriority
  | Some _ => Err Error_InvalidPriority
  end.

Definition filter_matches (headers : Headers) (filter : HeaderFilter) : bool :=
  match filter with
  | HeaderFilter_Exists name => bool_decide (is_Some (headers !! name))
  | HeaderFilter_NotExists name => negb (bool_decide (is_Some (headers !! name)))
  | HeaderFilter_Equal name value => bool_decide (headers !! name = Some value)
  | HeaderFilter_NotEqual name value => negb (bool_decide (headers !! name = Some value))
  | HeaderFilter_Prefix name value =>
      match headers !! name, value with
      | Some (HeaderValue_Text actual), HeaderValue_Text prefix => starts_with actual prefix
      | Some (HeaderValue_Binary actual), HeaderValue_Binary prefix => starts_with actual prefix
      | _, _ => false
      end
  end.

Definition filters_match (filters : list HeaderFilter) (headers : Headers) : bool :=
  forallb (filter_matches headers) filters.

Definition requirement_possible (requirement : AckRequirement) (recipients : N) : bool :=
  match requirement with
  | AckRequirement_None => true
  | AckRequirement_Any | AckRequirement_All => negb (recipients =? 0)
  | AckRequirement_Minimum minimum => minimum <=? recipients
  end.

Definition requirement_met (requirement : AckRequirement) (acknowledgements recipients : N) : bool :=
  match requirement with
  | AckRequirement_None => true
  | AckRequirement_Any => negb (acknowledgements =? 0)
  | AckRequirement_All => acknowledgements =? recipients
  | AckRequirement_Minimum minimum => minimum <=? acknowledgements
  end.

Definition acknowledgement_satisfies (required actual : AckPolicy) : bool :=
  match required, actual with
  | AckPolicy_Received, (AckPolicy_Received | AckPolicy_Processed) => true
  | AckPolicy_Processed, AckPolicy_Processed => true
  | _, _ => false
  end.

(** [1_u64 << shift] stays below [2 ^ 16]. *)
Definition retry_next (retry : RetryPolicy) (now_ms attempts : N) : option N :=
  match retry with
  | RetryPolicy_None => None
  | RetryPolicy_Exponential initial_backoff_ms max_attempts =>
      if max_attempts <=? attempts then Some now_ms
      else
        let shift := N.min (saturating_sub attempts 1) 16 in
        let delay :=
          N.min (saturating_mul u64_max initial_backoff_ms (N.shiftl 1 shift)) 60000 in
        Some (saturating_add u64_max now_ms delay)
  end.

Definition header_value_bytes (value : HeaderValue) : N :=
  match value with
  | HeaderValue_Text value => len value
  | HeaderValue_Unsigned _ => 8
  | HeaderValue_Boolean _ => 1
  | HeaderValue_Binary value => len value
  end.

Definition delivery_bytes (message : Frame) : N :=
  match message with
  | Frame_Message m =>
      saturating_add usize_max (len (m_payload m))
        (sum_N ((fun e => len e.1 + header_value_bytes e.2) <$> bt_entries (m_headers m)))
  | _ => 0
  end.

Definition payload_bytes (message : Frame) : N :=
  match message with Frame_Message m => len (m_payload m) | _ => 0 end.

Definition selection_label (selection : ClientSelection) : bytes :=
  match selection with
  | ClientSelection_First => bs "First"
  | ClientSelection_Any => bs "Any"
  | ClientSelection_All => bs "All"
  end.

Definition destination_label (destination : Destination) : bytes :=
  match destination with
  | Destination_Broker => bs "broker"
  | Destination_Peer peer => PeerId_to_string peer
  | Destination_Namespace namespace => Namespace_as_str namespace
  | Destination_Channel channel => Channel_as_str channel
  | Destination_Broadcast => bs "broadcast"
  | Destination_ClientId client_id selection =>
      ClientId_as_str client_id ++ bs ":" ++ selection_label selection
  end.

Definition dbus_component_ok (component : bytes) : bool :=
  match component with
  | [] => false
  | first :: rest =>
      (is_ascii_alphabetic first || byte_eqb first x5f)
      && forallb (fun b => is_ascii_alphanumeric b || byte_eqb b x5f) rest
  end.

Definition validate_dbus_name (name : bytes) : result () () :=
  if bool_decide (name = []) || (255 <? len name) then Err ()
  else if forallb dbus_component_ok (split x2e name) then Ok () else Err ().

(** [{message_id:?}] and [Display for Error]. *)
Definition MessageId_debug (m : MessageId) : bytes :=
  bs "MessageId(["
  ++ concat (match (fun b => dec (byte_val b)) <$> MessageId_as_bytes m with
             | [] => []
             | d :: ds => d :: ((fun d => bs ", " ++ d) <$> ds)
             end)
  ++ bs "])".

Definition Limit_debug (l : Limit) : bytes :=
  match l with
  | Limit_QueuedBytes => bs "QueuedBytes"
  | Limit_QueuedMessages => bs "QueuedMessages"
  | Limit_InFlightRequests => bs "InFlightRequests"
  | Limit_Subscriptions => bs "Subscriptions"
  | Limit_NamespaceClaims => bs "NamespaceClaims"
  end.

Definition Error_to_string (e : Error) : bytes :=
  match e with
  | Error_UnknownPeer peer => bs "unknown peer " ++ PeerId_to_string peer
  | Error_NamespaceAlreadyOwned namespace owner =>
      bs "namespace " ++ Namespace_as_str namespace ++ bs " is already owned by "
      ++ PeerId_to_string owner
  | Error_DbusNameAlreadyOwned name owner =>
      bs "D-Bus name " ++ name ++ bs " is already owned by " ++ PeerId_to_string owner
  | Error_InvalidDbusName name => bs "invalid D-Bus name " ++ name
  | Error_Denied _ => bs "operation denied by policy"
  | Error_PeerIdExhausted => bs "peer identifier space exhausted"
  | Error_ReservedHeader header =>
      bs "claimed header " ++ header ++ bs " is reserved for the broker"
  | Error_NoRecipient => bs "no eligible recipient"
  | Error_InvalidDelivery => bs "invalid delivery frame"
  | Error_DuplicateMessage message_id =>
      bs "message " ++ MessageId_debug message_id ++ bs " is already in flight"
  | Error_UnknownDelivery message_id => bs "unknown delivery " ++ MessageId_debug message_id
  | Error_UnexpectedAcknowledgement message_id =>
      bs "unexpected acknowledgement for " ++ MessageId_debug message_id
  | Error_UnexpectedResponse message_id =>
      bs "unexpected response for " ++ MessageId_debug message_id
  | Error_DeadlineOverflow => bs "message deadline overflowed broker clock"
  | Error_LimitExceeded limit => bs "broker limit exceeded: " ++ Limit_debug limit
  | Error_InvalidPriority =>
      bs "message priority must be an unsigned value from 0 through 7"
  end.

(** ** Operations *)

Section operations.
Context {P : Type} `{Policy P}.

Local Abbreviation broker := (Broker P).
Local Abbreviation handler := (St (Broker P) Error).

(** A [&self] method called from a handler. *)
Definition asks {A} (f : broker -> result Error A) : handler A := fun b => (f b, b).

Definition with_limits (policy : P) (limits : Limits) : broker := {|
  b_policy := policy;
  b_limits := limits;
  b_capabilities := ∅;
  b_next_peer := 1;
  b_peers := ∅;
  b_namespaces := ∅;
  b_dbus_names := ∅;
  b_subscriptions := ∅;
  b_deliveries := ∅;
  b_events := [];
  b_metrics := Metrics_default;
  b_monitor_events := [];
  b_next_monitor_sequence := 1;
|}.

(** [Broker::new]. *)
Definition new (policy : P) : broker := with_limits policy Limits_default.

Definition with_capabilities (policy : P) (capabilities : Capabilities) : broker := {|
  b_policy := policy;
  b_limits := Limits_default;
  b_capabilities := capabilities;
  b_next_peer := 1;
  b_peers := ∅;
  b_namespaces := ∅;
  b_dbus_names := ∅;
  b_subscriptions := ∅;
  b_deliveries := ∅;
  b_events := [];
  b_metrics := Metrics_default;
  b_monitor_events := [];
  b_next_monitor_sequence := 1;
|}.

Definition MAX_MONITOR_EVENTS : N := 1024.

(** The state after [record_monitor]: the oldest record leaves a full window. *)
Definition observe (kind : MonitorKind) (peer : PeerId) (target : option bytes)
    (message_id : option MessageId) (payload : N) (b : broker) : broker :=
  let events := if len (b_monitor_events b) =? MAX_MONITOR_EVENTS
                then tail (b_monitor_events b) else b_monitor_events b in
  let event := {| monitor_sequence := b_next_monitor_sequence b; monitor_kind := kind;
                  monitor_peer := peer; monitor_target := target;
                  monitor_message_id := message_id; monitor_payload_bytes := payload |} in
  set_monitor (events ++ [event]) (saturating_add u64_max (b_next_monitor_sequence b) 1) b.

Definition record_monitor {E} (kind : MonitorKind) (peer : PeerId) (target : option bytes)
    (message_id : option MessageId) (payload : N) : St (Broker P) E () :=
  modify (observe kind peer target message_id payload).

(** [Broker::credentials]. *)
Definition credentials_of (b : broker) (peer : PeerId) : result Error Credentials :=
  ok_or (Error_UnknownPeer peer) (peer_credentials <$> b_peers b !! peer).

Definition authorize (b : broker) (peer : PeerId) (act : Action) : result Error () :=
  p ← ok_or (Error_UnknownPeer peer) (b_peers b !! peer);
  if permits (b_policy b) {| credentials := peer_credentials p;
                             client_id := hello_client_id (peer_hello p);
                             claimed_headers := hello_headers (peer_hello p);
                             action := act |}
  then Ok () else Err (Error_Denied act).

Definition authorize_hello (b : broker) (creds : Credentials) (hello : ClientHello)
    (act : Action) : result Error () :=
  if permits (b_policy b) {| credentials := creds;
                             client_id := hello_client_id hello;
                             claimed_headers := hello_headers hello;
                             action := act |}
  then Ok () else Err (Error_Denied act).

Definition push_event (e : LifecycleEvent) : handler () := modify (set_events (fun l => l ++ [e])).

Definition connect_session (creds : Credentials) (hello : ClientHello) : handler ConnectedPeer :=
  _ ← lift (validate_claimed_headers (hello_headers hello));
  _ ← asks (fun b => authorize_hello b creds hello Action_Connect);
  b ← get_state;
  let id := PeerId_new (b_next_peer b) in
  next ← lift (ok_or Error_PeerIdExhausted (checked_add u64_max (b_next_peer b) 1));
  _ ← modify (set_next_peer next);
  let capabilities := b_capabilities b ∩ hello_capabilities hello in
  _ ← modify (set_peers <[id := {| peer_id := id; peer_credentials := creds; peer_hello := hello;
                                   peer_capabilities := capabilities |}]>);
  _ ← push_event (LifecycleEvent_PeerConnected id);
  _ ← record_monitor MonitorKind_Connected id None None 0;
  mret {| connected_id := id; connected_capabilities := capabilities |}.

(** [Broker::connect]. *)
Definition connect (creds : Credentials) (hello : ClientHello) : handler PeerId :=
  session ← connect_session creds hello; mret (connected_id session).

(** [subscriptions.retain(|_, peers| { peers.remove(&peer); !peers.is_empty() })]. *)
Definition drop_subscriber (peer : PeerId) (peers : gmap PeerId (list HeaderFilter))
    : option (gmap PeerId (list HeaderFilter)) :=
  let peers := delete peer peers in
  if bool_decide (peers = ∅) then None else Some peers.

Definition owned_namespaces (peer : PeerId) (namespaces : gmap Namespace PeerId) : list Namespace :=
  (filter (fun e => e.2 = peer) (bt_entries namespaces)).*1.

Definition release_namespaces (peer : PeerId) (released : list Namespace)
    (events : list LifecycleEvent) : list LifecycleEvent :=
  events ++ ((fun namespace =>
    LifecycleEvent_NamespaceOwnerChanged namespace (Some peer) None) <$> released).

Definition remove_peer (peer : PeerId) : handler () :=
  b ← get_state;
  match b_peers b !! peer with
  | None => fail (Error_UnknownPeer peer)
  | Some _ =>
      _ ← modify (set_peers (delete peer));
      let released := owned_namespaces peer (b_namespaces b) in
      _ ← modify (set_namespaces (filter (fun e => e.2 <> peer)));
      _ ← modify (set_dbus_names (filter (fun e => e.2 <> peer)));
      _ ← modify (set_events (release_namespaces peer released));
      _ ← modify (set_subscriptions (omap (drop_subscriber peer)));
      _ ← push_event (LifecycleEvent_PeerDisconnected peer);
      record_monitor MonitorKind_Disconnected peer None None 0
  end.

Definition claims_of (b : broker) (peer : PeerId) : N :=
  len (filter (fun owner => owner = peer) (bt_values (b_namespaces b))).

Definition claim (peer : PeerId) (namespace : Namespace) : handler () :=
  _ ← asks (fun b => authorize b peer (Action_ClaimNamespace namespace));
  b ← get_state;
  if maximum_namespace_claims (b_limits b) <=? claims_of b peer
  then fail (Error_LimitExceeded Limit_NamespaceClaims)
  else
    match b_namespaces b !! namespace with
    | Some owner => fail (Error_NamespaceAlreadyOwned namespace owner)
    | None =>
        _ ← modify (set_namespaces <[namespace := peer]>);
        _ ← push_event (LifecycleEvent_NamespaceOwnerChanged namespace None (Some peer));
        record_monitor MonitorKind_NamespaceClaimed peer (Some (Namespace_as_str namespace)) None 0
    end.

Definition is_subscribed (b : broker) (peer : PeerId) (channel : Channel) : bool :=
  match b_subscriptions b !! channel with
  | Some subscribers => bool_decide (is_Some (subscribers !! peer))
  | None => false
  end.

Definition subscriptions_of (b : broker) (peer : PeerId) : N :=
  len (filter (fun subscribers : gmap PeerId (list HeaderFilter) => is_Some (subscribers !! peer))
         (bt_values (b_subscriptions b))).

Definition subscribe_with_filters (peer : PeerId) (channel : Channel)
    (filters : list HeaderFilter) : handler () :=
  _ ← asks (fun b => authorize b peer (Action_Subscribe channel));
  b ← get_state;
  if negb (is_subscribed b peer channel)
     && (maximum_subscriptions (b_limits b) <=? subscriptions_of b peer)
  then fail (Error_LimitExceeded Limit_Subscriptions)
  else
    _ ← modify (set_subscriptions (fun subscriptions =>
          <[channel := <[peer := filters]> (default ∅ (subscriptions !! channel))]> subscriptions));
    record_monitor MonitorKind_Subscribed peer (Some (Channel_as_str channel)) None 0.

Definition subscribe (peer : PeerId) (channel : Channel) : handler () :=
  subscribe_with_filters peer channel [].

Definition unsubscribe (peer : PeerId) (channel : Channel) : handler () :=
  _ ← asks (fun b => credentials_of b peer);
  modify (set_subscriptions (fun subscriptions =>
    match subscriptions !! channel with
    | Some peers =>
        let peers := delete peer peers in
        if bool_decide (peers = ∅) then delete channel subscriptions
        else <[channel := peers]> subscriptions
    | None => subscriptions
    end)).

Definition namespace_owner (b : broker) (namespace : Namespace) : option PeerId :=
  b_namespaces b !! namespace.

Definition register_dbus_name (peer : PeerId) (name : bytes) : handler () :=
  _ ← lift (map_err (fun _ => Error_InvalidDbusName name) (validate_dbus_name name));
  _ ← asks (fun b => authorize b peer (Action_RegisterDbusName name));
  b ← get_state;
  match b_dbus_names b !! name with
  | Some owner => fail (Error_DbusNameAlreadyOwned name owner)
  | None => modify (set_dbus_names <[name := peer]>)
  end.

Definition dbus_name_owner (b : broker) (name : bytes) : option PeerId := b_dbus_names b !! name.

Definition subscribers (b : broker) (channel : Channel) : list PeerId :=
  match b_subscriptions b !! channel with Some peers => bt_keys peers | None => [] end.

Definition peer (b : broker) (id : PeerId) : option Peer := b_peers b !! id.

(** ** Routing *)

(** The selection of recipients in [route], before the emptiness check. *)
Definition select_recipients (b : broker) (sender : PeerId) (destination : Destination)
    (headers : Headers) : result Error (list PeerId) :=
  match destination with
  | Destination_Broker => Err Error_NoRecipient
  | Destination_Peer peer =>
      _ ← authorize b sender (Action_SendPeer peer);
      Ok (if bool_decide (is_Some (b_peers b !! peer)) then [peer] else [])
  | Destination_Namespace namespace =>
      _ ← authorize b sender (Action_SendNamespace namespace);
      Ok (match namespace_owner b namespace with Some owner => [owner] | None => [] end)
  | Destination_Channel channel =>
      _ ← authorize b sender (Action_Publish channel);
      Ok (match b_subscriptions b !! channel with
          | Some subscribers =>
              (filter (fun e => filters_match e.2 headers = true) (bt_entries subscribers)).*1
          | None => []
          end)
  | Destination_ClientId client_id selection =>
      _ ← authorize b sender (Action_SendClient client_id);
      let matching := peer_id <$>
        filter (fun p => hello_client_id (peer_hello p) = Some client_id) (bt_values (b_peers b)) in
      Ok (match selection with
          | ClientSelection_First | ClientSelection_Any => take 1 matching
          | ClientSelection_All => matching
          end)
  | Destination_Broadcast =>
      _ ← authorize b sender Action_Broadcast;
      Ok (filter (fun peer => peer <> sender) (bt_keys (b_peers b)))
  end.

Definition route (b : broker) (sender : PeerId) (destination : Destination)
    (headers : Headers) : result Error (list PeerId) :=
  _ ← credentials_of b sender;
  recipients ← select_recipients b sender destination headers;
  match destination with
  | Destination_Channel _ | Destination_Broadcast => Ok recipients
  | _ => if bool_decide (recipients = []) then Err Error_NoRecipient else Ok recipients
  end.

(** ** Reliable delivery *)

Definition sent_by (b : broker) (sender : PeerId) : list PendingDelivery :=
  filter (fun pending => pd_sender pending = sender) (bt_values (b_deliveries b)).

Definition is_request (message : Frame) : bool :=
  match message with
  | Frame_Message m => bool_decide (m_kind m = MessageKind_Request)
  | _ => false
  end.

Definition ensure_delivery_capacity (b : broker) (sender : PeerId) (message : Frame)
    (request : bool) : result Error () :=
  let queued := sent_by b sender in
  if maximum_queued_messages (b_limits b) <=? len queued
  then Err (Error_LimitExceeded Limit_QueuedMessages)
  else
    let used_bytes := sum_N ((fun pending => delivery_bytes (pd_message pending)) <$> queued) in
    if maximum_queued_bytes (b_limits b)
       <? saturating_add usize_max used_bytes (delivery_bytes message)
    then Err (Error_LimitExceeded Limit_QueuedBytes)
    else if request
            && (maximum_in_flight_requests (b_limits b)
                <=? len (filter (fun pending => is_request (pd_message pending) = true) queued))
    then Err (Error_LimitExceeded Limit_InFlightRequests)
    else Ok ().

(** The forwarded message of [complete_response]. *)
Definition response_forward (policy : RequestPolicy) (status : Status) (completed : bool)
    (message : Frame) (responses : gmap PeerId Frame) : option Frame :=
  match policy with
  | RequestPolicy_Exact | RequestPolicy_First | RequestPolicy_All => Some message
  | RequestPolicy_FirstSuccess =>
      if bool_decide (status = Status_Success) then Some message
      else if completed then head (bt_values responses)
      else None
  end.

Definition response_completed (policy : RequestPolicy) (status : Status)
    (responses recipients : N) : bool :=
  match policy with
  | RequestPolicy_Exact | RequestPolicy_First => true
  | RequestPolicy_FirstSuccess =>
      bool_decide (status = Status_Success) || (responses =? recipients)
  | RequestPolicy_All => responses =? recipients
  end.

Definition set_pd_responses (responses : gmap PeerId Frame) (p : PendingDelivery)
    : PendingDelivery := {|
  pd_sender := pd_sender p;
  pd_message := pd_message p;
  pd_recipients := pd_recipients p;
  pd_acknowledgements := pd_acknowledgements p;
  pd_responses := responses;
  pd_acknowledgement_complete := pd_acknowledgement_complete p;
  pd_deadline_ms := pd_deadline_ms p;
  pd_attempts := pd_attempts p;
  pd_next_retry_ms := pd_next_retry_ms p;
  pd_priority := pd_priority p;
|}.

Definition complete_response (sender : PeerId) (message : Frame) : handler (list DeliveryEvent) :=
  match message with
  | Frame_Message m =>
      let correlation_id := m_correlation_id m in
      let status := m_status m in
      b ← get_state;
      pending ← lift (ok_or (Error_UnknownDelivery correlation_id)
                        (b_deliveries b !! correlation_id));
      match pd_message pending with
      | Frame_Message request =>
          if negb (bool_decide (m_kind request = MessageKind_Request))
          then fail (Error_UnexpectedResponse correlation_id)
          else if negb (bool_decide (sender ∈ pd_recipients pending))
                  || bool_decide (is_Some (pd_responses pending !! sender))
          then fail (Error_UnexpectedResponse correlation_id)
          else
            let requester := pd_sender pending in
            let responses := <[sender := message]> (pd_responses pending) in
            let pending := set_pd_responses responses pending in
            _ ← modify (set_deliveries <[correlation_id := pending]>);
            let completed := response_completed (m_request_policy request) status
                               (bt_len responses) (bs_len (pd_recipients pending)) in
            let forward := response_forward (m_request_policy request) status completed
                             message responses in
            _ ← (if completed then modify (set_deliveries (delete correlation_id)) else mret ());
            mret (match forward with
                  | Some message => [DeliveryEvent_Deliver sender [requester] message]
                  | None => []
                  end)
      | _ => fail (Error_UnexpectedResponse correlation_id)
      end
  | _ => fail Error_InvalidDelivery
  end.

(** The metrics of a routed message. *)
Definition count_routed (recipients payload : N) (m : Metrics) : Metrics := {|
  messages_routed := saturating_add u64_max (messages_routed m) recipients;
  bytes_routed :=
    saturating_add u64_max (bytes_routed m) (saturating_mul u64_max payload recipients);
  timeouts := timeouts m;
  retries := retries m;
  dropped_signals := dropped_signals m;
|}.
Definition count_dropped (m : Metrics) : Metrics := {|
  messages_routed := messages_routed m; bytes_routed := bytes_routed m;
  timeouts := timeouts m; retries := retries m;
  dropped_signals := saturating_add u64_max (dropped_signals m) 1;
|}.
Definition count_timeout (m : Metrics) : Metrics := {|
  messages_routed := messages_routed m; bytes_routed := bytes_routed m;
  timeouts := saturating_add u64_max (timeouts m) 1; retries := retries m;
  dropped_signals := dropped_signals m;
|}.
Definition count_retry (m : Metrics) : Metrics := {|
  messages_routed := messages_routed m; bytes_routed := bytes_routed m;
  timeouts := timeouts m; retries := saturating_add u64_max (retries m) 1;
  dropped_signals := dropped_signals m;
|}.

Definition no_recipient_result (sender : PeerId) (m : Message) : list DeliveryEvent :=
  [DeliveryEvent_Result sender (m_message_id m) DeliveryOutcome_NoRecipient].

(** [begin_delivery] once the recipients are selected. *)
Definition deliver_to (sender : PeerId) (m : Message) (priority now_ms : N)
    (selected : list PeerId) : handler (list DeliveryEvent) :=
  let message := Frame_Message m in
  let recipients : gset PeerId := list_to_set selected in
  let count := bs_len recipients in
  let payload := payload_bytes message in
  let nobody := bool_decide (recipients = ∅) in
  let request := bool_decide (m_kind m = MessageKind_Request) in
  let tracked := request || ack_policy_waits (m_ack_policy m) in
  _ ← modify (set_metrics (count_routed count payload));
  _ ← record_monitor (if nobody then MonitorKind_DroppedSignal else MonitorKind_Delivered)
        sender (Some (destination_label (m_destination m))) (Some (m_message_id m)) payload;
  _ ← (if nobody && bool_decide (m_kind m = MessageKind_Signal)
       then modify (set_metrics count_dropped) else mret ());
  if nobody && tracked then mret (no_recipient_result sender m)
  else if negb (requirement_possible (m_ack_requirement m) count)
  then mret (no_recipient_result sender m)
  else
    let events :=
      DeliveryEvent_Deliver sender (bs_elems recipients) message ::
      (if bool_decide (m_ack_policy m = AckPolicy_Accepted)
       then [DeliveryEvent_Result sender (m_message_id m) DeliveryOutcome_Accepted]
       else []) in
    if tracked then
      _ ← asks (fun b => ensure_delivery_capacity b sender message request);
      deadline_ms ← lift (ok_or Error_DeadlineOverflow
                           (checked_add u64_max now_ms (m_deadline_ms m)));
      _ ← modify (set_deliveries <[m_message_id m := {|
            pd_sender := sender;
            pd_message := message;
            pd_recipients := recipients;
            pd_acknowledgements := ∅;
            pd_responses := ∅;
            pd_acknowledgement_complete := false;
            pd_deadline_ms := deadline_ms;
            pd_attempts := 1;
            pd_next_retry_ms := retry_next (m_retry m) now_ms 1;
            pd_priority := priority;
          |}]>);
      mret events
    else mret events.

Definition begin_delivery (sender : PeerId) (message : Frame) (now_ms : N)
    : handler (list DeliveryEvent) :=
  match message with
  | Frame_Message m =>
      _ ← asks (fun b => credentials_of b sender);
      _ ← lift (validate_message_headers (m_headers m));
      priority ← lift (message_priority (m_headers m));
      if bool_decide (m_kind m = MessageKind_Response) then complete_response sender message
      else
        b ← get_state;
        if bool_decide (is_Some (b_deliveries b !! m_message_id m))
        then fail (Error_DuplicateMessage (m_message_id m))
        else
          match route b sender (m_destination m) (m_headers m) with
          | Ok selected => deliver_to sender m priority now_ms selected
          | Err Error_NoRecipient => mret (no_recipient_result sender m)
          | Err error => fail error
          | Panic => lift Panic
          end
  | _ => fail Error_InvalidDelivery
  end.

(** ** Acknowledgements *)

Definition set_pd_acknowledgements (acknowledgements : gset PeerId) (complete : bool)
    (p : PendingDelivery) : PendingDelivery := {|
  pd_sender := pd_sender p;
  pd_message := pd_message p;
  pd_recipients := pd_recipients p;
  pd_acknowledgements := acknowledgements;
  pd_responses := pd_responses p;
  pd_acknowledgement_complete := complete;
  pd_deadline_ms := pd_deadline_ms p;
  pd_attempts := pd_attempts p;
  pd_next_retry_ms := pd_next_retry_ms p;
  pd_priority := pd_priority p;
|}.

Definition acknowledge (peer : PeerId) (message_id : MessageId) (policy : AckPolicy)
    : handler (list DeliveryEvent) :=
  _ ← asks (fun b => authorize b peer Action_Acknowledge);
  b ← get_state;
  pending ← lift (ok_or (Error_UnknownDelivery message_id) (b_deliveries b !! message_id));
  match pd_message pending with
  | Frame_Message m =>
      if negb (bool_decide (peer ∈ pd_recipients pending))
         || negb (acknowledgement_satisfies (m_ack_policy m) policy)
      then fail (Error_UnexpectedAcknowledgement message_id)
      else
        let acknowledgements := {[peer]} ∪ pd_acknowledgements pending in
        let already := pd_acknowledgement_complete pending in
        _ ← modify (set_deliveries
              <[message_id := set_pd_acknowledgements acknowledgements already pending]>);
        let complete := negb already
          && requirement_met (m_ack_requirement m) (bs_len acknowledgements)
               (bs_len (pd_recipients pending)) in
        outcome ← match m_ack_policy m with
                  | AckPolicy_Received => mret DeliveryOutcome_Received
                  | AckPolicy_Processed => mret DeliveryOutcome_Processed
                  | AckPolicy_None | AckPolicy_Accepted =>
                      fail (Error_UnexpectedAcknowledgement message_id)
                  end;
        _ ← (if complete then
               modify (set_deliveries
                 <[message_id := set_pd_acknowledgements acknowledgements true pending]>)
             else mret ());
        _ ← record_monitor MonitorKind_Acknowledged peer None (Some message_id) 0;
        if negb complete then mret []
        else
          _ ← (if negb (bool_decide (m_kind m = MessageKind_Request))
               then modify (set_deliveries (delete message_id)) else mret ());
          mret [DeliveryEvent_Result (pd_sender pending) message_id outcome]
  | _ => fail Error_InvalidDelivery
  end.

(** ** The clock *)

(** [tick] cannot fail; [Panic] is its [expect] and the overflow of
    [attempts += 1]. *)
Local Abbreviation ticking := (St (Broker P) Empty_set).

Definition set_pd_attempts (attempts : N) (next : option N) (p : PendingDelivery)
    : PendingDelivery := {|
  pd_sender := pd_sender p;
  pd_message := pd_message p;
  pd_recipients := pd_recipients p;
  pd_acknowledgements := pd_acknowledgements p;
  pd_responses := pd_responses p;
  pd_acknowledgement_complete := pd_acknowledgement_complete p;
  pd_deadline_ms := pd_deadline_ms p;
  pd_attempts := attempts;
  pd_next_retry_ms := next;
  pd_priority := pd_priority p;
|}.

Definition frame_retry (message : Frame) : RetryPolicy :=
  match message with Frame_Message m => m_retry m | _ => RetryPolicy_None end.

(** One iteration of the loop of [tick]: the events and retries it adds. *)
Definition tick_one (now_ms : N) (message_id : MessageId)
    : ticking (list DeliveryEvent * list (N * DeliveryEvent)) :=
  b ← get_state;
  match b_deliveries b !! message_id with
  | None => mret ([], [])
  | Some pending =>
      let sender := pd_sender pending in
      if pd_deadline_ms pending <=? now_ms then
        _ ← modify (set_deliveries (delete message_id));
        _ ← modify (set_metrics count_timeout);
        _ ← record_monitor MonitorKind_TimedOut sender None (Some message_id) 0;
        mret ([DeliveryEvent_Result sender message_id DeliveryOutcome_Timeout], [])
      else
        match pd_next_retry_ms pending with
        | None => mret ([], [])
        | Some next_retry_ms =>
            if now_ms <? next_retry_ms then mret ([], [])
            else
              pending ← lift (expect (b_deliveries b !! message_id));
              match frame_retry (pd_message pending) with
              | RetryPolicy_None => mret ([], [])
              | RetryPolicy_Exponential _ max_attempts as retry =>
                  if max_attempts <=? pd_attempts pending then
                    _ ← modify (set_deliveries (delete message_id));
                    mret ([DeliveryEvent_Result sender message_id DeliveryOutcome_DeliveryFailed], [])
                  else
                    attempts ← lift (expect (checked_add u8_max (pd_attempts pending) 1));
                    let pending := set_pd_attempts attempts (retry_next retry now_ms attempts) pending in
                    _ ← modify (set_deliveries <[message_id := pending]>);
                    _ ← modify (set_metrics count_retry);
                    _ ← record_monitor MonitorKind_Retried sender None (Some message_id)
                          (delivery_bytes (pd_message pending));
                    mret ([], [(pd_priority pending,
                                DeliveryEvent_Deliver sender
                                  (bs_elems (pd_recipients pending ∖ pd_acknowledgements pending))
                                  (pd_message pending))])
              end
        end
  end.

Fixpoint tick_loop (now_ms : N) (ids : list MessageId) (events : list DeliveryEvent)
    (retries : list (N * DeliveryEvent))
    : ticking (list DeliveryEvent * list (N * DeliveryEvent)) :=
  match ids with
  | [] => mret (events, retries)
  | id :: ids =>
      '(e, r) ← tick_one now_ms id;
      tick_loop now_ms ids (events ++ e) (retries ++ r)
  end.

(** [retries.sort_by(|(left, _), (right, _)| right.cmp(left))]. *)
Definition by_priority_desc (left right : N * DeliveryEvent) : comparison := cmp right.1 left.1.

Definition tick (now_ms : N) : ticking (list DeliveryEvent) :=
  b ← get_state;
  '(events, retries) ← tick_loop now_ms (bt_keys (b_deliveries b)) [] [];
  mret (events ++ (sort_by by_priority_desc retries).*2).

(** ** Disconnection *)

Fixpoint drop_deliveries (affected : list (MessageId * PeerId)) : handler (list DeliveryEvent) :=
  match affected with
  | [] => mret []
  | (message_id, sender) :: affected =>
      _ ← modify (set_deliveries (delete message_id));
      events ← drop_deliveries affected;
      mret (DeliveryEvent_Result sender message_id DeliveryOutcome_RecipientDisconnected :: events)
  end.

Definition disconnect_with_events (peer : PeerId) : handler (list DeliveryEvent) :=
  _ ← remove_peer peer;
  b ← get_state;
  drop_deliveries
    ((fun e => (e.1, pd_sender e.2)) <$>
     filter (fun e => peer ∈ pd_recipients e.2) (bt_entries (b_deliveries b))).

Definition disconnect (peer : PeerId) : handler () :=
  _ ← disconnect_with_events peer; mret ().

(** ** Listings *)

Record PeerInfo := {
  info_id : PeerId;
  info_client_id : option ClientId;
  info_claimed_headers : Headers;
  info_credentials : Credentials;
  info_capabilities : Capabilities;
}.

Definition PeerInfo_from (p : Peer) : PeerInfo := {|
  info_id := peer_id p;
  info_client_id := hello_client_id (peer_hello p);
  info_claimed_headers := hello_headers (peer_hello p);
  info_credentials := peer_credentials p;
  info_capabilities := peer_capabilities p;
|}.

Record SubscriptionInfo := {
  info_channel : Channel;
  info_subscribers : list (PeerId * list HeaderFilter);
}.

Definition peers (b : broker) : list PeerInfo := PeerInfo_from <$> bt_values (b_peers b).

Definition namespaces (b : broker) : list (Namespace * PeerId) := bt_entries (b_namespaces b).

Definition subscriptions (b : broker) : list SubscriptionInfo :=
  (fun e => {| info_channel := e.1; info_subscribers := bt_entries e.2 |})
    <$> bt_entries (b_subscriptions b).

Definition drain_events : handler (list LifecycleEvent) :=
  b ← get_state; _ ← modify (set_events (fun _ => [])); mret (b_events b).

Definition monitor_events (b : broker) (peer : PeerId) : result Error (list MonitorEvent) :=
  _ ← authorize b peer Action_Monitor; Ok (b_monitor_events b).

Definition metrics (b : broker) : MetricsSnapshot := {|
  connected_peers := bt_len (b_peers b);
  snapshot_namespaces := bt_len (b_namespaces b);
  snapshot_subscriptions := sum_N (bt_len <$> bt_values (b_subscriptions b));
  totals := b_metrics b;
|}.

End operations.
