(* ===== verification/Effects.v ===== *)
(** * What each broker handler does to the state

    For every handler, the cases in which it fails (and that it then leaves the
    state alone, or what it had already counted) and the state it reaches when
    it succeeds.  The invariants and the functional theorems are proved from
    these lemmas, not from the handlers' code. *)

From S2P Require Export Broker PolicyFacts.

Local Open Scope N_scope.

(** Runs a handler symbolically: splits on the tests it makes. *)
Ltac run_handler H :=
  repeat (cbv [mbind St_bind result_bind mret St_ret result_ret lift fail get_state modify asks
               record_monitor push_event expect ok_or map_err] in H; cbn beta iota zeta in H;
    match type of H with
    | context [match ?x with _ => _ end] =>
        lazymatch x with
        | context [match _ with _ => _ end] => fail
        | _ => let E := fresh "E" in destruct x eqn:E
        end
    end).

Section effects.
Context {P : Type} `{Policy P}.

Local Abbreviation broker := (Broker P).

(** The peer exists and the policy permits its action. *)
Definition permitted (b : broker) (peer : PeerId) (act : Action) : Prop :=
  exists p, b_peers b !! peer = Some p /\
    permits (b_policy b) {| credentials := peer_credentials p;
                            client_id := hello_client_id (peer_hello p);
                            claimed_headers := hello_headers (peer_hello p);
                            action := act |} = true.

Lemma authorize_cases (b : broker) peer act :
  match authorize b peer act with
  | Ok _ => permitted b peer act
  | Err e => ~ permitted b peer act /\
      (e = Error_UnknownPeer peer /\ b_peers b !! peer = None \/
       e = Error_Denied act /\ is_Some (b_peers b !! peer))
  | Panic => False
  end.
Proof.
  unfold authorize, permitted. cbn. destruct (b_peers b !! peer) as [p|]; cbn.
  - destruct (permits _ _) eqn:E; [by exists p|]. split; [|right; eauto].
    intros (p' & [= <-] & Hp). congruence.
  - split; [by intros (? & ? & _) | by left].
Qed.

Lemma credentials_of_cases (b : broker) peer :
  match credentials_of b peer with
  | Ok c => exists p, b_peers b !! peer = Some p /\ c = peer_credentials p
  | Err e => e = Error_UnknownPeer peer /\ b_peers b !! peer = None
  | Panic => False
  end.
Proof. unfold credentials_of. cbn. destruct (b_peers b !! peer) as [p|]; cbn; [by exists p | done]. Qed.

Lemma authorize_hello_no_panic (b : broker) creds hello act :
  authorize_hello b creds hello act <> Panic.
Proof. unfold authorize_hello. by destruct (permits _ _). Qed.

(** Header names a client may not use. *)
Definition reserved (name : bytes) : Prop :=
  exists prefix rest, prefix ∈ [bs "broker."; bs "peer."; bs "auth."] /\ name = prefix ++ rest.

Lemma starts_with_any_iff name prefixes :
  starts_with_any name prefixes = true <-> exists p r, p ∈ prefixes /\ name = p ++ r.
Proof.
  unfold starts_with_any. rewrite existsb_exists. setoid_rewrite <- list_elem_of_In.
  setoid_rewrite starts_with_iff. split.
  - intros (p & Hp & r & ->). by exists p, r.
  - intros (p & r & Hp & ->). exists p. split; [done|]. by exists r.
Qed.

Lemma reject_reserved_cases prefixes names :
  (forall p, p ∈ prefixes <-> p ∈ [bs "broker."; bs "peer."; bs "auth."]) ->
  match reject_reserved prefixes names with
  | Ok _ => Forall (fun n => ~ reserved n) names
  | Err e => exists n, n ∈ names /\ reserved n /\ e = Error_ReservedHeader n
  | Panic => False
  end.
Proof.
  intros Hp. assert (forall n, starts_with_any n prefixes = true <-> reserved n) as Hr.
  { intros n. rewrite starts_with_any_iff. unfold reserved. by setoid_rewrite Hp. }
  induction names as [|n names IH]; cbn [reject_reserved]; [constructor|].
  destruct (starts_with_any n prefixes) eqn:E.
  - exists n. apply Hr in E. split; [left|]. done.
  - assert (~ reserved n) as Hn by (intros ?%Hr; congruence).
    destruct (reject_reserved prefixes names) as [|e|]; [by constructor| |done].
    destruct IH as (n' & Hin & ? & ->). exists n'. split; [by right|]. done.
Qed.

(** No header of a validated message is broker-owned. *)
Definition no_reserved (headers : Headers) : Prop :=
  forall name, is_Some (headers !! name) -> ~ reserved name.

Lemma validate_headers_cases prefixes headers :
  (forall p, p ∈ prefixes <-> p ∈ [bs "broker."; bs "peer."; bs "auth."]) ->
  match reject_reserved prefixes (bt_keys headers) with
  | Ok _ => no_reserved headers
  | Err e => exists n, is_Some (headers !! n) /\ reserved n /\ e = Error_ReservedHeader n
  | Panic => False
  end.
Proof.
  intros Hp. pose proof (reject_reserved_cases prefixes (bt_keys headers) Hp) as Hc.
  destruct (reject_reserved _ _).
  - intros n Hn. rewrite Forall_forall in Hc. by apply Hc, elem_of_bt_keys.
  - destruct Hc as (n & Hn%elem_of_bt_keys & ? & ?). by exists n.
  - done.
Qed.

Lemma validate_claimed_headers_cases headers :
  match validate_claimed_headers headers with
  | Ok _ => no_reserved headers
  | Err e => exists n, is_Some (headers !! n) /\ reserved n /\ e = Error_ReservedHeader n
  | Panic => False
  end.
Proof. apply validate_headers_cases. intros p. rewrite !elem_of_cons. tauto. Qed.

Lemma validate_message_headers_cases headers :
  match validate_message_headers headers with
  | Ok _ => no_reserved headers
  | Err e => exists n, is_Some (headers !! n) /\ reserved n /\ e = Error_ReservedHeader n
  | Panic => False
  end.
Proof. by apply validate_headers_cases. Qed.

Lemma message_priority_cases headers :
  match message_priority headers with
  | Ok n => n <= 7 /\ headers !! bs "priority" =
              (if n =? 0 then headers !! bs "priority" else Some (HeaderValue_Unsigned n))
  | Err e => e = Error_InvalidPriority
  | Panic => False
  end.
Proof.
  unfold message_priority. destruct (headers !! bs "priority") as [[]|]; try done.
  destruct (N.leb_spec value 7); [|done]. split; [done|]. by destruct (value =? 0).
Qed.

Definition connected (creds : Credentials) (hello : ClientHello) (b : broker) : broker :=
  let id := PeerId_new (b_next_peer b) in
  observe MonitorKind_Connected id None None 0
    (set_events (fun l => l ++ [LifecycleEvent_PeerConnected id])
      (set_peers <[id := {| peer_id := id; peer_credentials := creds; peer_hello := hello;
                            peer_capabilities := b_capabilities b ∩ hello_capabilities hello |}]>
        (set_next_peer (b_next_peer b + 1) b))).

Lemma connect_session_effect creds hello (b b' : broker) r :
  connect_session creds hello b = (r, b') ->
  match r with
  | Ok session =>
      b' = connected creds hello b /\ b_next_peer b < u64_max /\
      session = {| connected_id := PeerId_new (b_next_peer b);
                   connected_capabilities := b_capabilities b ∩ hello_capabilities hello |} /\
      validate_claimed_headers (hello_headers hello) = Ok () /\
      authorize_hello b creds hello Action_Connect = Ok ()
  | Err _ => b' = b
  | Panic => False
  end.
Proof.
  unfold connect_session. intros Hr.
  pose proof (validate_claimed_headers_cases (hello_headers hello)) as Hv.
  pose proof (authorize_hello_no_panic b creds hello Action_Connect) as Ha.
  run_handler Hr; simplify_eq; try done.
  apply checked_add_Some in E1 as [-> Hle]. destruct a, a0.
  split; [done|]. split; [lia|]. done.
Qed.

Definition removed (peer : PeerId) (b : broker) : broker :=
  observe MonitorKind_Disconnected peer None None 0
    (set_events (fun l => release_namespaces peer (owned_namespaces peer (b_namespaces b)) l
                          ++ [LifecycleEvent_PeerDisconnected peer])
      (set_subscriptions (omap (drop_subscriber peer))
        (set_dbus_names (filter (fun e => e.2 <> peer))
          (set_namespaces (filter (fun e => e.2 <> peer))
            (set_peers (delete peer) b))))).

Lemma remove_peer_effect peer (b b' : broker) r :
  remove_peer peer b = (r, b') ->
  match r with
  | Ok _ => is_Some (b_peers b !! peer) /\ b' = removed peer b
  | Err e => b' = b /\ e = Error_UnknownPeer peer /\ b_peers b !! peer = None
  | Panic => False
  end.
Proof. unfold remove_peer. intros Hr. run_handler Hr; simplify_eq; eauto. Qed.

Definition claimed (peer : PeerId) (namespace : Namespace) (b : broker) : broker :=
  observe MonitorKind_NamespaceClaimed peer (Some (Namespace_as_str namespace)) None 0
    (set_events (fun l => l ++ [LifecycleEvent_NamespaceOwnerChanged namespace None (Some peer)])
      (set_namespaces <[namespace := peer]> b)).

Lemma claim_effect peer namespace (b b' : broker) r :
  claim peer namespace b = (r, b') ->
  match r with
  | Ok _ => b' = claimed peer namespace b /\ permitted b peer (Action_ClaimNamespace namespace) /\
            claims_of b peer < maximum_namespace_claims (b_limits b) /\
            b_namespaces b !! namespace = None
  | Err e => b' = b /\
      (~ permitted b peer (Action_ClaimNamespace namespace) /\
         (e = Error_UnknownPeer peer \/ e = Error_Denied (Action_ClaimNamespace namespace)) \/
       permitted b peer (Action_ClaimNamespace namespace) /\
         (e = Error_LimitExceeded Limit_NamespaceClaims /\
            maximum_namespace_claims (b_limits b) <= claims_of b peer \/
          exists owner, e = Error_NamespaceAlreadyOwned namespace owner /\
            b_namespaces b !! namespace = Some owner))
  | Panic => False
  end.
Proof.
  unfold claim. intros Hr.
  pose proof (authorize_cases b peer (Action_ClaimNamespace namespace)) as Ha.
  run_handler Hr; simplify_eq; try done.
  - apply N.leb_le in E0. eauto 10.
  - eauto 10.
  - apply N.leb_gt in E0. done.
  - split; [done|]. left. tauto.
Qed.

Definition subscribed (peer : PeerId) (channel : Channel) (filters : list HeaderFilter)
    (b : broker) : broker :=
  observe MonitorKind_Subscribed peer (Some (Channel_as_str channel)) None 0
    (set_subscriptions (fun subscriptions =>
      <[channel := <[peer := filters]> (default ∅ (subscriptions !! channel))]> subscriptions) b).

Lemma subscribe_effect peer channel filters (b b' : broker) r :
  subscribe_with_filters peer channel filters b = (r, b') ->
  match r with
  | Ok _ => b' = subscribed peer channel filters b /\ permitted b peer (Action_Subscribe channel) /\
            (is_subscribed b peer channel = true \/
             subscriptions_of b peer < maximum_subscriptions (b_limits b))
  | Err e => b' = b /\
      (~ permitted b peer (Action_Subscribe channel) /\
         (e = Error_UnknownPeer peer \/ e = Error_Denied (Action_Subscribe channel)) \/
       permitted b peer (Action_Subscribe channel) /\
         e = Error_LimitExceeded Limit_Subscriptions /\
         is_subscribed b peer channel = false /\
         maximum_subscriptions (b_limits b) <= subscriptions_of b peer)
  | Panic => False
  end.
Proof.
  unfold subscribe_with_filters. intros Hr.
  pose proof (authorize_cases b peer (Action_Subscribe channel)) as Ha.
  run_handler Hr; simplify_eq; try done.
  - apply andb_true_iff in E0 as [?%negb_true_iff ?%N.leb_le]. eauto 10.
  - split; [done|]. split; [done|]. apply andb_false_iff in E0 as [?%negb_false_iff|?%N.leb_gt]; auto.
  - split; [done|]. left. tauto.
Qed.

Definition unsubscribed (peer : PeerId) (channel : Channel) (b : broker) : broker :=
  set_subscriptions (fun subscriptions =>
    match subscriptions !! channel with
    | Some peers =>
        let peers := delete peer peers in
        if bool_decide (peers = ∅) then delete channel subscriptions
        else <[channel := peers]> subscriptions
    | None => subscriptions
    end) b.

Lemma unsubscribe_effect peer channel (b b' : broker) r :
  unsubscribe peer channel b = (r, b') ->
  match r with
  | Ok _ => b' = unsubscribed peer channel b /\ is_Some (b_peers b !! peer)
  | Err e => b' = b /\ e = Error_UnknownPeer peer /\ b_peers b !! peer = None
  | Panic => False
  end.
Proof.
  unfold unsubscribe. intros Hr. pose proof (credentials_of_cases b peer) as Hc.
  run_handler Hr; simplify_eq; try done.
  destruct Hc as (p & ? & _). split; [done|]. by exists p.
Qed.

Lemma register_dbus_name_effect peer name (b b' : broker) r :
  register_dbus_name peer name b = (r, b') ->
  match r with
  | Ok _ => b' = set_dbus_names <[name := peer]> b /\ validate_dbus_name name = Ok () /\
            permitted b peer (Action_RegisterDbusName name) /\ b_dbus_names b !! name = None
  | Err e => b' = b /\
      (e = Error_InvalidDbusName name /\ validate_dbus_name name = Err () \/
       ~ permitted b peer (Action_RegisterDbusName name) /\
         (e = Error_UnknownPeer peer \/ e = Error_Denied (Action_RegisterDbusName name)) \/
       exists owner, e = Error_DbusNameAlreadyOwned name owner /\ b_dbus_names b !! name = Some owner)
  | Panic => False
  end.
Proof.
  unfold register_dbus_name. intros Hr.
  pose proof (authorize_cases b peer (Action_RegisterDbusName name)) as Ha.
  assert (validate_dbus_name name <> Panic) as Hv.
  { unfold validate_dbus_name. by repeat destruct (_ : bool). }
  run_handler Hr; simplify_eq; try done.
  all: repeat match goal with x : () |- _ => destruct x end; try done.
  all: split; [done|]; eauto 10; naive_solver.
Qed.

(** ** Routing a new message *)

Definition tracked (m : Message) : bool :=
  bool_decide (m_kind m = MessageKind_Request) || ack_policy_waits (m_ack_policy m).

Definition delivery_events (sender : PeerId) (m : Message) (recipients : gset PeerId)
    : list DeliveryEvent :=
  DeliveryEvent_Deliver sender (bs_elems recipients) (Frame_Message m) ::
  (if bool_decide (m_ack_policy m = AckPolicy_Accepted)
   then [DeliveryEvent_Result sender (m_message_id m) DeliveryOutcome_Accepted] else []).

(** The counters and the record of a routed message. *)
Definition counted (sender : PeerId) (m : Message) (recipients : gset PeerId) (b : broker)
    : broker :=
  let nobody := bool_decide (recipients = ∅) in
  let b := observe (if nobody then MonitorKind_DroppedSignal else MonitorKind_Delivered)
             sender (Some (destination_label (m_destination m))) (Some (m_message_id m))
             (len (m_payload m))
             (set_metrics (count_routed (bs_len recipients) (len (m_payload m))) b) in
  if nobody && bool_decide (m_kind m = MessageKind_Signal) then set_metrics count_dropped b else b.

Definition fresh_pending (sender : PeerId) (m : Message) (recipients : gset PeerId)
    (now_ms priority : N) : PendingDelivery := {|
  pd_sender := sender;
  pd_message := Frame_Message m;
  pd_recipients := recipients;
  pd_acknowledgements := ∅;
  pd_responses := ∅;
  pd_acknowledgement_complete := false;
  pd_deadline_ms := now_ms + m_deadline_ms m;
  pd_attempts := 1;
  pd_next_retry_ms := retry_next (m_retry m) now_ms 1;
  pd_priority := priority;
|}.

(** What every admitted message satisfies. *)
Record admitted (sender : PeerId) (m : Message) (b : broker) : Prop := {
  admitted_sender : is_Some (b_peers b !! sender);
  admitted_headers : no_reserved (m_headers m);
  admitted_priority : exists n, message_priority (m_headers m) = Ok n;
  admitted_kind : m_kind m <> MessageKind_Response;
  admitted_fresh : b_deliveries b !! m_message_id m = None;
}.

Inductive begin_step (sender : PeerId) (m : Message) (now_ms : N) (b : broker)
    : list DeliveryEvent -> broker -> Prop :=
| begin_unroutable :
    admitted sender m b ->
    route b sender (m_destination m) (m_headers m) = Err Error_NoRecipient ->
    begin_step sender m now_ms b (no_recipient_result sender m) b
| begin_unmet selected (recipients := list_to_set selected : gset PeerId) :
    admitted sender m b ->
    route b sender (m_destination m) (m_headers m) = Ok selected ->
    recipients = ∅ /\ tracked m = true \/
      requirement_possible (m_ack_requirement m) (bs_len recipients) = false ->
    begin_step sender m now_ms b (no_recipient_result sender m) (counted sender m recipients b)
| begin_untracked selected (recipients := list_to_set selected : gset PeerId) :
    admitted sender m b ->
    route b sender (m_destination m) (m_headers m) = Ok selected ->
    tracked m = false ->
    requirement_possible (m_ack_requirement m) (bs_len recipients) = true ->
    begin_step sender m now_ms b (delivery_events sender m recipients)
      (counted sender m recipients b)
| begin_tracked selected priority (recipients := list_to_set selected : gset PeerId) :
    admitted sender m b ->
    route b sender (m_destination m) (m_headers m) = Ok selected ->
    tracked m = true -> recipients <> ∅ ->
    requirement_possible (m_ack_requirement m) (bs_len recipients) = true ->
    message_priority (m_headers m) = Ok priority ->
    ensure_delivery_capacity b sender (Frame_Message m)
      (bool_decide (m_kind m = MessageKind_Request)) = Ok () ->
    now_ms + m_deadline_ms m <= u64_max ->
    begin_step sender m now_ms b (delivery_events sender m recipients)
      (set_deliveries <[m_message_id m := fresh_pending sender m recipients now_ms priority]>
        (counted sender m recipients b)).

(** [counted] changes only the counters and the monitor window. *)
Lemma counted_deliveries sender m r (b : broker) :
  b_deliveries (counted sender m r b) = b_deliveries b.
Proof. unfold counted. by destruct (_ && _). Qed.

Lemma counted_capacity sender m r (b : broker) s f q :
  ensure_delivery_capacity (counted sender m r b) s f q = ensure_delivery_capacity b s f q.
Proof. unfold counted. by destruct (_ && _). Qed.

Lemma ensure_delivery_capacity_no_panic (b : broker) s f q :
  ensure_delivery_capacity b s f q <> Panic.
Proof. unfold ensure_delivery_capacity. by repeat destruct (_ : bool). Qed.

Lemma select_recipients_no_panic (b : broker) s d h : select_recipients b s d h <> Panic.
Proof.
  unfold select_recipients, mbind, result_bind. destruct d; try done;
    match goal with |- context [authorize ?b ?s ?a] =>
      pose proof (authorize_cases b s a); destruct (authorize b s a) end; done.
Qed.

Lemma route_no_panic (b : broker) s d h : route b s d h <> Panic.
Proof.
  unfold route, mbind, result_bind. pose proof (credentials_of_cases b s).
  destruct (credentials_of b s); [|done..]. pose proof (select_recipients_no_panic b s d h).
  destruct (select_recipients b s d h); [|done..]. destruct d; try done; by case_bool_decide.
Qed.

Lemma deliver_to_effect sender m priority now_ms selected (b b' : broker) r
    (recipients := list_to_set selected : gset PeerId) :
  deliver_to sender m priority now_ms selected b = (r, b') ->
  match r with
  | Ok events =>
      b' = counted sender m recipients b /\ events = no_recipient_result sender m /\
        (recipients = ∅ /\ tracked m = true \/
         requirement_possible (m_ack_requirement m) (bs_len recipients) = false) \/
      requirement_possible (m_ack_requirement m) (bs_len recipients) = true /\
        events = delivery_events sender m recipients /\
        (tracked m = false /\ b' = counted sender m recipients b \/
         tracked m = true /\ recipients <> ∅ /\
         ensure_delivery_capacity b sender (Frame_Message m)
           (bool_decide (m_kind m = MessageKind_Request)) = Ok () /\
         now_ms + m_deadline_ms m <= u64_max /\
         b' = set_deliveries <[m_message_id m := fresh_pending sender m recipients now_ms priority]>
                (counted sender m recipients b))
  | Err e => b' = counted sender m recipients b /\ tracked m = true /\
      (ensure_delivery_capacity b sender (Frame_Message m)
         (bool_decide (m_kind m = MessageKind_Request)) = Err e \/
       e = Error_DeadlineOverflow /\ u64_max < now_ms + m_deadline_ms m)
  | Panic => False
  end.
Proof.
  unfold deliver_to. fold (tracked m). intros Hr.
  assert (forall k, (_ ← modify (set_metrics (count_routed (bs_len recipients) (len (m_payload m))));
    _ ← record_monitor (if bool_decide (recipients = ∅) then MonitorKind_DroppedSignal
                        else MonitorKind_Delivered)
        sender (Some (destination_label (m_destination m))) (Some (m_message_id m)) (len (m_payload m));
    _ ← (if bool_decide (recipients = ∅) && bool_decide (m_kind m = MessageKind_Signal)
         then modify (set_metrics count_dropped) else mret ());
    k) b = (k : St broker Error (list DeliveryEvent)) (counted sender m recipients b)) as Hcount.
  { intros k. unfold counted.
    by destruct (bool_decide (recipients = ∅)), (bool_decide (m_kind m = MessageKind_Signal)). }
  cbv zeta in Hr. fold recipients in Hr. cbn [payload_bytes] in Hr. rewrite Hcount in Hr. clear Hcount.
  clearbody recipients.
  destruct (bool_decide (recipients = ∅) && tracked m) eqn:E1.
  { apply andb_true_iff in E1 as [?%bool_decide_eq_true ?]. cbv [mret St_ret] in Hr. simplify_eq.
    left. auto. }
  destruct (requirement_possible _ _) eqn:E2; cbn [negb] in Hr;
    [|cbv [mret St_ret] in Hr; simplify_eq; left; auto].
  destruct (tracked m) eqn:Et; [|cbv [mret St_ret] in Hr; simplify_eq; right; eauto].
  rewrite andb_true_r in E1. apply bool_decide_eq_false in E1.
  pose proof (ensure_delivery_capacity_no_panic b sender (Frame_Message m)
                (bool_decide (m_kind m = MessageKind_Request))) as Hn.
  cbv [mbind St_bind asks lift] in Hr. rewrite counted_capacity in Hr.
  destruct (ensure_delivery_capacity b _ _ _) as [[]|e|]; [|simplify_eq; by eauto|done].
  destruct (checked_add u64_max now_ms (m_deadline_ms m)) eqn:Ea.
  2: { apply checked_add_None in Ea. cbn in Hr. injection Hr as <- <-. auto. }
  apply checked_add_Some in Ea as [-> Hle]. cbn in Hr. injection Hr as <- <-. right.
  split; [done|]. split; [done|]. right. auto 10.
Qed.

Lemma begin_delivery_effect sender m now_ms (b b' : broker) r :
  m_kind m <> MessageKind_Response ->
  begin_delivery sender (Frame_Message m) now_ms b = (r, b') ->
  match r with
  | Ok events => begin_step sender m now_ms b events b'
  | Err e => b' = b \/
      exists selected, route b sender (m_destination m) (m_headers m) = Ok selected /\
        b' = counted sender m (list_to_set selected) b /\ tracked m = true
  | Panic => False
  end.
Proof.
  intros Hk Hr. unfold begin_delivery in Hr.
  pose proof (credentials_of_cases b sender) as Hc.
  pose proof (validate_message_headers_cases (m_headers m)) as Hv.
  pose proof (message_priority_cases (m_headers m)) as Hp.
  pose proof (route_no_panic b sender (m_destination m) (m_headers m)) as Hn.
  cbv [mbind St_bind lift asks get_state fail mret St_ret] in Hr. cbn beta iota zeta in Hr.
  destruct (credentials_of b sender) as [c|e|]; [|by simplify_eq; left|done].
  destruct (validate_message_headers (m_headers m)) as [u|e|]; [|by simplify_eq; left|done].
  destruct (message_priority (m_headers m)) as [prio|e|] eqn:Eprio; [|by simplify_eq; left|done].
  rewrite bool_decide_eq_false_2 in Hr by done.
  destruct (bool_decide (is_Some _)) eqn:Ef; [simplify_eq; by left|].
  apply bool_decide_eq_false in Ef. rewrite <- eq_None_not_Some in Ef.
  assert (admitted sender m b) as Hadm.
  { destruct Hc as (p & Hpeer & _). split; eauto. }
  destruct (route b sender (m_destination m) (m_headers m)) as [selected|e|] eqn:Er; [|clear Hn|done].
  - apply deliver_to_effect in Hr. destruct r as [events|e|]; [|right; exists selected; tauto|done].
    destruct Hr as [(-> & -> & Hreq)|(Hreq & -> & [(Ht & ->)|(Ht & Hne & Hcap & Hle & ->)])].
    + by eapply begin_unmet.
    + by eapply begin_untracked.
    + by eapply begin_tracked.
  - destruct e; simplify_eq; try by left. by apply begin_unroutable.
Qed.

(** Why a message is refused, in the order of the checks. *)
Inductive rejection (sender : PeerId) (m : Message) (now_ms : N) (b : broker) : Error -> Prop :=
| rejected_peer : b_peers b !! sender = None -> rejection sender m now_ms b (Error_UnknownPeer sender)
| rejected_header name :
    is_Some (m_headers m !! name) -> reserved name ->
    rejection sender m now_ms b (Error_ReservedHeader name)
| rejected_priority :
    message_priority (m_headers m) = Err Error_InvalidPriority ->
    rejection sender m now_ms b Error_InvalidPriority
| rejected_duplicate :
    is_Some (b_deliveries b !! m_message_id m) ->
    rejection sender m now_ms b (Error_DuplicateMessage (m_message_id m))
| rejected_route error :
    admitted sender m b ->
    route b sender (m_destination m) (m_headers m) = Err error -> error <> Error_NoRecipient ->
    rejection sender m now_ms b error
| rejected_capacity error :
    admitted sender m b -> tracked m = true ->
    ensure_delivery_capacity b sender (Frame_Message m)
      (bool_decide (m_kind m = MessageKind_Request)) = Err error ->
    rejection sender m now_ms b error
| rejected_deadline :
    admitted sender m b -> tracked m = true -> u64_max < now_ms + m_deadline_ms m ->
    rejection sender m now_ms b Error_DeadlineOverflow.

Lemma begin_delivery_rejection sender m now_ms (b b' : broker) e :
  m_kind m <> MessageKind_Response ->
  begin_delivery sender (Frame_Message m) now_ms b = (Err e, b') -> rejection sender m now_ms b e.
Proof.
  intros Hk Hr. unfold begin_delivery in Hr.
  pose proof (credentials_of_cases b sender) as Hc.
  pose proof (validate_message_headers_cases (m_headers m)) as Hv.
  pose proof (message_priority_cases (m_headers m)) as Hp.
  cbv [mbind St_bind lift asks get_state fail mret St_ret] in Hr. cbn beta iota zeta in Hr.
  destruct (credentials_of b sender) as [c|e1|];
    [|destruct Hc as [-> ?]; simplify_eq; by constructor|done].
  destruct (validate_message_headers (m_headers m)) as [u|e1|];
    [|destruct Hv as (n & ? & ? & ->); simplify_eq; by constructor|done].
  destruct (message_priority (m_headers m)) as [prio|e1|] eqn:Eprio;
    [|subst e1; simplify_eq; by constructor|done].
  rewrite bool_decide_eq_false_2 in Hr by done.
  destruct (bool_decide (is_Some _)) eqn:Ef;
    [apply bool_decide_eq_true in Ef; simplify_eq; by constructor|].
  apply bool_decide_eq_false in Ef. rewrite <- eq_None_not_Some in Ef.
  assert (admitted sender m b) as Hadm by (destruct Hc as (p & Hpeer & _); split; eauto).
  destruct (route b sender (m_destination m) (m_headers m)) as [selected|e1|] eqn:Er; [| |done].
  - apply deliver_to_effect in Hr as (_ & Ht & [He|[-> He]]); by constructor.
  - destruct (decide (e1 = Error_NoRecipient)) as [->|Hne]; [done|].
    apply (rejected_route _ _ _ _ e); [done| |by destruct e1; simplify_eq].
    by destruct e1; simplify_eq.
Qed.

(** ** Responses *)

(** A response of [sender], chosen by the request's routing. *)
Record answers (sender : PeerId) (m : Message) (b : broker)
    (pending : PendingDelivery) (request : Message) : Prop := {
  answers_pending : b_deliveries b !! m_correlation_id m = Some pending;
  answers_request : pd_message pending = Frame_Message request;
  answers_kind : m_kind request = MessageKind_Request;
  answers_recipient : sender ∈ pd_recipients pending;
  answers_once : pd_responses pending !! sender = None;
}.

Inductive response_step (sender : PeerId) (m : Message) (b : broker)
    : list DeliveryEvent -> broker -> Prop :=
| response_recorded pending request
    (responses := <[sender := Frame_Message m]> (pd_responses pending))
    (completed := response_completed (m_request_policy request) (m_status m)
                    (bt_len responses) (bs_len (pd_recipients pending))) :
    answers sender m b pending request ->
    response_step sender m b
      (match response_forward (m_request_policy request) (m_status m) completed
               (Frame_Message m) responses with
       | Some message => [DeliveryEvent_Deliver sender [pd_sender pending] message]
       | None => []
       end)
      (set_deliveries
        (if completed then delete (m_correlation_id m)
         else <[m_correlation_id m := set_pd_responses responses pending]>) b).

Lemma delete_updated id pending (b : broker) :
  set_deliveries (delete id) (set_deliveries <[id := pending]> b) = set_deliveries (delete id) b.
Proof. unfold set_deliveries. cbn. by rewrite delete_insert_eq. Qed.

Lemma complete_response_effect sender m (b b' : broker) r :
  complete_response sender (Frame_Message m) b = (r, b') ->
  match r with
  | Ok events => response_step sender m b events b'
  | Err e => b' = b /\ (forall pending request, ~ answers sender m b pending request) /\
      (e = Error_UnknownDelivery (m_correlation_id m) /\
         b_deliveries b !! m_correlation_id m = None \/
       e = Error_UnexpectedResponse (m_correlation_id m) /\
         is_Some (b_deliveries b !! m_correlation_id m))
  | Panic => False
  end.
Proof.
  unfold complete_response. intros Hr.
  cbv [mbind St_bind lift ok_or get_state fail mret St_ret modify] in Hr. cbn beta iota zeta in Hr.
  destruct (b_deliveries b !! m_correlation_id m) as [pending|] eqn:Ep.
  2: { simplify_eq. split; [done|]. split; [|by left]. intros ? ? []. congruence. }
  assert (forall (b'' : broker) e, (Err e, b'') = (r, b') -> b'' = b ->
    (forall p q, ~ answers sender m b p q) -> e = Error_UnexpectedResponse (m_correlation_id m) ->
    match r with
    | Ok events => response_step sender m b events b'
    | Err e => b' = b /\ (forall pending request, ~ answers sender m b pending request) /\
        (e = Error_UnknownDelivery (m_correlation_id m) /\ Some pending = None \/
         e = Error_UnexpectedResponse (m_correlation_id m) /\ is_Some (Some pending))
    | Panic => False
    end) as Herr.
  { intros b'' e [= <- <-] -> Hn ->. split; [done|]. split; [done|]. right. eauto. }
  destruct (pd_message pending) as [| | | | |request| | | | | |] eqn:Em;
    try (eapply Herr; [exact Hr | done | | done]; intros ? ? []; congruence).
  destruct (bool_decide (m_kind request = MessageKind_Request)) eqn:Ek; cbn [negb] in Hr.
  2: { apply bool_decide_eq_false in Ek. eapply Herr; [exact Hr | done | | done].
       intros ? ? []; congruence. }
  apply bool_decide_eq_true in Ek.
  destruct (negb _ || _) eqn:Ec.
  { eapply Herr; [exact Hr | done | | done]. intros p q [H1 H2 H3 H4 H5].
    assert (p = pending) as -> by congruence.
    apply orb_true_iff in Ec as [Ec%negb_true_iff|Ec].
    - by apply bool_decide_eq_false in Ec.
    - apply bool_decide_eq_true in Ec as [? ?]. congruence. }
  apply orb_false_iff in Ec as [Hin%negb_false_iff%bool_decide_eq_true Hno%bool_decide_eq_false].
  rewrite <- eq_None_not_Some in Hno. clear Herr.
  assert (answers sender m b pending request) as Ha by by split.
  pose proof (response_recorded sender m b pending request Ha) as Hstep. cbv zeta in Hstep.
  destruct (response_completed _ _ _ _) eqn:Ecomp; injection Hr as <- <-; [|exact Hstep].
  rewrite delete_updated. exact Hstep.
Qed.

(** A response passes the header checks of every message first. *)
Lemma begin_response_effect sender m now_ms (b b' : broker) r :
  m_kind m = MessageKind_Response ->
  begin_delivery sender (Frame_Message m) now_ms b = (r, b') ->
  match r with
  | Ok events => response_step sender m b events b' /\ no_reserved (m_headers m) /\
                 is_Some (b_peers b !! sender)
  | Err e => b' = b
  | Panic => False
  end.
Proof.
  intros Hk Hr. unfold begin_delivery in Hr.
  pose proof (credentials_of_cases b sender) as Hc.
  pose proof (validate_message_headers_cases (m_headers m)) as Hv.
  pose proof (message_priority_cases (m_headers m)) as Hp.
  cbv [mbind St_bind lift asks get_state fail mret St_ret] in Hr. cbn beta iota zeta in Hr.
  destruct (credentials_of b sender) as [c|e|]; [|by simplify_eq|done].
  destruct (validate_message_headers (m_headers m)) as [u|e|]; [|by simplify_eq|done].
  destruct (message_priority (m_headers m)) as [prio|e|] eqn:Eprio; [|by simplify_eq|done].
  rewrite bool_decide_eq_true_2 in Hr by done.
  apply complete_response_effect in Hr. destruct r; [|tauto|done].
  destruct Hc as (p & ? & _). eauto.
Qed.

(** ** Acknowledgements *)

Definition ack_outcome (policy : AckPolicy) : DeliveryOutcome :=
  match policy with
  | AckPolicy_Processed => DeliveryOutcome_Processed
  | _ => DeliveryOutcome_Received
  end.

(** An acknowledgement of a selected recipient, strong enough for the message. *)
Record acknowledges (peer : PeerId) (id : MessageId) (policy : AckPolicy) (b : broker)
    (pending : PendingDelivery) (m : Message) : Prop := {
  acks_pending : b_deliveries b !! id = Some pending;
  acks_message : pd_message pending = Frame_Message m;
  acks_recipient : peer ∈ pd_recipients pending;
  acks_policy : acknowledgement_satisfies (m_ack_policy m) policy = true;
}.

Inductive ack_step (peer : PeerId) (id : MessageId) (policy : AckPolicy) (b : broker)
    : list DeliveryEvent -> broker -> Prop :=
| ack_recorded pending m
    (acknowledgements := {[peer]} ∪ pd_acknowledgements pending)
    (complete := negb (pd_acknowledgement_complete pending)
       && requirement_met (m_ack_requirement m) (bs_len acknowledgements)
            (bs_len (pd_recipients pending))) :
    permitted b peer Action_Acknowledge ->
    acknowledges peer id policy b pending m ->
    ack_step peer id policy b
      (if complete
       then [DeliveryEvent_Result (pd_sender pending) id (ack_outcome (m_ack_policy m))] else [])
      (observe MonitorKind_Acknowledged peer None (Some id) 0
        (set_deliveries
          (if complete && negb (bool_decide (m_kind m = MessageKind_Request))
           then delete id
           else <[id := set_pd_acknowledgements acknowledgements
                          (pd_acknowledgement_complete pending || complete) pending]>) b)).

Lemma observe_deliveries k p t i n f (b : broker) :
  set_deliveries f (observe k p t i n b) = observe k p t i n (set_deliveries f b).
Proof. done. Qed.

Lemma insert_updated id p1 p2 (b : broker) :
  set_deliveries <[id := p2]> (set_deliveries <[id := p1]> b) = set_deliveries <[id := p2]> b.
Proof. unfold set_deliveries. cbn. by rewrite insert_insert_eq. Qed.

Lemma satisfies_waits required actual :
  acknowledgement_satisfies required actual = true ->
  required = AckPolicy_Received \/ required = AckPolicy_Processed.
Proof. destruct required, actual; cbn; intros; try done; auto. Qed.

Lemma acknowledge_effect peer id policy (b b' : broker) r :
  acknowledge peer id policy b = (r, b') ->
  match r with
  | Ok events => ack_step peer id policy b events b'
  | Err e => b' = b /\
      (~ permitted b peer Action_Acknowledge /\
         (e = Error_UnknownPeer peer \/ e = Error_Denied Action_Acknowledge) \/
       permitted b peer Action_Acknowledge /\
       (forall pending m, ~ acknowledges peer id policy b pending m) /\
       (e = Error_UnknownDelivery id /\ b_deliveries b !! id = None \/
        is_Some (b_deliveries b !! id)))
  | Panic => False
  end.
Proof.
  unfold acknowledge. intros Hr. pose proof (authorize_cases b peer Action_Acknowledge) as Ha.
  cbv [mbind St_bind lift ok_or asks get_state fail mret St_ret modify record_monitor] in Hr.
  cbn beta iota zeta in Hr.
  destruct (authorize b peer Action_Acknowledge) as [[]|e|];
    [|simplify_eq; split; [done|left; tauto]|done].
  destruct (b_deliveries b !! id) as [pending|] eqn:Ep.
  2: { simplify_eq. split; [done|]. right. split; [done|]. split; [|by left].
       intros ? ? []. congruence. }
  destruct (pd_message pending) as [| | | | |m| | | | | |] eqn:Em;
    try (simplify_eq; split; [done|]; right; split; [done|]; split; [|eauto];
         intros ? ? []; congruence).
  destruct (negb _ || _) eqn:Ec.
  { simplify_eq. split; [done|]. right. split; [done|]. split; [|eauto].
    intros p m' [H1 H2 H3 H4]. assert (p = pending) as -> by congruence.
    assert (m' = m) as -> by congruence.
    apply orb_true_iff in Ec as [Ec%negb_true_iff|Ec%negb_true_iff]; [|congruence].
    by apply bool_decide_eq_false in Ec. }
  apply orb_false_iff in Ec as [Hin%negb_false_iff%bool_decide_eq_true Hsat%negb_false_iff].
  assert (acknowledges peer id policy b pending m) as Hack by by split.
  pose proof (ack_recorded peer id policy b pending m Ha Hack) as Hstep. cbv zeta in Hstep.
  destruct (satisfies_waits _ _ Hsat) as [Hw|Hw]; rewrite Hw in Hr, Hstep; cbn [ack_outcome] in Hstep;
    (destruct (negb (pd_acknowledgement_complete pending) && _) eqn:Ecomp;
     [apply andb_true_iff in Ecomp as [Ecomp%negb_true_iff _];
      destruct (bool_decide (m_kind m = MessageKind_Request))
     |]; cbn in Hr; injection Hr as <- <-;
     rewrite ?observe_deliveries, ?delete_updated, ?insert_updated;
     rewrite ?Ecomp, ?orb_false_r in Hstep; exact Hstep).
Qed.

(** ** The clock *)

(** What a tick does with one pending delivery. *)
Inductive tick_action := Tick_keep | Tick_timeout | Tick_failed | Tick_retry (next : PendingDelivery).

Definition tick_decision (now_ms : N) (p : PendingDelivery) : tick_action :=
  if pd_deadline_ms p <=? now_ms then Tick_timeout
  else
    match pd_next_retry_ms p, frame_retry (pd_message p) with
    | Some next_retry_ms, RetryPolicy_Exponential _ max_attempts as retry =>
        if now_ms <? next_retry_ms then Tick_keep
        else if max_attempts <=? pd_attempts p then Tick_failed
        else Tick_retry (set_pd_attempts (pd_attempts p + 1)
                           (retry_next (frame_retry (pd_message p)) now_ms (pd_attempts p + 1)) p)
    | _, _ => Tick_keep
    end.

(** The delivery after the tick, the outcome and the retransmission it causes. *)
Definition after_tick (now_ms : N) (p : PendingDelivery) : option PendingDelivery :=
  match tick_decision now_ms p with
  | Tick_keep => Some p
  | Tick_retry p' => Some p'
  | Tick_timeout | Tick_failed => None
  end.

Definition tick_result (now_ms : N) (e : MessageId * PendingDelivery) : list DeliveryEvent :=
  match tick_decision now_ms e.2 with
  | Tick_timeout => [DeliveryEvent_Result (pd_sender e.2) e.1 DeliveryOutcome_Timeout]
  | Tick_failed => [DeliveryEvent_Result (pd_sender e.2) e.1 DeliveryOutcome_DeliveryFailed]
  | _ => []
  end.

Definition tick_retries (now_ms : N) (e : MessageId * PendingDelivery) : list (N * DeliveryEvent) :=
  match tick_decision now_ms e.2 with
  | Tick_retry _ =>
      [(pd_priority e.2,
        DeliveryEvent_Deliver (pd_sender e.2)
          (bs_elems (pd_recipients e.2 ∖ pd_acknowledgements e.2)) (pd_message e.2))]
  | _ => []
  end.

(** The state after one delivery is handled. *)
Definition tick_state (now_ms : N) (id : MessageId) (p : PendingDelivery) (b : broker) : broker :=
  match tick_decision now_ms p with
  | Tick_keep => b
  | Tick_timeout =>
      observe MonitorKind_TimedOut (pd_sender p) None (Some id) 0
        (set_metrics count_timeout (set_deliveries (delete id) b))
  | Tick_failed => set_deliveries (delete id) b
  | Tick_retry p' =>
      observe MonitorKind_Retried (pd_sender p) None (Some id) (delivery_bytes (pd_message p))
        (set_metrics count_retry (set_deliveries <[id := p']> b))
  end.

(** [max_attempts] is a [u8]. *)
Definition attempts_fit (p : PendingDelivery) : Prop :=
  match frame_retry (pd_message p) with
  | RetryPolicy_None => True
  | RetryPolicy_Exponential _ max_attempts => max_attempts <= u8_max
  end.

Lemma tick_one_effect now_ms id (b : broker) :
  match b_deliveries b !! id with
  | None => tick_one now_ms id b = (Ok ([], []), b)
  | Some p =>
      attempts_fit p ->
      tick_one now_ms id b =
        (Ok (tick_result now_ms (id, p), tick_retries now_ms (id, p)), tick_state now_ms id p b)
  end.
Proof.
  unfold tick_one.
  cbv [mbind St_bind lift expect get_state mret St_ret modify record_monitor].
  cbn beta iota zeta. destruct (b_deliveries b !! id) as [p|]; [|done].
  intros Hfit. unfold attempts_fit, tick_result, tick_retries, tick_state, tick_decision in *.
  cbn [fst snd].
  destruct (pd_deadline_ms p <=? now_ms); [done|].
  destruct (pd_next_retry_ms p) as [n|]; [|done].
  destruct (frame_retry (pd_message p)) as [|backoff max]; [by destruct (now_ms <? n)|].
  destruct (now_ms <? n); [done|].
  destruct (N.leb_spec max (pd_attempts p)); [done|].
  destruct (checked_add u8_max (pd_attempts p) 1) eqn:Ea.
  - apply checked_add_Some in Ea as [-> _]. done.
  - apply checked_add_None in Ea. lia.
Qed.

Lemma tick_state_deliveries now_ms id p (b : broker) :
  b_deliveries b !! id = Some p ->
  b_deliveries (tick_state now_ms id p b) =
  partial_alter (fun o => o ≫= after_tick now_ms) id (b_deliveries b).
Proof.
  intros Hp. apply map_eq. intros j. unfold tick_state, after_tick.
  destruct (decide (j = id)) as [->|Hne].
  - rewrite lookup_partial_alter_eq, Hp. cbn. destruct (tick_decision now_ms p); cbn;
      by rewrite ?lookup_delete_eq, ?lookup_insert_eq.
  - rewrite lookup_partial_alter_ne by done. destruct (tick_decision now_ms p); cbn;
      by rewrite ?lookup_delete_ne, ?lookup_insert_ne by done.
Qed.

(** The state after the loop visits [ids]. *)
Definition tick_visit (now_ms : N) (b : broker) (id : MessageId) : broker :=
  match b_deliveries b !! id with Some p => tick_state now_ms id p b | None => b end.
Definition tick_fold (now_ms : N) (ids : list MessageId) (b : broker) : broker :=
  foldl (tick_visit now_ms) b ids.

Lemma tick_visit_lookup now_ms id j (b : broker) :
  b_deliveries (tick_visit now_ms b id) !! j =
  if decide (j = id) then b_deliveries b !! j ≫= after_tick now_ms else b_deliveries b !! j.
Proof.
  unfold tick_visit. destruct (b_deliveries b !! id) as [p|] eqn:Ep.
  - rewrite (tick_state_deliveries now_ms id p b Ep). destruct (decide (j = id)) as [->|].
    + by rewrite lookup_partial_alter_eq.
    + by rewrite lookup_partial_alter_ne.
  - destruct (decide (j = id)) as [->|]; [|done]. by rewrite Ep.
Qed.

Lemma tick_fold_lookup now_ms ids j (b : broker) :
  NoDup ids ->
  b_deliveries (tick_fold now_ms ids b) !! j =
  if decide (j ∈ ids) then b_deliveries b !! j ≫= after_tick now_ms else b_deliveries b !! j.
Proof.
  unfold tick_fold. revert b. induction ids as [|id ids IH]; intros b Hnd; cbn [foldl].
  { by destruct (decide (j ∈ [])); [set_solver|]. }
  apply NoDup_cons in Hnd as [Hid Hnd]. rewrite IH, tick_visit_lookup by done.
  destruct (decide (j = id)) as [->|Hne].
  - rewrite decide_False by done. by rewrite decide_True by set_solver.
  - destruct (decide (j ∈ ids)).
    + by rewrite decide_True by set_solver.
    + by rewrite decide_False by set_solver.
Qed.

Lemma tick_loop_effect now_ms l (b : broker) events retries :
  NoDup l.*1 ->
  (forall id p, (id, p) ∈ l -> b_deliveries b !! id = Some p) ->
  Forall (fun e => attempts_fit e.2) l ->
  tick_loop now_ms l.*1 events retries b =
    (Ok (events ++ concat (tick_result now_ms <$> l), retries ++ concat (tick_retries now_ms <$> l)),
     tick_fold now_ms l.*1 b).
Proof.
  revert b events retries. induction l as [|[id p] l IH]; intros b events retries Hnd Hl Hfit.
  { cbn. by rewrite !app_nil_r. }
  cbn in Hnd. apply NoDup_cons in Hnd as [Hid Hnd]. apply Forall_cons in Hfit as [Hp Hfit].
  pose proof (Hl id p ltac:(left)) as Hlook.
  pose proof (tick_one_effect now_ms id b) as Ho. rewrite Hlook in Ho. specialize (Ho Hp).
  rewrite fmap_cons. cbn [fst tick_loop mbind St_bind].
  unfold mbind, St_bind. rewrite Ho. rewrite IH; [|done| |done].
  - rewrite !fmap_cons. cbn [concat]. rewrite !app_assoc.
    unfold tick_fold at 2. cbn [foldl]. unfold tick_visit at 2. by rewrite Hlook.
  - intros j q Hj. assert (j <> id) as Hne.
    { intros ->. apply Hid. by apply (list_elem_of_fmap_2 fst) in Hj. }
    rewrite (tick_state_deliveries now_ms id p b Hlook), lookup_partial_alter_ne by done.
    apply Hl. by right.
Qed.

Definition tick_events (now_ms : N) (b : broker) : list DeliveryEvent :=
  concat (tick_result now_ms <$> bt_entries (b_deliveries b)) ++
  (sort_by by_priority_desc (concat (tick_retries now_ms <$> bt_entries (b_deliveries b)))).*2.

(** A tick never panics, and handles every pending delivery once. *)
Lemma tick_effect now_ms (b : broker) :
  map_Forall (fun _ => attempts_fit) (b_deliveries b) ->
  tick now_ms b =
    (Ok (tick_events now_ms b), tick_fold now_ms (bt_keys (b_deliveries b)) b).
Proof.
  intros Hfit. unfold tick, tick_events. cbv [mbind St_bind get_state mret St_ret].
  unfold bt_keys. rewrite tick_loop_effect; [done|..].
  - apply bt_keys_nodup.
  - intros id p. apply elem_of_bt_entries.
  - apply Forall_forall. intros [id p] Hp%elem_of_bt_entries. by apply (Hfit id).
Qed.

Lemma tick_deliveries now_ms (b : broker) :
  b_deliveries (tick_fold now_ms (bt_keys (b_deliveries b)) b) =
  omap (after_tick now_ms) (b_deliveries b).
Proof.
  apply map_eq. intros id. rewrite tick_fold_lookup by apply bt_keys_nodup.
  rewrite lookup_omap. destruct (b_deliveries b !! id) as [p|] eqn:Ep.
  - rewrite decide_True; [done|]. apply elem_of_bt_keys. by exists p.
  - by destruct (decide _).
Qed.

(** ** Disconnection *)

Lemma drop_deliveries_effect l (b : broker) :
  drop_deliveries l b =
    (Ok ((fun e => DeliveryEvent_Result e.2 e.1 DeliveryOutcome_RecipientDisconnected) <$> l),
     set_deliveries (fun d => foldl (fun d id => delete id d) d l.*1) b).
Proof.
  revert b. induction l as [|[id s] l IH]; intros b; [by destruct b|]. cbn [drop_deliveries].
  cbv [mbind St_bind modify mret St_ret]. by rewrite IH.
Qed.

Lemma foldl_delete_lookup {A} (ids : list MessageId) (d : gmap MessageId A) j :
  foldl (fun d id => delete id d) d ids !! j = if decide (j ∈ ids) then None else d !! j.
Proof.
  revert d. induction ids as [|id ids IH]; intros d; cbn [foldl].
  { by destruct (decide (j ∈ [])); [set_solver|]. }
  rewrite IH. destruct (decide (j ∈ ids)).
  - by rewrite decide_True by set_solver.
  - destruct (decide (j = id)) as [->|].
    + rewrite lookup_delete_eq. by rewrite decide_True by set_solver.
    + rewrite lookup_delete_ne by done. by rewrite decide_False by set_solver.
Qed.

Definition affected_by (peer : PeerId) (b : broker) : list (MessageId * PendingDelivery) :=
  filter (fun e => peer ∈ pd_recipients e.2) (bt_entries (b_deliveries b)).

Definition disconnected (peer : PeerId) (b : broker) : broker :=
  set_deliveries (filter (fun e => peer ∉ pd_recipients e.2)) (removed peer b).

Definition disconnect_results (peer : PeerId) (b : broker) : list DeliveryEvent :=
  (fun e => DeliveryEvent_Result (pd_sender e.2) e.1 DeliveryOutcome_RecipientDisconnected)
    <$> affected_by peer b.

Lemma disconnect_with_events_effect peer (b b' : broker) r :
  disconnect_with_events peer b = (r, b') ->
  match r with
  | Ok events => is_Some (b_peers b !! peer) /\ b' = disconnected peer b /\
                 events = disconnect_results peer b
  | Err e => b' = b /\ e = Error_UnknownPeer peer /\ b_peers b !! peer = None
  | Panic => False
  end.
Proof.
  unfold disconnect_with_events. intros Hr. cbv [mbind St_bind get_state] in Hr.
  destruct (remove_peer peer b) as [[u|e|] b1] eqn:E; apply remove_peer_effect in E;
    [|by simplify_eq|done].
  destruct E as [Hp ->]. rewrite drop_deliveries_effect in Hr. injection Hr as <- <-.
  split; [done|]. split.
  - unfold disconnected. unfold set_deliveries. f_equal.
    apply map_eq. intros j. rewrite foldl_delete_lookup.
    rewrite map_lookup_filter. cbn [removed].
    change (b_deliveries (removed peer b)) with (b_deliveries b).
    rewrite <- list_fmap_compose.
    destruct (b_deliveries b !! j) as [p|] eqn:Ep; cbn.
    + destruct (decide (peer ∈ pd_recipients p)).
      * rewrite decide_True; [by rewrite option_guard_False by tauto|].
        apply list_elem_of_fmap. exists (j, p). split; [done|].
        apply list_elem_of_filter. split; [done|]. by apply elem_of_bt_entries.
      * rewrite option_guard_True by done. apply decide_False.
        intros ([j' q] & Heq & [Hq Hin%elem_of_bt_entries]%list_elem_of_filter)%list_elem_of_fmap.
        cbn in *. simplify_eq. congruence.
    + by destruct (decide _).
  - unfold disconnect_results. by rewrite <- list_fmap_compose.
Qed.

End effects.
