(* ===== verification/Invariants.v ===== *)
(** * The broker's invariant

    The commands a daemon issues, the state every sequence of them reaches from
    an empty broker, and the well-formedness every reachable state satisfies:
    referential integrity between peers, names, subscriptions and pending
    deliveries, the bookkeeping of each delivery, and the quotas. *)

From S2P Require Export Effects WireSpec.

Local Open Scope N_scope.

(** ** Commands *)

(** The calls that change a broker. *)
Inductive command :=
| Command_Connect (creds : Credentials) (hello : ClientHello)
| Command_Disconnect (peer : PeerId)
| Command_Claim (peer : PeerId) (namespace : Namespace)
| Command_Subscribe (peer : PeerId) (channel : Channel) (filters : list HeaderFilter)
| Command_Unsubscribe (peer : PeerId) (channel : Channel)
| Command_RegisterDbusName (peer : PeerId) (name : bytes)
| Command_BeginDelivery (sender : PeerId) (message : Frame) (now_ms : N)
| Command_Acknowledge (peer : PeerId) (message_id : MessageId) (policy : AckPolicy)
| Command_Tick (now_ms : N)
| Command_DrainEvents.

(** What a decoded message satisfies, as far as the broker relies on it: a sound
    acknowledgement requirement, the type invariants and an identifier. *)
Definition requirement_proper (m : Message) : Prop :=
  match m_ack_requirement m with
  | AckRequirement_None => ~ waits (m_ack_policy m)
  | AckRequirement_Minimum minimum => 1 <= minimum
  | _ => True
  end.

Definition proper_message (m : Message) : Prop :=
  requirement_proper m /\ wf_message m /\ m_message_id m <> MessageId_absent.

Definition proper_command (c : command) : Prop :=
  match c with
  | Command_BeginDelivery _ (Frame_Message m) _ => proper_message m
  | _ => True
  end.

(** ** Well-formed deliveries *)

Definition attempts_allowed (r : RetryPolicy) : N :=
  match r with RetryPolicy_None => 1 | RetryPolicy_Exponential _ n => N.max 1 n end.

Definition response_ok (id : MessageId) (f : Frame) : Prop :=
  exists m, f = Frame_Message m /\ no_reserved (m_headers m) /\
    m_kind m = MessageKind_Response /\ m_correlation_id m = id /\ wf_message m.

Record pending_ok (peers : gmap PeerId Peer) (next : N) (id : MessageId) (p : PendingDelivery)
    (m : Message) : Prop := {
  pok_message : pd_message p = Frame_Message m;
  pok_id : m_message_id m = id;
  pok_proper : proper_message m;
  pok_tracked : tracked m = true;
  pok_kind : m_kind m <> MessageKind_Response;
  pok_headers : no_reserved (m_headers m);
  pok_sender : PeerId_get (pd_sender p) < next;
  pok_some_recipient : pd_recipients p <> ∅;
  pok_recipients : forall r, r ∈ pd_recipients p -> is_Some (peers !! r);
  pok_acknowledgements : pd_acknowledgements p ⊆ pd_recipients p;
  pok_responders : forall r, is_Some (pd_responses p !! r) -> r ∈ pd_recipients p;
  pok_responses : map_Forall (fun _ => response_ok id) (pd_responses p);
  pok_responses_open : bt_len (pd_responses p) < bs_len (pd_recipients p);
  pok_responses_request : pd_responses p <> ∅ -> m_kind m = MessageKind_Request;
  pok_acknowledged : waits (m_ack_policy m) ->
    pd_acknowledgement_complete p =
    requirement_met (m_ack_requirement m) (bs_len (pd_acknowledgements p)) (bs_len (pd_recipients p));
  pok_incomplete : m_kind m <> MessageKind_Request -> pd_acknowledgement_complete p = false;
  pok_attempts : 1 <= pd_attempts p <= attempts_allowed (m_retry m);
  pok_retry : pd_next_retry_ms p = None <-> m_retry m = RetryPolicy_None;
  pok_deadline : pd_deadline_ms p <= u64_max;
  pok_priority : pd_priority p <= 7;
}.

Section invariant.
Context {P : Type} `{Policy P}.

Local Abbreviation broker := (Broker P).
Local Abbreviation handler := (St (Broker P) Error).

Definition apply (c : command) : handler (list DeliveryEvent) :=
  match c with
  | Command_Connect creds hello => _ ← connect_session creds hello; mret []
  | Command_Disconnect peer => disconnect_with_events peer
  | Command_Claim peer namespace => _ ← claim peer namespace; mret []
  | Command_Subscribe peer channel filters =>
      _ ← subscribe_with_filters peer channel filters; mret []
  | Command_Unsubscribe peer channel => _ ← unsubscribe peer channel; mret []
  | Command_RegisterDbusName peer name => _ ← register_dbus_name peer name; mret []
  | Command_BeginDelivery sender message now_ms => begin_delivery sender message now_ms
  | Command_Acknowledge peer message_id policy => acknowledge peer message_id policy
  | Command_Tick now_ms => fun b =>
      match tick now_ms b with
      | (Ok events, b') => (Ok events, b')
      | (Err e, b') => match e with end
      | (Panic, b') => (Panic, b')
      end
  | Command_DrainEvents => _ ← drain_events; mret []
  end.

(** Sequences of commands, errors included, from an empty broker. *)
Inductive reachable (policy : P) (limits : Limits) : broker -> Prop :=
| reachable_new : reachable policy limits (with_limits policy limits)
| reachable_step b c r b' :
    reachable policy limits b -> proper_command c -> apply c b = (r, b') ->
    reachable policy limits b'.

(** ** The invariant *)

Definition weight_claims (peer : PeerId) (owner : PeerId) : N := if decide (owner = peer) then 1 else 0.
Definition weight_subscriptions (peer : PeerId) (s : gmap PeerId (list HeaderFilter)) : N :=
  if decide (is_Some (s !! peer)) then 1 else 0.
Definition weight_sent (peer : PeerId) (p : PendingDelivery) : N :=
  if decide (pd_sender p = peer) then 1 else 0.
Definition weight_bytes (peer : PeerId) (p : PendingDelivery) : N :=
  if decide (pd_sender p = peer) then delivery_bytes (pd_message p) else 0.
Definition weight_requests (peer : PeerId) (p : PendingDelivery) : N :=
  if decide (pd_sender p = peer) then if is_request (pd_message p) then 1 else 0 else 0.

(** The per-peer quotas of [Limits]. *)
Record quotas (b : broker) (peer : PeerId) : Prop := {
  quota_claims : total_of (weight_claims peer) (b_namespaces b) <= maximum_namespace_claims (b_limits b);
  quota_subscriptions :
    total_of (weight_subscriptions peer) (b_subscriptions b) <= maximum_subscriptions (b_limits b);
  quota_messages :
    total_of (weight_sent peer) (b_deliveries b) <= maximum_queued_messages (b_limits b);
  quota_bytes : maximum_queued_bytes (b_limits b) < usize_max ->
    total_of (weight_bytes peer) (b_deliveries b) <= maximum_queued_bytes (b_limits b);
  quota_requests :
    total_of (weight_requests peer) (b_deliveries b) <= maximum_in_flight_requests (b_limits b);
}.

Definition subscription_ok (peers : gmap PeerId Peer) (s : gmap PeerId (list HeaderFilter)) : Prop :=
  s <> ∅ /\ forall p, is_Some (s !! p) -> is_Some (peers !! p).

Record broker_ok (b : broker) : Prop := {
  ok_next : 1 <= b_next_peer b <= u64_max;
  ok_peers : map_Forall (fun id p => peer_id p = id /\ 1 <= PeerId_get id < b_next_peer b) (b_peers b);
  ok_namespaces : map_Forall (fun _ owner => is_Some (b_peers b !! owner)) (b_namespaces b);
  ok_dbus_names : map_Forall (fun _ owner => is_Some (b_peers b !! owner)) (b_dbus_names b);
  ok_subscriptions : map_Forall (fun _ => subscription_ok (b_peers b)) (b_subscriptions b);
  ok_deliveries :
    map_Forall (fun id p => exists m, pending_ok (b_peers b) (b_next_peer b) id p m) (b_deliveries b);
  ok_monitor : len (b_monitor_events b) <= MAX_MONITOR_EVENTS;
  ok_quotas : forall peer, quotas b peer;
}.

Lemma new_ok policy limits : broker_ok (with_limits policy limits).
Proof.
  split; cbn; try (unfold u64_max, MAX_MONITOR_EVENTS, len; cbn; lia);
    try by apply map_Forall_empty.
  intros peer. split; cbn; intros; rewrite total_empty; lia.
Qed.

(** Recording and counting do not touch what the invariant is about. *)
Lemma observe_ok k p t i n (b : broker) : broker_ok b -> broker_ok (observe k p t i n b).
Proof.
  intros [? ? ? ? ? ? Hm Hq]. split; try done.
  - cbn. rewrite len_app. unfold MAX_MONITOR_EVENTS in *. change (len [_]) with 1.
    destruct (N.eqb_spec (len (b_monitor_events b)) 1024).
    + destruct (b_monitor_events b); cbn [tail]; rewrite ?len_cons in *; unfold len in *; cbn in *; lia.
    + lia.
  - intros peer. destruct (Hq peer). by split.
Qed.

Lemma set_metrics_ok f (b : broker) : broker_ok b -> broker_ok (set_metrics f b).
Proof. intros [? ? ? ? ? ? Hm Hq]. split; try done. intros peer. destruct (Hq peer). by split. Qed.

Lemma set_events_ok f (b : broker) : broker_ok b -> broker_ok (set_events f b).
Proof. intros [? ? ? ? ? ? Hm Hq]. split; try done. intros peer. destruct (Hq peer). by split. Qed.

(** ** Connections and names *)

Lemma pending_ok_mono (ps ps' : gmap PeerId Peer) next next' id p m :
  (forall r, is_Some (ps !! r) -> is_Some (ps' !! r)) -> next <= next' ->
  pending_ok ps next id p m -> pending_ok ps' next' id p m.
Proof. intros Hps Hle []. split; eauto. lia. Qed.

Lemma fresh_peer (b : broker) : broker_ok b -> b_peers b !! PeerId_new (b_next_peer b) = None.
Proof.
  intros Hb. destruct (b_peers b !! _) as [p|] eqn:E; [|done].
  destruct (ok_peers b Hb _ p E) as [_ Hlt]. cbn in Hlt. lia.
Qed.

Lemma connected_ok creds hello (b : broker) :
  broker_ok b -> b_next_peer b < u64_max -> broker_ok (connected creds hello b).
Proof.
  intros Hb Hlt. apply observe_ok, set_events_ok. pose proof (fresh_peer b Hb) as Hf.
  assert (forall r x, is_Some (b_peers b !! r) ->
            is_Some (<[PeerId_new (b_next_peer b) := x]> (b_peers b) !! r)) as Hmono.
  { intros r x Hr. destruct (decide (r = PeerId_new (b_next_peer b))) as [->|].
    - by rewrite lookup_insert_eq.
    - by rewrite lookup_insert_ne. }
  destruct Hb as [Hn Hps Hns Hds Hsub Hdel Hmon Hq]. split; cbn.
  - lia.
  - intros id p [[<- <-]|[Hne Hp]]%lookup_insert_Some; cbn; [split; [done | lia]|].
    destruct (Hps id p Hp). split; [done | lia].
  - intros n o Ho. apply Hmono. by apply (Hns n).
  - intros n o Ho. apply Hmono. by apply (Hds n).
  - intros c s Hs. destruct (Hsub c s Hs) as [? Hc]. split; [done|]. eauto.
  - intros id p Hp. destruct (Hdel id p Hp) as [m Hm]. exists m.
    eapply pending_ok_mono; [| |exact Hm]; [intros r; apply Hmono | lia].
  - done.
  - intros peer. destruct (Hq peer). by split.
Qed.

Lemma disconnected_ok peer (b : broker) : broker_ok b -> broker_ok (disconnected peer b).
Proof.
  intros [Hn Hps Hns Hds Hsub Hdel Hmon Hq].
  assert (broker_ok (set_events (fun l => release_namespaces peer (owned_namespaces peer (b_namespaces b)) l
                          ++ [LifecycleEvent_PeerDisconnected peer])
    (set_deliveries (filter (fun e => peer ∉ pd_recipients e.2))
      (set_subscriptions (omap (drop_subscriber peer))
        (set_dbus_names (filter (fun e => e.2 <> peer))
          (set_namespaces (filter (fun e => e.2 <> peer))
            (set_peers (delete peer) b))))))) as Hok.
  2: { exact (observe_ok MonitorKind_Disconnected peer None None 0 _ Hok). }
  apply set_events_ok.
  assert (forall r, r <> peer -> is_Some (b_peers b !! r) -> is_Some (delete peer (b_peers b) !! r))
    as Hkeep by (intros r Hne Hr; by rewrite lookup_delete_ne).
  split; cbn; try done.
  - intros id p [Hne Hp]%lookup_delete_Some. by apply Hps.
  - intros n o [Ho Hne]%map_lookup_filter_Some. apply Hkeep; [done|]. by apply (Hns n).
  - intros n o [Ho Hne]%map_lookup_filter_Some. apply Hkeep; [done|]. by apply (Hds n).
  - intros c s Hs. apply lookup_omap_Some in Hs as (s0 & Hs & Hs0).
    unfold drop_subscriber in Hs. case_bool_decide as He; [done|]. injection Hs as <-.
    split; [done|]. intros p [Hne Hp]%lookup_delete_is_Some. apply Hkeep; [done|].
    by apply (proj2 (Hsub c s0 Hs0)).
  - intros id p [Hp Hr]%map_lookup_filter_Some. cbn in Hr. destruct (Hdel id p Hp) as [m Hm].
    exists m. destruct Hm. split; try done. intros r Hr'. apply Hkeep; [set_solver|]. auto.
  - intros q. destruct (Hq q) as [Hc Hs Hm Hby Hre]. split; cbn.
    + etrans; [apply total_filter_le | exact Hc].
    + etrans; [apply total_omap_le | exact Hs]. intros c s s' _. unfold drop_subscriber.
      case_bool_decide; [done|]. intros [= <-]. unfold weight_subscriptions.
      destruct (decide (is_Some (delete peer s !! q))) as [[_ ?]%lookup_delete_is_Some|]; [|lia].
      by rewrite decide_True.
    + etrans; [apply total_filter_le | exact Hm].
    + intros Hl. etrans; [apply total_filter_le | auto].
    + etrans; [apply total_filter_le | exact Hre].
Qed.

Lemma claims_of_total (b : broker) peer :
  claims_of b peer = total_of (weight_claims peer) (b_namespaces b).
Proof. unfold claims_of. by rewrite len_filter_values. Qed.

Lemma claimed_ok peer namespace (b : broker) :
  broker_ok b -> is_Some (b_peers b !! peer) -> b_namespaces b !! namespace = None ->
  claims_of b peer < maximum_namespace_claims (b_limits b) ->
  broker_ok (claimed peer namespace b).
Proof.
  intros [Hn Hps Hns Hds Hsub Hdel Hmon Hq] Hp Hfree Hquota. apply observe_ok, set_events_ok.
  split; cbn; try done.
  - by apply map_Forall_insert_2.
  - intros q. destruct (Hq q). split; cbn; try done.
    rewrite total_insert by done. rewrite claims_of_total in Hquota. unfold weight_claims at 1.
    destruct (decide (peer = q)) as [->|]; lia.
Qed.

Lemma subscriptions_of_total (b : broker) peer :
  subscriptions_of b peer = total_of (weight_subscriptions peer) (b_subscriptions b).
Proof. unfold subscriptions_of. by rewrite len_filter_values. Qed.

Lemma weight_subscriptions_le peer s : weight_subscriptions peer s <= 1.
Proof. unfold weight_subscriptions. destruct (decide (is_Some (s !! peer))); lia. Qed.

Lemma weight_subscriptions_some peer s : is_Some (s !! peer) -> weight_subscriptions peer s = 1.
Proof. intros Hs. unfold weight_subscriptions. by rewrite decide_True. Qed.

Lemma subscribed_ok peer channel filters (b : broker) :
  broker_ok b -> is_Some (b_peers b !! peer) ->
  is_subscribed b peer channel = true \/
    subscriptions_of b peer < maximum_subscriptions (b_limits b) ->
  broker_ok (subscribed peer channel filters b).
Proof.
  intros [Hn Hps Hns Hds Hsub Hdel Hmon Hq] Hp Hquota. apply observe_ok.
  split; cbn; try done.
  - apply map_Forall_insert_2; [|done]. split; [apply insert_non_empty|].
    intros q [<-|[_ Hs]]%lookup_insert_is_Some; [done|].
    destruct (b_subscriptions b !! channel) as [s|] eqn:E; cbn in Hs.
    + by apply (proj2 (Hsub channel s E)).
    + rewrite lookup_empty in Hs. by destruct Hs.
  - intros q. destruct (Hq q). split; cbn; try done.
    rewrite subscriptions_of_total in Hquota. unfold is_subscribed in Hquota.
    destruct (b_subscriptions b !! channel) as [s|] eqn:E; cbn.
    + pose proof (total_update (weight_subscriptions q) _ channel s (<[peer := filters]> s) E) as Ht.
      enough (weight_subscriptions q (<[peer := filters]> s) <= weight_subscriptions q s \/
              q = peer /\ weight_subscriptions q (<[peer := filters]> s) <= 1 /\
              total_of (weight_subscriptions peer) (b_subscriptions b) <
                maximum_subscriptions (b_limits b)) as [?|(-> & ? & ?)] by lia.
      pose proof (weight_subscriptions_le q (<[peer := filters]> s)) as Hle.
      destruct (decide (q = peer)) as [->|Hne].
      * destruct Hquota as [Hsome%bool_decide_eq_true|Hlt]; [|by right].
        left. by rewrite (weight_subscriptions_some peer s).
      * left. unfold weight_subscriptions. by rewrite lookup_insert_ne by done.
    + destruct Hquota as [?|Hlt]; [done|]. rewrite total_insert by done.
      unfold weight_subscriptions at 1. destruct (decide (is_Some _)) as [Hs|]; [|lia].
      apply lookup_insert_is_Some in Hs as [<-|[_ Hs]]; [lia|].
      rewrite lookup_empty in Hs. by destruct Hs.
Qed.

Lemma unsubscribed_ok peer channel (b : broker) :
  broker_ok b -> broker_ok (unsubscribed peer channel b).
Proof.
  intros [Hn Hps Hns Hds Hsub Hdel Hmon Hq]. unfold unsubscribed.
  destruct (b_subscriptions b !! channel) as [s|] eqn:E.
  - split; cbn; rewrite ?E; try done.
    + case_bool_decide as He; [by apply map_Forall_delete|].
      apply map_Forall_insert_2; [|done]. split; [done|].
      intros q [_ Hs]%lookup_delete_is_Some. by apply (proj2 (Hsub channel s E)).
    + intros q. destruct (Hq q). split; cbn; rewrite ?E; try done.
      case_bool_decide as He; [etrans; [apply total_delete_le|done]|].
      pose proof (total_update (weight_subscriptions q) _ channel s (delete peer s) E) as Ht.
      enough (weight_subscriptions q (delete peer s) <= weight_subscriptions q s) by lia.
      unfold weight_subscriptions. destruct (decide (is_Some (delete peer s !! q))) as [Hs|]; [|lia].
      apply lookup_delete_is_Some in Hs as [_ Hs]. by rewrite decide_True.
  - split; cbn; rewrite ?E; try done.
    intros q. destruct (Hq q). split; cbn; rewrite ?E; done.
Qed.

Lemma registered_ok peer name (b : broker) :
  broker_ok b -> is_Some (b_peers b !! peer) -> broker_ok (set_dbus_names <[name := peer]> b).
Proof.
  intros [Hn Hps Hns Hds Hsub Hdel Hmon Hq] Hp. split; cbn; try done.
  - by apply map_Forall_insert_2.
  - intros q. destruct (Hq q). by split.
Qed.

(** ** Deliveries *)

(** The part of the invariant that is about pending deliveries. *)
Definition deliveries_ok (b : broker) (d : gmap MessageId PendingDelivery) : Prop :=
  map_Forall (fun id p => exists m, pending_ok (b_peers b) (b_next_peer b) id p m) d /\
  forall q,
    total_of (weight_sent q) d <= maximum_queued_messages (b_limits b) /\
    (maximum_queued_bytes (b_limits b) < usize_max ->
      total_of (weight_bytes q) d <= maximum_queued_bytes (b_limits b)) /\
    total_of (weight_requests q) d <= maximum_in_flight_requests (b_limits b).

Lemma broker_ok_deliveries (b : broker) : broker_ok b -> deliveries_ok b (b_deliveries b).
Proof. intros Hb. split; [apply Hb|]. intros q. by destruct (ok_quotas b Hb q). Qed.

Lemma set_deliveries_ok f (b : broker) :
  broker_ok b -> deliveries_ok b (f (b_deliveries b)) -> broker_ok (set_deliveries f b).
Proof.
  intros [? ? ? ? ? ? ? Hq] [Hd Ht]. split; try done.
  intros q. destruct (Hq q), (Ht q) as (? & ? & ?). by split.
Qed.

Lemma delete_ok id (b : broker) : broker_ok b -> broker_ok (set_deliveries (delete id) b).
Proof.
  intros Hb. apply set_deliveries_ok; [done|]. destruct (broker_ok_deliveries b Hb) as [Hd Ht].
  split; [by apply map_Forall_delete|]. intros q. destruct (Ht q) as (? & Hby & ?).
  repeat split; try (intros; etrans; [apply total_delete_le|]); auto.
Qed.

Lemma update_ok id p p' m (b : broker) :
  broker_ok b -> b_deliveries b !! id = Some p ->
  pending_ok (b_peers b) (b_next_peer b) id p' m ->
  pd_sender p' = pd_sender p -> pd_message p' = pd_message p ->
  broker_ok (set_deliveries <[id := p']> b).
Proof.
  intros Hb Hp Hp' Hs Hm. apply set_deliveries_ok; [done|].
  destruct (broker_ok_deliveries b Hb) as [Hd Ht]. split.
  - apply map_Forall_insert_2; [|done]. by exists m.
  - intros q. destruct (Ht q) as (H1 & H2 & H3).
    pose proof (total_update (weight_sent q) _ id p p' Hp) as T1.
    pose proof (total_update (weight_bytes q) _ id p p' Hp) as T2.
    pose proof (total_update (weight_requests q) _ id p p' Hp) as T3.
    assert (weight_sent q p' = weight_sent q p) as E1 by (unfold weight_sent; by rewrite Hs).
    assert (weight_bytes q p' = weight_bytes q p) as E2
      by (unfold weight_bytes; by rewrite Hs, Hm).
    assert (weight_requests q p' = weight_requests q p) as E3
      by (unfold weight_requests; by rewrite Hs, Hm).
    split; [lia|]. split; [intros Hl; specialize (H2 Hl); lia | lia].
Qed.

Lemma counted_ok sender m recipients (b : broker) :
  broker_ok b -> broker_ok (counted sender m recipients b).
Proof.
  intros Hb. unfold counted. destruct (_ && _); repeat apply set_metrics_ok;
    apply observe_ok; repeat apply set_metrics_ok; done.
Qed.

(** What the capacity check buys. *)
Lemma capacity_room (b : broker) sender f q :
  ensure_delivery_capacity b sender f q = Ok () ->
  total_of (weight_sent sender) (b_deliveries b) < maximum_queued_messages (b_limits b) /\
  (maximum_queued_bytes (b_limits b) < usize_max ->
   total_of (weight_bytes sender) (b_deliveries b) + delivery_bytes f <=
     maximum_queued_bytes (b_limits b)) /\
  (q = true ->
   total_of (weight_requests sender) (b_deliveries b) < maximum_in_flight_requests (b_limits b)).
Proof.
  unfold ensure_delivery_capacity, sent_by.
  rewrite len_filter_values, (sum_filter_values (fun p => pd_sender p = sender)).
  fold (weight_sent sender) (weight_bytes sender).
  assert (len (filter (fun pending => is_request (pd_message pending) = true)
            (filter (fun pending => pd_sender pending = sender) (bt_values (b_deliveries b)))) =
          total_of (weight_requests sender) (b_deliveries b)) as ->.
  { rewrite len_filter, sum_N_filter. unfold total_of, weight_requests. f_equal.
    apply list_fmap_ext. intros _ x _. by destruct (is_request (pd_message x)). }
  destruct (N.leb_spec (maximum_queued_messages (b_limits b)) (total_of (weight_sent sender) (b_deliveries b)));
    [done|].
  unfold saturating_add.
  destruct (N.ltb_spec (maximum_queued_bytes (b_limits b))
    (N.min usize_max (total_of (weight_bytes sender) (b_deliveries b) + delivery_bytes f))); [done|].
  intros Hq. split; [done|]. split; [lia|]. intros ->. cbn [andb] in Hq.
  destruct (N.leb_spec (maximum_in_flight_requests (b_limits b))
    (total_of (weight_requests sender) (b_deliveries b))); [done | lia].
Qed.

(** An opened delivery fits the quotas. *)
Lemma insert_ok id p m (b : broker) :
  broker_ok b -> b_deliveries b !! id = None ->
  pending_ok (b_peers b) (b_next_peer b) id p m ->
  ensure_delivery_capacity b (pd_sender p) (pd_message p)
    (bool_decide (m_kind m = MessageKind_Request)) = Ok () ->
  broker_ok (set_deliveries <[id := p]> b).
Proof.
  intros Hb Hid Hp Hcap%capacity_room. apply set_deliveries_ok; [done|].
  destruct (broker_ok_deliveries b Hb) as [Hd Ht]. split.
  - apply map_Forall_insert_2; [|done]. by exists m.
  - intros q. rewrite !total_insert by done. destruct (Ht q) as (H1 & H2 & H3).
    destruct Hcap as (C1 & C2 & C3).
    unfold weight_sent at 1, weight_bytes at 1, weight_requests at 1.
    destruct (decide (pd_sender p = q)) as [<-|Hne]; [|auto].
    split; [lia|]. split; [intros Hl; specialize (C2 Hl); lia|].
    rewrite (pok_message _ _ _ _ _ Hp). cbn [is_request].
    case_bool_decide; [specialize (C3 eq_refl); lia | lia].
Qed.

Lemma bs_len_list_to_set_ne (l : list PeerId) :
  (list_to_set l : gset PeerId) <> ∅ <-> l <> [].
Proof. destruct l; cbn; set_solver. Qed.

(** Routing selects connected peers. *)
Lemma select_recipients_connected (b : broker) s d h selected :
  broker_ok b -> select_recipients b s d h = Ok selected ->
  forall r, r ∈ selected -> is_Some (b_peers b !! r).
Proof.
  intros Hb. unfold select_recipients, mbind, result_bind.
  destruct d as [|p|n|c|c sel|]; [done|..];
    match goal with |- context [authorize ?b ?s ?a] => destruct (authorize b s a) end;
    try done; intros [= <-] r Hr.
  - case_bool_decide; [|set_solver]. by apply list_elem_of_singleton in Hr as ->.
  - unfold namespace_owner in Hr. destruct (b_namespaces b !! n) as [o|] eqn:E; [|set_solver].
    apply list_elem_of_singleton in Hr as ->. by apply (ok_namespaces b Hb n).
  - destruct (b_subscriptions b !! c) as [subs|] eqn:E; [|set_solver].
    apply list_elem_of_fmap in Hr as ([r' fs] & -> & Hr).
    apply list_elem_of_filter in Hr as [_ Hr%elem_of_bt_entries].
    apply (proj2 (ok_subscriptions b Hb c subs E)). by exists fs.
  - assert (r ∈ peer_id <$> filter (fun p => hello_client_id (peer_hello p) = Some c)
              (bt_values (b_peers b))) as Hr'.
    { destruct sel; [by apply (subseteq_take 1)..|done]. }
    apply list_elem_of_fmap in Hr' as (p & -> & Hp).
    apply list_elem_of_filter in Hp as [_ Hp]. apply elem_of_bt_values in Hp as [k Hk].
    destruct (ok_peers b Hb k p Hk) as [-> _]. by exists p.
  - apply list_elem_of_filter in Hr as [_ Hr]. by apply elem_of_bt_keys.
Qed.

Lemma route_connected (b : broker) s d h selected :
  broker_ok b -> route b s d h = Ok selected ->
  forall r, r ∈ selected -> is_Some (b_peers b !! r).
Proof.
  intros Hb. unfold route, mbind, result_bind. destruct (credentials_of b s); [|done..].
  pose proof (select_recipients_connected b s d h) as Hs.
  destruct (select_recipients b s d h) as [l| |]; [|done..]. specialize (Hs l Hb eq_refl).
  destruct d; try case_bool_decide; intros [= <-]; done.
Qed.

Lemma requirement_met_none m (n : N) :
  proper_message m -> waits (m_ack_policy m) -> 0 < n ->
  requirement_met (m_ack_requirement m) 0 n = false.
Proof.
  intros [Hp _] Hw Hn. unfold requirement_proper, requirement_met in *.
  destruct (m_ack_requirement m); [done|done|..].
  - apply N.eqb_neq. lia.
  - apply N.leb_gt. lia.
Qed.

Lemma bs_len_pos (X : gset PeerId) : X <> ∅ -> 0 < bs_len X.
Proof. intros HX. unfold bs_len. assert (size X <> 0%nat) by (apply size_non_empty_iff; by intros ?%leibniz_equiv).
  lia.
Qed.

Lemma retry_next_none r now attempts : retry_next r now attempts = None <-> r = RetryPolicy_None.
Proof. destruct r; cbn; [done|]. split; [|done]. by destruct (_ <=? _). Qed.

Lemma begin_ok sender m now_ms events (b b' : broker) :
  broker_ok b -> proper_message m -> begin_step sender m now_ms b events b' -> broker_ok b'.
Proof.
  intros Hb Hm Hstep. destruct Hstep as [|selected recipients|selected recipients
    |selected priority recipients Hadm Hroute Ht Hne Hreq Hprio Hcap Hdl]; try by repeat apply counted_ok.
  destruct Hadm as [[sp Hs] Hh _ Hk Hfresh].
  apply (insert_ok _ _ m); [by apply counted_ok|by rewrite counted_deliveries| |].
  - assert (b_peers (counted sender m recipients b) = b_peers b /\
            b_next_peer (counted sender m recipients b) = b_next_peer b) as [-> ->].
    { unfold counted. by destruct (_ && _). }
    pose proof (message_priority_cases (m_headers m)) as Hp. rewrite Hprio in Hp.
    destruct (ok_peers b Hb sender sp Hs) as [_ ?].
    split; cbn; try done; try tauto.
    + intros r Hr%elem_of_list_to_set. by apply (route_connected b sender (m_destination m) (m_headers m) selected).
    + intros r Hr. rewrite lookup_empty in Hr. by destruct Hr.
    + unfold bt_len. rewrite map_size_empty. by apply bs_len_pos.
    + intros Hw. symmetry. apply requirement_met_none; [done..|]. by apply bs_len_pos.
    + unfold attempts_allowed. destruct (m_retry m); lia.
    + apply retry_next_none.
  - cbn. by rewrite counted_capacity.
Qed.

Lemma answers_open (b : broker) sender m pending request :
  broker_ok b -> answers sender m b pending request ->
  pending_ok (b_peers b) (b_next_peer b) (m_correlation_id m) pending request.
Proof.
  intros Hb [Hp Hreq _ _ _]. destruct (ok_deliveries b Hb _ _ Hp) as [m' Hm'].
  assert (m' = request) as -> by (pose proof (pok_message _ _ _ _ _ Hm'); congruence). done.
Qed.

Lemma response_size_le sender f p (ps : gmap PeerId Peer) next id m :
  pending_ok ps next id p m -> sender ∈ pd_recipients p ->
  bt_len (<[sender := f]> (pd_responses p)) <= bs_len (pd_recipients p).
Proof.
  intros Hp Hs. unfold bt_len, bs_len. rewrite <- size_dom.
  enough (size (dom (<[sender := f]> (pd_responses p))) <= size (pd_recipients p))%nat by lia.
  apply subseteq_size. rewrite dom_insert. intros r [->%elem_of_singleton|Hr]%elem_of_union; [done|].
  apply elem_of_dom in Hr. by apply (pok_responders _ _ _ _ _ Hp).
Qed.

Lemma response_step_ok sender m events (b b' : broker) :
  broker_ok b -> no_reserved (m_headers m) -> m_kind m = MessageKind_Response -> wf_message m ->
  response_step sender m b events b' -> broker_ok b'.
Proof.
  intros Hb Hh Hk Hwf Hstep. destruct Hstep as [pending request responses completed Hans].
  pose proof (answers_open b sender m pending request Hb Hans) as Hp.
  destruct Hans as [Hpend Hreq Hkind Hin Hno].
  destruct completed eqn:Ec; [by apply delete_ok|].
  apply (update_ok _ pending _ request); [done|done| |done|done].
  pose proof (response_size_le sender (Frame_Message m) pending _ _ _ _ Hp Hin) as Hsize.
  fold responses in Hsize.
  destruct Hp. split; cbn; try done.
  - intros r [<-|[_ Hr]]%lookup_insert_is_Some; auto.
  - apply map_Forall_insert_2; [|done]. by exists m.
  - unfold completed, response_completed in Ec.
    destruct (m_request_policy request); try done; bool_props; lia.
Qed.

Lemma requirement_met_mono m (a a' n : N) :
  a <= a' -> a' <= n -> requirement_met (m_ack_requirement m) a n = true ->
  requirement_met (m_ack_requirement m) a' n = true.
Proof.
  intros Ha Hn. unfold requirement_met. destruct (m_ack_requirement m); [done|..]; bool_props; lia.
Qed.

Lemma ack_step_ok peer id policy events (b b' : broker) :
  broker_ok b -> ack_step peer id policy b events b' -> broker_ok b'.
Proof.
  intros Hb Hstep. destruct Hstep as [pending m acks complete _ [Hp Hm Hin Hsat]].
  apply observe_ok.
  destruct (complete && _) eqn:Ec; [by apply delete_ok|].
  destruct (ok_deliveries b Hb _ _ Hp) as [m' Hok].
  assert (m' = m) as -> by (pose proof (pok_message _ _ _ _ _ Hok); congruence).
  apply (update_ok _ pending _ m); [done|done| |done|done].
  assert (acks ⊆ pd_recipients pending) as Hsub.
  { pose proof (pok_acknowledgements _ _ _ _ _ Hok). set_solver. }
  assert (bs_len (pd_acknowledgements pending) <= bs_len acks) as Hle.
  { unfold bs_len. enough (size (pd_acknowledgements pending) <= size acks)%nat by lia.
    apply subseteq_size. set_solver. }
  assert (bs_len acks <= bs_len (pd_recipients pending)) as Hle'.
  { unfold bs_len. enough (size acks <= size (pd_recipients pending))%nat by lia.
    by apply subseteq_size. }
  destruct Hok. split; cbn; try done.
  - intros Hw. specialize (pok_acknowledged0 Hw). unfold complete.
    destruct (pd_acknowledgement_complete pending); cbn; [|done].
    symmetry. by eapply requirement_met_mono.
  - intros Hk. rewrite (pok_incomplete0 Hk) in *. cbn.
    rewrite bool_decide_eq_false_2, andb_true_r in Ec by done. exact Ec.
Qed.

(** ** The clock *)

Lemma pending_attempts_fit ps next id p m : pending_ok ps next id p m -> attempts_fit p.
Proof.
  intros Hp. unfold attempts_fit. rewrite (pok_message _ _ _ _ _ Hp). cbn.
  destruct (pok_proper _ _ _ _ _ Hp) as (_ & (_ & _ & Hr & _) & _). destruct (m_retry m); [done|]. apply Hr.
Qed.

Lemma broker_attempts_fit (b : broker) :
  broker_ok b -> map_Forall (fun _ => attempts_fit) (b_deliveries b).
Proof.
  intros Hb id p Hp. destruct (ok_deliveries b Hb id p Hp) as [m Hm].
  by eapply pending_attempts_fit.
Qed.

Lemma tick_state_ok now_ms id p (b : broker) :
  broker_ok b -> b_deliveries b !! id = Some p -> broker_ok (tick_state now_ms id p b).
Proof.
  intros Hb Hp. unfold tick_state. destruct (tick_decision now_ms p) eqn:Ed; [done|..].
  - apply observe_ok, set_metrics_ok. by apply delete_ok.
  - by apply delete_ok.
  - apply observe_ok, set_metrics_ok.
    destruct (ok_deliveries b Hb id p Hp) as [m Hm]. unfold tick_decision in Ed.
    destruct (_ <=? now_ms); [done|]. destruct (pd_next_retry_ms p); [|done].
    pose proof (pok_message _ _ _ _ _ Hm) as Hmsg. rewrite Hmsg in Ed. cbn in Ed.
    destruct (m_retry m) as [|backoff max] eqn:Er; [done|]. destruct (now_ms <? n); [done|].
    destruct (N.leb_spec max (pd_attempts p)); [done|]. injection Ed as <-.
    apply (update_ok _ p _ m); [done|done| |done|done].
    destruct Hm. split; try done.
    + rewrite Er in *. cbn in *. lia.
    + rewrite Er. exact (retry_next_none (RetryPolicy_Exponential backoff max) now_ms (pd_attempts p + 1)).
Qed.

Lemma tick_fold_ok now_ms ids (b : broker) : broker_ok b -> broker_ok (tick_fold now_ms ids b).
Proof.
  unfold tick_fold. revert b. induction ids as [|id ids IH]; intros b Hb; [done|].
  cbn [foldl]. apply IH. unfold tick_visit. destruct (b_deliveries b !! id) eqn:E; [|done].
  by apply tick_state_ok.
Qed.

(** ** Every command preserves the invariant and does not panic *)

Lemma permitted_connected (b : broker) peer act : permitted b peer act -> is_Some (b_peers b !! peer).
Proof. intros (p & Hp & _). by exists p. Qed.

End invariant.

(** Splits a command that ends by discarding a handler's result. *)
Ltac run_apply Hr :=
  cbn [apply] in Hr; cbv [mbind St_bind mret St_ret] in Hr;
  match type of Hr with
  | context [match ?h with _ => _ end] =>
      let r := fresh "r" in let b := fresh "b" in let E := fresh "E" in
      destruct h as [r b] eqn:E; destruct r; simplify_eq
  end.

Section preservation.
Context {P : Type} `{Policy P}.

Local Abbreviation broker := (Broker P).

Lemma apply_ok c (b b' : broker) r :
  broker_ok b -> proper_command c -> apply c b = (r, b') -> broker_ok b' /\ r <> Panic.
Proof.
  intros Hb Hc Hr. destruct c.
  - run_apply Hr; apply connect_session_effect in E; [|by subst|done].
    destruct E as (-> & Hlt & _). split; [by apply connected_ok | done].
  - apply disconnect_with_events_effect in Hr. destruct r; [|destruct Hr as [-> _]; done|done].
    destruct Hr as (_ & -> & _). split; [by apply disconnected_ok | done].
  - run_apply Hr; apply claim_effect in E; [|destruct E as [-> _]; done|done].
    destruct E as (-> & Hp & Hq & Hf). split; [|done].
    apply claimed_ok; try done. by eapply permitted_connected.
  - run_apply Hr; apply subscribe_effect in E; [|destruct E as [-> _]; done|done].
    destruct E as (-> & Hp & Hq). split; [|done].
    apply subscribed_ok; try done. by eapply permitted_connected.
  - run_apply Hr; apply unsubscribe_effect in E; [|destruct E as [-> _]; done|done].
    destruct E as (-> & Hp). split; [by apply unsubscribed_ok | done].
  - run_apply Hr; apply register_dbus_name_effect in E; [|destruct E as [-> _]; done|done].
    destruct E as (-> & _ & Hp & _). split; [|done].
    apply registered_ok; try done. by eapply permitted_connected.
  - destruct message; try (cbn in Hr; cbv [fail] in Hr; by simplify_eq).
    destruct (decide (m_kind message = MessageKind_Response)) as [Hk|Hk].
    + apply begin_response_effect in Hr; [|done]. destruct r; [|by subst|done].
      destruct Hr as (Hs & Hh & _). split; [by eapply response_step_ok; [| | |apply Hc|] | done].
    + apply begin_delivery_effect in Hr; [|done]. destruct r; [| |done].
      * split; [by eapply begin_ok | done].
      * destruct Hr as [->|(selected & _ & -> & _)]; [done|]. split; [by apply counted_ok | done].
  - apply acknowledge_effect in Hr. destruct r; [|destruct Hr as [-> _]; done|done].
    split; [by eapply ack_step_ok | done].
  - cbn [apply] in Hr. rewrite tick_effect in Hr by by apply broker_attempts_fit.
    simplify_eq. split; [by apply tick_fold_ok | done].
  - cbn in Hr. cbv [mbind St_bind get_state modify mret St_ret drain_events] in Hr. cbn in Hr.
    simplify_eq. split; [by apply set_events_ok | done].
Qed.

Lemma reachable_ok policy limits (b : broker) : reachable policy limits b -> broker_ok b.
Proof.
  induction 1 as [|b c r b' _ IH Hc Hr]; [apply new_ok|]. by destruct (apply_ok c b b' r IH Hc Hr).
Qed.

(** ** Frame conditions

    Routing, acknowledging and ticking change pending deliveries, counters and
    the monitor window, nothing else. *)

Definition static (b : broker) :=
  (b_policy b, b_limits b, b_capabilities b, b_next_peer b, b_peers b, b_namespaces b,
   b_dbus_names b, b_subscriptions b, b_events b).

Lemma static_fields (b b' : broker) :
  static b' = static b ->
  b_policy b' = b_policy b /\ b_limits b' = b_limits b /\ b_capabilities b' = b_capabilities b /\
  b_next_peer b' = b_next_peer b /\ b_peers b' = b_peers b /\ b_namespaces b' = b_namespaces b /\
  b_dbus_names b' = b_dbus_names b /\ b_subscriptions b' = b_subscriptions b /\
  b_events b' = b_events b.
Proof. unfold static. intros Hs. by injection Hs. Qed.

Lemma counted_static sender m recipients (b : broker) :
  static (counted sender m recipients b) = static b.
Proof. unfold counted. by destruct (_ && _). Qed.

Lemma begin_step_static sender m now_ms events (b b' : broker) :
  begin_step sender m now_ms b events b' -> static b' = static b.
Proof. destruct 1; [done|..]; apply counted_static. Qed.

Lemma begin_static sender f now_ms (b b' : broker) r :
  begin_delivery sender f now_ms b = (r, b') -> static b' = static b.
Proof.
  intros Hr. destruct f; try (cbn in Hr; cbv [fail] in Hr; by simplify_eq).
  destruct (decide (m_kind message = MessageKind_Response)) as [Hk|Hk].
  - apply begin_response_effect in Hr; [|done]. destruct r; [|by subst|done].
    destruct Hr as (Hs & _). by destruct Hs.
  - apply begin_delivery_effect in Hr; [|done]. destruct r; [by eapply begin_step_static| |done].
    destruct Hr as [->|(selected & _ & -> & _)]; [done|]. apply counted_static.
Qed.

Lemma acknowledge_static peer id policy (b b' : broker) r :
  acknowledge peer id policy b = (r, b') -> static b' = static b.
Proof.
  intros Hr. apply acknowledge_effect in Hr. destruct r; [|by destruct Hr as [-> _]|done].
  by destruct Hr.
Qed.

Lemma tick_fold_static now_ms ids (b : broker) : static (tick_fold now_ms ids b) = static b.
Proof.
  unfold tick_fold. revert b. induction ids as [|id ids IH]; intros b; [done|].
  cbn [foldl]. rewrite IH. unfold tick_visit, tick_state.
  destruct (b_deliveries b !! id); [|done]. by destruct (tick_decision _ _).
Qed.

(** The lifecycle of a peer: only a connection adds one, and only its own
    disconnection removes it. *)
Lemma apply_cases c (b b' : broker) r :
  broker_ok b -> apply c b = (r, b') ->
  match c with
  | Command_Connect creds hello =>
      b' = b /\ is_ok r = false \/
      b' = connected creds hello b /\ b_next_peer b < u64_max
  | Command_Disconnect peer =>
      b' = b /\ is_ok r = false \/ b' = disconnected peer b
  | Command_Claim peer namespace =>
      b' = b /\ is_ok r = false \/
      b' = claimed peer namespace b /\ b_namespaces b !! namespace = None /\
        is_Some (b_peers b !! peer)
  | Command_Subscribe peer channel filters =>
      b' = b /\ is_ok r = false \/ b' = subscribed peer channel filters b
  | Command_Unsubscribe peer channel =>
      b' = b /\ is_ok r = false \/ b' = unsubscribed peer channel b
  | Command_RegisterDbusName peer name =>
      b' = b /\ is_ok r = false \/
      b' = set_dbus_names <[name := peer]> b /\ b_dbus_names b !! name = None
  | Command_DrainEvents => b' = set_events (fun _ => []) b
  | _ => static b' = static b
  end.
Proof.
  intros Hb Hr. destruct c.
  - run_apply Hr; apply connect_session_effect in E; [|by left; subst|done].
    destruct E as (-> & Hlt & _). by right.
  - apply disconnect_with_events_effect in Hr. destruct r; [|by left; destruct Hr as [-> _]|done].
    destruct Hr as (_ & -> & _). by right.
  - run_apply Hr; apply claim_effect in E; [|by left; destruct E as [-> _]|done].
    destruct E as (-> & Hp & _ & Hf). right. split; [done|]. split; [done|].
    by eapply permitted_connected.
  - run_apply Hr; apply subscribe_effect in E; [|by left; destruct E as [-> _]|done].
    destruct E as (-> & _). by right.
  - run_apply Hr; apply unsubscribe_effect in E; [|by left; destruct E as [-> _]|done].
    destruct E as (-> & _). by right.
  - run_apply Hr; apply register_dbus_name_effect in E; [|by left; destruct E as [-> _]|done].
    destruct E as (-> & _ & _ & Hf). by right.
  - by apply begin_static in Hr.
  - by apply acknowledge_static in Hr.
  - cbn [apply] in Hr. rewrite tick_effect in Hr by by apply broker_attempts_fit.
    simplify_eq. apply tick_fold_static.
  - cbn in Hr. cbv [mbind St_bind get_state modify mret St_ret drain_events] in Hr. cbn in Hr.
    by simplify_eq.
Qed.

(** The policy and the limits are those the broker was made with. *)
Lemma apply_settings c (b b' : broker) r :
  broker_ok b -> apply c b = (r, b') -> b_policy b' = b_policy b /\ b_limits b' = b_limits b.
Proof.
  intros Hb Hr. pose proof (apply_cases c b b' r Hb Hr) as Hc.
  destruct c; try (by apply static_fields in Hc as (? & ? & _)); try by subst.
  all: destruct Hc as [[-> _]|Hc]; [done|]; first [by subst | by destruct Hc as [-> _]].
Qed.

Lemma reachable_settings policy limits (b : broker) :
  reachable policy limits b -> b_policy b = policy /\ b_limits b = limits.
Proof.
  induction 1 as [|b c r b' Hb [<- <-] Hc Hr]; [done|].
  by apply (apply_settings c b b' r); [eapply reachable_ok|].
Qed.

(** ** Runs *)

(** The state after a list of commands, whatever their results. *)
Definition run (cs : list command) (b : broker) : broker := foldl (fun b c => (apply c b).2) b cs.

Lemma reachable_run policy limits cs (b : broker) :
  reachable policy limits b -> Forall proper_command cs -> reachable policy limits (run cs b).
Proof.
  intros Hb Hcs. revert b Hb. induction Hcs as [|c cs Hc _ IH]; intros b Hb; [done|].
  cbn. apply IH. destruct (apply c b) as [r b'] eqn:E. by eapply reachable_step.
Qed.

Lemma run_ok cs (b : broker) : broker_ok b -> Forall proper_command cs -> broker_ok (run cs b).
Proof.
  intros Hb Hcs. revert b Hb. induction Hcs as [|c cs Hc _ IH]; intros b Hb; [done|].
  cbn. apply IH. destruct (apply c b) as [r b'] eqn:E. by destruct (apply_ok c b b' r Hb Hc E).
Qed.

End preservation.
