(* ===== verification/BrokerFacts.v ===== *)
(** * What the broker guarantees about peers, names and authorization

    The theorems on connection identities, namespace ownership, quotas,
    mediation by the policy and the release of a peer's state, for every broker
    reachable by a sequence of commands. *)

From S2P Require Export Invariants.

Local Open Scope N_scope.

(** ** A concrete broker for the witnesses *)

Definition demo_credentials : Credentials := root_credentials.
Definition demo_hello (name : bytes) : ClientHello := {|
  hello_client_id := Some (ClientId_of name); hello_headers := ∅; hello_capabilities := {[ bs "alpha" ]} |}.

Definition demo_request (destination : Destination) (policy : RequestPolicy) (retry : RetryPolicy)
    (id : byte) : Message := {|
  m_kind := MessageKind_Request;
  m_ack_policy := AckPolicy_Received;
  m_ack_requirement := AckRequirement_All;
  m_request_policy := policy;
  m_deadline_ms := 100;
  m_retry := retry;
  m_destination := destination;
  m_message_id := MessageId_new (replicate 16 id);
  m_correlation_id := MessageId_absent;
  m_status := Status_Success;
  m_headers := ∅;
  m_payload := bs "ping";
|}.

Definition demo_channel : Channel := Channel_of (bs "events").
Definition demo_namespace : Namespace := Namespace_of (bs "bus://demo").

(** Three peers; the second owns a namespace, the second and third subscribe;
    the first has a request pending on the channel. *)
Definition demo_commands : list command := [
  Command_Connect demo_credentials (demo_hello (bs "one"));
  Command_Connect demo_credentials (demo_hello (bs "two"));
  Command_Connect demo_credentials (demo_hello (bs "two"));
  Command_Claim (PeerId_new 2) demo_namespace;
  Command_Subscribe (PeerId_new 2) demo_channel [];
  Command_Subscribe (PeerId_new 3) demo_channel [];
  Command_BeginDelivery (PeerId_new 1)
    (Frame_Message (demo_request (Destination_Channel demo_channel) RequestPolicy_FirstSuccess
                      (RetryPolicy_Exponential 10 3) x07)) 1000].

Definition demo : Broker AllowAll := run demo_commands (new allow_all).

Lemma demo_proper : Forall proper_command demo_commands.
Proof.
  unfold demo_commands. repeat constructor; cbn; unfold requirement_proper, wf_retry; cbn;
    unfold u32_max, u8_max; try done; lia.
Qed.

Lemma demo_reachable : reachable allow_all Limits_default demo.
Proof. apply reachable_run; [apply reachable_new | apply demo_proper]. Qed.

Example demo_state :
  b_namespaces demo !! demo_namespace = Some (PeerId_new 2) /\
  bt_keys (b_peers demo) = [PeerId_new 1; PeerId_new 2; PeerId_new 3] /\
  bt_keys (b_deliveries demo) = [MessageId_new (replicate 16 x07)].
Proof. vm_compute. by repeat split. Qed.

Section facts.
Context {P : Type} `{Policy P}.

Local Abbreviation broker := (Broker P).

(** ** Invariants *)

(** C4: the broker's invariant.  Every broker reached from an empty one by any
    sequence of commands, failed ones included, is consistent: peers carry their
    own identity, owners and subscribers are connected, no empty subscription
    set is kept, every pending delivery has a valid message, connected
    recipients, acknowledgements and responses only from its recipients, a
    completion flag that tells whether its requirement is met, attempts within
    its retry policy; the monitor window and all quotas hold. *)
Theorem reachable_invariant policy limits (b : broker) :
  reachable policy limits b -> broker_ok b.
Proof. apply reachable_ok. Qed.

(** No command makes the broker panic: the [expect] of [tick], the
    increment of the attempt counter and every checked conversion are safe in
    every reachable state. *)
Theorem broker_never_panics policy limits (b b' : broker) c r :
  reachable policy limits b -> proper_command c -> apply c b = (r, b') -> r <> Panic.
Proof. intros Hb Hc Hr. by destruct (apply_ok c b b' r (reachable_ok _ _ _ Hb) Hc Hr). Qed.

(** What a peer may hold, measured as the code measures it: namespace claims,
    subscribed channels, retained deliveries, their bytes and in-flight
    requests. *)
Definition within_limits (limits : Limits) (b : broker) (peer : PeerId) : Prop :=
  claims_of b peer <= maximum_namespace_claims limits /\
  subscriptions_of b peer <= maximum_subscriptions limits /\
  len (sent_by b peer) <= maximum_queued_messages limits /\
  (maximum_queued_bytes limits < usize_max ->
   sum_N ((fun p => delivery_bytes (pd_message p)) <$> sent_by b peer)
     <= maximum_queued_bytes limits) /\
  len (filter (fun p => is_request (pd_message p) = true) (sent_by b peer))
    <= maximum_in_flight_requests limits.

Lemma ok_within_limits (b : broker) peer : broker_ok b -> within_limits (b_limits b) b peer.
Proof.
  intros Hb. destruct (ok_quotas b Hb peer) as [Hc Hs Hm Hby Hr]. unfold within_limits.
  rewrite claims_of_total, subscriptions_of_total. unfold sent_by.
  rewrite len_filter_values, (sum_filter_values (fun p => pd_sender p = peer)).
  rewrite len_filter, sum_N_filter. split; [done|]. split; [done|]. split; [done|]. split; [done|].
  etrans; [|exact Hr]. apply N.eq_le_incl. unfold total_of. f_equal. apply list_fmap_ext.
  intros _ p _. unfold weight_requests. by destruct (is_request (pd_message p)).
Qed.

(** The per-peer quotas the broker was made with hold in every reachable
    state: no peer owns more namespaces, subscribes to more channels or retains
    more messages, bytes or open requests than its limits allow. *)
Theorem quotas_enforced policy limits (b : broker) peer :
  reachable policy limits b -> within_limits limits b peer.
Proof.
  intros Hb. destruct (reachable_settings _ _ _ Hb) as [_ <-].
  by apply ok_within_limits, (reachable_ok policy (b_limits b)).
Qed.

(** ** Identities *)

Lemma apply_next_peer (b b' : broker) c r :
  broker_ok b -> apply c b = (r, b') -> b_next_peer b <= b_next_peer b'.
Proof.
  intros Hb Hr. pose proof (apply_cases c b b' r Hb Hr) as Hc.
  destruct c; try (destruct Hc as [[-> _]| ->]; done).
  - destruct Hc as [[-> _]|[-> _]]; cbn; lia.
  - destruct Hc as [[-> _]|[-> _]]; done.
  - destruct Hc as [[-> _]|[-> _]]; done.
  - apply static_fields in Hc as (_ & _ & _ & -> & _). done.
  - apply static_fields in Hc as (_ & _ & _ & -> & _). done.
  - apply static_fields in Hc as (_ & _ & _ & -> & _). done.
  - by subst.
Qed.

Lemma run_next_peer cs (b : broker) :
  broker_ok b -> Forall proper_command cs -> b_next_peer b <= b_next_peer (run cs b).
Proof.
  intros Hb Hcs. revert b Hb. induction Hcs as [|c cs Hc _ IH]; intros b Hb; [done|].
  cbn. destruct (apply c b) as [r b'] eqn:E. cbn [snd].
  etrans; [exact (apply_next_peer b b' c r Hb E)|].
  apply IH. by destruct (apply_ok c b b' r Hb Hc E).
Qed.

(** Peer identities are never zero, never in use when assigned, and never
    reused: after a connection got identity [i], any later connection, whatever
    commands (disconnections included) ran in between, gets a larger one.  The
    selected capabilities are the ones both sides offered, and the admitted
    client claims no broker-owned header. *)
Theorem peer_ids_fresh policy limits (b b1 b2 : broker) creds1 creds2 hello1 hello2 s1 s2 cs :
  reachable policy limits b -> Forall proper_command cs ->
  connect_session creds1 hello1 b = (Ok s1, b1) ->
  connect_session creds2 hello2 (run cs b1) = (Ok s2, b2) ->
  1 <= PeerId_get (connected_id s1) < PeerId_get (connected_id s2) /\
  b_peers b !! connected_id s1 = None /\
  b_peers b1 !! connected_id s1 = Some {|
    peer_id := connected_id s1; peer_credentials := creds1; peer_hello := hello1;
    peer_capabilities := connected_capabilities s1 |} /\
  connected_capabilities s1 = b_capabilities b ∩ hello_capabilities hello1 /\
  no_reserved (hello_headers hello1).
Proof.
  intros Hb%reachable_ok Hcs H1 H2.
  pose proof (validate_claimed_headers_cases (hello_headers hello1)) as Hv.
  apply connect_session_effect in H1 as (-> & Hlt & -> & Hh & _). rewrite Hh in Hv.
  apply connect_session_effect in H2 as (_ & _ & -> & _).
  pose proof (run_next_peer cs _ (connected_ok creds1 hello1 b Hb Hlt) Hcs) as Hn.
  cbn in *. pose proof (ok_next b Hb). pose proof (fresh_peer b Hb).
  repeat split; try done; try lia. by rewrite lookup_insert_eq.
Qed.

(** ** Names *)

(** [claim] on every branch.  It succeeds exactly when the policy permits
    it, the peer is below its quota and nobody owns the namespace; then the peer
    owns it and no other name, peer, subscription or delivery changed.
    Otherwise nothing at all changes and the error tells why, in the order:
    unknown peer, denied, quota, current owner. *)
Theorem claim_behaviour (b b' : broker) peer namespace r :
  claim peer namespace b = (r, b') ->
  let act := Action_ClaimNamespace namespace in
  match r with
  | Ok _ =>
      permitted b peer act /\ claims_of b peer < maximum_namespace_claims (b_limits b) /\
      namespace_owner b namespace = None /\
      namespace_owner b' namespace = Some peer /\
      (forall other, other <> namespace -> namespace_owner b' other = namespace_owner b other) /\
      b_peers b' = b_peers b /\ b_subscriptions b' = b_subscriptions b /\
      b_dbus_names b' = b_dbus_names b /\ b_deliveries b' = b_deliveries b
  | Err e =>
      b' = b /\
      (e = Error_UnknownPeer peer /\ b_peers b !! peer = None \/
       e = Error_Denied act /\ is_Some (b_peers b !! peer) /\ ~ permitted b peer act \/
       permitted b peer act /\
         (e = Error_LimitExceeded Limit_NamespaceClaims /\
            maximum_namespace_claims (b_limits b) <= claims_of b peer \/
          claims_of b peer < maximum_namespace_claims (b_limits b) /\
          exists owner, e = Error_NamespaceAlreadyOwned namespace owner /\
            namespace_owner b namespace = Some owner))
  | Panic => False
  end.
Proof.
  cbv zeta. intros Hr. pose proof (claim_effect peer namespace b b' r Hr) as He.
  destruct r as [u|e|]; [|destruct He as [-> _]|done].
  - destruct He as (-> & Hp & Hq & Hf). unfold namespace_owner. cbn.
    rewrite lookup_insert_eq. repeat split; try done.
    intros other Hne. by rewrite lookup_insert_ne.
  - split; [done|]. unfold claim in Hr.
    pose proof (authorize_cases b peer (Action_ClaimNamespace namespace)) as Ha.
    cbv [mbind St_bind asks get_state fail] in Hr.
    destruct (authorize b peer _) as [?|?|]; [|simplify_eq; tauto|done].
    right. right. split; [done|].
    destruct (N.leb_spec (maximum_namespace_claims (b_limits b)) (claims_of b peer)).
    + left. simplify_eq. done.
    + right. split; [done|]. destruct (b_namespaces b !! namespace) as [o|] eqn:E; simplify_eq.
      by exists o.
Qed.

(** Ownership is stable.  Once a peer owns a namespace, every command keeps
    it the owner, except its own disconnection, after which the namespace is
    free again. *)
Theorem namespace_ownership_stable policy limits (b b' : broker) c r namespace owner :
  reachable policy limits b -> namespace_owner b namespace = Some owner ->
  apply c b = (r, b') ->
  (c <> Command_Disconnect owner -> namespace_owner b' namespace = Some owner) /\
  (c = Command_Disconnect owner -> is_ok r = true /\ namespace_owner b' namespace = None).
Proof.
  intros Hb%reachable_ok Ho Hr. unfold namespace_owner in *.
  pose proof (apply_cases c b b' r Hb Hr) as Hc. split.
  - intros Hne.
    destruct c as [|peer|peer n|peer ch fs|peer ch|peer n|s f t|peer id p|t|];
      try (by apply static_fields in Hc as (_ & _ & _ & _ & _ & -> & _)).
    + destruct Hc as [[-> _]|[-> _]]; done.
    + destruct Hc as [[-> _]| ->]; [done|]. cbn. rewrite map_lookup_filter, Ho. cbn.
      rewrite option_guard_True; [done|]. intros ->. done.
    + destruct Hc as [[-> _]|(-> & Hf & _)]; [done|]. cbn.
      rewrite lookup_insert_ne; [done|]. intros ->. congruence.
    + destruct Hc as [[-> _]| ->]; done.
    + destruct Hc as [[-> _]| ->]; done.
    + destruct Hc as [[-> _]|[-> _]]; done.
    + by subst.
  - intros ->. apply disconnect_with_events_effect in Hr. destruct r as [ev|e|]; [|exfalso|done].
    + destruct Hr as (_ & -> & _). split; [done|]. cbn.
      rewrite map_lookup_filter, Ho. cbn. by rewrite option_guard_False by tauto.
    + destruct Hr as (_ & _ & Hn). destruct (ok_namespaces b Hb _ _ Ho). congruence.
Qed.

(** ** Mediation *)

Definition destination_action (d : Destination) : option Action :=
  match d with
  | Destination_Broker => None
  | Destination_Peer p => Some (Action_SendPeer p)
  | Destination_Namespace n => Some (Action_SendNamespace n)
  | Destination_Channel c => Some (Action_Publish c)
  | Destination_ClientId c _ => Some (Action_SendClient c)
  | Destination_Broadcast => Some Action_Broadcast
  end.

(** The peer and the action a command must be authorized for. *)
Definition needs (c : command) : option (PeerId * Action) :=
  match c with
  | Command_Claim p n => Some (p, Action_ClaimNamespace n)
  | Command_Subscribe p ch _ => Some (p, Action_Subscribe ch)
  | Command_RegisterDbusName p n => Some (p, Action_RegisterDbusName n)
  | Command_Acknowledge p _ _ => Some (p, Action_Acknowledge)
  | Command_BeginDelivery s (Frame_Message m) _ =>
      if bool_decide (m_kind m = MessageKind_Response) then None
      else pair s <$> destination_action (m_destination m)
  | _ => None
  end.

Lemma authorize_denied (b : broker) peer act :
  ~ permitted b peer act -> exists e, authorize b peer act = Err e /\ e <> Error_NoRecipient.
Proof.
  intros Hn. pose proof (authorize_cases b peer act) as Ha.
  destruct (authorize b peer act) as [?|e|]; [done| |done].
  exists e. split; [done|]. by destruct Ha as [_ [[-> _]|[-> _]]].
Qed.

Lemma route_denied (b : broker) s d h act :
  destination_action d = Some act -> ~ permitted b s act ->
  exists e, route b s d h = Err e /\ e <> Error_NoRecipient.
Proof.
  intros Hd Hn. destruct (authorize_denied b s act Hn) as (e & He & Hne).
  unfold route, mbind, result_bind. pose proof (credentials_of_cases b s) as Hc.
  destruct (credentials_of b s) as [?|e'|]; [|destruct Hc as [-> _]; by eexists|done].
  exists e. split; [|done]. unfold select_recipients, mbind, result_bind.
  destruct d; cbn in Hd; simplify_eq; by rewrite He.
Qed.

Lemma begin_routed sender m now_ms events (b b' : broker) :
  begin_step sender m now_ms b events b' ->
  route b sender (m_destination m) (m_headers m) = Err Error_NoRecipient \/
  exists selected, route b sender (m_destination m) (m_headers m) = Ok selected.
Proof. destruct 1; eauto. Qed.

(** C9: complete mediation.  A command whose action the policy does not permit
    to its peer fails and changes nothing: no claim, subscription, registration,
    acknowledgement or message of a destination gets past the policy, and a
    denied connection leaves no trace.  Responses are exempt, here ([needs]) as in
    the code: [complete_response] never asks the policy, and who may respond is
    decided by the pending request ([response_behaviour]). *)
Theorem policy_mediates (b b' : broker) c r :
  apply c b = (r, b') ->
  (forall peer act, needs c = Some (peer, act) -> ~ permitted b peer act ->
    b' = b /\ exists e, r = Err e) /\
  (forall creds hello, c = Command_Connect creds hello ->
    authorize_hello b creds hello Action_Connect <> Ok () ->
    b' = b /\ exists e, r = Err e).
Proof.
  intros Hr. split.
  - intros peer act Hneeds Hn. destruct c as [| |p n|p ch fs| |p n|s f t|p id pol| |]; try done.
    + cbn in Hneeds. simplify_eq. run_apply Hr; apply claim_effect in E; [tauto|naive_solver|done].
    + cbn in Hneeds. simplify_eq. run_apply Hr; apply subscribe_effect in E; [tauto|naive_solver|done].
    + cbn in Hneeds. simplify_eq.
      run_apply Hr; apply register_dbus_name_effect in E; [tauto|naive_solver|done].
    + destruct f as [| | | | |m| | | | | |]; try done. cbn in Hneeds.
      case_bool_decide as Hk; [done|]. destruct (destination_action (m_destination m)) eqn:Ed; [|done].
      cbn in Hneeds. simplify_eq.
      destruct (route_denied b peer _ (m_headers m) act Ed Hn) as (e & He & Hne).
      apply begin_delivery_effect in Hr; [|done]. destruct r as [ev|e'|]; [exfalso| |done].
      * apply begin_routed in Hr as [Hr|[l Hr]]; congruence.
      * destruct Hr as [->|(l & Hr & _)]; [eauto|congruence].
    + cbn in Hneeds. simplify_eq. apply acknowledge_effect in Hr.
      destruct r as [ev|e|]; [exfalso; by destruct Hr|naive_solver|done].
  - intros creds hello -> Hn. run_apply Hr; apply connect_session_effect in E; [|by subst; eauto|done].
    by destruct E as (_ & _ & _ & _ & ?).
Qed.

(** ** Disconnection *)

(** A disconnection releases everything the connection held.  Afterwards
    the peer is gone, owns no namespace or D-Bus name, subscribes to nothing
    and is no recipient; names, subscriptions and deliveries of others are
    untouched; each delivery that was waiting for the peer is closed and its
    sender is told, once, in identifier order.  Deliveries the peer itself had
    sent to others stay open. *)
Theorem disconnect_releases (b b' : broker) peer events :
  disconnect_with_events peer b = (Ok events, b') ->
  b_peers b' = delete peer (b_peers b) /\
  (forall n, namespace_owner b' n =
     if decide (namespace_owner b n = Some peer) then None else namespace_owner b n) /\
  (forall n, dbus_name_owner b' n =
     if decide (dbus_name_owner b n = Some peer) then None else dbus_name_owner b n) /\
  (forall ch q, is_subscribed b' q ch = bool_decide (q <> peer) && is_subscribed b q ch) /\
  (forall id p, b_deliveries b' !! id = Some p <->
     b_deliveries b !! id = Some p /\ peer ∉ pd_recipients p) /\
  events = (fun e => DeliveryEvent_Result (pd_sender e.2) e.1 DeliveryOutcome_RecipientDisconnected)
    <$> filter (fun e => peer ∈ pd_recipients e.2) (bt_entries (b_deliveries b)).
Proof.
  intros Hr. apply disconnect_with_events_effect in Hr as (_ & -> & ->).
  split; [done|]. split; [|split; [|split; [|split; [|done]]]].
  - intros n. unfold namespace_owner. cbn. rewrite map_lookup_filter.
    destruct (b_namespaces b !! n) as [o|]; cbn; [|done].
    destruct (decide (o = peer)) as [->|Hne].
    + rewrite option_guard_False by tauto. by rewrite decide_True.
    + rewrite option_guard_True by done. rewrite decide_False by congruence. done.
  - intros n. unfold dbus_name_owner. cbn. rewrite map_lookup_filter.
    destruct (b_dbus_names b !! n) as [o|]; cbn; [|done].
    destruct (decide (o = peer)) as [->|Hne].
    + rewrite option_guard_False by tauto. by rewrite decide_True.
    + rewrite option_guard_True by done. rewrite decide_False by congruence. done.
  - intros ch q. unfold is_subscribed. cbn. rewrite lookup_omap.
    destruct (b_subscriptions b !! ch) as [s|]; cbn; [|by rewrite andb_false_r].
    unfold drop_subscriber. case_bool_decide as He.
    + destruct (decide (q = peer)) as [->|Hne]; [by rewrite (bool_decide_eq_false_2 (peer <> peer)) by tauto|].
      rewrite (bool_decide_eq_false_2 (is_Some (s !! q))); [by rewrite andb_false_r|].
      rewrite <- (lookup_delete_ne s peer q), He, lookup_empty by done. by intros [].
    + destruct (decide (q = peer)) as [->|Hne].
      * rewrite (bool_decide_eq_false_2 (peer <> peer)) by tauto. cbn.
        apply bool_decide_eq_false. rewrite lookup_delete_eq. by intros [].
      * rewrite (bool_decide_eq_true_2 (q <> peer)) by done. by rewrite lookup_delete_ne.
  - intros id p. cbn. by rewrite map_lookup_filter_Some.
Qed.

End facts.

Lemma reachable_invariant_witness : reachable allow_all Limits_default demo /\ broker_ok demo.
Proof.
  split; [exact demo_reachable|]. exact (reachable_invariant allow_all Limits_default demo demo_reachable).
Defined.

Lemma broker_never_panics_witness :
  proper_command (Command_Tick 1010) /\ (apply (Command_Tick 1010) demo).1 <> Panic.
Proof.
  split; [exact I|].
  exact (broker_never_panics allow_all Limits_default demo _ (Command_Tick 1010) _
           demo_reachable I (surjective_pairing _)).
Defined.

Lemma quotas_enforced_witness :
  claims_of demo (PeerId_new 2) = 1 /\
  len (sent_by demo (PeerId_new 1)) <= maximum_queued_messages Limits_default.
Proof.
  split; [by vm_compute|].
  exact (proj1 (proj2 (proj2
    (quotas_enforced allow_all Limits_default demo (PeerId_new 1) demo_reachable)))).
Defined.

Lemma peer_ids_fresh_witness :
  (connect_session demo_credentials (demo_hello (bs "four")) demo).1 =
    Ok {| connected_id := PeerId_new 4; connected_capabilities := ∅ |} /\
  1 <= 4 < 5.
Proof.
  split; [by vm_compute|].
  set (hello := demo_hello (bs "four")).
  refine (proj1 (peer_ids_fresh allow_all Limits_default demo
    (connect_session demo_credentials hello demo).2
    (connect_session demo_credentials hello
       (run [Command_Disconnect (PeerId_new 4)] (connect_session demo_credentials hello demo).2)).2
    demo_credentials demo_credentials hello hello
    {| connected_id := PeerId_new 4; connected_capabilities := ∅ |}
    {| connected_id := PeerId_new 5; connected_capabilities := ∅ |}
    [Command_Disconnect (PeerId_new 4)] demo_reachable _ _ _)).
  - by repeat constructor.
  - by vm_compute.
  - by vm_compute.
Defined.

Lemma claim_behaviour_witness :
  (claim (PeerId_new 3) demo_namespace demo).1 =
    Err (Error_NamespaceAlreadyOwned demo_namespace (PeerId_new 2)) /\
  (claim (PeerId_new 3) demo_namespace demo).2 = demo.
Proof.
  split; [by vm_compute|].
  pose proof (claim_behaviour demo _ (PeerId_new 3) demo_namespace _ (surjective_pairing _)) as Hc.
  destruct ((claim (PeerId_new 3) demo_namespace demo).1) eqn:E; [|exact (proj1 Hc)|destruct Hc].
  exfalso. vm_compute in E. discriminate E.
Defined.

Lemma namespace_ownership_stable_witness :
  namespace_owner demo demo_namespace = Some (PeerId_new 2) /\
  namespace_owner (apply (Command_Disconnect (PeerId_new 1)) demo).2 demo_namespace =
    Some (PeerId_new 2).
Proof.
  split; [by vm_compute|].
  refine (proj1 (namespace_ownership_stable allow_all Limits_default demo _
    (Command_Disconnect (PeerId_new 1)) _ demo_namespace (PeerId_new 2)
    demo_reachable _ (surjective_pairing _)) _); [by vm_compute | discriminate].
Defined.

(** A broker whose policy denies broadcasts. *)
Definition safe_demo : Broker SafeDefaults := run demo_commands (new safe_defaults).

Definition demo_broadcast : command :=
  Command_BeginDelivery (PeerId_new 1)
    (Frame_Message (demo_request Destination_Broadcast RequestPolicy_All RetryPolicy_None x09)) 1000.

Lemma policy_mediates_witness :
  ~ permitted safe_demo (PeerId_new 1) Action_Broadcast /\
  (apply demo_broadcast safe_demo).2 = safe_demo.
Proof.
  assert (~ permitted safe_demo (PeerId_new 1) Action_Broadcast) as Hn
    by (intros (p & _ & Hp); discriminate Hp).
  split; [exact Hn|].
  refine (proj1 (proj1 (policy_mediates safe_demo _ demo_broadcast _ (surjective_pairing _))
    (PeerId_new 1) Action_Broadcast _ Hn)). by vm_compute.
Defined.

Lemma disconnect_releases_witness :
  (disconnect_with_events (PeerId_new 2) demo).1 =
    Ok [DeliveryEvent_Result (PeerId_new 1) (MessageId_new (replicate 16 x07))
          DeliveryOutcome_RecipientDisconnected] /\
  namespace_owner (disconnect_with_events (PeerId_new 2) demo).2 demo_namespace =
    if decide (namespace_owner demo demo_namespace = Some (PeerId_new 2)) then None
    else namespace_owner demo demo_namespace.
Proof.
  assert ((disconnect_with_events (PeerId_new 2) demo).1 =
    Ok [DeliveryEvent_Result (PeerId_new 1) (MessageId_new (replicate 16 x07))
          DeliveryOutcome_RecipientDisconnected]) as E by by vm_compute.
  split; [exact E|].
  refine (proj1 (proj2 (disconnect_releases demo _ (PeerId_new 2)
    [DeliveryEvent_Result (PeerId_new 1) (MessageId_new (replicate 16 x07))
          DeliveryOutcome_RecipientDisconnected] _)) demo_namespace).
  rewrite <- E. apply surjective_pairing.
Defined.
