(* ===== verification/Routing.v ===== *)
(** * Whom a message reaches

    The selection of recipients in [Broker::route], against a declarative
    account of destinations and structural filters. *)

From S2P Require Export BrokerFacts.

Local Open Scope N_scope.

(** ** Filters *)

(** What each structural filter asks of the message's headers. *)
Definition filter_holds (h : Headers) (f : HeaderFilter) : Prop :=
  match f with
  | HeaderFilter_Exists n => is_Some (h !! n)
  | HeaderFilter_NotExists n => h !! n = None
  | HeaderFilter_Equal n v => h !! n = Some v
  | HeaderFilter_NotEqual n v => h !! n <> Some v
  | HeaderFilter_Prefix n v =>
      exists prefix rest,
        v = HeaderValue_Text prefix /\ h !! n = Some (HeaderValue_Text (prefix ++ rest)) \/
        v = HeaderValue_Binary prefix /\ h !! n = Some (HeaderValue_Binary (prefix ++ rest))
  end.

Lemma filter_matches_iff h f : filter_matches h f = true <-> filter_holds h f.
Proof.
  destruct f as [n|n|n v|n v|n v]; cbn.
  - apply bool_decide_eq_true.
  - rewrite negb_true_iff, bool_decide_eq_false. by rewrite eq_None_not_Some.
  - apply bool_decide_eq_true.
  - by rewrite negb_true_iff, bool_decide_eq_false.
  - destruct (h !! n) as [[a|x|x|a]|], v as [p|y|y|p];
      try (split; [done|]; intros (? & ? & [[? ?]|[? ?]]); congruence).
    + rewrite starts_with_iff. split.
      * intros [r ->]. exists p, r. by left.
      * intros (p' & r & [[[= ->] [= ->]]|[? ?]]); [by exists r | done].
    + rewrite starts_with_iff. split.
      * intros [r ->]. exists p, r. by right.
      * intros (p' & r & [[? ?]|[[= ->] [= ->]]]); [done | by exists r].
Qed.

Lemma filters_match_iff h fs : filters_match fs h = true <-> Forall (filter_holds h) fs.
Proof.
  unfold filters_match. rewrite forallb_forall, Forall_forall.
  setoid_rewrite filter_matches_iff. by setoid_rewrite list_elem_of_In.
Qed.

Section routing.
Context {P : Type} `{Policy P}.

Local Abbreviation broker := (Broker P).

(** ** Destinations *)

Definition has_client_id (b : broker) (c : ClientId) (r : PeerId) : Prop :=
  exists p, b_peers b !! r = Some p /\ hello_client_id (peer_hello p) = Some c.

(** The peers a destination means. *)
Definition reached (b : broker) (sender : PeerId) (d : Destination) (h : Headers) (r : PeerId)
    : Prop :=
  match d with
  | Destination_Broker => False
  | Destination_Peer p => r = p /\ is_Some (b_peers b !! p)
  | Destination_Namespace n => namespace_owner b n = Some r
  | Destination_Channel c =>
      exists subscribers fs, b_subscriptions b !! c = Some subscribers /\
        subscribers !! r = Some fs /\ Forall (filter_holds h) fs
  | Destination_ClientId c ClientSelection_All => has_client_id b c r
  | Destination_ClientId c _ =>
      has_client_id b c r /\ forall r', has_client_id b c r' -> r = r' \/ ord_lt r r'
  | Destination_Broadcast => is_Some (b_peers b !! r) /\ r <> sender
  end.

Definition multicast (d : Destination) : Prop :=
  match d with Destination_Channel _ | Destination_Broadcast => True | _ => False end.

Lemma sorted_filter {A} (R : A -> A -> Prop) (Q : A -> Prop) `{forall x, Decision (Q x)} l :
  StronglySorted R l -> StronglySorted R (filter Q l).
Proof.
  induction 1 as [|x l Hl IH Hx]; [constructor|]. rewrite filter_cons.
  destruct (decide (Q x)); [|done]. constructor; [done|].
  apply Forall_forall. intros y [_ Hy]%list_elem_of_filter. rewrite Forall_forall in Hx. by apply Hx.
Qed.

Lemma sorted_keys_filter {K V} `{Countable K} `{OrdLaws K} (Q : K * V -> Prop)
    `{forall x, Decision (Q x)} (m : gmap K V) :
  StronglySorted ord_lt (filter Q (bt_entries m)).*1.
Proof.
  pose proof (sorted_filter key_lt Q _ (bt_entries_sorted m)) as Hs.
  induction Hs as [|x l Hl IH Hx]; cbn; constructor; [done|]. by rewrite Forall_fmap.
Qed.

(** The peers with a client identifier, in identity order. *)
Lemma client_matches (b : broker) c :
  broker_ok b ->
  let l := peer_id <$> filter (fun p => hello_client_id (peer_hello p) = Some c) (bt_values (b_peers b)) in
  StronglySorted ord_lt l /\ forall r, r ∈ l <-> has_client_id b c r.
Proof.
  intros Hb l. assert (l = (filter (fun e => hello_client_id (peer_hello e.2) = Some c)
                       (bt_entries (b_peers b))).*1) as ->.
  { subst l. unfold bt_values.
    assert (Forall (fun e => peer_id e.2 = e.1) (bt_entries (b_peers b))) as Hid.
    { apply Forall_forall. intros [k p] Hp%elem_of_bt_entries. by destruct (ok_peers b Hb k p Hp). }
    induction Hid as [|e l He _ IH]; [done|]. rewrite fmap_cons, !filter_cons.
    destruct (decide _); cbn; [by rewrite IH, He|done]. }
  split; [apply sorted_keys_filter|]. intros r. unfold has_client_id.
  rewrite list_elem_of_fmap. split.
  - intros ([k p] & -> & [Hc Hp%elem_of_bt_entries]%list_elem_of_filter). by exists p.
  - intros (p & Hp & Hc). exists (r, p). split; [done|].
    apply list_elem_of_filter. split; [done|]. by apply elem_of_bt_entries.
Qed.

Lemma take_1_least (l : list PeerId) :
  StronglySorted ord_lt l ->
  StronglySorted ord_lt (take 1 l) /\
  forall r, r ∈ take 1 l <-> r ∈ l /\ forall r', r' ∈ l -> r = r' \/ ord_lt r r'.
Proof.
  intros Hl. destruct Hl as [|x l Hl Hx]; cbn.
  { split; [constructor|]. intros r. set_solver. }
  rewrite take_0. split; [by repeat constructor|]. intros r.
  rewrite list_elem_of_singleton. rewrite Forall_forall in Hx. split.
  - intros ->. split; [left|]. intros r' [->|Hr']%elem_of_cons; auto.
  - intros [[->|Hr]%elem_of_cons Hleast]; [done|].
    destruct (Hleast x) as [->|Hlt]; [left|done|].
    exfalso. apply (ord_lt_irrefl x). transitivity r; auto.
Qed.

Lemma select_recipients_spec (b : broker) sender d h selected :
  broker_ok b -> select_recipients b sender d h = Ok selected ->
  (forall act, destination_action d = Some act -> permitted b sender act) /\
  StronglySorted ord_lt selected /\
  forall r, r ∈ selected <-> reached b sender d h r.
Proof.
  intros Hb. unfold select_recipients, mbind, result_bind.
  destruct d as [|p|n|c|c sel|]; [done|..];
    match goal with |- context [authorize ?b ?s ?a] =>
      pose proof (authorize_cases b s a) as Ha; destruct (authorize b s a) end;
    try done; intros [= <-]; (split; [by intros act [= <-]|]); cbn [reached].
  - case_bool_decide as Hp; [|split; [constructor|set_solver]].
    split; [by repeat constructor|]. intros r. rewrite list_elem_of_singleton. naive_solver.
  - destruct (namespace_owner b n) as [o|]; [|split; [constructor|set_solver]].
    split; [by repeat constructor|]. intros r. rewrite list_elem_of_singleton. naive_solver.
  - destruct (b_subscriptions b !! c) as [subs|]; [|split; [constructor|set_solver]].
    split; [apply sorted_keys_filter|]. intros r. rewrite list_elem_of_fmap. split.
    + intros ([k fs] & -> & [Hf Hp%elem_of_bt_entries]%list_elem_of_filter).
      exists subs, fs. by rewrite <- filters_match_iff.
    + intros (subs' & fs & [= <-] & Hr & Hf). exists (r, fs). split; [done|].
      apply list_elem_of_filter. rewrite filters_match_iff. split; [done|]. by apply elem_of_bt_entries.
  - pose proof (client_matches b c Hb) as [Hs Hm]. cbv zeta in *.
    pose proof (take_1_least _ Hs) as [Ht Hl].
    destruct sel; cbn [reached]; (split; [done|]); [..|exact Hm];
      intros r; rewrite Hl, Hm; by setoid_rewrite Hm.
  - split; [apply sorted_filter, bt_keys_sorted|]. intros r.
    rewrite list_elem_of_filter, elem_of_bt_keys. tauto.
Qed.

(** C25: routing.  In every reachable state, a routed message goes exactly to the
    peers its destination means, each once and in identity order: the named
    peer, the owner of the namespace, the subscribers all of whose filters hold
    of the headers, the peers with the client identifier (the smallest of them
    for first and any), or everyone but the sender; and the policy permits it.
    A unicast destination that means nobody is [NoRecipient]; any other failure
    is an unknown sender or a denied action.  The payload is not consulted. *)
Theorem route_recipients policy limits (b : broker) sender d h :
  reachable policy limits b ->
  match route b sender d h with
  | Ok selected =>
      is_Some (b_peers b !! sender) /\
      (forall act, destination_action d = Some act -> permitted b sender act) /\
      StronglySorted ord_lt selected /\
      (forall r, r ∈ selected <-> reached b sender d h r) /\
      (multicast d \/ selected <> [])
  | Err Error_NoRecipient =>
      is_Some (b_peers b !! sender) /\ ~ multicast d /\ forall r, ~ reached b sender d h r
  | Err e =>
      e = Error_UnknownPeer sender /\ b_peers b !! sender = None \/
      exists act, e = Error_Denied act /\ destination_action d = Some act /\ ~ permitted b sender act
  | Panic => False
  end.
Proof.
  intros Hb%reachable_ok. unfold route, mbind, result_bind.
  pose proof (credentials_of_cases b sender) as Hc.
  destruct (credentials_of b sender) as [c|e|]; [|destruct Hc as [-> ?]; by left|done].
  destruct Hc as (p & Hp & _). assert (is_Some (b_peers b !! sender)) as Hs by by exists p.
  destruct (select_recipients b sender d h) as [l|e|] eqn:El.
  - destruct (select_recipients_spec b sender d h l Hb El) as (Hperm & Hsort & Hmem).
    destruct d as [|p'|n|c'|c' sel|]; [done|..];
      try (case_bool_decide as Hl;
        [ subst l; split; [done|]; split; [by intros []|]; intros r Hr%Hmem; set_solver
        | split; [done|]; split; [done|]; split; [done|]; split; [done|]; by right ]).
    all: split; [done|]; split; [done|]; split; [done|]; split; [done|]; by left.
  - unfold select_recipients, mbind, result_bind in El.
    destruct d as [|p'|n|c'|c' sel|]; [simplify_eq; split; [done|]; split; [by intros []|tauto]|..];
      match type of El with context [authorize ?b ?s ?a] =>
        pose proof (authorize_cases b s a) as Ha; destruct (authorize b s a) end;
      simplify_eq; destruct Ha as [Hn [[-> Hnone]|[-> _]]]; try congruence; right; by eexists.
  - by destruct (select_recipients_no_panic b sender d h).
Qed.
End routing.

Lemma route_recipients_witness :
  route demo (PeerId_new 1) (Destination_ClientId (ClientId_of (bs "two")) ClientSelection_Any) ∅ =
    Ok [PeerId_new 2] /\
  (forall r, r ∈ [PeerId_new 2] <->
     reached demo (PeerId_new 1) (Destination_ClientId (ClientId_of (bs "two")) ClientSelection_Any) ∅ r).
Proof.
  assert (route demo (PeerId_new 1) (Destination_ClientId (ClientId_of (bs "two")) ClientSelection_Any) ∅ =
    Ok [PeerId_new 2]) as E by by vm_compute.
  split; [exact E|].
  pose proof (route_recipients allow_all Limits_default demo (PeerId_new 1)
    (Destination_ClientId (ClientId_of (bs "two")) ClientSelection_Any) ∅ demo_reachable) as Hr.
  rewrite E in Hr. exact (proj1 (proj2 (proj2 (proj2 Hr)))).
Defined.
