(* ===== verification/Reliability.v ===== *)
(** * Reliable delivery

    Deadlines, retries, acknowledgements and responses: every tracked message
    is closed exactly once, retransmission is bounded and ordered by priority,
    and what the broker forwards never carries broker-owned headers. *)

From S2P Require Export Routing.

Local Open Scope N_scope.

(** ** Events about one message *)

Definition result_for (id : MessageId) (e : DeliveryEvent) : Prop :=
  match e with DeliveryEvent_Result _ i _ => i = id | _ => False end.

#[export] Instance result_for_dec id e : Decision (result_for id e).
Proof. destruct e; cbn; apply _. Defined.

Lemma result_for_one i j e : result_for i e -> result_for j e -> i = j.
Proof. destruct e; cbn; [done|]. by intros -> ->. Qed.

(** The outcomes a batch of events reports for [id]. *)
Definition results (id : MessageId) (events : list DeliveryEvent) : list DeliveryEvent :=
  filter (result_for id) events.

Lemma results_app id l k : results id (l ++ k) = results id l ++ results id k.
Proof. apply filter_app. Qed.

Lemma results_none id l : Forall (fun e => ~ result_for id e) l -> results id l = [].
Proof.
  unfold results. induction 1 as [|e l He _ IH]; [done|]. by rewrite filter_cons, decide_False.
Qed.

Lemma filter_concat {A E} (Q : E -> Prop) `{forall x, Decision (Q x)} (f : A -> list E) l :
  filter Q (concat (f <$> l)) = concat ((fun x => filter Q (f x)) <$> l).
Proof. induction l as [|x l IH]; [done|]. rewrite !fmap_cons. cbn [concat]. by rewrite filter_app, IH. Qed.

Lemma concat_empty {A E} (f : A -> list E) l : (forall x, x ∈ l -> f x = []) -> concat (f <$> l) = [].
Proof.
  intros Hf. induction l as [|x l IH]; [done|]. rewrite fmap_cons. cbn [concat].
  rewrite Hf by left. apply IH. intros y Hy. apply Hf. by right.
Qed.

(** In a listing by distinct identifiers, only one entry speaks about [id]. *)
Section entries.
Context {V E : Type} (about : MessageId -> E -> Prop) `{forall i x, Decision (about i x)}.
Hypothesis about_one : forall i j x, about i x -> about j x -> i = j.
Context (f : MessageId * V -> list E).

Lemma filter_entry id e :
  (forall x, x ∈ f e -> about e.1 x) ->
  filter (about id) (f e) = if decide (e.1 = id) then f e else [].
Proof.
  intros Hf. induction (f e) as [|x l IH]; [by destruct (decide _)|].
  rewrite filter_cons, IH by (intros y Hy; apply Hf; by right).
  pose proof (Hf x ltac:(left)) as Hx. destruct (decide (e.1 = id)) as [<-|Hne].
  - by rewrite decide_True.
  - rewrite decide_False; [done|]. intros Hx'. by apply Hne, (about_one _ _ x).
Qed.

Lemma filter_entries id (m : gmap MessageId V) :
  (forall e x, e ∈ bt_entries m -> x ∈ f e -> about e.1 x) ->
  filter (about id) (concat (f <$> bt_entries m)) =
  match m !! id with Some v => f (id, v) | None => [] end.
Proof.
  intros Hf. rewrite filter_concat.
  assert (Hone : forall e, e ∈ bt_entries m ->
            filter (about id) (f e) = if decide (e.1 = id) then f e else [])
    by (intros e He; apply filter_entry; auto).
  destruct (m !! id) as [v|] eqn:Em.
  - assert ((id, v) ∈ bt_entries m) as Hin by by apply elem_of_bt_entries.
    apply list_elem_of_split in Hin as (l & k & Hl).
    pose proof (bt_keys_nodup m) as Hnd. unfold bt_keys in Hnd. rewrite Hl in Hnd.
    rewrite fmap_app, fmap_cons in Hnd. apply NoDup_app in Hnd as (_ & Hnl & Hnd).
    apply NoDup_cons in Hnd as [Hnk _]. rewrite Hl, fmap_app, fmap_cons, concat_app. cbn [concat].
    rewrite !concat_empty, app_nil_r, Hone, decide_True; [done|done| | |].
    + rewrite Hl. set_solver.
    + intros e He. rewrite Hone by (rewrite Hl; set_solver). rewrite decide_False; [done|].
      intros <-. apply Hnk. change (e.1 ∈ k.*1). by apply list_elem_of_fmap_2.
    + intros e He. rewrite Hone by (rewrite Hl; set_solver). rewrite decide_False; [done|].
      intros <-. apply (Hnl e.1); [by apply (list_elem_of_fmap_2 fst) | left].
  - apply concat_empty. intros e He. rewrite Hone by done. rewrite decide_False; [done|].
    intros <-. destruct e as [i v]. apply elem_of_bt_entries in He. cbn in Em. congruence.
Qed.
End entries.

Section reliability.
Context {P : Type} `{Policy P}.

Local Abbreviation broker := (Broker P).

(** ** Admission *)

Lemma delivery_events_eq sender m rs :
  delivery_events sender m rs =
  DeliveryEvent_Deliver sender (bs_elems rs) (Frame_Message m) ::
    (if decide (m_ack_policy m = AckPolicy_Accepted)
     then [DeliveryEvent_Result sender (m_message_id m) DeliveryOutcome_Accepted] else []).
Proof. unfold delivery_events. case_bool_decide; by case_decide. Qed.

(** C26: sending a message that is not a response.  When it is accepted, it is
    new and carries no broker-owned header, and either the sender is told at
    once that there is no (sufficient) recipient, nothing being retained, or the
    message goes once to the selected recipients, with an [ACCEPTED] outcome if
    it asks for one, and is retained, with its deadline and first retry, exactly
    when it is a request or waits for acknowledgements.  When it is refused, the
    error is the first failing check's and only counters and the monitor window
    can have changed. *)
Theorem delivery_admission (b b' : broker) sender m now_ms r :
  m_kind m <> MessageKind_Response ->
  begin_delivery sender (Frame_Message m) now_ms b = (r, b') ->
  static b' = static b /\
  match r with
  | Ok events =>
      b_deliveries b !! m_message_id m = None /\ no_reserved (m_headers m) /\
      (events = [DeliveryEvent_Result sender (m_message_id m) DeliveryOutcome_NoRecipient] /\
         b_deliveries b' = b_deliveries b /\
         (route b sender (m_destination m) (m_headers m) = Err Error_NoRecipient \/
          exists selected, route b sender (m_destination m) (m_headers m) = Ok selected /\
            (selected = [] /\ tracked m = true \/
             requirement_possible (m_ack_requirement m)
               (bs_len (list_to_set selected : gset PeerId)) = false)) \/
       exists selected, route b sender (m_destination m) (m_headers m) = Ok selected /\
         let recipients : gset PeerId := list_to_set selected in
         requirement_possible (m_ack_requirement m) (bs_len recipients) = true /\
         events = DeliveryEvent_Deliver sender (bs_elems recipients) (Frame_Message m) ::
           (if decide (m_ack_policy m = AckPolicy_Accepted)
            then [DeliveryEvent_Result sender (m_message_id m) DeliveryOutcome_Accepted] else []) /\
         if tracked m then
           recipients <> ∅ /\ now_ms + m_deadline_ms m <= u64_max /\
           exists priority, message_priority (m_headers m) = Ok priority /\
             b_deliveries b' =
               <[m_message_id m := fresh_pending sender m recipients now_ms priority]> (b_deliveries b)
         else b_deliveries b' = b_deliveries b)
  | Err e => rejection sender m now_ms b e /\ b_deliveries b' = b_deliveries b
  | Panic => False
  end.
Proof.
  intros Hk Hr. split; [by apply begin_static in Hr|].
  pose proof (begin_delivery_effect sender m now_ms b b' r Hk Hr) as He.
  destruct r as [events|e|]; [| |done].
  - assert (admitted sender m b) as Ha by by destruct He.
    split; [by destruct Ha|]. split; [by destruct Ha|].
    destruct He as [_ Hrt|selected rs _ Hrt Hno|selected rs _ Hrt Ht Hreq
                   |selected priority rs _ Hrt Ht Hne Hreq Hprio Hcap Hle];
      cbn [b_deliveries set_deliveries]; rewrite ?counted_deliveries.
    + left. auto.
    + left. split; [done|]. split; [done|]. right. exists selected. split; [done|].
      destruct Hno as [[Hrs Ht]|Hreq]; [left|by right]. split; [|done].
      destruct selected as [|x l]; [done|]. assert (x ∈ rs) as Hx by (unfold rs; set_solver).
      rewrite Hrs in Hx. by apply not_elem_of_empty in Hx.
    + right. exists selected. split; [done|]. cbv zeta. fold rs. split; [done|].
      rewrite Ht. split; [|done]. apply delivery_events_eq.
    + right. exists selected. split; [done|]. cbv zeta. fold rs. split; [done|].
      rewrite Ht. split; [|by eauto]. apply delivery_events_eq.
  - split; [by eapply begin_delivery_rejection|].
    destruct He as [->|(l & _ & -> & _)]; [done|]. apply counted_deliveries.
Qed.

(** ** Ticks *)

Lemma tick_retries_deliver now_ms e x :
  x ∈ tick_retries now_ms e -> exists s r f, x.2 = DeliveryEvent_Deliver s r f.
Proof.
  unfold tick_retries. intros Hx. destruct (tick_decision _ _); try by apply not_elem_of_nil in Hx.
  apply list_elem_of_singleton in Hx as ->. by do 3 eexists.
Qed.

Lemma tick_results now_ms id (b : broker) :
  results id (tick_events now_ms b) =
  match b_deliveries b !! id with Some p => tick_result now_ms (id, p) | None => [] end.
Proof.
  unfold tick_events. rewrite results_app.
  rewrite (results_none id (sort_by _ _).*2).
  - rewrite app_nil_r. apply filter_entries; [apply result_for_one|].
    intros [i p] x _ Hx. unfold tick_result in Hx.
    destruct (tick_decision _ _); try (by apply not_elem_of_nil in Hx);
      by apply list_elem_of_singleton in Hx as ->.
  - apply Forall_fmap, Forall_forall. intros x Hx. cbn.
    rewrite sort_by_perm in Hx. apply list_elem_of_In, in_concat in Hx as (l & Hl & Hx).
    apply list_elem_of_In, list_elem_of_fmap in Hl as (e & -> & _).
    apply list_elem_of_In, tick_retries_deliver in Hx as (s & r & f & ->). by intros [].
Qed.

Lemma tick_run now_ms events (b b' : broker) :
  broker_ok b -> tick now_ms b = (Ok events, b') ->
  events = tick_events now_ms b /\ b_deliveries b' = omap (after_tick now_ms) (b_deliveries b) /\
  static b' = static b.
Proof.
  intros Hb. rewrite tick_effect by by apply broker_attempts_fit. intros [= <- <-].
  split; [done|]. split; [apply tick_deliveries | apply tick_fold_static].
Qed.

(** The clock.  In every reachable state a tick succeeds, and about each
    pending message it reports exactly: a timeout when its deadline is reached,
    closing it; a failed delivery when its retry is due but its attempts are
    used up, closing it; nothing otherwise.  It touches nothing else, and
    afterwards no pending message is past its deadline. *)
Theorem tick_closes_expired policy limits (b : broker) now_ms :
  reachable policy limits b ->
  exists events b', tick now_ms b = (Ok events, b') /\ static b' = static b /\
  (forall id p, b_deliveries b' !! id = Some p -> now_ms < pd_deadline_ms p) /\
  forall id,
    match b_deliveries b !! id with
    | None => b_deliveries b' !! id = None /\ results id events = []
    | Some p =>
        match tick_decision now_ms p with
        | Tick_timeout =>
            pd_deadline_ms p <= now_ms /\ b_deliveries b' !! id = None /\
            results id events = [DeliveryEvent_Result (pd_sender p) id DeliveryOutcome_Timeout]
        | Tick_failed =>
            now_ms < pd_deadline_ms p /\ b_deliveries b' !! id = None /\
            pd_attempts p = attempts_allowed (frame_retry (pd_message p)) /\
            results id events = [DeliveryEvent_Result (pd_sender p) id DeliveryOutcome_DeliveryFailed]
        | Tick_keep => b_deliveries b' !! id = Some p /\ results id events = []
        | Tick_retry p' =>
            b_deliveries b' !! id = Some p' /\ results id events = [] /\
            pd_attempts p' = pd_attempts p + 1 /\
            pd_attempts p' <= attempts_allowed (frame_retry (pd_message p))
        end
    end.
Proof.
  intros Hb%reachable_ok. exists (tick_events now_ms b), (tick_fold now_ms (bt_keys (b_deliveries b)) b).
  split; [by apply tick_effect, broker_attempts_fit|]. split; [apply tick_fold_static|].
  rewrite tick_deliveries. split.
  - intros id p' (p & Ha & Hp)%lookup_omap_Some. unfold after_tick, tick_decision in Ha.
    destruct (N.leb_spec (pd_deadline_ms p) now_ms); [done|].
    destruct (pd_next_retry_ms p); [|by simplify_eq].
    destruct (frame_retry (pd_message p)); [by simplify_eq|].
    destruct (_ <? _); [by simplify_eq|]. destruct (_ <=? _); [done|]. by simplify_eq.
  - intros id. rewrite tick_results, lookup_omap. destruct (b_deliveries b !! id) as [p|] eqn:Ep; [|by split].
    cbn. unfold after_tick, tick_result. cbn [snd fst].
    destruct (ok_deliveries b Hb id p Ep) as [m Hm].
    pose proof (pok_attempts _ _ _ _ _ Hm) as Hat. pose proof (pok_message _ _ _ _ _ Hm) as Hmsg.
    destruct (tick_decision now_ms p) eqn:Ed; unfold tick_decision in Ed; rewrite Hmsg in *; cbn in *;
      destruct (N.leb_spec (pd_deadline_ms p) now_ms); try done;
      destruct (pd_next_retry_ms p); try done; destruct (m_retry m) as [|backoff max]; try done;
      destruct (_ <? _); try done; destruct (N.leb_spec max (pd_attempts p)); try done.
    + split; [done|]. split; [done|]. split; [unfold attempts_allowed in *; lia | done].
    + simplify_eq. split; [done|]. split; [done|]. cbn. split; [done|]. lia.
Qed.

(** The comparison of priorities, as numbers. *)
Lemma by_priority_desc_le x y : by_priority_desc x y <> Gt <-> y.1 <= x.1.
Proof.
  unfold by_priority_desc, cmp, N_ord.
  destruct (N.compare_spec y.1 x.1); split; intros; try done; lia.
Qed.

Lemma by_priority_desc_antisym x y : by_priority_desc y x = CompOpp (by_priority_desc x y).
Proof. unfold by_priority_desc. apply cmp_antisym. Qed.

(** Retransmissions of one tick come after its outcomes, the higher priority
    first and, within a priority, in message-identifier order; there is one for
    each delivery whose retry is due, attributed to its sender, and it goes to
    the recipients that have not acknowledged. *)
Theorem tick_retry_order policy limits (b b' : broker) now_ms events :
  reachable policy limits b -> tick now_ms b = (Ok events, b') ->
  exists outcomes retries,
    events = outcomes ++ retries.*2 /\
    Forall (fun e => exists s id o, e = DeliveryEvent_Result s id o) outcomes /\
    StronglySorted (fun x y => y.1 <= x.1) retries /\
    (forall priority,
       filter (fun x => x.1 = priority) retries =
       filter (fun x => x.1 = priority) (concat (tick_retries now_ms <$> bt_entries (b_deliveries b)))) /\
    forall x, x ∈ retries <->
      exists id p p', b_deliveries b !! id = Some p /\ tick_decision now_ms p = Tick_retry p' /\
        x = (pd_priority p,
             DeliveryEvent_Deliver (pd_sender p)
               (bs_elems (pd_recipients p ∖ pd_acknowledgements p)) (pd_message p)).
Proof.
  intros Hb%reachable_ok Ht. destruct (tick_run now_ms events b b' Hb Ht) as (-> & _ & _).
  set (due := concat (tick_retries now_ms <$> bt_entries (b_deliveries b))).
  exists (concat (tick_result now_ms <$> bt_entries (b_deliveries b))), (sort_by by_priority_desc due).
  split; [done|]. split; [|split; [|split]].
  - apply Forall_forall. intros e He. apply list_elem_of_In, in_concat in He as (l & Hl & He).
    apply list_elem_of_In, list_elem_of_fmap in Hl as (x & -> & _). apply list_elem_of_In in He.
    unfold tick_result in He.
    destruct (tick_decision _ _); try (by apply not_elem_of_nil in He);
      apply list_elem_of_singleton in He as ->; by do 3 eexists.
  - assert (StronglySorted (fun x y => by_priority_desc x y <> Gt) (sort_by by_priority_desc due)) as Hs.
    { apply sort_by_sorted; [apply by_priority_desc_antisym|].
      intros x y z. rewrite !by_priority_desc_le. lia. }
    induction Hs as [|x l Hl IH Hx]; constructor; [done|].
    eapply Forall_impl; [exact Hx|]. intros y Hy. by apply by_priority_desc_le.
  - intros priority. apply sort_by_stable. intros y z Hy Hz. rewrite by_priority_desc_le. cbn in Hy, Hz. lia.
  - intros x. rewrite sort_by_perm. unfold due. rewrite list_elem_of_In, in_concat. split.
    + intros (l & Hl & Hx). apply list_elem_of_In, list_elem_of_fmap in Hl as ([id p] & -> & Hp).
      apply elem_of_bt_entries in Hp. apply list_elem_of_In in Hx. unfold tick_retries in Hx.
      cbn [snd] in Hx. exists id, p.
      destruct (tick_decision now_ms p) as [| | |p'] eqn:Ed; try (by apply not_elem_of_nil in Hx).
      exists p'. apply list_elem_of_singleton in Hx as ->. done.
    + intros (id & p & p' & Hp & Hd & ->). exists (tick_retries now_ms (id, p)). split.
      * apply list_elem_of_In, list_elem_of_fmap. exists (id, p). split; [done|].
        by apply elem_of_bt_entries.
      * apply list_elem_of_In. unfold tick_retries. cbn [snd]. rewrite Hd. left.
Qed.

(** ** Acknowledgements *)

(** C20: acknowledgements.  An accepted acknowledgement comes from a selected
    recipient and is at least as strong as the message asks for; it is recorded
    once.  The sender hears of it exactly when this acknowledgement is the one
    that meets the requirement: not before, and never again after.  Then a
    message that is not a request is closed; a request stays open for its
    responses.  A rejected acknowledgement changes nothing. *)
Theorem acknowledge_behaviour policy limits (b b' : broker) peer id ack r :
  reachable policy limits b -> acknowledge peer id ack b = (r, b') ->
  match r with
  | Ok events => exists p m,
      b_deliveries b !! id = Some p /\ pd_message p = Frame_Message m /\
      peer ∈ pd_recipients p /\
      (m_ack_policy m = AckPolicy_Received /\ (ack = AckPolicy_Received \/ ack = AckPolicy_Processed)
       \/ m_ack_policy m = AckPolicy_Processed /\ ack = AckPolicy_Processed) /\
      let acks := {[peer]} ∪ pd_acknowledgements p in
      let n := bs_len (pd_recipients p) in
      let before := requirement_met (m_ack_requirement m) (bs_len (pd_acknowledgements p)) n in
      let after := requirement_met (m_ack_requirement m) (bs_len acks) n in
      (before = true -> after = true) /\
      events = (if negb before && after
                then [DeliveryEvent_Result (pd_sender p) id (ack_outcome (m_ack_policy m))] else []) /\
      b_deliveries b' =
        (if negb before && after && negb (bool_decide (m_kind m = MessageKind_Request))
         then delete id (b_deliveries b)
         else <[id := set_pd_acknowledgements acks after p]> (b_deliveries b))
  | Err _ => b' = b
  | Panic => False
  end.
Proof.
  intros Hb%reachable_ok Hr. apply acknowledge_effect in Hr. destruct r as [events|e|]; [|tauto|done].
  destruct Hr as [p m acks complete _ [Hp Hm Hin Hsat]]. exists p, m.
  split; [done|]. split; [done|]. split; [done|]. split.
  { destruct (m_ack_policy m), ack; cbn in Hsat; try done; auto. }
  destruct (ok_deliveries b Hb id p Hp) as [m' Hok].
  assert (m' = m) as -> by (pose proof (pok_message _ _ _ _ _ Hok); congruence).
  assert (waits (m_ack_policy m)) as Hw
    by (apply satisfies_waits in Hsat; unfold waits; tauto).
  pose proof (pok_acknowledged _ _ _ _ _ Hok Hw) as Hbefore. cbv zeta. rewrite <- Hbefore.
  assert (acks ⊆ pd_recipients p) as Hsub.
  { pose proof (pok_acknowledgements _ _ _ _ _ Hok). set_solver. }
  assert (pd_acknowledgement_complete p = true ->
          requirement_met (m_ack_requirement m) (bs_len acks) (bs_len (pd_recipients p)) = true) as Hmono.
  { rewrite Hbefore. apply requirement_met_mono; unfold bs_len;
      pose proof (subseteq_size (pd_acknowledgements p) acks ltac:(set_solver));
      pose proof (subseteq_size acks (pd_recipients p) Hsub); lia. }
  split; [exact Hmono|]. split; [done|]. fold acks. fold complete. cbn [b_deliveries observe set_monitor set_deliveries].
  destruct (complete && _); [done|]. do 3 f_equal. unfold complete.
  destruct (pd_acknowledgement_complete p); cbn; [by rewrite Hmono|done].
Qed.

(** ** Responses *)

(** Counting the responses tells whether everyone answered. *)
Lemma all_answered (b : broker) sender m p request :
  broker_ok b -> answers sender m b p request ->
  let responses := <[sender := Frame_Message m]> (pd_responses p) in
  bt_len responses = bs_len (pd_recipients p) <->
  forall r, r ∈ pd_recipients p -> is_Some (responses !! r).
Proof.
  intros Hb Ha responses. pose proof (answers_open b sender m p request Hb Ha) as Hok.
  assert (dom responses ⊆ pd_recipients p) as Hsub.
  { intros r Hr%elem_of_dom. apply lookup_insert_is_Some in Hr as [<-|[_ Hr]].
    - by destruct Ha.
    - by apply (pok_responders _ _ _ _ _ Hok). }
  unfold bt_len, bs_len. rewrite <- size_dom. split.
  - intros Hs%Nat2N.inj r Hr. apply elem_of_dom.
    apply (set_subseteq_size_equiv (dom responses) (pd_recipients p)); [done|lia|done].
  - intros Hall. f_equal. apply Nat.le_antisymm; [by apply subseteq_size|].
    apply subseteq_size. intros r Hr. by apply elem_of_dom, Hall.
Qed.

(** C19: responses.  A response is accepted only while its request is pending,
    only from a recipient the request was sent to, and once from each; it goes
    to the requester alone.  [EXACT] and [FIRST] forward it and close the
    request; [ALL] forwards every response and closes the request with the last
    recipient's; [FIRST_SUCCESS] forwards and closes at the first success,
    keeps failures back, and when everyone has failed forwards the failure of
    the recipient with the lowest identity.  Anything else changes nothing. *)
Theorem response_behaviour policy limits (b b' : broker) sender m now_ms r :
  reachable policy limits b -> m_kind m = MessageKind_Response ->
  begin_delivery sender (Frame_Message m) now_ms b = (r, b') ->
  match r with
  | Ok events => exists p request,
      let id := m_correlation_id m in
      let responses := <[sender := Frame_Message m]> (pd_responses p) in
      let everyone := (forall q, q ∈ pd_recipients p -> is_Some (responses !! q)) in
      let forwards f := (events = [DeliveryEvent_Deliver sender [pd_sender p] f]) in
      let closes := (b_deliveries b' = delete id (b_deliveries b)) in
      let stays := (b_deliveries b' = <[id := set_pd_responses responses p]> (b_deliveries b)) in
      b_deliveries b !! id = Some p /\ pd_message p = Frame_Message request /\
      m_kind request = MessageKind_Request /\
      sender ∈ pd_recipients p /\ pd_responses p !! sender = None /\
      no_reserved (m_headers m) /\ static b' = static b /\
      match m_request_policy request with
      | RequestPolicy_Exact | RequestPolicy_First => forwards (Frame_Message m) /\ closes
      | RequestPolicy_All =>
          forwards (Frame_Message m) /\ (everyone /\ closes \/ ~ everyone /\ stays)
      | RequestPolicy_FirstSuccess =>
          if decide (m_status m = Status_Success) then forwards (Frame_Message m) /\ closes
          else everyone /\ closes /\
                 (exists f, head (bt_values responses) = Some f /\ forwards f) \/
               ~ everyone /\ stays /\ events = []
      end
  | Err _ => b' = b
  | Panic => False
  end.
Proof.
  intros Hb%reachable_ok Hk Hr. apply begin_response_effect in Hr; [|done].
  destruct r as [events|e|]; [|done|done]. destruct Hr as (Hstep & Hh & _).
  destruct Hstep as [p request responses completed Ha].
  pose proof (all_answered b sender m p request Hb Ha) as Hall. cbv zeta in Hall. fold responses in Hall.
  exists p, request. cbv zeta. fold responses. destruct Ha as [Hp Hm Hkind Hin Hno].
  do 7 (split; [done|]). unfold completed, response_completed, response_forward, set_deliveries.
  cbn [b_deliveries].
  assert (head (bt_values responses) <> None) as Hhead.
  { intros Hv%head_None. assert (Frame_Message m ∈ bt_values responses) as Hf.
    { apply elem_of_bt_values. exists sender. apply lookup_insert_eq. }
    rewrite Hv in Hf. by apply not_elem_of_nil in Hf. }
  clearbody responses. destruct (m_request_policy request).
  - done.
  - done.
  - destruct (decide (m_status m = Status_Success)) as [Hs|Hs];
      [rewrite bool_decide_eq_true_2 by done; done|].
    rewrite bool_decide_eq_false_2 by done. cbn [orb].
    destruct (N.eqb_spec (bt_len responses) (bs_len (pd_recipients p))) as [He|He].
    + left. split; [by apply Hall|]. split; [done|]. destruct (head _) as [f|]; [by exists f|done].
    + right. split; [by rewrite <- Hall|]. done.
  - split; [done|].
    destruct (N.eqb_spec (bt_len responses) (bs_len (pd_recipients p))) as [He|He].
    + left. split; [by apply Hall | done].
    + right. split; [by rewrite <- Hall | done].
Qed.

(** The first value in key order. *)
Lemma bt_values_head {V} (m : gmap PeerId V) k v :
  m !! k = Some v -> (forall j, is_Some (m !! j) -> PeerId_get k <= PeerId_get j) ->
  head (bt_values m) = Some v.
Proof.
  intros Hk Hmin. unfold bt_values. pose proof (bt_entries_sorted m) as Hs.
  assert ((k, v) ∈ bt_entries m) as Hin by by apply elem_of_bt_entries.
  destruct (bt_entries m) as [|[j w] l] eqn:E; [by apply not_elem_of_nil in Hin|].
  assert (m !! j = Some w) as Hj by (apply elem_of_bt_entries; rewrite E; left).
  apply elem_of_cons in Hin as [[= <- <-]|Hin]; [done|]. exfalso.
  apply StronglySorted_inv in Hs as [_ Hs]. rewrite Forall_forall in Hs. specialize (Hs _ Hin).
  specialize (Hmin j ltac:(by exists w)). change (PeerId_get j < PeerId_get k) in Hs. lia.
Qed.

(** The fallback of [FIRST_SUCCESS].  When the last recipient fails too, the
    requester is sent the stored failure of the recipient [q] with the lowest
    identity, but the event names the last responder as its sender: a
    recipient's answer is attributed to another peer. *)
Theorem first_success_fallback policy limits (b b' : broker) sender m now_ms events p request q f :
  reachable policy limits b -> m_kind m = MessageKind_Response ->
  m_status m <> Status_Success ->
  begin_delivery sender (Frame_Message m) now_ms b = (Ok events, b') ->
  b_deliveries b !! m_correlation_id m = Some p -> pd_message p = Frame_Message request ->
  m_request_policy request = RequestPolicy_FirstSuccess ->
  (forall r, r ∈ pd_recipients p -> r <> sender -> is_Some (pd_responses p !! r)) ->
  pd_responses p !! q = Some f -> (forall r, r ∈ pd_recipients p -> PeerId_get q <= PeerId_get r) ->
  q <> sender /\ events = [DeliveryEvent_Deliver sender [pd_sender p] f] /\
  b_deliveries b' = delete (m_correlation_id m) (b_deliveries b).
Proof.
  intros Hb%reachable_ok Hk Hs Hr Hp Hm Hpol Hall Hq Hmin.
  apply begin_response_effect in Hr as (Hstep & _ & _); [|done].
  destruct Hstep as [p' request' responses completed Ha].
  pose proof (answers_open b sender m p' request' Hb Ha) as Hok.
  pose proof (all_answered b sender m p' request' Hb Ha) as Heq. cbv zeta in Heq.
  destruct Ha as [Hp' Hm' Hkind Hin Hno]. assert (p' = p) as -> by congruence.
  assert (request' = request) as -> by congruence.
  assert (q <> sender) as Hne by (intros ->; congruence).
  assert (completed = true) as Hc.
  { unfold completed, response_completed. rewrite Hpol. apply orb_true_iff. right.
    apply N.eqb_eq, Heq. intros r Hr. destruct (decide (r = sender)) as [->|].
    - rewrite lookup_insert_eq. by eexists.
    - rewrite lookup_insert_ne by done. auto. }
  split; [done|]. rewrite Hc. split; [|done].
  unfold response_forward. rewrite Hpol, bool_decide_eq_false_2 by done.
  rewrite (bt_values_head responses q f); [done| |].
  - unfold responses. by rewrite lookup_insert_ne.
  - intros r Hr. apply Hmin. unfold responses in Hr. apply lookup_insert_is_Some in Hr as [<-|[_ Hr]];
      [done|]. by apply (pok_responders _ _ _ _ _ Hok).
Qed.

End reliability.

(** ** Retry schedule *)

(** The retry schedule.  Before the last attempt the next one is due after
    the initial backoff doubled once per attempt made, never sooner than one
    millisecond and never later than a minute, and the wait does not shrink
    from one attempt to the next; the shift and the product stay within [u64].
    After the last attempt it is due at once. *)
Theorem retry_backoff initial max now_ms attempts :
  wf_retry (RetryPolicy_Exponential initial max) -> 1 <= initial -> 1 <= attempts ->
  now_ms + 60000 <= u64_max ->
  let delay n := N.min 60000 (initial * 2 ^ N.min (n - 1) 16) in
  retry_next (RetryPolicy_Exponential initial max) now_ms attempts =
    Some (if max <=? attempts then now_ms else now_ms + delay attempts) /\
  1 <= delay attempts <= 60000 /\
  delay attempts <= delay (attempts + 1) /\
  initial * 2 ^ N.min (attempts - 1) 16 <= u64_max.
Proof.
  intros [Hwf _] Hi Ha Hnow delay.
  assert (forall n, 2 ^ N.min (n - 1) 16 <= 65536) as Hpow.
  { intros n. change 65536 with (2 ^ 16). apply N.pow_le_mono_r; lia. }
  assert (forall n, 1 <= 2 ^ N.min (n - 1) 16) as Hpos.
  { intros n. change 1 with (2 ^ 0) at 1. apply N.pow_le_mono_r; lia. }
  assert (initial * 2 ^ N.min (attempts - 1) 16 <= u64_max) as Hprod.
  { specialize (Hpow attempts). unfold u32_max, u64_max in *. nia. }
  split; [|split; [|split; [|done]]].
  - unfold retry_next, saturating_sub. destruct (max <=? attempts); [done|].
    rewrite N.shiftl_1_l. unfold saturating_mul, saturating_add, delay.
    f_equal. lia.
  - unfold delay. specialize (Hpos attempts). split; [|lia]. nia.
  - unfold delay. apply N.min_le_compat_l, N.mul_le_mono_l, N.pow_le_mono_r; lia.
Qed.

(** ** Witnesses *)

Definition demo_id : MessageId := MessageId_new (replicate 16 x07).

(** A failure answering the pending request of [demo]. *)
Definition demo_failure (id : byte) (payload : bytes) : Message := {|
  m_kind := MessageKind_Response;
  m_ack_policy := AckPolicy_None;
  m_ack_requirement := AckRequirement_None;
  m_request_policy := RequestPolicy_Exact;
  m_deadline_ms := 0;
  m_retry := RetryPolicy_None;
  m_destination := Destination_Peer (PeerId_new 1);
  m_message_id := MessageId_new (replicate 16 id);
  m_correlation_id := demo_id;
  m_status := Status_Error;
  m_headers := ∅;
  m_payload := payload;
|}.

Lemma demo_failure_proper id payload : id <> x00 -> proper_message (demo_failure id payload).
Proof.
  intros Hid. split; [by intros [?|?]|]. split; [|by intros [= ?]]. unfold wf_message. cbn. unfold wf_peer. cbn.
  repeat split; try done; unfold u32_max, u64_max; lia.
Qed.

(** Peer 2 has failed; peer 3 has not answered yet. *)
Definition demo_failed : Broker AllowAll :=
  (begin_delivery (PeerId_new 2) (Frame_Message (demo_failure x21 (bs "two"))) 1001 demo).2.

Lemma demo_failed_reachable : reachable allow_all Limits_default demo_failed.
Proof.
  apply (reachable_step allow_all Limits_default demo (Command_BeginDelivery (PeerId_new 2)
    (Frame_Message (demo_failure x21 (bs "two"))) 1001)
    (begin_delivery (PeerId_new 2) (Frame_Message (demo_failure x21 (bs "two"))) 1001 demo).1).
  - exact demo_reachable.
  - by apply demo_failure_proper.
  - apply surjective_pairing.
Qed.

Lemma delivery_admission_witness :
  exists events,
    begin_delivery (PeerId_new 1)
      (Frame_Message (demo_request Destination_Broadcast RequestPolicy_All RetryPolicy_None x09))
      2000 demo =
    (Ok events, (begin_delivery (PeerId_new 1)
      (Frame_Message (demo_request Destination_Broadcast RequestPolicy_All RetryPolicy_None x09))
      2000 demo).2) /\
    b_deliveries demo !! MessageId_new (replicate 16 x09) = None.
Proof.
  set (m := demo_request Destination_Broadcast RequestPolicy_All RetryPolicy_None x09).
  assert (exists events, (begin_delivery (PeerId_new 1) (Frame_Message m) 2000 demo).1 = Ok events)
    as [events E] by (eexists; by vm_compute).
  assert (begin_delivery (PeerId_new 1) (Frame_Message m) 2000 demo =
    (Ok events, (begin_delivery (PeerId_new 1) (Frame_Message m) 2000 demo).2)) as Hr
    by (rewrite <- E; apply surjective_pairing).
  exists events. split; [exact Hr|].
  exact (proj1 (proj2 (delivery_admission demo _ (PeerId_new 1) m 2000 (Ok events)
    ltac:(discriminate) Hr))).
Defined.

Lemma tick_closes_expired_witness :
  exists events b', tick 1100 demo = (Ok events, b') /\ static b' = static demo /\
    forall id p, b_deliveries b' !! id = Some p -> 1100 < pd_deadline_ms p.
Proof.
  destruct (tick_closes_expired allow_all Limits_default demo 1100 demo_reachable)
    as (events & b' & Ht & Hs & Hd & _).
  exists events, b'. split; [exact Ht|]. split; [exact Hs | exact Hd].
Defined.

Lemma tick_retry_order_witness :
  exists events outcomes (retries : list (N * DeliveryEvent)),
    (tick 1010 demo).1 = Ok events /\
    events = outcomes ++ retries.*2.
Proof.
  assert (exists events, (tick 1010 demo).1 = Ok events) as [events E] by (eexists; by vm_compute).
  destruct (tick_retry_order allow_all Limits_default demo (tick 1010 demo).2 1010 events
    demo_reachable) as (outcomes & retries & He & _).
  { rewrite <- E. apply surjective_pairing. }
  exists events, outcomes, retries. split; [exact E | exact He].
Defined.

Lemma acknowledge_behaviour_witness :
  (acknowledge (PeerId_new 2) demo_id AckPolicy_Received demo).1 = Ok [] /\
  exists p, b_deliveries demo !! demo_id = Some p /\ PeerId_new 2 ∈ pd_recipients p.
Proof.
  assert ((acknowledge (PeerId_new 2) demo_id AckPolicy_Received demo).1 = Ok []) as E
    by by vm_compute.
  split; [exact E|].
  destruct (acknowledge_behaviour allow_all Limits_default demo
    (acknowledge (PeerId_new 2) demo_id AckPolicy_Received demo).2
    (PeerId_new 2) demo_id AckPolicy_Received (Ok []) demo_reachable)
    as (p & m & Hp & _ & Hin & _).
  { rewrite <- E. apply surjective_pairing. }
  exists p. split; [exact Hp | exact Hin].
Defined.

Lemma response_behaviour_witness :
  (begin_delivery (PeerId_new 2) (Frame_Message (demo_failure x21 (bs "two"))) 1001 demo).1 = Ok [] /\
  exists p, b_deliveries demo !! demo_id = Some p /\ pd_responses p !! PeerId_new 2 = None.
Proof.
  assert ((begin_delivery (PeerId_new 2) (Frame_Message (demo_failure x21 (bs "two"))) 1001 demo).1
            = Ok []) as E by by vm_compute.
  split; [exact E|].
  destruct (response_behaviour allow_all Limits_default demo demo_failed (PeerId_new 2)
    (demo_failure x21 (bs "two")) 1001 (Ok []) demo_reachable eq_refl)
    as (p & request & Hp & _ & _ & _ & Hno & _).
  { unfold demo_failed. rewrite <- E. apply surjective_pairing. }
  exists p. split; [exact Hp | exact Hno].
Defined.

(** Peer 2's failure reaches the requester under peer 3's name. *)
Lemma first_success_fallback_witness :
  (begin_delivery (PeerId_new 3) (Frame_Message (demo_failure x31 (bs "three"))) 1002 demo_failed).1 =
    Ok [DeliveryEvent_Deliver (PeerId_new 3) [PeerId_new 1] (Frame_Message (demo_failure x21 (bs "two")))]
  /\ PeerId_new 2 <> PeerId_new 3.
Proof.
  assert ((begin_delivery (PeerId_new 3) (Frame_Message (demo_failure x31 (bs "three"))) 1002
             demo_failed).1 =
    Ok [DeliveryEvent_Deliver (PeerId_new 3) [PeerId_new 1]
          (Frame_Message (demo_failure x21 (bs "two")))]) as E by by vm_compute.
  split; [exact E|].
  set (p := fresh_pending (PeerId_new 1)
    (demo_request (Destination_Channel demo_channel) RequestPolicy_FirstSuccess
       (RetryPolicy_Exponential 10 3) x07)
    (list_to_set [PeerId_new 2; PeerId_new 3]) 1000 0).
  set (p' := set_pd_responses {[PeerId_new 2 := Frame_Message (demo_failure x21 (bs "two"))]} p).
  refine (proj1 (first_success_fallback allow_all Limits_default demo_failed
    (begin_delivery (PeerId_new 3) (Frame_Message (demo_failure x31 (bs "three"))) 1002 demo_failed).2
    (PeerId_new 3) (demo_failure x31 (bs "three")) 1002
    [DeliveryEvent_Deliver (PeerId_new 3) [PeerId_new 1] (Frame_Message (demo_failure x21 (bs "two")))]
    p' (demo_request (Destination_Channel demo_channel) RequestPolicy_FirstSuccess
          (RetryPolicy_Exponential 10 3) x07)
    (PeerId_new 2) (Frame_Message (demo_failure x21 (bs "two")))
    demo_failed_reachable eq_refl _ _ _ eq_refl eq_refl _ eq_refl _)).
  - discriminate.
  - rewrite <- E. apply surjective_pairing.
  - vm_compute. reflexivity.
  - intros r Hr Hne. apply elem_of_list_to_set in Hr.
    apply elem_of_cons in Hr as [->|Hr%list_elem_of_singleton]; [by eexists|congruence].
  - intros r Hr. apply elem_of_list_to_set in Hr.
    apply elem_of_cons in Hr as [->| ->%list_elem_of_singleton]; cbn; lia.
Defined.

Lemma retry_backoff_witness :
  retry_next (RetryPolicy_Exponential 10 3) 1000 2 = Some 1020 /\
  1 <= N.min 60000 (10 * 2 ^ N.min (2 - 1) 16) <= 60000.
Proof.
  destruct (retry_backoff 10 3 1000 2) as (E & Hd & _).
  - split; [unfold u32_max | unfold u8_max]; lia.
  - lia.
  - lia.
  - unfold u64_max. lia.
  - split; [exact E | exact Hd].
Defined.
