(* ===== verification/Lifecycle.v ===== *)
(** * The life of a pending delivery

    What one command, and then any run of commands, can do to a message the
    broker tracks: it keeps its identity, is retransmitted only by the clock and
    within its retry policy, and is closed once, its sender being told once. *)

From S2P Require Export Reliability.

Local Open Scope N_scope.

(** The events a command reports. *)
Definition events_of (r : result Error (list DeliveryEvent)) : list DeliveryEvent :=
  match r with Ok events => events | _ => [] end.

(** A transmission of the tracked message [id] (responses have identifiers of
    their own). *)
Definition transmits (id : MessageId) (e : DeliveryEvent) : Prop :=
  match e with
  | DeliveryEvent_Deliver _ _ (Frame_Message m) =>
      m_message_id m = id /\ m_kind m <> MessageKind_Response
  | _ => False
  end.

#[export] Instance transmits_dec id e : Decision (transmits id e).
Proof. destruct e as [s r []|]; cbn; apply _. Defined.

Definition transmissions (id : MessageId) (events : list DeliveryEvent) : list DeliveryEvent :=
  filter (transmits id) events.

Lemma transmissions_app id l k :
  transmissions id (l ++ k) = transmissions id l ++ transmissions id k.
Proof. apply filter_app. Qed.

Lemma transmissions_none id l : Forall (fun e => ~ transmits id e) l -> transmissions id l = [].
Proof.
  unfold transmissions. induction 1 as [|e l He _ IH]; [done|].
  by rewrite filter_cons, decide_False.
Qed.

(** ** One command *)

(** The delivery goes on: same message, same parties, same deadline; the
    acknowledgements and responses only grow; each attempt is a transmission;
    its sender hears nothing, or that a request has been acknowledged. *)
Record continues (id : MessageId) (p : PendingDelivery) (events : list DeliveryEvent)
    (p' : PendingDelivery) : Prop := {
  cont_sender : pd_sender p' = pd_sender p;
  cont_message : pd_message p' = pd_message p;
  cont_recipients : pd_recipients p' = pd_recipients p;
  cont_deadline : pd_deadline_ms p' = pd_deadline_ms p;
  cont_priority : pd_priority p' = pd_priority p;
  cont_acknowledgements : pd_acknowledgements p ⊆ pd_acknowledgements p';
  cont_responses : pd_responses p ⊆ pd_responses p';
  cont_attempts : pd_attempts p' = pd_attempts p + len (transmissions id events);
  cont_results :
    pd_acknowledgement_complete p' = pd_acknowledgement_complete p /\ results id events = [] \/
    is_request (pd_message p) = true /\
    pd_acknowledgement_complete p = false /\ pd_acknowledgement_complete p' = true /\
    exists o, (o = DeliveryOutcome_Received \/ o = DeliveryOutcome_Processed) /\
      results id events = [DeliveryEvent_Result (pd_sender p) id o];
}.

(** The outcomes with which a command closes a delivery. *)
Definition closing_outcome (c : command) (p : PendingDelivery) (o : DeliveryOutcome) : Prop :=
  match c with
  | Command_Tick now_ms =>
      o = DeliveryOutcome_Timeout /\ pd_deadline_ms p <= now_ms \/
      o = DeliveryOutcome_DeliveryFailed /\ now_ms < pd_deadline_ms p
  | Command_Disconnect peer =>
      o = DeliveryOutcome_RecipientDisconnected /\ peer ∈ pd_recipients p
  | Command_Acknowledge peer _ _ =>
      (o = DeliveryOutcome_Received \/ o = DeliveryOutcome_Processed) /\
      peer ∈ pd_recipients p /\ is_request (pd_message p) = false
  | _ => False
  end.

(** It is closed: its sender hears one outcome, or gets the response that ends
    the request. *)
Definition closes (c : command) (id : MessageId) (p : PendingDelivery)
    (events : list DeliveryEvent) : Prop :=
  transmissions id events = [] /\
  ((exists o, closing_outcome c p o /\
      results id events = [DeliveryEvent_Result (pd_sender p) id o]) \/
   exists responder m now_ms f,
     c = Command_BeginDelivery responder (Frame_Message m) now_ms /\
     m_kind m = MessageKind_Response /\ m_correlation_id m = id /\
     is_request (pd_message p) = true /\ responder ∈ pd_recipients p /\
     events = [DeliveryEvent_Deliver responder [pd_sender p] f] /\ response_ok id f).

Definition delivery_step (c : command) (id : MessageId) (p : PendingDelivery)
    (events : list DeliveryEvent) (after : option PendingDelivery) : Prop :=
  match after with Some p' => continues id p events p' | None => closes c id p events end.

Ltac pending_fields :=
  cbn [pd_sender pd_message pd_recipients pd_acknowledgements pd_responses
       pd_acknowledgement_complete pd_deadline_ms pd_attempts pd_priority
       set_pd_responses set_pd_acknowledgements set_pd_attempts].

(** A command that says nothing about [id] and leaves it alone. *)
Lemma continues_silent id p events :
  results id events = [] -> transmissions id events = [] -> continues id p events p.
Proof. intros Hr Ht. split; try done; [rewrite Ht; unfold len; cbn; lia | auto]. Qed.

Section lifecycle.
Context {P : Type} `{Policy P}.

Local Abbreviation broker := (Broker P).

Lemma step_silent c id p events (b' : broker) :
  b_deliveries b' !! id = Some p -> results id events = [] -> transmissions id events = [] ->
  delivery_step c id p events (b_deliveries b' !! id).
Proof. intros -> ? ?. by apply continues_silent. Qed.

Lemma delivery_events_silent id sender m recipients :
  m_message_id m <> id ->
  results id (delivery_events sender m recipients) = [] /\
  transmissions id (delivery_events sender m recipients) = [].
Proof.
  intros Hne. split; [apply results_none | apply transmissions_none];
    unfold delivery_events; case_bool_decide; repeat constructor; cbn; tauto.
Qed.

Lemma no_recipient_silent id sender m :
  m_message_id m <> id ->
  results id (no_recipient_result sender m) = [] /\
  transmissions id (no_recipient_result sender m) = [].
Proof.
  intros Hne. split; [apply results_none | apply transmissions_none]; repeat constructor; cbn; tauto.
Qed.

(** A new message does not touch the pending ones. *)
Lemma begin_step_life c id p sender m now_ms events (b b' : broker) :
  begin_step sender m now_ms b events b' -> b_deliveries b !! id = Some p ->
  delivery_step c id p events (b_deliveries b' !! id).
Proof.
  intros Hstep Hp.
  assert (m_message_id m <> id) as Hne.
  { assert (admitted sender m b) as Ha by by destruct Hstep.
    intros <-. pose proof (admitted_fresh _ _ _ Ha). congruence. }
  pose proof (no_recipient_silent id sender m Hne) as [Hn1 Hn2].
  pose proof (fun rs => delivery_events_silent id sender m rs Hne) as Hd.
  destruct Hstep; (apply step_silent; [|first [done | apply Hd]..]);
    cbn [b_deliveries set_deliveries]; rewrite ?lookup_insert_ne by done;
    by rewrite ?counted_deliveries.
Qed.

Lemma response_silent id sender requester f :
  results id [DeliveryEvent_Deliver sender requester f] = [].
Proof. apply results_none, Forall_singleton. cbn. tauto. Qed.

Lemma response_ok_silent id id' sender requester f :
  response_ok id' f -> transmissions id [DeliveryEvent_Deliver sender requester f] = [].
Proof.
  intros (m & -> & _ & Hk & _). apply transmissions_none, Forall_singleton. cbn. tauto.
Qed.

(** What a response step forwards is a response to the request. *)
Lemma forwarded_ok sender m p request completed f (b : broker) :
  broker_ok b -> no_reserved (m_headers m) -> m_kind m = MessageKind_Response -> wf_message m ->
  answers sender m b p request ->
  response_forward (m_request_policy request) (m_status m) completed (Frame_Message m)
    (<[sender := Frame_Message m]> (pd_responses p)) = Some f ->
  response_ok (m_correlation_id m) f.
Proof.
  intros Hb Hh Hk Hwf Ha Hf. pose proof (answers_open b sender m p request Hb Ha) as Hok.
  assert (response_ok (m_correlation_id m) (Frame_Message m)) as Hm by by exists m.
  unfold response_forward in Hf. destruct (m_request_policy request); try by injection Hf as <-.
  destruct (bool_decide _); [by injection Hf as <-|]. destruct completed; [|done].
  assert (f ∈ bt_values (<[sender := Frame_Message m]> (pd_responses p))) as Hin.
  { destruct (bt_values _); [done|]. injection Hf as <-. left. }
  apply elem_of_bt_values in Hin as (k & [[<- <-]|[_ Hk']]%lookup_insert_Some); [done|].
  exact (pok_responses _ _ _ _ _ Hok k f Hk').
Qed.

Lemma response_step_life id p sender m now_ms events (b b' : broker) :
  broker_ok b -> no_reserved (m_headers m) -> m_kind m = MessageKind_Response -> wf_message m ->
  response_step sender m b events b' -> b_deliveries b !! id = Some p ->
  delivery_step (Command_BeginDelivery sender (Frame_Message m) now_ms) id p events
    (b_deliveries b' !! id).
Proof.
  intros Hb Hh Hk Hwf Hstep Hp. destruct Hstep as [q request responses completed Ha].
  pose proof (fun f => forwarded_ok sender m q request completed f b Hb Hh Hk Hwf Ha) as Hf.
  fold responses in Hf. destruct Ha as [Hq Hm Hkind Hin Hno].
  destruct (response_forward _ _ _ _ _) as [f|] eqn:Ef.
  - specialize (Hf f eq_refl). destruct (decide (m_correlation_id m = id)) as [Heq|Hne].
    + rewrite Heq in *. assert (q = p) as -> by congruence. cbn.
      destruct completed; cbn; rewrite ?lookup_delete_eq, ?lookup_insert_eq.
      * split; [by eapply response_ok_silent|]. right. exists sender, m, now_ms, f.
        split; [done|]. split; [done|]. split; [done|]. split; [|done].
        rewrite Hm. cbn. by apply bool_decide_eq_true.
      * split; try done; pending_fields; [by apply insert_subseteq| |left; by rewrite response_silent].
        rewrite (response_ok_silent id id) by done. unfold len. cbn. lia.
    + apply step_silent; [|apply response_silent|by eapply response_ok_silent].
      cbn. destruct completed; cbn; by rewrite ?lookup_delete_ne, ?lookup_insert_ne.
  - destruct (decide (m_correlation_id m = id)) as [Heq|Hne].
    + rewrite Heq in *. assert (q = p) as -> by congruence. cbn.
      assert (completed = false) as ->.
      { destruct completed; [|done]. unfold response_forward in Ef.
        destruct (m_request_policy request); try done. destruct (bool_decide _); [done|].
        assert (Frame_Message m ∈ bt_values responses) as Hv
          by (apply elem_of_bt_values; exists sender; apply lookup_insert_eq).
        destruct (bt_values responses); [by apply not_elem_of_nil in Hv|done]. }
      cbn. rewrite lookup_insert_eq. split; try done; pending_fields; [by apply insert_subseteq|unfold len; cbn; lia|by left].
    + apply step_silent; [|done..].
      cbn. destruct completed; cbn; by rewrite ?lookup_delete_ne, ?lookup_insert_ne.
Qed.

Lemma ack_step_life c id p peer i policy events (b b' : broker) :
  c = Command_Acknowledge peer i policy ->
  ack_step peer i policy b events b' -> b_deliveries b !! id = Some p ->
  delivery_step c id p events (b_deliveries b' !! id).
Proof.
  intros -> Hstep Hp. destruct Hstep as [q m acks complete _ [Hq Hm Hin Hsat]].
  assert (forall id o, transmissions id
            (if complete then [DeliveryEvent_Result (pd_sender q) i o] else []) = []) as Ht
    by (intros; by destruct complete).
  assert (ack_outcome (m_ack_policy m) = DeliveryOutcome_Received \/
          ack_outcome (m_ack_policy m) = DeliveryOutcome_Processed) as Ho
    by (destruct (m_ack_policy m); auto).
  destruct (decide (i = id)) as [->|Hne].
  2: { apply step_silent; [| |done].
       - cbn. destruct (complete && _); by rewrite ?lookup_delete_ne, ?lookup_insert_ne.
       - apply results_none. destruct complete; repeat constructor. cbn. congruence. }
  assert (q = p) as -> by congruence. cbn [b_deliveries observe set_monitor set_deliveries].
  assert (is_request (pd_message p) = bool_decide (m_kind m = MessageKind_Request)) as Hreq
    by by rewrite Hm.
  destruct (bool_decide (m_kind m = MessageKind_Request)) eqn:Ek.
  - rewrite andb_false_r. rewrite lookup_insert_eq. split; try done; pending_fields; [set_solver| |].
    + rewrite Ht. unfold len. cbn. lia.
    + destruct complete eqn:Ec; [right|left; by rewrite orb_false_r].
      split; [done|]. unfold complete in Ec. apply andb_true_iff in Ec as [Ec%negb_true_iff _].
      rewrite Ec. split; [done|]. split; [done|]. eexists. split; [exact Ho|].
      unfold results. rewrite filter_cons. by rewrite decide_True.
  - rewrite andb_true_r. destruct complete eqn:Ec.
    + rewrite lookup_delete_eq. split; [done|]. left. exists (ack_outcome (m_ack_policy m)).
      split; [done|]. unfold results. rewrite filter_cons. by rewrite decide_True.
    + rewrite lookup_insert_eq. split; try done; pending_fields; [set_solver|unfold len; cbn; lia|left; by rewrite orb_false_r].
Qed.

(** ** The clock and disconnections *)

Lemma transmits_one i j (x : N * DeliveryEvent) : transmits i x.2 -> transmits j x.2 -> i = j.
Proof. destruct x as [k [s r []|]]; cbn; try done. by intros [-> _] [-> _]. Qed.

Lemma fmap_snd_filter (Q : DeliveryEvent -> Prop) `{forall e, Decision (Q e)} (l : list (N * DeliveryEvent)) :
  filter Q l.*2 = (filter (fun x => Q x.2) l).*2.
Proof.
  induction l as [|x l IH]; [done|]. rewrite fmap_cons, !filter_cons, IH.
  by destruct (decide (Q x.2)).
Qed.

Lemma tick_transmissions now_ms id p (b : broker) :
  broker_ok b -> b_deliveries b !! id = Some p ->
  len (transmissions id (tick_events now_ms b)) = len (tick_retries now_ms (id, p)).
Proof.
  intros Hb Hp. unfold tick_events. rewrite transmissions_app, transmissions_none.
  2: { apply Forall_forall. intros e He. apply list_elem_of_In, in_concat in He as (l & Hl & He).
       apply list_elem_of_In, list_elem_of_fmap in Hl as (x & -> & _). apply list_elem_of_In in He.
       unfold tick_result in He.
       destruct (tick_decision _ _); try (by apply not_elem_of_nil in He);
         apply list_elem_of_singleton in He as ->; cbn; tauto. }
  unfold transmissions. cbn [app]. rewrite fmap_snd_filter. unfold len. rewrite length_fmap.
  f_equal. rewrite (sort_by_perm by_priority_desc).
  pose proof (filter_entries (fun i x => transmits i x.2) transmits_one
    (tick_retries now_ms) id (b_deliveries b)) as Hf. cbn beta in Hf. rewrite Hf.
  - by rewrite Hp.
  - intros [i q] x Hq%elem_of_bt_entries Hx. destruct (ok_deliveries b Hb i q Hq) as [m Hm].
    unfold tick_retries in Hx. cbn [fst snd] in Hx.
    destruct (tick_decision now_ms q); try (by apply not_elem_of_nil in Hx).
    apply list_elem_of_singleton in Hx as ->. cbn. rewrite (pok_message _ _ _ _ _ Hm).
    split; [apply (pok_id _ _ _ _ _ Hm) | apply (pok_kind _ _ _ _ _ Hm)].
Qed.

Lemma tick_life id p now_ms (b : broker) :
  broker_ok b -> b_deliveries b !! id = Some p ->
  delivery_step (Command_Tick now_ms) id p (tick_events now_ms b) (after_tick now_ms p).
Proof.
  intros Hb Hp. pose proof (tick_transmissions now_ms id p b Hb Hp) as Ht.
  pose proof (tick_results now_ms id b) as Hr. rewrite Hp in Hr.
  unfold after_tick, tick_retries, tick_result, tick_decision in *. cbn [fst snd] in *.
  assert (forall l : list DeliveryEvent, len l = 0 -> l = []) as Hnil
    by (intros []; [done|]; unfold len; cbn; lia).
  destruct (N.leb_spec (pd_deadline_ms p) now_ms).
  { split; [by apply Hnil|]. left. exists DeliveryOutcome_Timeout. cbn. auto. }
  assert (len (transmissions id (tick_events now_ms b)) = 0 ->
          results id (tick_events now_ms b) = [] ->
          continues id p (tick_events now_ms b) p) as Hkeep
    by (intros ? ?; apply continues_silent; auto).
  destruct (pd_next_retry_ms p); [|by apply Hkeep].
  destruct (frame_retry (pd_message p)) as [|backoff max]; [by apply Hkeep|].
  destruct (now_ms <? n); [by apply Hkeep|]. destruct (max <=? pd_attempts p).
  - split; [by apply Hnil|]. left. exists DeliveryOutcome_DeliveryFailed. cbn. auto.
  - split; try done; pending_fields; [|by left]. rewrite Ht. done.
Qed.

Lemma disconnect_life id p peer (b : broker) :
  b_deliveries b !! id = Some p ->
  delivery_step (Command_Disconnect peer) id p (disconnect_results peer b)
    (b_deliveries (disconnected peer b) !! id).
Proof.
  intros Hp. unfold disconnect_results, affected_by. cbn [b_deliveries disconnected set_deliveries].
  set (outcome e := DeliveryEvent_Result (pd_sender (e : MessageId * PendingDelivery).2) e.1
                      DeliveryOutcome_RecipientDisconnected).
  assert (outcome <$> filter (fun e => peer ∈ pd_recipients e.2) (bt_entries (b_deliveries b)) =
          concat ((fun e => if decide (peer ∈ pd_recipients e.2) then [outcome e] else [])
                    <$> bt_entries (b_deliveries b))) as ->.
  { induction (bt_entries (b_deliveries b)) as [|e l IH]; [done|].
    rewrite filter_cons, (fmap_cons (A := MessageId * PendingDelivery) (fun e => if decide _ then _ else _)).
    cbn [concat]. rewrite <- IH. by destruct (decide _). }
  assert (Hr : forall i, results i (concat ((fun e => if decide (peer ∈ pd_recipients e.2) then [outcome e] else [])
                    <$> bt_entries (b_deliveries b))) =
               match b_deliveries b !! i with
               | Some q => if decide (peer ∈ pd_recipients q) then [outcome (i, q)] else []
               | None => [] end).
  { intros i. apply (filter_entries result_for result_for_one).
    intros e x _ Hx. destruct (decide _); [|by apply not_elem_of_nil in Hx].
    by apply list_elem_of_singleton in Hx as ->. }
  assert (Ht : transmissions id (concat ((fun e => if decide (peer ∈ pd_recipients e.2) then [outcome e] else [])
                    <$> bt_entries (b_deliveries b))) = []).
  { unfold transmissions. rewrite filter_concat. apply concat_empty. intros e _.
    by destruct (decide (peer ∈ pd_recipients e.2)). }
  specialize (Hr id). rewrite Hp in Hr.
  rewrite map_lookup_filter. cbn. rewrite Hp. cbn. destruct (decide (peer ∈ pd_recipients p)).
  - rewrite option_guard_False by tauto. split; [done|]. left. eexists. split; [|exact Hr]. done.
  - rewrite option_guard_True by done. by apply continues_silent.
Qed.

(** ** Every command *)

Lemma apply_life c id p (b b' : broker) r :
  broker_ok b -> proper_command c -> apply c b = (r, b') -> b_deliveries b !! id = Some p ->
  delivery_step c id p (events_of r) (b_deliveries b' !! id).
Proof.
  intros Hb Hc Hr Hp.
  assert (forall (x : broker) l, b_deliveries x = b_deliveries b -> l = [] ->
            delivery_step c id p l (b_deliveries x !! id)) as Hsame
    by (intros x l Hx ->; apply step_silent; [by rewrite Hx | done | done]).
  destruct c as [creds hello|peer|peer n|peer ch fs|peer ch|peer n|s f t|peer i policy|t|].
  - run_apply Hr; apply connect_session_effect in E; [|by subst; apply Hsame|done].
    destruct E as (-> & _). by apply Hsame.
  - apply disconnect_with_events_effect in Hr. destruct r; [|by destruct Hr as [-> _]; apply Hsame|done].
    destruct Hr as (_ & -> & ->). by apply disconnect_life.
  - run_apply Hr; apply claim_effect in E; [|by destruct E as [-> _]; apply Hsame|done].
    destruct E as (-> & _). by apply Hsame.
  - run_apply Hr; apply subscribe_effect in E; [|by destruct E as [-> _]; apply Hsame|done].
    destruct E as (-> & _). by apply Hsame.
  - run_apply Hr; apply unsubscribe_effect in E; [|by destruct E as [-> _]; apply Hsame|done].
    destruct E as (-> & _). by apply Hsame.
  - run_apply Hr; apply register_dbus_name_effect in E; [|by destruct E as [-> _]; apply Hsame|done].
    destruct E as (-> & _). by apply Hsame.
  - destruct f; try (cbn in Hr; cbv [fail] in Hr; simplify_eq; by apply Hsame).
    destruct (decide (m_kind message = MessageKind_Response)) as [Hk|Hk].
    + apply begin_response_effect in Hr; [|done]. destruct r; [|by subst; apply Hsame|done].
      destruct Hr as (Hs & Hh & _). destruct Hc as (? & ? & _). by eapply response_step_life.
    + apply begin_delivery_effect in Hr; [|done]. destruct r; [by eapply begin_step_life| |done].
      destruct Hr as [->|(l & _ & -> & _)]; apply Hsame; try done. apply counted_deliveries.
  - apply acknowledge_effect in Hr. destruct r; [|by destruct Hr as [-> _]; apply Hsame|done].
    by eapply ack_step_life.
  - cbn [apply] in Hr. rewrite tick_effect in Hr by by apply broker_attempts_fit. simplify_eq.
    rewrite tick_deliveries, lookup_omap, Hp. by apply tick_life.
  - cbn in Hr. cbv [mbind St_bind get_state modify mret St_ret drain_events] in Hr. cbn in Hr.
    simplify_eq. by apply Hsame.
Qed.

(** C8: the life of a pending delivery.  Whatever command runs, successful or
    not, a tracked message either goes on with its message, parties, deadline
    and priority unchanged, its acknowledgements and responses only growing and
    its attempt counter counting its retransmissions, or it is closed; closing
    it tells its sender exactly one outcome (timeout or failed delivery from the
    clock, a recipient's disconnection, the acknowledgement that completes it)
    or hands it the response that ends the request. *)
Theorem delivery_lifecycle policy limits (b b' : broker) c r id p :
  reachable policy limits b -> proper_command c -> apply c b = (r, b') ->
  b_deliveries b !! id = Some p ->
  match b_deliveries b' !! id with
  | Some p' => continues id p (events_of r) p'
  | None => closes c id p (events_of r)
  end.
Proof. intros Hb%reachable_ok. by apply apply_life. Qed.

(** ** Runs *)

(** Everything a sequence of commands emits. *)
Fixpoint emitted (cs : list command) (b : broker) : list DeliveryEvent :=
  match cs with
  | [] => []
  | c :: cs => events_of (apply c b).1 ++ emitted cs (apply c b).2
  end.

(** [id] stays pending during the whole sequence. *)
Fixpoint open_through (id : MessageId) (cs : list command) (b : broker) : Prop :=
  is_Some (b_deliveries b !! id) /\
  match cs with [] => True | c :: cs => open_through id cs (apply c b).2 end.

Lemma run_attempts id cs p (b : broker) :
  broker_ok b -> Forall proper_command cs -> b_deliveries b !! id = Some p ->
  open_through id cs b ->
  exists p', b_deliveries (run cs b) !! id = Some p' /\ pd_message p' = pd_message p /\
    pd_attempts p' = pd_attempts p + len (transmissions id (emitted cs b)).
Proof.
  intros Hb Hcs. revert b p Hb. induction Hcs as [|c cs Hc _ IH]; intros b p Hb Hp Hopen.
  { exists p. split; [done|]. split; [done|]. unfold len. cbn. lia. }
  cbn [open_through emitted] in *. destruct Hopen as [_ Hopen].
  unfold run. cbn [foldl]. fold (run cs (apply c b).2).
  destruct (apply c b) as [r b1] eqn:E. cbn [fst snd] in *.
  destruct (apply_ok c b b1 r Hb Hc E) as [Hb1 _].
  pose proof (apply_life c id p b b1 r Hb Hc E Hp) as Hlife.
  assert (is_Some (b_deliveries b1 !! id)) as [p1 Hp1] by (destruct cs; apply Hopen).
  rewrite Hp1 in Hlife. destruct (IH b1 p1 Hb1 Hp1 Hopen) as (p' & Hp' & Hm & Ha).
  exists p'. split; [done|]. rewrite transmissions_app. destruct Hlife.
  unfold len in *. rewrite length_app. split; [congruence|]. lia.
Qed.

Lemma delivery_events_transmissions sender m recipients :
  m_kind m <> MessageKind_Response ->
  len (transmissions (m_message_id m) (delivery_events sender m recipients)) = 1.
Proof.
  intros Hk. unfold delivery_events, transmissions. rewrite filter_cons, decide_True by done.
  by case_bool_decide.
Qed.

(** C16: retransmission is bounded.  From its admission, and for as long as it is
    pending, through any sequence of commands, a message is transmitted at most
    as many times as its retry policy allows: once without a policy, at most
    [max_attempts] times with one. *)
Theorem transmissions_bounded policy limits (b b' : broker) sender m now_ms events cs :
  reachable policy limits b -> proper_message m -> Forall proper_command cs ->
  m_kind m <> MessageKind_Response ->
  begin_delivery sender (Frame_Message m) now_ms b = (Ok events, b') ->
  open_through (m_message_id m) cs b' ->
  len (transmissions (m_message_id m) (events ++ emitted cs b')) <= attempts_allowed (m_retry m).
Proof.
  intros Hb%reachable_ok Hm Hcs Hk Hr Hopen.
  assert (apply (Command_BeginDelivery sender (Frame_Message m) now_ms) b = (Ok events, b')) as Happ
    by exact Hr.
  destruct (apply_ok (Command_BeginDelivery sender (Frame_Message m) now_ms) b b' _ Hb Hm Happ) as [Hb' _].
  assert (is_Some (b_deliveries b' !! m_message_id m)) as [p Hp] by (destruct cs; apply Hopen).
  destruct (run_attempts (m_message_id m) cs p b' Hb' Hcs Hp Hopen) as (p' & Hp' & Hmsg & Hat).
  apply begin_delivery_effect in Hr; [|done].
  assert (pd_message p = Frame_Message m /\ pd_attempts p = 1 /\
          exists rs, events = delivery_events sender m rs) as (Hpm & Hpa & rs & ->).
  { destruct Hr as [Ha|selected rs Ha|selected rs Ha|selected priority rs Ha];
      pose proof (admitted_fresh _ _ _ Ha); cbn [b_deliveries set_deliveries] in Hp;
      rewrite ?counted_deliveries in Hp; try congruence.
    rewrite lookup_insert_eq in Hp. injection Hp as <-. eauto. }
  rewrite transmissions_app. unfold len in *. rewrite length_app.
  pose proof (delivery_events_transmissions sender m rs Hk) as Hone. unfold len in Hone.
  destruct (ok_deliveries _ (run_ok cs b' Hb' Hcs) _ p' Hp') as [m' Hok].
  assert (m' = m) as -> by (pose proof (pok_message _ _ _ _ _ Hok); congruence).
  pose proof (pok_attempts _ _ _ _ _ Hok). lia.
Qed.

(** ** What recipients see *)

(** A message the broker hands to peers: it is well formed and carries no
    broker-owned header, it reaches each recipient once, and they are connected,
    except that a response goes to its requester. *)
Definition trusted (b : broker) (e : DeliveryEvent) : Prop :=
  match e with
  | DeliveryEvent_Deliver sender recipients f =>
      PeerId_get sender < b_next_peer b /\
      exists m, f = Frame_Message m /\ wf_message m /\ no_reserved (m_headers m) /\
        NoDup recipients /\
        (m_kind m <> MessageKind_Response -> forall r, r ∈ recipients -> is_Some (b_peers b !! r)) /\
        (m_kind m = MessageKind_Response ->
         exists requester, recipients = [requester] /\ PeerId_get requester < b_next_peer b)
  | DeliveryEvent_Result sender _ _ => PeerId_get sender < b_next_peer b
  end.

Lemma begin_trusted sender m now_ms events (b b' : broker) :
  broker_ok b -> wf_message m -> begin_step sender m now_ms b events b' ->
  Forall (trusted b) events.
Proof.
  intros Hb Hwf Hstep. assert (admitted sender m b) as Ha by by destruct Hstep.
  destruct Ha as [[sp Hs] Hh _ Hk _]. destruct (ok_peers b Hb sender sp Hs) as [_ [_ Hlt]].
  assert (Forall (trusted b) (no_recipient_result sender m)) as Hno
    by (apply Forall_singleton; exact Hlt).
  assert (forall selected, route b sender (m_destination m) (m_headers m) = Ok selected ->
            Forall (trusted b) (delivery_events sender m (list_to_set selected))) as Hd.
  { intros selected Hsel. constructor.
    - split; [exact Hlt|].
      exists m. split; [done|]. split; [done|]. split; [done|]. split; [apply bs_elems_nodup|].
      split; [|done].
      intros _ r Hr%elem_of_bs_elems%elem_of_list_to_set.
      by apply (route_connected b sender (m_destination m) (m_headers m) selected).
    - case_bool_decide; [apply Forall_singleton; exact Hlt|constructor]. }
  destruct Hstep; first [exact Hno | by apply Hd].
Qed.

Lemma tick_trusted now_ms (b : broker) : broker_ok b -> Forall (trusted b) (tick_events now_ms b).
Proof.
  intros Hb. apply Forall_app. split.
  - apply Forall_forall. intros e He. apply list_elem_of_In, in_concat in He as (l & Hl & He).
    apply list_elem_of_In, list_elem_of_fmap in Hl as ([i p] & -> & Hp). apply list_elem_of_In in He.
    apply elem_of_bt_entries in Hp. destruct (ok_deliveries b Hb i p Hp) as [m Hm].
    pose proof (pok_sender _ _ _ _ _ Hm). unfold tick_result in He. cbn [fst snd] in He.
    destruct (tick_decision _ _); try (by apply not_elem_of_nil in He);
      by apply list_elem_of_singleton in He as ->.
  - apply Forall_fmap, Forall_forall. intros x Hx. rewrite sort_by_perm in Hx.
    apply list_elem_of_In, in_concat in Hx as (l & Hl & Hx).
    apply list_elem_of_In, list_elem_of_fmap in Hl as ([i p] & -> & Hp). apply list_elem_of_In in Hx.
    apply elem_of_bt_entries in Hp. destruct (ok_deliveries b Hb i p Hp) as [m Hm].
    unfold tick_retries in Hx. cbn [snd] in Hx.
    destruct (tick_decision _ _); try (by apply not_elem_of_nil in Hx).
    apply list_elem_of_singleton in Hx as ->. split; [apply (pok_sender _ _ _ _ _ Hm)|].
    exists m. pose proof (pok_kind _ _ _ _ _ Hm). split; [apply (pok_message _ _ _ _ _ Hm)|].
    split; [apply (pok_proper _ _ _ _ _ Hm)|]. split; [apply (pok_headers _ _ _ _ _ Hm)|]. split; [apply bs_elems_nodup|]. split; [|done].
    intros _ r Hr%elem_of_bs_elems. apply (pok_recipients _ _ _ _ _ Hm). set_solver.
Qed.

Lemma apply_trusted c (b b' : broker) r :
  broker_ok b -> proper_command c -> apply c b = (r, b') -> Forall (trusted b) (events_of r).
Proof.
  intros Hb Hc Hr.
  destruct c as [creds hello|peer|peer n|peer ch fs|peer ch|peer n|s f t|peer i policy'|t|];
    try (run_apply Hr; constructor).
  - apply disconnect_with_events_effect in Hr. destruct r as [ev| |]; [|constructor..].
    destruct Hr as (_ & _ & ->). cbn [events_of]. apply Forall_forall. intros e He.
    apply list_elem_of_fmap in He as ([i p] & -> & [_ Hp]%list_elem_of_filter).
    apply elem_of_bt_entries in Hp. destruct (ok_deliveries b Hb i p Hp) as [m []]. done.
  - destruct f; try (cbn in Hr; cbv [fail] in Hr; simplify_eq; constructor).
    destruct (decide (m_kind message = MessageKind_Response)) as [Hk|Hk].
    + apply begin_response_effect in Hr; [|done]. destruct r; [|constructor..].
      destruct Hr as (Hs & Hh & _). cbn [events_of]. destruct Hs as [p request responses completed Ha].
      pose proof (fun f => forwarded_ok s message p request completed f b Hb Hh Hk (proj1 (proj2 Hc)) Ha) as Hf.
      fold responses in Hf. destruct (response_forward _ _ _ _ _) as [f|]; [|constructor].
      destruct (Hf f eq_refl) as (m & -> & ? & Hkm & _ & ?). apply Forall_singleton.
      pose proof (answers_open b s message p request Hb Ha) as Hok.
      destruct (pok_recipients _ _ _ _ _ Hok s (answers_recipient _ _ _ _ _ Ha)) as [sp Hsp].
      split; [apply (ok_peers b Hb s sp Hsp)|]. exists m.
      split; [done|]. split; [done|]. split; [done|]. split; [apply NoDup_singleton|]. split; [done|].
      intros _. eexists. split; [done|]. apply (answers_open b s message p request Hb Ha).
    + apply begin_delivery_effect in Hr; [|done]. destruct r; [|constructor..].
      destruct Hc as (? & ? & _). by eapply begin_trusted.
  - apply acknowledge_effect in Hr. destruct r; [|constructor..].
    destruct Hr as [p m acks complete _ [Hp Hm Hin Hsat]]. cbn [events_of].
    destruct complete; [|constructor]. apply Forall_singleton. cbn.
    destruct (ok_deliveries b Hb i p Hp) as [m' []]. done.
  - cbn [apply] in Hr. rewrite tick_effect in Hr by by apply broker_attempts_fit. simplify_eq.
    by apply tick_trusted.
Qed.

(** What the broker hands out can be trusted.  In a reachable state, every
    message a command delivers, retransmitted and forwarded ones included, is
    well formed, carries no [broker.], [peer.] or [auth.] header, goes to each recipient
    once, and only to connected peers, a response to its one requester; every
    outcome is for a peer that once connected. *)
Theorem deliveries_trusted policy limits (b b' : broker) c r :
  reachable policy limits b -> proper_command c -> apply c b = (r, b') ->
  Forall (trusted b) (events_of r).
Proof. intros Hb%reachable_ok. by apply apply_trusted. Qed.

End lifecycle.

(** ** Witnesses *)

Lemma delivery_lifecycle_witness :
  exists p, b_deliveries demo !! demo_id = Some p /\
    match b_deliveries (apply (Command_Tick 1100) demo).2 !! demo_id with
    | Some p' => continues demo_id p (events_of (apply (Command_Tick 1100) demo).1) p'
    | None => closes (Command_Tick 1100) demo_id p (events_of (apply (Command_Tick 1100) demo).1)
    end.
Proof.
  assert (is_Some (b_deliveries demo !! demo_id)) as [p Hp] by (vm_compute; by eexists).
  exists p. split; [exact Hp|].
  exact (delivery_lifecycle allow_all Limits_default demo _ (Command_Tick 1100) _ demo_id p
    demo_reachable I (surjective_pairing _) Hp).
Defined.

(** A retried request to peer 2: the clock retransmits it twice in three ticks. *)
Definition demo_retried : Message :=
  demo_request (Destination_Peer (PeerId_new 2)) RequestPolicy_All (RetryPolicy_Exponential 10 3) x0a.

Definition demo_clock : list command := [Command_Tick 1010; Command_Tick 1020; Command_Tick 1030].

Definition demo_begun : Broker AllowAll :=
  (begin_delivery (PeerId_new 1) (Frame_Message demo_retried) 1000 demo).2.

Lemma transmissions_bounded_witness :
  exists events,
    (begin_delivery (PeerId_new 1) (Frame_Message demo_retried) 1000 demo).1 = Ok events /\
    len (transmissions (m_message_id demo_retried) (events ++ emitted demo_clock demo_begun)) = 3 /\
    len (transmissions (m_message_id demo_retried) (events ++ emitted demo_clock demo_begun))
      <= attempts_allowed (m_retry demo_retried).
Proof.
  assert (exists events, (begin_delivery (PeerId_new 1) (Frame_Message demo_retried) 1000 demo).1 = Ok events
    /\ len (transmissions (m_message_id demo_retried) (events ++ emitted demo_clock demo_begun)) = 3)
    as (events & E & Hl).
  { eexists. split; vm_compute; reflexivity. }
  exists events. split; [exact E|]. split; [exact Hl|].
  apply (transmissions_bounded allow_all Limits_default demo demo_begun (PeerId_new 1)
    demo_retried 1000 events demo_clock demo_reachable).
  - split; [exact I|]. unfold wf_message, wf_retry. cbn. unfold wf_peer. cbn.
    repeat split; try done; unfold u32_max, u8_max, u64_max; lia.
  - unfold demo_clock. by repeat constructor.
  - discriminate.
  - unfold demo_begun. rewrite <- E. apply surjective_pairing.
  - repeat split; vm_compute; by eexists.
Defined.

Lemma deliveries_trusted_witness :
  (apply (Command_Tick 1010) demo).1 =
    Ok [DeliveryEvent_Deliver (PeerId_new 1) [PeerId_new 2; PeerId_new 3]
          (Frame_Message (demo_request (Destination_Channel demo_channel) RequestPolicy_FirstSuccess
             (RetryPolicy_Exponential 10 3) x07))] /\
  Forall (trusted demo) (events_of (apply (Command_Tick 1010) demo).1).
Proof.
  split; [by vm_compute|].
  exact (deliveries_trusted allow_all Limits_default demo _ (Command_Tick 1010) _
    demo_reachable I (surjective_pairing _)).
Defined.
