(* ===== verification/Journal.v ===== *)
(** * What the broker tells its observers

    The lifecycle events the broker queues, as a log from which its peers and the
    owners of its namespaces can be reconstructed, the window of monitor records,
    and the counters of the clock. *)

From S2P Require Export Lifecycle.

Local Open Scope N_scope.

(** ** The view of an observer *)

Record view := {
  view_peers : gset PeerId;
  view_namespaces : gmap Namespace PeerId;
}.

Definition empty_view : view := {| view_peers := ∅; view_namespaces := ∅ |}.

(** Follows one event; [None] when it contradicts the view. *)
Definition follow (v : view) (e : LifecycleEvent) : option view :=
  match e with
  | LifecycleEvent_PeerConnected p =>
      if bool_decide (p ∈ view_peers v) then None
      else Some {| view_peers := {[p]} ∪ view_peers v; view_namespaces := view_namespaces v |}
  | LifecycleEvent_PeerDisconnected p =>
      if bool_decide (p ∈ view_peers v /\ map_Forall (fun _ owner => owner <> p) (view_namespaces v))
      then Some {| view_peers := view_peers v ∖ {[p]}; view_namespaces := view_namespaces v |}
      else None
  | LifecycleEvent_NamespaceOwnerChanged n previous current =>
      if bool_decide (view_namespaces v !! n = previous /\ previous <> current)
         && match current with Some p => bool_decide (p ∈ view_peers v) | None => true end
      then Some {| view_peers := view_peers v;
                   view_namespaces := partial_alter (fun _ => current) n (view_namespaces v) |}
      else None
  end.

Definition replay (events : list LifecycleEvent) (v : view) : option view :=
  foldl (fun v e => v ← v; follow v e) (Some v) events.

Lemma replay_none events : foldl (fun v e => v ← v; follow v e) None events = None.
Proof. by induction events. Qed.

Lemma replay_cons e events v :
  replay (e :: events) v = v' ← follow v e; replay events v'.
Proof. unfold replay. cbn. destruct (follow v e); [done|apply replay_none]. Qed.

Lemma replay_app events events' v :
  replay (events ++ events') v = v' ← replay events v; replay events' v'.
Proof.
  unfold replay. rewrite foldl_app. destruct (foldl _ (Some v) events); [done|apply replay_none].
Qed.

Section journal.
Context {P : Type} `{Policy P}.

Local Abbreviation broker := (Broker P).

(** What there is to see. *)
Definition seen (b : broker) : view :=
  {| view_peers := dom (b_peers b); view_namespaces := b_namespaces b |}.

(** Releasing the namespaces of a peer, one event each. *)
Lemma replay_releases p (l : list Namespace) v :
  NoDup l -> (forall n, n ∈ l -> view_namespaces v !! n = Some p) ->
  replay ((fun n => LifecycleEvent_NamespaceOwnerChanged n (Some p) None) <$> l) v =
    Some {| view_peers := view_peers v;
            view_namespaces := foldr delete (view_namespaces v) l |}.
Proof.
  intros Hnd. revert v. induction l as [|n l IH]; intros v Hl; [by destruct v|].
  apply NoDup_cons in Hnd as [Hn Hnd]. rewrite fmap_cons, replay_cons. cbn [follow].
  rewrite bool_decide_eq_true_2 by (split; [apply Hl; by left|done]). cbn [andb mbind option_bind].
  rewrite IH; [|done|].
  - cbn. do 2 f_equal. change (partial_alter (fun _ => None) n (view_namespaces v))
      with (delete n (view_namespaces v)). clear. induction l as [|k l IH]; [done|].
    cbn. rewrite IH. apply delete_delete.
  - intros k Hk. cbn. change (partial_alter (fun _ => None) n (view_namespaces v))
      with (delete n (view_namespaces v)).
    rewrite lookup_delete_ne by (intros ->; done). apply Hl. by right.
Qed.

Lemma foldr_delete_lookup {V} (l : list Namespace) (m : gmap Namespace V) n :
  foldr delete m l !! n = if decide (n ∈ l) then None else m !! n.
Proof.
  induction l as [|k l IH]; cbn; [done|]. destruct (decide (n = k)) as [->|Hne].
  - rewrite lookup_delete_eq, decide_True by (by left). done.
  - rewrite lookup_delete_ne, IH by done. destruct (decide (n ∈ l)), (decide (n ∈ k :: l)); try done;
      set_solver.
Qed.

Lemma owned_nodup p (m : gmap Namespace PeerId) : NoDup (owned_namespaces p m).
Proof.
  unfold owned_namespaces. eapply sublist_NoDup; [apply (bt_keys_nodup m)|].
  apply fmap_sublist, sublist_filter.
Qed.

Lemma elem_of_owned p (m : gmap Namespace PeerId) n : n ∈ owned_namespaces p m <-> m !! n = Some p.
Proof.
  unfold owned_namespaces. rewrite list_elem_of_fmap. split.
  - intros ([k q] & -> & [Hq Hk%elem_of_bt_entries]%list_elem_of_filter). cbn in *. congruence.
  - intros Hn. exists (n, p). split; [done|]. apply list_elem_of_filter. split; [done|].
    by apply elem_of_bt_entries.
Qed.

Lemma released_namespaces p (m : gmap Namespace PeerId) :
  foldr delete m (owned_namespaces p m) = filter (fun e => e.2 <> p) m.
Proof.
  apply map_eq. intros n. rewrite foldr_delete_lookup, map_lookup_filter.
  destruct (decide (n ∈ owned_namespaces p m)) as [Hn|Hn]; rewrite elem_of_owned in Hn.
  - rewrite Hn. cbn. by rewrite option_guard_False by tauto.
  - destruct (m !! n) as [q|] eqn:E; [|done]. cbn. rewrite option_guard_True; [done|congruence].
Qed.

Lemma disconnected_replay p (b : broker) :
  is_Some (b_peers b !! p) ->
  exists new, b_events (disconnected p b) = b_events b ++ new /\
    replay new (seen b) = Some (seen (disconnected p b)).
Proof.
  intros Hp. exists (((fun n => LifecycleEvent_NamespaceOwnerChanged n (Some p) None)
    <$> owned_namespaces p (b_namespaces b)) ++ [LifecycleEvent_PeerDisconnected p]).
  cbn [b_events disconnected removed observe set_monitor set_deliveries set_events set_subscriptions
       set_dbus_names set_namespaces set_peers].
  unfold release_namespaces. rewrite <- app_assoc. split; [done|]. rewrite replay_app, replay_releases.
  2: apply owned_nodup. 2: intros n; apply elem_of_owned.
  cbn [mbind option_bind]. rewrite replay_cons. cbn [follow seen view_namespaces view_peers].
  rewrite released_namespaces, bool_decide_eq_true_2.
  - cbn. unfold seen. cbn. by rewrite dom_delete_L.
  - split; [by apply elem_of_dom|]. intros n q Hq%map_lookup_filter_Some. by destruct Hq.
Qed.

(** The events a command queues lead from what was to be seen to what is. *)
Lemma apply_replay c (b b' : broker) r :
  broker_ok b -> apply c b = (r, b') -> c <> Command_DrainEvents ->
  exists new, b_events b' = b_events b ++ new /\ replay new (seen b) = Some (seen b').
Proof.
  intros Hb Hr Hc. pose proof (apply_cases c b b' r Hb Hr) as Hcase.
  assert (b_events b' = b_events b -> b_peers b' = b_peers b -> b_namespaces b' = b_namespaces b ->
    exists new, b_events b' = b_events b ++ new /\ replay new (seen b) = Some (seen b')) as Hsame.
  { intros He Hp Hn. exists []. rewrite app_nil_r. split; [done|]. unfold seen. by rewrite Hp, Hn. }
  destruct c; try done;
    try (apply static_fields in Hcase as (_ & _ & _ & _ & Hp & Hn & _ & _ & He); by apply Hsame);
    (destruct Hcase as [[-> _]|Hcase]; [by apply Hsame|]).
  - destruct Hcase as [-> _]. exists [LifecycleEvent_PeerConnected (PeerId_new (b_next_peer b))].
    split; [done|]. rewrite replay_cons. cbn [follow].
    rewrite bool_decide_eq_false_2.
    + cbn. unfold seen. cbn. by rewrite dom_insert_L.
    + cbn. rewrite not_elem_of_dom. by apply fresh_peer.
  - apply disconnect_with_events_effect in Hr. destruct r as [events|e|]; [|by destruct Hr as [-> _]; apply Hsame|done].
    destruct Hr as (Hp & -> & _). apply disconnected_replay, Hp.
  - destruct Hcase as (-> & Hn & Hp).
    exists [LifecycleEvent_NamespaceOwnerChanged namespace None (Some peer)].
    split; [done|]. rewrite replay_cons. cbn [follow].
    rewrite bool_decide_eq_true_2 by done. rewrite bool_decide_eq_true_2; [done|]. by apply elem_of_dom.
  - subst b'. by apply Hsame.
  - subst b'. by apply Hsame.
  - destruct Hcase as [-> _]. by apply Hsame.
Qed.

(** ** Everything published *)

(** The events drained while [cs] run, and those still queued at the end. *)
Fixpoint published (cs : list command) (b : broker) : list LifecycleEvent :=
  match cs with
  | [] => b_events b
  | c :: cs =>
      match c with Command_DrainEvents => b_events b | _ => [] end ++ published cs (apply c b).2
  end.

Lemma published_replay cs (b : broker) v :
  broker_ok b -> Forall proper_command cs -> replay (b_events b) v = Some (seen b) ->
  replay (published cs b) v = Some (seen (run cs b)).
Proof.
  intros Hb Hcs. revert b v Hb. induction Hcs as [|c cs Hc _ IH]; intros b v Hb Hv; [done|].
  cbn [published]. unfold run. cbn [foldl]. fold (run cs (apply c b).2).
  destruct (apply c b) as [r b'] eqn:E. cbn [snd].
  destruct (apply_ok c b b' r Hb Hc E) as [Hb' _].
  assert (c = Command_DrainEvents \/ c <> Command_DrainEvents) as [->|Hne] by (destruct c; auto).
  - cbn in E. cbv [mbind St_bind get_state modify mret St_ret drain_events] in E. cbn in E. simplify_eq.
    rewrite replay_app, Hv. cbn [mbind option_bind]. by apply IH.
  - destruct (apply_replay c b b' r Hb E Hne) as (new & He & Hnew).
    destruct c; try done; cbn [app]; (apply IH; [done|]); rewrite He, replay_app, Hv; exact Hnew.
Qed.

(** C15: the lifecycle events tell the truth.  Whatever commands run, failing ones
    included, and whenever the events are drained, the events published so far,
    in order, never contradict each other - no peer connects twice or leaves while
    a namespace is still its own, every change of owner names the previous one -
    and following them from nothing gives exactly the connected peers and the
    owner of every namespace. *)
Theorem events_reconstruct_broker policy limits cs :
  Forall proper_command cs ->
  replay (published cs (with_limits policy limits)) empty_view =
    Some (seen (run cs (with_limits policy limits))).
Proof.
  intros Hcs. apply published_replay; [apply new_ok|done|]. unfold seen. cbn. by rewrite dom_empty_L.
Qed.

(** ** The monitor window *)

(** The last records, at most [MAX_MONITOR_EVENTS] of all that were made, their
    numbers without a gap up to the last one made. *)
Definition window_ok (records : list MonitorEvent) (next : N) : Prop :=
  0 < next /\
  (next < u64_max ->
   len records = N.min MAX_MONITOR_EVENTS (next - 1) /\
   forall i r, records !! i = Some r -> monitor_sequence r + len records = next + N.of_nat i).

Lemma len_tail {A} (l : list A) : len (tail l) = len l - 1.
Proof. unfold len. destruct l; cbn; lia. Qed.

Lemma observe_window k p t i n (b : broker) :
  window_ok (b_monitor_events b) (b_next_monitor_sequence b) ->
  window_ok (b_monitor_events (observe k p t i n b)) (b_next_monitor_sequence (observe k p t i n b)).
Proof.
  intros [Hpos Hw]. assert (0 < u64_max) as Hu by done. cbn. unfold saturating_add. split; [lia|]. intros Hlt.
  destruct Hw as [Hlen Hseq]; [lia|].
  assert (N.min u64_max (b_next_monitor_sequence b + 1) = b_next_monitor_sequence b + 1) as -> by lia.
  set (e := {| monitor_sequence := b_next_monitor_sequence b; monitor_kind := k; monitor_peer := p;
               monitor_target := t; monitor_message_id := i; monitor_payload_bytes := n |}).
  assert (forall l x, len (l ++ [x : MonitorEvent]) = len l + 1) as Hsnoc
    by (intros; rewrite len_app; reflexivity).
  assert (MAX_MONITOR_EVENTS = 1024) as Hmax by done.
  destruct (N.eqb_spec (len (b_monitor_events b)) MAX_MONITOR_EVENTS) as [Hfull|Hroom]; rewrite Hsnoc.
  - rewrite len_tail. split; [lia|]. intros j r [Hj|[Hge Hj]]%lookup_app_Some.
    + rewrite lookup_tail in Hj. specialize (Hseq (S j) r Hj). lia.
    + apply list_lookup_singleton_Some in Hj as [Hj <-]. cbn.
      pose proof (len_tail (b_monitor_events b)) as Ht. unfold len in *. lia.
  - split; [lia|]. intros j r [Hj|[Hge Hj]]%lookup_app_Some.
    + specialize (Hseq j r Hj). lia.
    + apply list_lookup_singleton_Some in Hj as [Hj <-]. cbn. unfold len in *. lia.
Qed.

Definition watched (b : broker) : Prop := window_ok (b_monitor_events b) (b_next_monitor_sequence b).

Lemma counted_watched sender m recipients (b : broker) : watched b -> watched (counted sender m recipients b).
Proof.
  intros Hb. unfold counted. set (b1 := observe _ _ _ _ _ _).
  assert (watched b1) as H1 by by apply observe_window. by destruct (_ && _).
Qed.

Lemma begin_step_watched sender m now_ms events (b b' : broker) :
  begin_step sender m now_ms b events b' -> watched b -> watched b'.
Proof. destruct 1; [done|..]; apply counted_watched. Qed.

Lemma tick_fold_watched now_ms ids (b : broker) : watched b -> watched (tick_fold now_ms ids b).
Proof.
  unfold tick_fold. revert b. induction ids as [|id ids IH]; intros b Hb; [done|]. cbn [foldl].
  apply IH. unfold tick_visit, tick_state. destruct (b_deliveries b !! id); [|done].
  destruct (tick_decision _ _); [done|by apply observe_window|done|by apply observe_window].
Qed.

Lemma apply_watched c (b b' : broker) r : broker_ok b -> apply c b = (r, b') -> watched b -> watched b'.
Proof.
  intros Hb Hr Hw. pose proof (apply_cases c b b' r Hb Hr) as Hc.
  destruct c as [creds hello|peer|peer n|peer ch fs|peer ch|peer n|s f t|peer i policy|t|].
  - destruct Hc as [[-> _]|[-> _]]; [done|]. by apply observe_window.
  - destruct Hc as [[-> _]| ->]; [done|]. by apply (observe_window MonitorKind_Disconnected peer None None 0 b).
  - destruct Hc as [[-> _]|[-> _]]; [done|]. by apply (observe_window _ _ _ _ _ b).
  - destruct Hc as [[-> _]| ->]; [done|]. by apply (observe_window _ _ _ _ _ b).
  - by destruct Hc as [[-> _]| ->].
  - by destruct Hc as [[-> _]|[-> _]].
  - destruct f; try (cbn in Hr; cbv [fail] in Hr; by simplify_eq).
    destruct (decide (m_kind message = MessageKind_Response)) as [Hk|Hk].
    + apply begin_response_effect in Hr; [|done]. destruct r; [|by subst|done].
      destruct Hr as (Hs & _). by destruct Hs.
    + apply begin_delivery_effect in Hr; [|done]. destruct r; [by eapply begin_step_watched| |done].
      destruct Hr as [->|(selected & _ & -> & _)]; [done|by apply counted_watched].
  - apply acknowledge_effect in Hr. destruct r; [|by destruct Hr as [-> _]|done].
    destruct Hr. by apply (observe_window _ _ _ _ _ b).
  - cbn [apply] in Hr. rewrite tick_effect in Hr by by apply broker_attempts_fit.
    simplify_eq. by apply tick_fold_watched.
  - by subst b'.
Qed.

Lemma reachable_watched policy limits (b : broker) : reachable policy limits b -> watched b.
Proof.
  induction 1 as [|b c r b' Hb IH Hc Hr].
  - split; [done|]. intros _. split; [done|]. by intros i r.
  - eapply apply_watched; [by eapply reachable_ok|done|done].
Qed.

(** Monitors see the last records without a gap.  A peer the policy lets
    monitor, and no other, is given the last 1024 records of the broker, or all of
    them while there are fewer, numbered one after the other up to the last one
    made: a monitor that remembers the last number it has seen knows exactly how
    many records it has missed. *)
Theorem monitor_window policy limits (b : broker) peer r :
  reachable policy limits b -> monitor_events b peer = r ->
  match r with
  | Ok records =>
      permitted b peer Action_Monitor /\
      (b_next_monitor_sequence b < u64_max ->
       len records = N.min MAX_MONITOR_EVENTS (b_next_monitor_sequence b - 1) /\
       forall i e, records !! i = Some e ->
         monitor_sequence e + len records = b_next_monitor_sequence b + N.of_nat i)
  | Err _ => ~ permitted b peer Action_Monitor
  | Panic => False
  end.
Proof.
  intros Hb%reachable_watched <-. unfold monitor_events, mbind, result_bind.
  pose proof (authorize_cases b peer Action_Monitor) as Ha.
  destruct (authorize b peer Action_Monitor) as [u|e|]; [|by destruct Ha|done].
  split; [done|]. apply Hb.
Qed.

(** ** The counters of the clock *)

Definition timeout_result (e : DeliveryEvent) : Prop :=
  match e with DeliveryEvent_Result _ _ DeliveryOutcome_Timeout => True | _ => False end.

#[local] Instance timeout_result_dec e : Decision (timeout_result e).
Proof. destruct e as [|? ? []]; cbn; apply _. Defined.

(** Timeouts reported, and retransmissions made, by a list of commands. *)
Definition timeouts_reported (events : list DeliveryEvent) : N := len (filter timeout_result events).

Definition delivered_by_tick (e : DeliveryEvent) : Prop :=
  match e with DeliveryEvent_Deliver _ _ _ => True | _ => False end.

#[local] Instance delivered_by_tick_dec e : Decision (delivered_by_tick e).
Proof. destruct e; cbn; apply _. Defined.

(** The events of a command that are retransmissions of the clock. *)
Definition retransmitted (c : command) (events : list DeliveryEvent) : N :=
  match c with Command_Tick _ => len (filter delivered_by_tick events) | _ => 0 end.

Fixpoint retransmissions (cs : list command) (b : broker) : N :=
  match cs with
  | [] => 0
  | c :: cs => retransmitted c (events_of (apply c b).1) + retransmissions cs (apply c b).2
  end.

Lemma timeouts_reported_app l k : timeouts_reported (l ++ k) = timeouts_reported l + timeouts_reported k.
Proof. unfold timeouts_reported. by rewrite filter_app, len_app. Qed.

Lemma timeouts_reported_none l : Forall (fun e => ~ timeout_result e) l -> timeouts_reported l = 0.
Proof.
  unfold timeouts_reported. induction 1 as [|e l He _ IH]; [done|]. by rewrite filter_cons, decide_False.
Qed.

(** The counters after a command, from the events it reports. *)
Definition counters_after (b b' : broker) (timed_out retried : N) : Prop :=
  timeouts (b_metrics b') = N.min u64_max (timeouts (b_metrics b) + timed_out) /\
  retries (b_metrics b') = N.min u64_max (retries (b_metrics b) + retried).

Definition counters_fit (b : broker) : Prop :=
  timeouts (b_metrics b) <= u64_max /\ retries (b_metrics b) <= u64_max.

Lemma counters_same (b b' : broker) :
  timeouts (b_metrics b') = timeouts (b_metrics b) -> retries (b_metrics b') = retries (b_metrics b) ->
  counters_fit b -> counters_after b b' 0 0.
Proof. intros Ht Hr [? ?]. unfold counters_after. rewrite Ht, Hr. lia. Qed.

Lemma counters_trans (b b1 b' : broker) t r t' r' :
  counters_after b b1 t r -> counters_after b1 b' t' r' -> counters_after b b' (t + t') (r + r').
Proof. unfold counters_after. intros [Ht Hr] [Ht' Hr']. rewrite Ht', Hr', Ht, Hr. lia. Qed.

Lemma counters_after_fit (b b' : broker) t r : counters_after b b' t r -> counters_fit b'.
Proof. intros [Ht Hr]. unfold counters_fit. rewrite Ht, Hr. lia. Qed.

Lemma tick_state_counters now_ms id p (b : broker) :
  counters_fit b ->
  counters_after b (tick_state now_ms id p b)
    (timeouts_reported (tick_result now_ms (id, p))) (len (tick_retries now_ms (id, p))).
Proof.
  intros Hfit. unfold tick_state, tick_result, tick_retries. cbn [fst snd].
  assert (forall o, timeouts_reported [DeliveryEvent_Result (pd_sender p) id o] =
    match o with DeliveryOutcome_Timeout => 1 | _ => 0 end) as Hone by by intros [].
  destruct (tick_decision now_ms p); rewrite ?Hone; try (by apply counters_same);
    destruct Hfit; unfold counters_after, timeouts_reported, len; cbn; unfold saturating_add; lia.
Qed.

Lemma tick_fold_counters now_ms l (b : broker) :
  NoDup l.*1 -> (forall id p, (id, p) ∈ l -> b_deliveries b !! id = Some p) -> counters_fit b ->
  counters_after b (tick_fold now_ms l.*1 b)
    (timeouts_reported (concat (tick_result now_ms <$> l))) (len (concat (tick_retries now_ms <$> l))).
Proof.
  revert b. induction l as [|[id p] l IH]; intros b Hnd Hl Hfit; [by apply counters_same|].
  cbn in Hnd. apply NoDup_cons in Hnd as [Hid Hnd].
  pose proof (Hl id p ltac:(left)) as Hp.
  rewrite !fmap_cons. cbn [concat]. rewrite timeouts_reported_app, len_app.
  change (tick_fold now_ms ((id, p).1 :: l.*1) b) with (tick_fold now_ms l.*1 (tick_visit now_ms b id)).
  unfold tick_visit. rewrite Hp. pose proof (tick_state_counters now_ms id p b Hfit) as Hs.
  eapply counters_trans; [exact Hs|]. apply IH; [done| |by eapply counters_after_fit].
  intros j q Hj. assert (j <> id) as Hne.
  { intros ->. apply Hid. by apply (list_elem_of_fmap_2 fst) in Hj. }
  rewrite (tick_state_deliveries now_ms id p b Hp), lookup_partial_alter_ne by done. apply Hl. by right.
Qed.

Lemma filter_none {E} (Q : E -> Prop) `{forall x, Decision (Q x)} l :
  Forall (fun e => ~ Q e) l -> filter Q l = [].
Proof. induction 1 as [|e l He _ IH]; [done|]. by rewrite filter_cons, decide_False. Qed.

Lemma filter_all {E} (Q : E -> Prop) `{forall x, Decision (Q x)} l : Forall Q l -> filter Q l = l.
Proof. induction 1 as [|e l He _ IH]; [done|]. by rewrite filter_cons, decide_True, IH. Qed.

Lemma tick_events_counts now_ms (b : broker) :
  timeouts_reported (tick_events now_ms b) =
    timeouts_reported (concat (tick_result now_ms <$> bt_entries (b_deliveries b))) /\
  len (filter delivered_by_tick (tick_events now_ms b)) =
    len (concat (tick_retries now_ms <$> bt_entries (b_deliveries b))).
Proof.
  assert (Forall (fun e => ~ delivered_by_tick e)
    (concat (tick_result now_ms <$> bt_entries (b_deliveries b)))) as Hr.
  { apply Forall_concat, Forall_fmap, Forall_true. intros e. unfold compose, tick_result.
    destruct (tick_decision _ _); repeat constructor; by intros ?. }
  assert (Forall delivered_by_tick
    (sort_by by_priority_desc (concat (tick_retries now_ms <$> bt_entries (b_deliveries b)))).*2) as Hd.
  { apply Forall_fmap. rewrite sort_by_perm. apply Forall_concat, Forall_fmap, Forall_true.
    intros e. unfold compose, tick_retries. destruct (tick_decision _ _); repeat constructor. }
  unfold tick_events. split.
  - rewrite timeouts_reported_app, (timeouts_reported_none (fmap snd _)); [lia|].
    eapply Forall_impl; [exact Hd|]. intros [] Hx Ht; by cbn in *.
  - rewrite filter_app, (filter_none _ _ Hr), (filter_all _ _ Hd). cbn [app].
    unfold len. rewrite length_fmap. by rewrite sort_by_perm.
Qed.

Lemma counted_counters sender m recipients (b : broker) :
  timeouts (b_metrics (counted sender m recipients b)) = timeouts (b_metrics b) /\
  retries (b_metrics (counted sender m recipients b)) = retries (b_metrics b).
Proof. unfold counted. by destruct (_ && _). Qed.

Lemma begin_step_counters sender m now_ms events (b b' : broker) :
  begin_step sender m now_ms b events b' ->
  timeouts_reported events = 0 /\
  timeouts (b_metrics b') = timeouts (b_metrics b) /\ retries (b_metrics b') = retries (b_metrics b).
Proof.
  assert (forall rs, timeouts_reported (delivery_events sender m rs) = 0) as Hd.
  { intros rs. apply timeouts_reported_none. unfold delivery_events.
    case_bool_decide; repeat constructor; by intros ?. }
  destruct 1; (split; [done|]); [done|apply counted_counters..].
Qed.

(** Each command moves the counters by what it reports. *)
Lemma apply_counters c (b b' : broker) r :
  broker_ok b -> apply c b = (r, b') -> counters_fit b ->
  counters_after b b' (timeouts_reported (events_of r)) (retransmitted c (events_of r)).
Proof.
  intros Hb Hr Hfit.
  assert (forall (x : broker) l, l = events_of r -> timeouts_reported l = 0 -> b_metrics x = b_metrics b ->
    match c with Command_Tick _ => False | _ => True end ->
    counters_after b x (timeouts_reported (events_of r)) (retransmitted c (events_of r))) as Hsame.
  { intros x l <- -> Hx Hc. assert (retransmitted c l = 0) as -> by (by destruct c).
    apply counters_same; by rewrite ?Hx. }
  destruct c as [creds hello|peer|peer n|peer ch fs|peer ch|peer n|s f t|peer i policy|t|].
  - run_apply Hr; apply connect_session_effect in E; [destruct E as [-> _]|subst|done]; by eapply Hsame.
  - apply disconnect_with_events_effect in Hr. destruct r as [events|e|]; [|destruct Hr as [-> _]|done].
    + destruct Hr as (_ & -> & ->). eapply Hsame; [done| |done|done].
      apply timeouts_reported_none, Forall_fmap, Forall_true. by intros e ?.
    + by eapply Hsame.
  - run_apply Hr; apply claim_effect in E; [destruct E as [-> _]|destruct E as [-> _]|done]; by eapply Hsame.
  - run_apply Hr; apply subscribe_effect in E; [destruct E as [-> _]|destruct E as [-> _]|done]; by eapply Hsame.
  - run_apply Hr; apply unsubscribe_effect in E; [destruct E as [-> _]|destruct E as [-> _]|done]; by eapply Hsame.
  - run_apply Hr; apply register_dbus_name_effect in E; [destruct E as [-> _]|destruct E as [-> _]|done]; by eapply Hsame.
  - destruct f; try (cbn in Hr; cbv [fail] in Hr; simplify_eq; by eapply Hsame).
    destruct (decide (m_kind message = MessageKind_Response)) as [Hk|Hk].
    + apply begin_response_effect in Hr; [|done]. destruct r; [|subst; by eapply Hsame|done].
      destruct Hr as (Hs & _). destruct Hs. eapply Hsame; [done| |done|done].
      apply timeouts_reported_none. destruct (response_forward _ _ _ _ _); repeat constructor; by intros ?.
    + apply begin_delivery_effect in Hr; [|done]. cbn [retransmitted].
      assert (forall x l, timeouts_reported l = 0 -> timeouts (b_metrics x) = timeouts (b_metrics b) ->
        retries (b_metrics x) = retries (b_metrics b) -> counters_after b x (timeouts_reported l) 0) as Hc
        by (intros x l -> ? ?; by apply counters_same).
      destruct r as [events|e|]; [| |done].
      * destruct (begin_step_counters _ _ _ _ _ _ Hr) as (? & ? & ?). by apply Hc.
      * destruct Hr as [->|(selected & _ & -> & _)]; [by apply Hc|]. apply Hc; [done|apply counted_counters..].
  - apply acknowledge_effect in Hr. destruct r as [events|e|]; [|destruct Hr as [-> _]; by eapply Hsame|done].
    destruct Hr. eapply Hsame; [done| |done|done]. apply timeouts_reported_none.
    destruct complete; constructor; [|constructor]. destruct (m_ack_policy m); by intros ?.
  - cbn [apply] in Hr. rewrite tick_effect in Hr by by apply broker_attempts_fit. simplify_eq.
    cbn [events_of retransmitted]. destruct (tick_events_counts t b) as [-> ->].
    apply (tick_fold_counters t (bt_entries (b_deliveries b))); [apply bt_keys_nodup| |done].
    intros id p. apply elem_of_bt_entries.
  - cbn in Hr. cbv [mbind St_bind get_state modify mret St_ret drain_events] in Hr. cbn in Hr. simplify_eq.
    by eapply Hsame.
Qed.

Lemma run_counters cs (b : broker) :
  broker_ok b -> Forall proper_command cs -> counters_fit b ->
  counters_after b (run cs b) (timeouts_reported (emitted cs b)) (retransmissions cs b).
Proof.
  intros Hb Hcs. revert b Hb. induction Hcs as [|c cs Hc _ IH]; intros b Hb Hfit; [by apply counters_same|].
  cbn [emitted retransmissions]. unfold run. cbn [foldl]. fold (run cs (apply c b).2).
  destruct (apply c b) as [r b'] eqn:E. cbn [fst snd]. destruct (apply_ok c b b' r Hb Hc E) as [Hb' _].
  pose proof (apply_counters c b b' r Hb E Hfit) as Ha. rewrite timeouts_reported_app.
  eapply counters_trans; [exact Ha|]. apply IH; [done|]. by eapply counters_after_fit.
Qed.

(** The counters of the clock are exact.  Whatever commands run, failing ones
    included, the metric of timeouts is the number of TIMEOUT outcomes reported to
    senders and the metric of retries the number of retransmissions the clock has
    handed out, until either saturates at its width. *)
Theorem clock_counters_exact policy limits cs :
  Forall proper_command cs ->
  let start := with_limits policy limits in
  let now := totals (metrics (run cs start)) in
  timeouts now = N.min u64_max (timeouts_reported (emitted cs start)) /\
  retries now = N.min u64_max (retransmissions cs start).
Proof.
  intros Hcs. apply (run_counters cs (with_limits policy limits)); [apply new_ok|done|].
  by split.
Qed.

End journal.

(** ** Witnesses *)

(** The demonstration commands; the events are drained, the clock retries and
    times out the pending request, and the owner of the namespace leaves. *)
Definition demo_story : list command :=
  demo_commands ++ [Command_DrainEvents; Command_Tick 1010; Command_Tick 1030; Command_Tick 5000;
                    Command_Disconnect (PeerId_new 2)].

Lemma demo_story_proper : Forall proper_command demo_story.
Proof. apply Forall_app. split; [apply demo_proper|]. repeat constructor. Qed.

Lemma events_reconstruct_broker_witness :
  replay (published demo_story (with_limits allow_all Limits_default)) empty_view =
    Some {| view_peers := {[ PeerId_new 1; PeerId_new 3 ]}; view_namespaces := ∅ |}.
Proof.
  assert (seen (run demo_story (with_limits allow_all Limits_default)) =
    {| view_peers := {[ PeerId_new 1; PeerId_new 3 ]}; view_namespaces := ∅ |}) as Hs
    by (vm_compute; reflexivity).
  rewrite <- Hs. exact (events_reconstruct_broker allow_all Limits_default demo_story demo_story_proper).
Defined.

Lemma monitor_window_witness :
  exists records, monitor_events demo (PeerId_new 1) = Ok records /\
    permitted demo (PeerId_new 1) Action_Monitor /\
    len records = N.min MAX_MONITOR_EVENTS (b_next_monitor_sequence demo - 1).
Proof.
  pose proof (monitor_window allow_all Limits_default demo (PeerId_new 1) _ demo_reachable eq_refl) as Hw.
  assert (is_ok (monitor_events demo (PeerId_new 1)) = true) as Hok by (vm_compute; reflexivity).
  assert (b_next_monitor_sequence demo < u64_max) as Hlt by (vm_compute; reflexivity).
  destruct (monitor_events demo (PeerId_new 1)) as [records|e|]; [|discriminate Hok|discriminate Hok].
  exists records. split; [reflexivity|]. split; [exact (proj1 Hw)|exact (proj1 (proj2 Hw Hlt))].
Defined.

Lemma clock_counters_exact_witness :
  let start := with_limits allow_all Limits_default in
  timeouts_reported (emitted demo_story start) = 1 /\ retransmissions demo_story start = 2 /\
  timeouts (totals (metrics (run demo_story start))) = 1 /\
  retries (totals (metrics (run demo_story start))) = 2.
Proof.
  intros start.
  assert (timeouts_reported (emitted demo_story start) = 1) as Ht by (vm_compute; reflexivity).
  assert (retransmissions demo_story start = 2) as Hr by (vm_compute; reflexivity).
  destruct (clock_counters_exact allow_all Limits_default demo_story demo_story_proper) as [H1 H2].
  fold start in H1, H2. rewrite Ht in H1. rewrite Hr in H2.
  split; [exact Ht|]. split; [exact Hr|]. split; [exact H1|exact H2].
Defined.
