(* ===== verification/Transport.v ===== *)
(** * The native transport (crates/bus-transport-unix/src/lib.rs)

    Connections and listeners over Unix sockets.  An operation is a tree of
    system calls: [Sys c k] asks the kernel for [c] and continues with its
    reply.  Dropping an [OwnedFd] is the call [Call_close], so who owns a
    descriptor can be followed through every path.  The buffers of the unsafe
    code are byte lists; a read outside of one is an outcome of its own.
    Additions that can overflow are those of the build: with overflow checks
    (the debug profile) they panic, without (the release profile of Cargo.toml)
    they wrap.  Sizes and layouts are those of 64-bit Linux, integers in memory
    are little endian. *)

From S2P Require Export Strs.

Local Open Scope N_scope.

(** ** Constants *)

Definition AF_UNIX : Z := 1.
Definition SOCK_SEQPACKET : Z := 5.
Definition SOCK_CLOEXEC : Z := 0x80000.
Definition MSG_NOSIGNAL : Z := 0x4000.
Definition MSG_TRUNC : Z := 0x20.
Definition MSG_CMSG_CLOEXEC : Z := 0x40000000.
Definition MSG_CTRUNC : Z := 0x8.
Definition SOL_SOCKET : Z := 1.
Definition SO_PEERCRED : Z := 17.
Definition SHUT_RDWR : Z := 2.
Definition SUN_PATH_CAPACITY : N := 108.
Definition MAX_FILE_DESCRIPTORS : N := 16.
Definition SCM_RIGHTS : Z := 1.
Definition SOL_SOCKET_CMSG : Z := 1.

(** [size_of::<i32>()], [size_of::<ControlMessageHeader>()],
    [align_of::<usize>()] and [size_of::<UCred>()]. *)
Definition size_of_i32 : N := 4.
Definition size_of_control_header : N := 16.
Definition align_of_usize : N := 8.
Definition size_of_ucred : N := 12.

Definition cmsg_align (length : N) : N :=
  N.ldiff (length + align_of_usize - 1) (align_of_usize - 1).
Definition cmsg_space (length : N) : N := cmsg_align size_of_control_header + cmsg_align length.
Definition cmsg_len (length : N) : N := size_of_control_header + length.

(** An addition of [usize]s: [None] when it panics. *)
Definition add_usize (overflow_checks : bool) (a b : N) : option N :=
  if a + b <=? usize_max then Some (a + b)
  else if overflow_checks then None else Some ((a + b) mod 2 ^ 64).

(** [cmsg_align] on a length that is not known to be small; the subtraction
    wraps only where the addition has. *)
Definition cmsg_align_usize (overflow_checks : bool) (length : N) : option N :=
  sum ← add_usize overflow_checks length align_of_usize;
  Some (N.ldiff ((sum + usize_max) mod 2 ^ 64) (align_of_usize - 1)).

(** ** Errors *)

Inductive ErrorKind :=
| ErrorKind_InvalidInput | ErrorKind_InvalidData | ErrorKind_WriteZero | ErrorKind_AlreadyExists.

(** [io::Error]: of the operating system, or made by the transport. *)
Inductive IoError :=
| IoError_Os (errno : Z)
| IoError_New (kind : ErrorKind) (message : bytes).

Local Abbreviation io := (result IoError).

Definition invalid_input {A} (message : string) : io A :=
  Err (IoError_New ErrorKind_InvalidInput (bs message)).
Definition invalid_data {A} (message : string) : io A :=
  Err (IoError_New ErrorKind_InvalidData (bs message)).

(** ** System calls *)

Abbreviation fd := Z (only parsing).

(** The address family is constant; the path is NUL padded to its capacity. *)
Record SockAddrUn := {
  sun_family : Z;
  sun_path : bytes;
}.

Inductive call :=
| Call_socket (domain socket_type protocol : Z)
| Call_connect (socket : fd) (address : SockAddrUn) (length : N)
| Call_bind (socket : fd) (address : SockAddrUn) (length : N)
| Call_listen (socket : fd) (backlog : Z)
| Call_accept4 (socket : fd) (flags : Z)
| Call_send (socket : fd) (buffer : bytes) (flags : Z)
| Call_sendmsg (socket : fd) (buffer control : bytes) (flags : Z)
| Call_recvmsg (socket : fd) (size control_size : N) (flags : Z)
| Call_getsockopt (socket : fd) (level option_name : Z) (size : N)
| Call_shutdown (socket : fd) (how : Z)
| Call_dup (socket : fd)
| Call_close (descriptor : fd)
| Call_create_dir_all (path : bytes)
| Call_exists (path : bytes).

(** What a call returns, and [errno]. *)
Record returned := { returned_value : Z; returned_errno : Z }.

(** What [recvmsg] returns and writes: the two buffers, the length of the
    control data and the flags; and what it did besides, which the process can
    only learn from the control data: the descriptors it opened in it. *)
Record received := {
  received_result : returned;
  received_packet : bytes;
  received_control : bytes;
  received_control_length : N;
  received_flags : Z;
  received_installed : list fd;
}.

Record UCred := { ucred_pid : Z; ucred_uid : N; ucred_gid : N }.

Record credentials_reply := {
  credentials_result : returned;
  credentials_record : UCred;
  credentials_length : N;
}.

Definition reply_of (c : call) : Type :=
  match c with
  | Call_recvmsg _ _ _ _ => received
  | Call_getsockopt _ _ _ _ => credentials_reply
  | Call_close _ => unit
  | Call_create_dir_all _ => io ()
  | Call_exists _ => bool
  | _ => returned
  end.

(** An operation: its result, or a system call and what follows the reply. *)
Inductive sys (A : Type) : Type :=
| Return (a : A)
| Sys (c : call) (k : reply_of c -> sys A).
Arguments Return {A} _.
Arguments Sys {A} _ _.

#[export] Instance sys_ret : MRet sys := fun A a => Return a.
#[export] Instance sys_bind : MBind sys := fun A B f =>
  fix bind (m : sys A) : sys B :=
    match m with Return a => f a | Sys c k => Sys c (fun r => bind (k r)) end.

Definition ask (c : call) : sys (reply_of c) := Sys c Return.

(** Dropping owned descriptors, in order. *)
Definition close_all (descriptors : list fd) : sys () :=
  foldr (fun d k => Sys (Call_close d) (fun _ => k)) (Return tt) descriptors.

Definition failed (r : returned) : bool := (returned_value r <? 0)%Z.
Definition last_os_error {A} (r : returned) : io A := Err (IoError_Os (returned_errno r)).

(** ** Addresses and packets *)

Definition c_path (source : bytes) : bytes :=
  source ++ replicate (N.to_nat SUN_PATH_CAPACITY - length source) x00.

(** [offset_of!(SockAddrUn, path)] is the size of the family. *)
Definition socket_address (source : bytes) : io (SockAddrUn * N) :=
  if bool_decide (source = []) || (SUN_PATH_CAPACITY <=? len source) || existsb (byte_eqb x00) source
  then invalid_input "socket path must be non-empty, NUL-free, and shorter than 108 bytes"
  else Ok ({| sun_family := AF_UNIX; sun_path := c_path source |}, 2 + len source + 1).

Definition validate_packet (packet : bytes) : io () :=
  match packet with
  | [] => invalid_input "native packets must not be empty"
  | _ => Ok ()
  end.

Definition check_packet_write (written : returned) (expected : N) : io () :=
  if failed written then last_os_error written
  else if negb (Z.to_N (returned_value written) =? expected)
  then Err (IoError_New ErrorKind_WriteZero (bs "native packet was not sent completely"))
  else Ok ().

(** ** Control messages *)

(** Integers in memory: little endian, [i32] in two's complement. *)
Definition to_le (w : nat) (n : N) : bytes := rev (to_be w n).
Definition from_le (l : bytes) : N := from_be (rev l).
Definition to_i32 (n : Z) : bytes := to_le 4 (Z.to_N (n mod 2 ^ 32)).
Definition from_i32 (l : bytes) : Z :=
  let n := Z.of_N (from_le l) in if (n <? 2 ^ 31)%Z then n else (n - 2 ^ 32)%Z.

(** Accesses through pointers; [None] outside the buffer. *)
Definition read_at (offset width : N) (buffer : bytes) : option bytes :=
  if offset + width <=? len buffer
  then Some (take (N.to_nat width) (drop (N.to_nat offset) buffer)) else None.
Definition write_at (offset : N) (data buffer : bytes) : option bytes :=
  if offset + len data <=? len buffer
  then Some (take (N.to_nat offset) buffer ++ data ++ drop (N.to_nat (offset + len data)) buffer)
  else None.

(** The descriptors after the header, one [i32] each. *)
Fixpoint write_descriptors (offset : N) (descriptors : list fd) (control : bytes) : option bytes :=
  match descriptors with
  | [] => Some control
  | d :: descriptors =>
      control ← write_at offset (to_i32 d) control;
      write_descriptors (offset + size_of_i32) descriptors control
  end.

(** The control buffer of [send_packet_with_fds]. *)
Definition control_message (descriptors : list fd) : option bytes :=
  let size := size_of_i32 * len descriptors in
  let control := replicate (N.to_nat (cmsg_space size)) x00 in
  control ← write_at 0 (to_le 8 (cmsg_len size)) control;
  control ← write_at 8 (to_i32 SOL_SOCKET_CMSG) control;
  control ← write_at 12 (to_i32 SCM_RIGHTS) control;
  write_descriptors (cmsg_align size_of_control_header) descriptors control.

Fixpoint read_descriptors (count : nat) (offset : N) (control : bytes) : option (list fd) :=
  match count with
  | O => Some []
  | S count =>
      d ← read_at offset size_of_i32 control;
      ds ← read_descriptors count (offset + size_of_i32) control;
      Some (from_i32 d :: ds)
  end.

(** The outcomes of [parse_descriptors]: the owned descriptors; an error, with
    the descriptors dropped by it; the panic of an overflowing addition, with the
    descriptors dropped by it; a read outside the buffer, after which the
    behaviour is undefined.  [Unfinished] is that of a loop with too little
    fuel. *)
Inductive parse_outcome :=
| Parsed (descriptors : list fd)
| Malformed (message : bytes) (dropped : list fd)
| Overflow (dropped : list fd)
| Out_of_bounds
| Unfinished.

Fixpoint parse_loop (overflow_checks : bool) (fuel : nat) (control : bytes)
    (control_length offset : N) (descriptors : list fd) : parse_outcome :=
  match fuel with
  | O => Unfinished
  | S fuel =>
      match add_usize overflow_checks offset size_of_control_header with
      | None => Overflow descriptors
      | Some header_end =>
      if control_length <? header_end then Parsed descriptors
      else
        match read_at offset 8 control, read_at (offset + 8) 4 control,
              read_at (offset + 12) 4 control with
        | Some length, Some level, Some message_type =>
            let length := from_le length in
            let next descriptors :=
              match aligned ← cmsg_align_usize overflow_checks length;
                    add_usize overflow_checks offset aligned with
              | None => Overflow descriptors
              | Some offset =>
                  parse_loop overflow_checks fuel control control_length offset descriptors
              end in
            if length <? cmsg_len 0
            then Malformed (bs "native packet contains malformed control data") descriptors
            else
              match add_usize overflow_checks offset length with
              | None => Overflow descriptors
              | Some message_end =>
              if control_length <? message_end
              then Malformed (bs "native packet contains malformed control data") descriptors
              else if (from_i32 level =? SOL_SOCKET_CMSG)%Z && (from_i32 message_type =? SCM_RIGHTS)%Z
              then
                let size := length - cmsg_len 0 in
                if negb (size mod size_of_i32 =? 0)
                then Malformed (bs "native packet contains malformed file descriptors") descriptors
                else
                  match read_descriptors (N.to_nat (size / size_of_i32))
                          (offset + cmsg_align size_of_control_header) control with
                  | Some more => next (descriptors ++ more)
                  | None => Out_of_bounds
                  end
              else next descriptors
              end
        | _, _, _ => Out_of_bounds
        end
      end
  end.

Definition parse_descriptors (overflow_checks : bool) (control : bytes) (control_length : N)
    : parse_outcome :=
  parse_loop overflow_checks (S (N.to_nat control_length)) control control_length 0 [].

Example control_message_example :
  control_message [5%Z] = Some (to_le 8 20 ++ to_le 4 1 ++ to_le 4 1 ++ to_le 4 5 ++ replicate 4 x00) /\
  (control ← control_message [5; 7; 2147483647]%Z; Some (parse_descriptors false control (len control))) =
    Some (Parsed [5; 7; 2147483647]%Z).
Proof. vm_compute. split; reflexivity. Qed.

(** ** Connections *)

Record PeerCredentials := {
  peer_pid : N;
  peer_uid : N;
  peer_gid : N;
}.

(** [Connection { fd }]. *)
Abbreviation Connection := fd (only parsing).

Definition Connection_connect (path : bytes) : sys (io Connection) :=
  match socket_address path with
  | Ok (address, length) =>
      r ← ask (Call_socket AF_UNIX (Z.lor SOCK_SEQPACKET SOCK_CLOEXEC) 0);
      if failed r then mret (last_os_error r)
      else
        let socket := returned_value r in
        r ← ask (Call_connect socket address length);
        if failed r then _ ← close_all [socket]; mret (last_os_error r)
        else mret (Ok socket)
  | Err e => mret (Err e)
  | Panic => mret Panic
  end.

Definition send_packet (self : Connection) (packet : bytes) : sys (io ()) :=
  match validate_packet packet with
  | Ok _ =>
      written ← ask (Call_send self packet MSG_NOSIGNAL);
      mret (check_packet_write written (len packet))
  | r => mret r
  end.

Definition send_packet_with_fds (self : Connection) (packet : bytes) (descriptors : list fd)
    : sys (io ()) :=
  match validate_packet packet with
  | Ok _ =>
      if MAX_FILE_DESCRIPTORS <? len descriptors
      then mret (invalid_input "too many file descriptors in native packet")
      else if bool_decide (descriptors = []) then send_packet self packet
      else
        match control_message descriptors with
        | Some control =>
            written ← ask (Call_sendmsg self packet control MSG_NOSIGNAL);
            mret (check_packet_write written (len packet))
        | None => mret Panic
        end
  | r => mret r
  end.

(** [None] once the behaviour is undefined or the parsing loop never ends. *)
Definition receive_packet_with_fds (overflow_checks : bool) (self : Connection)
    (maximum_size maximum_descriptors : N) : sys (option (io (option (bytes * list fd)))) :=
  if MAX_FILE_DESCRIPTORS <? maximum_descriptors
  then mret (Some (invalid_input "configured descriptor limit exceeds native transport limit"))
  else if maximum_size =? 0
  then mret (Some (invalid_input "maximum packet size must be non-zero"))
  else
    message ← ask (Call_recvmsg self maximum_size (cmsg_space (size_of_i32 * maximum_descriptors))
                     (Z.lor MSG_TRUNC MSG_CMSG_CLOEXEC));
    let r := received_result message in
    if failed r then mret (Some (last_os_error r))
    else if (returned_value r =? 0)%Z then mret (Some (Ok None))
    else if maximum_size <? Z.to_N (returned_value r)
    then mret (Some (invalid_data "native packet exceeds the configured maximum size"))
    else if negb (Z.land (received_flags message) MSG_CTRUNC =? 0)%Z
    then mret (Some (invalid_data "native packet contains too many file descriptors"))
    else
      let packet := take (Z.to_nat (returned_value r)) (received_packet message) in
      match parse_descriptors overflow_checks (received_control message)
              (received_control_length message) with
      | Parsed descriptors =>
          if maximum_descriptors <? len descriptors
          then
            _ ← close_all descriptors;
            mret (Some (invalid_data "native packet contains too many file descriptors"))
          else mret (Some (Ok (Some (packet, descriptors))))
      | Malformed text dropped =>
          _ ← close_all dropped; mret (Some (Err (IoError_New ErrorKind_InvalidData text)))
      | Overflow dropped => _ ← close_all dropped; mret (Some Panic)
      | Out_of_bounds | Unfinished => mret None
      end.

Definition receive_packet (overflow_checks : bool) (self : Connection) (maximum_size : N)
    : sys (option (io (option bytes))) :=
  r ← receive_packet_with_fds overflow_checks self maximum_size 0;
  match r with
  | Some (Ok None) => mret (Some (Ok None))
  | Some (Ok (Some (packet, descriptors))) =>
      if bool_decide (descriptors = []) then mret (Some (Ok (Some packet)))
      else
        _ ← close_all descriptors;
        mret (Some (invalid_data "native packet unexpectedly contains file descriptors"))
  | Some (Err e) => mret (Some (Err e))
  | Some Panic => mret (Some Panic)
  | None => mret None
  end.

Definition peer_credentials (self : Connection) : sys (io PeerCredentials) :=
  reply ← ask (Call_getsockopt self SOL_SOCKET SO_PEERCRED size_of_ucred);
  let credentials := credentials_record reply in
  if failed (credentials_result reply) then mret (last_os_error (credentials_result reply))
  else if negb (credentials_length reply =? size_of_ucred)
  then mret (invalid_data "kernel returned an invalid peer credential record")
  else if (ucred_pid credentials <? 0)%Z
  then mret (invalid_data "kernel returned a negative peer process identifier")
  else mret (Ok {| peer_pid := Z.to_N (ucred_pid credentials);
                   peer_uid := ucred_uid credentials;
                   peer_gid := ucred_gid credentials |}).

Definition disconnect (self : Connection) : sys (io ()) :=
  r ← ask (Call_shutdown self SHUT_RDWR);
  _ ← close_all [self];
  mret (if failed r then last_os_error r else Ok ()).

Definition try_clone (self : Connection) : sys (io Connection) :=
  r ← ask (Call_dup self);
  mret (if failed r then last_os_error r else Ok (returned_value r)).

(** ** Listeners *)

Record Listener := {
  listener_fd : fd;
  listener_path : bytes;
}.

(** [Path::parent]: the path without its last component.  Empty and [.]
    components do not count, except a leading [.]. *)
Definition ignored (component : bytes) : bool :=
  bool_decide (component = []) || bool_decide (component = bs ".").

Fixpoint skip_ignored (components : list bytes) : list bytes :=
  match components with
  | c :: cs => if ignored c then skip_ignored cs else components
  | [] => []
  end.

Definition Path_parent (path : bytes) : option bytes :=
  let root := starts_with path (bs "/") in
  let current := bool_decide (path = bs ".") || starts_with path (bs "./") in
  let start := if root || current then 1%nat else 0%nat in
  match skip_ignored (rev (split x2f (drop start path))) with
  | _ :: rest => Some (take start path ++ join x2f (rev (skip_ignored rest)))
  | [] => if root then None else if current then Some [] else None
  end.

Example Path_parent_examples :
  Path_parent (bs "/run/busd/busd.sock") = Some (bs "/run/busd") /\
  Path_parent (bs "/busd.sock") = Some (bs "/") /\ Path_parent (bs "busd.sock") = Some [] /\
  Path_parent (bs "./busd.sock") = Some (bs ".") /\ Path_parent (bs "a//./b/.") = Some (bs "a") /\
  Path_parent (bs "/") = None /\ Path_parent [] = None.
Proof. vm_compute. repeat split; reflexivity. Qed.

Definition Listener_bind (path : bytes) : sys (io Listener) :=
  created ← match Path_parent path with
            | Some parent => ask (Call_create_dir_all parent)
            | None => mret (Ok ())
            end;
  match created with
  | Ok _ =>
      present ← ask (Call_exists path);
      if (present : bool)
      then mret (Err (IoError_New ErrorKind_AlreadyExists (bs "socket path already exists")))
      else
        match socket_address path with
        | Ok (address, length) =>
            r ← ask (Call_socket AF_UNIX (Z.lor SOCK_SEQPACKET SOCK_CLOEXEC) 0);
            if failed r then mret (last_os_error r)
            else
              let socket := returned_value r in
              r ← ask (Call_bind socket address length);
              if failed r then _ ← close_all [socket]; mret (last_os_error r)
              else
                r ← ask (Call_listen socket 128);
                if failed r then _ ← close_all [socket]; mret (last_os_error r)
                else mret (Ok {| listener_fd := socket; listener_path := path |})
        | Err e => mret (Err e)
        | Panic => mret Panic
        end
  | Err e => mret (Err e)
  | Panic => mret Panic
  end.

Definition Listener_accept (self : Listener) : sys (io Connection) :=
  r ← ask (Call_accept4 (listener_fd self) SOCK_CLOEXEC);
  mret (if failed r then last_os_error r else Ok (returned_value r)).

(** ** Running an operation *)

(** What happened: the calls and their replies. *)
Definition event : Type := { c : call & reply_of c }.

(** A kernel answers a call, knowing everything that happened before. *)
Definition kernel : Type := list event -> forall c : call, reply_of c.

Fixpoint run {A} (K : kernel) (past : list event) (m : sys A) : A * list event :=
  match m with
  | Return a => (a, past)
  | Sys c k => let r := K past c in run K (past ++ [existT c r]) (k r)
  end.
