(* ===== verification/TransportFacts.v ===== *)
(** * What the native transport guarantees

    Control messages survive a round trip; received ones are read without
    leaving their buffer unless a length overflows, and yield the descriptors the
    kernel announced in them ([carries], [recvmsg_law]); every descriptor an
    operation obtains is returned or closed, and the paths on which received
    descriptors are not; the errors of a connection. *)

From S2P Require Export Transport.

Local Open Scope N_scope.

(** ** Memory *)

Lemma from_le_to_le w n : n < 256 ^ N.of_nat w -> from_le (to_le w n) = n.
Proof. intros. unfold from_le, to_le. rewrite rev_involutive. by apply from_be_to_be_small. Qed.

Lemma len_to_le w n : len (to_le w n) = N.of_nat w.
Proof. unfold to_le, len. by rewrite length_rev, length_to_be. Qed.

Lemma len_to_i32 n : len (to_i32 n) = 4.
Proof. apply len_to_le. Qed.

(** The values of an [i32]. *)
Definition is_i32 (n : Z) : Prop := (- 2 ^ 31 <= n < 2 ^ 31)%Z.

Lemma from_i32_to_i32 n : is_i32 n -> from_i32 (to_i32 n) = n.
Proof.
  intros Hn. unfold is_i32 in Hn. unfold from_i32, to_i32.
  pose proof (Z.mod_pos_bound n (2 ^ 32) ltac:(lia)) as Hm.
  rewrite from_le_to_le by (change (256 ^ N.of_nat 4) with (2 ^ 32); lia).
  rewrite Z2N.id by lia.
  destruct (Z.ltb_spec (n mod 2 ^ 32) (2 ^ 31)); destruct (Z.ltb_spec n 0).
  - rewrite <- (Z.mod_add n 1 (2 ^ 32)), Z.mod_small in H by lia. lia.
  - by rewrite Z.mod_small by lia.
  - rewrite <- (Z.mod_add n 1 (2 ^ 32)), Z.mod_small by lia. lia.
  - rewrite Z.mod_small in H by lia. lia.
Qed.

Lemma len_replicate {A} n (x : A) : len (replicate n x) = N.of_nat n.
Proof. unfold len. by rewrite length_replicate. Qed.

Lemma take_len_app {A} (l k : list A) : take (N.to_nat (len l)) (l ++ k) = l.
Proof. unfold len. by rewrite Nat2N.id, take_app_length. Qed.

Lemma drop_len_app {A} (l k : list A) : drop (N.to_nat (len l)) (l ++ k) = k.
Proof. unfold len. by rewrite Nat2N.id, drop_app_length. Qed.

Lemma read_at_app offset width a d b :
  len a = offset -> len d = width -> read_at offset width (a ++ d ++ b) = Some d.
Proof.
  intros <- <-. unfold read_at. rewrite !len_app.
  destruct (N.leb_spec (len a + len d) (len a + (len d + len b))); [|lia].
  by rewrite drop_len_app, take_len_app.
Qed.

Lemma write_at_app offset d a x b :
  len a = offset -> len x = len d -> write_at offset d (a ++ x ++ b) = Some (a ++ d ++ b).
Proof.
  intros <- Hx. unfold write_at. rewrite !len_app, Hx.
  destruct (N.leb_spec (len a + len d) (len a + (len d + len b))); [|lia].
  rewrite take_len_app. do 3 f_equal. rewrite (assoc_L (++)).
  replace (len a + len d) with (len (a ++ x)) by (rewrite len_app; lia). apply drop_len_app.
Qed.

Lemma read_at_Some offset width buffer :
  offset + width <= len buffer -> is_Some (read_at offset width buffer).
Proof. intros. unfold read_at. destruct (N.leb_spec (offset + width) (len buffer)); [by eexists|lia]. Qed.

(** ** Alignment *)

Lemma cmsg_align_spec n : cmsg_align n = 8 * ((n + 7) / 8).
Proof.
  unfold cmsg_align, align_of_usize. replace (n + 8 - 1) with (n + 7) by lia.
  change (8 - 1) with (N.ones 3). rewrite N.ldiff_ones_r, N.shiftl_mul_pow2, N.shiftr_div_pow2.
  change (2 ^ 3) with 8. lia.
Qed.

Lemma cmsg_align_bounds n : n <= cmsg_align n < n + 8.
Proof. rewrite cmsg_align_spec. pose proof (N.div_mod' (n + 7) 8) as Hd.
  pose proof (N.mod_lt (n + 7) 8 ltac:(done)) as Hm.
  revert Hd Hm. generalize ((n + 7) / 8) ((n + 7) mod 8). lia. Qed.

(** ** Control messages *)

Lemma write_descriptors_spec ds a tail offset :
  len a = offset -> 4 * len ds <= len tail ->
  write_descriptors offset ds (a ++ tail) =
    Some (a ++ concat (to_i32 <$> ds) ++ drop (N.to_nat (4 * len ds)) tail).
Proof.
  revert a tail offset. induction ds as [|d ds IH]; intros a tail offset Ha Ht; [done|].
  rewrite len_cons in *. cbn [write_descriptors fmap list_fmap concat].
  assert (exists x b, tail = x ++ b /\ len x = 4) as (x & b & -> & Hx).
  { exists (take 4 tail), (drop 4 tail). split; [by rewrite take_drop|].
    unfold len in *. rewrite length_take. lia. }
  rewrite write_at_app by (by rewrite ?len_to_i32). cbn.
  rewrite (assoc_L (++)), IH.
  - f_equal. rewrite <- !(assoc_L (++)). do 3 f_equal.
    replace (N.to_nat (4 * (1 + len ds))) with (length x + N.to_nat (4 * len ds))%nat
      by (unfold len in *; lia). by rewrite drop_app_add'.
  - rewrite len_app, len_to_i32. unfold size_of_i32. lia.
  - rewrite len_app in Ht. lia.
Qed.

(** The bytes of a control message. *)
Definition control_wire (ds : list fd) : bytes :=
  to_le 8 (cmsg_len (4 * len ds)) ++ to_i32 SOL_SOCKET_CMSG ++ to_i32 SCM_RIGHTS ++
  concat (to_i32 <$> ds) ++
  replicate (N.to_nat (cmsg_align (4 * len ds) - 4 * len ds)) x00.

Lemma split_replicate a b (x : byte) : replicate (a + b) x = replicate a x ++ replicate b x.
Proof. by rewrite replicate_add. Qed.

Lemma control_message_spec ds : control_message ds = Some (control_wire ds).
Proof.
  unfold control_message. change size_of_i32 with 4. set (size := 4 * len ds).
  pose proof (cmsg_align_bounds size) as Hb.
  replace (N.to_nat (cmsg_space size)) with (8 + (4 + (4 + N.to_nat (cmsg_align size))))%nat
    by (unfold cmsg_space; change (cmsg_align size_of_control_header) with 16; lia).
  rewrite !split_replicate.
  match goal with |- context [write_at 0 ?d ?b] => change (write_at 0 d b) with (write_at 0 d ([] ++ b)) end.
  rewrite (write_at_app 0) by (by rewrite ?len_to_le).
  rewrite app_nil_l. cbn [mbind option_bind].
  rewrite (write_at_app 8 (to_i32 SOL_SOCKET_CMSG)) by (by rewrite ?len_to_i32, ?len_to_le).
  cbn [mbind option_bind]. rewrite (assoc_L (++)).
  rewrite (write_at_app 12 (to_i32 SCM_RIGHTS)) by (by rewrite ?len_app, ?len_to_i32, ?len_to_le).
  cbn [mbind option_bind]. rewrite (assoc_L (++)).
  rewrite write_descriptors_spec.
  - unfold control_wire. fold size. rewrite <- !(assoc_L (++)). do 5 f_equal.
    rewrite drop_replicate. f_equal. lia.
  - by rewrite !len_app, !len_to_i32, len_to_le.
  - rewrite len_replicate. fold size. lia.
Qed.

Lemma len_concat_i32 ds : len (concat (to_i32 <$> ds)) = 4 * len ds.
Proof.
  induction ds as [|d ds IH]; [done|]. cbn [fmap list_fmap concat].
  rewrite len_app, len_to_i32, IH, len_cons. lia.
Qed.

Lemma read_descriptors_spec ds a b offset :
  Forall is_i32 ds -> len a = offset ->
  read_descriptors (length ds) offset (a ++ concat (to_i32 <$> ds) ++ b) = Some ds.
Proof.
  intros Hds. revert a offset. induction Hds as [|d ds Hd _ IH]; intros a offset Ha; [done|].
  cbn [length read_descriptors fmap list_fmap concat]. rewrite <- (assoc_L (++)).
  rewrite (read_at_app offset _ a (to_i32 d)) by (done || apply len_to_i32). cbn [mbind option_bind].
  rewrite (assoc_L (++)), IH; [|rewrite len_app, len_to_i32; unfold size_of_i32; lia].
  cbn. by rewrite from_i32_to_i32.
Qed.

Lemma cmsg_align_header n : cmsg_align (16 + n) = 16 + cmsg_align n.
Proof.
  rewrite !cmsg_align_spec. replace (16 + n + 7) with (n + 7 + 2 * 8) by lia.
  rewrite N.div_add by done. lia.
Qed.

Lemma len_control_wire ds : len (control_wire ds) = cmsg_space (4 * len ds).
Proof.
  unfold control_wire, cmsg_space. change (cmsg_align size_of_control_header) with 16.
  rewrite !len_app, len_to_le, !len_to_i32, len_concat_i32, len_replicate.
  pose proof (cmsg_align_bounds (4 * len ds)). lia.
Qed.

(** ** Sums of sizes *)

(** No slice of bytes is longer, so sums of offsets into one do not overflow. *)
Definition isize_max : N := 9223372036854775807.

Lemma add_usize_small overflow_checks a b :
  a + b <= usize_max -> add_usize overflow_checks a b = Some (a + b).
Proof. intros H. unfold add_usize. by destruct (N.leb_spec (a + b) usize_max); [|lia]. Qed.

Lemma add_usize_wraps a b : usize_max < a + b -> add_usize false a b = Some ((a + b) mod 2 ^ 64).
Proof. intros H. unfold add_usize. by destruct (N.leb_spec (a + b) usize_max); [lia|]. Qed.

Lemma add_usize_panics a b : usize_max < a + b -> add_usize true a b = None.
Proof. intros H. unfold add_usize. by destruct (N.leb_spec (a + b) usize_max); [lia|]. Qed.

Lemma cmsg_align_usize_small overflow_checks n :
  n + 8 <= usize_max -> cmsg_align_usize overflow_checks n = Some (cmsg_align n).
Proof.
  intros H. unfold cmsg_align_usize, align_of_usize. rewrite add_usize_small by done.
  cbn [mbind option_bind]. unfold cmsg_align, align_of_usize. do 2 f_equal. unfold usize_max in *.
  replace (n + 8 + 18446744073709551615) with (n + 8 - 1 + 1 * 2 ^ 64) by lia.
  rewrite N.Div0.mod_add. apply N.mod_small. lia.
Qed.

(** ** What the kernel writes *)

(** The control data of a packet, as the kernel lays it out: messages with
    their length, level and type, each padded to eight bytes; the padding of the
    last may be missing or incomplete. *)
Record ControlMessage := {
  cm_level : Z;
  cm_type : Z;
  cm_data : bytes;
}.

Definition message_wire (m : ControlMessage) : bytes :=
  to_le 8 (16 + len (cm_data m)) ++ to_i32 (cm_level m) ++ to_i32 (cm_type m) ++ cm_data m.

Definition padded (m : ControlMessage) (padding : bytes) : Prop :=
  len padding < 8 /\ len (message_wire m ++ padding) mod 8 = 0.

(** Descriptors come in the messages of type SCM_RIGHTS, one [i32] each. *)
Inductive announces : ControlMessage -> list fd -> Prop :=
| announces_rights ds :
    Forall is_i32 ds ->
    announces {| cm_level := SOL_SOCKET; cm_type := SCM_RIGHTS; cm_data := concat (to_i32 <$> ds) |} ds
| announces_nothing level type data :
    is_i32 level -> is_i32 type -> level <> SOL_SOCKET \/ type <> SCM_RIGHTS ->
    announces {| cm_level := level; cm_type := type; cm_data := data |} [].

Inductive carries : bytes -> list fd -> Prop :=
| carries_nothing : carries [] []
| carries_last m ds padding cut :
    announces m ds -> padded m (padding ++ cut) -> carries (message_wire m ++ padding) ds
| carries_more m ds padding control more :
    announces m ds -> padded m padding -> carries control more ->
    carries (message_wire m ++ padding ++ control) (ds ++ more).

Lemma len_message_wire m : len (message_wire m) = 16 + len (cm_data m).
Proof. unfold message_wire. rewrite !len_app, len_to_le, !len_to_i32. lia. Qed.

Lemma cmsg_align_padded m padding :
  padded m padding -> cmsg_align (len (message_wire m)) = len (message_wire m) + len padding.
Proof.
  intros [Hp Ha]. rewrite len_app in Ha. rewrite cmsg_align_spec.
  pose proof (N.div_mod' (len (message_wire m) + len padding) 8) as Hd. rewrite Ha in Hd.
  revert Hd. generalize ((len (message_wire m) + len padding) / 8). intros q Hd.
  rewrite <- (N.div_unique (len (message_wire m) + 7) 8 q (7 - len padding)); lia.
Qed.

(** One turn of the loop, on a message the kernel wrote. *)
Lemma parse_loop_message overflow_checks fuel m ds a rest control_length acc :
  announces m ds -> len a + len (message_wire m) <= control_length <= isize_max ->
  parse_loop overflow_checks (S fuel) (a ++ message_wire m ++ rest) control_length (len a) acc =
  parse_loop overflow_checks fuel (a ++ message_wire m ++ rest) control_length
    (len a + cmsg_align (len (message_wire m))) (acc ++ ds).
Proof.
  intros Hm Hl. unfold isize_max in Hl. pose proof (cmsg_align_bounds (len (message_wire m))) as Hb.
  pose proof (len_message_wire m) as Hw.
  assert (a ++ message_wire m ++ rest = a ++ to_le 8 (16 + len (cm_data m)) ++ to_i32 (cm_level m) ++
    to_i32 (cm_type m) ++ cm_data m ++ rest) as Hc
    by (unfold message_wire; by rewrite <- !(assoc_L (++))).
  cbn [parse_loop]. unfold size_of_control_header.
  rewrite add_usize_small by (unfold usize_max; lia).
  destruct (N.ltb_spec control_length (len a + 16)); [lia|].
  rewrite Hc at 1. rewrite read_at_app by (done || apply len_to_le).
  rewrite Hc at 1. rewrite (assoc_L (++)). rewrite read_at_app
    by (by rewrite ?len_app, ?len_to_le, ?len_to_i32).
  rewrite Hc at 1. rewrite 2!(assoc_L (++)). rewrite read_at_app
    by (rewrite ?len_app, ?len_to_le, ?len_to_i32; done || lia).
  rewrite from_le_to_le by (change (256 ^ N.of_nat 8) with (2 ^ 64); lia).
  rewrite <- Hw. cbv zeta. rewrite cmsg_align_usize_small by (unfold usize_max; lia).
  cbn [mbind option_bind]. rewrite !add_usize_small by (unfold usize_max; lia).
  change (cmsg_len 0) with 16.
  destruct (N.ltb_spec (len (message_wire m)) 16); [lia|].
  destruct (N.ltb_spec control_length (len a + len (message_wire m))); [lia|].
  destruct Hm as [ds Hds|level type data Hv Ht Hr]; cbn [cm_level cm_type cm_data] in *.
  - rewrite !from_i32_to_i32 by (unfold is_i32; vm_compute; by split).
    change (_ && _) with true at 1. cbv iota. rewrite len_concat_i32 in Hw.
    rewrite Hw. replace (16 + 4 * len ds - 16) with (len ds * 4) by lia. unfold size_of_i32.
    rewrite N.Div0.mod_mul. cbn [N.eqb negb]. rewrite N.div_mul by done.
    replace (N.to_nat (len ds)) with (length ds) by (unfold len; lia).
    rewrite Hc at 1. rewrite 3!(assoc_L (++)). rewrite read_descriptors_spec; [done..|].
    rewrite !len_app, len_to_le, !len_to_i32. change (cmsg_align 16) with 16. lia.
  - rewrite !from_i32_to_i32 by done.
    change SOL_SOCKET with SOL_SOCKET_CMSG in Hr. rewrite app_nil_r.
    destruct (Z.eqb_spec level SOL_SOCKET_CMSG), (Z.eqb_spec type SCM_RIGHTS); try done. tauto.
Qed.

Lemma parse_loop_end overflow_checks fuel control control_length offset acc :
  control_length < offset + 16 <= usize_max ->
  parse_loop overflow_checks (S fuel) control control_length offset acc = Parsed acc.
Proof.
  intros [Hl Ho]. cbn [parse_loop]. unfold size_of_control_header. rewrite add_usize_small by done.
  by destruct (N.ltb_spec control_length (offset + 16)); [|lia].
Qed.

Lemma parse_loop_carries overflow_checks control ds :
  carries control ds -> forall fuel a rest acc,
  (length control < fuel)%nat -> len a + len control <= isize_max ->
  parse_loop overflow_checks fuel (a ++ control ++ rest) (len a + len control) (len a) acc =
    Parsed (acc ++ ds).
Proof.
  induction 1 as [|m ds padding cut Hm Hp|m ds padding control more Hm Hp _ IH];
    intros fuel a rest acc Hf Hl; unfold isize_max in *.
  - destruct fuel as [|fuel]; [cbn in Hf; lia|]. rewrite app_nil_r.
    change (len (@nil byte)) with 0 in *.
    apply parse_loop_end. unfold usize_max. lia.
  - pose proof (cmsg_align_padded _ _ Hp) as Ha. destruct Hp as [Hp _]. rewrite !len_app in *.
    pose proof (len_message_wire m) as Hw. rewrite length_app in Hf.
    assert (exists k, fuel = S (S k)) as [k ->] by (exists (fuel - 2)%nat; unfold len in *; lia).
    rewrite <- (assoc_L (++)), (parse_loop_message _ _ _ ds) by (done || unfold isize_max; lia).
    apply parse_loop_end. unfold usize_max. lia.
  - pose proof (cmsg_align_padded _ _ Hp) as Ha. pose proof (len_message_wire m) as Hw.
    rewrite !len_app in *. rewrite !length_app in Hf.
    destruct fuel as [|fuel]; [lia|].
    rewrite <- !(assoc_L (++)), (parse_loop_message _ _ _ ds) by (done || unfold isize_max; lia).
    rewrite Ha. specialize (IH fuel (a ++ message_wire m ++ padding) rest (acc ++ ds)).
    rewrite !len_app in IH. rewrite (assoc_L (++) acc), <- IH by (unfold len in *; lia).
    rewrite <- !(assoc_L (++)). f_equal. lia.
Qed.

(** The parser finds the descriptors the kernel announced. *)
Lemma parse_carries overflow_checks control control_length ds :
  control_length <= len control -> control_length <= isize_max ->
  carries (take (N.to_nat control_length) control) ds ->
  parse_descriptors overflow_checks control control_length = Parsed ds.
Proof.
  intros Hl Hm Hc.
  assert (len (take (N.to_nat control_length) control) = control_length) as Ht
    by (unfold len in *; rewrite length_take; lia).
  pose proof (parse_loop_carries overflow_checks _ ds Hc (S (N.to_nat control_length)) []
    (drop (N.to_nat control_length) control) []) as H.
  rewrite Ht in H. cbn [app] in H. rewrite take_drop in H. apply H; unfold len in *; cbn; lia.
Qed.

(** The control message a sender builds is one the kernel could have written. *)
Lemma control_wire_carries ds n :
  Forall is_i32 ds -> cmsg_len (4 * len ds) <= n <= cmsg_space (4 * len ds) ->
  carries (take (N.to_nat n) (control_wire ds)) ds.
Proof.
  intros Hds Hn. unfold cmsg_len, cmsg_space, size_of_control_header in Hn.
  change (cmsg_align 16) with 16 in Hn.
  set (m := {| cm_level := SOL_SOCKET; cm_type := SCM_RIGHTS; cm_data := concat (to_i32 <$> ds) |}).
  set (padding := replicate (N.to_nat (cmsg_align (4 * len ds) - 4 * len ds)) x00).
  assert (control_wire ds = message_wire m ++ padding) as ->
    by (unfold control_wire, message_wire; cbn [cm_data cm_level cm_type m];
        rewrite len_concat_i32, <- !(assoc_L (++)); done).
  pose proof (len_message_wire m) as Hw. cbn [cm_data m] in Hw. rewrite len_concat_i32 in Hw.
  rewrite take_app_ge by (unfold len in *; lia).
  pose proof (cmsg_align_bounds (4 * len ds)) as Hb.
  eapply (carries_last m ds _ (drop (N.to_nat n - length (message_wire m)) padding));
    [by constructor|]. rewrite take_drop. split.
  - unfold padding. rewrite len_replicate. lia.
  - rewrite len_app, Hw. unfold padding. rewrite len_replicate.
    replace (16 + 4 * len ds + N.of_nat (N.to_nat (cmsg_align (4 * len ds) - 4 * len ds)))
      with (8 * (2 + (4 * len ds + 7) / 8)) by (pose proof (cmsg_align_spec (4 * len ds)); lia).
    rewrite N.mul_comm. apply N.Div0.mod_mul.
Qed.

Lemma parse_control_wire overflow_checks ds control_length :
  Forall is_i32 ds -> len ds <= MAX_FILE_DESCRIPTORS ->
  cmsg_len (4 * len ds) <= control_length <= cmsg_space (4 * len ds) ->
  parse_descriptors overflow_checks (control_wire ds) control_length = Parsed ds.
Proof.
  intros Hds Hn Hl. apply parse_carries; [|..|by apply control_wire_carries].
  - rewrite len_control_wire. lia.
  - unfold cmsg_space, MAX_FILE_DESCRIPTORS, isize_max in *.
    pose proof (cmsg_align_bounds (4 * len ds)). change (cmsg_align size_of_control_header) with 16 in *. lia.
Qed.

(** Descriptors survive the trip.  For up to sixteen descriptors, the
    control message [send_packet_with_fds] builds stays inside its buffer, and
    [parse_descriptors] reads from it, with or without the padding the kernel
    may strip, the same descriptors in the same order. *)
Theorem descriptors_roundtrip overflow_checks ds :
  Forall is_i32 ds -> len ds <= MAX_FILE_DESCRIPTORS ->
  exists control, control_message ds = Some control /\ len control = cmsg_space (size_of_i32 * len ds) /\
    forall control_length,
      cmsg_len (size_of_i32 * len ds) <= control_length <= cmsg_space (size_of_i32 * len ds) ->
      parse_descriptors overflow_checks control control_length = Parsed ds.
Proof.
  intros Hds Hn. exists (control_wire ds). split; [apply control_message_spec|].
  split; [apply len_control_wire|]. intros. by apply parse_control_wire.
Qed.

(** ** Reading received control data *)

Lemma read_descriptors_Some n offset control :
  offset + 4 * N.of_nat n <= len control ->
  exists ds, read_descriptors n offset control = Some ds /\ length ds = n.
Proof.
  revert offset. induction n as [|n IH]; intros offset Hl; [by exists []|]. cbn [read_descriptors].
  destruct (read_at_Some offset size_of_i32 control) as [d ->]; [unfold size_of_i32; lia|].
  destruct (IH (offset + size_of_i32)) as (ds & Hds & Hlen); [unfold size_of_i32; lia|].
  cbn [mbind option_bind]. rewrite Hds. cbn. eexists. split; [done|]. cbn. congruence.
Qed.

Lemma read_descriptors_None n offset control :
  len control < offset + 4 * N.of_nat n -> (0 < n)%nat -> read_descriptors n offset control = None.
Proof.
  revert offset. induction n as [|n IH]; intros offset Hl Hn; [lia|]. cbn [read_descriptors].
  destruct (read_at offset size_of_i32 control) as [d|] eqn:E; [|done].
  unfold read_at, size_of_i32 in E. destruct (N.leb_spec (offset + 4) (len control)); [|done].
  destruct n as [|n]; [lia|]. cbn [mbind option_bind]. rewrite IH; [done|unfold size_of_i32; lia..].
Qed.

(** The fields of the header at an offset. *)
Definition length_field (control : bytes) (offset : N) : N :=
  default 0 (from_le <$> read_at offset 8 control).
Definition rights_header (control : bytes) (offset : N) : bool :=
  (default 0 (from_i32 <$> read_at (offset + 8) 4 control) =? SOL_SOCKET)%Z &&
  (default 0 (from_i32 <$> read_at (offset + 12) 4 control) =? SCM_RIGHTS)%Z.

(** The message is inside the control data and, if it holds descriptors, holds
    whole ones. *)
Definition well_formed (control : bytes) (control_length offset : N) : Prop :=
  16 <= length_field control offset /\ offset + length_field control offset <= control_length /\
  (rights_header control offset = true -> length_field control offset mod 4 = 0).

(** The headers one gets to by walking over well-formed messages. *)
Inductive header_at (control : bytes) (control_length : N) : N -> Prop :=
| header_first : 16 <= control_length -> header_at control control_length 0
| header_next offset next :
    header_at control control_length offset -> well_formed control control_length offset ->
    next = offset + cmsg_align (length_field control offset) -> next + 16 <= control_length ->
    header_at control control_length next.

(** A header whose message would end past the largest address. *)
Definition overflowing (control : bytes) (offset : N) : Prop :=
  usize_max < offset + length_field control offset.

Lemma from_le_bound l : from_le l < 256 ^ len l.
Proof. unfold from_le. pose proof (from_be_bound (rev l)). unfold len in *. by rewrite length_rev in *. Qed.

Lemma read_at_len offset width buffer l : read_at offset width buffer = Some l -> len l = width.
Proof.
  unfold read_at. destruct (N.leb_spec (offset + width) (len buffer)); [|done]. intros [= <-].
  unfold len in *. rewrite length_take, length_drop. lia.
Qed.

Section parsing.
Context (overflow_checks : bool) (control : bytes) (control_length : N).
Hypothesis Hl : control_length <= len control.
Hypothesis Hm : len control <= isize_max.

Lemma header_at_inside o : header_at control control_length o -> o + 16 <= control_length.
Proof using. clear Hl Hm. destruct 1; lia. Qed.

(** One turn of the loop at a header that does not overflow. *)
Lemma parse_loop_turn offset ds :
  offset + 16 <= control_length -> ~ overflowing control offset ->
  ~ well_formed control control_length offset /\ (exists text, forall fuel,
    parse_loop overflow_checks (S fuel) control control_length offset ds = Malformed text ds) \/
  well_formed control control_length offset /\ exists more, forall fuel,
    parse_loop overflow_checks (S fuel) control control_length offset ds =
    parse_loop overflow_checks fuel control control_length
      (offset + cmsg_align (length_field control offset)) (ds ++ more).
Proof using Hl Hm.
  unfold well_formed, overflowing, length_field, rights_header. unfold isize_max in Hm. intros Hin Ho.
  cbn [parse_loop]. unfold size_of_control_header. rewrite add_usize_small by (unfold usize_max; lia).
  destruct (N.ltb_spec control_length (offset + 16)); [lia|].
  destruct (read_at_Some offset 8 control) as [l Hrl]; [lia|]. rewrite Hrl in *.
  destruct (read_at_Some (offset + 8) 4 control) as [v ->]; [lia|].
  destruct (read_at_Some (offset + 12) 4 control) as [t ->]; [lia|].
  cbn [from_option id fmap option_fmap option_map] in *. cbv zeta. change (cmsg_len 0) with 16.
  change SOL_SOCKET with SOL_SOCKET_CMSG.
  destruct (N.ltb_spec (from_le l) 16); [left; split; [lia|by eexists]|].
  rewrite add_usize_small by (apply N.nlt_ge; exact Ho).
  destruct (N.ltb_spec control_length (offset + from_le l)); [left; split; [lia|by eexists]|].
  pose proof (cmsg_align_bounds (from_le l)) as Hb.
  rewrite cmsg_align_usize_small by (unfold usize_max; lia). cbn [mbind option_bind].
  rewrite add_usize_small by (unfold usize_max; lia).
  destruct (_ && _).
  - assert (from_le l mod 4 = (from_le l - 16) mod 4) as Hmod.
    { replace (from_le l) with (from_le l - 16 + 4 * 4) at 1 by lia. apply N.Div0.mod_add. }
    unfold size_of_i32. destruct (N.eqb_spec ((from_le l - 16) mod 4) 0); cbn [negb];
      [|left; split; [|by eexists]; intros (_ & _ & Hw); specialize (Hw eq_refl); congruence].
    right. split_and!; [done..|intros _; congruence|].
    destruct (read_descriptors_Some (N.to_nat ((from_le l - 16) / 4))
      (offset + cmsg_align 16) control) as (more & -> & _); [|by exists more].
    change (cmsg_align 16) with 16. rewrite N2Nat.id.
    pose proof (N.Div0.mul_div_le (from_le l - 16) 4). lia.
  - right. split_and!; [done..|]. exists []. by rewrite app_nil_r.
Qed.

Lemma parse_loop_overflow fuel offset ds :
  offset + 16 <= control_length -> overflowing control offset ->
  if overflow_checks
  then parse_loop overflow_checks (S fuel) control control_length offset ds = Overflow ds
  else rights_header control offset = true -> length_field control offset mod 4 = 0 ->
    parse_loop overflow_checks (S fuel) control control_length offset ds = Out_of_bounds.
Proof using Hl Hm.
  unfold overflowing, length_field, rights_header. unfold isize_max in Hm. intros Hin.
  cbn [parse_loop]. unfold size_of_control_header. rewrite add_usize_small by (unfold usize_max; lia).
  destruct (N.ltb_spec control_length (offset + 16)); [lia|].
  destruct (read_at_Some offset 8 control) as [l Hrl]; [lia|]. rewrite Hrl in *.
  destruct (read_at_Some (offset + 8) 4 control) as [v ->]; [lia|].
  destruct (read_at_Some (offset + 12) 4 control) as [t ->]; [lia|].
  cbn [from_option id fmap option_fmap option_map] in *. cbv zeta. change (cmsg_len 0) with 16. intros Ho.
  destruct (N.ltb_spec (from_le l) 16); [unfold usize_max in *; lia|].
  destruct overflow_checks; [by rewrite add_usize_panics|]. intros Hr Ha.
  assert (from_le l < 2 ^ 64) as Hb
    by (change (2 ^ 64) with (256 ^ 8); rewrite <- (read_at_len _ _ _ _ Hrl); apply from_le_bound).
  unfold usize_max in *. rewrite add_usize_wraps by (unfold usize_max; exact Ho).
  assert ((offset + from_le l) mod 2 ^ 64 <= offset) as Hw.
  { replace (offset + from_le l) with (offset + from_le l - 2 ^ 64 + 1 * 2 ^ 64) by lia.
    rewrite N.Div0.mod_add, N.mod_small; lia. }
  destruct (N.ltb_spec control_length ((offset + from_le l) mod 2 ^ 64)); [lia|].
  change SOL_SOCKET with SOL_SOCKET_CMSG in Hr. rewrite Hr. unfold size_of_i32.
  assert (from_le l mod 4 = (from_le l - 16) mod 4) as Hmod.
  { replace (from_le l) with (from_le l - 16 + 4 * 4) at 1 by lia. apply N.Div0.mod_add. }
  rewrite <- Hmod, Ha. cbn [N.eqb negb].
  pose proof (N.div_mod' (from_le l - 16) 4) as Hd. rewrite <- Hmod, Ha in Hd.
  rewrite read_descriptors_None; [done|..]; change (cmsg_align 16) with 16; lia.
Qed.

Lemma parse_loop_total fuel offset ds :
  (offset + 16 <= control_length -> header_at control control_length offset) ->
  offset <= control_length + 16 -> (N.to_nat (control_length - offset) < fuel)%nat ->
  match parse_loop overflow_checks fuel control control_length offset ds with
  | Parsed _ | Malformed _ _ => True
  | _ => exists o, header_at control control_length o /\ overflowing control o
  end.
Proof using Hl Hm.
  revert offset ds. induction fuel as [|fuel IH]; intros offset ds Hh Ho Hf; [lia|].
  destruct (N.le_gt_cases (offset + 16) control_length) as [Hin|Hout].
  2: { rewrite parse_loop_end; [done|]. unfold isize_max, usize_max in *. lia. }
  destruct (N.lt_ge_cases usize_max (offset + length_field control offset)) as [Hov|Hov].
  { assert (exists o, header_at control control_length o /\ overflowing control o) as H by eauto.
    by destruct (parse_loop _ _ _ _ _ _). }
  destruct (parse_loop_turn offset ds Hin) as [(_ & text & ->)|(Hw & more & ->)];
    [by apply N.nlt_ge|done|].
  destruct (cmsg_align_bounds (length_field control offset)) as [Hb1 Hb2]. destruct (Hw) as (H16 & He & _).
  apply IH; [|lia..]. intros Hn. by eapply header_next; eauto.
Qed.

(** The loop does get to these headers. *)
Lemma parse_loop_reaches o :
  header_at control control_length o ->
  exists n ds, (n <= N.to_nat o)%nat /\ forall fuel,
    parse_loop overflow_checks (n + fuel) control control_length 0 [] =
    parse_loop overflow_checks fuel control control_length o ds.
Proof using Hl Hm.
  induction 1 as [Hc|o next Ho (n & ds & Hn & IH) Hw -> Hnext]; [by exists 0%nat, []|].
  pose proof (header_at_inside o Ho) as Hin.
  destruct (cmsg_align_bounds (length_field control o)) as [Hb1 Hb2]. destruct (Hw) as (H16 & He & _).
  destruct (parse_loop_turn o ds Hin) as [[? _]|(_ & more & Hturn)]; [|done|].
  { unfold overflowing, isize_max, usize_max in *. lia. }
  exists (S n), (ds ++ more). split; [lia|]. intros fuel.
  replace (S n + fuel)%nat with (n + S fuel)%nat by lia. by rewrite IH.
Qed.
End parsing.

(** C37: control data is read safely unless a length overflows.  Whatever the
    kernel wrote, as long as it reports no more control data than the buffer
    holds: if no header the loop gets to has a length that ends past the largest
    address, [parse_descriptors] terminates and reads only inside the buffer, in
    every build.  With such a header a build with overflow checks panics, having
    read only inside the buffer; the release build wraps, lets the length pass
    for one that fits and, if the message is one of descriptors, reads outside
    the buffer. *)
Theorem parse_descriptors_safe overflow_checks control control_length :
  control_length <= len control -> len control <= isize_max ->
  ((forall o, header_at control control_length o -> ~ overflowing control o) ->
   match parse_descriptors overflow_checks control control_length with
   | Parsed _ | Malformed _ _ => True
   | Overflow _ | Out_of_bounds | Unfinished => False
   end) /\
  (forall o, header_at control control_length o -> overflowing control o ->
   if overflow_checks
   then exists dropped, parse_descriptors overflow_checks control control_length = Overflow dropped
   else rights_header control o = true -> length_field control o mod 4 = 0 ->
     parse_descriptors overflow_checks control control_length = Out_of_bounds).
Proof.
  intros Hl Hm. unfold parse_descriptors. split.
  - intros Hno. pose proof (parse_loop_total overflow_checks control control_length Hl Hm
      (S (N.to_nat control_length)) 0 []) as H.
    assert (0 + 16 <= control_length -> header_at control control_length 0) as Hh by (by constructor).
    specialize (H Hh ltac:(lia) ltac:(lia)).
    destruct (parse_loop _ _ _ _ _ _); [done..| | |]; destruct H as (o & ? & ?); by eapply Hno.
  - intros o Ho Hov. pose proof (header_at_inside control control_length o Ho) as Hin.
    destruct (parse_loop_reaches overflow_checks control control_length Hl Hm o Ho) as (n & ds & Hn & Hr).
    replace (S (N.to_nat control_length)) with (n + S (N.to_nat control_length - n))%nat by lia.
    rewrite Hr. pose proof (parse_loop_overflow overflow_checks control control_length Hl Hm
      (N.to_nat control_length - n) o ds Hin Hov) as H.
    destruct overflow_checks; [by exists ds|exact H].
Qed.

(** ** Who owns a descriptor *)

(** The descriptors the kernel opened in the process with a received packet. *)
Definition delivered (r : received) : list fd := received_installed r.

(** What [recvmsg] documents of a reply, for a control buffer of a given size:
    it stays inside the buffer, and the control data announces the descriptors
    the call opened, all of them and no others.  A call that fails opens none. *)
Record recvmsg_law (room : N) (r : received) : Prop := {
  law_buffer : len (received_control r) = room;
  law_length : received_control_length r <= room;
  law_installed :
    if failed (received_result r) then received_installed r = []
    else carries (take (N.to_nat (received_control_length r)) (received_control r))
           (received_installed r);
}.

Definition opened (r : returned) : list fd := if failed r then [] else [returned_value r].

(** What an event of the process' life does to its descriptors. *)
Definition acquired_by (e : event) : list fd :=
  match e with
  | existT c r =>
      match c return reply_of c -> list fd with
      | Call_socket _ _ _ | Call_accept4 _ _ | Call_dup _ => opened
      | Call_recvmsg _ _ _ _ => delivered
      | _ => fun _ => []
      end r
  end.
Definition released_by (e : event) : list fd :=
  match e with
  | existT c _ => match c with Call_close d => [d] | _ => [] end
  end.

Definition acquired (t : list event) : list fd := concat (acquired_by <$> t).
Definition released (t : list event) : list fd := concat (released_by <$> t).

(** What the caller of an operation owns afterwards. *)
Definition owned {A} (f : A -> list fd) (r : result IoError A) : list fd :=
  match r with Ok a => f a | _ => [] end.

(** Every descriptor acquired is closed or handed to the caller, once. *)
Definition balanced (result_fds : list fd) (t : list event) : Prop :=
  acquired t ≡ₚ released t ++ result_fds.

Lemma run_bind {A B} (K : kernel) t (m : sys A) (f : A -> sys B) :
  run K t (m ≫= f) = let '(a, t) := run K t m in run K t (f a).
Proof. revert t. induction m as [a|c k IH]; intros t; [done|]. cbn. apply IH. Qed.

Lemma run_close_all K t ds :
  run K t (close_all ds) = (tt, t ++ ((fun d => existT (Call_close d) tt : event) <$> ds)).
Proof.
  revert t. induction ds as [|d ds IH]; intros t; [by rewrite app_nil_r|].
  cbn [close_all foldr run fmap list_fmap]. destruct (K t (Call_close d)).
  fold (close_all ds). by rewrite IH, <- (assoc_L (++)).
Qed.

Lemma acquired_closes ds : acquired ((fun d => existT (Call_close d) tt : event) <$> ds) = [].
Proof. unfold acquired. induction ds as [|d ds IH]; [done|]. exact IH. Qed.

Lemma released_closes ds : released ((fun d => existT (Call_close d) tt : event) <$> ds) = ds.
Proof. unfold released. induction ds as [|d ds IH]; [done|]. cbn in *. by rewrite IH. Qed.

Lemma acquired_app t u : acquired (t ++ u) = acquired t ++ acquired u.
Proof. unfold acquired. by rewrite fmap_app, concat_app. Qed.

Lemma released_app t u : released (t ++ u) = released t ++ released u.
Proof. unfold released. by rewrite fmap_app, concat_app. Qed.

(** Follows an operation through every reply of the kernel. *)
Ltac follow :=
  repeat first
    [ progress cbn [run ask mbind sys_bind mret sys_ret close_all foldr app]
    | match goal with
      | |- context [if ?c then _ else _] => destruct c eqn:?
      | |- context [match ?r with Ok _ => _ | Err _ => _ | Panic => _ end] => destruct r eqn:?
      end ].

Ltac settle :=
  unfold balanced, acquired, released;
  cbn [fmap list_fmap concat acquired_by released_by owned app opened];
  repeat match goal with
    H : failed ?r = ?b |- context [opened ?r] => unfold opened; rewrite H end;
  rewrite ?app_nil_r; try done.

Lemma connect_balanced K path :
  let '(r, t) := run K [] (Connection_connect path) in balanced (owned (fun s => [s]) r) t.
Proof.
  unfold Connection_connect. destruct (socket_address path) as [[address length]|e|];
    follow; settle.
Qed.

Lemma bind_balanced K path :
  let '(r, t) := run K [] (Listener_bind path) in balanced (owned (fun l => [listener_fd l]) r) t.
Proof.
  unfold Listener_bind. destruct (Path_parent path), (socket_address path) as [[address length]|e|];
    follow; settle.
Qed.

(** C38: descriptors are never leaked by opening a connection.  Whatever the
    kernel answers, connecting, binding, accepting and duplicating return each
    descriptor they acquired or close it, exactly once, on success and on every
    error; sending, with or without descriptors, neither takes nor closes any,
    and disconnecting closes the connection's. *)
Theorem descriptors_balanced (K : kernel) :
  (forall path, let '(r, t) := run K [] (Connection_connect path) in
     balanced (owned (fun s => [s]) r) t) /\
  (forall path, let '(r, t) := run K [] (Listener_bind path) in
     balanced (owned (fun l => [listener_fd l]) r) t) /\
  (forall self, let '(r, t) := run K [] (Listener_accept self) in balanced (owned (fun s => [s]) r) t) /\
  (forall self, let '(r, t) := run K [] (try_clone self) in balanced (owned (fun s => [s]) r) t) /\
  (forall self packet ds, let '(r, t) := run K [] (send_packet_with_fds self packet ds) in
     acquired t = [] /\ released t = [] /\ r <> Panic) /\
  (forall self, let '(r, t) := run K [] (disconnect self) in acquired t = [] /\ released t = [self]).
Proof.
  split; [apply connect_balanced|]. split; [apply bind_balanced|].
  split; [intros self; unfold Listener_accept; follow; settle|].
  split; [intros self; unfold try_clone; follow; settle|]. split.
  - intros self packet ds. unfold send_packet_with_fds, send_packet.
    destruct packet as [|x packet]; [done|]. cbn [validate_packet]. rewrite control_message_spec.
    unfold check_packet_write. follow; by settle.
  - intros self. unfold disconnect. follow; by settle.
Qed.

(** The paths on which a received packet is given up before its control data is
    read: an empty packet, one over the size limit, truncated control data. *)
Definition unread (maximum_size : N) (r : received) : bool :=
  (returned_value (received_result r) =? 0)%Z ||
  (maximum_size <? Z.to_N (returned_value (received_result r))) ||
  negb (Z.land (received_flags r) MSG_CTRUNC =? 0)%Z.

Definition receive_call (self : Connection) (maximum_size maximum_descriptors : N) : call :=
  Call_recvmsg self maximum_size (cmsg_space (size_of_i32 * maximum_descriptors))
    (Z.lor MSG_TRUNC MSG_CMSG_CLOEXEC).

Lemma closed_balanced (e : event) ds :
  acquired_by e = ds -> released_by e = [] ->
  let t := e :: ((fun d => existT (Call_close d) tt : event) <$> ds) in
  acquired t = ds /\ balanced [] t.
Proof.
  intros Ha Hr. unfold balanced. cbv zeta.
  match goal with |- context [e :: ?l] => change (e :: l) with ([e] ++ l) end.
  rewrite !acquired_app, !released_app, acquired_closes, released_closes.
  unfold acquired, released. cbn [fmap list_fmap concat]. rewrite Ha, Hr, !app_nil_r. by cbn.
Qed.

(** C33: who owns received descriptors.  If the kernel announces in the control
    data the descriptors it opens in the process, then
    [receive_packet_with_fds] never panics or leaves the buffer, and what becomes
    of these descriptors is determined: all are returned, in order and with the
    whole packet, or, if there are more than asked for, all are closed.  But on
    three paths it gives up before it reads the control data: an empty packet,
    one over the size limit, and truncated control data; then the descriptors
    the kernel opened are neither returned nor closed. *)
Theorem received_descriptors overflow_checks (K : kernel) self maximum_size maximum_descriptors :
  maximum_descriptors <= MAX_FILE_DESCRIPTORS -> 0 < maximum_size ->
  let m : received := K [] (receive_call self maximum_size maximum_descriptors) in
  recvmsg_law (cmsg_space (size_of_i32 * maximum_descriptors)) m ->
  let '(r, t) :=
    run K [] (receive_packet_with_fds overflow_checks self maximum_size maximum_descriptors) in
  acquired t = delivered m /\
  if failed (received_result m) then
    delivered m = [] /\ released t = [] /\
    r = Some (Err (IoError_Os (returned_errno (received_result m))))
  else if unread maximum_size m then
    released t = [] /\
    (r = Some (Ok None) \/ exists text, r = Some (Err (IoError_New ErrorKind_InvalidData text)))
  else if maximum_descriptors <? len (delivered m) then
    released t = delivered m /\
    exists text, r = Some (Err (IoError_New ErrorKind_InvalidData text))
  else
    released t = [] /\
    r = Some (Ok (Some (take (Z.to_nat (returned_value (received_result m))) (received_packet m),
                        delivered m))).
Proof.
  intros Hmd Hms m [Hbuf Hlen Hlaw]. unfold receive_packet_with_fds, unread, invalid_data.
  destruct (N.ltb_spec MAX_FILE_DESCRIPTORS maximum_descriptors); [lia|].
  destruct (N.eqb_spec maximum_size 0); [lia|]. fold (receive_call self maximum_size maximum_descriptors).
  cbn [run ask mbind sys_bind mret sys_ret].
  change (K [] (receive_call self maximum_size maximum_descriptors)) with m.
  change (reply_of (receive_call self maximum_size maximum_descriptors)) with received in *.
  set (e := existT (receive_call self maximum_size maximum_descriptors) m : event).
  assert (acquired [e] = delivered m) as Ha by (unfold acquired, e; cbn; by rewrite app_nil_r).
  assert (released [e] = []) as Hr by done.
  destruct (failed (received_result m)); [done|].
  destruct (returned_value (received_result m) =? 0)%Z; [split; [exact Ha|]; split; [done|by left]|].
  destruct (maximum_size <? Z.to_N (returned_value (received_result m)));
    [split; [exact Ha|]; split; [done|right; by eexists]|].
  destruct (negb _); [split; [exact Ha|]; split; [done|right; by eexists]|]. cbn [orb].
  rewrite (parse_carries overflow_checks (received_control m) (received_control_length m)
    (received_installed m) ltac:(by rewrite Hbuf)
    ltac:(pose proof (cmsg_align_bounds (size_of_i32 * maximum_descriptors));
          unfold cmsg_space, size_of_i32, isize_max, MAX_FILE_DESCRIPTORS in *;
          change (cmsg_align size_of_control_header) with 16 in *; lia) Hlaw).
  change (received_installed m) with (delivered m).
  destruct (maximum_descriptors <? len (delivered m)); [|done].
  rewrite run_bind, run_close_all. cbn [app run].
  destruct (closed_balanced e (delivered m) eq_refl eq_refl) as [Hacq _]. split; [exact Hacq|].
  split; [|by eexists]. change (e :: ?l) with ([e] ++ l).
  by rewrite released_app, released_closes, Hr.
Qed.

(** ** Packets without descriptors *)

(** Sixteen bytes of control data announce no descriptor. *)
Lemma small_control_empty control ds : len control <= 16 -> carries control ds -> ds = [].
Proof.
  intros Hl Hc. assert (forall m ds', announces m ds' -> len (cm_data m) = 0 -> ds' = []) as H0.
  { intros m ds' [ds0 _|]; [|done]. cbn [cm_data]. rewrite len_concat_i32. unfold len.
    destruct ds0; [done|cbn; lia]. }
  induction Hc as [|m ds padding cut Hm Hp|m ds padding control more Hm Hp Hc IH]; [done|..];
    rewrite !len_app, len_message_wire in Hl; rewrite (H0 m ds Hm) by lia; [done|].
  apply IH. lia.
Qed.

Lemma small_control_delivered m : recvmsg_law (cmsg_space 0) m -> delivered m = [].
Proof.
  intros [Hb Hl Hc]. change (cmsg_space 0) with 16 in *. unfold delivered.
  destruct (failed _); [done|]. eapply small_control_empty; [|exact Hc].
  unfold len in *. rewrite length_take. lia.
Qed.

Ltac answers :=
  split_and!; try done; intros; try split; intros; destruct_and?; simplify_eq; split_and?;
  try done; try lia; try congruence.

(** Packets without descriptors.  [receive_packet], which the daemon and the
    client use, offers the kernel no room for descriptors: it never acquires
    one, whatever the peer attached.  It returns [None] exactly when the peer is
    gone, and otherwise a whole packet within the limit, whose control data was
    not truncated. *)
Theorem receive_packet_behaviour overflow_checks (K : kernel) self maximum_size :
  let m : received := K [] (receive_call self maximum_size 0) in
  0 < maximum_size -> recvmsg_law (cmsg_space 0) m ->
  let '(r, t) := run K [] (receive_packet overflow_checks self maximum_size) in
  acquired t = [] /\ released t = [] /\ (r <> None /\ r <> Some Panic) /\
  (r = Some (Ok None) <->
     failed (received_result m) = false /\ returned_value (received_result m) = 0%Z) /\
  (forall errno, r = Some (Err (IoError_Os errno)) <->
     failed (received_result m) = true /\ errno = returned_errno (received_result m)) /\
  forall packet, r = Some (Ok (Some packet)) ->
    packet = take (Z.to_nat (returned_value (received_result m))) (received_packet m) /\
    (0 < returned_value (received_result m) <= Z.of_N maximum_size)%Z /\
    Z.land (received_flags m) MSG_CTRUNC = 0%Z.
Proof.
  intros m Hms Hlaw. pose proof (small_control_delivered m Hlaw) as Hdel.
  unfold receive_packet. rewrite run_bind.
  unfold receive_packet_with_fds, MAX_FILE_DESCRIPTORS, last_os_error, invalid_data.
  destruct (N.ltb_spec 16 0); [lia|]. destruct (N.eqb_spec maximum_size 0); [lia|].
  change (Call_recvmsg self maximum_size (cmsg_space (size_of_i32 * 0)) _) with
    (receive_call self maximum_size 0).
  cbn [run ask mbind sys_bind mret sys_ret]. change (K [] (receive_call self maximum_size 0)) with m.
  assert (acquired [existT (receive_call self maximum_size 0) m : event] = []) as Ha
    by (unfold acquired; cbn; by rewrite Hdel).
  assert (released [existT (receive_call self maximum_size 0) m : event] = []) as Hr by done.
  destruct Hlaw as [Hb Hl Hlaw]. unfold delivered in Hdel. rewrite Hdel in Hlaw.
  change (cmsg_space 0) with 16 in *.
  destruct (failed (received_result m)) eqn:Hf; cbn [run app].
  { answers. }
  destruct (Z.eqb_spec (returned_value (received_result m)) 0) as [H0|H0]; cbn [run app].
  { answers. }
  assert (0 < returned_value (received_result m))%Z as Hpos
    by (unfold failed in Hf; apply Z.ltb_ge in Hf; lia).
  destruct (N.ltb_spec maximum_size (Z.to_N (returned_value (received_result m)))); cbn [run app].
  { answers. }
  destruct (negb _) eqn:Ht; cbn [run app].
  { answers. }
  apply negb_false_iff, Z.eqb_eq in Ht.
  rewrite (parse_carries overflow_checks (received_control m) (received_control_length m) []
    ltac:(by rewrite Hb) ltac:(unfold isize_max; lia) Hlaw).
  cbn. answers.
Qed.

(** ** Addresses and credentials *)

(** The text before the first NUL. *)
Fixpoint c_string (l : bytes) : bytes :=
  match l with
  | [] => []
  | b :: l => if byte_eqb b x00 then [] else b :: c_string l
  end.

Lemma c_string_padded l n : x00 ∉ l -> c_string (l ++ replicate (S n) x00) = l.
Proof.
  induction l as [|b l IH]; intros Hl; [done|]. cbn [c_string app].
  destruct (byte_eqb b x00) eqn:E; [apply byte_eqb_true in E; set_solver|]. rewrite IH; [done|set_solver].
Qed.

Lemma existsb_nul l : existsb (byte_eqb x00) l = true <-> x00 ∈ l.
Proof.
  rewrite existsb_exists. setoid_rewrite byte_eqb_true. setoid_rewrite <- list_elem_of_In. naive_solver.
Qed.

(** Socket addresses.  A path is accepted exactly if it is not empty, has
    no NUL and leaves room for a terminating one; the address then holds the
    path, terminated and padded to the capacity of the structure, its length
    never exceeds the structure, and reading it back as a C string gives the
    path. *)
Theorem socket_address_behaviour source :
  match socket_address source with
  | Ok (address, length) =>
      source <> [] /\ len source < SUN_PATH_CAPACITY /\ (x00 ∉ source) /\
      sun_family address = AF_UNIX /\ len (sun_path address) = SUN_PATH_CAPACITY /\
      c_string (sun_path address) = source /\
      length = 2 + len source + 1 /\ length <= 2 + SUN_PATH_CAPACITY
  | Err e =>
      (source = [] \/ SUN_PATH_CAPACITY <= len source \/ x00 ∈ source) /\
      exists text, e = IoError_New ErrorKind_InvalidInput text
  | Panic => False
  end.
Proof.
  unfold socket_address. destruct (_ || _) eqn:E.
  - split; [|by eexists]. rewrite !orb_true_iff, bool_decide_eq_true, N.leb_le, existsb_nul in E. tauto.
  - rewrite !orb_false_iff, bool_decide_eq_false, N.leb_gt, <- not_true_iff_false, existsb_nul in E.
    destruct E as [[Hne Hlt] Hnul]. unfold SUN_PATH_CAPACITY in *. cbn [sun_family sun_path].
    unfold c_path, SUN_PATH_CAPACITY.
    assert (exists n, N.to_nat 108 - length source = S n)%nat as [n Hn]
      by (exists (107 - length source)%nat; unfold len in *; lia).
    split_and!; try done; try lia.
    + rewrite len_app, len_replicate. unfold len in *. lia.
    + rewrite Hn. by apply c_string_padded.
Qed.

(** Peers are who the kernel says.  [peer_credentials] returns the process,
    user and group of the kernel's record, unchanged, exactly when the call
    succeeded with a complete record and the process identifier is not negative;
    otherwise it fails. *)
Theorem peer_credentials_behaviour (K : kernel) self c :
  let reply : credentials_reply := K [] (Call_getsockopt self SOL_SOCKET SO_PEERCRED size_of_ucred) in
  (run K [] (peer_credentials self)).1 = Ok c <->
  failed (credentials_result reply) = false /\ credentials_length reply = size_of_ucred /\
  Z.of_N (peer_pid c) = ucred_pid (credentials_record reply) /\
  peer_uid c = ucred_uid (credentials_record reply) /\ peer_gid c = ucred_gid (credentials_record reply).
Proof.
  intros reply. unfold peer_credentials, last_os_error, invalid_data.
  cbn [run ask mbind sys_bind mret sys_ret]. fold reply.
  destruct (failed (credentials_result reply)); [by split; [|intros [? _]]|].
  destruct (N.eqb_spec (credentials_length reply) size_of_ucred) as [Hlen|Hlen]; cbn [negb run fst];
    [|by split; [|intros (_ & ? & _)]].
  destruct (Z.ltb_spec (ucred_pid (credentials_record reply)) 0); cbn [run fst].
  - split; [done|]. intros (_ & _ & Hp & _). lia.
  - split.
    + intros [= <-]. cbn. split_and!; try done. lia.
    + intros (_ & _ & Hp & Hu & Hg). destruct c as [p u g]. cbn in *. subst u g. do 2 f_equal. lia.
Qed.

(** ** The errors of a connection *)

(** The texts the transport makes itself when it receives, sends and duplicates. *)
Definition transport_messages : list bytes := [
  bs "native packets must not be empty";
  bs "native packet was not sent completely";
  bs "configured descriptor limit exceeds native transport limit";
  bs "maximum packet size must be non-zero";
  bs "native packet exceeds the configured maximum size";
  bs "native packet contains too many file descriptors";
  bs "native packet contains malformed control data";
  bs "native packet contains malformed file descriptors";
  bs "native packet unexpectedly contains file descriptors"].

Definition transport_reports (error : IoError) : Prop :=
  match error with IoError_Os _ => True | IoError_New _ message => message ∈ transport_messages end.

Definition fails_as_reported {A} (r : result IoError A) : Prop :=
  match r with Err error => transport_reports error | _ => True end.

Lemma message_reported kind (text : bytes) :
  bool_decide (text ∈ transport_messages) = true -> transport_reports (IoError_New kind text).
Proof. apply bool_decide_eq_true. Qed.

Ltac reported :=
  first [exact I | apply message_reported; vm_compute; reflexivity
        | apply (proj1 (bool_decide_eq_true _)); vm_compute; reflexivity].

Lemma parse_loop_reported overflow_checks fuel control control_length offset ds kind text dropped :
  parse_loop overflow_checks fuel control control_length offset ds = Malformed text dropped ->
  transport_reports (IoError_New kind text).
Proof.
  revert offset ds. induction fuel as [|fuel IH]; intros offset ds; [done|]. cbn [parse_loop].
  repeat case_match; try done; try apply IH; intros [= <- _]; reported.
Qed.

Lemma send_reported (K : kernel) t self packet : fails_as_reported (run K t (send_packet self packet)).1.
Proof.
  unfold send_packet. destruct packet as [|x packet]; cbn; [reported|].
  unfold check_packet_write. repeat case_match; cbn; reported.
Qed.

Lemma clone_reported (K : kernel) t self : fails_as_reported (run K t (try_clone self)).1.
Proof. cbn. by case_match. Qed.

Lemma receive_reported overflow_checks (K : kernel) t self maximum_size r :
  (run K t (receive_packet overflow_checks self maximum_size)).1 = Some r -> fails_as_reported r.
Proof.
  unfold receive_packet. rewrite run_bind.
  destruct (run K t (receive_packet_with_fds overflow_checks self maximum_size 0)) as [r0 t0] eqn:E.
  assert (match r0 with Some r0 => fails_as_reported r0 | None => True end) as Hr.
  { unfold receive_packet_with_fds in E. change (MAX_FILE_DESCRIPTORS <? 0) with false in E. cbv iota in E.
    destruct (maximum_size =? 0); [by injection E as <- _; reported|].
    cbn [run ask mbind sys_bind mret sys_ret] in E.
    destruct (failed _); [by injection E as <- _|].
    destruct (_ =? 0)%Z; [by injection E as <- _|].
    destruct (_ <? _); [by injection E as <- _; reported|].
    destruct (negb _); [by injection E as <- _; reported|].
    destruct (parse_descriptors _ _ _) as [ds|text ds|ds| |] eqn:Ep.
    - destruct (_ <? _); [|by injection E as <- _].
      rewrite run_bind, run_close_all in E. injection E as <- _. reported.
    - rewrite run_bind, run_close_all in E. injection E as <- _. by eapply parse_loop_reported.
    - rewrite run_bind, run_close_all in E. by injection E as <- _.
    - by injection E as <- _.
    - by injection E as <- _. }
  destruct r0 as [[[[packet ds]|]|e|]|]; cbn; try (by intros [= <-]).
  case_bool_decide; cbn; [by intros [= <-]|]. rewrite run_bind, run_close_all. cbn. intros [= <-]. reported.
Qed.

(** ** Witnesses *)

Lemma descriptors_roundtrip_witness :
  exists control, control_message [3; 7; 9]%Z = Some control /\ len control = cmsg_space 12 /\
    parse_descriptors false control 28 = Parsed [3; 7; 9]%Z.
Proof.
  destruct (descriptors_roundtrip false [3; 7; 9]%Z) as (control & Hc & Hl & Hp).
  - repeat constructor; by vm_compute.
  - by vm_compute.
  - exists control. split; [exact Hc|]. split; [exact Hl|]. apply Hp. by vm_compute.
Defined.

(** A header of sixteen bytes, then one of a message of descriptors whose length
    is 2^64 - 4: the debug build panics, the release build reads outside. *)
Definition overflowing_control : bytes :=
  to_le 8 16 ++ to_i32 0 ++ to_i32 0 ++
  to_le 8 (2 ^ 64 - 4) ++ to_i32 SOL_SOCKET ++ to_i32 SCM_RIGHTS.

Lemma parse_descriptors_safe_witness :
  (exists ds, parse_descriptors true overflowing_control 32 = Overflow ds) /\
  parse_descriptors false overflowing_control 32 = Out_of_bounds /\
  match parse_descriptors false (replicate 24 x00) 24 with
  | Parsed _ | Malformed _ _ => True
  | Overflow _ | Out_of_bounds | Unfinished => False
  end.
Proof.
  assert (header_at overflowing_control 32 16) as Hh.
  { eapply header_next; [by constructor| |by vm_compute|by vm_compute].
    split_and!; [by vm_compute..|]. by vm_compute. }
  assert (overflowing overflowing_control 16) as Ho by by vm_compute.
  split_and!.
  - exact (proj2 (parse_descriptors_safe true overflowing_control 32 ltac:(by vm_compute)
      ltac:(by vm_compute)) 16 Hh Ho).
  - exact (proj2 (parse_descriptors_safe false overflowing_control 32 ltac:(by vm_compute)
      ltac:(by vm_compute)) 16 Hh Ho eq_refl eq_refl).
  - apply (proj1 (parse_descriptors_safe false (replicate 24 x00) 24 ltac:(by vm_compute)
      ltac:(by vm_compute))).
    assert (forall o, header_at (replicate 24 x00) 24 o -> o = 0) as H0.
    { induction 1 as [|o next _ -> [Hw _] _ _]; [done|]. by vm_compute in Hw. }
    intros o Hc. rewrite (H0 o Hc). by vm_compute.
Defined.

(** A kernel that delivers two descriptors and a truncation flag. *)
Definition demo_kernel (flags : Z) : kernel := fun _ c =>
  match c return reply_of c with
  | Call_recvmsg _ size _ _ => {|
      received_result := {| returned_value := 3; returned_errno := 0 |};
      received_packet := bs "abc" ++ replicate (N.to_nat size - 3) x00;
      received_control := control_wire [5; 6]%Z;
      received_control_length := cmsg_len 8;
      received_flags := flags;
      received_installed := [5; 6]%Z |}
  | Call_getsockopt _ _ _ _ => {|
      credentials_result := {| returned_value := 0; returned_errno := 0 |};
      credentials_record := {| ucred_pid := 7; ucred_uid := 8; ucred_gid := 9 |};
      credentials_length := 12 |}
  | Call_close _ => tt
  | Call_create_dir_all _ => Ok tt
  | Call_exists _ => false
  | _ => {| returned_value := 4; returned_errno := 0 |}
  end.

(** Two descriptors are handed over, but with truncated data they are lost. *)
Lemma received_descriptors_witness :
  (run (demo_kernel 0) [] (receive_packet_with_fds false 4 64 2)).1 =
    Some (Ok (Some (bs "abc", [5; 6]%Z))) /\
  let '(r, t) := run (demo_kernel 8) [] (receive_packet_with_fds false 4 64 2) in
  acquired t = [5; 6]%Z /\ released t = [].
Proof.
  assert (forall flags, recvmsg_law (cmsg_space (size_of_i32 * 2))
    (demo_kernel flags [] (receive_call 4 64 2))) as Hlaw.
  { intros flags. split; [by vm_compute..|].
    apply (control_wire_carries [5; 6]%Z 24); [|by vm_compute].
    repeat constructor; by vm_compute. }
  split.
  - pose proof (received_descriptors false (demo_kernel 0) 4 64 2 ltac:(by vm_compute)
      ltac:(by vm_compute) (Hlaw 0%Z)) as H.
    destruct (run (demo_kernel 0) [] (receive_packet_with_fds false 4 64 2)) as [r t].
    destruct H as [_ H]. destruct H as [_ H]. cbn [fst]. rewrite H. by vm_compute.
  - pose proof (received_descriptors false (demo_kernel 8) 4 64 2 ltac:(by vm_compute)
      ltac:(by vm_compute) (Hlaw 8%Z)) as H.
    destruct (run (demo_kernel 8) [] (receive_packet_with_fds false 4 64 2)) as [r t].
    destruct H as [Ha [Hr _]]. split; [exact Ha|exact Hr].
Defined.

(** A kernel that delivers a packet and nothing else. *)
Definition plain_kernel : kernel := fun past c =>
  match c return reply_of c with
  | Call_recvmsg _ size _ _ => {|
      received_result := {| returned_value := 3; returned_errno := 0 |};
      received_packet := bs "abc" ++ replicate (N.to_nat size - 3) x00;
      received_control := replicate 16 x00;
      received_control_length := 0;
      received_flags := 0;
      received_installed := [] |}
  | c => demo_kernel 0 past c
  end.

Lemma receive_packet_behaviour_witness :
  let '(r, t) := run plain_kernel [] (receive_packet false 4 64) in
  acquired t = [] /\ released t = [] /\ r = Some (Ok (Some (bs "abc"))).
Proof.
  assert (recvmsg_law (cmsg_space 0) (plain_kernel [] (receive_call 4 64 0))) as Hlaw
    by (split; [by vm_compute..|]; apply carries_nothing).
  pose proof (receive_packet_behaviour false plain_kernel 4 64 ltac:(by vm_compute) Hlaw) as H.
  destruct (run plain_kernel [] (receive_packet false 4 64)) as [r t] eqn:E. destruct H as (Ha & Hr & _).
  split; [exact Ha|]. split; [exact Hr|]. vm_compute in E. by injection E as <- _.
Defined.
