(* ===== verification/Daemon.v ===== *)
(** * The daemon (crates/busd/src/main.rs)

    The command line, the credentials the daemon attests, and the threads that
    serve connections: one [phase] per point at which a thread of the code can
    wait or be interleaved with another (a lock, a packet received or sent), and
    [thread_step] from one to the next.  Sockets, clocks and the /proc files
    answer through the arguments of the definitions that consult them. *)

From S2P Require Export Transport Codec Broker.

Local Open Scope N_scope.

(** ** The command line *)

Definition DEFAULT_SOCKET : bytes := bs "/run/busd/busd.sock".

Inductive PolicySource :=
| PolicySource_SafeDefaults
| PolicySource_File (path : bytes)
| PolicySource_UnsafeAllowAll.

Record DaemonCommand := {
  command_socket : bytes;
  command_policy : PolicySource;
  command_limits : Limits;
  command_maximum_frame_size : N;
}.

Inductive Command :=
| Command_Daemon (command : DaemonCommand)
| Command_Health (socket : bytes).

(** The only error of the parser is [usage()]. *)
Local Abbreviation parsed := (result ()).
Definition usage {A} : parsed A := Err tt.

(** An [OsString] is arbitrary bytes; [into_string] and [to_str] require text. *)
Definition argument_text (argument : bytes) : option bytes :=
  if utf8_valid argument then Some argument else None.

Definition parse_limit (value : bytes) : parsed N :=
  value ← ok_or tt (argument_text value);
  value ← ok_or tt (parse_unsigned usize_max value);
  if value =? 0 then usage else Ok value.

Definition set_command_socket (path : bytes) (c : DaemonCommand) : DaemonCommand := {|
  command_socket := path; command_policy := command_policy c;
  command_limits := command_limits c;
  command_maximum_frame_size := command_maximum_frame_size c |}.
Definition set_command_policy (policy : PolicySource) (c : DaemonCommand) : DaemonCommand := {|
  command_socket := command_socket c; command_policy := policy;
  command_limits := command_limits c;
  command_maximum_frame_size := command_maximum_frame_size c |}.
Definition set_command_limits (f : Limits -> Limits) (c : DaemonCommand) : DaemonCommand := {|
  command_socket := command_socket c; command_policy := command_policy c;
  command_limits := f (command_limits c);
  command_maximum_frame_size := command_maximum_frame_size c |}.
Definition set_command_frame_size (n : N) (c : DaemonCommand) : DaemonCommand := {|
  command_socket := command_socket c; command_policy := command_policy c;
  command_limits := command_limits c; command_maximum_frame_size := n |}.

(** The limit an option of the command line sets. *)
Definition limit_option (flag : bytes) : option (N -> DaemonCommand -> DaemonCommand) :=
  if bool_decide (flag = bs "--maximum-frame-size") then Some set_command_frame_size
  else if bool_decide (flag = bs "--maximum-queued-bytes") then
    Some (fun n => set_command_limits (fun l =>
      {| maximum_queued_bytes := n;
         maximum_queued_messages := maximum_queued_messages l;
         maximum_in_flight_requests := maximum_in_flight_requests l;
         maximum_subscriptions := maximum_subscriptions l;
         maximum_namespace_claims := maximum_namespace_claims l |}))
  else if bool_decide (flag = bs "--maximum-queued-messages") then
    Some (fun n => set_command_limits (fun l =>
      {| maximum_queued_bytes := maximum_queued_bytes l;
         maximum_queued_messages := n;
         maximum_in_flight_requests := maximum_in_flight_requests l;
         maximum_subscriptions := maximum_subscriptions l;
         maximum_namespace_claims := maximum_namespace_claims l |}))
  else if bool_decide (flag = bs "--maximum-in-flight-requests") then
    Some (fun n => set_command_limits (fun l =>
      {| maximum_queued_bytes := maximum_queued_bytes l;
         maximum_queued_messages := maximum_queued_messages l;
         maximum_in_flight_requests := n;
         maximum_subscriptions := maximum_subscriptions l;
         maximum_namespace_claims := maximum_namespace_claims l |}))
  else if bool_decide (flag = bs "--maximum-subscriptions") then
    Some (fun n => set_command_limits (fun l =>
      {| maximum_queued_bytes := maximum_queued_bytes l;
         maximum_queued_messages := maximum_queued_messages l;
         maximum_in_flight_requests := maximum_in_flight_requests l;
         maximum_subscriptions := n;
         maximum_namespace_claims := maximum_namespace_claims l |}))
  else if bool_decide (flag = bs "--maximum-namespace-claims") then
    Some (fun n => set_command_limits (fun l =>
      {| maximum_queued_bytes := maximum_queued_bytes l;
         maximum_queued_messages := maximum_queued_messages l;
         maximum_in_flight_requests := maximum_in_flight_requests l;
         maximum_subscriptions := maximum_subscriptions l;
         maximum_namespace_claims := n |}))
  else None.

(** The loop of [parse_daemon_command]. *)
Fixpoint parse_daemon_options (arguments : list bytes) (c : DaemonCommand) : parsed DaemonCommand :=
  match arguments with
  | [] => Ok c
  | argument :: arguments =>
      match argument_text argument with
      | None => usage
      | Some flag =>
          if bool_decide (flag = bs "--socket") then
            match arguments with
            | [] => usage
            | path :: arguments => parse_daemon_options arguments (set_command_socket path c)
            end
          else if bool_decide (flag = bs "--policy") then
            match command_policy c with
            | PolicySource_UnsafeAllowAll => usage
            | _ =>
                match arguments with
                | [] => usage
                | path :: arguments =>
                    parse_daemon_options arguments (set_command_policy (PolicySource_File path) c)
                end
            end
          else if bool_decide (flag = bs "--unsafe-allow-all") then
            match command_policy c with
            | PolicySource_File _ => usage
            | _ => parse_daemon_options arguments (set_command_policy PolicySource_UnsafeAllowAll c)
            end
          else
            match limit_option flag, arguments with
            | Some set, value :: arguments =>
                value ← parse_limit value; parse_daemon_options arguments (set value c)
            | _, _ => usage
            end
      end
  end.

Definition parse_daemon_command (arguments : list bytes) : parsed Command :=
  command ← parse_daemon_options arguments {|
    command_socket := DEFAULT_SOCKET;
    command_policy := PolicySource_SafeDefaults;
    command_limits := Limits_default;
    command_maximum_frame_size := maximum_frame_size FrameLimits_default |};
  Ok (Command_Daemon command).

Fixpoint parse_health_options (arguments : list bytes) (socket : bytes) : parsed bytes :=
  match arguments with
  | [] => Ok socket
  | argument :: arguments =>
      if bool_decide (argument = bs "--socket") then
        match arguments with
        | [] => usage
        | path :: arguments => parse_health_options arguments path
        end
      else usage
  end.

Definition parse_health_command (arguments : list bytes) : parsed Command :=
  socket ← parse_health_options arguments DEFAULT_SOCKET; Ok (Command_Health socket).

Definition parse_command (arguments : list bytes) : parsed Command :=
  match arguments with
  | [] => usage
  | value :: arguments =>
      match argument_text value with
      | None => usage
      | Some name =>
          if bool_decide (name = bs "daemon") then parse_daemon_command arguments
          else if bool_decide (name = bs "health") then parse_health_command arguments
          else usage
      end
  end.

Example parse_command_example :
  parse_command [bs "daemon"; bs "--maximum-subscriptions"; bs "7"; bs "--policy"; bs "/etc/p"] =
  Ok (Command_Daemon {|
    command_socket := bs "/run/busd/busd.sock";
    command_policy := PolicySource_File (bs "/etc/p");
    command_limits := {| maximum_queued_bytes := 4194304; maximum_queued_messages := 1024;
      maximum_in_flight_requests := 128; maximum_subscriptions := 7;
      maximum_namespace_claims := 64 |};
    command_maximum_frame_size := 1048576 |}).
Proof. by vm_compute. Qed.

(** The policy the daemon runs, once the file is read. *)
Inductive DaemonPolicy :=
| DaemonPolicy_SafeDefaults (policy : SafeDefaults)
| DaemonPolicy_File (policy : ConfigPolicy)
| DaemonPolicy_UnsafeAllowAll (policy : AllowAll).

#[export] Instance DaemonPolicy_policy : Policy DaemonPolicy := fun self request =>
  match self with
  | DaemonPolicy_SafeDefaults policy => permits policy request
  | DaemonPolicy_File policy => permits policy request
  | DaemonPolicy_UnsafeAllowAll policy => permits policy request
  end.

(** The policy of [run_daemon]; [read_to_string] answers for the file system. *)
Definition load_policy (read_to_string : bytes -> option bytes) (source : PolicySource)
    : option DaemonPolicy :=
  match source with
  | PolicySource_SafeDefaults => Some (DaemonPolicy_SafeDefaults safe_defaults)
  | PolicySource_File path =>
      text ← read_to_string path;
      match ConfigPolicy_parse text with
      | Ok policy => Some (DaemonPolicy_File policy)
      | _ => None
      end
  | PolicySource_UnsafeAllowAll => Some (DaemonPolicy_UnsafeAllowAll allow_all)
  end.

(** ** Attested credentials *)

(** The /proc files of a process; each read may fail. *)
Record proc_files := {
  read_link : bytes -> option bytes;
  read_file : bytes -> option bytes;
}.

Definition read_to_string (proc : proc_files) (path : bytes) : option bytes :=
  value ← read_file proc path; if utf8_valid value then Some value else None.

(** [Some(value).filter(|value| !value.is_empty())]. *)
Definition non_empty (value : bytes) : option bytes :=
  if bool_decide (value = []) then None else Some value.

Definition credentials_from_peer (proc : proc_files) (peer : PeerCredentials) : Credentials :=
  let root := bs "/proc/" ++ dec (peer_pid peer) in
  {| pid := peer_pid peer;
     uid := peer_uid peer;
     gid := peer_gid peer;
     executable := to_string_lossy <$> read_link proc (root ++ bs "/exe");
     security_label :=
       value ← read_to_string proc (root ++ bs "/attr/current"); non_empty (trim value);
     cgroup :=
       value ← read_to_string proc (root ++ bs "/cgroup");
       line ← head (lines value);
       '(_, rest) ← split_once x3a line;
       '(_, path) ← split_once x3a rest;
       non_empty path |}.

Example credentials_example :
  let proc := {| read_link := fun path =>
                   if bool_decide (path = bs "/proc/42/exe") then Some (bs "/bin/true") else None;
                 read_file := fun path =>
                   if bool_decide (path = bs "/proc/42/cgroup")
                   then Some (bs "0::/user.slice:a" ++ [x0a]) else None |} in
  credentials_from_peer proc {| peer_pid := 42; peer_uid := 1; peer_gid := 2 |} =
  {| pid := 42; uid := 1; gid := 2; executable := Some (bs "/bin/true");
     security_label := None; cgroup := Some (bs "/user.slice:a") |}.
Proof. by vm_compute. Qed.

(** ** Error codes *)

Definition broker_error_code (error : Error) : ProtocolErrorCode :=
  match error with
  | Error_NoRecipient => ProtocolErrorCode_NoRecipient
  | Error_LimitExceeded _ => ProtocolErrorCode_LimitExceeded
  | _ => ProtocolErrorCode_InvalidState
  end.

Definition codec_error_code (error : CodecError) : ProtocolErrorCode :=
  match error with
  | CodecError_UnsupportedVersion _ => ProtocolErrorCode_UnsupportedVersion
  | CodecError_UnknownFrameKind _ => ProtocolErrorCode_UnknownFrameKind
  | CodecError_FrameTooLarge | CodecError_LimitExceeded _ => ProtocolErrorCode_LimitExceeded
  | CodecError_NonCanonical _ | CodecError_ReservedFlags _ => ProtocolErrorCode_NonCanonical
  | _ => ProtocolErrorCode_MalformedFrame
  end.

(** ** Connections and sending *)

(** The [io::Error]s of a session: those of the transport, of which the daemon
    tells two kinds apart, and those the daemon makes of an error of the codec, of
    the broker, and of another [io::Error]. *)
Inductive io_error :=
| Io_connection_reset
| Io_broken_pipe
| Io_transport (error : IoError)
| Io_codec (error : CodecError)
| Io_broker (error : Error)
| Io_wrapped (error : io_error).

(** [ECONNRESET] and [EPIPE] of 64-bit Linux. *)
Definition ECONNRESET : Z := 104.
Definition EPIPE : Z := 32.

(** An error the transport returned: [error.kind()] goes by the number. *)
Definition io_of (error : IoError) : io_error :=
  match error with
  | IoError_Os errno =>
      if (errno =? ECONNRESET)%Z then Io_connection_reset
      else if (errno =? EPIPE)%Z then Io_broken_pipe else Io_transport error
  | IoError_New _ _ => Io_transport error
  end.

Local Abbreviation io := (result io_error).

(** A system call succeeds or fails. *)
Inductive answer (A : Type) :=
| Done (a : A)
| Failed (error : io_error).
Arguments Done {A} _.
Arguments Failed {A} _.

(** What the outside world answers to one step of a thread: the clock, and the
    results of receiving, sending and duplicating a connection, if the step does
    any of these.  The clock is one at which [now_ms] returns. *)
Record environment := {
  env_now_ms : N;
  env_received : answer (option bytes);
  env_sent : answer ();
  env_cloned : answer ();
}.

(** [codec_io_error]. *)
Definition encoded (frame : Frame) (limits : FrameLimits) : io bytes :=
  map_err Io_codec (encode_with_limits frame limits).

(** A message with the header the broker attests. *)
Definition attest (sender : PeerId) (m : Message) : Message := {|
  m_kind := m_kind m;
  m_ack_policy := m_ack_policy m;
  m_ack_requirement := m_ack_requirement m;
  m_request_policy := m_request_policy m;
  m_deadline_ms := m_deadline_ms m;
  m_retry := m_retry m;
  m_destination := m_destination m;
  m_message_id := m_message_id m;
  m_correlation_id := m_correlation_id m;
  m_status := m_status m;
  m_headers := <[bs "broker.sender" := HeaderValue_Unsigned (PeerId_get sender)]> (m_headers m);
  m_payload := m_payload m;
|}.

(** The recipients of an event and the frame they get. *)
Definition outgoing (event : DeliveryEvent) : list PeerId * Frame :=
  match event with
  | DeliveryEvent_Deliver sender recipients message =>
      (recipients,
       match message with Frame_Message m => Frame_Message (attest sender m) | frame => frame end)
  | DeliveryEvent_Result sender message_id outcome =>
      ([sender], Frame_DeliveryResult message_id outcome)
  end.

Section threads.
Context {P : Type} `{Policy P} {Conn : Type}.

Local Abbreviation broker := (Broker P).
Local Abbreviation sessions := (gmap PeerId Conn).

(** [dispatch_delivery_events], between two of its waits: the next event, or
    the packet of an event still to be sent to some connections. *)
Inductive dispatch :=
| Dispatch_next (events : list DeliveryEvent)
| Dispatch_send (packet : bytes) (outputs : list Conn) (events : list DeliveryEvent).

Definition outputs_for (recipients : list PeerId) (s : sessions) : list Conn :=
  (filter (fun e => e.1 ∈ recipients) (bt_entries s)).*2.

(** One step: what it became, [inr] when the call returned, and the packet it
    handed to the kernel. *)
Definition dispatch_step (limits : FrameLimits) (s : sessions) (d : dispatch) (env : environment)
    : (dispatch + io ()) * option (Conn * bytes) :=
  match d with
  | Dispatch_next [] => (inr (Ok ()), None)
  | Dispatch_next (event :: events) =>
      let '(recipients, frame) := outgoing event in
      match encoded frame limits with
      | Ok packet =>
          match outputs_for recipients s, env_cloned env with
          | _ :: _, Failed error => (inr (Err error), None)
          | outputs, _ => (inl (Dispatch_send packet outputs events), None)
          end
      | Err error => (inr (Err error), None)
      | Panic => (inr Panic, None)
      end
  | Dispatch_send packet [] events => (inl (Dispatch_next events), None)
  | Dispatch_send packet (output :: outputs) events =>
      match env_sent env with
      | Done _ => (inl (Dispatch_send packet outputs events), Some (output, packet))
      | Failed (Io_broken_pipe | Io_connection_reset) =>
          (inl (Dispatch_send packet outputs events), None)
      | Failed error => (inr (Err error), None)
      end
  end.

(** [serve_peer] and [dispatch_session], between two of their waits. *)
Inductive phase :=
(** waiting for the first packet *)
| Phase_hello
(** sending a PROTOCOL_ERROR, then closing the session, if there is one *)
| Phase_reject (code : ProtocolErrorCode) (message : bytes) (session : option PeerId)
(** the same, for a connection the broker refused: its lock is still held *)
| Phase_deny (message : bytes)
(** connected to the broker, sending WELCOME *)
| Phase_welcome (session : ConnectedPeer)
(** entering the session table *)
| Phase_register (session : PeerId)
(** the loop of [dispatch_session]: waiting for a packet *)
| Phase_receive (session : PeerId)
(** sending the answer to an operation, then back to the loop *)
| Phase_reply (session : PeerId) (frame : Frame)
(** the same, for a message or an acknowledgement the broker refused: its lock
    is still held *)
| Phase_refuse (session : PeerId) (frame : Frame)
(** dispatching the events of an operation, then back to the loop *)
| Phase_dispatch (session : PeerId) (d : dispatch)
(** the loop has ended: leaving the session table, then the broker *)
| Phase_unregister (session : PeerId) (r : io ())
| Phase_disconnect (session : PeerId) (r : io ())
(** dispatching the events of the disconnection *)
| Phase_farewell (d : dispatch) (r : io ())
(** [serve_peer] has returned *)
| Phase_done (r : io ())
(** [serve_peer] has returned early, after connecting to the broker *)
| Phase_abandoned (session : PeerId) (r : io ())
(** the thread has panicked *)
| Phase_panicked.

Definition reject_frame (code : ProtocolErrorCode) (message : bytes) : Frame :=
  Frame_ProtocolError code message.

(** What an operation of the session loop does next. *)
Definition operation_result (session : PeerId) (operation : ControlOperation)
    (r : result Error ()) : phase :=
  match r with
  | Ok _ => Phase_reply session (Frame_ControlResult operation)
  | Err error =>
      Phase_reply session (Frame_ProtocolError (broker_error_code error) (Error_to_string error))
  | Panic => Phase_panicked
  end.

Definition delivery_result (session : PeerId) (code : Error -> ProtocolErrorCode)
    (r : result Error (list DeliveryEvent)) : phase :=
  match r with
  | Ok events => Phase_dispatch session (Dispatch_next events)
  | Err error => Phase_refuse session (Frame_ProtocolError (code error) (Error_to_string error))
  | Panic => Phase_panicked
  end.

Definition invalid_state (message : string) (session : option PeerId) : phase :=
  Phase_reject ProtocolErrorCode_InvalidState (bs message) session.

(** One frame of the session loop: the call to the broker and what follows. *)
Definition handle_frame (session : PeerId) (frame : Frame) (now_ms : N) (b : broker)
    : phase * broker :=
  match frame with
  | Frame_Claim namespace headers =>
      if bool_decide (headers = ∅) then
        let '(r, b) := claim session namespace b in
        (operation_result session ControlOperation_Claim r, b)
      else (invalid_state "claim metadata is not supported in this phase" (Some session), b)
  | Frame_Subscribe channel filters =>
      let '(r, b) := subscribe_with_filters session channel filters b in
      (operation_result session ControlOperation_Subscribe r, b)
  | Frame_Unsubscribe channel =>
      let '(r, b) := unsubscribe session channel b in
      (operation_result session ControlOperation_Unsubscribe r, b)
  | Frame_ResolveNamespace namespace =>
      (Phase_reply session (Frame_NamespaceResolved namespace (namespace_owner b namespace)), b)
  | Frame_Message _ =>
      let '(r, b) := begin_delivery session frame now_ms b in
      (delivery_result session broker_error_code r, b)
  | Frame_Acknowledge message_id policy =>
      let '(r, b) := acknowledge session message_id policy b in
      (delivery_result session (fun _ => ProtocolErrorCode_InvalidState) r, b)
  | Frame_Hello _ _ _ => (invalid_state "HELLO was already received" (Some session), b)
  | Frame_Welcome _ _ | Frame_ProtocolError _ _ | Frame_ControlResult _
  | Frame_NamespaceResolved _ _ | Frame_DeliveryResult _ _ =>
      (invalid_state "frame is not valid for a client session" (Some session), b)
  end.

(** The first packet of a connection. *)
Definition handle_hello (limits : FrameLimits) (creds : Credentials) (packet : bytes) (b : broker)
    : phase * broker :=
  match decode_with_limits packet limits with
  | Ok (Frame_Hello client_id headers capabilities) =>
      let hello := {| hello_client_id := client_id; hello_headers := headers;
                      hello_capabilities := capabilities |} in
      match connect_session creds hello b with
      | (Ok session, b) => (Phase_welcome session, b)
      | (Err error, b) => (Phase_deny (Error_to_string error), b)
      | (Panic, b) => (Phase_panicked, b)
      end
  | Ok _ => (invalid_state "HELLO must be the first frame" None, b)
  | Err error => (Phase_reject (codec_error_code error) (CodecError_to_string error) None, b)
  | Panic => (Phase_panicked, b)
  end.

(** Sending one packet with [?]: what follows a success and a failure. *)
Definition send_then (conn : Conn) (packet : io bytes) (env : environment) (ok : phase)
    (failed : io () -> phase) : phase * option (Conn * bytes) :=
  match packet with
  | Ok packet =>
      match env_sent env with
      | Done _ => (ok, Some (conn, packet))
      | Failed error => (failed (Err error), None)
      end
  | Err error => (failed (Err error), None)
  | Panic => (Phase_panicked, None)
  end.

Definition thread_step (limits : FrameLimits) (creds : Credentials) (conn : Conn) (ph : phase)
    (env : environment) (b : broker) (s : sessions)
    : phase * broker * sessions * option (Conn * bytes) :=
  match ph with
  | Phase_hello =>
      match env_received env with
      | Done None => (Phase_done (Ok ()), b, s, None)
      | Done (Some packet) =>
          let '(ph, b) := handle_hello limits creds packet b in (ph, b, s, None)
      | Failed error => (Phase_done (Err error), b, s, None)
      end
  | Phase_reject code message session =>
      let after r := match session with
                     | Some id => Phase_unregister id r
                     | None => Phase_done r
                     end in
      let '(ph, sent) := send_then conn (encoded (reject_frame code message) FrameLimits_default)
                           env (after (Ok ())) after in
      (ph, b, s, sent)
  | Phase_deny message =>
      let frame := reject_frame ProtocolErrorCode_InvalidState message in
      let '(ph, sent) := send_then conn (encoded frame FrameLimits_default) env
                           (Phase_done (Ok ())) Phase_done in
      (ph, b, s, sent)
  | Phase_welcome session =>
      let frame := Frame_Welcome (connected_id session) (connected_capabilities session) in
      let '(ph, sent) := send_then conn (encoded frame limits) env
                           (Phase_register (connected_id session))
                           (Phase_abandoned (connected_id session)) in
      (ph, b, s, sent)
  | Phase_register id =>
      match env_cloned env with
      | Done _ => (Phase_receive id, b, <[id := conn]> s, None)
      | Failed error => (Phase_abandoned id (Err error), b, s, None)
      end
  | Phase_receive id =>
      match env_received env with
      | Done None | Failed Io_connection_reset => (Phase_unregister id (Ok ()), b, s, None)
      | Failed error => (Phase_unregister id (Err error), b, s, None)
      | Done (Some packet) =>
          match decode_with_limits packet limits with
          | Ok frame =>
              let '(ph, b) := handle_frame id frame (env_now_ms env) b in (ph, b, s, None)
          | Err error =>
              (Phase_reject (codec_error_code error) (CodecError_to_string error) (Some id), b, s, None)
          | Panic => (Phase_panicked, b, s, None)
          end
      end
  | Phase_reply id frame | Phase_refuse id frame =>
      let '(ph, sent) := send_then conn (encoded frame limits) env (Phase_receive id)
                           (Phase_unregister id) in
      (ph, b, s, sent)
  | Phase_dispatch id d =>
      match dispatch_step limits s d env with
      | (inl d, sent) => (Phase_dispatch id d, b, s, sent)
      | (inr (Ok _), sent) => (Phase_receive id, b, s, sent)
      | (inr (Err error), sent) => (Phase_unregister id (Err error), b, s, sent)
      | (inr Panic, sent) => (Phase_panicked, b, s, sent)
      end
  | Phase_unregister id r => (Phase_disconnect id r, b, delete id s, None)
  | Phase_disconnect id r =>
      match disconnect_with_events id b with
      | (Ok events, b) => (Phase_farewell (Dispatch_next events) r, b, s, None)
      | (Err error, b) => (Phase_done (Err (Io_broker error)), b, s, None)
      | (Panic, b) => (Phase_panicked, b, s, None)
      end
  | Phase_farewell d r =>
      match dispatch_step limits s d env with
      | (inl d, sent) => (Phase_farewell d r, b, s, sent)
      | (inr (Ok _), sent) => (Phase_done r, b, s, sent)
      | (inr (Err error), sent) => (Phase_done (Err (Io_wrapped error)), b, s, sent)
      | (inr Panic, sent) => (Phase_panicked, b, s, sent)
      end
  | Phase_done _ | Phase_abandoned _ _ | Phase_panicked => (ph, b, s, None)
  end.

(** ** The broker's lock *)

(** In the scrutinee of a [match] the guard of [broker.lock()] lives until the
    end of the [match], arms included: an error of [connect_session],
    [begin_delivery] and [acknowledge] is sent with the lock held.  Everywhere
    else it is released by the end of the call. *)
Definition holds_broker (ph : phase) : bool :=
  match ph with Phase_deny _ | Phase_refuse _ _ => true | _ => false end.

(** The frames of a session that are handed to the broker. *)
Definition broker_operation (frame : Frame) : bool :=
  match frame with
  | Frame_Claim _ headers => bool_decide (headers = ∅)
  | Frame_Subscribe _ _ | Frame_Unsubscribe _ | Frame_ResolveNamespace _
  | Frame_Message _ | Frame_Acknowledge _ _ => true
  | _ => false
  end.

(** The frame a step receives, if it receives one. *)
Definition received_frame (limits : FrameLimits) (env : environment) : option Frame :=
  match env_received env with
  | Done (Some packet) =>
      match decode_with_limits packet limits with Ok frame => Some frame | _ => None end
  | _ => None
  end.

(** Whether a step locks the broker. *)
Definition locks_broker (limits : FrameLimits) (ph : phase) (env : environment) : bool :=
  match ph with
  | Phase_hello =>
      match received_frame limits env with Some (Frame_Hello _ _ _) => true | _ => false end
  | Phase_receive _ =>
      match received_frame limits env with Some frame => broker_operation frame | None => false end
  | Phase_disconnect _ _ => true
  | _ => false
  end.

(** ** The lines on standard error *)

Inductive log_entry :=
| Log_connection_denied (creds : Credentials) (error : Error)
| Log_peer_connected (session : PeerId) (creds : Credentials)
| Log_operation_error (session : PeerId) (error : Error)
| Log_peer_failed (error : io_error)
| Log_metrics (metrics : MetricsSnapshot).

Definition refused {A} (entry : Error -> log_entry) (r : result Error A) : list log_entry :=
  match r with Err error => [entry error] | _ => [] end.

(** The calls of [log_operation_error] for one frame of the session loop. *)
Definition operation_log (id : PeerId) (frame : Frame) (now_ms : N) (b : broker)
    : list log_entry :=
  match frame with
  | Frame_Claim namespace headers =>
      if bool_decide (headers = ∅)
      then refused (Log_operation_error id) (claim id namespace b).1 else []
  | Frame_Subscribe channel filters =>
      refused (Log_operation_error id) (subscribe_with_filters id channel filters b).1
  | Frame_Unsubscribe channel => refused (Log_operation_error id) (unsubscribe id channel b).1
  | Frame_Message _ => refused (Log_operation_error id) (begin_delivery id frame now_ms b).1
  | Frame_Acknowledge message_id policy =>
      refused (Log_operation_error id) (acknowledge id message_id policy b).1
  | _ => []
  end.

(** What a step of a thread writes, the last line by the closure that runs
    [serve_peer] when it returns an error. *)
Definition thread_log (limits : FrameLimits) (creds : Credentials) (ph : phase) (env : environment)
    (b : broker) (after : phase) : list log_entry :=
  match ph, received_frame limits env with
  | Phase_hello, Some (Frame_Hello client_id headers capabilities) =>
      refused (Log_connection_denied creds)
        (connect_session creds {| hello_client_id := client_id; hello_headers := headers;
                                  hello_capabilities := capabilities |} b).1
  | Phase_receive id, Some frame => operation_log id frame (env_now_ms env) b
  | Phase_welcome _, _ =>
      match after with Phase_register id => [Log_peer_connected id creds] | _ => [] end
  | _, _ => []
  end ++
  match ph, after with
  | (Phase_done _ | Phase_abandoned _ _), _ => []
  | _, (Phase_done (Err error) | Phase_abandoned _ (Err error)) => [Log_peer_failed error]
  | _, _ => []
  end.

(** ** The daemon *)

Record thread := {
  t_conn : Conn;
  t_credentials : Credentials;
  t_phase : phase;
}.

(** The broker and the session table behind their locks, the threads of the
    connections, the scheduler (between ticks, or dispatching the events of one,
    with the metrics it took), every packet handed to the kernel and every line
    written so far. *)
Record World := {
  w_broker : broker;
  w_sessions : sessions;
  w_threads : list thread;
  w_scheduler : option (dispatch * MetricsSnapshot);
  w_sent : list (Conn * bytes);
  w_log : list log_entry;
}.

(** Some thread holds the broker's lock. *)
Definition broker_held (w : World) : bool :=
  existsb (fun t => holds_broker (t_phase t)) (w_threads w).

(** [run_daemon], before the first connection. *)
Definition start (policy : P) (limits : Limits) : World := {|
  w_broker := with_limits policy limits;
  w_sessions := ∅;
  w_threads := [];
  w_scheduler := None;
  w_sent := [];
  w_log := [];
|}.

(** What can happen next: a connection is accepted, the [i]-th thread makes a
    step, or the scheduler does. *)
Inductive occurrence :=
| Accept (conn : Conn) (proc : proc_files) (peer : PeerCredentials)
| Run (i : nat) (env : environment)
| Schedule (env : environment).

Definition log (sent : option (Conn * bytes)) (packets : list (Conn * bytes)) : list (Conn * bytes) :=
  match sent with Some p => packets ++ [p] | None => packets end.

(** A step that locks the broker waits while another thread holds its lock. *)
Definition step (limits : FrameLimits) (a : occurrence) (w : World) : World :=
  match a with
  | Accept conn proc peer =>
      {| w_broker := w_broker w;
         w_sessions := w_sessions w;
         w_threads := w_threads w ++ [{| t_conn := conn;
                                         t_credentials := credentials_from_peer proc peer;
                                         t_phase := Phase_hello |}];
         w_scheduler := w_scheduler w;
         w_sent := w_sent w;
         w_log := w_log w |}
  | Run i env =>
      match w_threads w !! i with
      | None => w
      | Some t =>
          if locks_broker limits (t_phase t) env && broker_held w then w
          else
            let '(ph, b, s, sent) :=
              thread_step limits (t_credentials t) (t_conn t) (t_phase t) env (w_broker w) (w_sessions w) in
            {| w_broker := b;
               w_sessions := s;
               w_threads := <[i := {| t_conn := t_conn t; t_credentials := t_credentials t;
                                      t_phase := ph |}]> (w_threads w);
               w_scheduler := w_scheduler w;
               w_sent := log sent (w_sent w);
               w_log := w_log w ++ thread_log limits (t_credentials t) (t_phase t) env (w_broker w) ph |}
      end
  | Schedule env =>
      match w_scheduler w with
      | None =>
          if broker_held w then w
          else
            let '(r, b) := tick (env_now_ms env) (w_broker w) in
            {| w_broker := b; w_sessions := w_sessions w; w_threads := w_threads w;
               w_scheduler := match r with
                              | Ok events => Some (Dispatch_next events, metrics b)
                              | _ => None
                              end;
               w_sent := w_sent w; w_log := w_log w |}
      | Some (d, taken) =>
          let '(d, sent) := dispatch_step limits (w_sessions w) d env in
          {| w_broker := w_broker w; w_sessions := w_sessions w; w_threads := w_threads w;
             w_scheduler := match d with inl d => Some (d, taken) | inr _ => None end;
             w_sent := log sent (w_sent w);
             w_log := w_log w ++
               match d with
               | inr _ => if env_now_ms env mod 30000 <? 5 then [Log_metrics taken] else []
               | inl _ => []
               end |}
      end
  end.

(** The world after a sequence of events, in any order. *)
Definition execute (limits : FrameLimits) (occurrences : list occurrence) (w : World) : World :=
  foldl (fun w a => step limits a w) w occurrences.

End threads.

(** ** The text of the lines *)

(** [{limit:?}] of [log_operation_error] is the name of the limit. *)
Definition operation_error_line (peer : PeerId) (error : Error) : bytes :=
  match error with
  | Error_Denied act =>
      bs "busd event=policy_denied peer=" ++ PeerId_to_string peer ++ bs " action=" ++ Action_name act
  | Error_LimitExceeded limit =>
      bs "busd event=limit_exceeded peer=" ++ PeerId_to_string peer ++ bs " limit=" ++ Limit_debug limit
  | _ =>
      bs "busd event=operation_failed peer=" ++ PeerId_to_string peer ++ bs " reason="
      ++ Error_to_string error
  end.

Definition connection_error_line (creds : Credentials) (error : Error) : bytes :=
  bs "busd event=connection_denied pid=" ++ dec (pid creds) ++ bs " uid=" ++ dec (uid creds)
  ++ bs " gid=" ++ dec (gid creds) ++ bs " reason=" ++ Error_to_string error.

Definition peer_connected_line (peer : PeerId) (creds : Credentials) : bytes :=
  bs "busd event=peer_connected peer=" ++ PeerId_to_string peer ++ bs " pid=" ++ dec (pid creds)
  ++ bs " uid=" ++ dec (uid creds) ++ bs " gid=" ++ dec (gid creds).

Definition metrics_line (m : MetricsSnapshot) : bytes :=
  bs "busd event=metrics peers=" ++ dec (connected_peers m)
  ++ bs " namespaces=" ++ dec (snapshot_namespaces m)
  ++ bs " subscriptions=" ++ dec (snapshot_subscriptions m)
  ++ bs " messages_routed=" ++ dec (messages_routed (totals m))
  ++ bs " bytes_routed=" ++ dec (bytes_routed (totals m))
  ++ bs " timeouts=" ++ dec (timeouts (totals m))
  ++ bs " retries=" ++ dec (retries (totals m))
  ++ bs " dropped_signals=" ++ dec (dropped_signals (totals m)).

(** The text of an [io::Error]: the error inside it, if there is one.  That of an
    error of the operating system is the standard library's. *)
Fixpoint io_error_to_string (os_error_to_string : Z -> bytes) (error : io_error) : bytes :=
  match error with
  | Io_connection_reset => os_error_to_string ECONNRESET
  | Io_broken_pipe => os_error_to_string EPIPE
  | Io_transport (IoError_Os errno) => os_error_to_string errno
  | Io_transport (IoError_New _ message) => message
  | Io_codec error => CodecError_to_string error
  | Io_broker error => Error_to_string error
  | Io_wrapped error => io_error_to_string os_error_to_string error
  end.

Definition log_line (os_error_to_string : Z -> bytes) (entry : log_entry) : bytes :=
  match entry with
  | Log_connection_denied creds error => connection_error_line creds error
  | Log_peer_connected peer creds => peer_connected_line peer creds
  | Log_operation_error peer error => operation_error_line peer error
  | Log_peer_failed error => bs "busd: protocol peer failed: " ++ io_error_to_string os_error_to_string error
  | Log_metrics m => metrics_line m
  end.

(** ** The commands of the daemon *)

(** [now_ms]: the milliseconds since the Unix epoch, if the clock is after it. *)
Definition now_ms (since_epoch : option N) : io N :=
  match since_epoch with Some milliseconds => Ok (N.min milliseconds u64_max) | None => Panic end.

(** The limits [run_daemon] gives every session. *)
Definition daemon_limits (command : DaemonCommand) : FrameLimits := {|
  maximum_frame_size := command_maximum_frame_size command;
  maximum_headers := maximum_headers FrameLimits_default;
  maximum_capabilities := maximum_capabilities FrameLimits_default;
  maximum_filters := maximum_filters FrameLimits_default;
|}.

(** [run_daemon] until it listens: [None] when the policy cannot be loaded. *)
Definition run_daemon {Conn} (read_to_string : bytes -> option bytes) (command : DaemonCommand)
    : option (World (P := DaemonPolicy) (Conn := Conn)) :=
  policy ← load_policy read_to_string (command_policy command);
  Some (start policy (command_limits command)).

(** [run_health], without the line it prints. *)
Definition run_health (socket : bytes) : sys (result IoError ()) :=
  connection ← Connection_connect socket;
  match connection with
  | Ok connection => _ ← close_all [connection]; mret (Ok ())
  | Err error => mret (Err error)
  | Panic => mret Panic
  end.
