(* ===== verification/DaemonFacts.v ===== *)
(** * What the daemon guarantees

    Every interleaving of its threads drives the broker through commands the
    broker's theorems cover, so they hold of the daemon; each connection acts
    under one identity, with the credentials the transport attested; every
    message a client receives carries the broker's word for its sender. *)

From S2P Require Export CodecFacts Daemon Lifecycle.

Local Open Scope N_scope.

(** ** Decoded messages are what the broker expects *)

Lemma decoded_proper limits packet m :
  decode_with_limits packet limits = Ok (Frame_Message m) -> proper_message m.
Proof.
  intros Hd%decode_ok_stands_for. pose proof (stands_for_wf _ _ _ Hd) as Hwf.
  destruct Hd as [[Hok _] _]. cbn in Hok. unfold message_ok in Hok.
  destruct Hok as ((Hw & _) & (Hid & _) & Ha & _). split; [|done]. unfold requirement_proper.
  destruct (m_ack_requirement m); try done; [intros ?; by apply Hw in H | cbn in Ha; lia].
Qed.

(** ** Clean events and packets *)

Definition clean (e : DeliveryEvent) : Prop :=
  match e with
  | DeliveryEvent_Deliver sender _ f =>
      PeerId_get sender <= u64_max /\
      exists m, f = Frame_Message m /\ wf_message m /\ no_reserved (m_headers m)
  | DeliveryEvent_Result _ _ _ => True
  end.

(** A message as the daemon sends it: well formed, and carrying one
    broker-owned header, the sender's identity. *)
Definition attested (sender : PeerId) (m : Message) : Prop :=
  exists m0, m = attest sender m0 /\ wf_message m0 /\ no_reserved (m_headers m0) /\
    PeerId_get sender <= u64_max.

(** What the daemon hands to the kernel: packets under its limits, and errors
    under the default ones. *)
Definition packet_ok (limits : FrameLimits) (packet : bytes) : Prop :=
  exists f, match f with
  | Frame_Message m => encode_with_limits f limits = Ok packet /\ exists sender, attested sender m
  | Frame_ProtocolError _ _ => exists limits',
      (limits' = limits \/ limits' = FrameLimits_default) /\ encode_with_limits f limits' = Ok packet
  | _ => encode_with_limits f limits = Ok packet
  end.

Definition dispatch_ok {Conn} (limits : FrameLimits) (d : dispatch (Conn := Conn)) : Prop :=
  match d with
  | Dispatch_next events => Forall clean events
  | Dispatch_send packet _ events => packet_ok limits packet /\ Forall clean events
  end.

Lemma trusted_clean {P} (b : Broker P) e :
  b_next_peer b <= u64_max -> trusted b e -> clean e.
Proof.
  destruct e; [|done]. intros Hn (Hs & m & -> & Hwf & Hr & _). split; [lia|]. by exists m.
Qed.

Lemma attest_wf sender m : PeerId_get sender <= u64_max -> wf_message m -> wf_message (attest sender m).
Proof.
  unfold wf_message. cbn. intros Hs (? & ? & ? & ? & ? & ? & Hh). repeat (split; [done|]).
  by apply map_Forall_insert_2.
Qed.

Lemma outgoing_packet limits e recipients f packet :
  clean e -> outgoing e = (recipients, f) -> encode_with_limits f limits = Ok packet ->
  packet_ok limits packet.
Proof.
  destruct e as [s r g|s i o]; cbn; intros Hc [= <- <-] He.
  - destruct Hc as (Hs & m & -> & Hwf & Hr). exists (Frame_Message (attest s m)).
    split; [done|]. exists s, m. done.
  - by eexists (Frame_DeliveryResult i o).
Qed.

Lemma encoded_ok f limits packet : encoded f limits = Ok packet -> encode_with_limits f limits = Ok packet.
Proof. unfold encoded. destruct (encode_with_limits f limits); cbn; congruence. Qed.

Lemma encoded_total f limits : encoded f limits <> Panic.
Proof. unfold encoded. pose proof (encode_total f limits). by destruct (encode_with_limits f limits). Qed.

(** A packet whose kind byte is not MESSAGE's, or an attested message. *)
Lemma packet_message limits packet m :
  packet_ok limits packet -> decode_with_limits packet limits = Ok (Frame_Message m) ->
  exists sender, attested sender m.
Proof.
  intros (f & Hf) Hd.
  assert (packet !! 5%nat = Some (byte_of 6)) as Hkind.
  { apply decode_ok_stands_for in Hd as Hs. pose proof (stands_for_wf _ _ _ Hs) as Hwf.
    by apply (encode_kind (Frame_Message m) limits), decode_stands_for. }
  destruct f as [| | | | |m'| | | | | |];
    try (apply encode_kind in Hf; rewrite Hkind in Hf; by vm_compute in Hf);
    try (destruct Hf as (l & _ & Hf); apply encode_kind in Hf; rewrite Hkind in Hf; by vm_compute in Hf).
  destruct Hf as (He & sender & m0 & -> & Hwf & Hr & Hs). exists sender, m0.
  apply encode_stands_for in He; [|by apply attest_wf].
  pose proof (stands_for_decode limits _ packet He) as He'.
  rewrite He' in Hd. by injection Hd as <-.
Qed.

Section daemon.
Context {P : Type} `{Policy P} {Conn : Type}.

Local Abbreviation broker := (Broker P).
Local Abbreviation sessions := (gmap PeerId Conn).
Local Abbreviation phase := (phase (Conn := Conn)).
Local Abbreviation dispatch := (dispatch (Conn := Conn)).
Local Abbreviation thread := (thread (Conn := Conn)).
Local Abbreviation World := (World (P := P) (Conn := Conn)).
Local Abbreviation occurrence := (occurrence (Conn := Conn)).

(** ** Dispatching *)

Lemma dispatch_step_ok limits (s : sessions) (d : dispatch) env r sent :
  dispatch_ok limits d -> dispatch_step limits s d env = (r, sent) ->
  match r with inl d' => dispatch_ok limits d' | inr r => r <> Panic end /\
  match sent with Some p => packet_ok limits p.2 | None => True end.
Proof.
  intros Hd Hs. destruct d as [[|e events]|packet [|o outputs] events]; cbn in Hs.
  - by simplify_eq.
  - apply Forall_cons in Hd as [He Hes]. destruct (outgoing e) as [recipients f] eqn:Eo.
    pose proof (encoded_total f limits). destruct (encoded f limits) as [packet|err|] eqn:Ee; [| |done].
    + apply encoded_ok in Ee. assert (packet_ok limits packet) by by eapply outgoing_packet.
      destruct (outputs_for _ _), (env_cloned env); by simplify_eq.
    + by simplify_eq.
  - simplify_eq. by destruct Hd.
  - destruct (env_sent env) as [|[]]; simplify_eq; try done. by destruct Hd.
Qed.

(** ** Phases *)

(** The broker peer a thread acts for. *)
Definition phase_peer (ph : phase) : option PeerId :=
  match ph with
  | Phase_reject _ _ session => session
  | Phase_welcome session => Some (connected_id session)
  | Phase_register id | Phase_receive id | Phase_reply id _ | Phase_refuse id _ | Phase_dispatch id _
  | Phase_unregister id _ | Phase_disconnect id _ | Phase_abandoned id _ => Some id
  | Phase_hello | Phase_deny _ | Phase_farewell _ _ | Phase_done _ | Phase_panicked => None
  end.

(** The entry of the session table a thread holds. *)
Definition registered (ph : phase) : option PeerId :=
  match ph with
  | Phase_reject _ _ session => session
  | Phase_receive id | Phase_reply id _ | Phase_refuse id _ | Phase_dispatch id _
  | Phase_unregister id _ => Some id
  | _ => None
  end.

Definition phase_ok (limits : FrameLimits) (ph : phase) : Prop :=
  match ph with
  | Phase_dispatch _ d | Phase_farewell d _ => dispatch_ok limits d
  | Phase_reply _ f | Phase_refuse _ f => match f with Frame_Message _ => False | _ => True end
  | Phase_panicked => False
  | _ => True
  end.

(** What one step of a thread does to the shared state. *)
Inductive thread_effect (creds : Credentials) (conn : Conn) (ph : phase) (b : broker) (s : sessions)
    : phase -> broker -> sessions -> Prop :=
| effect_connect hello session :
    ph = Phase_hello -> b_next_peer b < u64_max ->
    connected_id session = PeerId_new (b_next_peer b) ->
    thread_effect creds conn ph b s (Phase_welcome session) (connected creds hello b) s
| effect_register id :
    ph = Phase_register id ->
    thread_effect creds conn ph b s (Phase_receive id) b (<[id := conn]> s)
| effect_unregister id r :
    ph = Phase_unregister id r ->
    thread_effect creds conn ph b s (Phase_disconnect id r) b (delete id s)
| effect_leave id r events :
    ph = Phase_disconnect id r -> is_Some (b_peers b !! id) ->
    thread_effect creds conn ph b s (Phase_farewell (Dispatch_next events) r) (disconnected id b) s
| effect_stay ph' b' :
    phase_peer ph' = phase_peer ph -> registered ph' = registered ph ->
    b_peers b' = b_peers b -> b_next_peer b' = b_next_peer b ->
    thread_effect creds conn ph b s ph' b' s.

(** The broker moves by the commands of [Invariants.v]. *)
Definition driven (b b' : broker) : Prop :=
  b' = b \/ exists c r, proper_command c /\ apply c b = (r, b').

Lemma driven_reachable policy limits (b b' : broker) :
  reachable policy limits b -> driven b b' -> reachable policy limits b'.
Proof. intros Hb [->|(c & r & Hc & Hr)]; [done|]. by eapply reachable_step. Qed.

Lemma effect_same creds conn ph (b : broker) (s : sessions) ph' :
  phase_peer ph' = phase_peer ph -> registered ph' = registered ph ->
  thread_effect creds conn ph b s ph' b s.
Proof. intros. by apply effect_stay. Qed.

Lemma driven_by c (b b' : broker) r : proper_command c -> apply c b = (r, b') -> driven b b'.
Proof. intros. right. by exists c, r. Qed.

(** An operation of a session keeps the peers, and its thread in the session. *)
Lemma operation_spec limits creds conn (b b' : broker) (s : sessions) id op c
    (h : St (Broker P) Error ()) r :
  broker_ok b -> proper_command c -> apply c b = (_ ← h; mret []) b -> h b = (r, b') ->
  b_peers b' = b_peers b -> b_next_peer b' = b_next_peer b ->
  driven b b' /\ phase_ok limits (operation_result id op r) /\
  thread_effect creds conn (Phase_receive id) b s (operation_result id op r) b' s.
Proof.
  intros Hb Hc Happ Hr Hp Hn. unfold mbind, St_bind in Happ. rewrite Hr in Happ.
  assert (exists r', apply c b = (r', b') /\ (r = Panic -> r' = Panic)) as (r' & Ha & Hpanic)
    by (destruct r; by eexists).
  split; [by eapply driven_by|]. destruct (apply_ok c b b' r' Hb Hc Ha) as [_ Hno].
  destruct r as [[]|e|]; [| |by destruct (Hno (Hpanic eq_refl))]; (split; [done|]); by apply effect_stay.
Qed.

Lemma delivery_spec limits creds conn ph (b b' : broker) (s : sessions) id code c r :
  broker_ok b -> proper_command c -> apply c b = (r, b') ->
  phase_peer ph = Some id -> registered ph = Some id -> static b' = static b ->
  thread_effect creds conn ph b s (delivery_result id code r) b' s /\
  phase_ok limits (delivery_result id code r).
Proof.
  intros Hb Hc Hr Hp Hg (_ & _ & _ & Hn & Hps & _)%static_fields.
  destruct (apply_ok c b b' r Hb Hc Hr) as [_ Hpanic].
  pose proof (apply_trusted c b b' r Hb Hc Hr) as Ht.
  destruct r as [events|e|]; [| |done]; (split; [by apply effect_stay|]); [|done].
  cbn in *. eapply Forall_impl; [exact Ht|]. intros e. apply trusted_clean, ok_next, Hb.
Qed.

Lemma handle_frame_spec limits creds conn id frame now_ms (b b' : broker) (s : sessions) packet ph' :
  broker_ok b -> decode_with_limits packet limits = Ok frame ->
  handle_frame id frame now_ms b = (ph', b') ->
  driven b b' /\ phase_ok limits ph' /\
  thread_effect creds conn (Phase_receive id) b s ph' b' s.
Proof.
  intros Hb Hd Hf. destruct frame as [ci h caps|p caps|n h|ch fs|ch|m|i pol|i o|code t|o|n|n o];
    cbn [handle_frame] in Hf; try (injection Hf as <- <-; split; [by left|]; split; [done|by apply effect_same]).
  - case_bool_decide; [|injection Hf as <- <-; split; [by left|]; split; [done|by apply effect_same]].
    destruct (claim id n b) as [r b1] eqn:E. injection Hf as <- <-.
    apply (operation_spec _ _ _ _ _ _ _ _ (Command_Claim id n) _ r Hb I eq_refl E);
      apply claim_effect in E; destruct r; try done; by destruct E as [-> _].
  - destruct (subscribe_with_filters id ch fs b) as [r b1] eqn:E. injection Hf as <- <-.
    apply (operation_spec _ _ _ _ _ _ _ _ (Command_Subscribe id ch fs) _ r Hb I eq_refl E);
      apply subscribe_effect in E; destruct r; try done; by destruct E as [-> _].
  - destruct (unsubscribe id ch b) as [r b1] eqn:E. injection Hf as <- <-.
    apply (operation_spec _ _ _ _ _ _ _ _ (Command_Unsubscribe id ch) _ r Hb I eq_refl E);
      apply unsubscribe_effect in E; destruct r; try done; by destruct E as [-> _].
  - pose proof (decoded_proper limits packet m Hd) as Hm.
    destruct (begin_delivery id (Frame_Message m) now_ms b) as [r b1] eqn:E. injection Hf as <- <-.
    split; [by apply (driven_by (Command_BeginDelivery id (Frame_Message m) now_ms) b b1 r)|].
    apply and_comm. eapply (delivery_spec limits creds conn (Phase_receive id) b b1 s id _
      (Command_BeginDelivery id (Frame_Message m) now_ms)); try done. by eapply begin_static.
  - destruct (acknowledge id i pol b) as [r b1] eqn:E. injection Hf as <- <-.
    split; [by apply (driven_by (Command_Acknowledge id i pol) b b1 r)|].
    apply and_comm. eapply (delivery_spec limits creds conn (Phase_receive id) b b1 s id _
      (Command_Acknowledge id i pol)); try done. by eapply acknowledge_static.
Qed.

Lemma handle_hello_spec limits creds conn packet (b b' : broker) (s : sessions) ph' :
  broker_ok b -> handle_hello limits creds packet b = (ph', b') ->
  driven b b' /\ phase_ok limits ph' /\ thread_effect creds conn Phase_hello b s ph' b' s.
Proof.
  intros Hb Hh. unfold handle_hello in Hh.
  pose proof (decode_refines limits packet) as Hno.
  destruct (decode_with_limits packet limits) as [f|e|]; [|injection Hh as <- <-|done].
  2: { split; [by left|]. split; [done|by apply effect_same]. }
  destruct f as [ci h caps| | | | | | | | | | |];
    try (injection Hh as <- <-; split; [by left|]; split; [done|by apply effect_same]).
  set (hello := {| hello_client_id := ci; hello_headers := h; hello_capabilities := caps |}) in *.
  destruct (connect_session creds hello b) as [r b1] eqn:E.
  assert (apply (Command_Connect creds hello) b =
            (match r with Ok _ => Ok [] | Err e => Err e | Panic => Panic end, b1)) as Ha
    by (cbn [apply]; unfold mbind, St_bind; rewrite E; by destruct r).
  apply connect_session_effect in E. destruct r as [session|e|]; [| |done]; injection Hh as <- <-.
  - destruct E as (-> & Hlt & Hs & _).
    split; [by apply (driven_by (Command_Connect creds hello) _ _ (Ok []))|]. split; [done|].
    apply effect_connect; [done|done|by rewrite Hs].
  - subst b1. split; [by left|]. split; [done|]. by apply effect_same.
Qed.

Lemma send_then_cases conn packet env ok failed ph' sent :
  packet <> Panic -> send_then (Conn := Conn) conn packet env ok failed = (ph', sent) ->
  (ph' = ok \/ exists e, ph' = failed (Err e)) /\
  match sent with Some p => packet = Ok p.2 | None => True end.
Proof.
  intros Hp Hs. unfold send_then in Hs.
  destruct packet as [p|e|]; [destruct (env_sent env)| |done]; simplify_eq; eauto.
Qed.

Lemma not_message_packet limits f packet :
  encoded f limits = Ok packet -> match f with Frame_Message _ => False | _ => True end ->
  packet_ok limits packet.
Proof. intros He%encoded_ok Hf. exists f. destruct f; try done. exists limits. by split; [left|]. Qed.

Lemma rejection_packet limits code text packet :
  encoded (reject_frame code text) FrameLimits_default = Ok packet -> packet_ok limits packet.
Proof. intros He%encoded_ok. exists (reject_frame code text), FrameLimits_default. by split; [right|]. Qed.

(** What a step does, when neither the broker nor the session table changes. *)
Lemma step_stays limits creds conn ph (b : broker) (s : sessions) ph' sent :
  phase_ok limits ph' -> phase_peer ph' = phase_peer ph -> registered ph' = registered ph ->
  match sent with Some p => packet_ok limits p.2 | None => True end ->
  driven b b /\ phase_ok limits ph' /\ thread_effect creds conn ph b s ph' b s /\
  match sent with Some p => packet_ok limits (p : Conn * bytes).2 | None => True end.
Proof. intros. split; [by left|]. split; [done|]. by split; [apply effect_same|]. Qed.

(** One send, to the thread's own connection. *)
Lemma step_sends limits creds conn ph f limits' env ok (failed : result io_error () -> phase) (b : broker) (s : sessions)
    ph' sent :
  send_then conn (encoded f limits') env ok failed = (ph', sent) ->
  (forall packet, encoded f limits' = Ok packet -> packet_ok limits packet) ->
  (forall ph1, ph1 = ok \/ (exists e, ph1 = failed (Err e)) ->
     phase_ok limits ph1 /\ phase_peer ph1 = phase_peer ph /\ registered ph1 = registered ph) ->
  driven b b /\ phase_ok limits ph' /\ thread_effect creds conn ph b s ph' b s /\
  match sent with Some p => packet_ok limits (p : Conn * bytes).2 | None => True end.
Proof.
  intros E Hp Hph. apply send_then_cases in E as [H1 Hsent]; [|apply encoded_total].
  apply Hph in H1 as (? & ? & ?). apply step_stays; [done..|]. destruct sent as [[c packet]|]; [|done]. by apply Hp.
Qed.

(** A thread whose session the broker knows makes one step. *)
Lemma thread_step_spec limits creds conn ph env (b b' : broker) (s s' : sessions) ph' sent :
  broker_ok b -> phase_ok limits ph ->
  (forall id, phase_peer ph = Some id -> is_Some (b_peers b !! id)) ->
  thread_step limits creds conn ph env b s = (ph', b', s', sent) ->
  driven b b' /\ phase_ok limits ph' /\ thread_effect creds conn ph b s ph' b' s' /\
  match sent with Some p => packet_ok limits p.2 | None => True end.
Proof.
  intros Hb Hok Hpeer Hs.
  destruct ph as [|code msg session|msg|session|id|id|id f|id f|id d|id r|id r|d r|r|id r|];
    cbn [thread_step] in Hs;
    try (destruct (send_then _ _ _ _ _) as [ph1 sent1] eqn:E; simplify_eq; eapply step_sends; [exact E|..];
         [first [by apply rejection_packet|intros ? ?; by eapply not_message_packet]
         |intros ph1 [->|[e ->]]; by try destruct session]);
    try (simplify_eq; by apply (step_stays _ _ _ _ _ _ _ None)).
  - destruct (env_received env) as [[packet|]|e]; [|simplify_eq; by apply (step_stays _ _ _ _ _ _ _ None)..].
    destruct (handle_hello limits creds packet b) as [ph1 b1] eqn:E. simplify_eq.
    destruct (handle_hello_spec limits creds conn packet b b' s' ph' Hb E) as (? & ? & ?). done.
  - destruct (env_cloned env); simplify_eq; [|by apply (step_stays _ _ _ _ _ _ _ None)].
    split; [by left|]. split; [done|]. split; [by apply effect_register|done].
  - pose proof (fun packet => decode_refines limits packet) as Hno.
    destruct (env_received env) as [[packet|]|[]]; try (simplify_eq; by apply (step_stays _ _ _ _ _ _ _ None)).
    specialize (Hno packet). destruct (decode_with_limits packet limits) as [f|e|] eqn:Ed;
      [|simplify_eq; by apply (step_stays _ _ _ _ _ _ _ None)|done].
    destruct (handle_frame id f (env_now_ms env) b) as [ph1 b1] eqn:E. simplify_eq.
    by destruct (handle_frame_spec limits creds conn id f _ b b' s' packet ph' Hb Ed E) as (? & ? & ?).
  - destruct (dispatch_step limits s d env) as [r sent1] eqn:E.
    apply (dispatch_step_ok limits s d env r sent1 Hok) in E as [Hr Hsent].
    destruct r as [d'|[[]|e|]]; [| | |done]; simplify_eq; by apply (step_stays _ _ _ _ _ _ _ sent).
  - simplify_eq. split; [by left|]. split; [done|]. split; [by eapply effect_unregister|done].
  - destruct (disconnect_with_events id b) as [r' b1] eqn:E.
    pose proof (driven_by (Command_Disconnect id) b b1 r' I E) as Hdr.
    pose proof (apply_trusted (Command_Disconnect id) b b1 r' Hb I E) as Ht.
    apply disconnect_with_events_effect in E. destruct r' as [events|e|]; [| |done].
    + destruct E as (Hin & -> & _). simplify_eq. split; [done|]. split.
      * eapply Forall_impl; [exact Ht|]. intros e. apply trusted_clean, ok_next, Hb.
      * split; [by apply effect_leave|done].
    + destruct E as (_ & _ & Hn). destruct (Hpeer id eq_refl) as [? ?]. congruence.
  - destruct (dispatch_step limits s d env) as [r' sent1] eqn:E.
    apply (dispatch_step_ok limits s d env r' sent1 Hok) in E as [Hr Hsent].
    destruct r' as [d'|[[]|e|]]; [| | |done]; simplify_eq; by apply (step_stays _ _ _ _ _ _ _ sent).
Qed.

(** ** The invariant of the daemon *)

Record world_ok (policy : P) (quota : Limits) (limits : FrameLimits) (w : World) : Prop := {
  wo_broker : reachable policy quota (w_broker w);
  wo_phases : forall i t, w_threads w !! i = Some t -> phase_ok limits (t_phase t);
  wo_peers : forall i t id, w_threads w !! i = Some t -> phase_peer (t_phase t) = Some id ->
    exists p, b_peers (w_broker w) !! id = Some p /\ peer_credentials p = t_credentials t;
  wo_distinct : forall i j t u id, w_threads w !! i = Some t -> w_threads w !! j = Some u ->
    phase_peer (t_phase t) = Some id -> phase_peer (t_phase u) = Some id -> i = j;
  wo_served : forall id, is_Some (b_peers (w_broker w) !! id) ->
    exists i t, w_threads w !! i = Some t /\ phase_peer (t_phase t) = Some id;
  wo_sessions : forall id conn, w_sessions w !! id = Some conn <->
    exists i t, w_threads w !! i = Some t /\ registered (t_phase t) = Some id /\ t_conn t = conn;
  wo_scheduler : match w_scheduler w with Some (d, _) => dispatch_ok limits d | None => True end;
  wo_sent : Forall (fun p => packet_ok limits p.2) (w_sent w);
}.

Lemma registered_peer (ph : phase) id : registered ph = Some id -> phase_peer ph = Some id.
Proof. by destruct ph. Qed.

Lemma start_ok policy quota limits : world_ok policy quota limits (start policy quota).
Proof.
  split; cbn; try done.
  - apply reachable_new.
  - intros id [? Hid]. by rewrite lookup_empty in Hid.
  - intros id conn. rewrite lookup_empty. split; [done|]. by intros (i & t & Hi & _).
Qed.

Lemma accept_ok policy quota limits w conn proc peer :
  world_ok policy quota limits w ->
  world_ok policy quota limits (step limits (Accept conn proc peer) w).
Proof.
  intros [Hb Hph Hpe Hd Hse Hss Hsc Hsn]. cbn.
  set (t0 := {| t_conn := conn; t_credentials := credentials_from_peer proc peer;
                t_phase := Phase_hello |}).
  assert (forall i t, (w_threads w ++ [t0]) !! i = Some t <->
            w_threads w !! i = Some t \/ i = length (w_threads w) /\ t = t0) as Hl.
  { intros i t. rewrite lookup_app_Some. split.
    - intros [?|[Hle Ht]]; [by left|]. right.
      apply list_lookup_singleton_Some in Ht as [? <-]. split; [lia|done].
    - intros [?|[-> ->]]; [by left|]. right. split; [lia|]. by rewrite Nat.sub_diag. }
  split; cbn; try done.
  - intros i t [Hi|[_ ->]]%Hl; [by eapply Hph|done].
  - intros i t id [Hi|[_ ->]]%Hl; [by eapply Hpe|done].
  - intros i j t u id [Hi|[_ ->]]%Hl [Hj|[_ ->]]%Hl; [by eapply Hd|done..].
  - intros id Hid. destruct (Hse id Hid) as (i & t & Hi & Ht). exists i, t. rewrite Hl. auto.
  - intros id c. rewrite Hss. split; intros (i & t & Hi & Ht).
    + exists i, t. rewrite Hl. auto.
    + apply Hl in Hi as [Hi|[_ ->]]; [by exists i, t|by destruct Ht].
Qed.

(** The shared part of a thread's step: the peers of the other threads. *)
Lemma effect_peers creds conn ph (b b' : broker) (s s' : sessions) ph' :
  broker_ok b -> thread_effect creds conn ph b s ph' b' s' ->
  (forall id p, b_peers b !! id = Some p -> phase_peer ph <> Some id -> b_peers b' !! id = Some p) /\
  (forall id, phase_peer ph' = Some id ->
     phase_peer ph = Some id /\ b_peers b' !! id = b_peers b !! id \/
     b_peers b !! id = None /\ exists p, b_peers b' !! id = Some p /\ peer_credentials p = creds) /\
  (forall id, is_Some (b_peers b' !! id) ->
     phase_peer ph' = Some id \/ is_Some (b_peers b !! id) /\ phase_peer ph <> Some id).
Proof.
  intros Hb He. destruct He as [hello session -> Hlt Hs|id -> |id r -> |id r events -> Hin
                               |ph' b' Hp Hr Hpe Hn]; cbn [phase_peer].
  - pose proof (fresh_peer b Hb) as Hf. rewrite <- Hs in Hf. cbn [b_peers connected observe
      set_monitor set_events set_peers set_next_peer]. rewrite <- Hs. split; [|split].
    + intros id p Hid _. rewrite lookup_insert_ne; [done|]. intros <-. congruence.
    + intros id [= <-]. right. split; [done|]. rewrite lookup_insert_eq. by eexists.
    + intros id [<-|[_ Hid]]%lookup_insert_is_Some; [by left|]. by right.
  - split; [done|]. split; [intros i [= <-]; by left|].
    intros i Hi. destruct (decide (i = id)) as [->|Hne]; [by left|]. right. split; [done|congruence].
  - split; [done|]. split; [intros i [= <-]; by left|].
    intros i Hi. destruct (decide (i = id)) as [->|Hne]; [by left|]. right. split; [done|congruence].
  - cbn [b_peers disconnected set_deliveries removed observe set_monitor set_events set_subscriptions
      set_dbus_names set_namespaces set_peers]. split; [|split].
    + intros i p Hi Hne. rewrite lookup_delete_ne; [done|congruence].
    + done.
    + intros i [Hne Hi]%lookup_delete_is_Some. right. split; [done|congruence].
  - rewrite Hpe, Hp. split; [done|]. split; [by left|].
    intros i Hi. destruct (decide (phase_peer ph = Some i)); [by left|by right].
Qed.

(** ... and the entries of the session table. *)
Lemma effect_sessions creds conn ph (b b' : broker) (s s' : sessions) ph' :
  thread_effect creds conn ph b s ph' b' s' ->
  (forall id, registered ph = Some id -> s !! id = Some conn) ->
  (forall id, phase_peer ph = Some id -> registered ph <> Some id -> s !! id = None) ->
  forall id c, s' !! id = Some c <->
    registered ph' = Some id /\ c = conn \/ phase_peer ph <> Some id /\ s !! id = Some c.
Proof.
  intros He Hreg Hun id c.
  destruct He as [hello session -> _ _|i ->|i r ->|i r events -> _|ph' b' Hp Hr _ _]; cbn in *.
  - split; [by right|]. by intros [[? _]|[_ ?]].
  - destruct (decide (i = id)) as [->|Hne].
    + rewrite lookup_insert_eq. split; [intros [= <-]; by left|]. by intros [[_ ->]|[? _]].
    + rewrite lookup_insert_ne by done. split; [right; split; [congruence|done]|].
      intros [[[= ?] _]|[_ ?]]; done.
  - destruct (decide (i = id)) as [->|Hne].
    + rewrite lookup_delete_eq. split; [done|]. by intros [[? _]|[? _]].
    + rewrite lookup_delete_ne by done. split; [right; split; [congruence|done]|].
      by intros [[? _]|[_ ?]].
  - destruct (decide (i = id)) as [->|Hne].
    + rewrite (Hun id) by done. split; [done|]. by intros [[? _]|[? _]].
    + split; [right; split; [congruence|done]|]. by intros [[? _]|[_ ?]].
  - rewrite Hr. destruct (decide (registered ph = Some id)) as [Hid|Hid].
    + rewrite (Hreg id Hid). pose proof (registered_peer ph id Hid).
      split; [intros [= <-]; by left|]. by intros [[_ ->]|[? _]].
    + destruct (decide (phase_peer ph = Some id)) as [Hpe|Hpe].
      * rewrite (Hun id) by done. split; [done|]. by intros [[? _]|[? _]].
      * split; [by right|]. by intros [[? _]|[_ ?]].
Qed.

Lemma log_ok limits sent (l : list (Conn * bytes)) :
  Forall (fun p => packet_ok limits p.2) l ->
  match sent with Some p => packet_ok limits p.2 | None => True end ->
  Forall (fun p => packet_ok limits p.2) (log sent l).
Proof. intros Hl Hs. destruct sent; [|done]. apply Forall_app. split; [done|]. by apply Forall_singleton. Qed.

Lemma threads_insert (ts : list thread) i t t' :
  ts !! i = Some t ->
  forall j u, <[i := t']> ts !! j = Some u <-> j = i /\ u = t' \/ j <> i /\ ts !! j = Some u.
Proof.
  intros Ei j u. pose proof (lookup_lt_Some _ _ _ Ei). destruct (decide (j = i)) as [->|Hne].
  - rewrite list_lookup_insert_eq by done. naive_solver.
  - rewrite list_lookup_insert_ne by done. naive_solver.
Qed.

Lemma other_peer policy quota limits w i j t u id :
  world_ok policy quota limits w -> w_threads w !! i = Some t -> w_threads w !! j = Some u -> j <> i ->
  phase_peer (t_phase u) = Some id -> phase_peer (t_phase t) <> Some id.
Proof. intros Hw Hi Hj Hne Hu Ht. apply Hne. by eapply (wo_distinct _ _ _ _ Hw). Qed.

Lemma unregistered policy quota limits w i t id :
  world_ok policy quota limits w -> w_threads w !! i = Some t ->
  phase_peer (t_phase t) = Some id -> registered (t_phase t) <> Some id -> w_sessions w !! id = None.
Proof.
  intros Hw Hi Hid Hno. destruct (w_sessions w !! id) as [c|] eqn:Es; [|done].
  apply (wo_sessions _ _ _ _ Hw) in Es as (j & u & Hj & Hu & _). pose proof (registered_peer _ _ Hu) as Hup.
  assert (i = j) as <- by by eapply (wo_distinct _ _ _ _ Hw). congruence.
Qed.

Lemma run_thread_ok policy quota limits w i env :
  world_ok policy quota limits w -> world_ok policy quota limits (step limits (Run i env) w).
Proof.
  intros Hw. pose proof Hw as [Hb Hph Hpe Hd Hse Hss Hsc Hsn]. cbn.
  destruct (w_threads w !! i) as [t|] eqn:Ei; [|done].
  destruct (locks_broker _ _ _ && broker_held w); [done|].
  destruct (thread_step _ _ _ _ _ _ _) as [[[ph' b'] s'] sent] eqn:E.
  pose proof (reachable_ok _ _ _ Hb) as Hbok.
  assert (forall id, phase_peer (t_phase t) = Some id -> is_Some (b_peers (w_broker w) !! id)) as Hpeer.
  { intros id Hid. destruct (Hpe i t id Ei Hid) as (p & ? & _). by exists p. }
  destruct (thread_step_spec _ _ _ _ _ _ _ _ _ _ _ Hbok (Hph i t Ei) Hpeer E)
    as (Hdr & Hok & He & Hsent).
  destruct (effect_peers _ _ _ _ _ _ _ _ Hbok He) as (Hkeep & Hnew & Hall).
  pose proof (effect_sessions _ _ _ _ _ _ _ _ He
    (fun id Hid => proj2 (Hss id (t_conn t)) (ex_intro _ i (ex_intro _ t (conj Ei (conj Hid eq_refl)))))
    (fun id => unregistered _ _ _ _ _ _ id Hw Ei)) as Hs'.
  set (t' := {| t_conn := t_conn t; t_credentials := t_credentials t; t_phase := ph' |}).
  pose proof (threads_insert _ _ _ t' Ei) as Hl.
  assert (forall j u id, j <> i -> w_threads w !! j = Some u -> phase_peer (t_phase u) = Some id ->
            phase_peer (t_phase t) <> Some id) as Hother
    by (intros j u id Hne Hj; exact (other_peer _ _ _ _ _ _ _ _ id Hw Ei Hj Hne)).
  split; cbn.
  - by eapply driven_reachable.
  - intros j u [[-> ->]|[_ Hj]]%Hl; [done|by eapply Hph].
  - intros j u id [[-> ->]|[Hne Hj]]%Hl Hid.
    + destruct (Hnew id Hid) as [[Hold ->]|[_ (p & Hp & Hc)]]; [exact (Hpe i t id Ei Hold)|]. by exists p.
    + destruct (Hpe j u id Hj Hid) as (p & Hp & Hc). exists p. split; [|done].
      apply Hkeep; [done|]. by eapply Hother.
  - assert (forall j u id, j <> i -> w_threads w !! j = Some u -> phase_peer (t_phase u) = Some id ->
              phase_peer ph' = Some id -> False) as Hfresh.
    { intros j u id Hne Hj Hu Hid. destruct (Hnew id Hid) as [[Hold _]|[Hnone _]].
      - by eapply Hother.
      - destruct (Hpe j u id Hj Hu) as (p & ? & _). congruence. }
    intros j k u v id [[-> ->]|[Hne Hj]]%Hl [[-> ->]|[Hne' Hk]]%Hl Hu Hv; [done|exfalso|exfalso|].
    + by eapply (Hfresh k v).
    + by eapply (Hfresh j u).
    + by eapply Hd.
  - intros id Hid. destruct (Hall id Hid) as [Hi|[Hold Hne]].
    + exists i, t'. rewrite Hl. split; [by left|done].
    + destruct (Hse id Hold) as (j & u & Hj & Hu). exists j, u. rewrite Hl. split; [|done].
      right. split; [|done]. intros ->. congruence.
  - intros id c. rewrite Hs'. split.
    + intros [[Hr ->]|[Hno Hold]].
      * exists i, t'. rewrite Hl. split; [by left|done].
      * apply Hss in Hold as (j & u & Hj & Hu & Hc). exists j, u. rewrite Hl. split; [|done].
        right. split; [|done]. intros ->. pose proof (registered_peer _ _ Hu). congruence.
    + intros (j & u & [[-> ->]|[Hne Hj]]%Hl & Hu & Hc); [by left|]. right. split.
      * eapply Hother; [done..|]. by apply registered_peer.
      * apply Hss. by exists j, u.
  - done.
  - by apply log_ok.
Qed.

Lemma schedule_ok policy quota limits w env :
  world_ok policy quota limits w -> world_ok policy quota limits (step limits (Schedule env) w).
Proof.
  intros [Hb Hph Hpe Hd Hse Hss Hsc Hsn]. cbn. pose proof (reachable_ok _ _ _ Hb) as Hbok.
  destruct (w_scheduler w) as [[d taken]|] eqn:Esc.
  - destruct (dispatch_step _ _ _ _) as [r sent] eqn:E.
    apply (dispatch_step_ok limits _ d env r sent Hsc) in E as [Hr Hsent].
    split; cbn; try done; [by destruct r|by apply log_ok].
  - destruct (broker_held w); [split; try done; by rewrite Esc|].
    assert (apply (Command_Tick (env_now_ms env)) (w_broker w) =
      (Ok (tick_events (env_now_ms env) (w_broker w)),
       tick_fold (env_now_ms env) (bt_keys (b_deliveries (w_broker w))) (w_broker w))) as Ha.
    { cbn [apply]. by rewrite tick_effect by by apply broker_attempts_fit. }
    pose proof (driven_by (Command_Tick (env_now_ms env)) _ _ _ I Ha) as Hdr.
    pose proof (apply_trusted (Command_Tick (env_now_ms env)) _ _ _ Hbok I Ha) as Ht.
    rewrite tick_effect by by apply broker_attempts_fit.
    pose proof (tick_fold_static (env_now_ms env) (bt_keys (b_deliveries (w_broker w))) (w_broker w))
      as (_ & _ & _ & _ & Hps & _)%static_fields.
    split; cbn; try done.
    + by eapply driven_reachable.
    + by rewrite Hps.
    + by rewrite Hps.
    + eapply Forall_impl; [exact Ht|]. intros e. apply trusted_clean, ok_next, Hbok.
Qed.

Lemma execute_ok policy quota limits l w :
  world_ok policy quota limits w -> world_ok policy quota limits (execute limits l w).
Proof.
  revert w. induction l as [|[conn proc peer|i env|env] l IH]; intros w Hw; [done|..];
    apply IH; [by apply accept_ok|by apply run_thread_ok|by apply schedule_ok].
Qed.

(** ** Threads *)

Lemma schedule_threads limits env (w : World) :
  w_threads (step limits (Schedule env) w) = w_threads w.
Proof.
  cbn. destruct (w_scheduler w) as [[d taken]|].
  - by destruct (dispatch_step _ _ _ _).
  - destruct (broker_held w); [done|]. by destruct (tick _ _).
Qed.

(** A step changes one thread's phase; connections and credentials never
    change. *)
Lemma step_thread limits (a : occurrence) (w : World) i (t : thread) :
  w_threads (step limits a w) !! i = Some t ->
  (exists u, w_threads w !! i = Some u /\ t_conn t = t_conn u /\ t_credentials t = t_credentials u) \/
  exists proc peer, a = Accept (t_conn t) proc peer /\ t_credentials t = credentials_from_peer proc peer.
Proof.
  intros Hi. destruct a as [conn proc peer|j env|env]; cbn in Hi.
  - apply lookup_app_Some in Hi as [Hi|[_ Hi]]; [left; by exists t|].
    apply list_lookup_singleton_Some in Hi as [_ <-]. right. by exists proc, peer.
  - left. destruct (w_threads w !! j) as [u|] eqn:Ej; [|by exists t].
    destruct (_ && _); [by exists t|].
    destruct (thread_step _ _ _ _ _ _ _) as [[[ph' b'] s'] sent]. cbn in Hi.
    apply list_lookup_insert_Some in Hi as [(-> & <- & _)|[_ Hi]]; [by exists u|by exists t].
  - left. exists t. split; [|done]. pose proof (schedule_threads limits env w) as Hs. cbn in Hs.
    by rewrite Hs in Hi.
Qed.

Lemma thread_origin limits (l : list occurrence) (w : World) i (t : thread) :
  w_threads (execute limits l w) !! i = Some t ->
  (exists u, w_threads w !! i = Some u /\ t_conn t = t_conn u /\ t_credentials t = t_credentials u) \/
  exists proc peer, Accept (t_conn t) proc peer ∈ l /\ t_credentials t = credentials_from_peer proc peer.
Proof.
  revert w. induction l as [|a l IH]; intros w Hi; [left; by exists t|].
  destruct (IH _ Hi) as [(u & Hu & Hc & Hcr)|(proc & peer & Ha & Hcr)].
  - rewrite Hc, Hcr. apply step_thread in Hu as [Hu|(proc & peer & -> & Hu)]; [by left|].
    right. exists proc, peer. split; [left|done].
  - right. exists proc, peer. split; [by right|done].
Qed.

(** A thread that has returned stays as it is. *)
Lemma returned_stays limits (l : list occurrence) (w : World) i (t : thread) id r :
  w_threads w !! i = Some t -> t_phase t = Phase_abandoned id r ->
  w_threads (execute limits l w) !! i = Some t.
Proof.
  revert w. induction l as [|a l IH]; intros w Hi Hp; [done|]. cbn. apply IH; [|done].
  destruct a as [conn proc peer|j env|env]; cbn.
  - by apply lookup_app_l_Some.
  - destruct (w_threads w !! j) as [u|] eqn:Ej; [|done].
    destruct (decide (j = i)) as [->|Hne].
    + rewrite Hi in Ej. injection Ej as <-. rewrite Hp. cbn.
      rewrite list_lookup_insert_eq by by eapply lookup_lt_Some. rewrite <- Hp. by destruct t.
    + destruct (_ && _); [done|]. destruct (thread_step _ _ _ _ _ _ _) as [[[ph' b'] s'] sent]. cbn.
      by rewrite list_lookup_insert_ne.
  - pose proof (schedule_threads limits env w) as Hs. cbn in Hs. by rewrite Hs.
Qed.

(** ** The contract *)

(** The daemon's broker is the broker of the theorems above.  Whatever
    connections are accepted, packets received, sends failing and steps
    interleaving, the broker's state is one that a sequence of well-formed
    commands reaches, so every guarantee proved of reachable brokers holds in the
    running daemon; and no thread panics while the clock is after the Unix epoch, so
    the locks are never poisoned. *)
Theorem daemon_refines_broker (policy : P) quota limits (l : list occurrence) :
  let w := execute limits l (start policy quota) in
  reachable policy quota (w_broker w) /\
  forall i t, w_threads w !! i = Some t -> t_phase t <> Phase_panicked.
Proof.
  pose proof (execute_ok policy quota limits l _ (start_ok policy quota limits)) as [Hb Hph _ _ _ _ _ _].
  split; [done|]. intros i t Hi Hp. specialize (Hph i t Hi). by rewrite Hp in Hph.
Qed.

(** C13: one connection, one identity.  In every state of the daemon, a thread
    acts for a peer whose credentials are those attested for its own connection
    when it was accepted; no two threads act for the same peer; every peer of the
    broker is some thread's; and the session table sends a peer's frames to that
    thread's connection. *)
Theorem daemon_identities (policy : P) quota limits (l : list occurrence) :
  let w := execute limits l (start policy quota) in
  (forall i t id, w_threads w !! i = Some t -> phase_peer (t_phase t) = Some id ->
     exists p proc peer, b_peers (w_broker w) !! id = Some p /\ Accept (t_conn t) proc peer ∈ l /\
       peer_credentials p = credentials_from_peer proc peer) /\
  (forall i j t u id, w_threads w !! i = Some t -> w_threads w !! j = Some u ->
     phase_peer (t_phase t) = Some id -> phase_peer (t_phase u) = Some id -> i = j) /\
  (forall id, is_Some (b_peers (w_broker w) !! id) ->
     exists i t, w_threads w !! i = Some t /\ phase_peer (t_phase t) = Some id) /\
  (forall id conn, w_sessions w !! id = Some conn <->
     exists i t, w_threads w !! i = Some t /\ registered (t_phase t) = Some id /\ t_conn t = conn).
Proof.
  pose proof (execute_ok policy quota limits l _ (start_ok policy quota limits))
    as [_ _ Hpe Hd Hse Hss _ _].
  split; [|done]. intros i t id Hi Hid. destruct (Hpe i t id Hi Hid) as (p & Hp & Hc).
  destruct (thread_origin _ _ _ _ _ Hi) as [(u & Hu & _)|(proc & peer & Ha & Hcr)]; [done|].
  exists p, proc, peer. split; [done|]. split; [done|]. congruence.
Qed.

(** Clients can trust [broker.sender].  Every packet the daemon hands to the
    kernel that is a MESSAGE carries that header with a peer identity, and no
    other header of the broker's name space: a client cannot forge one through
    the broker, through retransmission or through a response. *)
Theorem broker_sender_attested (policy : P) quota limits (l : list occurrence)
    conn packet m :
  (conn, packet) ∈ w_sent (execute limits l (start policy quota)) ->
  decode_with_limits packet limits = Ok (Frame_Message m) ->
  exists sender, m_headers m !! bs "broker.sender" = Some (HeaderValue_Unsigned (PeerId_get sender)) /\
    forall name, reserved name -> is_Some (m_headers m !! name) -> name = bs "broker.sender".
Proof.
  pose proof (execute_ok policy quota limits l _ (start_ok policy quota limits)) as [_ _ _ _ _ _ _ Hs].
  intros Hin Hd. rewrite Forall_forall in Hs. specialize (Hs _ Hin).
  destruct (packet_message limits packet m Hs Hd) as (sender & m0 & -> & _ & Hr & _).
  exists sender. cbn [m_headers attest]. split; [by rewrite lookup_insert_eq|].
  intros name Hres [<-|[_ Hsome]]%lookup_insert_is_Some; [done|]. by destruct (Hr name Hsome).
Qed.

(** A connection lost during the greeting is never cleaned up.  When sending
    WELCOME fails, [serve_peer] returns without disconnecting the peer it has
    just connected: the peer stays in the broker through everything that can
    happen afterwards. *)
Theorem failed_greeting_leaks (policy : P) quota limits (l later : list occurrence)
    i t session env e :
  w_threads (execute limits l (start policy quota)) !! i = Some t ->
  t_phase t = Phase_welcome session -> env_sent env = Failed e ->
  is_Some (b_peers (w_broker
    (execute limits (l ++ Run i env :: later) (start policy quota))) !! connected_id session).
Proof.
  intros Hi Hp He.
  pose proof (execute_ok policy quota limits (l ++ Run i env :: later) _ (start_ok policy quota limits))
    as [_ _ Hpe _ _ _ _ _].
  assert (execute limits (l ++ Run i env :: later) (start policy quota) =
    execute limits later (step limits (Run i env) (execute limits l (start policy quota)))) as Hx
    by (unfold execute; by rewrite foldl_app).
  rewrite Hx in *. set (w := execute limits l (start policy quota)) in *.
  assert (exists r u, t_phase u = Phase_abandoned (connected_id session) r /\
            w_threads (step limits (Run i env) w) !! i = Some u) as (r & u & Hu & Hiu).
  { cbn. rewrite Hi, Hp. cbn. unfold send_then. rewrite He.
    pose proof (encoded_total (Frame_Welcome (connected_id session) (connected_capabilities session)) limits).
    destruct (encoded _ limits) as [packet|e'|]; [| |done]; cbn;
      rewrite list_lookup_insert_eq by (by eapply lookup_lt_Some);
      eexists _, _; (split; [|done]); done. }
  pose proof (returned_stays limits later _ i u _ _ Hiu Hu) as Hstay.
  destruct (Hpe i u (connected_id session) Hstay) as (p & Hp' & _); [by rewrite Hu|]. by exists p.
Qed.

End daemon.

(** ** A concrete run for the witnesses *)

Definition packet_of (f : Frame) : bytes :=
  match encode_with_limits f FrameLimits_default with Ok packet => packet | _ => [] end.

(** The answers of the world to a step: a packet to receive, sends that succeed. *)
Definition quiet (received : option bytes) : environment := {|
  env_now_ms := 1000; env_received := Done received; env_sent := Done tt; env_cloned := Done tt |}.

Definition on_frame (f : Frame) : environment := quiet (Some (packet_of f)).

Definition demo_proc : proc_files := {| read_link := fun _ => None; read_file := fun _ => None |}.
Definition demo_peer (n : N) : PeerCredentials := {| peer_pid := n; peer_uid := 1000; peer_gid := 1000 |}.

Definition demo_greeting : Frame := Frame_Hello (Some (ClientId_of (bs "app"))) ∅ ∅.

Definition demo_signal : Message := {|
  m_kind := MessageKind_Signal;
  m_ack_policy := AckPolicy_None;
  m_ack_requirement := AckRequirement_None;
  m_request_policy := RequestPolicy_Exact;
  m_deadline_ms := 0;
  m_retry := RetryPolicy_None;
  m_destination := Destination_Channel demo_channel;
  m_message_id := MessageId_new (replicate 16 x05);
  m_correlation_id := MessageId_absent;
  m_status := Status_Success;
  m_headers := ∅;
  m_payload := bs "tick";
|}.

(** Two clients greet; the second subscribes; the first sends a signal, which
    the daemon forwards. *)
Definition demo_run : list (occurrence (Conn := nat)) := [
  Accept 10%nat demo_proc (demo_peer 41);
  Accept 11%nat demo_proc (demo_peer 42);
  Run 0 (on_frame demo_greeting); Run 0 (quiet None); Run 0 (quiet None);
  Run 1 (on_frame demo_greeting); Run 1 (quiet None); Run 1 (quiet None);
  Run 1 (on_frame (Frame_Subscribe demo_channel [])); Run 1 (quiet None);
  Run 0 (on_frame (Frame_Message demo_signal));
  Run 0 (quiet None); Run 0 (quiet None)].

Definition demo_world : World (P := AllowAll) (Conn := nat) :=
  execute FrameLimits_default demo_run (start allow_all Limits_default).

Example demo_world_sent :
  (fun p => (p.1, decode_with_limits p.2 FrameLimits_default)) <$> w_sent demo_world = [
    (10%nat, Ok (Frame_Welcome (PeerId_new 1) ∅));
    (11%nat, Ok (Frame_Welcome (PeerId_new 2) ∅));
    (11%nat, Ok (Frame_ControlResult ControlOperation_Subscribe));
    (11%nat, Ok (Frame_Message (attest (PeerId_new 1) demo_signal)))].
Proof. by vm_compute. Qed.

Lemma broker_sender_attested_witness :
  exists sender, m_headers (attest (PeerId_new 1) demo_signal) !! bs "broker.sender" =
      Some (HeaderValue_Unsigned (PeerId_get sender)) /\
    forall name, reserved name ->
      is_Some (m_headers (attest (PeerId_new 1) demo_signal) !! name) -> name = bs "broker.sender".
Proof.
  eapply (broker_sender_attested allow_all Limits_default FrameLimits_default demo_run 11%nat
    (packet_of (Frame_Message (attest (PeerId_new 1) demo_signal)))); [|by vm_compute].
  vm_compute. do 3 right. left.
Defined.

Lemma failed_greeting_leaks_witness :
  is_Some (b_peers (w_broker (execute FrameLimits_default
    (take 3 demo_run ++ Run 0 {| env_now_ms := 0; env_received := Done None;
                                 env_sent := Failed Io_broken_pipe; env_cloned := Done tt |}
       :: [Run 0 (quiet None); Run 0 (quiet None)])
    (start allow_all Limits_default))) !! PeerId_new 1).
Proof.
  eapply (failed_greeting_leaks allow_all Limits_default FrameLimits_default (take 3 demo_run)
    [Run 0 (quiet None); Run 0 (quiet None)] 0 _ {| connected_id := PeerId_new 1;
      connected_capabilities := ∅ |}); by vm_compute.
Defined.
