(* ===== verification/SessionFacts.v ===== *)
(** * What a session does for its client

    The answers of the session loop, the dispatch of events to connections under
    any answers of the system and any changes of the session table, the two
    places where a message or a frame ends the session of a client that did nothing
    wrong, and how a session winds down. *)

From S2P Require Export DaemonFacts.

Local Open Scope N_scope.

(** ** Attested headers that do not fit *)

Lemma bt_len_insert_fresh (h : Headers) name v :
  h !! name = None -> bt_len (<[name := v]> h) = bt_len h + 1.
Proof. intros Hm. unfold bt_len. rewrite map_size_insert_None by done. lia. Qed.

Lemma sender_reserved : reserved (bs "broker.sender").
Proof. exists (bs "broker."), (bs "sender"). split; [left|done]. Qed.

(** The header the broker adds to a message that already has the maximum. *)
Lemma attest_overflow limits sender m :
  PeerId_get sender <= u64_max -> wf_message m -> no_reserved (m_headers m) ->
  maximum_headers limits <= bt_len (m_headers m) ->
  exists e, encoded (Frame_Message (attest sender m)) limits = Err (Io_codec e).
Proof.
  intros Hs Hwf Hr Hn. unfold encoded.
  pose proof (encode_refines limits (Frame_Message (attest sender m)) (attest_wf sender m Hs Hwf)) as He.
  destruct (encode_with_limits _ limits) as [packet|e|]; [|by exists e|done].
  destruct He as [[Hok _] _]. cbn in Hok. destruct Hok as (_ & _ & _ & _ & _ & _ & _ & _ & (Hh & _) & _).
  cbn in Hh. rewrite bt_len_insert_fresh in Hh; [lia|].
  destruct (m_headers m !! _) as [v|] eqn:E; [|done].
  destruct (Hr (bs "broker.sender")); [by exists v|exact sender_reserved].
Qed.

Section sessions.
Context {P : Type} `{Policy P} {Conn : Type}.

Local Abbreviation broker := (Broker P).
Local Abbreviation sessions := (gmap PeerId Conn).
Local Abbreviation dispatch := (dispatch (Conn := Conn)).
Local Abbreviation phase := (phase (Conn := Conn)).

(** A message the broker accepts can end its sender's session.  The decoder
    admits messages with as many headers as [maximum_headers]; the daemon then
    adds [broker.sender] and encodes under the same limits.  When such a message
    is accepted by the broker, nothing is sent to its recipients, the events of
    the operation are lost, and the session of the sender is closed. *)
Theorem attestation_overflow policy quota limits (b b' : broker) (s s' : sessions)
    creds conn id packet m env env' recipients events :
  reachable policy quota b ->
  env_received env = Done (Some packet) ->
  decode_with_limits packet limits = Ok (Frame_Message m) ->
  begin_delivery id (Frame_Message m) (env_now_ms env) b =
    (Ok (DeliveryEvent_Deliver id recipients (Frame_Message m) :: events), b') ->
  maximum_headers limits <= bt_len (m_headers m) ->
  exists ph e,
    thread_step limits creds conn (Phase_receive id) env b s = (ph, b', s, None) /\
    thread_step limits creds conn ph env' b' s' =
      (Phase_unregister id (Err (Io_codec e)), b', s', None).
Proof.
  intros Hb Hr Hd Hbegin Hn. enough (exists e, encoded (Frame_Message (attest id m)) limits = Err (Io_codec e)) as [e He].
  2: { pose proof (apply_trusted (Command_BeginDelivery id (Frame_Message m) (env_now_ms env)) b b' _
      (reachable_ok _ _ _ Hb) (decoded_proper _ _ _ Hd) Hbegin) as Ht.
    apply Forall_cons in Ht as [Hc%trusted_clean _]; [|apply ok_next, (reachable_ok _ _ _ Hb)].
    destruct Hc as (Hs & m1 & [= <-] & Hwf & Hres). by apply attest_overflow. }
  exists (Phase_dispatch id (Dispatch_next
    (DeliveryEvent_Deliver id recipients (Frame_Message m) :: events))), e. split.
  - cbn [thread_step]. by rewrite Hr, Hd; cbn [handle_frame]; rewrite Hbegin.
  - cbn [thread_step dispatch_step outgoing]. by rewrite He.
Qed.

(** ** Answers to control operations *)

(** The filters a peer is subscribed to a channel with. *)
Definition subscription (b : broker) (peer : PeerId) (channel : Channel) : option (list HeaderFilter) :=
  match b_subscriptions b !! channel with Some peers => peers !! peer | None => None end.

Lemma subscribed_subscription peer channel filters (b : broker) :
  subscription (subscribed peer channel filters b) peer channel = Some filters.
Proof. unfold subscription. cbn. by rewrite !lookup_insert_eq. Qed.

Lemma unsubscribed_subscription peer channel (b : broker) :
  subscription (unsubscribed peer channel b) peer channel = None.
Proof.
  unfold subscription. cbn. destruct (b_subscriptions b !! channel) as [peers|] eqn:E; [|by rewrite E].
  case_bool_decide; [by rewrite lookup_delete_eq|]. by rewrite lookup_insert_eq, lookup_delete_eq.
Qed.

(** The frames answered with one frame. *)
Definition control_operation (f : Frame) : Prop :=
  match f with
  | Frame_Claim _ headers => headers = ∅
  | Frame_Subscribe _ _ | Frame_Unsubscribe _ | Frame_ResolveNamespace _ => True
  | _ => False
  end.

(** What an answer says of the broker before and after the operation. *)
Definition answer_true (id : PeerId) (f reply : Frame) (b b' : broker) : Prop :=
  match f, reply with
  | Frame_Claim namespace _, Frame_ControlResult operation =>
      operation = ControlOperation_Claim /\ namespace_owner b namespace = None /\
      namespace_owner b' namespace = Some id
  | Frame_Subscribe channel filters, Frame_ControlResult operation =>
      operation = ControlOperation_Subscribe /\ subscription b' id channel = Some filters
  | Frame_Unsubscribe channel, Frame_ControlResult operation =>
      operation = ControlOperation_Unsubscribe /\ subscription b' id channel = None
  | Frame_ResolveNamespace namespace, Frame_NamespaceResolved namespace' owner =>
      namespace' = namespace /\ owner = namespace_owner b namespace /\ b' = b
  | (Frame_Claim _ _ | Frame_Subscribe _ _ | Frame_Unsubscribe _), Frame_ProtocolError code text =>
      b' = b /\ exists e, code = broker_error_code e /\ text = Error_to_string e
  | _, _ => False
  end.

Lemma operation_answers id operation f (b b' : broker) r :
  match r with
  | Ok _ => answer_true id f (Frame_ControlResult operation) b b'
  | Err e => b' = b /\ forall code text, answer_true id f (Frame_ProtocolError code text) b b' <->
      b' = b /\ exists e, code = broker_error_code e /\ text = Error_to_string e
  | Panic => False
  end ->
  exists reply, operation_result id operation r = (Phase_reply id reply : phase) /\
    answer_true id f reply b b'.
Proof.
  intros Hr. destruct r as [[]|e|]; [| |done]; eexists; (split; [done|]); [done|].
  apply Hr. split; [apply Hr|]. by exists e.
Qed.

Lemma handle_control id f now_ms (b : broker) :
  control_operation f ->
  exists reply b', handle_frame id f now_ms b = (Phase_reply id reply : phase, b') /\
    answer_true id f reply b b'.
Proof.
  intros Hf. destruct f as [| |n h|ch fs|ch| | | | |n| |]; try done; cbn [handle_frame].
  - rewrite bool_decide_eq_true_2 by exact Hf.
    destruct (claim id n b) as [r b'] eqn:E. apply claim_effect in E.
    destruct (operation_answers id ControlOperation_Claim (Frame_Claim n h) b b' r)
      as (reply & -> & Ha); [|by exists reply, b'].
    destruct r; [|by destruct E as [-> _]|done]. destruct E as (-> & _ & _ & Hn).
    split; [done|]. split; [done|]. by apply lookup_insert_eq.
  - destruct (subscribe_with_filters id ch fs b) as [r b'] eqn:E. apply subscribe_effect in E.
    destruct (operation_answers id ControlOperation_Subscribe (Frame_Subscribe ch fs) b b' r)
      as (reply & -> & ?); [|by exists reply, b'].
    destruct r; [|by destruct E as [-> _]|done]. destruct E as (-> & _).
    split; [done|]. apply subscribed_subscription.
  - destruct (unsubscribe id ch b) as [r b'] eqn:E. apply unsubscribe_effect in E.
    destruct (operation_answers id ControlOperation_Unsubscribe (Frame_Unsubscribe ch) b b' r)
      as (reply & -> & ?); [|by exists reply, b'].
    destruct r; [|by destruct E as [-> _]|done]. destruct E as (-> & _).
    split; [done|]. apply unsubscribed_subscription.
  - by eexists _, _.
Qed.

(** Control operations are answered truthfully and keep the session.  A
    CLAIM, SUBSCRIBE, UNSUBSCRIBE or RESOLVE_NAMESPACE a session receives is
    answered with one frame.  A CONTROL_RESULT means the broker did it: the
    namespace was free and is now the client's, the subscription with these
    filters exists, or none is left; a NAMESPACE_RESOLVED names the owner; a
    PROTOCOL_ERROR carries the broker's error, and nothing changed.  Sending the
    answer returns the session to its loop. *)
Theorem control_answers limits creds conn id packet f env (b : broker) (s : sessions) :
  env_received env = Done (Some packet) ->
  decode_with_limits packet limits = Ok f -> control_operation f ->
  exists reply b',
    thread_step limits creds conn (Phase_receive id) env b s = (Phase_reply id reply, b', s, None) /\
    answer_true id f reply b b' /\
    forall env' packet' b2 (s2 : sessions),
      env_sent env' = Done tt -> encode_with_limits reply limits = Ok packet' ->
      thread_step limits creds conn (Phase_reply id reply) env' b2 s2 =
        (Phase_receive id, b2, s2, Some (conn, packet')).
Proof.
  intros Hr Hd Hf. destruct (handle_control id f (env_now_ms env) b Hf) as (reply & b' & Hh & Ha).
  exists reply, b'. split; [by cbn [thread_step]; rewrite Hr, Hd, Hh|]. split; [done|].
  intros env' packet' b2 s2 Hs He. cbn [thread_step]. unfold send_then, encoded.
  by rewrite He, Hs.
Qed.

(** ** Frames that end a session *)

(** The steps of a thread with nothing in between, and what it sent. *)
Fixpoint thread_steps limits creds (conn : Conn) (ph : phase) (envs : list environment)
    (b : broker) (s : sessions) : phase * broker * sessions * list (Conn * bytes) :=
  match envs with
  | [] => (ph, b, s, [])
  | env :: envs =>
      let '(ph, b, s, sent) := thread_step limits creds conn ph env b s in
      let '(ph, b, s, packets) := thread_steps limits creds conn ph envs b s in
      (ph, b, s, match sent with Some p => p :: packets | None => packets end)
  end.

(** The frames a client may send in a session. *)
Definition session_operation (f : Frame) : Prop :=
  control_operation f \/ match f with Frame_Message _ | Frame_Acknowledge _ _ => True | _ => False end.

Lemma invalid_state_packet (text : string) :
  text ∈ ["claim metadata is not supported in this phase"; "HELLO was already received";
          "frame is not valid for a client session"]%string ->
  exists packet, let f := Frame_ProtocolError ProtocolErrorCode_InvalidState (bs text) in
    encode_with_limits f FrameLimits_default = Ok packet /\
    decode_with_limits packet FrameLimits_default = Ok f.
Proof.
  intros Ht. eexists (match encode_with_limits (Frame_ProtocolError ProtocolErrorCode_InvalidState
    (bs text)) FrameLimits_default with Ok packet => packet | _ => [] end).
  repeat (apply elem_of_cons in Ht as [->|Ht]; [vm_compute; by split|]).
  by apply not_elem_of_nil in Ht.
Qed.

Lemma handle_misused id f now_ms (b : broker) :
  ~ session_operation f ->
  exists text packet, handle_frame id f now_ms b =
      (Phase_reject ProtocolErrorCode_InvalidState text (Some id) : phase, b) /\
    encode_with_limits (Frame_ProtocolError ProtocolErrorCode_InvalidState text) FrameLimits_default =
      Ok packet /\
    decode_with_limits packet FrameLimits_default =
      Ok (Frame_ProtocolError ProtocolErrorCode_InvalidState text).
Proof.
  intros Hf. unfold session_operation in Hf.
  destruct f; cbn [handle_frame control_operation] in *; try tauto;
    try rewrite bool_decide_eq_false_2 by tauto;
    (edestruct invalid_state_packet as [packet Hp]; [|eexists _, packet; split; [reflexivity|exact Hp]];
     repeat first [left|right]).
Qed.

(** Any other frame closes the session.  On a second HELLO, a frame only
    the broker may send or a CLAIM with metadata the client gets exactly one
    PROTOCOL_ERROR INVALID_STATE; then its connection leaves the session table
    and its peer the broker, which changes in nothing else than a disconnection
    does. *)
Theorem misused_frames_close policy quota limits creds conn id packet f env env1 env2 env3
    (b : broker) (s : sessions) :
  reachable policy quota b -> is_Some (b_peers b !! id) ->
  env_received env = Done (Some packet) -> decode_with_limits packet limits = Ok f ->
  ~ session_operation f -> env_sent env1 = Done tt ->
  exists text events answer,
    thread_steps limits creds conn (Phase_receive id) [env; env1; env2; env3] b s =
      (Phase_farewell (Dispatch_next events) (Ok tt), disconnected id b, delete id s, [(conn, answer)]) /\
    decode_with_limits answer FrameLimits_default =
      Ok (Frame_ProtocolError ProtocolErrorCode_InvalidState text) /\
    b_peers (disconnected id b) !! id = None.
Proof.
  intros Hb [p Hp] Hr Hd Hf Hs.
  destruct (handle_misused id f (env_now_ms env) b Hf) as (text & answer & Hh & He & Hdec).
  destruct (disconnect_with_events id b) as [r b'] eqn:Ed.
  apply disconnect_with_events_effect in Ed as Heff. destruct r as [events|e|]; [| |done].
  2: { destruct Heff as (_ & _ & Hn). congruence. }
  destruct Heff as (_ & -> & _). exists text, events, answer. split.
  - cbn [thread_steps thread_step]. rewrite Hr, Hd, Hh. cbn [thread_step].
    unfold send_then, encoded, reject_frame. rewrite He. cbn [map_err]. rewrite Hs.
    cbn [thread_step]. by rewrite Ed.
  - split; [exact Hdec|]. by cbn; apply lookup_delete_eq.
Qed.

(** ** Dispatching to every recipient *)

(** What becomes of one packet sent to one connection: it is delivered; or the
    connection is gone, which concerns nobody else; or the call stops there. *)
Definition delivered (a : answer ()) : bool := match a with Done _ => true | Failed _ => false end.
Definition stops (a : answer ()) : bool :=
  match a with
  | Done _ | Failed (Io_broken_pipe | Io_connection_reset) => false
  | Failed _ => true
  end.

(** [dispatch_delivery_events] alone, in a world that can change at every step:
    the session table may be another each time it is read, and each call to the
    system may succeed or fail.  No state of the dispatch occurs twice, so a
    function of the state gives every course of events. *)
Section dispatching.
Context (limits : FrameLimits) (envs : dispatch -> environment) (tables : dispatch -> sessions).

Fixpoint dispatch_run (fuel : nat) (d : dispatch)
    : (dispatch + result io_error ()) * list (Conn * bytes) :=
  match fuel with
  | O => (inl d, [])
  | S fuel =>
      let '(r, sent) := dispatch_step limits (tables d) d (envs d) in
      match r with
      | inl d => let '(r, packets) := dispatch_run fuel d in (r, log sent [] ++ packets)
      | inr r => (inr r, log sent [])
      end
  end.

(** The connections of an event's recipients when its turn comes, [rest] being
    the events after it. *)
Definition outputs_of (e : DeliveryEvent) (rest : list DeliveryEvent) : list Conn :=
  outputs_for (outgoing e).1 (tables (Dispatch_next (e :: rest))).

(** The answer to sending to [c], [after] being the connections after it. *)
Definition send_answer (packet : bytes) (c : Conn) (after : list Conn) rest : answer () :=
  env_sent (envs (Dispatch_send packet (c :: after) rest)).

(** The packets that reach the connections [now], [after] being those after. *)
Fixpoint sends (packet : bytes) (now after : list Conn) rest : list (Conn * bytes) :=
  match now with
  | [] => []
  | c :: now =>
      (if delivered (send_answer packet c (now ++ after) rest) then [(c, packet)] else []) ++
      sends packet now after rest
  end.

(** No connection of [now] stops the call. *)
Definition passes (packet : bytes) (now after : list Conn) rest : Prop :=
  forall before c now', now = before ++ c :: now' ->
    stops (send_answer packet c (now' ++ after) rest) = false.

(** An event goes out: it can be encoded, the connections of its recipients, if
    there are any, can be duplicated, and none of them stops the call. *)
Definition goes_out (e : DeliveryEvent) rest : Prop :=
  exists packet, encode_with_limits (outgoing e).2 limits = Ok packet /\
    (outputs_of e rest = [] \/ env_cloned (envs (Dispatch_next (e :: rest))) = Done tt) /\
    passes packet (outputs_of e rest) [] rest.

(** What it amounts to: its packet on every connection that takes it. *)
Definition event_packets (e : DeliveryEvent) rest : list (Conn * bytes) :=
  match encode_with_limits (outgoing e).2 limits with
  | Ok packet => sends packet (outputs_of e rest) [] rest
  | _ => []
  end.

(** The same for several events in order. *)
Fixpoint all_out (events rest : list DeliveryEvent) : Prop :=
  match events with
  | [] => True
  | e :: events => goes_out e (events ++ rest) /\ all_out events rest
  end.
Fixpoint all_packets (events rest : list DeliveryEvent) : list (Conn * bytes) :=
  match events with
  | [] => []
  | e :: events => event_packets e (events ++ rest) ++ all_packets events rest
  end.

(** The call ends at an event: it cannot be encoded; its connections cannot be
    duplicated; or, after the recipients before it, the send to one fails for
    another reason than a connection that is gone. *)
Inductive stopped_at (e : DeliveryEvent) rest : io_error -> list (Conn * bytes) -> Prop :=
| stopped_encoding error :
    encode_with_limits (outgoing e).2 limits = Err error -> stopped_at e rest (Io_codec error) []
| stopped_cloning error :
    outputs_of e rest <> [] -> env_cloned (envs (Dispatch_next (e :: rest))) = Failed error ->
    stopped_at e rest error []
| stopped_sending packet before c after error :
    encode_with_limits (outgoing e).2 limits = Ok packet ->
    outputs_of e rest = before ++ c :: after -> passes packet before (c :: after) rest ->
    send_answer packet c after rest = Failed error ->
    error <> Io_broken_pipe -> error <> Io_connection_reset ->
    stopped_at e rest error (sends packet before (c :: after) rest).

(** One step to take each event, one per connection, one to finish it. *)
Fixpoint dispatch_bound (events : list DeliveryEvent) : nat :=
  match events with
  | [] => 1
  | e :: events => 2 + length (outputs_of e events) + dispatch_bound events
  end.

Lemma passes_cons packet c now after rest :
  passes packet (c :: now) after rest <->
  stops (send_answer packet c (now ++ after) rest) = false /\ passes packet now after rest.
Proof.
  unfold passes. split.
  - intros Hp. split; [by apply (Hp [])|]. intros before c' now' ->. by apply (Hp (c :: before)).
  - intros [Hc Hp] before c' now' Heq. destruct before as [|c0 before]; injection Heq as -> ->; [done|].
    by eapply Hp.
Qed.

Lemma dispatch_passes packet now after rest fuel :
  passes packet now after rest ->
  dispatch_run (length now + fuel) (Dispatch_send packet (now ++ after) rest) =
  let '(r, packets) := dispatch_run fuel (Dispatch_send packet after rest) in
  (r, sends packet now after rest ++ packets).
Proof.
  induction now as [|c now IH]; [by destruct (dispatch_run _ _)|]. intros [Hc Hp]%passes_cons.
  cbn [length Nat.add app sends]. cbn [dispatch_run dispatch_step]. specialize (IH Hp).
  unfold send_answer in *.
  destruct (env_sent (envs (Dispatch_send packet (c :: now ++ after) rest))) as [[]|[]] eqn:E;
    try done; cbn [delivered]; rewrite IH; by destruct (dispatch_run fuel _).
Qed.

Lemma dispatch_stops packet now c after rest error fuel :
  passes packet now (c :: after) rest -> send_answer packet c after rest = Failed error ->
  error <> Io_broken_pipe -> error <> Io_connection_reset ->
  dispatch_run (length now + S fuel) (Dispatch_send packet (now ++ c :: after) rest) =
  (inr (Err error), sends packet now (c :: after) rest).
Proof.
  intros Hp Hc H1 H2. rewrite dispatch_passes by done. cbn [dispatch_run dispatch_step].
  unfold send_answer in Hc. rewrite Hc. destruct error; try done; cbn; by rewrite app_nil_r.
Qed.

(** Some connection is the first to stop the call, or none does. *)
Lemma passes_dec packet now after rest :
  passes packet now after rest \/
  exists before c now' error, now = before ++ c :: now' /\ passes packet before (c :: now' ++ after) rest /\
    send_answer packet c (now' ++ after) rest = Failed error /\
    error <> Io_broken_pipe /\ error <> Io_connection_reset.
Proof.
  induction now as [|c now IH]; [left; by intros [] ? ?|].
  destruct (stops (send_answer packet c (now ++ after) rest)) eqn:E.
  - right. exists [], c, now. destruct (send_answer packet c (now ++ after) rest) as [|error] eqn:Ea; [done|].
    exists error. split; [done|]. split; [by intros [] ? ?|]. split; [done|]. by destruct error.
  - destruct IH as [Hp|(before & c' & now' & error & -> & Hp & Ha)]; [left; by apply passes_cons|].
    right. exists (c :: before), c', now', error. split; [done|]. split; [|done].
    apply passes_cons. split; [|done]. by rewrite <- (assoc_L (++)) in E.
Qed.

Lemma dispatch_taken e rest packet fuel :
  encode_with_limits (outgoing e).2 limits = Ok packet ->
  outputs_of e rest = [] \/ env_cloned (envs (Dispatch_next (e :: rest))) = Done tt ->
  dispatch_run (S fuel) (Dispatch_next (e :: rest)) =
  dispatch_run fuel (Dispatch_send packet (outputs_of e rest) rest).
Proof.
  intros He Hc. cbn [dispatch_run dispatch_step]. unfold outputs_of in *.
  destruct (outgoing e) as [recipients f]. unfold encoded. cbn [fst snd] in *. rewrite He. cbn [map_err].
  remember (outputs_for recipients (tables (Dispatch_next (e :: rest)))) as outputs.
  destruct outputs as [|c outputs]; [|destruct Hc as [?| ->]; [done|]]; by destruct (dispatch_run fuel _).
Qed.

Lemma dispatch_untaken e rest fuel error :
  (exists e0, error = Io_codec e0 /\ encode_with_limits (outgoing e).2 limits = Err e0) \/
  (exists packet, encode_with_limits (outgoing e).2 limits = Ok packet /\
    outputs_of e rest <> [] /\ env_cloned (envs (Dispatch_next (e :: rest))) = Failed error) ->
  dispatch_run (S fuel) (Dispatch_next (e :: rest)) = (inr (Err error), []).
Proof.
  intros Hc. cbn [dispatch_run dispatch_step]. unfold outputs_of in *.
  destruct (outgoing e) as [recipients f]. unfold encoded. cbn [fst snd] in *.
  destruct Hc as [(e0 & -> & ->)|(packet & -> & Hne & Hf)]; [done|]. cbn [map_err]. rewrite Hf.
  by destruct (outputs_for _ _).
Qed.

Lemma dispatch_sent packet outputs rest fuel :
  passes packet outputs [] rest ->
  dispatch_run (length outputs + S fuel) (Dispatch_send packet outputs rest) =
  let '(r, packets) := dispatch_run fuel (Dispatch_next rest) in
  (r, sends packet outputs [] rest ++ packets).
Proof.
  intros Hp. pose proof (dispatch_passes packet outputs [] rest (S fuel) Hp) as Hd.
  rewrite app_nil_r in Hd. rewrite Hd. cbn [dispatch_run dispatch_step].
  by destruct (dispatch_run fuel (Dispatch_next rest)).
Qed.

Lemma dispatch_out e rest fuel :
  goes_out e rest ->
  dispatch_run (2 + length (outputs_of e rest) + fuel) (Dispatch_next (e :: rest)) =
  let '(r, packets) := dispatch_run fuel (Dispatch_next rest) in (r, event_packets e rest ++ packets).
Proof.
  intros (packet & He & Hc & Hp). unfold event_packets. rewrite He.
  replace (2 + length (outputs_of e rest) + fuel)%nat
    with (S (length (outputs_of e rest) + S fuel)) by lia.
  rewrite (dispatch_taken e rest packet) by done. by apply dispatch_sent.
Qed.

(** One event, gone out or not. *)
Lemma dispatch_event e rest fuel :
  goes_out e rest \/
  exists error part, stopped_at e rest error part /\
    dispatch_run (2 + length (outputs_of e rest) + fuel) (Dispatch_next (e :: rest)) =
      (inr (Err error), part).
Proof.
  cbn [Nat.add]. destruct (encode_with_limits (outgoing e).2 limits) as [packet|error|] eqn:He;
    [|right|by destruct (encode_total (outgoing e).2 limits)].
  2: { exists (Io_codec error), []. split; [by constructor|]. apply dispatch_untaken. left. by exists error. }
  assert ((outputs_of e rest = [] \/ env_cloned (envs (Dispatch_next (e :: rest))) = Done tt) \/
    outputs_of e rest <> [] /\ exists error, env_cloned (envs (Dispatch_next (e :: rest))) = Failed error)
    as [Hc|[Hne [error Hf]]].
  { destruct (env_cloned _) as [[]|error]; [left; by right|].
    destruct (outputs_of e rest); [left; by left|right]. split; [done|by exists error]. }
  2: { right. exists error, []. split; [by eapply stopped_cloning|]. apply dispatch_untaken. right. eauto. }
  destruct (passes_dec packet (outputs_of e rest) [] rest) as
    [Hp|(before & c & after & error & Ho & Hp & Ha & H1 & H2)]; [left; by exists packet|right].
  rewrite app_nil_r in *. exists error, (sends packet before (c :: after) rest).
  split; [by eapply stopped_sending|]. rewrite (dispatch_taken e rest packet) by done. rewrite Ho.
  rewrite length_app. cbn [length].
  replace (S (length before + S (length after) + fuel)) with (length before + S (S (length after) + fuel))%nat by lia.
  by apply dispatch_stops.
Qed.

Lemma stopped_not_out e rest error part : stopped_at e rest error part -> ~ goes_out e rest.
Proof.
  intros Hs (packet & He & Hc & Hp). destruct Hs as [e0 He0|e0 Hne Hf|packet' before c after e0 He0 Ho Hp' Ha H1 H2].
  - congruence.
  - destruct Hc; congruence.
  - assert (packet' = packet) as -> by congruence. specialize (Hp before c after Ho).
    rewrite app_nil_r, Ha in Hp. by destruct e0.
Qed.

(** Events that go out are dispatched, whatever comes after them. *)
Lemma dispatch_prefix events more :
  all_out events more ->
  dispatch_run (dispatch_bound (events ++ more)) (Dispatch_next (events ++ more)) =
  let '(r, packets) := dispatch_run (dispatch_bound more) (Dispatch_next more) in
  (r, all_packets events more ++ packets).
Proof.
  induction events as [|e events IH]; [by destruct (dispatch_run _ _)|]. intros [He Hall].
  cbn [app dispatch_bound all_packets]. rewrite dispatch_out, IH by done.
  destruct (dispatch_run _ (Dispatch_next more)). by rewrite app_assoc.
Qed.

Lemma dispatch_events events :
  all_out events [] ->
  dispatch_run (dispatch_bound events) (Dispatch_next events) = (inr (Ok tt), all_packets events []).
Proof.
  intros Ha. pose proof (dispatch_prefix events [] Ha) as Hp. rewrite app_nil_r in Hp. rewrite Hp. cbn.
  by rewrite app_nil_r.
Qed.

(** Either all events go out, or there is a first that does not. *)
Lemma all_out_or_first events rest :
  all_out events rest \/
  exists before e after, events = before ++ e :: after /\ all_out before (e :: after ++ rest) /\
    ~ goes_out e (after ++ rest).
Proof.
  induction events as [|e events IH]; [by left|].
  destruct (dispatch_event e (events ++ rest) 0) as [Ho|(error & part & Hs%stopped_not_out & _)].
  - destruct IH as [Ha|(before & e' & after & -> & Ha & Hn)]; [by left|right].
    exists (e :: before), e', after. split; [done|]. split; [|done]. split; [|done].
    by rewrite <- (assoc_L (++)) in Ho.
  - right. by exists [], e, events.
Qed.

(** C32: what a dispatch delivers, and what it does not.  Whatever the system
    answers and however the session table changes meanwhile, dispatching ends
    after a bounded number of steps.  If every event goes out, each event's packet
    has been sent, in the order of the events, to the connection of each of its
    recipients that was in the table when its turn came, once, a broken or reset
    connection costing nobody else a packet.  Otherwise the call fails with the
    first event that does not: a packet that cannot be encoded, connections that
    cannot be duplicated, or a send that fails for another reason; all events
    before it have been sent like this, of that event only the recipients before
    the failing send got the packet, and the events after it are lost. *)
Theorem dispatch_delivers events :
  (all_out events [] /\
   dispatch_run (dispatch_bound events) (Dispatch_next events) = (inr (Ok tt), all_packets events []) \/
   exists before e after error part,
     events = before ++ e :: after /\ all_out before (e :: after) /\ stopped_at e after error part /\
     dispatch_run (dispatch_bound events) (Dispatch_next events) =
       (inr (Err error), all_packets before (e :: after) ++ part)) /\
  (forall e rest c, c ∈ outputs_of e rest <->
     exists id, id ∈ (outgoing e).1 /\ tables (Dispatch_next (e :: rest)) !! id = Some c) /\
  (forall e rest, length (outputs_of e rest) =
     length (filter (fun id => id ∈ (outgoing e).1) (bt_keys (tables (Dispatch_next (e :: rest)))))).
Proof.
  split; [|split].
  - destruct (all_out_or_first events []) as [Ha|(before & e & after & -> & Ha & Hn)];
      [left; split; [done|by apply dispatch_events]|right].
    rewrite app_nil_r in *.
    destruct (dispatch_event e after (dispatch_bound after)) as [?|(error & part & Hs & Hr)]; [done|].
    exists before, e, after, error, part. do 3 (split; [done|]).
    rewrite dispatch_prefix by done. cbn [dispatch_bound]. by rewrite Hr.
  - intros e rest c. unfold outputs_of, outputs_for. rewrite list_elem_of_fmap. split.
    + intros ([id c'] & -> & [Hid Hin%elem_of_bt_entries]%list_elem_of_filter). by exists id.
    + intros (id & Hid & Hc%elem_of_bt_entries). exists (id, c). split; [done|].
      by apply list_elem_of_filter.
  - intros e rest. unfold outputs_of, outputs_for, bt_keys. rewrite length_fmap.
    generalize (tables (Dispatch_next (e :: rest))) as s. intros s.
    induction (bt_entries s) as [|[id c] l IH]; [done|]. cbn [fmap list_fmap].
    rewrite !filter_cons. cbn [fst]. destruct (decide (id ∈ (outgoing e).1)); cbn; by rewrite ?IH.
Qed.

End dispatching.

(** ** A session winds down *)

(** One step to take each event, one per connection, one to finish it. *)
Definition dispatch_fuel (s : sessions) (events : list DeliveryEvent) : nat :=
  S (sum_list_with (fun e => 2 + length (outputs_for (outgoing e).1 s)) events)%nat.

Definition dispatch_measure (s : sessions) (d : dispatch) : nat :=
  match d with
  | Dispatch_next events => dispatch_fuel s events
  | Dispatch_send _ outputs events => S (length outputs + dispatch_fuel s events)
  end.

Lemma dispatch_fuel_cons (s : sessions) e events :
  dispatch_fuel s (e :: events) = S (S (length (outputs_for (outgoing e).1 s) + dispatch_fuel s events)).
Proof. unfold dispatch_fuel. cbn. lia. Qed.

Lemma dispatch_step_measure limits (s : sessions) d env d' sent :
  dispatch_step limits s d env = (inl d', sent) -> (dispatch_measure s d' < dispatch_measure s d)%nat.
Proof.
  destruct d as [[|e events]|packet [|o outputs] events]; cbn [dispatch_step]; [done| | |].
  - cbn [dispatch_measure]. rewrite dispatch_fuel_cons. destruct (outgoing e) as [recipients f]. cbn [fst].
    destruct (encoded f limits); [|done..].
    destruct (outputs_for recipients s) eqn:Eo, (env_cloned env); try done; intros [= <- <-]; cbn; lia.
  - intros [= <- <-]. cbn. lia.
  - destruct (env_sent env) as [|[]]; intros [= <- <-]; cbn; lia.
Qed.

Lemma dispatch_measure_pos (s : sessions) d : (0 < dispatch_measure s d)%nat.
Proof. destruct d; cbn; [unfold dispatch_fuel|]; lia. Qed.

Lemma done_steps limits creds (conn : Conn) r envs (b : broker) (s : sessions) :
  thread_steps limits creds conn (Phase_done r) envs b s = (Phase_done r, b, s, []).
Proof. induction envs as [|env envs IH]; [done|]. cbn. by rewrite IH. Qed.

Lemma farewell_ends limits creds (conn : Conn) d r envs (b : broker) (s : sessions) :
  dispatch_ok limits d -> (dispatch_measure s d <= length envs)%nat ->
  exists r' packets,
    thread_steps limits creds conn (Phase_farewell d r) envs b s = (Phase_done r', b, s, packets).
Proof.
  revert d. induction envs as [|env envs IH]; intros d Hok Hl.
  { pose proof (dispatch_measure_pos s d). cbn [length] in Hl. lia. }
  cbn [thread_steps thread_step]. destruct (dispatch_step limits s d env) as [r' sent] eqn:E.
  destruct (dispatch_step_ok limits s d env r' sent Hok E) as [Hr _].
  destruct r' as [d'|[[]|e|]]; [|rewrite done_steps; eauto..|done].
  apply dispatch_step_measure in E. cbn [length] in Hl.
  destruct (IH d' Hr) as (r' & packets & ->); [lia|]. eauto.
Qed.

(** The steps a session still takes once its client is gone. *)
Definition farewell_steps (id : PeerId) (b : broker) (s : sessions) : nat :=
  match (disconnect_with_events id b).1 with
  | Ok events => dispatch_fuel (delete id s) events
  | _ => 0
  end.

Definition winding (id : PeerId) (ph : phase) (b : broker) (s : sessions) : nat :=
  (farewell_steps id b s +
   match ph with
   | Phase_reply _ _ | Phase_refuse _ _ => 4
   | Phase_receive _ | Phase_reject _ _ _ => 3
   | Phase_dispatch _ d => 3 + dispatch_measure s d
   | _ => 2
   end)%nat.

Lemma winding_farewell id ph (b : broker) (s : sessions) :
  (farewell_steps id b s + 2 <= winding id ph b s)%nat.
Proof. unfold winding. destruct ph; lia. Qed.

Lemma disconnect_ends policy quota limits creds (conn : Conn) id r envs (b : broker) (s : sessions) :
  reachable policy quota b -> is_Some (b_peers b !! id) ->
  (1 + farewell_steps id b s <= length envs)%nat ->
  exists r' packets,
    thread_steps limits creds conn (Phase_disconnect id r) envs b (delete id s) =
      (Phase_done r', disconnected id b, delete id s, packets).
Proof.
  intros Hb [p Hp] Hl. destruct envs as [|env envs]; [cbn in Hl; lia|].
  cbn [thread_steps thread_step]. unfold farewell_steps in Hl.
  destruct (disconnect_with_events id b) as [r' b'] eqn:E. cbn [fst] in Hl.
  pose proof (apply_trusted (Command_Disconnect id) b b' r' (reachable_ok _ _ _ Hb) I E) as Ht.
  apply disconnect_with_events_effect in E as Heff.
  destruct r' as [events|e|]; [|destruct Heff as (_ & _ & Hn); congruence|done].
  destruct Heff as (_ & -> & _).
  destruct (farewell_ends limits creds conn (Dispatch_next events) r envs (disconnected id b)
    (delete id s)) as (r' & packets & ->).
  - cbn. eapply Forall_impl; [exact Ht|]. intros e. apply trusted_clean, ok_next.
    by eapply reachable_ok.
  - cbn in *. lia.
  - eauto.
Qed.

Lemma winding_step limits creds (conn : Conn) id ph env (b : broker) (s : sessions) :
  registered ph = Some id -> phase_ok limits ph -> env_received env = Done None ->
  (exists r sent, thread_step limits creds conn ph env b s = (Phase_disconnect id r, b, delete id s, sent)) \/
  exists ph' sent, thread_step limits creds conn ph env b s = (ph', b, s, sent) /\
    registered ph' = Some id /\ phase_ok limits ph' /\ (winding id ph' b s < winding id ph b s)%nat.
Proof.
  intros Hreg Hok Hr. destruct ph as [|code text session| | | |i|i f|i f|i d|i r| | | | |]; try done;
    cbn in Hreg; simplify_eq; cbn [thread_step].
  - right. destruct (send_then _ _ _ _ _) as [ph' sent] eqn:E.
    apply send_then_cases in E as [Hph _]; [|apply encoded_total]. exists ph', sent.
    destruct Hph as [->|[e ->]]; unfold winding; (split; [done|]); (split; [done|]); (split; [done|lia]).
  - right. rewrite Hr. eexists _, _. split; [done|]. split; [done|]. split; [done|]. unfold winding. lia.
  - right. destruct (send_then _ _ _ _ _) as [ph' sent] eqn:E.
    apply send_then_cases in E as [Hph _]; [|apply encoded_total]. exists ph', sent.
    destruct Hph as [->|[e ->]]; unfold winding; (split; [done|]); (split; [done|]); (split; [done|lia]).
  - right. destruct (send_then _ _ _ _ _) as [ph' sent] eqn:E.
    apply send_then_cases in E as [Hph _]; [|apply encoded_total]. exists ph', sent.
    destruct Hph as [->|[e ->]]; unfold winding; (split; [done|]); (split; [done|]); (split; [done|lia]).
  - right. destruct (dispatch_step limits s d env) as [r' sent] eqn:E.
    destruct (dispatch_step_ok limits s d env r' sent Hok E) as [Hd _].
    destruct r' as [d'|[[]|e|]]; [| | |done]; eexists _, _; (split; [done|]); (split; [done|]);
      (split; [done|]); unfold winding; [apply dispatch_step_measure in E; lia|..];
      pose proof (dispatch_measure_pos s d); lia.
  - left. by eexists _, _.
Qed.

(** C22: a session whose client is gone is cleaned up.  From whatever point of its
    loop, once its connection brings nothing more, a session ends after a bounded
    number of steps of its thread, whether its sends succeed, fail or the encoder
    refuses them: its peer has left the broker, which changed in nothing else
    than that disconnection, and its entry the session table.  This is about the
    thread's own steps, between which no other thread touches the broker or the
    table. *)
Theorem session_winds_down policy quota limits creds (conn : Conn) id ph envs (b : broker) (s : sessions) :
  reachable policy quota b -> is_Some (b_peers b !! id) ->
  registered ph = Some id -> phase_ok limits ph ->
  Forall (fun env => env_received env = Done None) envs -> (winding id ph b s < length envs)%nat ->
  exists r packets,
    thread_steps limits creds conn ph envs b s =
      (Phase_done r, disconnected id b, delete id s, packets) /\
    b_peers (disconnected id b) !! id = None.
Proof.
  intros Hb Hp Hreg Hok Henvs. revert ph Hreg Hok.
  induction Henvs as [|env envs Henv _ IH]; intros ph Hreg Hok Hl; [cbn in Hl; lia|].
  cbn [length] in Hl.
  destruct (winding_step limits creds conn id ph env b s Hreg Hok Henv)
    as [(r & sent & Hs)|(ph' & sent & Hs & Hreg' & Hok' & Hlt)]; cbn [thread_steps]; rewrite Hs.
  - destruct (disconnect_ends policy quota limits creds conn id r envs b s Hb Hp)
      as (r' & packets & ->); [pose proof (winding_farewell id ph b s); lia|].
    eexists _, _. split; [done|]. cbn. apply lookup_delete_eq.
  - destruct (IH ph' Hreg' Hok') as (r & packets & -> & Hnone); [lia|]. eauto.
Qed.

End sessions.

(** ** Witnesses *)

Definition demo_table : gmap PeerId nat := {[ PeerId_new 1 := 10%nat; PeerId_new 2 := 11%nat ]}.

(** A signal with [n] headers. *)
Definition signal_with_headers (n : nat) : Message := {|
  m_kind := MessageKind_Signal;
  m_ack_policy := AckPolicy_None;
  m_ack_requirement := AckRequirement_None;
  m_request_policy := RequestPolicy_Exact;
  m_deadline_ms := 0;
  m_retry := RetryPolicy_None;
  m_destination := Destination_Channel demo_channel;
  m_message_id := MessageId_new (replicate 16 x06);
  m_correlation_id := MessageId_absent;
  m_status := Status_Success;
  m_headers := list_to_map
    ((fun n => (bs "h" ++ dec (N.of_nat n), HeaderValue_Boolean true)) <$> seq 0 n);
  m_payload := [];
|}.

(** With the default limits 128 headers are one too many, 127 are not. *)
Example attestation_overflow_128 :
  let ends n :=
    let f := Frame_Message (signal_with_headers n) in
    match thread_steps FrameLimits_default demo_credentials 10%nat (Phase_receive (PeerId_new 1))
            [on_frame f; quiet None; quiet None; quiet None] demo demo_table with
    | ((Phase_disconnect _ (Err (Io_codec _)) | Phase_farewell _ (Err (Io_codec _))), _, _, sent) =>
        Some (length sent)
    | _ => None
    end in
  ends 127%nat = None /\ ends 128%nat = Some 0%nat.
Proof. vm_compute. split; reflexivity. Qed.

Definition narrow_limits : FrameLimits := {|
  maximum_frame_size := 1048576; maximum_headers := 1;
  maximum_capabilities := 128; maximum_filters := 64;
|}.

Definition narrow_packet : bytes :=
  match encode_with_limits (Frame_Message (signal_with_headers 1)) narrow_limits with
  | Ok packet => packet | _ => []
  end.

Lemma attestation_overflow_witness :
  exists ph e b',
    thread_step narrow_limits demo_credentials 10%nat (Phase_receive (PeerId_new 1))
      (quiet (Some narrow_packet)) demo demo_table = (ph, b', demo_table, None) /\
    thread_step narrow_limits demo_credentials 10%nat ph (quiet None) b' demo_table =
      (Phase_unregister (PeerId_new 1) (Err (Io_codec e)), b', demo_table, None).
Proof.
  assert ((begin_delivery (PeerId_new 1) (Frame_Message (signal_with_headers 1)) 1000 demo).1 =
    Ok [DeliveryEvent_Deliver (PeerId_new 1) [PeerId_new 2; PeerId_new 3]
          (Frame_Message (signal_with_headers 1))]) as Hr by (vm_compute; reflexivity).
  assert (decode_with_limits narrow_packet narrow_limits = Ok (Frame_Message (signal_with_headers 1)))
    as Hd by (vm_compute; reflexivity).
  assert (maximum_headers narrow_limits <= bt_len (m_headers (signal_with_headers 1))) as Hn
    by (vm_compute; congruence).
  destruct (begin_delivery (PeerId_new 1) (Frame_Message (signal_with_headers 1)) 1000 demo)
    as [r b'] eqn:E. cbn [fst] in Hr. subst r.
  destruct (attestation_overflow allow_all Limits_default narrow_limits demo b' demo_table
    demo_table demo_credentials 10%nat (PeerId_new 1) narrow_packet (signal_with_headers 1)
    (quiet (Some narrow_packet)) (quiet None) [PeerId_new 2; PeerId_new 3] []
    demo_reachable eq_refl Hd E Hn) as (ph & e & Hph). exists ph, e, b'. exact Hph.
Defined.

Lemma control_answers_witness :
  exists reply b',
    thread_step FrameLimits_default demo_credentials 10%nat (Phase_receive (PeerId_new 1))
      (on_frame (Frame_Claim (Namespace_of (bs "bus://svc")) ∅)) demo demo_table =
      (Phase_reply (PeerId_new 1) reply, b', demo_table, None) /\
    answer_true (PeerId_new 1) (Frame_Claim (Namespace_of (bs "bus://svc")) ∅) reply demo b'.
Proof.
  assert (decode_with_limits (packet_of (Frame_Claim (Namespace_of (bs "bus://svc")) ∅))
    FrameLimits_default = Ok (Frame_Claim (Namespace_of (bs "bus://svc")) ∅)) as Hd
    by (vm_compute; reflexivity).
  destruct (control_answers FrameLimits_default demo_credentials 10%nat (PeerId_new 1)
    (packet_of (Frame_Claim (Namespace_of (bs "bus://svc")) ∅))
    (Frame_Claim (Namespace_of (bs "bus://svc")) ∅)
    (on_frame (Frame_Claim (Namespace_of (bs "bus://svc")) ∅)) demo demo_table eq_refl Hd eq_refl)
    as (reply & b' & Hs & Ha & _). exists reply, b'. split; [exact Hs|exact Ha].
Defined.

Lemma misused_frames_close_witness :
  exists text events answer,
    thread_steps FrameLimits_default demo_credentials 10%nat (Phase_receive (PeerId_new 1))
      [on_frame demo_greeting; quiet None; quiet None; quiet None] demo demo_table =
      (Phase_farewell (Dispatch_next events) (Ok tt), disconnected (PeerId_new 1) demo,
       delete (PeerId_new 1) demo_table, [(10%nat, answer)]) /\
    decode_with_limits answer FrameLimits_default =
      Ok (Frame_ProtocolError ProtocolErrorCode_InvalidState text) /\
    b_peers (disconnected (PeerId_new 1) demo) !! PeerId_new 1 = None.
Proof.
  assert (decode_with_limits (packet_of demo_greeting) FrameLimits_default = Ok demo_greeting) as Hd
    by by vm_compute.
  assert (is_Some (b_peers demo !! PeerId_new 1)) as Hp by (vm_compute; by eexists).
  assert (~ session_operation demo_greeting) as Hf by (by intros [?|?]).
  exact (misused_frames_close allow_all Limits_default FrameLimits_default demo_credentials 10%nat
    (PeerId_new 1) (packet_of demo_greeting) demo_greeting (on_frame demo_greeting) (quiet None)
    (quiet None) (quiet None) demo demo_table demo_reachable Hp eq_refl Hd Hf eq_refl).
Defined.

(** The first subscriber's connection is broken: the second still gets the
    signal.  With another error neither the second nor the next event gets
    through. *)
Example dispatch_example :
  let signal := DeliveryEvent_Deliver (PeerId_new 3) [PeerId_new 1; PeerId_new 2; PeerId_new 9]
                  (Frame_Message demo_signal) in
  let envs error (d : dispatch (Conn := nat)) := {|
    env_now_ms := 0; env_received := Done None; env_cloned := Done tt;
    env_sent := match d with
                | Dispatch_send _ (10%nat :: _) _ => Failed error
                | _ => Done tt
                end |} in
  let run error :=
    dispatch_run FrameLimits_default (envs error) (fun _ => demo_table) 10
      (Dispatch_next [signal; DeliveryEvent_Result (PeerId_new 2) demo_id DeliveryOutcome_Timeout]) in
  let packet := packet_of (Frame_Message (attest (PeerId_new 3) demo_signal)) in
  run Io_broken_pipe = (inr (Ok tt), [(11%nat, packet);
    (11%nat, packet_of (Frame_DeliveryResult demo_id DeliveryOutcome_Timeout))]) /\
  run (Io_transport (IoError_Os 105)) = (inr (Err (Io_transport (IoError_Os 105))), []).
Proof. vm_compute. split; reflexivity. Qed.

Lemma session_winds_down_witness :
  let ph := Phase_reply (PeerId_new 1) (Frame_ControlResult ControlOperation_Claim) in
  exists r packets,
    thread_steps FrameLimits_default demo_credentials 10%nat ph (replicate 20 (quiet None)) demo demo_table =
      (Phase_done r, disconnected (PeerId_new 1) demo, delete (PeerId_new 1) demo_table, packets) /\
    b_peers (disconnected (PeerId_new 1) demo) !! PeerId_new 1 = None.
Proof.
  intros ph.
  assert (is_Some (b_peers demo !! PeerId_new 1)) as Hp by (vm_compute; by eexists).
  assert (winding (PeerId_new 1) ph demo demo_table < 20)%nat as Hw by (vm_compute; lia).
  exact (session_winds_down allow_all Limits_default FrameLimits_default demo_credentials 10%nat
    (PeerId_new 1) ph (replicate 20 (quiet None)) demo demo_table demo_reachable Hp eq_refl I
    (Forall_replicate _ 20 (quiet None) eq_refl) Hw).
Defined.
