(* ===== verification/Concurrency.v ===== *)
(** * The daemon's lock and its scheduler

    The threads of the daemon share the broker behind one lock.  Who holds it,
    what happens while it is held, and that the scheduler closes every delivery
    that is due, however its steps interleave with those of the sessions. *)

From S2P Require Export SessionFacts.

Local Open Scope N_scope.

Section concurrency.
Context {P : Type} `{Policy P} {Conn : Type}.

Local Abbreviation broker := (Broker P).
Local Abbreviation sessions := (gmap PeerId Conn).
Local Abbreviation phase := (phase (Conn := Conn)).
Local Abbreviation dispatch := (dispatch (Conn := Conn)).
Local Abbreviation thread := (thread (Conn := Conn)).
Local Abbreviation World := (World (P := P) (Conn := Conn)).
Local Abbreviation occurrence := (occurrence (Conn := Conn)).

(** ** The lock of the broker *)

Lemma received_frame_spec limits env packet :
  env_received env = Done (Some packet) ->
  received_frame limits env =
    match decode_with_limits packet limits with Ok frame => Some frame | _ => None end.
Proof. intros He. unfold received_frame. by rewrite He. Qed.

Lemma handle_frame_unlocked id f now_ms (b b' : broker) (ph' : phase) :
  handle_frame id f now_ms b = (ph', b') -> broker_operation f = false ->
  b' = b /\ holds_broker ph' = false.
Proof.
  intros Hf Hop. destruct f; cbn [broker_operation handle_frame] in *; try done;
    try (by injection Hf as <- <-). rewrite Hop in Hf. by injection Hf as <- <-.
Qed.

Lemma handle_hello_unlocked limits creds packet (b b' : broker) (ph' : phase) :
  handle_hello limits creds packet b = (ph', b') ->
  match decode_with_limits packet limits with Ok (Frame_Hello _ _ _) => False | _ => True end ->
  b' = b /\ holds_broker ph' = false.
Proof.
  unfold handle_hello. destruct (decode_with_limits packet limits) as [[]|e|]; intros Hh Hop;
    try done; by injection Hh as <- <-.
Qed.

Lemma send_then_phase conn packet env ok failed (ph' : phase) sent :
  send_then (Conn := Conn) conn packet env ok failed = (ph', sent) ->
  ph' = ok \/ (exists e, ph' = failed (Err e)) \/ ph' = Phase_panicked.
Proof.
  unfold send_then. intros Hs. destruct packet as [p|e|]; [destruct (env_sent env)|..]; simplify_eq; eauto.
Qed.

(** A step that does not lock the broker leaves it alone and does not end up
    holding the lock; in particular it releases a lock it held. *)
Lemma unlocked_step limits creds conn ph env (b b' : broker) (s s' : sessions) ph' sent :
  thread_step limits creds conn ph env b s = (ph', b', s', sent) ->
  locks_broker limits ph env = false -> b' = b /\ holds_broker ph' = false.
Proof.
  intros Hs Hl. destruct ph as [|code msg session|msg|session|id|id|id f|id f|id d|id r|id r|d r|r|id r|];
    cbn [thread_step locks_broker] in *;
    try (destruct (send_then _ _ _ _ _) as [ph1 sent1] eqn:E; simplify_eq; split; [done|];
         apply send_then_phase in E as [->|[[e ->]| ->]]; try done; by destruct session);
    try (destruct (dispatch_step limits s d env) as [[d'|[[]|e|]] sent1]; by simplify_eq);
    try by simplify_eq.
  - unfold received_frame in Hl. destruct (env_received env) as [[packet|]|e]; [|by simplify_eq..].
    destruct (handle_hello limits creds packet b) as [ph1 b1] eqn:E. simplify_eq.
    apply (handle_hello_unlocked _ _ _ _ _ _ E). by destruct (decode_with_limits packet limits) as [[]| |].
  - by destruct (env_cloned env); simplify_eq.
  - unfold received_frame in Hl. destruct (env_received env) as [[packet|]|[]]; try by simplify_eq.
    destruct (decode_with_limits packet limits) as [f|e|]; [|by simplify_eq..].
    destruct (handle_frame id f _ b) as [ph1 b1] eqn:E. simplify_eq.
    by apply (handle_frame_unlocked _ _ _ _ _ _ E).
Qed.

Lemma holder_step limits creds conn ph env (b b' : broker) (s s' : sessions) ph' sent :
  thread_step limits creds conn ph env b s = (ph', b', s', sent) ->
  holds_broker ph = true -> b' = b /\ holds_broker ph' = false.
Proof.
  intros Hs Hh. destruct ph; try done; cbn [thread_step] in Hs;
    (destruct (send_then _ _ _ _ _) as [ph1 sent1] eqn:E; simplify_eq; split; [done|];
     by apply send_then_phase in E as [->|[[e ->]| ->]]).
Qed.

Lemma holder_no_lock limits ph env : holds_broker (Conn := Conn) ph = true -> locks_broker limits ph env = false.
Proof. by destruct ph. Qed.

Lemma broker_held_true (w : World) :
  broker_held w = true <-> exists i t, w_threads w !! i = Some t /\ holds_broker (t_phase t) = true.
Proof.
  unfold broker_held. rewrite existsb_exists. split.
  - intros (t & Ht%list_elem_of_In & Hh). apply list_elem_of_lookup in Ht as [i Hi]. eauto.
  - intros (i & t & Hi & Hh). exists t. split; [|done]. apply list_elem_of_In. by eapply list_elem_of_lookup_2.
Qed.

(** At most one thread holds the lock. *)
Definition exclusive (w : World) : Prop :=
  forall i j t u, w_threads w !! i = Some t -> w_threads w !! j = Some u ->
    holds_broker (t_phase t) = true -> holds_broker (t_phase u) = true -> i = j.

Lemma step_exclusive limits (a : occurrence) (w : World) : exclusive w -> exclusive (step limits a w).
Proof.
  intros Hex. destruct a as [conn proc peer|k env|env].
  - cbn. intros i j t u Hi Hj Ht Hu.
    assert (forall i t, (w_threads w ++ [{| t_conn := conn; t_credentials := credentials_from_peer proc peer;
              t_phase := Phase_hello |}]) !! i = Some t -> holds_broker (t_phase t) = true ->
              w_threads w !! i = Some t) as Hold.
    { clear. intros i t [Hi|[_ Hi]]%lookup_app_Some Ht; [done|].
      by apply list_lookup_singleton_Some in Hi as [_ <-]. }
    eapply Hex; eauto.
  - cbn. destruct (w_threads w !! k) as [t0|] eqn:Ek; [|done].
    destruct (locks_broker limits (t_phase t0) env && broker_held w) eqn:El; [done|].
    destruct (thread_step _ _ _ _ _ _ _) as [[[ph' b'] s'] sent] eqn:E.
    intros i j t u Hi Hj Ht Hu. cbn in Hi, Hj.
    assert (holds_broker ph' = true -> forall j u, w_threads w !! j = Some u ->
              holds_broker (t_phase u) = true -> j = k) as Hk.
    { intros Hh j' u' Hj' Hu'. apply andb_false_iff in El as [El|El].
      - destruct (unlocked_step _ _ _ _ _ _ _ _ _ _ _ E El) as [_ Hno]. congruence.
      - assert (broker_held w = true) as Hw; [|congruence]. apply broker_held_true. eauto. }
    apply list_lookup_insert_Some in Hi as [(<- & <- & _)|[Hki Hi]];
      apply list_lookup_insert_Some in Hj as [(<- & <- & _)|[Hkj Hj]]; try done.
    + symmetry. by eapply Hk.
    + by eapply Hk.
    + by eapply Hex.
  - intros i j t u. rewrite schedule_threads. by apply Hex.
Qed.

Lemma execute_exclusive limits (l : list occurrence) (w : World) : exclusive w -> exclusive (execute limits l w).
Proof. revert w. induction l as [|a l IH]; intros w Hw; [done|]. apply IH, step_exclusive, Hw. Qed.

(** While the lock is held, a step of anybody else keeps the holder and the
    broker. *)
Lemma held_step limits (a : occurrence) (w : World) i (t : thread) :
  w_threads w !! i = Some t -> holds_broker (t_phase t) = true ->
  match a with Run j _ => j <> i | _ => True end ->
  w_threads (step limits a w) !! i = Some t /\ w_broker (step limits a w) = w_broker w.
Proof.
  intros Hi Ht Ha. assert (broker_held w = true) as Hheld by (apply broker_held_true; eauto).
  destruct a as [conn proc peer|k env|env].
  - cbn. split; [|done]. by apply lookup_app_l_Some.
  - cbn. destruct (w_threads w !! k) as [u|] eqn:Ek; [|done]. rewrite Hheld, andb_true_r.
    destruct (locks_broker _ _ _) eqn:El; [done|].
    destruct (thread_step _ _ _ _ _ _ _) as [[[ph' b'] s'] sent] eqn:E. cbn.
    rewrite list_lookup_insert_ne by done. split; [done|].
    by apply unlocked_step in E as [-> _].
  - rewrite schedule_threads. split; [done|]. cbn. destruct (w_scheduler w) as [[d taken]|].
    + by destruct (dispatch_step _ _ _ _).
    + by rewrite Hheld.
Qed.

Lemma held_execute limits (l : list occurrence) (w : World) i (t : thread) :
  w_threads w !! i = Some t -> holds_broker (t_phase t) = true ->
  Forall (fun a => match a with Run j _ => j <> i | _ => True end) l ->
  w_threads (execute limits l w) !! i = Some t /\ w_broker (execute limits l w) = w_broker w.
Proof.
  intros Hi Ht Hl. revert w Hi. induction Hl as [|a l Ha _ IH]; intros w Hi; [done|]. cbn.
  destruct (held_step limits a w i t Hi Ht Ha) as [Hi' <-]. by apply IH.
Qed.

(** The holder's next step releases the lock, whatever the kernel answers. *)
Lemma holder_releases limits (w : World) i (t : thread) env :
  exclusive w -> w_threads w !! i = Some t -> holds_broker (t_phase t) = true ->
  broker_held (step limits (Run i env) w) = false.
Proof.
  intros Hex Hi Ht. destruct (broker_held (step _ _ _)) eqn:Eh; [|done]. exfalso.
  apply broker_held_true in Eh as (j & u & Hj & Hu). cbn in Hj.
  rewrite Hi, (holder_no_lock limits _ env Ht) in Hj. cbn [andb] in Hj.
  destruct (thread_step _ _ _ _ _ _ _) as [[[ph' b'] s'] sent] eqn:E. cbn in Hj.
  apply holder_step in E as [_ Hno]; [|done].
  apply list_lookup_insert_Some in Hj as [(-> & <- & _)|[Hne Hj]]; [cbn in Hu; congruence|].
  by destruct (Hex i j t u Hi Hj Ht Hu).
Qed.

(** C18: a client that does not read stops the bus.  In every state of the daemon
    at most one thread holds the broker's lock, and it is sending a refusal to
    its own client.  Until the kernel has taken that packet, whatever happens
    otherwise - connections accepted, packets received, the clock passing any
    deadline - the broker does not change.  Once it has, or has failed, the lock
    is free again: the threads never deadlock. *)
Theorem refusal_stops_the_bus (policy : P) quota limits (l : list occurrence) :
  let w := execute limits l (start policy quota) in
  exclusive w /\
  forall i t, w_threads w !! i = Some t -> holds_broker (t_phase t) = true ->
    (forall later, Forall (fun a => match a with Run j _ => j <> i | _ => True end) later ->
       w_broker (execute limits later w) = w_broker w /\
       w_threads (execute limits later w) !! i = Some t) /\
    forall env, broker_held (step limits (Run i env) w) = false.
Proof.
  intros w. assert (exclusive w) as Hex by (apply execute_exclusive; by intros i j t u Hi).
  split; [done|]. intros i t Hi Ht. split; [|intros env; by eapply holder_releases].
  intros later Hl. by destruct (held_execute limits later w i t Hi Ht Hl).
Qed.

(** ** The scheduler *)

(** The commands the daemon's steps give the broker. *)
Lemma step_driven policy quota limits (a : occurrence) (w : World) :
  world_ok policy quota limits w -> driven (w_broker w) (w_broker (step limits a w)).
Proof.
  intros [Hb Hph Hpe _ _ _ _ _]. pose proof (reachable_ok _ _ _ Hb) as Hbok.
  destruct a as [conn proc peer|i env|env]; cbn; [by left|..].
  - destruct (w_threads w !! i) as [t|] eqn:Ei; [|by left]. destruct (_ && _); [by left|].
    destruct (thread_step _ _ _ _ _ _ _) as [[[ph' b'] s'] sent] eqn:E.
    destruct (thread_step_spec _ _ _ _ _ _ _ _ _ _ _ Hbok (Hph i t Ei)
      (fun id Hid => let '(ex_intro _ p (conj Hp _)) := Hpe i t id Ei Hid in ex_intro _ p Hp) E)
      as (Hdr & _). done.
  - destruct (w_scheduler w) as [[d taken]|]; [destruct (dispatch_step _ _ _ _); by left|].
    destruct (broker_held w); [by left|].
    eapply (driven_by (Command_Tick (env_now_ms env))); [done|]. cbn [apply].
    by rewrite tick_effect by by apply broker_attempts_fit.
Qed.

(** How many steps the scheduler still needs for the events it has, however many
    sessions there will be. *)
Definition events_bound (events : list DeliveryEvent) : nat :=
  S (sum_list_with (fun e => 2 + length (outgoing e).1) events)%nat.

Definition dispatch_bound (d : dispatch) : nat :=
  match d with
  | Dispatch_next events => events_bound events
  | Dispatch_send _ outputs events => S (length outputs + events_bound events)
  end.

Definition scheduler_bound (w : World) : nat :=
  match w_scheduler w with Some (d, _) => dispatch_bound d | None => 0 end.

Lemma events_bound_cons e events :
  events_bound (e :: events) = S (S (length (outgoing e).1 + events_bound events)).
Proof. unfold events_bound. cbn. lia. Qed.

Lemma outputs_for_length recipients (s : sessions) :
  (length (outputs_for recipients s) <= length recipients)%nat.
Proof.
  unfold outputs_for. rewrite length_fmap.
  rewrite <- (length_fmap fst). apply submseteq_length, NoDup_submseteq.
  - eapply sublist_NoDup; [apply (bt_keys_nodup s)|]. apply fmap_sublist, sublist_filter.
  - intros id (e & -> & [Hid _]%list_elem_of_filter)%list_elem_of_fmap. done.
Qed.

Lemma dispatch_step_bound limits (s : sessions) (d d' : dispatch) env sent :
  dispatch_step limits s d env = (inl d', sent) -> (dispatch_bound d' < dispatch_bound d)%nat.
Proof.
  destruct d as [[|e events]|packet [|o outputs] events]; cbn [dispatch_step]; [done| | |].
  - pose proof (outputs_for_length (outgoing e).1 s) as Hlen.
    cbn [dispatch_bound]. rewrite events_bound_cons.
    destruct (outgoing e) as [recipients f]. cbn [fst] in *.
    destruct (encoded f limits); [|done..].
    destruct (outputs_for recipients s) eqn:Eo, (env_cloned env); try done; intros [= <- <-];
      cbn [dispatch_bound length] in *; lia.
  - intros [= <- <-]. cbn. lia.
  - destruct (env_sent env) as [|[]]; intros [= <- <-]; cbn; lia.
Qed.

(** The steps of the scheduler that find the lock free. *)
Fixpoint scheduled limits (l : list occurrence) (w : World) : nat :=
  match l with
  | [] => 0
  | a :: l =>
      ((match a with Schedule _ => if broker_held w then 0 else 1 | _ => 0 end)
       + scheduled limits l (step limits a w))%nat
  end.

(** Connections and sessions do not delay the scheduler; its own steps bring it
    forward, until it ticks. *)
Lemma scheduler_step limits (a : occurrence) (w : World) :
  match a with
  | Schedule _ => w_scheduler w <> None /\ (scheduler_bound (step limits a w) < scheduler_bound w)%nat \/
                  w_scheduler w = None
  | _ => scheduler_bound (step limits a w) = scheduler_bound w
  end.
Proof.
  unfold scheduler_bound. destruct a as [conn proc peer|i env|env]; cbn [step]; [done|..].
  - destruct (w_threads w !! i) as [t|]; [|done]. destruct (_ && _); [done|].
    by destruct (thread_step _ _ _ _ _ _ _) as [[[ph' b'] s'] sent].
  - destruct (w_scheduler w) as [[d taken]|]; [left|by right]. split; [done|].
    destruct (dispatch_step _ _ _ _) as [[d'|r] sent] eqn:E; cbn [w_scheduler].
    + by apply dispatch_step_bound in E.
    + destruct d; cbn; unfold events_bound; lia.
Qed.

(** A tick at or after the deadline closes the delivery. *)
Lemma due_tick limits (w : World) env id p :
  broker_ok (w_broker w) -> w_scheduler w = None -> broker_held w = false ->
  b_deliveries (w_broker w) !! id = Some p -> pd_deadline_ms p <= env_now_ms env ->
  b_deliveries (w_broker (step limits (Schedule env) w)) !! id = None.
Proof.
  intros Hb Hw Hh Hp Hd. cbn [step]. rewrite Hw, Hh.
  rewrite tick_effect by by apply broker_attempts_fit. cbn [w_broker].
  rewrite tick_deliveries, lookup_omap, Hp. cbn. unfold after_tick, tick_decision.
  by destruct (N.leb_spec (pd_deadline_ms p) (env_now_ms env)); [|lia].
Qed.

(** C6: no delivery stays pending past its deadline.  A daemon tracks a message.
    From then on anything may happen, connections, packets, failing sends and
    the steps of all sessions interleaved in any order; but once the scheduler
    has made more steps with the broker's lock free, at or after the deadline,
    than the events it was still dispatching have recipients, the message has
    been closed on the way, unchanged until then, by one command that tells its
    sender one outcome or brings the response that ends the request. *)
Theorem deadlines_are_met (policy : P) quota limits (before later : list occurrence) id p :
  let w := execute limits before (start policy quota) in
  b_deliveries (w_broker w) !! id = Some p ->
  (forall env, Schedule env ∈ later -> pd_deadline_ms p <= env_now_ms env) ->
  (scheduler_bound w < scheduled limits later w)%nat ->
  exists l1 a l2 q c events,
    later = l1 ++ a :: l2 /\
    let w1 := execute limits l1 w in
    b_deliveries (w_broker w1) !! id = Some q /\
    pd_sender q = pd_sender p /\ pd_message q = pd_message p /\ pd_deadline_ms q = pd_deadline_ms p /\
    apply c (w_broker w1) = (Ok events, w_broker (step limits a w1)) /\
    b_deliveries (w_broker (step limits a w1)) !! id = None /\ closes c id q events.
Proof.
  intros w. pose proof (execute_ok policy quota limits before _ (start_ok policy quota limits)) as Hw.
  fold w in Hw. clearbody w. revert w p Hw.
  induction later as [|a later IH]; intros w p Hw Hp Hdue Hn; cbn [scheduled] in Hn; [lia|].
  pose proof (reachable_ok _ _ _ (wo_broker _ _ _ _ Hw)) as Hb.
  pose proof (step_driven policy quota limits a w Hw) as Hdr.
  assert (forall q, b_deliveries (w_broker (step limits a w)) !! id = Some q ->
    pd_sender q = pd_sender p /\ pd_message q = pd_message p /\ pd_deadline_ms q = pd_deadline_ms p) as Hkeep.
  { intros q Hq. destruct Hdr as [Heq|(c & r & Hc & Hr)]; [rewrite Heq in Hq; naive_solver|].
    pose proof (apply_life c id p _ _ r Hb Hc Hr Hp) as Hl. rewrite Hq in Hl. by destruct Hl. }
  destruct (b_deliveries (w_broker (step limits a w)) !! id) as [q|] eqn:Hq.
  - destruct (Hkeep q eq_refl) as (Hs & Hm & Hd).
    destruct (IH (step limits a w) q) as (l1 & a' & l2 & q' & c & events & -> & Hp' & Hs' & Hm' & Hd' & Hrest);
      [by apply (execute_ok _ _ _ [a])|done|intros env He; rewrite Hd; apply Hdue; by right| |].
    + pose proof (scheduler_step limits a w) as Hstep. destruct a as [|i env|env]; [lia..|].
      destruct Hstep as [[_ Hlt]|Hnone]; [destruct (broker_held w); lia|].
      destruct (broker_held w) eqn:Eh.
      { cbn [step] in *. rewrite Hnone, Eh in *. lia. }
      rewrite (due_tick limits w env id p) in Hq; try done. apply Hdue. left.
    + exists (a :: l1), a', l2, q', c, events. split; [done|]. cbn. split; [done|]. split; [congruence|].
      split; [congruence|]. split; [congruence|]. exact Hrest.
  - destruct Hdr as [Heq|(c & r & Hc & Hr)]; [congruence|].
    pose proof (apply_life c id p _ _ r Hb Hc Hr Hp) as Hl. rewrite Hq in Hl.
    assert (exists events, r = Ok events) as [events ->].
    { destruct r as [events|e|]; [eauto|..]; exfalso;
        destruct Hl as [_ [(o & _ & Ho)|(? & ? & ? & ? & _ & _ & _ & _ & _ & Ho & _)]]; done. }
    exists [], a, later, p, c, events. cbn. split; [done|]. split; [done|]. split; [done|]. split; [done|].
    split; [done|]. split; [done|]. by split.
Qed.

End concurrency.

(** ** Witnesses *)

(** The first client acknowledges a message nobody sent. *)
Definition demo_refused : list (occurrence (Conn := nat)) :=
  take 8 demo_run ++ [Run 0 (on_frame (Frame_Acknowledge (MessageId_new (replicate 16 x03)) AckPolicy_Received))].

Abbreviation demo_frozen :=
  (execute FrameLimits_default demo_refused (start (Conn := nat) allow_all Limits_default)).

(** While it does not take the refusal, the second client subscribes in vain. *)
Lemma refusal_stops_the_bus_witness :
  let later := [Run 1 (on_frame (Frame_Subscribe demo_channel [])); Run 1 (quiet None); Schedule (quiet None)] in
  b_subscriptions (w_broker (execute FrameLimits_default later demo_frozen)) =
    b_subscriptions (w_broker demo_frozen) /\
  broker_held (step FrameLimits_default (Run 0 (quiet None)) demo_frozen) = false.
Proof.
  intros later.
  destruct (refusal_stops_the_bus allow_all Limits_default FrameLimits_default demo_refused) as [_ Hall].
  assert (exists t, w_threads demo_frozen !! 0%nat = Some t /\ holds_broker (t_phase t) = true) as (t & Ht & Hh).
  { eexists. split; vm_compute; reflexivity. }
  destruct (Hall 0%nat t Ht Hh) as [Hfreeze Hfree]. split; [|exact (Hfree (quiet None))].
  destruct (Hfreeze later) as [Hb _]; [|exact (f_equal b_subscriptions Hb)].
  repeat constructor; discriminate.
Defined.

(** The first client's request to a subscriber that never answers. *)
Definition demo_waited : Message :=
  demo_request (Destination_Channel demo_channel) RequestPolicy_First RetryPolicy_None x0b.

Definition demo_unanswered : list (occurrence (Conn := nat)) :=
  take 10 demo_run ++ [Run 0 (on_frame (Frame_Message demo_waited))].

Abbreviation demo_waiting_world :=
  (execute FrameLimits_default demo_unanswered (start (Conn := nat) allow_all Limits_default)).

Definition after_deadline : environment := {|
  env_now_ms := 1000000; env_received := Done None; env_sent := Done tt; env_cloned := Done tt |}.

Lemma deadlines_are_met_witness :
  let later := [Run 0 (quiet None); Run 1 (quiet None); Schedule after_deadline; Run 0 (quiet None)] in
  exists l1 a l2, later = l1 ++ a :: l2 /\
    b_deliveries (w_broker (step FrameLimits_default a
      (execute FrameLimits_default l1 demo_waiting_world))) !! m_message_id demo_waited = None.
Proof.
  intros later.
  assert (exists p, b_deliveries (w_broker demo_waiting_world) !! m_message_id demo_waited = Some p /\
            pd_deadline_ms p <= 1000000) as (p & Hp & Hd).
  { eexists. split; [vm_compute; reflexivity|vm_compute; discriminate]. }
  assert (scheduler_bound demo_waiting_world < scheduled FrameLimits_default later demo_waiting_world)%nat
    as Hn by (vm_compute; lia).
  destruct (deadlines_are_met allow_all Limits_default FrameLimits_default demo_unanswered later
    (m_message_id demo_waited) p Hp) as (l1 & a & l2 & q & c & events & Hl & _ & _ & _ & _ & _ & Hnone & _);
    [|exact Hn|].
  - intros env He. unfold later in He.
    repeat (apply elem_of_cons in He as [He|He]; [try discriminate He; injection He as ->; exact Hd|]).
    destruct (not_elem_of_nil _ He).
  - exists l1, a, l2. split; [exact Hl|exact Hnone].
Defined.
