(* ===== verification/Trail.v ===== *)
(** * The daemon's audit lines

    The refusals of the broker and the lines the daemon prints about them, as
    text: every denial is printed and was the policy's, and no client can put a
    line of its own into the log.  The text of an I/O error is that of the codec's,
    the broker's or the transport's error inside it; only the system's description
    of an error number is a parameter. *)

From S2P Require Import TransportFacts.
From S2P Require Export Concurrency.

Local Open Scope N_scope.

(** ** The errors of an operation *)

(** Every error [h] can fail with in the state [b] is in [Q]. *)
Definition raises {S E A} (h : St S E A) (b : S) (Q : E -> Prop) : Prop :=
  forall e b', h b = (Err e, b') -> Q e.

Lemma raises_bind {S E A B} (h : St S E A) (k : A -> St S E B) b (Q : E -> Prop) :
  raises h b Q -> (forall a b1, h b = (Ok a, b1) -> raises (k a) b1 Q) ->
  raises (h ≫= k) b Q.
Proof.
  intros Hh Hk e b'. unfold mbind, St_bind. destruct (h b) as [[a|e1|] b1] eqn:Eh; [by apply Hk| |done].
  intros [= <- <-]. by eapply Hh.
Qed.

Lemma raises_ret {S E A} (a : A) (b : S) (Q : E -> Prop) : raises (mret a : St S E A) b Q.
Proof. done. Qed.

Lemma raises_fail {S E A} (e : E) (b : S) (Q : E -> Prop) : Q e -> raises (fail e : St S E A) b Q.
Proof. by intros ? e' b' [= <- <-]. Qed.

Lemma raises_modify {S E} f (b : S) (Q : E -> Prop) : raises (modify f : St S E ()) b Q.
Proof. done. Qed.

Lemma raises_lift {S E A} (r : result E A) (b : S) (Q : E -> Prop) :
  (forall e, r = Err e -> Q e) -> raises (lift r : St S E A) b Q.
Proof. intros Hr e b'. unfold lift. intros [= -> _]. by apply Hr. Qed.

(** The errors a session can be answered with, and what a denial means. *)
Section errors.
Context {P : Type} `{Policy P}.

Local Abbreviation broker := (Broker P).

Inductive session_error (b : broker) (id : PeerId) : Error -> Prop :=
| session_unknown p : session_error b id (Error_UnknownPeer p)
| session_denied act : is_Some (b_peers b !! id) -> ~ permitted b id act ->
    session_error b id (Error_Denied act)
| session_limit limit : session_error b id (Error_LimitExceeded limit)
| session_owned n p : namespace_ok n -> session_error b id (Error_NamespaceAlreadyOwned n p)
| session_reserved name : name_ok name -> session_error b id (Error_ReservedHeader name)
| session_exhausted : session_error b id Error_PeerIdExhausted
| session_no_recipient : session_error b id Error_NoRecipient
| session_invalid : session_error b id Error_InvalidDelivery
| session_duplicate i : session_error b id (Error_DuplicateMessage i)
| session_unknown_delivery i : session_error b id (Error_UnknownDelivery i)
| session_acknowledgement i : session_error b id (Error_UnexpectedAcknowledgement i)
| session_response i : session_error b id (Error_UnexpectedResponse i)
| session_overflow : session_error b id Error_DeadlineOverflow
| session_priority : session_error b id Error_InvalidPriority.

#[local] Hint Constructors session_error : core.
#[local] Hint Resolve raises_ret raises_modify : core.

Lemma authorize_raises (b : broker) id act e : authorize b id act = Err e -> session_error b id e.
Proof.
  intros Ha. pose proof (authorize_cases b id act) as Hc. rewrite Ha in Hc.
  destruct Hc as [Hn [[-> _]|[-> Hp]]]; auto.
Qed.

Lemma credentials_raises (b : broker) id e : credentials_of b id = Err e -> session_error b id e.
Proof. intros Ha. pose proof (credentials_of_cases b id) as Hc. rewrite Ha in Hc. destruct Hc as [-> _]. auto. Qed.

Lemma select_raises (b : broker) id d h e : select_recipients b id d h = Err e -> session_error b id e.
Proof.
  destruct d; cbn [select_recipients]; try (by intros [= <-]; auto);
    unfold mbind, result_bind; destruct (authorize b id _) eqn:E; intros [= <-]; by eapply authorize_raises.
Qed.

Lemma route_raises (b : broker) id d h e : route b id d h = Err e -> session_error b id e.
Proof.
  unfold route, mbind, result_bind. destruct (credentials_of b id) eqn:Ec; [|intros [= <-]; by apply credentials_raises|done].
  destruct (select_recipients b id d h) eqn:Es; [|intros [= <-]; by eapply select_raises|done].
  destruct d; try done; case_bool_decide; intros [= <-]; auto.
Qed.

Lemma reserved_raises (b : broker) id h e :
  map_Forall (fun name _ => name_ok name) h -> validate_message_headers h = Err e -> session_error b id e.
Proof.
  intros Hh He. pose proof (validate_message_headers_cases h) as Hc. rewrite He in Hc.
  destruct Hc as (n & [v Hv] & _ & ->). constructor. by apply (Hh n v).
Qed.

Lemma capacity_raises (b b0 : broker) id sender f request e :
  ensure_delivery_capacity b0 sender f request = Err e -> session_error b id e.
Proof.
  unfold ensure_delivery_capacity. repeat case_match; intros [= <-]; auto.
Qed.

Lemma complete_response_raises (b : broker) id f : raises (complete_response id f) b (session_error b id).
Proof.
  destruct f as [| | | | |m| | | | | |]; try (by apply raises_fail; auto). cbn [complete_response].
  apply raises_bind; [done|]. intros b0 b1 _.
  apply raises_bind; [apply raises_lift; intros e He; unfold ok_or in He; case_match; simplify_eq; auto|].
  intros pending b2 _. destruct (pd_message pending); try (by apply raises_fail; auto).
  repeat case_match; try (by apply raises_fail; auto);
    (apply raises_bind; [done|]; intros ? ? _; apply raises_bind; auto).
Qed.

Lemma deliver_to_raises (b b0 : broker) id m priority now_ms selected :
  raises (deliver_to id m priority now_ms selected) b0 (session_error b id).
Proof.
  unfold deliver_to. apply raises_bind; [done|]. intros ? b1 _.
  apply raises_bind; [done|]. intros ? b2 _.
  apply raises_bind; [by case_match|]. intros ? b3 _. repeat case_match; try done;
  (apply raises_bind; [intros e b' [= He _]; by eapply capacity_raises|]; intros ? b4 _;
    apply raises_bind; [apply raises_lift; intros e He; unfold ok_or in He; case_match; simplify_eq; auto|];
    intros ? b5 _; by apply raises_bind).
Qed.

Lemma begin_delivery_raises (b : broker) id m now_ms :
  map_Forall (fun name _ => name_ok name) (m_headers m) ->
  raises (begin_delivery id (Frame_Message m) now_ms) b (session_error b id).
Proof.
  intros Hh. cbn [begin_delivery].
  apply raises_bind; [intros e b' [= He _]; by apply credentials_raises|]. intros ? b1 [= _ <-].
  apply raises_bind; [apply raises_lift; intros e He; by eapply reserved_raises|]. intros ? b2 [= _ <-].
  apply raises_bind; [apply raises_lift; intros e He; pose proof (message_priority_cases (m_headers m)) as Hp;
                      rewrite He in Hp; subst e; auto|]. intros ? b3 [= _ <-].
  case_bool_decide; [apply complete_response_raises|].
  apply raises_bind; [done|]. intros b0 b4 [= <- <-].
  case_bool_decide; [by apply raises_fail; auto|].
  destruct (route b id _ _) as [selected|e|] eqn:Er; [apply deliver_to_raises| |done].
  apply route_raises in Er. destruct e; try done; by apply raises_fail.
Qed.

Lemma acknowledge_raises (b : broker) id message_id policy :
  raises (acknowledge id message_id policy) b (session_error b id).
Proof.
  unfold acknowledge. apply raises_bind; [intros e b' [= He _]; by eapply authorize_raises|]. intros ? b1 _.
  apply raises_bind; [done|]. intros b0 b2 _.
  apply raises_bind; [apply raises_lift; intros e He; unfold ok_or in He; case_match; simplify_eq; auto|].
  intros pending b3 _. destruct (pd_message pending); try (by apply raises_fail; auto).
  case_match; [by apply raises_fail; auto|].
  apply raises_bind; [done|]. intros ? b4 _.
  apply raises_bind; [case_match; try done; by apply raises_fail; auto|]. intros ? b5 _.
  apply raises_bind; [by case_match|]. intros ? b6 _.
  apply raises_bind; [done|]. intros ? b7 _. case_match; [done|].
  apply raises_bind; [by case_match|]. done.
Qed.

Lemma claim_raises (b : broker) id n : namespace_ok n -> raises (claim id n) b (session_error b id).
Proof.
  intros Hn. unfold claim. apply raises_bind; [intros e b' [= He _]; by eapply authorize_raises|]. intros ? b1 _.
  apply raises_bind; [done|]. intros b0 b2 _. repeat case_match; try done; by apply raises_fail; auto.
Qed.

Lemma subscribe_raises (b : broker) id channel filters :
  raises (subscribe_with_filters id channel filters) b (session_error b id).
Proof.
  unfold subscribe_with_filters.
  apply raises_bind; [intros e b' [= He _]; by eapply authorize_raises|]. intros ? b1 _.
  apply raises_bind; [done|]. intros b0 b2 _. case_match; try done; by apply raises_fail; auto.
Qed.

Lemma unsubscribe_raises (b : broker) id channel : raises (unsubscribe id channel) b (session_error b id).
Proof.
  unfold unsubscribe. apply raises_bind; [intros e b' [= He _]; by apply credentials_raises|]. done.
Qed.

(** The errors a HELLO can be refused with. *)
Lemma connect_raises (b : broker) creds hello :
  map_Forall (fun name _ => name_ok name) (hello_headers hello) ->
  raises (connect_session creds hello) b (fun e =>
    (exists name, name_ok name /\ e = Error_ReservedHeader name) \/
    e = Error_Denied Action_Connect /\ authorize_hello b creds hello Action_Connect = Err e \/
    e = Error_PeerIdExhausted).
Proof.
  intros Hh. unfold connect_session.
  apply raises_bind; [apply raises_lift; intros e He; left;
    pose proof (validate_claimed_headers_cases (hello_headers hello)) as Hc; rewrite He in Hc;
    destruct Hc as (n & [v Hv] & _ & ->); exists n; split; [by apply (Hh n v)|done]|].
  intros ? b1 [= _ <-].
  apply raises_bind; [intros e b' [= He _]; right; left; split; [|done];
    unfold authorize_hello in He; case_match; congruence|].
  intros ? b2 _. apply raises_bind; [done|]. intros b0 b3 _.
  apply raises_bind; [apply raises_lift; intros e He; unfold ok_or in He; case_match; simplify_eq; auto|]. done.
Qed.

End errors.

(** ** What a step writes *)

Lemma decoded_names limits packet f :
  decode_with_limits packet limits = Ok f ->
  match f with
  | Frame_Hello _ h _ => map_Forall (fun name _ => name_ok name) h
  | Frame_Claim n _ => namespace_ok n
  | Frame_Message m => map_Forall (fun name _ => name_ok name) (m_headers m)
  | _ => True
  end.
Proof.
  intros [[Hok _] _]%decode_ok_stands_for.
  assert (forall h, headers_ok limits h -> map_Forall (fun name _ => name_ok name) h) as Hh.
  { intros h (_ & _ & Hall) name v Hv%elem_of_bt_entries. rewrite Forall_forall in Hall.
    by destruct (Hall _ Hv). }
  destruct f; try done; cbn in Hok.
  - apply Hh. tauto.
  - by destruct Hok.
  - apply Hh. unfold message_ok in Hok. tauto.
Qed.

(** The names an error repeats are those of the protocol. *)
Definition error_named (e : Error) : Prop :=
  match e with
  | Error_NamespaceAlreadyOwned n _ => namespace_ok n
  | Error_ReservedHeader name => name_ok name
  | Error_DbusNameAlreadyOwned _ _ | Error_InvalidDbusName _ => False
  | _ => True
  end.

(** ** The lines as text *)

Definition printable (b : byte) : Prop := 0x20 <= byte_val b <= 0x7e.
Definition one_line (text : bytes) : Prop := Forall printable text.

#[export] Instance one_line_dec_text text : Decision (one_line text).
Proof. unfold one_line, printable. apply _. Defined.
#[export] Instance printable_dec b : Decision (printable b).
Proof. unfold printable. apply _. Defined.

Lemma one_line_app x y : one_line x -> one_line y -> one_line (x ++ y).
Proof. intros. by apply Forall_app. Qed.

Lemma one_line_literal x : bool_decide (one_line x) = true -> one_line x.
Proof. apply bool_decide_eq_true. Qed.

Lemma one_line_uint d : one_line (bs (DecimalString.NilEmpty.string_of_uint d)).
Proof. unfold one_line. induction d; cbn; constructor; try done; vm_compute; by split. Qed.

Lemma one_line_dec n : one_line (dec n).
Proof.
  unfold dec. destruct (N.to_uint n) as [|d|d|d|d|d|d|d|d|d|d];
    try (apply one_line_literal; vm_compute; reflexivity); apply (one_line_uint _).
Qed.

Lemma one_line_name x : name_ok x -> one_line x.
Proof. intros (_ & _ & Hx). eapply Forall_impl; [exact Hx|]. intros b [[? ?] _]. unfold printable. lia. Qed.

Lemma one_line_peer p : one_line (PeerId_to_string p).
Proof. apply one_line_app; [by apply one_line_literal|apply one_line_dec]. Qed.

Lemma one_line_namespace n : namespace_ok n -> one_line (Namespace_as_str n).
Proof. intros (name & -> & Hn). apply one_line_app; [by apply one_line_literal|by apply one_line_name]. Qed.

Lemma one_line_id i : one_line (MessageId_debug i).
Proof.
  unfold MessageId_debug. apply one_line_app; [by apply one_line_literal|].
  apply one_line_app; [|by apply one_line_literal]. destruct (MessageId_as_bytes i) as [|x l]; [constructor|].
  cbn. apply one_line_app; [apply one_line_dec|]. unfold one_line. apply Forall_concat, Forall_fmap, Forall_fmap.
  apply Forall_true. intros b. apply (one_line_app (bs ", ")); [by apply one_line_literal|apply one_line_dec].
Qed.

Create HintDb one_line.
#[export] Hint Resolve one_line_app one_line_dec one_line_peer one_line_id one_line_name
  one_line_namespace : one_line.
#[export] Hint Extern 5 (one_line (bs _)) => apply one_line_literal; vm_compute; reflexivity : one_line.

Lemma one_line_action act : one_line (Action_name act).
Proof. by destruct act; apply one_line_literal. Qed.

Lemma one_line_limit limit : one_line (Limit_debug limit).
Proof. by destruct limit; apply one_line_literal. Qed.

#[export] Hint Resolve one_line_action one_line_limit : one_line.

(** The errors of the encoder. *)
Definition readable {A} (r : result CodecError A) : Prop :=
  match r with Err e => one_line (CodecError_to_string e) | _ => True end.

Lemma readable_bind {A B} (r : result CodecError A) (k : A -> result CodecError B) :
  readable r -> (forall a, readable (k a)) -> readable (a ← r; k a).
Proof. intros Hr Hk. unfold mbind, result_bind. destruct r; [apply Hk|done|done]. Qed.

Lemma readable_fail {A} e : one_line (CodecError_to_string e) -> readable (Err e : result CodecError A).
Proof. done. Qed.

Lemma readable_ok_or {A} e (o : option A) : one_line (CodecError_to_string e) -> readable (ok_or e o).
Proof. by destruct o. Qed.

Lemma readable_for_each {A S} (items : list A) (body : S -> A -> result CodecError S) s :
  (forall s a, readable (body s a)) -> readable (for_each items body s).
Proof.
  intros Hb. revert s. induction items as [|a items IH]; intros s; [done|]. by apply readable_bind.
Qed.

Lemma readable_mapM {A B} (f : A -> result CodecError B) l : (forall a, readable (f a)) -> readable (mapM f l).
Proof.
  intros Hf. induction l as [|a l IH]; [done|]. cbn. apply readable_bind; [done|]. intros b.
  by apply readable_bind.
Qed.

Lemma readable_name s : readable (map_err CodecError_InvalidName (validate_name s)).
Proof. destruct (validate_name s) as [|e|]; [done| |done]. destruct e; by apply one_line_literal. Qed.

(** Splits a writer into its steps. *)
Ltac readable_steps :=
  repeat (first
    [ progress intros
    | apply readable_name
    | apply readable_for_each
    | apply readable_mapM
    | exact I
    | solve [apply readable_ok_or; by apply one_line_literal]
    | solve [apply readable_fail; by apply one_line_literal]
    | apply readable_bind
    | match goal with
      | |- readable (match ?x with _ => _ end) => destruct x
      | |- readable ?r => unfold_head r
      end ])
with unfold_head r :=
  lazymatch r with
  | push_text _ _ => unfold push_text
  | push_name _ _ => unfold push_name
  | push_namespace _ _ => unfold push_namespace
  | push_binary _ _ => unfold push_binary
  | push_value _ _ => unfold push_value
  | push_headers _ _ _ => unfold push_headers
  | push_capabilities _ _ _ => unfold push_capabilities
  | encode_filter _ => unfold encode_filter
  | push_filters _ _ _ => unfold push_filters
  | push_ack_requirement _ _ => unfold push_ack_requirement
  | push_retry_policy _ _ => unfold push_retry_policy
  | push_destination _ _ => unfold push_destination
  | push_message _ _ _ => unfold push_message
  | push_owner _ _ => unfold push_owner
  | validate_delivery_options _ _ _ _ _ _ => unfold validate_delivery_options
  | validate_message_identity _ _ _ _ => unfold validate_message_identity
  | encode_body _ _ => unfold encode_body
  end.

Lemma encode_readable f limits : readable (encode_with_limits f limits).
Proof.
  unfold encode_with_limits. apply readable_bind; [readable_steps|]. intros [kind body]. readable_steps.
Qed.

Section audit.
Context {P : Type} `{Policy P} {Conn : Type}.

Local Abbreviation broker := (Broker P).
Local Abbreviation sessions := (gmap PeerId Conn).
Local Abbreviation phase := (phase (Conn := Conn)).
Local Abbreviation World := (World (P := P) (Conn := Conn)).
Local Abbreviation occurrence := (occurrence (Conn := Conn)).

(** The errors of a refused connection. *)
Definition connection_error (policy : P) (creds : Credentials) (e : Error) : Prop :=
  (exists name, name_ok name /\ e = Error_ReservedHeader name) \/
  (exists client headers, e = Error_Denied Action_Connect /\
     permits policy {| credentials := creds; client_id := client; claimed_headers := headers;
                       action := Action_Connect |} = false) \/
  e = Error_PeerIdExhausted.

(** Who a line of one thread is about, and why. *)
Definition line_of (creds : Credentials) (ph : phase) (b : broker) (entry : log_entry) : Prop :=
  match entry with
  | Log_connection_denied c e => c = creds /\ connection_error (b_policy b) creds e
  | Log_peer_connected id c => c = creds /\ exists caps, ph = Phase_welcome {| connected_id := id; connected_capabilities := caps |}
  | Log_operation_error id e => ph = Phase_receive id /\ session_error b id e
  | Log_peer_failed _ => True
  | Log_metrics _ => False
  end.

Lemma refused_lines {A} (Q : log_entry -> Prop) entry (h : St broker Error A) b :
  raises h b (fun e => Q (entry e)) -> Forall Q (refused entry (h b).1).
Proof.
  intros Hr. destruct (h b) as [[a|e|] b'] eqn:E; cbn; repeat constructor. by eapply Hr.
Qed.

Lemma operation_log_lines limits creds id packet f now_ms (b : broker) :
  decode_with_limits packet limits = Ok f ->
  Forall (line_of creds (Phase_receive id) b) (operation_log id f now_ms b).
Proof.
  intros Hd%decoded_names. destruct f; cbn [operation_log]; try constructor;
    try case_match; try constructor; apply refused_lines; intros e b' He; (split; [done|]).
  - by eapply claim_raises.
  - by eapply subscribe_raises.
  - by eapply unsubscribe_raises.
  - by eapply begin_delivery_raises.
  - by eapply acknowledge_raises.
Qed.

Lemma thread_log_lines limits creds conn ph env (b b' : broker) (s s' : sessions) ph' sent :
  thread_step limits creds conn ph env b s = (ph', b', s', sent) ->
  Forall (line_of creds ph b) (thread_log limits creds ph env b ph').
Proof.
  intros Hs. unfold thread_log. apply Forall_app. split.
  2: { destruct ph, ph' as [| | | | | | | | | | | |[]|? []|]; repeat constructor. }
  destruct (received_frame limits env) as [f|] eqn:Ef; [|destruct ph; try constructor].
  2: { destruct ph'; repeat constructor. cbn [thread_step] in Hs.
       destruct (send_then _ _ _ _ _) as [ph1 sent1] eqn:E. simplify_eq.
       apply send_then_phase in E as [E|[[e E]|E]]; try done. injection E as ->.
       destruct session as [sid caps]. by exists caps. }
  unfold received_frame in Ef. destruct (env_received env) as [[packet|]|]; [|done..].
  destruct (decode_with_limits packet limits) as [f'|e|] eqn:Ed; [|done..]. injection Ef as ->.
  destruct ph; try constructor.
  - destruct f; try constructor. apply refused_lines. intros e b1 He. split; [done|].
    apply connect_raises in He; [|by apply decoded_names in Ed].
    destruct He as [Hn|[[-> Ha]| ->]]; [by left|right; left|by right; right].
    eexists _, _. split; [done|]. unfold authorize_hello in Ha. by case_match.
  - destruct ph'; repeat constructor. cbn [thread_step] in Hs.
    destruct (send_then _ _ _ _ _) as [ph1 sent1] eqn:E. simplify_eq.
    apply send_then_phase in E as [E|[[e E]|E]]; try done. injection E as ->.
    destruct session as [sid caps]. by exists caps.
  - by eapply operation_log_lines.
Qed.

(** ** The log of a run *)

(** What an entry says, given the entries before it and the connections
    accepted. *)
Definition entry_true (policy : P) (l : list occurrence) (before : list log_entry)
    (entry : log_entry) : Prop :=
  match entry with
  | Log_connection_denied creds e =>
      (exists conn proc peer, Accept conn proc peer ∈ l /\ creds = credentials_from_peer proc peer) /\
      connection_error policy creds e
  | Log_peer_connected id creds =>
      exists conn proc peer, Accept conn proc peer ∈ l /\ creds = credentials_from_peer proc peer
  | Log_operation_error id (Error_Denied act) =>
      exists creds client headers, Log_peer_connected id creds ∈ before /\
        permits policy {| credentials := creds; client_id := client; claimed_headers := headers;
                          action := act |} = false
  | _ => True
  end.

(** The entries a step adds. *)
Definition step_log limits (a : occurrence) (w : World) : list log_entry :=
  drop (length (w_log w)) (w_log (step limits a w)).

Lemma step_log_app limits (a : occurrence) (w : World) :
  w_log (step limits a w) = w_log w ++ step_log limits a w.
Proof.
  assert (exists new, w_log (step limits a w) = w_log w ++ new) as [new Hn].
  { destruct a as [conn proc peer|i env|env]; cbn [step].
    - exists []. by rewrite app_nil_r.
    - destruct (w_threads w !! i) as [t|]; [|exists []; by rewrite app_nil_r].
      destruct (_ && _); [exists []; by rewrite app_nil_r|].
      destruct (thread_step _ _ _ _ _ _ _) as [[[ph' b'] s'] sent]. by eexists.
    - destruct (w_scheduler w) as [[d taken]|].
      + destruct (dispatch_step _ _ _ _) as [d' sent]. by eexists.
      + destruct (broker_held w); [exists []; by rewrite app_nil_r|].
        destruct (tick _ _). exists []. by rewrite app_nil_r. }
  unfold step_log. rewrite Hn. by rewrite drop_app_length.
Qed.

(** A thread past its greeting. *)
Definition greeted (ph : phase) : option PeerId :=
  match ph with
  | Phase_reject _ _ session => session
  | Phase_register id | Phase_receive id | Phase_reply id _ | Phase_refuse id _ | Phase_dispatch id _
  | Phase_unregister id _ | Phase_disconnect id _ => Some id
  | _ => None
  end.

(** The peers of greeted threads have been announced. *)
Definition announced (w : World) : Prop :=
  forall i t id, w_threads w !! i = Some t -> greeted (t_phase t) = Some id ->
    Log_peer_connected id (t_credentials t) ∈ w_log w.

Lemma greeted_step limits creds conn ph env (b b' : broker) (s s' : sessions) ph' sent id :
  thread_step limits creds conn ph env b s = (ph', b', s', sent) ->
  greeted ph' = Some id ->
  greeted ph = Some id \/ Log_peer_connected id creds ∈ thread_log limits creds ph env b ph'.
Proof.
  intros Hs Hg.
  destruct ph as [|code msg session|msg|session|i|i|i f|i f|i d|i r|i r|d r|r|i r|];
    cbn [thread_step] in Hs;
    try (destruct (send_then _ _ _ _ _) as [ph1 sent1] eqn:E; simplify_eq;
         apply send_then_phase in E as [->|[[e ->]| ->]]; try destruct session; cbn in Hg; simplify_eq; by auto);
    try (destruct (dispatch_step limits s d env) as [[d'|[[]|e|]] sent1]; simplify_eq; cbn in Hg; simplify_eq; by auto);
    try (simplify_eq; cbn in Hg; simplify_eq; by auto).
  - destruct (env_received env) as [[packet|]|e]; [|by simplify_eq..].
    destruct (handle_hello limits creds packet b) as [ph1 b1] eqn:E. simplify_eq.
    unfold handle_hello in E. repeat case_match; by simplify_eq.
  - destruct (send_then _ _ _ _ _) as [ph1 sent1] eqn:E. simplify_eq.
    apply send_then_phase in E as [->|[[e ->]| ->]]; cbn in Hg; simplify_eq. right.
    unfold thread_log. apply elem_of_app. left. destruct (received_frame limits env); by left.
  - destruct (env_cloned env); simplify_eq; cbn in Hg; simplify_eq. by left.
  - destruct (env_received env) as [[packet|]|[]]; try (simplify_eq; cbn in Hg; simplify_eq; by left).
    destruct (decode_with_limits packet limits) as [f|e|]; [|simplify_eq; cbn in Hg; simplify_eq; by left..].
    destruct (handle_frame i f _ b) as [ph1 b1] eqn:E. simplify_eq. left.
    assert (greeted ph' = None \/ greeted ph' = Some i) as [?|?]; [|congruence|cbn; congruence].
    destruct f; cbn [handle_frame] in E; repeat case_match; simplify_eq; cbn; auto;
      unfold operation_result, delivery_result; repeat case_match; cbn; auto.
  - destruct (disconnect_with_events i b) as [[] ?]; by simplify_eq.
Qed.

Lemma entry_true_mono policy (l l' : list occurrence) before before' entry :
  l ⊆ l' -> before ⊆ before' -> entry_true policy l before entry -> entry_true policy l' before' entry.
Proof.
  intros Hl Hb. destruct entry as [creds e|id creds|id e|e|m]; cbn; [naive_solver..| |done|done].
  destruct e; naive_solver.
Qed.

(** Every entry is true of what precedes it. *)
Definition true_log (policy : P) (l : list occurrence) (entries : list log_entry) : Prop :=
  forall before entry after, entries = before ++ entry :: after -> entry_true policy l before entry.

Lemma true_log_app policy (l l' : list occurrence) entries new :
  l ⊆ l' -> true_log policy l entries -> Forall (entry_true policy l' entries) new ->
  true_log policy l' (entries ++ new).
Proof.
  intros Hl Ht Hn before entry after Heq. symmetry in Heq.
  apply List.app_eq_app in Heq as (k & [[-> Hk]|[-> Hk]]).
  - rewrite Forall_forall in Hn. apply (entry_true_mono policy l' l' entries); [done|set_solver|].
    apply Hn. rewrite Hk. set_solver.
  - destruct k as [|entry' k]; cbn in Hk.
    + subst new. rewrite app_nil_r in *. rewrite Forall_forall in Hn. apply Hn. by left.
    + injection Hk as <- ->. apply (entry_true_mono policy l l' before); [done|done|]. by eapply Ht.
Qed.

Definition entry_named (entry : log_entry) : Prop :=
  match entry with
  | Log_connection_denied _ e | Log_operation_error _ e => error_named e
  | _ => True
  end.

Lemma line_named creds ph (b : broker) entry : line_of creds ph b entry -> entry_named entry.
Proof.
  destruct entry; cbn; try done.
  - intros [_ [(name & ? & ->)|[(? & ? & -> & _)| ->]]]; done.
  - intros [_ []]; done.
Qed.

Lemma step_audited policy quota limits (l : list occurrence) a :
  let w := execute limits l (start policy quota) in
  announced w -> true_log policy l (w_log w) ->
  announced (step limits a w) /\
  Forall (entry_true policy (l ++ [a]) (w_log w)) (step_log limits a w) /\
  Forall entry_named (step_log limits a w).
Proof.
  intros w Han Ht.
  pose proof (execute_ok policy quota limits l _ (start_ok policy quota limits)) as Hw. fold w in Hw.
  pose proof (step_log_app limits a w) as Hnew. revert Hnew. generalize (step_log limits a w) as new.
  intros new Hnew.
  assert (w_log (step limits a w) = w_log w -> new = []) as Hnone.
  { intros He. rewrite He in Hnew. apply (app_inv_head (w_log w)). by rewrite app_nil_r. }
  destruct a as [conn proc peer|i env|env].
  - rewrite (Hnone eq_refl). split; [|by split]. intros i t id Hi Hg. cbn in Hi |- *.
    apply lookup_app_Some in Hi as [Hi|[_ Hi]]; [by eapply Han|].
    by apply list_lookup_singleton_Some in Hi as [_ <-].
  - cbn in Hnew, Hnone |- *. destruct (w_threads w !! i) as [t|] eqn:Ei; [|by rewrite (Hnone eq_refl)].
    destruct (locks_broker limits (t_phase t) env && broker_held w); [by rewrite (Hnone eq_refl)|].
    destruct (thread_step _ _ _ _ _ _ _) as [[[ph' b'] s'] sent] eqn:E. cbn in Hnew. clear Hnone.
    apply app_inv_head in Hnew. subst new. pose proof (thread_log_lines _ _ _ _ _ _ _ _ _ _ _ E) as Hl.
    split; [|split].
    + intros j u id Hj Hg. cbn in Hj |- *. apply elem_of_app.
      apply list_lookup_insert_Some in Hj as [(-> & <- & _)|[Hne Hj]]; [|left; by eapply Han].
      cbn in *. destruct (greeted_step _ _ _ _ _ _ _ _ _ _ _ _ E Hg) as [Hold|Hin]; [|by right].
      left. by eapply Han.
    + destruct (thread_origin _ _ _ _ _ Ei) as [(u & Hu & _)|(proc & peer & Ha & Hcr)]; [done|].
      eapply Forall_impl; [exact Hl|]. intros entry.
      assert (Accept (t_conn t) proc peer ∈ l ++ [Run i env]) as Ha' by set_solver.
      destruct (reachable_settings _ _ _ (wo_broker _ _ _ _ Hw)) as [Hpol _].
      destruct entry as [c e|id c|id e|e|m]; cbn; [| | |done|done].
      * rewrite Hpol. intros [-> He]. split; [eauto|done].
      * intros [-> _]. eauto.
      * intros [Hph He]. destruct He as [|act [p Hp] Hperm| | | | | | | | | | | |]; try done.
        assert (phase_peer (t_phase t) = Some id) as Hid by (by rewrite Hph).
        destruct (wo_peers _ _ _ _ Hw i t id Ei Hid) as (p' & Hp' & Hc).
        assert (p' = p) as -> by congruence.
        exists (t_credentials t), (hello_client_id (peer_hello p)), (hello_headers (peer_hello p)).
        split; [apply (Han i t id Ei); by rewrite Hph|].
        rewrite <- Hpol, <- Hc. destruct (permits _ _) eqn:Eperm; [|done]. destruct Hperm. by exists p.
    + eapply Forall_impl; [exact Hl|]. intros entry. apply line_named.
  - split; [|].
    { intros i t id. rewrite schedule_threads, Hnew. intros Hi Hg. apply elem_of_app. left. by eapply Han. }
    cbn in Hnew, Hnone. destruct (w_scheduler w) as [[d taken]|].
    + destruct (dispatch_step _ _ _ _) as [d' sent]. cbn in Hnew. apply app_inv_head in Hnew. subst new.
      destruct d'; [by split|]. case_match; split; repeat constructor.
    + destruct (broker_held w); [by rewrite (Hnone eq_refl)|].
      destruct (tick _ _) as [r b']. by rewrite (Hnone eq_refl).
Qed.

Lemma run_audited policy quota limits (l : list occurrence) :
  let w := execute limits l (start policy quota) in
  announced w /\ true_log policy l (w_log w) /\ Forall entry_named (w_log w).
Proof.
  induction l as [|a l (Han & Ht & Hn)] using rev_ind.
  - cbn. split; [by intros i t id Hi|]. split; [|constructor].
    intros before entry after He. by destruct before.
  - unfold execute in *. rewrite foldl_app. cbn [foldl].
    destruct (step_audited policy quota limits l a Han Ht) as (Han' & Hnew & Hnew'). unfold execute in *.
    split; [done|]. rewrite step_log_app. split.
    + eapply true_log_app; [|exact Ht|exact Hnew]. set_solver.
    + by apply Forall_app.
Qed.

(** ** Refusals are written down *)

(** The refusal a thread is sending to its client. *)
Definition refusal_text (ph : phase) : option bytes :=
  match ph with
  | Phase_reply _ (Frame_ProtocolError _ text) | Phase_refuse _ (Frame_ProtocolError _ text)
  | Phase_deny text => Some text
  | _ => None
  end.

Lemma operation_refusal id op (r : result Error ()) text :
  refusal_text (operation_result id op r) = Some text ->
  exists e, refused (Log_operation_error id) r = [Log_operation_error id e] /\ text = Error_to_string e.
Proof. destruct r as [|e|]; try done. intros [= <-]. by exists e. Qed.

Lemma delivery_refusal id code (r : result Error (list DeliveryEvent)) text :
  refusal_text (delivery_result id code r) = Some text ->
  exists e, refused (Log_operation_error id) r = [Log_operation_error id e] /\ text = Error_to_string e.
Proof. destruct r as [|e|]; try done. intros [= <-]. by exists e. Qed.

Lemma frame_refusal id f now_ms (b b' : broker) ph' text :
  handle_frame id f now_ms b = (ph', b') -> refusal_text ph' = Some text ->
  exists e, operation_log id f now_ms b = [Log_operation_error id e] /\ text = Error_to_string e.
Proof.
  intros Hf Ht. destruct f; cbn [handle_frame operation_log] in *; try (by simplify_eq).
  - case_bool_decide; [|by simplify_eq].
    destruct (claim _ _ _); simplify_eq. by eapply operation_refusal.
  - destruct (subscribe_with_filters _ _ _ _); simplify_eq. by eapply operation_refusal.
  - destruct (unsubscribe _ _ _); simplify_eq. by eapply operation_refusal.
  - destruct (begin_delivery _ _ _ _); simplify_eq. by eapply delivery_refusal.
  - destruct (acknowledge _ _ _ _); simplify_eq. by eapply delivery_refusal.
Qed.

(** A refusal a thread starts to send is what its step wrote. *)
Lemma step_refusal limits creds conn ph env (b b' : broker) (s s' : sessions) ph' sent text :
  thread_step limits creds conn ph env b s = (ph', b', s', sent) ->
  refusal_text ph' = Some text -> refusal_text ph = None ->
  exists e entry, thread_log limits creds ph env b ph' = [entry] /\ text = Error_to_string e /\
    match ph with
    | Phase_hello => entry = Log_connection_denied creds e
    | Phase_receive id => entry = Log_operation_error id e
    | _ => False
    end.
Proof.
  intros Hs Ht Hno.
  assert (forall ph1 : phase, refusal_text ph1 = Some text -> match ph, ph1 with
    | (Phase_done _ | Phase_abandoned _ _), _ => []
    | _, (Phase_done (Err error) | Phase_abandoned _ (Err error)) => [Log_peer_failed error]
    | _, _ => [] end = []) as Hend.
  { intros ph1 H1. by destruct ph, ph1. }
  unfold thread_log. rewrite (Hend ph' Ht), app_nil_r. unfold received_frame.
  destruct ph as [|code msg session|msg|session|i|i|i f|i f|i d|i r|i r|d r|r|i r|]; cbn [thread_step] in Hs;
    try (destruct (send_then _ _ _ _ _) as [ph1 sent1] eqn:E; simplify_eq;
         apply send_then_phase in E as [->|[[e ->]| ->]]; by try destruct session);
    try (destruct (dispatch_step limits s d env) as [[d'|[[]|e|]] sent1]; by simplify_eq);
    try (by simplify_eq).
  - destruct (env_received env) as [[packet|]|e]; [|by simplify_eq..].
    destruct (handle_hello limits creds packet b) as [ph1 b1] eqn:E. simplify_eq.
    unfold handle_hello in E. destruct (decode_with_limits packet limits) as [f|e|]; [|by simplify_eq..].
    destruct f as [client_id headers capabilities| | | | | | | | | | |]; try by simplify_eq.
    destruct (connect_session _ _ _) as [[session|e|] b1]; simplify_eq; try done.
    injection Ht as <-. by eexists _, _.
  - destruct (env_cloned env); by simplify_eq.
  - destruct (env_received env) as [[packet|]|[]]; try (by simplify_eq).
    destruct (decode_with_limits packet limits) as [f|e|]; [|by simplify_eq..].
    destruct (handle_frame i f _ b) as [ph1 b1] eqn:E. simplify_eq.
    destruct (frame_refusal _ _ _ _ _ _ _ E Ht) as (e & -> & ->). by eexists _, _.
  - destruct (disconnect_with_events i b) as [[] ?]; by simplify_eq.
Qed.

(** What is printed about a refused operation, about a refused connection, and
    for each entry. *)
Definition refusal_says (id : PeerId) (e : Error) (line : bytes) : Prop :=
  match e with
  | Error_Denied act =>
      line = bs "busd event=policy_denied peer=:" ++ dec (PeerId_get id) ++
             bs " action=" ++ Action_name act
  | Error_LimitExceeded limit =>
      line = bs "busd event=limit_exceeded peer=:" ++ dec (PeerId_get id) ++
             bs " limit=" ++ Limit_debug limit
  | _ =>
      line = bs "busd event=operation_failed peer=:" ++ dec (PeerId_get id) ++
             bs " reason=" ++ Error_to_string e
  end.

Definition denial_says (creds : Credentials) (e : Error) (line : bytes) : Prop :=
  line = bs "busd event=connection_denied pid=" ++ dec (pid creds) ++ bs " uid=" ++ dec (uid creds) ++
         bs " gid=" ++ dec (gid creds) ++ bs " reason=" ++ Error_to_string e.

Definition line_says (entry : log_entry) (line : bytes) : Prop :=
  match entry with
  | Log_connection_denied creds e => denial_says creds e line
  | Log_peer_connected id creds =>
      line = bs "busd event=peer_connected peer=:" ++ dec (PeerId_get id) ++
             bs " pid=" ++ dec (pid creds) ++ bs " uid=" ++ dec (uid creds) ++ bs " gid=" ++ dec (gid creds)
  | Log_operation_error id e => refusal_says id e line
  | Log_peer_failed _ => exists text, line = bs "busd: protocol peer failed: " ++ text
  | Log_metrics _ => exists text, line = bs "busd event=metrics " ++ text
  end.

Lemma operation_line_says id e : refusal_says id e (operation_error_line id e).
Proof. by destruct e. Qed.

Lemma log_line_says os entry : line_says entry (log_line os entry).
Proof.
  destruct entry as [creds e|id creds|id e|e|m]; cbn; [done|done|apply operation_line_says|by eexists|].
  unfold metrics_line. by eexists.
Qed.

(** C11: the audit trail is complete and true.  Whatever the daemon goes through,
    each line it has printed about a client's operation names the client's
    identifier and, for a denial, the action; it stands after the line that
    announced that identifier with its process, user and group, and the policy
    denies the action to the credentials announced there, which are those
    attested for an accepted connection.  Each line about a refused connection
    prints the attested process, user and group and the reason: the policy does
    not allow these credentials to connect, the HELLO claimed a header reserved
    for the broker, or the identifiers are exhausted.  And no refusal goes
    unprinted: when a thread starts sending its client a refusal of the broker,
    the same step has printed exactly one line, which says this refusal, with the
    client's identity. *)
Theorem audit_trail policy quota limits (l : list occurrence) os_error_to_string :
  let w := execute limits l (start policy quota) in
  let printed (w : World) := log_line os_error_to_string <$> w_log w in
  (forall n line, printed w !! n = Some line -> exists entry,
     w_log w !! n = Some entry /\ line_says entry line /\ entry_true policy l (take n (w_log w)) entry) /\
  forall i t t' env text,
    w_threads w !! i = Some t -> w_threads (step limits (Run i env) w) !! i = Some t' ->
    refusal_text (t_phase t) = None -> refusal_text (t_phase t') = Some text ->
    exists e line, printed (step limits (Run i env) w) = printed w ++ [line] /\ text = Error_to_string e /\
      match t_phase t with
      | Phase_hello => denial_says (t_credentials t) e line
      | Phase_receive id => refusal_says id e line
      | _ => False
      end.
Proof.
  intros w printed. destruct (run_audited policy quota limits l) as (_ & Ht & _). split.
  { intros n line (entry & -> & Hn)%list_lookup_fmap_Some. exists entry. split; [done|].
    split; [apply log_line_says|]. apply (Ht _ _ (drop (S n) (w_log w))). symmetry. by apply take_drop_middle. }
  intros i t t' env text Hi Hi' Hno Htext. unfold printed. cbn in Hi' |- *. rewrite Hi in *.
  destruct (_ && _); [congruence|].
  destruct (thread_step _ _ _ _ _ _ _) as [[[ph' b'] s'] sent] eqn:E. cbn in Hi' |- *.
  apply list_lookup_insert_Some in Hi' as [(_ & <- & _)|[? _]]; [|done]. cbn in Htext.
  destruct (step_refusal _ _ _ _ _ _ _ _ _ _ _ _ E Htext Hno) as (e & entry & -> & -> & Hm).
  exists e, (log_line os_error_to_string entry). split; [by rewrite fmap_app|]. split; [done|].
  destruct (t_phase t); try done; subst entry; [apply (log_line_says _ (Log_connection_denied _ e))|].
  apply operation_line_says.
Qed.

End audit.

(** ** No client writes into the log *)

Lemma one_line_error e : error_named e -> one_line (Error_to_string e).
Proof.
  destruct e; cbn [Error_to_string error_named]; intros Hn; try done; auto 8 with one_line.
Qed.

#[export] Hint Resolve one_line_error : one_line.

Lemma one_line_reports text : text ∈ transport_messages -> one_line text.
Proof.
  assert (Forall one_line transport_messages) as Hf
    by (apply (proj1 (bool_decide_eq_true (Forall one_line transport_messages))); by vm_compute).
  rewrite Forall_forall in Hf. apply Hf.
Qed.

(** The I/O errors of a session. *)
Fixpoint io_ok (error : io_error) : Prop :=
  match error with
  | Io_connection_reset | Io_broken_pipe => True
  | Io_transport error => transport_reports error
  | Io_codec error => one_line (CodecError_to_string error)
  | Io_broker error => error_named error
  | Io_wrapped error => io_ok error
  end.

Lemma one_line_io os error :
  (forall errno, one_line (os errno)) -> io_ok error -> one_line (io_error_to_string os error).
Proof.
  intros Hos. induction error as [| |[errno|kind text]|e|e|e IH]; cbn; auto using one_line_error, one_line_reports.
Qed.

(** What the system answers is what the transport reports. *)
Definition answer_ok {A} (a : answer A) : Prop :=
  match a with
  | Done _ => True
  | Failed error => exists reported, transport_reports reported /\ error = io_of reported
  end.
Definition environment_ok (env : environment) : Prop :=
  answer_ok (env_received env) /\ answer_ok (env_sent env) /\ answer_ok (env_cloned env).
Definition occurrence_ok {Conn} (a : occurrence (Conn := Conn)) : Prop :=
  match a with Accept _ _ _ => True | Run _ env | Schedule env => environment_ok env end.

Lemma answer_io {A} (a : answer A) error : answer_ok a -> a = Failed error -> io_ok error.
Proof.
  intros Ha ->. destruct Ha as (e & He & ->). destruct e as [errno|kind text]; cbn; [|done].
  by repeat case_match.
Qed.

Section lines.
Context {P : Type} `{Policy P} {Conn : Type}.

Local Abbreviation broker := (Broker P).
Local Abbreviation sessions := (gmap PeerId Conn).
Local Abbreviation phase := (phase (Conn := Conn)).
Local Abbreviation World := (World (P := P) (Conn := Conn)).

Definition result_io (r : result io_error ()) : Prop := match r with Err e => io_ok e | _ => True end.

(** The error a thread is about to return is one of these. *)
Definition phase_io (ph : phase) : Prop :=
  match ph with
  | Phase_unregister _ r | Phase_disconnect _ r | Phase_farewell _ r | Phase_done r
  | Phase_abandoned _ r => result_io r
  | _ => True
  end.

Lemma encoded_io f limits e : encoded f limits = Err e -> io_ok e.
Proof.
  unfold encoded. pose proof (encode_readable f limits) as Hc.
  destruct (encode_with_limits f limits); [done| |done]. by intros [= <-].
Qed.

Lemma dispatch_error_io limits (s : sessions) d env e sent :
  environment_ok env -> dispatch_step limits s d env = (inr (Err e), sent) -> io_ok e.
Proof.
  intros (_ & Hs & Hc). destruct d as [[|event events]|packet [|o outputs] events]; cbn [dispatch_step]; [done| |done|].
  - destruct (outgoing event) as [recipients f]. destruct (encoded f limits) eqn:E; [|by intros [= <- _]; eapply encoded_io|done].
    destruct (outputs_for recipients s), (env_cloned env) eqn:Ec; try done.
    intros [= <- _]. exact (answer_io _ _ Hc eq_refl).
  - destruct (env_sent env) as [|error] eqn:E; [done|].
    pose proof (answer_io _ _ Hs eq_refl) as He. by destruct error; intros [= <- _].
Qed.

Lemma send_then_io (conn : Conn) f limits env (ok : phase) failed ph sent :
  environment_ok env -> phase_io ok -> (forall e, io_ok e -> phase_io (failed (Err e))) ->
  send_then conn (encoded f limits) env ok failed = (ph, sent) -> phase_io ph.
Proof.
  intros (_ & Hs & _) Hok Hf. unfold send_then. destruct (encoded f limits) eqn:E.
  - destruct (env_sent env) eqn:Es; intros [= <- _]; [done|]. apply Hf. exact (answer_io _ _ Hs eq_refl).
  - intros [= <- _]. apply Hf. by eapply encoded_io.
  - by intros [= <- _].
Qed.

Lemma handle_frame_io id f now_ms (b : broker) : phase_io (handle_frame id f now_ms b).1.
Proof.
  destruct f; cbn [handle_frame]; try done; try case_bool_decide; repeat case_match; try done;
    unfold operation_result, delivery_result; by repeat case_match.
Qed.

Lemma thread_step_io limits creds conn ph env (b b' : broker) (s s' : sessions) ph' sent :
  environment_ok env -> phase_io ph ->
  thread_step limits creds conn ph env b s = (ph', b', s', sent) -> phase_io ph'.
Proof.
  intros Henv Hph. pose proof Henv as (Hr & Hs & Hc).
  destruct ph as [|code msg session|msg|session|i|i|i f|i f|i d|i r|i r|d r|r|i r|]; cbn [thread_step];
    try (destruct (send_then _ _ _ _ _) as [ph1 sent1] eqn:E; intros [= <- _ _ _];
         eapply send_then_io in E;
         [exact E|exact Henv|try destruct session; exact I|intros e He; try destruct session; exact He]);
    try (by intros [= <- _ _ _]).
  - destruct (env_received env) as [[packet|]|e] eqn:E; [|by intros [= <- _ _ _]|].
    + unfold handle_hello. repeat case_match; try done; by intros [= <- _ _ _]; simplify_eq.
    + intros [= <- _ _ _]. exact (answer_io _ _ Hr eq_refl).
  - destruct (env_cloned env) eqn:E; intros [= <- _ _ _]; [done|]. exact (answer_io _ _ Hc eq_refl).
  - destruct (env_received env) as [[packet|]|e] eqn:E; [|by intros [= <- _ _ _]|].
    + destruct (decode_with_limits packet limits) as [f|e|]; [|by intros [= <- _ _ _]..].
      pose proof (handle_frame_io i f (env_now_ms env) b) as Hf. destruct (handle_frame _ _ _ _).
      by intros [= <- _ _ _].
    + pose proof (answer_io _ _ Hr eq_refl) as He. by destruct e; intros [= <- _ _ _].
  - destruct (dispatch_step limits s d env) as [[d'|[[]|e|]] sent1] eqn:E; intros [= <- _ _ _]; try done.
    exact (dispatch_error_io _ _ _ _ _ _ Henv E).
  - destruct (disconnect_with_events i b) as [r' b1] eqn:E. apply disconnect_with_events_effect in E.
    destruct r'; [by intros [= <- _ _ _]| |by intros [= <- _ _ _]]. intros [= <- _ _ _].
    by destruct E as (_ & -> & _).
  - destruct (dispatch_step limits s d env) as [[d'|[[]|e|]] sent1] eqn:E; intros [= <- _ _ _]; try done.
    exact (dispatch_error_io _ _ _ _ _ _ Henv E).
Qed.

Definition failure_ok (entry : log_entry) : Prop :=
  match entry with Log_peer_failed e => io_ok e | _ => True end.

Lemma thread_log_io limits creds ph env (b : broker) ph' :
  phase_io ph' -> Forall failure_ok (thread_log limits creds ph env b ph').
Proof.
  intros Hph. assert (forall A (entry : Error -> log_entry) (r : result Error A),
    (forall e, failure_ok (entry e)) -> Forall failure_ok (refused entry r)) as Href.
  { intros A entry r He. destruct r; constructor; [apply He|constructor]. }
  unfold thread_log. apply Forall_app. split.
  - destruct (received_frame limits env) as [f|]; destruct ph; try apply Forall_nil_2;
      try (by destruct ph'; repeat constructor); destruct f; cbn [operation_log];
      try case_match; try apply Forall_nil_2; by apply Href.
  - destruct ph, ph' as [| | | | | | | | | | | |[]|? []|]; by repeat constructor.
Qed.

Lemma run_failures_ok policy quota limits (l : list (occurrence (Conn := Conn))) :
  Forall occurrence_ok l ->
  let w := execute limits l (start policy quota) in
  (forall i t, w_threads w !! i = Some t -> phase_io (t_phase t)) /\ Forall failure_ok (w_log w).
Proof.
  induction l as [|a l IH] using rev_ind; intros Hl; [split; [by intros i t|constructor]|].
  apply Forall_app in Hl as [Hl [Ha _]%Forall_cons]. destruct (IH Hl) as [Ht Hn].
  unfold execute in *. rewrite foldl_app. cbn [foldl]. set (w := foldl _ _ _) in *. cbv zeta.
  destruct a as [conn proc peer|i env|env]; cbn [step].
  - split; [|done]. intros i t [Hi|[_ Hi]]%lookup_app_Some; [by eapply Ht|].
    by apply list_lookup_singleton_Some in Hi as [_ <-].
  - destruct (w_threads w !! i) as [t|] eqn:Ei; [|done]. destruct (_ && _); [done|].
    destruct (thread_step _ _ _ _ _ _ _) as [[[ph' b'] s'] sent] eqn:E.
    apply thread_step_io in E as Hph; [|done|by eapply Ht]. cbn. split.
    + intros j u Hj. apply list_lookup_insert_Some in Hj as [(-> & <- & _)|[_ Hj]]; [done|by eapply Ht].
    + apply Forall_app. split; [done|]. by apply thread_log_io.
  - destruct (w_scheduler w) as [[d taken]|].
    + destruct (dispatch_step _ _ _ _) as [d' sent]. cbn. split; [done|]. apply Forall_app. split; [done|].
      destruct d'; [constructor|]. case_match; by repeat constructor.
    + destruct (broker_held w); [done|]. by destruct (tick _ _).
Qed.

End lines.

Lemma one_line_entry os entry :
  (forall errno, one_line (os errno)) -> entry_named entry -> failure_ok entry ->
  one_line (log_line os entry).
Proof.
  intros Hos Hn Hf. destruct entry as [creds e|id creds|id e|e|m]; cbn [log_line entry_named failure_ok] in *.
  - unfold connection_error_line. auto 12 with one_line.
  - unfold peer_connected_line. auto 12 with one_line.
  - unfold operation_error_line. destruct e; auto 8 with one_line.
  - apply one_line_app; [by apply one_line_literal|by apply one_line_io].
  - unfold metrics_line. repeat (apply one_line_app; [by auto with one_line|]). auto with one_line.
Qed.

(** C27: no client writes into the log.  Whatever names, headers and identifiers
    clients send, every line the daemon writes on standard error about a client
    or a tick is made of printable ASCII: an entry is one line, and no part of a
    frame can end it, add another or reach the terminal as a control sequence.
    This includes the lines about failed connections, whose errors come from the
    codec, the broker, the transport or the operating system: the only text that
    is assumed to be one line is the system's own description of an error number.
    The answers of the transport are those it gives ([receive_reported],
    [send_reported] and [clone_reported] of TransportFacts.v).  The line that
    announces the socket is not among these lines: it prints the operator's
    path. *)
Theorem log_lines_unforged {P} `{Policy P} {Conn} (policy : P) quota limits
    (l : list (occurrence (Conn := Conn))) os_error_to_string :
  (forall errno, one_line (os_error_to_string errno)) -> Forall occurrence_ok l ->
  Forall (fun entry => one_line (log_line os_error_to_string entry))
    (w_log (execute limits l (start policy quota))).
Proof.
  intros Hos Hl. destruct (run_audited policy quota limits l) as (_ & _ & Hn).
  destruct (run_failures_ok policy quota limits l Hl) as [_ Hf].
  apply Forall_forall. intros entry He. rewrite Forall_forall in Hn, Hf. by apply one_line_entry; auto.
Qed.

(** ** Witnesses *)

Definition demo_os_error (errno : Z) : bytes :=
  if (errno =? 104)%Z then bs "Connection reset by peer (os error 104)" else bs "Input/output error (os error 5)".

(** Two clients claim a name under a policy that allows everything. *)
Definition demo_disputed : list (occurrence (Conn := nat)) :=
  take 8 demo_run ++ [
    Run 0 (on_frame (Frame_Claim demo_namespace ∅)); Run 0 (quiet None);
    Run 1 (on_frame (Frame_Claim demo_namespace ∅)); Run 1 (quiet None);
    Run 1 {| env_now_ms := 1000; env_received := Failed (Io_transport (IoError_Os 5));
             env_sent := Done tt; env_cloned := Done tt |};
    Run 1 (quiet None); Run 1 (quiet None); Run 1 (quiet None)].

Abbreviation demo_disputed_world :=
  (execute FrameLimits_default demo_disputed (start (Conn := nat) allow_all Limits_default)).

Example demo_log :
  log_line demo_os_error <$> w_log demo_disputed_world = [
    bs "busd event=peer_connected peer=:1 pid=41 uid=1000 gid=1000";
    bs "busd event=peer_connected peer=:2 pid=42 uid=1000 gid=1000";
    bs "busd event=operation_failed peer=:2 reason=namespace bus://demo is already owned by :1";
    bs "busd: protocol peer failed: Input/output error (os error 5)"].
Proof. by vm_compute. Qed.

Lemma log_lines_unforged_witness :
  Forall (fun entry => one_line (log_line demo_os_error entry)) (w_log demo_disputed_world).
Proof.
  apply (log_lines_unforged allow_all Limits_default FrameLimits_default demo_disputed demo_os_error).
  - intros errno. unfold demo_os_error. destruct (errno =? 104)%Z; apply one_line_literal; vm_compute; reflexivity.
  - repeat apply Forall_cons_2; try apply Forall_nil_2; cbn; try exact I;
      (split; [|split]); cbn; try exact I.
    exists (IoError_Os 5). split; [exact I|reflexivity].
Defined.

(** A policy that lets clients connect and do nothing else. *)
Definition connect_only : bytes :=
  Strs.join x0a [bs "version = 1"; bs "default = deny"; bs "[[rule]]"; bs "effect = allow";
    bs "actions = connect"; bs ""].

Definition connect_policy : ConfigPolicy :=
  match ConfigPolicy_parse connect_only with
  | Ok policy => policy
  | _ => {| config := Config_default |}
  end.

Definition demo_denied : list (occurrence (Conn := nat)) :=
  take 5 demo_run ++ [Run 0 (on_frame (Frame_Claim demo_namespace ∅))].

Abbreviation demo_denied_world :=
  (execute FrameLimits_default demo_denied (start (Conn := nat) connect_policy Limits_default)).

Lemma audit_trail_witness :
  exists creds client headers,
    Log_peer_connected (PeerId_new 1) creds ∈ take 1 (w_log demo_denied_world) /\
    permits connect_policy {| credentials := creds; client_id := client; claimed_headers := headers;
                              action := Action_ClaimNamespace demo_namespace |} = false.
Proof.
  assert ((log_line demo_os_error <$> w_log demo_denied_world) !! 1%nat =
    Some (bs "busd event=policy_denied peer=:1 action=claim-namespace")) as Hl by (vm_compute; reflexivity).
  destruct (audit_trail connect_policy Limits_default FrameLimits_default demo_denied demo_os_error) as [Ht _].
  destruct (Ht 1%nat _ Hl) as (entry & He & _ & Htrue).
  assert (w_log demo_denied_world !! 1%nat =
    Some (Log_operation_error (PeerId_new 1) (Error_Denied (Action_ClaimNamespace demo_namespace)))) as He'
    by (vm_compute; reflexivity).
  assert (Some entry = Some (Log_operation_error (PeerId_new 1)
    (Error_Denied (Action_ClaimNamespace demo_namespace)))) as Heq by (transitivity (w_log demo_denied_world !! 1%nat); [symmetry; exact He|exact He']).
  injection Heq as ->. exact Htrue.
Defined.
