(* ===== verification/Handshake.v ===== *)
(** * The greeting

    What a connection gets from the daemon, in order: nothing, or one rejection,
    or one WELCOME before anything else. *)

From S2P Require Export Trail.

Local Open Scope N_scope.

(** The kind byte of a packet. *)
Definition packet_kind (packet : bytes) : option byte := packet !! 5%nat.

Definition welcome_kind : byte := byte_of 2.

Lemma encoded_kind f limits packet :
  encode_with_limits f limits = Ok packet -> packet_kind packet = Some (byte_of (frame_kind f)).
Proof. apply encode_kind. Qed.

Section handshake.
Context {P : Type} `{Policy P} {Conn : Type} `{EqDecision Conn}.

Local Abbreviation broker := (Broker P).
Local Abbreviation sessions := (gmap PeerId Conn).
Local Abbreviation phase := (phase (Conn := Conn)).
Local Abbreviation dispatch := (dispatch (Conn := Conn)).
Local Abbreviation thread := (thread (Conn := Conn)).
Local Abbreviation World := (World (P := P) (Conn := Conn)).
Local Abbreviation occurrence := (occurrence (Conn := Conn)).

(** The packets handed to the kernel for one connection. *)
Definition sent_to (c : Conn) (sent : list (Conn * bytes)) : list bytes :=
  (filter (fun p => p.1 = c) sent).*2.

#[local] Arguments sent_to _ _ : simpl never.

(** The connections of a run. *)
Definition accepted (l : list occurrence) : list Conn :=
  omap (fun a => match a with Accept c _ _ => Some c | _ => None end) l.

(** One WELCOME, then other packets. *)
Definition opened (limits : FrameLimits) (id : PeerId) (packets : list bytes) : Prop :=
  exists caps p rest, packets = p :: rest /\
    encode_with_limits (Frame_Welcome id caps) limits = Ok p /\
    Forall (fun q => packet_kind q <> Some welcome_kind) rest.

(** One PROTOCOL_ERROR and nothing else. *)
Definition rejected (packets : list bytes) : Prop :=
  exists code text p, packets = [p] /\
    encode_with_limits (Frame_ProtocolError code text) FrameLimits_default = Ok p.

Lemma opened_snoc limits id packets q :
  opened limits id packets -> packet_kind q <> Some welcome_kind -> opened limits id (packets ++ [q]).
Proof.
  intros (caps & p & rest & -> & He & Hr) Hq. exists caps, p, (rest ++ [q]). split; [done|].
  split; [done|]. apply Forall_app. split; [done|]. by constructor.
Qed.

Lemma sent_to_log c sent packets :
  sent_to c (log sent packets) =
    sent_to c packets ++ match sent with Some (c', p) => if decide (c' = c) then [p] else [] | None => [] end.
Proof.
  unfold sent_to, log. destruct sent as [[c' p]|]; [|by rewrite app_nil_r].
  rewrite filter_app, fmap_app. f_equal. rewrite filter_cons. cbn. by destruct (decide (c' = c)).
Qed.

(** ** What a step sends *)

(** The connections a dispatch is sending to, and what. *)
Definition dispatch_outputs_of (d : dispatch) : list Conn :=
  match d with Dispatch_send _ outputs _ => outputs | Dispatch_next _ => [] end.

Definition dispatch_quiet (d : dispatch) : Prop :=
  match d with Dispatch_send packet _ _ => packet_kind packet <> Some welcome_kind | _ => True end.

Lemma dispatch_step_sends limits (s : sessions) (d : dispatch) env r sent :
  dispatch_ok limits d -> dispatch_quiet d -> dispatch_step limits s d env = (r, sent) ->
  match r with
  | inl d' => dispatch_quiet d' /\
      forall c, c ∈ dispatch_outputs_of d' -> c ∈ dispatch_outputs_of d \/ exists id, s !! id = Some c
  | inr _ => True
  end /\
  match sent with
  | Some (c, p) => c ∈ dispatch_outputs_of d /\ packet_kind p <> Some welcome_kind
  | None => True
  end.
Proof.
  intros Hok Hq Hs. destruct d as [[|e events]|packet [|o outputs] events]; cbn in Hs.
  - by simplify_eq.
  - apply Forall_cons in Hok as [He _]. destruct (outgoing e) as [recipients f] eqn:Eo.
    destruct (encoded f limits) as [packet|err|] eqn:Ee; [|by simplify_eq..].
    assert (packet_kind packet <> Some welcome_kind) as Hk.
    { apply encoded_ok, encoded_kind in Ee. rewrite Ee. destruct e as [sd rs g|sd i o]; cbn in Eo.
      - destruct He as (_ & m & -> & _). injection Eo as _ <-. by intros [=].
      - injection Eo as _ <-. by intros [=]. }
    assert (forall c, c ∈ outputs_for recipients s -> exists id, s !! id = Some c) as Hout.
    { unfold outputs_for. intros c1 ([id c'] & -> & [_ Hin%elem_of_bt_entries]%list_elem_of_filter)%list_elem_of_fmap.
      by exists id. }
    destruct (outputs_for recipients s), (env_cloned env); simplify_eq; try done; (split; [|done]);
      (split; [done|]); intros c1 Hc; right; by apply Hout.
  - simplify_eq. split; [|done]. split; [done|]. intros c1 Hc. by apply not_elem_of_nil in Hc.
  - destruct (env_sent env) as [|[]]; simplify_eq; try done.
    + split; [split; [done|]; intros c1 Hc; left; by right|]. split; [by left|done].
    + split; [split; [done|]; intros c1 Hc; left; by right|]. done.
    + split; [split; [done|]; intros c1 Hc; left; by right|]. done.
Qed.

(** ** What a thread says *)

Definition speech_ok (ph : phase) : Prop :=
  match ph with
  | Phase_reply _ f | Phase_refuse _ f => frame_kind f <> 2
  | Phase_dispatch _ d | Phase_farewell d _ => dispatch_quiet d
  | _ => True
  end.

Definition thread_outputs (ph : phase) : list Conn :=
  match ph with Phase_dispatch _ d | Phase_farewell d _ => dispatch_outputs_of d | _ => [] end.

(** What the connection of a thread has got when the thread is at [ph]. *)
Definition voice (limits : FrameLimits) (ph : phase) (packets : list bytes) : Prop :=
  match greeted ph with
  | Some id => opened limits id packets
  | None =>
      match ph with
      | Phase_farewell _ _ | Phase_done _ | Phase_abandoned _ _ | Phase_panicked =>
          packets = [] \/ rejected packets \/ exists id, opened limits id packets
      | _ => packets = []
      end
  end.

Lemma voice_snoc limits ph packets q :
  voice limits ph packets -> (exists id, opened limits id packets) ->
  packet_kind q <> Some welcome_kind -> voice limits ph (packets ++ [q]).
Proof.
  unfold voice. intros Hv [id Ho] Hq. destruct (greeted ph); [by apply opened_snoc|].
  destruct ph; try (subst packets; by destruct Ho as (? & ? & ? & ? & _));
    right; right; exists id; by apply opened_snoc.
Qed.

(** The thread has left its session loop. *)
Definition ended (ph : phase) : Prop :=
  match ph with Phase_farewell _ _ | Phase_done _ | Phase_abandoned _ _ | Phase_panicked => True | _ => False end.

Lemma opened_end limits (ph : phase) id packets :
  ended ph -> opened limits id packets -> voice limits ph packets.
Proof. unfold voice, ended. destruct ph; try done; cbn; eauto. Qed.

(** Where a frame of the session loop leads. *)
Lemma handle_frame_speech id f now_ms (b b' : broker) (ph' : phase) :
  handle_frame id f now_ms b = (ph', b') ->
  speech_ok ph' /\ thread_outputs ph' = [] /\ (greeted ph' = Some id \/ ph' = Phase_panicked).
Proof.
  intros Hf. assert (forall op r, let ph := operation_result id op r : phase in
    speech_ok ph /\ thread_outputs ph = [] /\ (greeted ph = Some id \/ ph = Phase_panicked)) as Hop.
  { intros op r. destruct r as [|e|]; cbn; by auto. }
  assert (forall code r, let ph := delivery_result id code r : phase in
    speech_ok ph /\ thread_outputs ph = [] /\ (greeted ph = Some id \/ ph = Phase_panicked)) as Hdl.
  { intros code r. destruct r as [|e|]; cbn; by auto. }
  destruct f; cbn [handle_frame] in Hf; try (simplify_eq; cbn; by auto).
  - case_bool_decide; [|simplify_eq; cbn; by auto]. destruct (claim _ _ _); simplify_eq. apply Hop.
  - destruct (subscribe_with_filters _ _ _ _); simplify_eq. apply Hop.
  - destruct (unsubscribe _ _ _); simplify_eq. apply Hop.
  - destruct (begin_delivery _ _ _ _); simplify_eq. apply Hdl.
  - destruct (acknowledge _ _ _ _); simplify_eq. apply Hdl.
Qed.

Lemma handle_hello_speech limits creds packet (b b' : broker) (ph' : phase) :
  handle_hello limits creds packet b = (ph', b') ->
  speech_ok ph' /\ thread_outputs ph' = [] /\ forall packets, packets = [] -> voice limits ph' packets.
Proof.
  unfold handle_hello. intros Hh.
  destruct (decode_with_limits packet limits) as [[]|e|]; try (simplify_eq; unfold voice; cbn; by auto).
  destruct (connect_session _ _ _) as [[session|e|] b1]; simplify_eq; unfold voice; cbn; by auto.
Qed.

Lemma send_then_sent conn packet env ok failed (ph' : phase) sent :
  send_then (Conn := Conn) conn packet env ok failed = (ph', sent) -> packet <> Panic ->
  (exists p, packet = Ok p /\ sent = Some (conn, p) /\ ph' = ok) \/
  (sent = None /\ exists e, ph' = failed (Err e)).
Proof.
  unfold send_then. intros Hs Hp. destruct packet as [p|e|]; [destruct (env_sent env)|..]; simplify_eq; eauto 10.
Qed.

Section spoken.
Variables (limits : FrameLimits) (conn : Conn) (ph : phase) (s : sessions) (packets : list bytes).

(** What a step of a thread amounts to for the connections: the packet is for its
    own connection, or a message or an error for a recipient it had. *)
Definition spoken (ph' : phase) (s' : sessions) (sent : option (Conn * bytes)) : Prop :=
  speech_ok ph' /\
  (forall c, c ∈ thread_outputs ph' -> c ∈ thread_outputs ph \/ exists id, s !! id = Some c) /\
  (forall id c, s' !! id = Some c -> s !! id = Some c \/ c = conn /\ greeted ph' = Some id) /\
  match sent with
  | None => voice limits ph' packets
  | Some (c, p) =>
      c = conn /\ voice limits ph' (packets ++ [p]) \/
      c ∈ thread_outputs ph /\ packet_kind p <> Some welcome_kind /\ voice limits ph' packets
  end.

Lemma spoken_quiet ph' :
  speech_ok ph' -> thread_outputs ph' = [] -> voice limits ph' packets -> spoken ph' s None.
Proof.
  intros Hs Ho Hv. split; [done|]. split; [|by auto]. intros c Hc. rewrite Ho in Hc.
  by apply not_elem_of_nil in Hc.
Qed.

Lemma spoken_send f limits' env (ok : phase) (failed : result io_error () -> phase) ph' sent :
  send_then conn (encoded f limits') env ok failed = (ph', sent) ->
  speech_ok ok -> thread_outputs ok = [] ->
  (forall e, speech_ok (failed (Err e)) /\ thread_outputs (failed (Err e)) = [] /\
             voice limits (failed (Err e)) packets) ->
  (forall p, encode_with_limits f limits' = Ok p -> voice limits ok (packets ++ [p])) ->
  spoken ph' s sent.
Proof.
  intros Hst Hok1 Hok2 Hf Hv.
  apply send_then_sent in Hst as [(p & Hp%encoded_ok & -> & ->)|(-> & e & ->)]; [| |apply encoded_total].
  - split; [done|]. split; [intros c; rewrite Hok2; intros Hc; by apply not_elem_of_nil in Hc|].
    split; [by auto|]. left. split; [done|]. by apply Hv.
  - destruct (Hf e) as (? & ? & ?). by apply spoken_quiet.
Qed.

(** Another frame for a greeted connection. *)
Lemma voice_more id ph' f limits' p :
  voice limits ph packets -> greeted ph = Some id -> greeted ph' = Some id -> frame_kind f <> 2 ->
  encode_with_limits f limits' = Ok p -> voice limits ph' (packets ++ [p]).
Proof.
  unfold voice. intros Hv Hg Hg' Hf Hp%encoded_kind. rewrite Hg'. rewrite Hg in Hv.
  apply opened_snoc; [done|]. rewrite Hp. destruct f; try done; by intros [=].
Qed.

(** A step of a dispatch, with the phases it leads to. *)
Lemma spoken_dispatch d env r sent (next : dispatch -> phase) (over : result io_error () -> phase) :
  thread_outputs ph = dispatch_outputs_of d -> dispatch_ok limits d -> dispatch_quiet d ->
  dispatch_step limits s d env = (r, sent) ->
  (forall d', (speech_ok (next d') <-> dispatch_quiet d') /\ thread_outputs (next d') = dispatch_outputs_of d' /\
              voice limits (next d') packets) ->
  (forall r', speech_ok (over r') /\ thread_outputs (over r') = [] /\ voice limits (over r') packets) ->
  spoken (match r with inl d' => next d' | inr r' => over r' end) s sent.
Proof.
  intros Ho Hok Hq E Hn Hr. destruct (dispatch_step_sends limits s d env r sent Hok Hq E) as [Hd Hout].
  assert (forall ph' : phase, voice limits ph' packets ->
    match sent with
    | None => voice limits ph' packets
    | Some (c, p) => c = conn /\ voice limits ph' (packets ++ [p]) \/
        c ∈ thread_outputs ph /\ packet_kind p <> Some welcome_kind /\ voice limits ph' packets
    end) as Hsent.
  { intros ph' Hv. destruct sent as [[c p]|]; [|done]. rewrite Ho. right. by destruct Hout. }
  destruct r as [d'|r'].
  - destruct (Hn d') as (Hs & Ho' & Hv), Hd as [Hqd Hod]. split; [by apply Hs|].
    split; [by rewrite Ho', Ho|]. split; [by auto|]. by apply Hsent.
  - destruct (Hr r') as (Hs & Ho' & Hv). split; [done|].
    split; [rewrite Ho'; intros c Hc; by apply not_elem_of_nil in Hc|]. split; [by auto|]. by apply Hsent.
Qed.

End spoken.

(** Receiving, in the session loop and before it. *)
Lemma spoken_receive limits creds conn i env (b b' : broker) (s s' : sessions) ph' sent packets :
  broker_ok b -> voice limits (Phase_receive i : phase) packets ->
  thread_step limits creds conn (Phase_receive i) env b s = (ph', b', s', sent) ->
  spoken limits conn (Phase_receive i) s packets ph' s' sent.
Proof.
  intros Hb Hv Hs. cbn [thread_step] in Hs.
  assert (forall r, spoken limits conn (Phase_receive i) s packets (Phase_unregister i r) s None) as Hun
    by (intros r; by apply spoken_quiet).
  destruct (env_received env) as [[packet|]|[]]; try (simplify_eq; apply Hun).
  pose proof (decode_refines limits packet) as Hno.
  destruct (decode_with_limits packet limits) as [f|e|] eqn:Ed; [| |done].
  - destruct (handle_frame i f _ b) as [ph1 b1] eqn:E. simplify_eq.
    destruct (handle_frame_spec limits creds conn i f _ b b' s' packet ph' Hb Ed E) as (_ & Hok' & _).
    destruct (handle_frame_speech _ _ _ _ _ _ E) as (H1 & H2 & [Hg| ->]); [|done].
    apply spoken_quiet; [done..|]. unfold voice. by rewrite Hg.
  - simplify_eq. by apply spoken_quiet.
Qed.

Lemma spoken_hello limits creds conn env (b b' : broker) (s s' : sessions) ph' sent :
  thread_step limits creds conn Phase_hello env b s = (ph', b', s', sent) ->
  spoken limits conn Phase_hello s [] ph' s' sent.
Proof.
  intros Hs. cbn [thread_step] in Hs. destruct (env_received env) as [[packet|]|e].
  - destruct (handle_hello limits creds packet b) as [ph1 b1] eqn:E. simplify_eq.
    destruct (handle_hello_speech _ _ _ _ _ _ E) as (H1 & H2 & Hv'). apply spoken_quiet; [done..|by apply Hv'].
  - simplify_eq. apply spoken_quiet; [done..|]. by left.
  - simplify_eq. apply spoken_quiet; [done..|]. by left.
Qed.

(** What a step of a thread sends, to its own connection or to recipients. *)
Lemma thread_step_sends limits creds conn ph env (b b' : broker) (s s' : sessions) ph' sent packets :
  broker_ok b -> phase_ok limits ph -> speech_ok ph -> voice limits ph packets ->
  thread_step limits creds conn ph env b s = (ph', b', s', sent) ->
  spoken limits conn ph s packets ph' s' sent.
Proof.
  intros Hb Hok Hsp Hv Hs.
  destruct ph as [|code msg session|msg|session|i|i|i f|i f|i d|i r|i r|d r|r|i r|];
    [cbn in Hv; subst packets; exact (spoken_hello _ _ _ _ _ _ _ _ _ _ Hs)| | | | |
     exact (spoken_receive _ _ _ _ _ _ _ _ _ _ _ packets Hb Hv Hs)|..]; cbn [thread_step] in Hs.
  - destruct (send_then _ _ _ _ _) as [ph1 sent1] eqn:E. simplify_eq.
    eapply spoken_send; [exact E|by destruct session..| |].
    + intros e. destruct session; split_and!; try done. by left.
    + intros p Hp. destruct session as [id|]; [eapply voice_more; [exact Hv|reflexivity|reflexivity| |exact Hp]; done|].
      cbn in Hv. subst packets. right. left. by exists code, msg, p.
  - destruct (send_then _ _ _ _ _) as [ph1 sent1] eqn:E. simplify_eq. cbn in Hv. subst packets.
    eapply spoken_send; [exact E|done|done| |].
    + intros e. split_and!; try done. by left.
    + intros p Hp. right. left. by eexists _, msg, p.
  - destruct (send_then _ _ _ _ _) as [ph1 sent1] eqn:E. simplify_eq. cbn in Hv. subst packets.
    eapply spoken_send; [exact E|done|done| |].
    + intros e. split_and!; try done. by left.
    + intros p Hp. by exists (connected_capabilities session), p, [].
  - destruct (env_cloned env); simplify_eq.
    + split; [done|]. split; [naive_solver|]. split; [|exact Hv].
      intros id c [[<- <-]|[_ Hc]]%lookup_insert_Some; [right|left]; done.
    + apply spoken_quiet; [done..|]. exact (opened_end limits (Phase_abandoned i _) i packets I Hv).
  - destruct (send_then _ _ _ _ _) as [ph1 sent1] eqn:E. simplify_eq.
    eapply spoken_send; [exact E|done|done|by intros e|]. intros p Hp. eapply voice_more; [exact Hv|reflexivity|reflexivity|exact Hsp|exact Hp].
  - destruct (send_then _ _ _ _ _) as [ph1 sent1] eqn:E. simplify_eq.
    eapply spoken_send; [exact E|done|done|by intros e|]. intros p Hp. eapply voice_more; [exact Hv|reflexivity|reflexivity|exact Hsp|exact Hp].
  - destruct (dispatch_step limits s d env) as [r1 sent1] eqn:E.
    destruct (dispatch_step_ok limits s d env r1 sent1 Hok E) as [Hnp _].
    eassert _ as Hsd; [eapply (spoken_dispatch limits conn (Phase_dispatch i d) s packets d env r1 sent1
      (Phase_dispatch i) (fun r => match r with Ok _ => Phase_receive i | Err e => Phase_unregister i (Err e) | Panic => Phase_unregister i (Ok ()) end)); try done|].
    + by intros [].
    + destruct r1 as [d'|[[]|e|]]; [| | |done]; by simplify_eq.
  - simplify_eq. split; [done|]. split; [naive_solver|]. split; [|exact Hv].
    intros id c [_ Hc]%lookup_delete_Some. by left.
  - assert (forall ph1 : phase, ended ph1 -> speech_ok ph1 -> thread_outputs ph1 = [] ->
      spoken limits conn (Phase_disconnect i r) s packets ph1 s None) as Hend
      by (intros ph1 He ? ?; apply spoken_quiet; [done..|]; by apply (opened_end limits ph1 i)).
    destruct (disconnect_with_events i b) as [[events|e|] b1]; simplify_eq; by apply Hend.
  - destruct (dispatch_step limits s d env) as [r1 sent1] eqn:E.
    destruct (dispatch_step_ok limits s d env r1 sent1 Hok E) as [Hnp _].
    eassert _ as Hsd; [eapply (spoken_dispatch limits conn (Phase_farewell d r) s packets d env r1 sent1
      (fun d' => Phase_farewell d' r) (fun r' => match r' with Ok _ => Phase_done r | Err e => Phase_done (Err (Io_wrapped e)) | Panic => Phase_done r end)); try done|].
    + by intros [].
    + destruct r1 as [d'|[[]|e|]]; [| | |done]; by simplify_eq.
  - simplify_eq. by apply spoken_quiet.
  - simplify_eq. by apply spoken_quiet.
  - simplify_eq. by apply spoken_quiet.
Qed.

(** ** The world *)

Section greeting.
Variable limits : FrameLimits.

Definition open_to (sent : list (Conn * bytes)) (c : Conn) : Prop :=
  exists id, opened limits id (sent_to c sent).

Lemma sent_to_other c c' sent p : c' <> c -> sent_to c (sent ++ [(c', p)]) = sent_to c sent.
Proof.
  intros Hc. change (sent ++ [(c', p)]) with (log (Some (c', p)) sent). rewrite sent_to_log.
  by rewrite decide_False, app_nil_r.
Qed.

Lemma sent_to_same c sent p : sent_to c (sent ++ [(c, p)]) = sent_to c sent ++ [p].
Proof.
  change (sent ++ [(c, p)]) with (log (Some (c, p)) sent). rewrite sent_to_log. by rewrite decide_True.
Qed.

Lemma sent_to_fresh c sent : c ∉ sent.*1 -> sent_to c sent = [].
Proof.
  intros Hc. unfold sent_to. induction sent as [|[c' p] sent IH]; [done|]. rewrite filter_cons. cbn in *.
  apply not_elem_of_cons in Hc as [Hc Hs]. rewrite decide_False by congruence. by apply IH.
Qed.

Lemma open_known sent c : open_to sent c -> c ∈ sent.*1.
Proof.
  intros (id & caps & p & rest & Hs & _). destruct (decide (c ∈ sent.*1)) as [|Hn]; [done|].
  by rewrite (sent_to_fresh _ _ Hn) in Hs.
Qed.

(** What the packets so far and those to come are. *)
Record heard (w : World) : Prop := {
  heard_threads i t : w_threads w !! i = Some t ->
    speech_ok (t_phase t) /\ voice limits (t_phase t) (sent_to (t_conn t) (w_sent w)) /\
    forall c, c ∈ thread_outputs (t_phase t) -> open_to (w_sent w) c;
  heard_scheduler d m : w_scheduler w = Some (d, m) ->
    dispatch_quiet d /\ forall c, c ∈ dispatch_outputs_of d -> open_to (w_sent w) c;
  heard_sessions id c : w_sessions w !! id = Some c -> open_to (w_sent w) c;
  heard_known c : c ∈ (w_sent w).*1 -> c ∈ t_conn <$> w_threads w;
  heard_unique : NoDup (t_conn <$> w_threads w);
}.

(** An open connection stays open, and only known connections are sent to. *)
Definition extends (w : World) (sent' : list (Conn * bytes)) : Prop :=
  (forall c, open_to (w_sent w) c -> open_to sent' c) /\
  (forall c, c ∈ sent'.*1 -> c ∈ t_conn <$> w_threads w).

Lemma extends_snoc w c' p :
  heard w -> c' ∈ t_conn <$> w_threads w ->
  (open_to (w_sent w) c' -> open_to (w_sent w ++ [(c', p)]) c') -> extends w (w_sent w ++ [(c', p)]).
Proof.
  intros Hw Hc' Ho. split.
  - intros c Hc. destruct (decide (c' = c)) as [<-|Hn]; [by apply Ho|].
    destruct Hc as [id Hc]. exists id. by rewrite sent_to_other.
  - intros c. rewrite fmap_app, elem_of_app. cbn. rewrite list_elem_of_singleton. intros [Hc| ->]; [|done].
    by apply heard_known.
Qed.

(** A packet that is not a WELCOME, to an open connection. *)
Lemma extends_open w c' p :
  heard w -> open_to (w_sent w) c' -> packet_kind p <> Some welcome_kind ->
  extends w (w_sent w ++ [(c', p)]) /\
  forall ph c, voice limits ph (sent_to c (w_sent w)) -> voice limits ph (sent_to c (w_sent w ++ [(c', p)])).
Proof.
  intros Hw Hc Hp. pose proof Hc as [id Ho]. split.
  - apply extends_snoc; [done|by apply heard_known, open_known|]. intros _. exists id. rewrite sent_to_same. by apply opened_snoc.
  - intros ph c Hv. destruct (decide (c' = c)) as [<-|Hn]; [|by rewrite sent_to_other].
    rewrite sent_to_same. apply voice_snoc; [done|by exists id|done].
Qed.

(** The packets of a connection after one that its thread sent. *)
Lemma voice_open ph id packets p :
  voice limits ph (packets ++ [p]) -> opened limits id packets -> exists id', opened limits id' (packets ++ [p]).
Proof.
  intros Hv Ho. assert (packets <> []) as Hne by (by destruct Ho as (? & ? & ? & -> & _)).
  unfold voice in Hv. destruct (greeted ph) as [id'|]; [by exists id'|].
  assert (packets ++ [p] <> []) as Hn by (by destruct packets).
  destruct ph; try done; destruct Hv as [Hv|[(? & ? & q & Hv & _)|Hv]]; try done;
    destruct packets as [|? []]; try done; by injection Hv.
Qed.

Lemma heard_start (policy : P) quota : heard (start policy quota).
Proof. split; cbn; try done. constructor. Qed.

Lemma heard_accept w conn proc peer :
  conn ∉ t_conn <$> w_threads w -> heard w -> heard (step limits (Accept conn proc peer) w).
Proof.
  intros Hc [Ht Hs Hse Hk Hu]. split; cbn; try done.
  - intros i t [Hi|[_ Hi]]%lookup_app_Some; [by eapply Ht|].
    apply list_lookup_singleton_Some in Hi as [_ <-]. cbn. split; [done|]. split.
    + apply sent_to_fresh. naive_solver.
    + intros c Hn. by apply not_elem_of_nil in Hn.
  - intros c Hin%Hk. rewrite fmap_app. set_solver.
  - rewrite fmap_app. apply NoDup_app. split; [done|]. split; [|apply NoDup_singleton].
    intros c Hin ->%list_elem_of_singleton. done.
Qed.

Lemma insert_conns (w : World) i (t : thread) ph :
  w_threads w !! i = Some t ->
  t_conn <$> <[i := {| t_conn := t_conn t; t_credentials := t_credentials t; t_phase := ph |}]> (w_threads w) =
  t_conn <$> w_threads w.
Proof.
  intros Hi. rewrite list_fmap_insert. cbn. apply list_insert_id. by rewrite list_lookup_fmap, Hi.
Qed.

(** The packets after a step of a thread: every other connection keeps its own. *)
Lemma spoken_extends (w : World) i (t : thread) ph' s' sent :
  heard w -> w_threads w !! i = Some t ->
  spoken limits (t_conn t) (t_phase t) (w_sessions w) (sent_to (t_conn t) (w_sent w)) ph' s' sent ->
  extends w (log sent (w_sent w)) /\ voice limits ph' (sent_to (t_conn t) (log sent (w_sent w))) /\
    forall j u, j <> i -> w_threads w !! j = Some u ->
      voice limits (t_phase u) (sent_to (t_conn u) (log sent (w_sent w))).
Proof.
  intros Hw Hi (_ & _ & _ & Hsent). destruct (heard_threads w Hw i t Hi) as (_ & Hv & Hopen).
  assert (t_conn t ∈ t_conn <$> w_threads w) as Hin by (apply list_elem_of_fmap; eauto using list_elem_of_lookup_2).
  destruct sent as [[c p]|]; cbn.
  2:{ split; [split; [done|apply heard_known, Hw]|]. split; [done|].
      intros j u _ Hj. by apply (heard_threads w Hw j u Hj). }
  destruct Hsent as [[-> Hp]|(Hc & Hp & Hv')].
  - split; [|split; [by rewrite sent_to_same|]].
    + apply extends_snoc; [done..|]. intros [id Ho]. unfold open_to. rewrite sent_to_same. by eapply voice_open.
    + intros j u Hne Hj. rewrite sent_to_other; [by apply (heard_threads w Hw j u Hj)|].
      intros Hcc. apply Hne. eapply (NoDup_lookup (t_conn <$> w_threads w)); [by apply heard_unique|..];
        rewrite list_lookup_fmap; [by rewrite Hj|]. by rewrite Hi, <- Hcc.
  - destruct (extends_open w c p Hw (Hopen c Hc) Hp) as [He Hvs]. split; [done|]. split; [by apply Hvs|].
    intros j u _ Hj. by apply Hvs, (heard_threads w Hw j u Hj).
Qed.

Lemma heard_run policy quota w i env :
  world_ok policy quota limits w -> heard w -> heard (step limits (Run i env) w).
Proof.
  intros Hok Hw. cbn. destruct (w_threads w !! i) as [t|] eqn:Hi; [|done]. destruct (_ && _); [done|].
  destruct (thread_step _ _ _ _ _ _ _) as [[[ph' b'] s'] sent] eqn:Es.
  destruct (heard_threads w Hw i t Hi) as (Hsp & Hv & Hopen).
  assert (spoken limits (t_conn t) (t_phase t) (w_sessions w) (sent_to (t_conn t) (w_sent w)) ph' s' sent) as Hspoken.
  { eapply thread_step_sends; [..|exact Es]; [|by eapply wo_phases|done..].
    eapply reachable_ok, wo_broker, Hok. }
  destruct (spoken_extends _ _ _ _ _ _ Hw Hi Hspoken) as ((Hkeep & Hknown) & Hown & Hvs).
  destruct Hspoken as (Hsp' & Hout & Hses & _). split; cbn.
  - intros j u [(<- & <- & _)|[Hne Hj]]%list_lookup_insert_Some; cbn.
    + split; [done|]. split; [done|]. intros c [Hc|[id Hc]]%Hout; apply Hkeep; [by apply Hopen|].
      by eapply heard_sessions.
    + destruct (heard_threads w Hw j u Hj) as (? & _ & Ho). split; [done|]. split; [by apply (Hvs j)|]. auto.
  - intros d m Hd. destruct (heard_scheduler w Hw d m Hd) as [? Ho]. auto.
  - intros id c [Hc|[-> Hg]]%Hses; [by eapply Hkeep, heard_sessions|]. exists id. unfold voice in Hown.
    by rewrite Hg in Hown.
  - intros c Hin. rewrite insert_conns by done. by apply Hknown.
  - rewrite insert_conns by done. by apply heard_unique.
Qed.

Lemma heard_schedule policy quota w env :
  world_ok policy quota limits w -> heard w -> heard (step limits (Schedule env) w).
Proof.
  intros Hok Hw. cbn. destruct (w_scheduler w) as [[d taken]|] eqn:Esc.
  - destruct (dispatch_step limits (w_sessions w) d env) as [r sent] eqn:Ed.
    pose proof (wo_scheduler _ _ _ _ Hok) as Hd. rewrite Esc in Hd.
    destruct (heard_scheduler w Hw d taken Esc) as [Hq Ho].
    destruct (dispatch_step_sends limits (w_sessions w) d env r sent Hd Hq Ed) as [Hr Hsent].
    assert (extends w (log sent (w_sent w)) /\
      forall ph c, voice limits ph (sent_to c (w_sent w)) -> voice limits ph (sent_to c (log sent (w_sent w))))
      as ((Hkeep & Hknown) & Hvs).
    { destruct sent as [[c p]|]; cbn.
      - destruct Hsent as [Hc Hp]. by apply extends_open; [|apply Ho|].
      - split; [split; [done|apply heard_known, Hw]|done]. }
    split; cbn; [| | |done|by apply heard_unique].
    + intros i t Hi. destruct (heard_threads w Hw i t Hi) as (? & Hv & Hopen). auto.
    + intros d' m Hd'. destruct r as [d1|]; simplify_eq. destruct Hr as [? Hout]. split; [done|].
      intros c [Hc|[id Hc]]%Hout; apply Hkeep; [by apply Ho|]. by eapply heard_sessions.
    + intros id c Hc. by eapply Hkeep, heard_sessions.
  - destruct (broker_held w); [done|]. destruct (tick _ _) as [r b'] eqn:Et.
    split; cbn; [apply Hw| |apply Hw..]. intros d m Hd. destruct r as [events| |]; simplify_eq.
    split; [done|]. intros c Hc. by apply not_elem_of_nil in Hc.
Qed.

Lemma execute_conns (l : list occurrence) (w : World) :
  t_conn <$> w_threads (execute limits l w) = (t_conn <$> w_threads w) ++ accepted l.
Proof.
  revert w. induction l as [|a l IH]; intros w; [by rewrite app_nil_r|]. cbn [execute foldl].
  etrans; [apply IH|]. destruct a as [conn proc peer|i env|env].
  - cbn. by rewrite fmap_app, <- app_assoc.
  - cbn. destruct (w_threads w !! i) as [t|] eqn:Hi; [|done]. destruct (_ && _); [done|].
    destruct (thread_step _ _ _ _ _ _ _) as [[[ph' b'] s'] sent]. cbn. by rewrite insert_conns.
  - by rewrite schedule_threads.
Qed.

Lemma heard_execute (policy : P) quota (l : list occurrence) :
  NoDup (accepted l) -> heard (execute limits l (start policy quota)).
Proof.
  induction l as [|a l IH] using rev_ind; intros Hl; [apply heard_start|].
  unfold accepted in Hl. rewrite omap_app in Hl. apply NoDup_app in Hl as (Hl & Hd & _).
  unfold execute. rewrite foldl_snoc. change (foldl _ _ l) with (execute limits l (start policy quota)).
  pose proof (execute_ok policy quota limits l _ (start_ok policy quota limits)) as Hok. specialize (IH Hl).
  destruct a as [conn proc peer|i env|env]; [|by eapply heard_run|by eapply heard_schedule].
  apply heard_accept; [|done]. rewrite execute_conns. cbn. intros Hin. eapply Hd; [exact Hin|]. by left.
Qed.

End greeting.

(** C14: what a connection gets from the daemon, in any run over distinct
    connections, is nothing, or one PROTOCOL_ERROR, or one WELCOME followed by
    packets that are not a WELCOME; and the WELCOME of a thread in its session
    carries the id the thread serves: nobody hears the bus before the greeting,
    and nobody is greeted twice or under another name. *)
Theorem handshake_first (policy : P) quota limits (l : list occurrence) :
  NoDup (accepted l) ->
  let w := execute limits l (start policy quota) in
  (forall c, sent_to c (w_sent w) = [] \/ rejected (sent_to c (w_sent w)) \/
     exists id, opened limits id (sent_to c (w_sent w))) /\
  forall i t id, w_threads w !! i = Some t -> greeted (t_phase t) = Some id ->
    opened limits id (sent_to (t_conn t) (w_sent w)).
Proof.
  intros Hl w. pose proof (heard_execute limits policy quota l Hl) as Hw. fold w in Hw. split.
  - intros c. destruct (decide (c ∈ (w_sent w).*1)) as [Hin|Hn]; [|left; by apply sent_to_fresh].
    apply (heard_known _ _ Hw), list_elem_of_fmap in Hin as (t & -> & [i Hi]%list_elem_of_lookup).
    destruct (heard_threads _ _ Hw i t Hi) as (_ & Hv & _). unfold voice in Hv.
    destruct (greeted (t_phase t)) as [id|]; [by eauto|]. destruct (t_phase t); by auto.
  - intros i t id Hi Hg. destruct (heard_threads _ _ Hw i t Hi) as (_ & Hv & _). unfold voice in Hv.
    by rewrite Hg in Hv.
Qed.

End handshake.

(** The thread of the second connection of the run, in its session: it got a
    WELCOME, the answer to its SUBSCRIBE and the signal. *)
Definition demo_second : thread (Conn := nat) := {|
  t_conn := 11%nat;
  t_credentials := credentials_from_peer demo_proc (demo_peer 42);
  t_phase := Phase_receive (PeerId_new 2);
|}.

Lemma handshake_first_witness :
  NoDup (accepted demo_run) /\
  w_threads demo_world !! 1%nat = Some demo_second /\
  opened FrameLimits_default (PeerId_new 2) (sent_to 11%nat (w_sent demo_world)).
Proof.
  assert (NoDup (accepted demo_run)) as Hnd
    by (repeat constructor; rewrite ?list_elem_of_singleton; [done|apply not_elem_of_nil]).
  split; [exact Hnd|]. split; [vm_compute; reflexivity|].
  refine (proj2 (handshake_first allow_all Limits_default FrameLimits_default demo_run Hnd)
    1%nat demo_second (PeerId_new 2) _ _); vm_compute; reflexivity.
Defined.
