(* ===== verification/Commands.v ===== *)
(** * The commands a run of the daemon gives the broker

    Each step of the daemon is one command of the broker, or none: the broker of
    a run is the one its commands lead to, in the order of the steps. *)

From S2P Require Export Handshake.

Local Open Scope N_scope.

Section commands.
Context {P : Type} `{Policy P} {Conn : Type}.

Local Abbreviation broker := (Broker P).
Local Abbreviation sessions := (gmap PeerId Conn).
Local Abbreviation phase := (phase (Conn := Conn)).
Local Abbreviation World := (World (P := P) (Conn := Conn)).
Local Abbreviation occurrence := (occurrence (Conn := Conn)).

(** The command of a frame of the session loop. *)
Definition frame_command (id : PeerId) (f : Frame) (now_ms : N) : option command :=
  match f with
  | Frame_Claim namespace headers =>
      if bool_decide (headers = ∅) then Some (Command_Claim id namespace) else None
  | Frame_Subscribe channel filters => Some (Command_Subscribe id channel filters)
  | Frame_Unsubscribe channel => Some (Command_Unsubscribe id channel)
  | Frame_Message _ => Some (Command_BeginDelivery id f now_ms)
  | Frame_Acknowledge message_id policy => Some (Command_Acknowledge id message_id policy)
  | _ => None
  end.

(** The command of a step of a thread that is not waiting for the lock. *)
Definition thread_command (limits : FrameLimits) (creds : Credentials) (ph : phase) (env : environment)
    : option command :=
  match ph, received_frame limits env with
  | Phase_hello, Some (Frame_Hello client_id headers capabilities) =>
      Some (Command_Connect creds {| hello_client_id := client_id; hello_headers := headers;
                                     hello_capabilities := capabilities |})
  | Phase_receive id, Some f => frame_command id f (env_now_ms env)
  | Phase_disconnect id _, _ => Some (Command_Disconnect id)
  | _, _ => None
  end.

Definition step_command (limits : FrameLimits) (a : occurrence) (w : World) : option command :=
  match a with
  | Accept _ _ _ => None
  | Run i env =>
      t ← w_threads w !! i;
      if locks_broker limits (t_phase t) env && broker_held w then None
      else thread_command limits (t_credentials t) (t_phase t) env
  | Schedule env =>
      if bool_decide (w_scheduler w = None) && negb (broker_held w)
      then Some (Command_Tick (env_now_ms env)) else None
  end.

(** What a command, or none, does to the broker. *)
Definition commanded (c : option command) (b : broker) : broker :=
  match c with Some c => (apply c b).2 | None => b end.

(** What a phase that was not dispatching goes on to dispatch. *)
Definition phase_dispatch (ph : phase) : option dispatch :=
  match ph with Phase_dispatch _ d | Phase_farewell d _ => Some d | _ => None end.

(** A dispatch begins with the events the command returned. *)
Definition begins (d : option (dispatch (Conn := Conn))) (c : option command) (b : broker) : Prop :=
  match d with
  | None => True
  | Some (Dispatch_next events) => exists c', c = Some c' /\ (apply c' b).1 = Ok events
  | Some (Dispatch_send _ _ _) => False
  end.

Lemma received_decoded limits env f :
  received_frame limits env = Some f ->
  exists packet, env_received env = Done (Some packet) /\ decode_with_limits packet limits = Ok f.
Proof.
  unfold received_frame. destruct (env_received env) as [[packet|]|]; [|done..].
  destruct (decode_with_limits packet limits) eqn:E; [|done..]. intros [= ->]. by exists packet.
Qed.

Lemma frame_command_proper limits id packet f now_ms c :
  decode_with_limits packet limits = Ok f -> frame_command id f now_ms = Some c -> proper_command c.
Proof.
  intros Hd Hc. destruct f; cbn in Hc; repeat case_match; simplify_eq; try done. by eapply decoded_proper.
Qed.

Lemma step_command_proper limits a (w : World) c : step_command limits a w = Some c -> proper_command c.
Proof.
  destruct a as [conn proc peer|i env|env]; cbn; [done| |case_match; by intros [= <-]].
  destruct (w_threads w !! i) as [t|]; [|done]. cbn. destruct (_ && _); [done|]. unfold thread_command.
  destruct (received_frame limits env) as [f|] eqn:E.
  - apply received_decoded in E as (packet & _ & Hd).
    destruct (t_phase t); try done; [destruct f; try done; by intros [= <-]| |by intros [= <-]].
    by eapply frame_command_proper.
  - destruct (t_phase t); try done. by intros [= <-].
Qed.

Lemma handle_frame_command id f now_ms (b b' : broker) (ph' : phase) :
  handle_frame id f now_ms b = (ph', b') ->
  b' = commanded (frame_command id f now_ms) b /\ begins (phase_dispatch ph') (frame_command id f now_ms) b.
Proof.
  intros E. destruct f as [|id' c|n h|ch fs|ch|m|i p|i o|c t|o|n|n o]; cbn [handle_frame frame_command] in *;
    try (by simplify_eq).
  - case_bool_decide; [|by simplify_eq]. cbn. cbv [mbind St_bind mret St_ret].
    destruct (claim id n b) as [[u|e|] b1]; by simplify_eq.
  - cbn. cbv [mbind St_bind mret St_ret]. destruct (subscribe_with_filters id ch fs b) as [[u|e|] b1]; by simplify_eq.
  - cbn. cbv [mbind St_bind mret St_ret]. destruct (unsubscribe id ch b) as [[u|e|] b1]; by simplify_eq.
  - cbn [commanded apply begins]. destruct (begin_delivery id (Frame_Message m) now_ms b) as [[ev|e|] b1] eqn:Eb;
      simplify_eq; (split; [done|]); try done. eexists. split; [done|]. exact (f_equal fst Eb).
  - cbn [commanded apply begins]. destruct (acknowledge id i p b) as [[ev|e|] b1] eqn:Eb;
      simplify_eq; (split; [done|]); try done. eexists. split; [done|]. exact (f_equal fst Eb).
Qed.

Lemma thread_step_command limits creds conn ph env (b b' : broker) (s s' : sessions) ph' sent :
  thread_step limits creds conn ph env b s = (ph', b', s', sent) ->
  b' = commanded (thread_command limits creds ph env) b /\
  (phase_dispatch ph = None -> begins (phase_dispatch ph') (thread_command limits creds ph env) b).
Proof.
  intros Hs.
  assert (forall ph1 : phase, phase_dispatch ph1 = None -> forall c, begins (phase_dispatch ph1) c b) as Hno
    by (intros ph1 ->; done).
  destruct ph as [|code msg session|msg|session|i|i|i f|i f|i d|i r|i r|d r|r|i r|];
    cbn [thread_step] in Hs; unfold thread_command;
    try (destruct (send_then _ _ _ _ _) as [ph1 sent1] eqn:E; simplify_eq;
         apply send_then_phase in E as [->|[[e ->]| ->]]; try destruct session;
         by destruct (received_frame limits env));
    try (destruct (dispatch_step limits s d env) as [[d'|[[]|e|]] sent1]; simplify_eq;
         by destruct (received_frame limits env));
    try (simplify_eq; by destruct (received_frame limits env)).
  - unfold received_frame. destruct (env_received env) as [[packet|]|e]; [|by simplify_eq..].
    destruct (handle_hello limits creds packet b) as [ph1 b1] eqn:E. simplify_eq. unfold handle_hello in E.
    destruct (decode_with_limits packet limits) as [f|e|]; [|by simplify_eq..].
    destruct f; try (by simplify_eq). cbn [commanded apply]. cbv [mbind St_bind mret St_ret].
    destruct (connect_session _ _ b) as [[session|e|] b1]; by simplify_eq.
  - destruct (env_cloned env); simplify_eq; by destruct (received_frame limits env).
  - unfold received_frame. destruct (env_received env) as [[packet|]|[]]; try (by simplify_eq).
    destruct (decode_with_limits packet limits) as [f|e|]; [|by simplify_eq..].
    destruct (handle_frame i f _ b) as [ph1 b1] eqn:E. simplify_eq.
    apply handle_frame_command in E as [-> Hb]. by split.
  - destruct (disconnect_with_events i b) as [[ev|e|] b1] eqn:E; simplify_eq; cbn; rewrite E;
      (split; [done|]); try done. intros _. eexists. split; [done|]. exact (f_equal fst E).
Qed.

(** One step of the daemon: one command, or none. *)
Lemma step_commanded limits a (w : World) :
  w_broker (step limits a w) = commanded (step_command limits a w) (w_broker w).
Proof.
  destruct a as [conn proc peer|i env|env]; [done| |]; cbn.
  - destruct (w_threads w !! i) as [t|]; [|done]. cbn. destruct (_ && _); [done|].
    destruct (thread_step _ _ _ _ _ _ _) as [[[ph' b'] s'] sent] eqn:Es.
    by destruct (thread_step_command _ _ _ _ _ _ _ _ _ _ _ Es).
  - destruct (w_scheduler w) as [[d m]|]; cbn; [by destruct (dispatch_step _ _ _ _)|].
    destruct (broker_held w); [done|]. cbn. by destruct (tick _ _) as [[ev|[]|] b'].
Qed.

(** The commands of a run, in order. *)
Fixpoint commands (limits : FrameLimits) (l : list occurrence) (w : World) : list command :=
  match l with
  | [] => []
  | a :: l => option_list (step_command limits a w) ++ commands limits l (step limits a w)
  end.

Lemma execute_commands limits (l : list occurrence) (w : World) :
  w_broker (execute limits l w) = run (commands limits l w) (w_broker w).
Proof.
  revert w. induction l as [|a l IH]; intros w; [done|]. cbn [execute foldl commands].
  etrans; [apply IH|]. rewrite step_commanded. by destruct (step_command limits a w).
Qed.

Lemma commands_proper limits (l : list occurrence) (w : World) : Forall proper_command (commands limits l w).
Proof.
  revert w. induction l as [|a l IH]; intros w; [constructor|]. cbn. apply Forall_app. split; [|done].
  destruct (step_command limits a w) as [c|] eqn:E; [|constructor].
  apply Forall_singleton. by eapply step_command_proper.
Qed.

End commands.

(** C7: the daemon is its broker, one command at a time.  Whatever connections
    are accepted, packets received, sends failing and steps interleaving, the
    state of the daemon's broker is the one that the commands of the run lead to
    from an empty broker, in the order of the steps: the command of a step is
    read off its thread's phase and the frame it received, all of them are well
    formed, failing sends and other connections add, drop and reorder nothing.
    So every guarantee proved of reachable brokers holds in the running daemon;
    and no thread panics while the clock is after the Unix epoch, so the locks
    are never poisoned. *)
Theorem daemon_runs_commands {P} `{Policy P} {Conn} (policy : P) quota limits
    (l : list (occurrence (Conn := Conn))) :
  let w := execute limits l (start policy quota) in
  let cs := commands limits l (start policy quota) in
  w_broker w = run cs (with_limits policy quota) /\
  Forall proper_command cs /\
  reachable policy quota (w_broker w) /\
  forall i t, w_threads w !! i = Some t -> t_phase t <> Phase_panicked.
Proof.
  intros w cs. split; [apply execute_commands|]. split; [apply commands_proper|].
  apply daemon_refines_broker.
Qed.
