(* ===== verification/Addressing.v ===== *)
(** * Which packets leave for whom, and in which order

    The events of a session's operations and of the scheduler's ticks are
    dispatched by the thread that raised them.  The packets of a dispatch follow
    its events, each goes to a connection at most once, and only to the
    connections of the peers the broker selected. *)

From S2P Require Export Commands.

Local Open Scope N_scope.

Section addressing.
Context {P : Type} `{Policy P} {Conn : Type} `{EqDecision Conn}.

Local Abbreviation broker := (Broker P).
Local Abbreviation sessions := (gmap PeerId Conn).
Local Abbreviation phase := (phase (Conn := Conn)).
Local Abbreviation dispatch := (dispatch (Conn := Conn)).
Local Abbreviation thread := (thread (Conn := Conn)).
Local Abbreviation World := (World (P := P) (Conn := Conn)).
Local Abbreviation occurrence := (occurrence (Conn := Conn)).

(** ** The dispatches of a run *)

(** What dispatches events: the thread of a connection, or the scheduler. *)
Inductive source :=
| Session (i : nat)
| Scheduler.

Definition takes (src : source) (a : occurrence) : bool :=
  match src, a with
  | Session i, Run j _ => bool_decide (i = j)
  | Scheduler, Schedule _ => true
  | _, _ => false
  end.

(** The dispatch a source is in. *)
Definition dispatching (src : source) (w : World) : option dispatch :=
  match src with
  | Session i => t ← w_threads w !! i; phase_dispatch (t_phase t)
  | Scheduler => fst <$> w_scheduler w
  end.

Section run.
Variable limits : FrameLimits.

(** The packets the dispatches of a source hand to the kernel in a run. *)
Fixpoint dispatched (src : source) (l : list occurrence) (w : World) : list (Conn * bytes) :=
  match l with
  | [] => []
  | a :: l =>
      (if takes src a && bool_decide (is_Some (dispatching src w))
       then drop (length (w_sent w)) (w_sent (step limits a w)) else [])
      ++ dispatched src l (step limits a w)
  end.

(** The events a source begins to dispatch in a run, in order. *)
Fixpoint published_by (src : source) (l : list occurrence) (w : World) : list DeliveryEvent :=
  match l with
  | [] => []
  | a :: l =>
      match dispatching src w, dispatching src (step limits a w) with
      | None, Some (Dispatch_next events) => events
      | _, _ => []
      end ++ published_by src l (step limits a w)
  end.

(** The packets of the events that are for a peer. *)
Definition addressed_to (id : PeerId) (events : list DeliveryEvent) : list bytes :=
  omap (fun e => if decide (id ∈ (outgoing e).1)
                 then match encode_with_limits (outgoing e).2 limits with Ok p => Some p | _ => None end
                 else None) events.

(** What a dispatch may still send to the connection [c] of the peer [id]. *)
Definition outstanding (id : PeerId) (c : Conn) (d : option dispatch) : list bytes :=
  match d with
  | None => []
  | Some (Dispatch_next events) => addressed_to id events
  | Some (Dispatch_send p outputs events) =>
      (if decide (c ∈ outputs) then [p] else []) ++ addressed_to id events
  end.

Definition outputs_distinct (d : option dispatch) : Prop :=
  match d with Some (Dispatch_send _ outputs _) => NoDup outputs | _ => True end.

Lemma outputs_for_distinct (recipients : list PeerId) (s : sessions) :
  (forall i j c, s !! i = Some c -> s !! j = Some c -> i = j) -> NoDup (outputs_for recipients s).
Proof.
  intros Hinj. unfold outputs_for. apply NoDup_fmap_2_strong.
  - intros [i c] [j c'] [_ Hi%elem_of_bt_entries]%list_elem_of_filter [_ Hj%elem_of_bt_entries]%list_elem_of_filter.
    cbn. intros <-. by rewrite (Hinj i j c).
  - apply NoDup_filter. rewrite bt_entries_perm. apply NoDup_map_to_list.
Qed.

Lemma outputs_for_peer (recipients : list PeerId) (s : sessions) c :
  c ∈ outputs_for recipients s -> exists id, id ∈ recipients /\ s !! id = Some c.
Proof.
  unfold outputs_for. intros ([id c'] & -> & [Hr Hin%elem_of_bt_entries]%list_elem_of_filter)%list_elem_of_fmap.
  by exists id.
Qed.

Lemma addressed_cons id e events :
  addressed_to id (e :: events) = addressed_to id [e] ++ addressed_to id events.
Proof. unfold addressed_to. cbn. by destruct (decide _); [destruct (encode_with_limits _ _)|]. Qed.

(** One step: what was sent, followed by what may still be, is in order among
    what might have been. *)
Lemma dispatch_step_order (s : sessions) (d : dispatch) env r sent id c :
  (forall i j c, s !! i = Some c -> s !! j = Some c -> i = j) ->
  (forall i, s !! i = Some c -> i = id) -> outputs_distinct (Some d) ->
  dispatch_step limits s d env = (r, sent) ->
  let d' := match r with inl d' => Some d' | inr _ => None end in
  sublist (sent_to c (log sent []) ++ outstanding id c d') (outstanding id c (Some d)) /\
  outputs_distinct d'.
Proof.
  intros Hinj Hid Hd Hs.
  assert (forall l : list bytes, sublist [] l) as Hnil by (intros l; apply sublist_nil_l).
  destruct d as [[|e events]|packet [|o outputs] events]; cbn in Hs.
  - simplify_eq. by split.
  - cbn [outstanding]. rewrite addressed_cons. destruct (outgoing e) as [recipients f] eqn:Eo.
    destruct (encoded f limits) as [packet|err|] eqn:Ee; [|simplify_eq; by split..].
    assert (sublist (outstanding id c (Some (Dispatch_send packet (outputs_for recipients s) events)))
              (addressed_to id [e] ++ addressed_to id events)) as Hsub.
    { cbn. apply sublist_app; [|done]. destruct (decide (c ∈ _)) as [Hc|]; [|done].
      apply outputs_for_peer in Hc as (i & Hi & Hsi). apply Hid in Hsi as ->.
      unfold addressed_to. cbn. rewrite Eo. cbn. rewrite decide_True by done. by rewrite (encoded_ok _ _ _ Ee). }
    pose proof (outputs_for_distinct recipients s Hinj) as Hnd.
    destruct (outputs_for recipients s), (env_cloned env); simplify_eq; by split.
  - simplify_eq. split; [|done]. cbn. by rewrite decide_False by apply not_elem_of_nil.
  - apply NoDup_cons in Hd as [Ho Hd]. cbn [outstanding].
    assert (sublist (outstanding id c (Some (Dispatch_send packet outputs events)))
              (outstanding id c (Some (Dispatch_send packet (o :: outputs) events)))) as Hskip.
    { cbn. apply sublist_app; [|done]. destruct (decide (c ∈ outputs)); [|done].
      by rewrite decide_True by by right. }
    destruct (env_sent env) as [|[]]; simplify_eq; (split; [|done]); try done.
    change (sent_to c (log (Some (o, packet)) [])) with (sent_to c ([] ++ [(o, packet)])).
    destruct (decide (o = c)) as [->|Hn].
    + rewrite sent_to_same. cbn. rewrite decide_False by done. by rewrite decide_True by by left.
    + by rewrite sent_to_other.
Qed.

(** ** One peer per connection *)

(** A greeted thread keeps its peer until it leaves its session, for good. *)
Lemma greeted_stays creds conn ph env (b b' : broker) (s s' : sessions) ph' sent id :
  greeted ph = Some id -> thread_step limits creds conn ph env b s = (ph', b', s', sent) ->
  greeted ph' = Some id \/ ended ph'.
Proof.
  intros Hg Hs.
  destruct ph as [|code msg session|msg|session|i|i|i f|i f|i d|i r|i r|d r|r|i r|];
    cbn in Hg; simplify_eq; cbn [thread_step] in Hs;
    try (destruct (send_then _ _ _ _ _) as [ph1 sent1] eqn:E; simplify_eq;
         apply send_then_phase in E as [->|[[e ->]| ->]]; cbn; by auto).
  - destruct (env_cloned env); simplify_eq; cbn; by auto.
  - destruct (env_received env) as [[packet|]|[]]; try (simplify_eq; cbn; by auto).
    destruct (decode_with_limits packet limits) as [f|e|]; [|simplify_eq; cbn; by auto..].
    destruct (handle_frame id f _ b) as [ph1 b1] eqn:E. simplify_eq.
    apply handle_frame_speech in E as (_ & _ & [?| ->]); cbn; by auto.
  - destruct (dispatch_step limits s d env) as [[d'|[[]|e|]] sent1]; simplify_eq; cbn; by auto.
  - simplify_eq. by left.
  - destruct (disconnect_with_events id b) as [[] ?]; simplify_eq; cbn; by auto.
Qed.

Lemma ended_stays creds conn ph env (b b' : broker) (s s' : sessions) ph' sent :
  ended ph -> thread_step limits creds conn ph env b s = (ph', b', s', sent) -> ended ph'.
Proof.
  intros Hg Hs. destruct ph; try done; cbn [thread_step] in Hs; try (by simplify_eq).
  destruct (dispatch_step limits s d env) as [[d'|[[]|e|]] sent1]; by simplify_eq.
Qed.

(** The thread of the peer [id], or what is left of it. *)
Definition of_peer (id : PeerId) (ph : phase) : Prop := greeted ph = Some id \/ ended ph.

Lemma of_peer_execute (l : list occurrence) (w : World) i (t : thread) id :
  w_threads w !! i = Some t -> of_peer id (t_phase t) ->
  exists t', w_threads (execute limits l w) !! i = Some t' /\ t_conn t' = t_conn t /\ of_peer id (t_phase t').
Proof.
  revert w t. induction l as [|a l IH]; intros w t Hi Hp; [by exists t|].
  assert (exists t', w_threads (step limits a w) !! i = Some t' /\ t_conn t' = t_conn t /\
    of_peer id (t_phase t')) as (t' & Hi' & Hc & Hp').
  { destruct a as [conn proc peer|j env|env]; [| |exists t; by rewrite schedule_threads].
    - exists t. split; [|done]. cbn. by apply lookup_app_l_Some.
    - cbn. destruct (w_threads w !! j) as [u|] eqn:Hj; [|by exists t]. destruct (_ && _); [by exists t|].
      destruct (thread_step _ _ _ _ _ _ _) as [[[ph' b'] s'] sent] eqn:Es. cbn.
      destruct (decide (j = i)) as [->|Hn]; [|exists t; by rewrite list_lookup_insert_ne].
      simplify_eq. eexists. rewrite list_lookup_insert_eq by by eapply lookup_lt_Some. split; [done|]. split; [done|].
      cbn. destruct Hp as [Hp|Hp]; [by eapply greeted_stays|right; by eapply ended_stays]. }
  destruct (IH _ _ Hi' Hp') as (t'' & ? & ? & ?). exists t''. split; [done|]. split; [congruence|done].
Qed.

(** The daemon serves [id] on the connection [c] at some point of the run. *)
Definition serves (policy : P) quota (l : list occurrence) (id : PeerId) (c : Conn) : Prop :=
  exists l1 l2, l = l1 ++ l2 /\ w_sessions (execute limits l1 (start policy quota)) !! id = Some c.

Lemma execute_app (l1 l2 : list occurrence) (w : World) :
  execute limits (l1 ++ l2) w = execute limits l2 (execute limits l1 w).
Proof. apply foldl_app. Qed.

Lemma execution_ok (policy : P) quota (l : list occurrence) :
  world_ok policy quota limits (execute limits l (start policy quota)).
Proof. apply execute_ok, start_ok. Qed.

Lemma registered_greeted (ph : phase) id : registered ph = Some id -> greeted ph = Some id.
Proof. by destruct ph. Qed.

Lemma run_conns (policy : P) quota (l : list occurrence) :
  t_conn <$> w_threads (execute limits l (start policy quota)) = accepted l.
Proof. by rewrite execute_conns. Qed.

(** Over distinct connections a thread is known by its connection. *)
Lemma conn_thread (policy : P) quota (l : list occurrence) i j (t u : thread) :
  NoDup (accepted l) ->
  let w := execute limits l (start policy quota) in
  w_threads w !! i = Some t -> w_threads w !! j = Some u -> t_conn t = t_conn u -> i = j.
Proof.
  intros Hl w Hi Hj Hc. rewrite <- (run_conns policy quota l) in Hl. fold w in Hl.
  eapply NoDup_lookup; [exact Hl|..]; rewrite list_lookup_fmap; [by rewrite Hi|]. by rewrite Hj, Hc.
Qed.

Lemma accepted_app (l1 l2 : list occurrence) : accepted (l1 ++ l2) = accepted l1 ++ accepted l2.
Proof. apply omap_app. Qed.

Lemma serves_ordered (policy : P) quota (l1 l2 : list occurrence) id id' c :
  NoDup (accepted (l1 ++ l2)) ->
  w_sessions (execute limits l1 (start policy quota)) !! id = Some c ->
  w_sessions (execute limits (l1 ++ l2) (start policy quota)) !! id' = Some c -> id = id'.
Proof.
  intros Hl H1 H2. apply (wo_sessions _ _ _ _ (execution_ok policy quota l1)) in H1 as (i & t & Hi & Hr & <-).
  apply (wo_sessions _ _ _ _ (execution_ok policy quota (l1 ++ l2))) in H2 as (j & u & Hj & Hr' & Hc).
  apply registered_greeted in Hr, Hr'.
  destruct (of_peer_execute l2 _ i t id Hi (or_introl Hr)) as (t' & Hi' & Hc' & Hp).
  rewrite <- execute_app in Hi'.
  rewrite (conn_thread policy quota _ i j t' u Hl Hi' Hj (eq_trans Hc' (eq_sym Hc))) in Hi'. simplify_eq.
  destruct Hp as [Hp|Hp]; [congruence|]. by destruct (t_phase u).
Qed.

(** A connection serves one peer in its life. *)
Lemma serves_unique (policy : P) quota (l : list occurrence) id id' c :
  NoDup (accepted l) -> serves policy quota l id c -> serves policy quota l id' c -> id = id'.
Proof.
  intros Hl (l1 & l1' & -> & H1) (l2 & l2' & Heq & H2).
  apply app_eq_inv in Heq as [(k & -> & ->)|(k & -> & ->)].
  - symmetry. eapply serves_ordered; [|exact H2|exact H1]. rewrite accepted_app in Hl. by apply NoDup_app in Hl as [? _].
  - eapply serves_ordered; [|exact H1|exact H2]. rewrite app_assoc, accepted_app in Hl.
    by apply NoDup_app in Hl as [? _].
Qed.

(** ** The steps of a source *)

Lemma source_idle src a (w : World) :
  takes src a = false -> dispatching src (step limits a w) = dispatching src w.
Proof.
  intros Ht. destruct src as [i|], a as [conn proc peer|j env|env]; try done; cbn [dispatching].
  - cbn. destruct (decide (i < length (w_threads w))%nat) as [Hi|Hi]; [by rewrite lookup_app_l|].
    rewrite lookup_app_r by lia. rewrite (lookup_ge_None_2 (w_threads w) i) by lia.
    by destruct (i - length (w_threads w))%nat.
  - cbn in Ht. apply bool_decide_eq_false in Ht. cbn. destruct (w_threads w !! j) as [t|] eqn:Hj; [|done].
    destruct (_ && _); [done|]. destruct (thread_step _ _ _ _ _ _ _) as [[[ph' b'] s'] sent]. cbn.
    by rewrite list_lookup_insert_ne.
  - by rewrite schedule_threads.
  - cbn. destruct (w_threads w !! j) as [t|]; [|done]. destruct (_ && _); [done|].
    by destruct (thread_step _ _ _ _ _ _ _) as [[[ph' b'] s'] sent].
Qed.

Lemma source_begins src a (w : World) :
  dispatching src w = None -> begins (dispatching src (step limits a w)) (step_command limits a w) (w_broker w).
Proof.
  intros Hn. destruct (takes src a) eqn:Ht; [|by rewrite source_idle, Hn].
  destruct src as [i|], a as [conn proc peer|j env|env]; try done; cbn in Hn |- *.
  - apply bool_decide_eq_true in Ht as <-. destruct (w_threads w !! i) as [t|] eqn:Hi; [|by rewrite Hi].
    cbn in Hn |- *. destruct (_ && _); [by rewrite Hi; cbn; rewrite Hn|].
    destruct (thread_step _ _ _ _ _ _ _) as [[[ph' b'] s'] sent] eqn:Es. cbn.
    rewrite list_lookup_insert_eq by by eapply lookup_lt_Some.
    exact (proj2 (thread_step_command _ _ _ _ _ _ _ _ _ _ _ Es) Hn).
  - destruct (w_scheduler w) as [[d m]|] eqn:Esc; [done|]. destruct (broker_held w); [by rewrite Esc|].
    destruct (tick _ _) as [[] b'] eqn:Et; try done. cbn. eexists. split; [done|]. cbn. by rewrite Et.
Qed.

Lemma source_dispatches src a (w : World) d :
  takes src a = true -> dispatching src w = Some d ->
  exists env r sent, dispatch_step limits (w_sessions w) d env = (r, sent) /\
    w_sent (step limits a w) = log sent (w_sent w) /\
    dispatching src (step limits a w) = match r with inl d' => Some d' | inr _ => None end.
Proof.
  intros Ht Hd. destruct src as [i|], a as [conn proc peer|j env|env]; try done; cbn in Hd; exists env.
  - apply bool_decide_eq_true in Ht as <-. cbn. destruct (w_threads w !! i) as [t|] eqn:Hi; [|done].
    cbn in Hd. destruct (dispatch_step limits (w_sessions w) d env) as [r sent] eqn:Es. exists r, sent. split; [done|].
    assert (i < length (w_threads w))%nat as Hlt by by eapply lookup_lt_Some.
    destruct (t_phase t); cbn in Hd; simplify_eq; cbn; rewrite Es;
      destruct r as [d'|[[]|e|]]; cbn; rewrite ?list_lookup_insert_eq by done; by split.
  - cbn. destruct (w_scheduler w) as [[d' m]|] eqn:Esc; cbn in Hd; simplify_eq.
    destruct (dispatch_step limits (w_sessions w) d env) as [r sent] eqn:Es. exists r, sent. split; [done|].
    split; [done|]. by destruct r.
Qed.

(** One step of the daemon, for one source and one connection. *)
Lemma step_order src a (w : World) id c :
  (forall i j c, w_sessions w !! i = Some c -> w_sessions w !! j = Some c -> i = j) ->
  (forall i, w_sessions w !! i = Some c -> i = id) -> outputs_distinct (dispatching src w) ->
  sublist (sent_to c (dispatched src [a] w) ++ outstanding id c (dispatching src (step limits a w)))
    (outstanding id c (dispatching src w) ++ addressed_to id (published_by src [a] w)) /\
  outputs_distinct (dispatching src (step limits a w)).
Proof.
  intros Hinj Hid Hd. cbn [dispatched published_by]. rewrite !app_nil_r.
  destruct (dispatching src w) as [d|] eqn:Ed.
  - cbn [outstanding]. rewrite app_nil_r. destruct (takes src a) eqn:Et.
    + destruct (source_dispatches src a w d Et Ed) as (env & r & sent & Es & Hs & ->).
      rewrite bool_decide_eq_true_2 by done. cbn [andb]. rewrite Hs.
      destruct (dispatch_step_order _ _ _ _ _ id c Hinj Hid Hd Es) as [Hsub Hd']. split; [|done].
      replace (drop (length (w_sent w)) (log sent (w_sent w))) with (log sent []); [exact Hsub|].
      destruct sent; cbn; [by rewrite drop_app_length|by rewrite drop_all].
    + by rewrite source_idle, Ed.
  - rewrite bool_decide_eq_false_2, andb_false_r by by intros []. cbn [sent_to filter fmap].
    pose proof (source_begins src a w Ed) as Hb.
    destruct (dispatching src (step limits a w)) as [[events|]|]; done.
Qed.

Lemma sent_to_app c (sent sent' : list (Conn * bytes)) : sent_to c (sent ++ sent') = sent_to c sent ++ sent_to c sent'.
Proof. unfold sent_to. by rewrite filter_app, fmap_app. Qed.

Lemma addressed_app id events events' :
  addressed_to id (events ++ events') = addressed_to id events ++ addressed_to id events'.
Proof. apply omap_app. Qed.

Lemma dispatched_cons src a l (w : World) :
  dispatched src (a :: l) w = dispatched src [a] w ++ dispatched src l (step limits a w).
Proof. cbn [dispatched]. by rewrite app_nil_r. Qed.

Lemma published_cons src a l (w : World) :
  published_by src (a :: l) w = published_by src [a] w ++ published_by src l (step limits a w).
Proof. cbn [published_by]. by rewrite app_nil_r. Qed.

Lemma published_app src l1 l2 (w : World) :
  published_by src (l1 ++ l2) w = published_by src l1 w ++ published_by src l2 (execute limits l1 w).
Proof.
  revert w. induction l1 as [|a l1 IH]; intros w; [done|]. cbn [app]. rewrite published_cons, IH.
  by rewrite (published_cons src a l1), <- app_assoc.
Qed.

(** The connections of the session table are those of different threads. *)
Lemma sessions_injective (policy : P) quota (l : list occurrence) :
  NoDup (accepted l) ->
  forall i j c, w_sessions (execute limits l (start policy quota)) !! i = Some c ->
    w_sessions (execute limits l (start policy quota)) !! j = Some c -> i = j.
Proof.
  intros Hl i j c Hi Hj. apply (serves_unique policy quota l i j c Hl); exists l, []; by rewrite app_nil_r.
Qed.

(** What a source publishes in one step is what a command of the broker returned. *)
Lemma published_command src a (w : World) :
  published_by src [a] w = [] \/
  exists c, step_command limits a w = Some c /\ (apply c (w_broker w)).1 = Ok (published_by src [a] w).
Proof.
  cbn [published_by]. rewrite app_nil_r. destruct (dispatching src w) as [d|] eqn:Ed; [by left|].
  pose proof (source_begins src a w Ed) as Hb.
  destruct (dispatching src (step limits a w)) as [[events|]|]; [by right|by left..].
Qed.

(** Any run, from any state of the daemon. *)
Lemma run_order (policy : P) quota src (before l : list occurrence) id c :
  NoDup (accepted (before ++ l)) -> (forall i, serves policy quota (before ++ l) i c -> i = id) ->
  let w := execute limits before (start policy quota) in
  outputs_distinct (dispatching src w) ->
  sublist (sent_to c (dispatched src l w))
    (outstanding id c (dispatching src w) ++ addressed_to id (published_by src l w)).
Proof.
  revert before. induction l as [|a l IH]; intros before Hl Hc w Hd; [apply sublist_nil_l|].
  assert (NoDup (accepted before)) as Hb by (rewrite accepted_app in Hl; by apply NoDup_app in Hl as [? _]).
  destruct (step_order src a w id c (sessions_injective policy quota before Hb)) as [Hs Hd']; [|done|].
  { intros i Hi. apply Hc. by exists before, (a :: l). }
  rewrite dispatched_cons, published_cons, sent_to_app, addressed_app.
  assert (execute limits (before ++ [a]) (start policy quota) = step limits a w) as Hw by by rewrite execute_app.
  specialize (IH (before ++ [a])). rewrite <- app_assoc in IH. cbn [app] in IH. rewrite Hw in IH.
  specialize (IH Hl Hc Hd'). etrans; [apply sublist_app; [reflexivity|exact IH]|].
  rewrite !app_assoc. by apply sublist_app.
Qed.

(** ** Every message is dispatched *)

Definition message_kind : byte := byte_of 6.

(** Outside its dispatches a thread sends no MESSAGE. *)
Lemma thread_step_message creds conn ph env (b b' : broker) (s s' : sessions) ph' c p :
  phase_ok limits ph -> thread_step limits creds conn ph env b s = (ph', b', s', Some (c, p)) ->
  packet_kind p = Some message_kind -> is_Some (phase_dispatch ph).
Proof.
  intros Hok Hs Hp.
  assert (forall f limits' (ok : phase) (failed : result io_error () -> phase) ph1,
    send_then conn (encoded f limits') env ok failed = (ph1, Some (c, p)) ->
    match f with Frame_Message _ => False | _ => True end -> False) as Hsend.
  { intros f limits' ok failed ph1 E Hf.
    apply send_then_sent in E as [(q & Hq%encoded_ok%encoded_kind & [= -> ->] & _)|[[=] _]]; [|apply encoded_total].
    rewrite Hq in Hp. by destruct f. }
  destruct ph as [|code msg session|msg|session|i|i|i f|i f|i d|i r|i r|d r|r|i r|];
    cbn [thread_step] in Hs; try exact (mk_is_Some _ _ eq_refl);
    try (destruct (send_then _ _ _ _ _) as [ph1 sent1] eqn:E; simplify_eq; exfalso;
         first [exact (Hsend _ _ _ _ _ E I)|exact (Hsend _ _ _ _ _ E Hok)]);
    repeat case_match; simplify_eq.
Qed.

Lemma step_sent_grows a (w : World) : exists k, w_sent (step limits a w) = w_sent w ++ k.
Proof.
  assert (forall sent : option (Conn * bytes), exists k, log sent (w_sent w) = w_sent w ++ k) as Hlog.
  { intros [q|]; [by exists [q]|]. exists []. by rewrite app_nil_r. }
  assert (exists k, w_sent w = w_sent w ++ k) as Hsame by (exists []; by rewrite app_nil_r).
  destruct a as [conn proc peer|i env|env]; cbn; [done| |].
  - destruct (w_threads w !! i) as [t|]; [|done]. destruct (_ && _); [done|].
    destruct (thread_step _ _ _ _ _ _ _) as [[[ph' b'] s'] sent]. apply Hlog.
  - destruct (w_scheduler w) as [[d m]|]; [destruct (dispatch_step _ _ _ _); apply Hlog|].
    destruct (broker_held w); [done|]. by destruct (tick _ _).
Qed.

(** What is new in a step in which a dispatch makes one is the dispatch's. *)
Lemma dispatched_new src a (w : World) q :
  takes src a = true -> is_Some (dispatching src w) -> q ∈ w_sent (step limits a w) ->
  q ∈ w_sent w \/ q ∈ dispatched src [a] w.
Proof.
  intros Ht Hd Hq. destruct (step_sent_grows a w) as [k Hk]. cbn [dispatched]. rewrite app_nil_r, Ht.
  rewrite bool_decide_eq_true_2 by done. cbn [andb]. rewrite Hk in *. rewrite drop_app_length. by apply elem_of_app.
Qed.

(** Every MESSAGE is sent by the dispatch of some source. *)
Lemma step_message a (w : World) c p policy quota :
  world_ok policy quota limits w -> packet_kind p = Some message_kind ->
  (c, p) ∈ w_sent (step limits a w) -> (c, p) ∈ w_sent w \/ exists src, (c, p) ∈ dispatched src [a] w.
Proof.
  intros Hok Hp Hin.
  assert ((c, p) ∈ w_sent w \/ exists src, takes src a = true /\ is_Some (dispatching src w)) as [?|(src & Ht & Hd)].
  { destruct a as [conn proc peer|i env|env]; [by left| |]; cbn in Hin.
    - destruct (w_threads w !! i) as [t|] eqn:Hi; [|by left]. destruct (_ && _); [by left|].
      destruct (thread_step _ _ _ _ _ _ _) as [[[ph' b'] s'] [[c' p']|]] eqn:Es; [|by left]. cbn in Hin.
      apply elem_of_app in Hin as [?|[= -> ->]%list_elem_of_singleton]; [by left|]. right. exists (Session i).
      split; [by apply bool_decide_eq_true_2|]. cbn. rewrite Hi.
      exact (thread_step_message _ _ _ _ _ _ _ _ _ _ _ (wo_phases _ _ _ _ Hok i t Hi) Es Hp).
    - destruct (w_scheduler w) as [[d m]|] eqn:Esc; [right; exists Scheduler; cbn; by rewrite Esc|].
      destruct (broker_held w); [by left|]. destruct (tick _ _). by left. }
  - by left.
  - destruct (dispatched_new src a w (c, p) Ht Hd Hin); eauto.
Qed.

Lemma run_message (policy : P) quota (before l : list occurrence) c p :
  let w := execute limits before (start policy quota) in
  packet_kind p = Some message_kind -> (c, p) ∈ w_sent (execute limits l w) ->
  (c, p) ∈ w_sent w \/ exists src, (c, p) ∈ dispatched src l w.
Proof.
  revert before. induction l as [|a l IH]; intros before w Hp Hin; [by left|].
  specialize (IH (before ++ [a])). rewrite execute_app in IH.
  change (execute limits [a] w) with (step limits a w) in IH. fold w in IH.
  destruct (IH Hp Hin) as [Hs|[src Hs]].
  - destruct (step_message a w c p policy quota (execution_ok policy quota before) Hp Hs) as [?|[src Hd]]; [by left|].
    right. exists src. rewrite dispatched_cons. apply elem_of_app. by left.
  - right. exists src. rewrite dispatched_cons. apply elem_of_app. by right.
Qed.

(** A dispatch sends nothing to a connection that serves nobody. *)
Lemma addressed_nobody id events :
  (forall e, e ∈ events -> id ∉ (outgoing e).1) -> addressed_to id events = [].
Proof.
  intros Hn. unfold addressed_to. induction events as [|e events IH]; [done|]. cbn.
  rewrite decide_False by (apply Hn; by left). apply IH. intros e' He'. apply Hn. by right.
Qed.

Lemma served_dec (policy : P) quota (l : list occurrence) c :
  (exists id, serves policy quota l id c) \/ forall id, ~ serves policy quota l id c.
Proof.
  induction l as [|a l IH] using rev_ind.
  - right. intros id ([|? l1] & l2 & Heq & Hs); [|done]. cbn in Hs. by rewrite lookup_empty in Hs.
  - destruct IH as [(id & l1 & l2 & -> & Hs)|IH]; [left; exists id, l1, (l2 ++ [a]); by rewrite app_assoc|].
    set (s := w_sessions (execute limits (l ++ [a]) (start policy quota))).
    destruct (decide (c ∈ (map_to_list s).*2)) as [Hin|Hn].
    + left. apply list_elem_of_fmap in Hin as ([id c'] & -> & Hin%elem_of_map_to_list).
      exists id, (l ++ [a]), []. by rewrite app_nil_r.
    + right. intros id (l1 & l2 & Heq & Hs). destruct l2 as [|a' l2 _] using rev_ind.
      * rewrite app_nil_r in Heq. subst l1. apply Hn, list_elem_of_fmap. exists (id, c).
        by rewrite elem_of_map_to_list.
      * rewrite app_assoc in Heq. apply app_inj_tail in Heq as [-> _]. apply (IH id). by exists l1, l2.
Qed.

Lemma start_order (policy : P) quota src (l : list occurrence) id c :
  NoDup (accepted l) -> (forall i, serves policy quota l i c -> i = id) ->
  sublist (sent_to c (dispatched src l (start policy quota)))
    (addressed_to id (published_by src l (start policy quota))).
Proof.
  intros Hl Hid. assert (dispatching src (start policy quota : World) = None) as Hs by by destruct src.
  pose proof (run_order policy quota src [] l id c Hl Hid) as Ho. unfold execute in Ho. cbn [foldl] in Ho.
  rewrite Hs in Ho. by apply Ho.
Qed.

Lemma dispatched_served (policy : P) quota src (l : list occurrence) c p :
  NoDup (accepted l) -> (c, p) ∈ dispatched src l (start policy quota) ->
  exists id, serves policy quota l id c.
Proof.
  intros Hl Hin. destruct (served_dec policy quota l c) as [?|Hnone]; [done|]. exfalso.
  set (ids := published_by src l (start policy quota) ≫= fun e => (outgoing e).1).
  set (id := PeerId_new (fresh (PeerId_get <$> ids))).
  assert (id ∉ ids) as Hid.
  { intros Hid. apply (infinite_is_fresh (PeerId_get <$> ids)), list_elem_of_fmap. by exists id. }
  pose proof (start_order policy quota src l id c Hl ltac:(intros i Hi; by destruct (Hnone i))) as Ho.
  rewrite addressed_nobody in Ho.
  2:{ intros e He Hr. apply Hid, list_elem_of_bind. by exists e. }
  apply sublist_nil_r in Ho.
  assert (p ∈ sent_to c (dispatched src l (start policy quota))) as Hp.
  { apply list_elem_of_fmap. exists (c, p). split; [done|]. by apply list_elem_of_filter. }
  rewrite Ho in Hp. by apply not_elem_of_nil in Hp.
Qed.

End run.

(** C10: messages reach those they are for, in order, and nobody else.  In any run
    over distinct connections, every MESSAGE is sent by the dispatch of a session
    or of the scheduler, to the connection of a peer the daemon was serving on it,
    one and the same for the connection's life.  What a source sends to that
    connection is the packets of the events it published whose recipients include
    the peer, in the order they were published, each at most once; and what it
    publishes in one step is what the broker returned to the command of that
    step. *)
Theorem delivery_order (policy : P) quota limits (l : list occurrence) :
  NoDup (accepted l) ->
  let w := start policy quota in
  (forall c p, (c, p) ∈ w_sent (execute limits l w) -> packet_kind p = Some message_kind ->
     exists src, (c, p) ∈ dispatched limits src l w) /\
  (forall src c p, (c, p) ∈ dispatched limits src l w -> exists id, serves limits policy quota l id c) /\
  (forall src id c, serves limits policy quota l id c ->
     (forall id', serves limits policy quota l id' c -> id' = id) /\
     sublist (sent_to c (dispatched limits src l w))
       (addressed_to limits id (published_by limits src l w))) /\
  (forall src l1 a l2, l = l1 ++ a :: l2 ->
     let w1 := execute limits l1 w in
     published_by limits src [a] w1 = [] \/
     exists c, step_command limits a w1 = Some c /\
       (apply c (w_broker w1)).1 = Ok (published_by limits src [a] w1)).
Proof.
  intros Hl w. split_and!.
  - intros c p Hin Hp. by destruct (run_message limits policy quota [] l c p Hp Hin) as [Hn%not_elem_of_nil|].
  - intros src c p. by apply dispatched_served.
  - intros src id c Hs. assert (forall id', serves limits policy quota l id' c -> id' = id) as Hid
      by (intros id' Hs'; by eapply serves_unique). split; [done|]. by apply start_order.
  - intros src l1 a l2 _ w1. apply published_command.
Qed.

End addressing.

(** In the run, the signal of the first session is the one packet its dispatches
    send to the connection of the second, which is among its recipients. *)
Lemma delivery_order_witness :
  serves FrameLimits_default allow_all Limits_default demo_run (PeerId_new 2) 11%nat /\
  sent_to 11%nat (dispatched FrameLimits_default (Session 0) demo_run (start allow_all Limits_default)) =
    [packet_of (Frame_Message (attest (PeerId_new 1) demo_signal))] /\
  sublist
    (sent_to 11%nat (dispatched FrameLimits_default (Session 0) demo_run (start allow_all Limits_default)))
    (addressed_to FrameLimits_default (PeerId_new 2)
       (published_by FrameLimits_default (Session 0) demo_run (start allow_all Limits_default))).
Proof.
  assert (NoDup (accepted demo_run)) as Hnd
    by (repeat constructor; rewrite ?list_elem_of_singleton; [done|apply not_elem_of_nil]).
  assert (serves FrameLimits_default allow_all Limits_default demo_run (PeerId_new 2) 11%nat) as Hs.
  { exists demo_run, []. split; [reflexivity|]. vm_compute. reflexivity. }
  split; [exact Hs|]. split; [vm_compute; reflexivity|].
  exact (proj2 (proj1 (proj2 (proj2 (delivery_order allow_all Limits_default FrameLimits_default demo_run Hnd)))
    (Session 0) (PeerId_new 2) 11%nat Hs)).
Defined.
