(* ===== verification/Provenance.v ===== *)
(** * Where messages come from

    Every message the daemon sends was received from a connected client that the
    policy allowed to send it, and is forwarded unchanged but for the name of its
    sender. *)

From S2P Require Export Addressing.

Local Open Scope N_scope.

(** ** The broker: what it keeps and hands out has been admitted *)

Section broker.
Context {P : Type} `{Policy P}.

Local Abbreviation broker := (Broker P).

(** The messages admitted so far, each with its sender. *)
Variable origin : PeerId -> Message -> Prop.

Definition sourced_delivery (p : PendingDelivery) : Prop :=
  (exists m, pd_message p = Frame_Message m /\ origin (pd_sender p) m) /\
  map_Forall (fun responder f => exists m, f = Frame_Message m /\ origin responder m) (pd_responses p).

Definition sourced (b : broker) : Prop := map_Forall (fun _ => sourced_delivery) (b_deliveries b).

(** A message handed out under the name of [sender]: its own, or, when it answers
    a request, that of another recipient of the request, which [sender] has
    answered too. *)
Definition genuine (sender : PeerId) (m : Message) : Prop :=
  origin sender m \/
  m_kind m = MessageKind_Response /\ exists author answer,
    origin author m /\ origin sender answer /\ m_kind answer = MessageKind_Response /\
    m_correlation_id answer = m_correlation_id m.

Definition genuine_event (e : DeliveryEvent) : Prop :=
  match e with
  | DeliveryEvent_Deliver sender _ f => exists m, f = Frame_Message m /\ genuine sender m
  | DeliveryEvent_Result _ _ _ => True
  end.

(** Deliveries that keep their message, sender and responses. *)
Lemma sourced_kept (b b' : broker) :
  (forall id p', b_deliveries b' !! id = Some p' -> exists p, b_deliveries b !! id = Some p /\
     pd_sender p' = pd_sender p /\ pd_message p' = pd_message p /\ pd_responses p' = pd_responses p) ->
  sourced b -> sourced b'.
Proof.
  intros Hk Hs id p' Hp'. destruct (Hk id p' Hp') as (p & Hp & H1 & H2 & H3).
  unfold sourced_delivery. rewrite H1, H2, H3. exact (Hs id p Hp).
Qed.

Lemma sourced_same (b b' : broker) : b_deliveries b' = b_deliveries b -> sourced b -> sourced b'.
Proof. unfold sourced. by intros ->. Qed.

Lemma begin_sourced sender m now_ms events (b b' : broker) :
  begin_step sender m now_ms b events b' -> origin sender m -> sourced b ->
  sourced b' /\ Forall genuine_event events.
Proof.
  intros Hstep Ho Hs.
  assert (forall recipients, Forall genuine_event (delivery_events sender m recipients)) as Hd.
  { intros recipients. constructor; [exists m; split; [done|by left]|].
    case_bool_decide; [by constructor|constructor]. }
  assert (Forall genuine_event (no_recipient_result sender m)) as Hn by by apply Forall_singleton.
  destruct Hstep; (split; [|first [exact Hn|apply Hd]]); try done;
    try (eapply sourced_same; [apply counted_deliveries|done]).
  intros id p Hp. cbn [b_deliveries set_deliveries] in Hp. apply lookup_insert_Some in Hp as [[<- <-]|[_ Hp]].
  - split; [by exists m|]. cbn. intros r f Hf. by rewrite lookup_empty in Hf.
  - rewrite counted_deliveries in Hp. exact (Hs id p Hp).
Qed.

Lemma response_sourced sender m events (b b' : broker) :
  broker_ok b -> no_reserved (m_headers m) -> m_kind m = MessageKind_Response -> wf_message m ->
  response_step sender m b events b' -> origin sender m -> sourced b ->
  sourced b' /\ Forall genuine_event events.
Proof.
  intros Hb Hh Hk Hwf Hstep Ho Hs. destruct Hstep as [p request responses completed Ha].
  pose proof (Hs _ p (answers_pending _ _ _ _ _ Ha)) as [Hm Hr].
  assert (map_Forall (fun responder f => exists m, f = Frame_Message m /\ origin responder m) responses) as Hrs.
  { apply map_Forall_insert_2; [by exists m|exact Hr]. }
  split.
  - intros id q Hq. cbn [b_deliveries set_deliveries] in Hq. destruct completed.
    + apply lookup_delete_Some in Hq as [_ Hq]. exact (Hs id q Hq).
    + apply lookup_insert_Some in Hq as [[<- <-]|[_ Hq]]; [|exact (Hs id q Hq)]. by split.
  - destruct (response_forward _ _ _ _ _) as [f|] eqn:Ef; [|constructor]. apply Forall_singleton. cbn.
    pose proof (forwarded_ok sender m p request completed f b Hb Hh Hk Hwf Ha Ef) as (m' & -> & _ & Hk' & Hc & _).
    exists m'. split; [done|]. unfold response_forward in Ef.
    assert (genuine sender m) as Hg by by left.
    destruct (m_request_policy request); try (by injection Ef as <-).
    destruct (bool_decide _); [by injection Ef as <-|]. destruct completed; [|done].
    assert (Frame_Message m' ∈ bt_values responses) as Hin.
    { fold responses in Ef. destruct (bt_values responses); [done|]. injection Ef as ->. left. }
    apply elem_of_bt_values in Hin as (author & Hin). apply Hrs in Hin as (? & [= <-] & Hauthor).
    right. split; [done|]. by exists author, m.
Qed.

Lemma ack_sourced peer id policy events (b b' : broker) :
  ack_step peer id policy b events b' -> sourced b -> sourced b' /\ Forall genuine_event events.
Proof.
  intros Hstep Hs. destruct Hstep as [p m acks complete _ [Hp Hm Hin Hsat]].
  split; [|destruct complete; repeat constructor].
  eapply sourced_kept; [|exact Hs]. intros i q Hq.
  cbn [b_deliveries observe set_monitor set_deliveries] in Hq. destruct (complete && negb _).
  - apply lookup_delete_Some in Hq as [_ Hq]. by exists q.
  - apply lookup_insert_Some in Hq as [[<- <-]|[_ Hq]]; [by exists p|by exists q].
Qed.

Lemma tick_sourced now_ms (b b' : broker) events :
  broker_ok b -> apply (Command_Tick now_ms) b = (Ok events, b') -> sourced b ->
  sourced b' /\ Forall genuine_event events.
Proof.
  intros Hb Hr Hs. cbn [apply] in Hr. rewrite tick_effect in Hr by by apply broker_attempts_fit. simplify_eq. split.
  - eapply sourced_kept; [|exact Hs]. intros id q. rewrite tick_deliveries, lookup_omap.
    intros (p & Hp & Hq)%bind_Some. exists p. split; [done|]. unfold after_tick, tick_decision in Hq.
    repeat case_match; simplify_eq; done.
  - apply Forall_app. split.
    + apply Forall_concat, Forall_fmap, Forall_forall. intros [i p] _. unfold tick_result. cbn.
      destruct (tick_decision _ _); repeat constructor.
    + apply Forall_fmap, Forall_forall. intros x Hx. rewrite sort_by_perm in Hx.
      apply list_elem_of_In, in_concat in Hx as (l & Hl & Hx).
      apply list_elem_of_In, list_elem_of_fmap in Hl as ([i p] & -> & Hp). apply list_elem_of_In in Hx.
      apply elem_of_bt_entries in Hp. destruct (Hs i p Hp) as [(m & Hm & Ho) _].
      unfold tick_retries in Hx. cbn [snd] in Hx. destruct (tick_decision _ _); try (by apply not_elem_of_nil in Hx).
      apply list_elem_of_singleton in Hx as ->. exists m. split; [exact Hm|by left].
Qed.

(** One command: what it admits must be in [origin]. *)
Lemma apply_sourced c (b b' : broker) r :
  broker_ok b -> proper_command c -> apply c b = (r, b') -> sourced b ->
  (forall s m now_ms, c = Command_BeginDelivery s (Frame_Message m) now_ms -> is_ok r = true -> origin s m) ->
  sourced b' /\ Forall genuine_event (events_of r).
Proof.
  intros Hb Hc Hr Hs Ho.
  assert (forall x : broker, b_deliveries x = b_deliveries b -> forall l, l = [] ->
    sourced x /\ Forall genuine_event l) as Hsame
    by (intros x Hx l ->; split; [by eapply sourced_same|constructor]).
  destruct c as [creds hello|peer|peer n|peer ch fs|peer ch|peer n|s f t|peer i policy'|t|].
  - run_apply Hr; apply connect_session_effect in E; [|by subst; apply Hsame|done].
    destruct E as (-> & _). by apply Hsame.
  - apply disconnect_with_events_effect in Hr. destruct r; [|by destruct Hr as [-> _]; apply Hsame|done].
    destruct Hr as (_ & -> & ->). split.
    + eapply sourced_kept; [|exact Hs]. intros id q Hq. exists q. split; [|done].
      cbn [b_deliveries disconnected set_deliveries] in Hq. by apply map_lookup_filter_Some in Hq as [Hq _].
    + apply Forall_fmap, Forall_forall. by intros.
  - run_apply Hr; apply claim_effect in E; [|by destruct E as [-> _]; apply Hsame|done].
    destruct E as (-> & _). by apply Hsame.
  - run_apply Hr; apply subscribe_effect in E; [|by destruct E as [-> _]; apply Hsame|done].
    destruct E as (-> & _). by apply Hsame.
  - run_apply Hr; apply unsubscribe_effect in E; [|by destruct E as [-> _]; apply Hsame|done].
    destruct E as (-> & _). by apply Hsame.
  - run_apply Hr; apply register_dbus_name_effect in E; [|by destruct E as [-> _]; apply Hsame|done].
    destruct E as (-> & _). by apply Hsame.
  - destruct f as [| | | | |m| | | | | |]; try (cbn in Hr; cbv [fail] in Hr; simplify_eq; by apply Hsame).
    destruct (decide (m_kind m = MessageKind_Response)) as [Hk|Hk].
    + apply begin_response_effect in Hr; [|done]. destruct r; [|by subst; apply Hsame|done].
      destruct Hr as (Hstep & Hh & _), Hc as (? & ? & _).
      by eapply (response_sourced s m); [..|by eapply Ho|done].
    + apply begin_delivery_effect in Hr; [|done].
      destruct r; [by eapply begin_sourced; [exact Hr|by eapply Ho|done]| |done].
      destruct Hr as [->|(l & _ & -> & _)]; apply Hsame; try done. apply counted_deliveries.
  - apply acknowledge_effect in Hr. destruct r; [|by destruct Hr as [-> _]; apply Hsame|done].
    by eapply ack_sourced.
  - pose proof (tick_effect t b (broker_attempts_fit b Hb)) as Et. cbn [apply] in Hr. rewrite Et in Hr.
    simplify_eq. eapply tick_sourced; [done| |done]. cbn [apply]. by rewrite Et.
  - cbn in Hr. cbv [mbind St_bind get_state modify mret St_ret drain_events] in Hr. cbn in Hr.
    simplify_eq. by apply Hsame.
Qed.

(** What a message of a destination needs, if it is not an answer. *)
Definition may_send (b : broker) (sender : PeerId) (m : Message) : Prop :=
  m_kind m <> MessageKind_Response ->
  forall act, destination_action (m_destination m) = Some act -> permitted b sender act.

Lemma begin_may_send sender m now_ms (b : broker) :
  is_ok (begin_delivery sender (Frame_Message m) now_ms b).1 = true -> may_send b sender m.
Proof.
  intros Hok Hk act Hact.
  destruct (begin_delivery sender (Frame_Message m) now_ms b) as [[events|e|] b'] eqn:E; [|done..].
  pose proof (authorize_cases b sender act) as Ha.
  destruct (authorize b sender act) as [u|e|] eqn:Ea; [done| |done]. destruct Ha as [Hn _].
  destruct (route_denied b sender _ (m_headers m) act Hact Hn) as (e' & He & Hne).
  apply begin_delivery_effect in E; [|done]. apply begin_routed in E as [E|[l E]]; congruence.
Qed.

Lemma begin_unreserved sender m now_ms (b : broker) :
  is_ok (begin_delivery sender (Frame_Message m) now_ms b).1 = true -> no_reserved (m_headers m).
Proof.
  intros Hok. destruct (begin_delivery sender (Frame_Message m) now_ms b) as [[events|e|] b'] eqn:E; [|done..].
  destruct (decide (m_kind m = MessageKind_Response)) as [Hk|Hk].
  - apply begin_response_effect in E; [|done]. by destruct E as (_ & ? & _).
  - apply begin_delivery_effect in E; [|done].
    assert (admitted sender m b) as Ha by by destruct E. apply Ha.
Qed.

End broker.

(** ** The daemon *)

Section daemon.
Context {P : Type} `{Policy P} {Conn : Type} `{EqDecision Conn}.

Local Abbreviation World := (World (P := P) (Conn := Conn)).
Local Abbreviation occurrence := (occurrence (Conn := Conn)).

Section run.
Variables (policy : P) (quota : Limits) (limits : FrameLimits) (l : list occurrence).

(** At some point of the run, the thread serving [sender] received [m] on its
    connection, with no broker-owned header, [sender] being known to the broker
    under the credentials attested for that connection and allowed to send it. *)
Definition received_from (sender : PeerId) (m : Message) : Prop :=
  exists l1 i env l2 t, l = l1 ++ Run i env :: l2 /\
    let w := execute limits l1 (start policy quota) in
    w_threads w !! i = Some t /\ t_phase t = Phase_receive sender /\
    received_frame limits env = Some (Frame_Message m) /\ no_reserved (m_headers m) /\
    may_send (w_broker w) sender m /\
    exists p, b_peers (w_broker w) !! sender = Some p /\ peer_credentials p = t_credentials t.

Lemma command_received (l1 l2 : list occurrence) a sender m now_ms :
  l = l1 ++ a :: l2 ->
  let w := execute limits l1 (start policy quota) in
  step_command limits a w = Some (Command_BeginDelivery sender (Frame_Message m) now_ms) ->
  is_ok (apply (Command_BeginDelivery sender (Frame_Message m) now_ms) (w_broker w)).1 = true ->
  received_from sender m.
Proof.
  intros Hl w Hc Hok. destruct a as [conn proc peer|i env|env]; cbn in Hc; [done| |by case_match].
  destruct (w_threads w !! i) as [t|] eqn:Hi; [|done]. cbn in Hc. destruct (_ && _); [done|].
  exists l1, i, env, l2, t. split; [done|]. cbn zeta. fold w. split; [done|].
  assert (t_phase t = Phase_receive sender /\ received_frame limits env = Some (Frame_Message m)) as [Hp Hr].
  { unfold thread_command in Hc. destruct (t_phase t), (received_frame limits env) as [f|]; try done;
      destruct f; try done; cbn in Hc; repeat case_match; by simplify_eq. }
  split; [done|]. split; [done|]. split; [by eapply begin_unreserved|]. split; [by eapply begin_may_send|].
  pose proof (execution_ok limits policy quota l1) as Hw. apply (wo_peers _ _ _ _ Hw i t sender Hi). by rewrite Hp.
Qed.

Lemma run_sourced (l1 l2 : list occurrence) :
  l = l1 ++ l2 -> sourced received_from (w_broker (execute limits l1 (start policy quota))) /\
  forall src, Forall (genuine_event received_from) (published_by limits src l1 (start policy quota)).
Proof.
  revert l2. induction l1 as [|a l1 IH] using rev_ind; intros l2 Hl.
  { split; [|by constructor]. intros id p Hp. cbn in Hp. by rewrite lookup_empty in Hp. }
  rewrite <- app_assoc in Hl. cbn in Hl. destruct (IH _ Hl) as [Hs Hg]. clear IH.
  set (w := execute limits l1 (start policy quota)) in *.
  pose proof (execution_ok limits policy quota l1) as Hw. fold w in Hw.
  assert (forall c, step_command limits a w = Some c ->
    sourced received_from (apply c (w_broker w)).2 /\
    Forall (genuine_event received_from) (events_of (apply c (w_broker w)).1)) as Hcmd.
  { intros c Hc. destruct (apply c (w_broker w)) as [r b'] eqn:Er.
    eapply apply_sourced; [by eapply reachable_ok, wo_broker|by eapply step_command_proper|exact Er|exact Hs|].
    intros s m now_ms -> Hok. eapply command_received; [exact Hl|exact Hc|]. fold w. by rewrite Er. }
  rewrite execute_app. fold w. change (execute limits [a] w) with (step limits a w). split.
  - rewrite step_commanded. destruct (step_command limits a w) as [c|]; [by apply Hcmd|done].
  - intros src. rewrite published_app. apply Forall_app. split; [by apply Hg|]. fold w.
    destruct (published_command limits src a w) as [->|(c & Hc & He)]; [constructor|].
    destruct (Hcmd c Hc) as [_ Hf]. by rewrite He in Hf.
Qed.

Lemma genuine_wf sender m :
  genuine received_from sender m ->
  PeerId_get sender <= u64_max /\ wf_message m /\ no_reserved (m_headers m).
Proof.
  assert (forall s n, received_from s n ->
    PeerId_get s <= u64_max /\ wf_message n /\ no_reserved (m_headers n)) as Ho.
  { intros s n (l1 & i & env & l2 & t & _ & _ & _ & Hr & Hno & _ & p & Hp & _).
    pose proof (reachable_ok _ _ _ (wo_broker _ _ _ _ (execution_ok limits policy quota l1))) as Hb. split; [|split; [|done]].
    - destruct (ok_peers _ Hb s p Hp) as (_ & _ & Hlt). pose proof (ok_next _ Hb). lia.
    - apply received_decoded in Hr as (packet & _ & Hd). by apply decode_ok_stands_for, stands_for_wf in Hd. }
  intros [Hg|(_ & author & answer & Ha & Hs & _)]; [by apply Ho|].
  split; [by apply (Ho sender answer)|by apply (Ho author m)].
Qed.

End run.

(** C5: nothing is said in anybody's name.  In any run over distinct connections,
    every MESSAGE the daemon sends stands for a message it received itself:
    the packet is that message, complete and unchanged but for broker.sender, the
    one broker-owned header it has, and went to a connection that serves a peer.  The message was received by the
    thread of the peer named as the sender, connected under the credentials
    attested for that connection, and, unless it is a response, the policy
    allowed that peer to send it to its destination.  Only a response can bear
    another name than its author's: that of another recipient of the same
    request that has answered it too. *)
Theorem messages_authentic (policy : P) quota limits (l : list occurrence) c packet m :
  NoDup (accepted l) ->
  (c, packet) ∈ w_sent (execute limits l (start policy quota)) ->
  decode_with_limits packet limits = Ok (Frame_Message m) ->
  exists sender m0 id, m = attest sender m0 /\
    genuine (received_from policy quota limits l) sender m0 /\ no_reserved (m_headers m0) /\
    serves limits policy quota l id c.
Proof.
  intros Hl Hin Hd. pose proof (decode_ok_stands_for _ _ _ Hd) as Hst.
  assert (packet_kind packet = Some message_kind) as Hk.
  { apply (encode_kind (Frame_Message m) limits), decode_stands_for; [done|by eapply stands_for_wf]. }
  destruct (run_message limits policy quota [] l c packet Hk Hin) as [Hn|[src Hdis]];
    [by apply not_elem_of_nil in Hn|]. change (execute limits [] (start policy quota)) with (start policy quota : World) in Hdis.
  destruct (dispatched_served _ _ _ _ _ _ _ Hl Hdis) as [id Hserves].
  pose proof (start_order limits policy quota src l id c Hl
    (fun i Hi => serves_unique limits policy quota l i id c Hl Hi Hserves)) as Ho.
  assert (packet ∈ addressed_to limits id (published_by limits src l (start policy quota))) as Hp.
  { eapply elem_of_submseteq; [|exact (sublist_submseteq _ _ Ho)]. apply list_elem_of_fmap. exists (c, packet). split; [done|].
    by apply list_elem_of_filter. }
  apply list_elem_of_omap in Hp as (e & He & Hp). destruct (decide (id ∈ (outgoing e).1)); [|done].
  destruct (encode_with_limits (outgoing e).2 limits) as [q| |] eqn:Ee; [|done..]. injection Hp as ->.
  pose proof (proj2 (run_sourced policy quota limits l l [] ltac:(by rewrite app_nil_r)) src) as Hg.
  rewrite Forall_forall in Hg. specialize (Hg e He). destruct e as [s rs f|s i o]; cbn [outgoing snd] in Ee.
  - destruct Hg as (m0 & -> & Hg). destruct (genuine_wf _ _ _ _ _ _ Hg) as (Hs & Hwf & Hno).
    exists s, m0, id. split; [|done]. apply encode_stands_for in Ee; [|by apply attest_wf].
    apply stands_for_decode in Ee. rewrite Hd in Ee. by injection Ee.
  - apply encode_kind in Ee. unfold packet_kind in Hk. rewrite Hk in Ee. by vm_compute in Ee.
Qed.

End daemon.

(** The signal the second connection of the run gets. *)
Lemma messages_authentic_witness :
  exists sender m0 id, attest (PeerId_new 1) demo_signal = attest sender m0 /\
    genuine (received_from allow_all Limits_default FrameLimits_default demo_run) sender m0 /\
    no_reserved (m_headers m0) /\ serves FrameLimits_default allow_all Limits_default demo_run id 11%nat.
Proof.
  assert (NoDup (accepted demo_run)) as Hnd
    by (repeat constructor; rewrite ?list_elem_of_singleton; [done|apply not_elem_of_nil]).
  apply (messages_authentic allow_all Limits_default FrameLimits_default demo_run 11%nat
    (packet_of (Frame_Message (attest (PeerId_new 1) demo_signal)))); [exact Hnd| |vm_compute; reflexivity].
  vm_compute. do 3 right. left.
Defined.
