(* ===== verification/CommandLineFacts.v ===== *)
(** * What the daemon's command line accepts

    A grammar of the options of [busd daemon], that the parser accepts exactly
    its sentences with the configuration they mean, and what every accepted
    configuration guarantees. *)

From S2P Require Export Daemon.

Local Open Scope N_scope.

(** ** Numbers *)

(** A decimal numeral and the number it stands for. *)
Inductive decimal : bytes -> N -> Prop :=
| decimal_digit b d : d < 10 -> byte_val b = 48 + d -> decimal [b] d
| decimal_more s n b d :
    decimal s n -> d < 10 -> byte_val b = 48 + d -> decimal (s ++ [b]) (10 * n + d).

(** A positive number of the machine's word size, perhaps with a plus sign. *)
Definition positive (n : N) : Prop := 1 <= n <= usize_max.
Definition positive_number (value : bytes) (n : N) : Prop :=
  positive n /\ (decimal value n \/ exists digits, value = bs "+" ++ digits /\ decimal digits n).

Lemma digit_value_iff b d : digit_value b = Some d <-> d < 10 /\ byte_val b = 48 + d.
Proof. unfold digit_value. destruct b; vm_compute is_ascii_digit; vm_compute byte_val; cbn;
  (split; [intros [= <-]; lia|intros []; try lia; f_equal; lia]). Qed.

Lemma parse_digits_app maximum acc s t :
  parse_digits maximum acc (s ++ t) =
  (v ← parse_digits maximum acc s; parse_digits maximum v t).
Proof.
  revert acc. induction s as [|b s IH]; intros acc; [done|]. cbn [app parse_digits].
  destruct (digit_value b) as [d|]; [|done]. cbn [mbind option_bind].
  destruct (maximum <? acc * 10); [done|]. by destruct (checked_add _ _ _); cbn.
Qed.

Lemma parse_digits_one maximum acc b n :
  parse_digits maximum acc [b] = Some n <->
  exists d, d < 10 /\ byte_val b = 48 + d /\ n = 10 * acc + d /\ n <= maximum.
Proof.
  cbn [parse_digits]. destruct (digit_value b) as [d|] eqn:E; cbn [mbind option_bind].
  - apply digit_value_iff in E as Hd. unfold checked_add.
    destruct (N.ltb_spec maximum (acc * 10)); [split; [done|]; intros (? & ? & ? & ? & ?); lia|].
    destruct (decide _); cbn; split.
    + intros [= <-]. exists d. split_and!; try tauto; lia.
    + intros (d' & ? & ? & -> & ?). f_equal. lia.
    + done.
    + intros (d' & ? & ? & -> & ?). lia.
  - split; [done|]. intros (d & Hd & Hb & _). assert (digit_value b = Some d) by (by apply digit_value_iff).
    congruence.
Qed.

Lemma parse_digits_decimal maximum s n :
  s <> [] /\ parse_digits maximum 0 s = Some n <-> decimal s n /\ n <= maximum.
Proof.
  split.
  - revert n. induction s as [|b s IH] using rev_ind; intros n [Hs Hp]; [done|].
    rewrite parse_digits_app in Hp. destruct (parse_digits maximum 0 s) as [v|] eqn:E; [|done].
    cbn in Hp. apply parse_digits_one in Hp as (d & Hd & Hb & -> & Hm). split; [|done].
    destruct s as [|a s]; [injection E as <-; by constructor|].
    constructor; [|done..]. by apply IH.
  - intros [Hd Hm]. induction Hd as [b d Hd Hb|s n b d Hs IH Hd Hb].
    + split; [done|]. apply parse_digits_one. exists d. split_and!; try done; lia.
    + split; [by destruct s|]. rewrite parse_digits_app. destruct IH as [_ ->]; [lia|].
      cbn. apply parse_digits_one. by exists d.
Qed.

Lemma decimal_ascii s n : decimal s n -> Forall (fun b => 48 <= byte_val b < 58) s.
Proof.
  induction 1 as [b d Hd Hb|s n b d Hs IH Hd Hb]; [|apply Forall_app; split; [done|]];
    (constructor; [lia|constructor]).
Qed.

Lemma digits_text s : Forall (fun b => 48 <= byte_val b < 58) s -> utf8_valid s = true.
Proof.
  intros Hs. apply utf8_valid_ascii, forallb_forall. intros b Hb%list_elem_of_In.
  rewrite Forall_forall in Hs. specialize (Hs b Hb). revert Hs. by destruct b; cbn; lia || done.
Qed.

(** [parse_limit] is that notion of number. *)
Lemma parse_limit_number value n : parse_limit value = Ok n <-> positive_number value n.
Proof.
  unfold positive_number, positive.
  assert (forall s v, decimal s v -> exists b s', s = b :: s' /\ b <> x2b) as Hplus.
  { intros s v Hd. pose proof (decimal_ascii s v Hd) as Ha. destruct Ha as [|b s' Hb _]; [by inversion Hd; destruct s|].
    exists b, s'. split; [done|]. intros ->. vm_compute in Hb. by destruct Hb as [[]]. }
  assert (parse_unsigned usize_max value = Some n <-> n <= usize_max /\
    (decimal value n \/ exists digits, value = bs "+" ++ digits /\ decimal digits n)) as Hu.
  { unfold parse_unsigned. destruct value as [|b s].
    { split; [done|]. intros [_ [Hd|(digits & ? & _)]]; [|done]. by destruct (Hplus _ _ Hd) as (? & ? & ? & _). }
    destruct (byte_eqb b x2b) eqn:Eb.
    - apply byte_eqb_true in Eb as ->. transitivity (s <> [] /\ parse_digits usize_max 0 s = Some n);
        [by destruct s; split; [|intros []| |intros []]|].
      rewrite parse_digits_decimal. split; [intros []; split; [done|]; right; by exists s|].
      intros [Hm [Hd|(digits & [= <-] & Hd)]]; [|done].
      destruct (Hplus _ _ Hd) as (? & ? & [= <- <-] & Hne). done.
    - transitivity (b :: s <> [] /\ parse_digits usize_max 0 (b :: s) = Some n);
        [split; [done|by intros []]|].
      rewrite parse_digits_decimal. split; [intros []; split; [done|by left]|].
      intros [Hm [Hd|(digits & [= -> _] & _)]]; done. }
  unfold parse_limit. split.
  - unfold argument_text. destruct (utf8_valid value); cbn; [|done].
    destruct (parse_unsigned usize_max value) as [v|] eqn:E; cbn; [|done].
    destruct (N.eqb_spec v 0); [done|]. intros [= ->]. apply proj1 in Hu. destruct (Hu eq_refl). 
    split; [lia|done].
  - intros [[H1 Hm] Hn].
    assert (utf8_valid value = true) as Ht.
    { destruct Hn as [Hd|(digits & -> & Hd)]; apply decimal_ascii, digits_text in Hd; [done|].
      by apply utf8_valid_app. }
    unfold argument_text. rewrite Ht. cbn [ok_or mbind result_bind].
    rewrite (proj2 Hu (conj Hm Hn)). cbn. by destruct (N.eqb_spec n 0); [lia|].
Qed.

(** ** The grammar *)

Inductive limit_name :=
| Frame_size | Queued_bytes | Queued_messages | In_flight_requests | Subscriptions | Namespace_claims.

Inductive cli_option :=
| Cli_socket (path : bytes)
| Cli_policy (path : bytes)
| Cli_unsafe
| Cli_limit (name : limit_name) (value : bytes) (n : N).

Definition limit_flag (name : limit_name) : bytes :=
  match name with
  | Frame_size => bs "--maximum-frame-size"
  | Queued_bytes => bs "--maximum-queued-bytes"
  | Queued_messages => bs "--maximum-queued-messages"
  | In_flight_requests => bs "--maximum-in-flight-requests"
  | Subscriptions => bs "--maximum-subscriptions"
  | Namespace_claims => bs "--maximum-namespace-claims"
  end.

Definition option_words (o : cli_option) : list bytes :=
  match o with
  | Cli_socket path => [bs "--socket"; path]
  | Cli_policy path => [bs "--policy"; path]
  | Cli_unsafe => [bs "--unsafe-allow-all"]
  | Cli_limit name value _ => [limit_flag name; value]
  end.

Definition option_ok (o : cli_option) : Prop :=
  match o with Cli_limit _ value n => positive_number value n | _ => True end.

(** What an option says about each field of the configuration. *)
Definition socket_after (o : cli_option) (old : bytes) : bytes :=
  match o with Cli_socket path => path | _ => old end.
Definition policy_after (o : cli_option) (old : PolicySource) : PolicySource :=
  match o with
  | Cli_policy path => PolicySource_File path
  | Cli_unsafe => PolicySource_UnsafeAllowAll
  | _ => old
  end.
Definition limit_after (name : limit_name) (o : cli_option) (old : N) : N :=
  match name, o with
  | Frame_size, Cli_limit Frame_size _ n | Queued_bytes, Cli_limit Queued_bytes _ n
  | Queued_messages, Cli_limit Queued_messages _ n
  | In_flight_requests, Cli_limit In_flight_requests _ n
  | Subscriptions, Cli_limit Subscriptions _ n | Namespace_claims, Cli_limit Namespace_claims _ n => n
  | _, _ => old
  end.

Definition apply_option (c : DaemonCommand) (o : cli_option) : DaemonCommand :=
  let l := command_limits c in {|
  command_socket := socket_after o (command_socket c);
  command_policy := policy_after o (command_policy c);
  command_limits := {|
    maximum_queued_bytes := limit_after Queued_bytes o (maximum_queued_bytes l);
    maximum_queued_messages := limit_after Queued_messages o (maximum_queued_messages l);
    maximum_in_flight_requests := limit_after In_flight_requests o (maximum_in_flight_requests l);
    maximum_subscriptions := limit_after Subscriptions o (maximum_subscriptions l);
    maximum_namespace_claims := limit_after Namespace_claims o (maximum_namespace_claims l) |};
  command_maximum_frame_size := limit_after Frame_size o (command_maximum_frame_size c);
|}.

(** [--policy] and [--unsafe-allow-all] exclude each other. *)
Definition exclusive (opts : list cli_option) : Prop :=
  ~ (Cli_unsafe ∈ opts /\ exists path, Cli_policy path ∈ opts).

Definition default_command : DaemonCommand := {|
  command_socket := bs "/run/busd/busd.sock";
  command_policy := PolicySource_SafeDefaults;
  command_limits := {|
    maximum_queued_bytes := 4194304;
    maximum_queued_messages := 1024;
    maximum_in_flight_requests := 128;
    maximum_subscriptions := 256;
    maximum_namespace_claims := 64 |};
  command_maximum_frame_size := 1048576;
|}.

Lemma parse_daemon_command_default args :
  parse_daemon_command args =
  (command ← parse_daemon_options args default_command; Ok (Command_Daemon command)).
Proof. reflexivity. Qed.

(** The policy options that may follow a choice of policy. *)
Fixpoint fits (policy : PolicySource) (opts : list cli_option) : Prop :=
  match opts with
  | [] => True
  | Cli_policy path :: opts =>
      policy <> PolicySource_UnsafeAllowAll /\ fits (PolicySource_File path) opts
  | Cli_unsafe :: opts =>
      (forall path, policy <> PolicySource_File path) /\ fits PolicySource_UnsafeAllowAll opts
  | _ :: opts => fits policy opts
  end.

Lemma fits_iff policy opts :
  fits policy opts <->
  match policy with
  | PolicySource_SafeDefaults => exclusive opts
  | PolicySource_File _ => Cli_unsafe ∉ opts
  | PolicySource_UnsafeAllowAll => forall path, Cli_policy path ∉ opts
  end.
Proof.
  unfold exclusive. revert policy. induction opts as [|o opts IH]; intros policy.
  - destruct policy; cbn; set_solver.
  - destruct o; cbn [fits]; rewrite IH; destruct policy; set_solver.
Qed.

(** Each flag sets its own field and no other. *)
Lemma limit_option_sound flag set :
  limit_option flag = Some set ->
  exists name, flag = limit_flag name /\ forall value n c, set n c = apply_option c (Cli_limit name value n).
Proof.
  unfold limit_option. intros Hs.
  case_bool_decide; [exists Frame_size|case_bool_decide; [exists Queued_bytes|
  case_bool_decide; [exists Queued_messages|case_bool_decide; [exists In_flight_requests|
  case_bool_decide; [exists Subscriptions|case_bool_decide; [exists Namespace_claims|done]]]]]];
  (injection Hs as <-; split; [done|]; by intros value n [? ? [] ?]).
Qed.

Lemma limit_option_complete name :
  argument_text (limit_flag name) = Some (limit_flag name) /\
  limit_flag name <> bs "--socket" /\ limit_flag name <> bs "--policy" /\
  limit_flag name <> bs "--unsafe-allow-all" /\
  exists set, limit_option (limit_flag name) = Some set /\
    forall value n c, set n c = apply_option c (Cli_limit name value n).
Proof.
  destruct name; (split; [by vm_compute|]; do 3 (split; [discriminate|]);
    eexists; split; [vm_compute; reflexivity|]; by intros value n [? ? [] ?]).
Qed.

Lemma parse_options_sound n args c c' :
  (length args <= n)%nat -> parse_daemon_options args c = Ok c' ->
  exists opts, args = concat (option_words <$> opts) /\ Forall option_ok opts /\
    fits (command_policy c) opts /\ c' = foldl apply_option c opts.
Proof.
  revert args c. induction n as [|n IH]; intros [|a args] c Hn Hp; cbn [length] in Hn; try lia;
    [injection Hp as <-; by exists []..|].
  assert (forall o c1 rest, a :: args = option_words o ++ rest -> (length rest <= n)%nat ->
    parse_daemon_options rest c1 = Ok c' -> c1 = apply_option c o -> option_ok o ->
    (forall opts, fits (command_policy c1) opts -> fits (command_policy c) (o :: opts)) ->
    exists opts, a :: args = concat (option_words <$> opts) /\ Forall option_ok opts /\
      fits (command_policy c) opts /\ c' = foldl apply_option c opts) as Hgo.
  { intros o c1 rest Ha Hrest Hr -> Ho Hfits. destruct (IH rest _ Hrest Hr) as (opts & -> & Hok & Hf & ->).
    exists (o :: opts). split; [exact Ha|]. split; [by constructor|]. split; [by apply Hfits|done]. }
  cbn [parse_daemon_options] in Hp.
  destruct (argument_text a) as [flag|] eqn:Et; [|done].
  assert (flag = a) as -> by (unfold argument_text in Et; destruct (utf8_valid a); congruence).
  case_bool_decide as H1.
  { destruct args as [|path rest]; [done|]. subst a. cbn in Hn.
    eapply (Hgo (Cli_socket path) _ rest eq_refl ltac:(lia) Hp); [by destruct c as [? ? [] ?]|done..]. }
  case_bool_decide as H2.
  { destruct (command_policy c) eqn:Epol; try done; destruct args as [|p rest]; try done; subst a;
      cbn in Hn; eapply (Hgo (Cli_policy p) _ rest eq_refl ltac:(lia) Hp); cbn; try done;
      by destruct c as [? ? [] ?]. }
  case_bool_decide as H3.
  { destruct (command_policy c) eqn:Epol; try done; subst a; cbn in Hn;
      eapply (Hgo Cli_unsafe _ args eq_refl ltac:(lia) Hp); cbn; try done;
      by destruct c as [? ? [] ?]. }
  destruct (limit_option a) as [set|] eqn:El; [|by destruct args].
  destruct args as [|value rest]; [done|]. cbn in Hn. cbn [mbind result_bind] in Hp.
  destruct (parse_limit value) as [v|e|] eqn:Ev; [|done..]. cbn in Hp.
  destruct (limit_option_sound a set El) as (name & -> & Hset).
  rewrite (Hset value) in Hp.
  eapply (Hgo (Cli_limit name value v) _ rest eq_refl ltac:(lia) Hp eq_refl); cbn; [|done].
  by apply parse_limit_number.
Qed.

Lemma parse_options_complete opts c :
  Forall option_ok opts -> fits (command_policy c) opts ->
  parse_daemon_options (concat (option_words <$> opts)) c = Ok (foldl apply_option c opts).
Proof.
  intros Hok. revert c. induction Hok as [|o opts Ho Hok IH]; intros c Hf; [done|].
  cbn [fmap list_fmap concat foldl].
  assert (apply_option c o = match o with
    | Cli_socket path => set_command_socket path c
    | Cli_policy path => set_command_policy (PolicySource_File path) c
    | Cli_unsafe => set_command_policy PolicySource_UnsafeAllowAll c
    | _ => apply_option c o end) as Ha by (by destruct o, c as [? ? [] ?]).
  destruct o as [path|path| |name value n]; cbn [option_words app].
  - rewrite <- IH by done. by rewrite Ha.
  - destruct Hf as [Hne Hf]. rewrite <- IH by done. rewrite Ha. cbn. by destruct (command_policy c).
  - destruct Hf as [Hne Hf]. rewrite <- IH by done. rewrite Ha. cbn.
    destruct (command_policy c) eqn:Ep; try done. by destruct (Hne path).
  - destruct (limit_option_complete name) as (Ht & ? & ? & ? & set & Hs & Hset).
    rewrite <- IH by done. cbn [parse_daemon_options].
    rewrite Ht, !bool_decide_eq_false_2, Hs by done. cbn [mbind result_bind].
    apply parse_limit_number in Ho. rewrite Ho. cbn. by rewrite (Hset value).
Qed.

(** ** The contract *)

(** C39: the command line means what the grammar says.  [busd daemon] accepts
    exactly the sequences of [--socket], [--policy], [--unsafe-allow-all] and the
    six limits, each with a decimal numeral of a positive number of the machine's
    word size, in which the two policy options do not both occur; the
    configuration is the documented defaults changed by the options from left to
    right, each option setting its own field and no other. *)
Theorem command_line_grammar args c :
  parse_command (bs "daemon" :: args) = Ok (Command_Daemon c) <->
  exists opts, args = concat (option_words <$> opts) /\ Forall option_ok opts /\ exclusive opts /\
    c = foldl apply_option default_command opts.
Proof.
  change (parse_command (bs "daemon" :: args)) with (parse_daemon_command args).
  rewrite parse_daemon_command_default.
  setoid_rewrite <- (fits_iff PolicySource_SafeDefaults). split.
  - destruct (parse_daemon_options args default_command) as [c'| |] eqn:E; cbn; [|done..].
    intros [= <-]. by eapply (parse_options_sound (length args)) in E.
  - intros (opts & -> & Hok & Hf & ->). by rewrite parse_options_complete.
Qed.

Definition limits_positive (c : DaemonCommand) : Prop :=
  let l := command_limits c in
  positive (command_maximum_frame_size c) /\ positive (maximum_queued_bytes l) /\
  positive (maximum_queued_messages l) /\ positive (maximum_in_flight_requests l) /\
  positive (maximum_subscriptions l) /\ positive (maximum_namespace_claims l).

Lemma apply_options_positive opts c :
  Forall option_ok opts -> limits_positive c -> limits_positive (foldl apply_option c opts).
Proof.
  intros Hok. revert c. induction Hok as [|o opts Ho _ IH]; intros c Hc; [done|]. apply IH.
  destruct Hc as (? & ? & ? & ? & ? & ?). destruct o as [| | |[] value n]; cbn in Ho;
    try destruct Ho as [Ho _]; by split_and!.
Qed.

Lemma apply_options_policy opts c :
  Forall option_ok opts ->
  match command_policy (foldl apply_option c opts) with
  | PolicySource_SafeDefaults => command_policy c = PolicySource_SafeDefaults /\
      (Cli_unsafe ∉ opts) /\ forall path, Cli_policy path ∉ opts
  | PolicySource_File path => command_policy c = PolicySource_File path \/ Cli_policy path ∈ opts
  | PolicySource_UnsafeAllowAll =>
      command_policy c = PolicySource_UnsafeAllowAll \/ Cli_unsafe ∈ opts
  end.
Proof.
  intros Hok. revert c. induction Hok as [|o opts Ho _ IH]; intros c; cbn [foldl].
  - destruct (command_policy c); set_solver.
  - specialize (IH (apply_option c o)). destruct o as [path|path| |name value n];
      cbn [apply_option command_policy policy_after] in IH; destruct (command_policy (foldl _ _ _));
      destruct_and?; destruct_or?; simplify_eq; set_solver.
Qed.

(** Unsafe operation is opt-in.  Whatever the arguments, a daemon runs
    without a policy only when [--unsafe-allow-all] is given and [--policy] is
    not, and with a policy file only when that file is named; with neither it runs
    the safe defaults.  Every limit is positive and fits the machine's word. *)
Theorem command_line_safe args c :
  parse_command args = Ok (Command_Daemon c) ->
  exists opts, args = bs "daemon" :: concat (option_words <$> opts) /\
    limits_positive c /\
    match command_policy c with
    | PolicySource_SafeDefaults => Cli_unsafe ∉ opts /\ forall path, Cli_policy path ∉ opts
    | PolicySource_File path => Cli_policy path ∈ opts /\ Cli_unsafe ∉ opts
    | PolicySource_UnsafeAllowAll => Cli_unsafe ∈ opts /\ forall path, Cli_policy path ∉ opts
    end.
Proof.
  destruct args as [|name args]; [done|]. cbn [parse_command].
  destruct (argument_text name) as [text|] eqn:Et; [|done].
  assert (text = name) as -> by (unfold argument_text in Et; destruct (utf8_valid name); congruence).
  case_bool_decide as Hn; [subst name|case_bool_decide; [|done]].
  2: { unfold parse_health_command. by destruct (parse_health_options args DEFAULT_SOCKET). }
  rewrite parse_daemon_command_default.
  destruct (parse_daemon_options args default_command) as [c'| |] eqn:E; cbn; [|done..].
  intros [= <-]. eapply (parse_options_sound (length args)) in E as (opts & -> & Hok & Hf & ->); [|done].
  exists opts. split; [done|]. split; [apply apply_options_positive; [done|by vm_compute]|].
  pose proof (apply_options_policy opts default_command Hok) as Hp.
  apply fits_iff in Hf. cbn in Hf. unfold exclusive in Hf.
  destruct (command_policy _); [tauto|..]; (destruct Hp as [?|Hp]; [done|]); split; eauto.
Qed.

Lemma command_limits_positive args c :
  parse_command args = Ok (Command_Daemon c) -> limits_positive c.
Proof. by intros (opts & _ & ? & _)%command_line_safe. Qed.

Lemma command_line_safe_witness :
  let args := [bs "daemon"; bs "--policy"; bs "/etc/busd"; bs "--maximum-subscriptions"; bs "9"] in
  exists c, parse_command args = Ok (Command_Daemon c) /\
  exists opts, args = bs "daemon" :: concat (option_words <$> opts) /\
    limits_positive c /\
    match command_policy c with
    | PolicySource_SafeDefaults => Cli_unsafe ∉ opts /\ forall path, Cli_policy path ∉ opts
    | PolicySource_File path => Cli_policy path ∈ opts /\ Cli_unsafe ∉ opts
    | PolicySource_UnsafeAllowAll => Cli_unsafe ∈ opts /\ forall path, Cli_policy path ∉ opts
    end.
Proof.
  intros args. destruct (parse_command args) as [[c|]| |] eqn:E; try by vm_compute in E.
  exists c. split; [done|]. by apply command_line_safe.
Defined.
