(* ===== verification/Dbus.v ===== *)
(** * D-Bus names (crates/bus-transport-dbus/src/lib.rs)

    The name type of the D-Bus transport and its validator, with the grammar it
    accepts and its relation to the broker's own validator of registered D-Bus
    names ([validate_dbus_name] of Broker.v).  The connections of the crate are
    over the zbus library, whose calls are parameters. *)

From S2P Require Import Broker.

Local Open Scope N_scope.

Record Name := Name_of { Name_as_str : bytes }.

Inductive NameError := NameError_Invalid.

Definition NameError_to_string (e : NameError) : bytes := bs "invalid D-Bus name".

(** The bytes of a component. *)
Definition component_byte (byte : byte) : bool := is_ascii_alphanumeric byte || byte_eqb byte x5f.

Definition validate_name (value : bytes) : result NameError () :=
  if bool_decide (value = []) || (255 <? len value) || starts_with value [x2e] || ends_with value x2e
  then Err NameError_Invalid
  else if existsb (fun component => bool_decide (component = []) || negb (forallb component_byte component))
            (split x2e value)
  then Err NameError_Invalid
  else Ok ().

Definition Name_parse (value : bytes) : result NameError Name :=
  _ ← validate_name value; Ok (Name_of value).

Inductive BusKind := BusKind_Session | BusKind_System.

(** The connections of the crate, over those of the zbus library: opening the
    session and the system bus, and requesting a name. *)
Section transport.
Context {Connection ZbusError : Type}.
Variables session system : () -> result ZbusError Connection.
Variable zbus_request_name : Connection -> bytes -> result ZbusError ().

Record DbusTransport := { dbus_connection : Connection }.

Definition DbusTransport_connect (kind : BusKind) : result ZbusError DbusTransport :=
  connection ← match kind with BusKind_Session => session tt | BusKind_System => system tt end;
  Ok {| dbus_connection := connection |}.

Definition DbusTransport_request_name (self : DbusTransport) (name : Name) : result ZbusError () :=
  zbus_request_name (dbus_connection self) (Name_as_str name).

End transport.

Example name_examples :
  Name_parse (bs "com.example.Service") = Ok (Name_of (bs "com.example.Service")) /\
  Name_parse (bs "example..Service") = Err NameError_Invalid /\
  Name_parse (bs "-example.Service") = Err NameError_Invalid /\
  Name_parse (bs ".a") = Err NameError_Invalid /\ Name_parse [] = Err NameError_Invalid.
Proof. vm_compute. repeat split; reflexivity. Qed.

(** ** The grammar *)

(** One or more components of letters, digits and underscores, separated by
    dots; at most 255 bytes in all. *)
Definition dbus_name (value : bytes) : Prop :=
  exists components, components <> [] /\ value = join x2e components /\ len value <= 255 /\
    Forall (fun c => c <> [] /\ Forall (fun b => component_byte b = true) c) components.

Lemma component_no_dot c : Forall (fun b => component_byte b = true) c -> x2e ∉ c.
Proof. intros Hc Hin. rewrite Forall_forall in Hc. by specialize (Hc _ Hin). Qed.

Lemma join_last_component c components :
  Forall (fun p => p <> [] /\ c ∉ p) components -> components <> [] ->
  exists rest b, join c components = rest ++ [b] /\ b <> c.
Proof.
  induction 1 as [|p ps [Hp Hc] Hps IH]; [done|]. intros _. destruct ps as [|q ps].
  - destruct (exists_last Hp) as (rest & b & ->). exists rest, b. split; [done|]. set_solver.
  - destruct IH as (rest & b & Hj & Hb); [done|]. exists (p ++ c :: rest), b. split; [|done].
    change (join c (p :: q :: ps)) with (p ++ c :: join c (q :: ps)). rewrite Hj. by simplify_list_eq.
Qed.

Lemma forallb_Forall_true {A} (f : A -> bool) c : forallb f c = true <-> Forall (fun b => f b = true) c.
Proof. induction c as [|b c IH]; cbn; [by split|]. by rewrite andb_true_iff, Forall_cons, IH. Qed.

Lemma components_ok value :
  existsb (fun c => bool_decide (c = []) || negb (forallb component_byte c)) (split x2e value) = false <->
  Forall (fun c => c <> [] /\ Forall (fun b => component_byte b = true) c) (split x2e value).
Proof.
  induction (split x2e value) as [|c cs IH]; cbn [existsb]; [by split|].
  by rewrite orb_false_iff, IH, orb_false_iff, negb_false_iff, bool_decide_eq_false, Forall_cons,
    forallb_Forall_true.
Qed.

Lemma validate_name_grammar value :
  match validate_name value with
  | Ok _ => dbus_name value
  | Err _ => ~ dbus_name value
  | Panic => False
  end.
Proof.
  assert (dbus_name value <-> value <> [] /\ len value <= 255 /\
    Forall (fun c => c <> [] /\ Forall (fun b => component_byte b = true) c) (split x2e value)) as Hg.
  { split.
    - intros (cs & Hne & -> & Hlen & Hcs). split; [|split; [done|]].
      + destruct cs as [|[|b c] cs]; [done| |by destruct cs].
        apply Forall_cons in Hcs as [[? _] _]. done.
      + rewrite (proj2 (split_spec x2e (join x2e cs) cs)); [done|]. split; [done|]. split; [done|].
        eapply Forall_impl; [exact Hcs|]. intros c [_ Hc]. by apply component_no_dot.
    - intros (Hne & Hlen & Hcs). destruct (proj1 (split_spec x2e value _) eq_refl) as (? & Hj & _).
      by exists (split x2e value). }
  assert (dbus_name value -> starts_with value [x2e] = false /\ ends_with value x2e = false) as Hdots.
  { intros (cs & Hne & -> & _ & Hcs). split.
    - destruct cs as [|[|b c] cs]; [done| |].
      + apply Forall_cons in Hcs as [[? _] _]. done.
      + apply Forall_cons in Hcs as [[_ Hc%component_no_dot] _].
        apply not_true_iff_false. intros [r Hr]%starts_with_iff.
        destruct cs; injection Hr as -> _; set_solver.
    - destruct (join_last_component x2e cs) as (rest & b & -> & Hb); [|done|].
      + eapply Forall_impl; [exact Hcs|]. intros c [? Hc]. split; [done|]. by apply component_no_dot.
      + unfold ends_with. rewrite last_snoc. by apply byte_eqb_false. }
  unfold validate_name. destruct (_ || _) eqn:E1.
  - intros Hd. destruct (Hdots Hd) as [Hs He]. apply Hg in Hd as (Hne & Hlen & Hcs).
    rewrite Hs, He, !orb_false_r in E1.
    apply orb_true_iff in E1 as [?%bool_decide_eq_true|?%N.ltb_lt]; [done|lia].
  - rewrite !orb_false_iff in E1. destruct E1 as [[[?%bool_decide_eq_false ?%N.ltb_ge] _] _].
    destruct (existsb _ _) eqn:E2.
    + intros (_ & _ & Hcs)%Hg. apply components_ok in Hcs. congruence.
    + apply components_ok in E2. by apply Hg.
Qed.

(** The transport accepts the D-Bus names of its grammar.  [Name::parse]
    succeeds exactly on one or more dot-separated components of letters, digits
    and underscores, at most 255 bytes, and then holds the text unchanged; every
    other text is refused with the one error, and none makes it panic. *)
Theorem name_grammar value :
  (forall name, Name_parse value = Ok name <-> dbus_name value /\ name = Name_of value) /\
  (forall e, Name_parse value = Err e <-> ~ dbus_name value) /\
  Name_parse value <> Panic.
Proof.
  pose proof (validate_name_grammar value) as Hv. unfold Name_parse.
  destruct (validate_name value) as [[]|[]|]; cbn; [| |done].
  - split; [|split; [|done]]; intros x; (split; [by intros [= <-]|]); [by intros [_ ->]|done].
  - split; [|split; [|done]]; intros x; (split; [done|]); [by intros [? _]|by destruct x].
Qed.

(** ** The broker's validator *)

(** The components the broker refuses although the transport accepts them. *)
Definition digit_first (component : bytes) : bool :=
  match component with b :: _ => is_ascii_digit b | [] => false end.

Lemma broker_component_ok c :
  dbus_component_ok c = true <->
  (c <> [] /\ Forall (fun b => component_byte b = true) c) /\ digit_first c = false.
Proof.
  destruct c as [|b c]; [by split; [|intros [[? _] _]]|].
  unfold dbus_component_ok, digit_first. fold component_byte.
  rewrite andb_true_iff, forallb_Forall_true, Forall_cons.
  assert (is_ascii_alphabetic b || byte_eqb b x5f = true <->
    component_byte b = true /\ is_ascii_digit b = false) as ->.
  { unfold component_byte, is_ascii_alphanumeric. destruct b; vm_compute; intuition congruence. }
  intuition congruence.
Qed.

(** Two validators of D-Bus names.  The broker registers exactly those names
    of the transport in which no component starts with a digit: every name it
    accepts the transport accepts too, and the converse holds up to that rule. *)
Theorem broker_names_equivalence value :
  validate_dbus_name value = Ok tt <->
  Name_parse value = Ok (Name_of value) /\
  Forall (fun component => digit_first component = false) (split x2e value).
Proof.
  pose proof (validate_name_grammar value) as Hv. pose proof (components_ok value) as Hc.
  unfold validate_dbus_name, Name_parse.
  assert (forallb dbus_component_ok (split x2e value) = true <->
    Forall (fun c => c <> [] /\ Forall (fun b => component_byte b = true) c) (split x2e value) /\
    Forall (fun c => digit_first c = false) (split x2e value)) as Hb.
  { rewrite <- Forall_and, forallb_Forall_true. apply Forall_iff, broker_component_ok. }
  destruct (bool_decide (value = []) || (255 <? len value)) eqn:E.
  { split; [done|]. intros [Hn _]. unfold validate_name in Hn. by rewrite E in Hn. }
  apply orb_false_iff in E as [He%bool_decide_eq_false Hl%N.ltb_ge]. split.
  - destruct (forallb _ _) eqn:Ef; [|done]. intros _. destruct (proj1 Hb eq_refl) as [Hcs Hd].
    destruct (validate_name value) as [[]|e|]; [done| |done]. destruct Hv.
    destruct (proj1 (split_spec x2e value _) eq_refl) as (? & Hj & _). by exists (split x2e value).
  - intros [Hn Hd]. rewrite (proj2 Hb); [done|]. split; [|done]. apply Hc.
    unfold validate_name in Hn. destruct (_ || _) in Hn; [done|]. by destruct (existsb _ _).
Qed.
