(* ===== verification/Client.v ===== *)
(** * The native client (crates/bus-client/src/lib.rs)

    The connection API, the reconnecting client and the deduplication cache.
    A [Link] is the client's side of one connection: what the transport will
    answer to the sends and receives still to come, and the packets sent so far.
    An operation that needs an answer the link does not have yet is [Blocked]. *)

From S2P Require Export Transport Codec.

Local Open Scope N_scope.

Local Abbreviation io := (result IoError).

Definition CAPABILITY_FD_PASSING : bytes := bs "fd-passing".
Definition CAPABILITY_MEMFD_PAYLOAD : bytes := bs "memfd-payload-v1".

(** ** Errors *)

Inductive Error :=
| Error_Transport (error : IoError)
| Error_Codec (error : CodecError)
| Error_Handshake (message : bytes)
| Error_Rejected (code : ProtocolErrorCode) (message : bytes)
| Error_Delivery (outcome : DeliveryOutcome).

(** ** Links and operations *)

Record Link := {
  link_sends : list (io ());
  link_receives : list (io (option bytes));
  link_sent : list bytes;
}.

Inductive progress (A : Type) : Type :=
| Returned (r : result Error A)
| Blocked.
Arguments Returned {A} _.
Arguments Blocked {A}.

Definition Client (A : Type) : Type := Link -> progress A * Link.

#[export] Instance Client_ret : MRet Client := fun A a l => (Returned (Ok a), l).
#[export] Instance Client_bind : MBind Client := fun A B f m l =>
  match m l with
  | (Returned (Ok a), l) => f a l
  | (Returned (Err e), l) => (Returned (Err e), l)
  | (Returned Panic, l) => (Returned Panic, l)
  | (Blocked, l) => (Blocked, l)
  end.

Definition throw {A} (e : Error) : Client A := fun l => (Returned (Err e), l).
Definition pure {A} (r : result Error A) : Client A := fun l => (Returned r, l).
Definition handshake {A} (message : string) : Client A := throw (Error_Handshake (bs message)).

(** [connection.send_packet(packet)?] *)
Definition link_send (packet : bytes) : Client () := fun l =>
  match link_sends l with
  | [] => (Blocked, l)
  | r :: sends =>
      (Returned (map_err Error_Transport r),
       {| link_sends := sends;
          link_receives := link_receives l;
          link_sent := if is_ok r then link_sent l ++ [packet] else link_sent l |})
  end.

(** [connection.receive_packet(..)?] *)
Definition link_receive : Client (option bytes) := fun l =>
  match link_receives l with
  | [] => (Blocked, l)
  | r :: receives =>
      (Returned (map_err Error_Transport r),
       {| link_sends := link_sends l; link_receives := receives; link_sent := link_sent l |})
  end.

(** [connection.disconnect()?]: its answer comes from the sends. *)
Definition link_disconnect : Client () := fun l =>
  match link_sends l with
  | [] => (Blocked, l)
  | r :: sends =>
      (Returned (map_err Error_Transport r),
       {| link_sends := sends; link_receives := link_receives l; link_sent := link_sent l |})
  end.

(** ** Options and records *)

Record ConnectOptions := {
  option_socket : bytes;
  option_frame_limits : FrameLimits;
  option_client_id : option ClientId;
  option_headers : Headers;
  option_capabilities : Capabilities;
}.

Definition ConnectOptions_new (socket : bytes) : ConnectOptions := {|
  option_socket := socket;
  option_frame_limits := FrameLimits_default;
  option_client_id := None;
  option_headers := ∅;
  option_capabilities := ∅;
|}.

Definition ConnectOptions_default : ConnectOptions := ConnectOptions_new (bs "/run/busd/busd.sock").

Definition with_frame_limits (limits : FrameLimits) (self : ConnectOptions) : ConnectOptions := {|
  option_socket := option_socket self;
  option_frame_limits := limits;
  option_client_id := option_client_id self;
  option_headers := option_headers self;
  option_capabilities := option_capabilities self;
|}.
Definition with_client_id (client_id : ClientId) (self : ConnectOptions) : ConnectOptions := {|
  option_socket := option_socket self;
  option_frame_limits := option_frame_limits self;
  option_client_id := Some client_id;
  option_headers := option_headers self;
  option_capabilities := option_capabilities self;
|}.
Definition with_headers (headers : Headers) (self : ConnectOptions) : ConnectOptions := {|
  option_socket := option_socket self;
  option_frame_limits := option_frame_limits self;
  option_client_id := option_client_id self;
  option_headers := headers;
  option_capabilities := option_capabilities self;
|}.
Definition with_capabilities (capabilities : Capabilities) (self : ConnectOptions)
    : ConnectOptions := {|
  option_socket := option_socket self;
  option_frame_limits := option_frame_limits self;
  option_client_id := option_client_id self;
  option_headers := option_headers self;
  option_capabilities := capabilities;
|}.

Record NamespaceClaim := { claim_namespace : Namespace; claim_headers : Headers }.
Record Subscription := {
  subscription_channel : Channel;
  subscription_filters : list HeaderFilter;
}.

(** ** One connection *)

(** What a [Bus] remembers besides its connection. *)
Record Bus := {
  frame_limits : FrameLimits;
  bus_peer_id : PeerId;
  bus_capabilities : Capabilities;
}.

Definition codec {A} (r : result CodecError A) : Client A := pure (map_err Error_Codec r).

(** [Bus::connect], after the transport has connected. *)
Definition Bus_connect (options : ConnectOptions) : Client Bus :=
  let limits := option_frame_limits options in
  packet ← codec (encode_with_limits
    (Frame_Hello (option_client_id options) (option_headers options) (option_capabilities options))
    limits);
  _ ← link_send packet;
  received ← link_receive;
  match received with
  | None => handshake "broker disconnected before WELCOME"
  | Some packet =>
      frame ← codec (decode_with_limits packet limits);
      match frame with
      | Frame_Welcome peer_id capabilities =>
          mret {| frame_limits := limits; bus_peer_id := peer_id; bus_capabilities := capabilities |}
      | Frame_ProtocolError code message => throw (Error_Rejected code message)
      | _ => handshake "broker sent a non-WELCOME handshake frame"
      end
  end.

Definition send_frame (self : Bus) (frame : Frame) : Client () :=
  packet ← codec (encode_with_limits frame (frame_limits self)); link_send packet.

Definition receive_frame (self : Bus) : Client (option Frame) :=
  received ← link_receive;
  match received with
  | None => mret None
  | Some packet => frame ← codec (decode_with_limits packet (frame_limits self)); mret (Some frame)
  end.

Definition send_control (self : Bus) (frame : Frame) (operation : ControlOperation) : Client () :=
  _ ← send_frame self frame;
  received ← receive_frame self;
  match received with
  | Some (Frame_ControlResult result) =>
      if bool_decide (result = operation) then mret ()
      else handshake "broker sent an unexpected control frame"
  | Some (Frame_ProtocolError code message) => throw (Error_Rejected code message)
  | Some _ => handshake "broker sent an unexpected control frame"
  | None => handshake "broker disconnected during a control operation"
  end.

Definition claim_with_headers (self : Bus) (namespace : Namespace) (headers : Headers) : Client () :=
  send_control self (Frame_Claim namespace headers) ControlOperation_Claim.
Definition Bus_claim (self : Bus) (namespace : Namespace) : Client () :=
  claim_with_headers self namespace ∅.
Definition Bus_subscribe (self : Bus) (channel : Channel) (filters : list HeaderFilter) : Client () :=
  send_control self (Frame_Subscribe channel filters) ControlOperation_Subscribe.
Definition Bus_unsubscribe (self : Bus) (channel : Channel) : Client () :=
  send_control self (Frame_Unsubscribe channel) ControlOperation_Unsubscribe.

Definition resolve_namespace (self : Bus) (namespace : Namespace) : Client (option PeerId) :=
  _ ← send_frame self (Frame_ResolveNamespace namespace);
  received ← receive_frame self;
  match received with
  | Some (Frame_NamespaceResolved resolved owner) =>
      if bool_decide (resolved = namespace) then mret owner
      else handshake "broker sent an unexpected discovery frame"
  | Some (Frame_ProtocolError code message) => throw (Error_Rejected code message)
  | Some _ => handshake "broker sent an unexpected discovery frame"
  | None => handshake "broker disconnected during namespace resolution"
  end.

Definition send_message (self : Bus) (message : Frame) : Client () :=
  match message with
  | Frame_Message _ => send_frame self message
  | _ => handshake "send_message requires a MESSAGE frame"
  end.

(** The messages the convenience methods build. *)
Definition plain_message (kind : MessageKind) (deadline_ms : N) (destination : Destination)
    (message_id correlation_id : MessageId) (status : Status) (headers : Headers) (payload : bytes)
    : Frame := Frame_Message {|
  m_kind := kind;
  m_ack_policy := AckPolicy_None;
  m_ack_requirement := AckRequirement_None;
  m_request_policy := RequestPolicy_Exact;
  m_deadline_ms := deadline_ms;
  m_retry := RetryPolicy_None;
  m_destination := destination;
  m_message_id := message_id;
  m_correlation_id := correlation_id;
  m_status := status;
  m_headers := headers;
  m_payload := payload;
|}.

Definition send_signal (self : Bus) (destination : Destination) (message_id : MessageId)
    (headers : Headers) (payload : bytes) : Client () :=
  send_message self (plain_message MessageKind_Signal 0 destination message_id MessageId_absent
    Status_Success headers payload).

Definition send_response (self : Bus) (destination : Destination)
    (message_id correlation_id : MessageId) (status : Status) (headers : Headers) (payload : bytes)
    : Client () :=
  send_message self (plain_message MessageKind_Response 0 destination message_id correlation_id
    status headers payload).

Definition Bus_acknowledge (self : Bus) (message_id : MessageId) (policy : AckPolicy) : Client () :=
  send_frame self (Frame_Acknowledge message_id policy).

(** What one frame means to a waiting [request]: its result, or [None] to wait
    on. *)
Definition request_step (message_id : MessageId) (received : option Frame)
    : option (result Error Frame) :=
  let unrelated :=
    Some (Err (Error_Handshake (bs "broker sent an unrelated frame during request"))) in
  match received with
  | Some (Frame_Message m) =>
      if bool_decide (m_kind m = MessageKind_Response)
         && bool_decide (m_correlation_id m = message_id)
      then Some (Ok (Frame_Message m)) else unrelated
  | Some (Frame_DeliveryResult result_id outcome) =>
      if bool_decide (result_id = message_id) then
        match outcome with
        | DeliveryOutcome_Accepted | DeliveryOutcome_Received | DeliveryOutcome_Processed => None
        | _ => Some (Err (Error_Delivery outcome))
        end
      else unrelated
  | Some (Frame_ProtocolError code message) => Some (Err (Error_Rejected code message))
  | Some _ => unrelated
  | None => Some (Err (Error_Handshake (bs "broker disconnected during request")))
  end.

(** The loop of [request], over the answers the link will give. *)
Fixpoint request_loop (self : Bus) (message_id : MessageId) (receives : list (io (option bytes)))
    : progress Frame * list (io (option bytes)) :=
  match receives with
  | [] => (Blocked, [])
  | r :: receives =>
      match r with
      | Err e => (Returned (Err (Error_Transport e)), receives)
      | Panic => (Returned Panic, receives)
      | Ok received =>
          let decoded :=
            match received with
            | None => Ok None
            | Some packet =>
                match decode_with_limits packet (frame_limits self) with
                | Ok frame => Ok (Some frame)
                | Err e => Err (Error_Codec e)
                | Panic => Panic
                end
            end in
          match decoded with
          | Err e => (Returned (Err e), receives)
          | Panic => (Returned Panic, receives)
          | Ok frame =>
              match request_step message_id frame with
              | Some r => (Returned r, receives)
              | None => request_loop self message_id receives
              end
          end
      end
  end.

Definition await_response (self : Bus) (message_id : MessageId) : Client Frame := fun l =>
  let '(r, receives) := request_loop self message_id (link_receives l) in
  (r, {| link_sends := link_sends l; link_receives := receives; link_sent := link_sent l |}).

Definition request (self : Bus) (request : Frame) : Client Frame :=
  match request with
  | Frame_Message m =>
      if bool_decide (m_kind m = MessageKind_Request) then
        _ ← send_message self request; await_response self (m_message_id m)
      else handshake "request requires a REQUEST message"
  | _ => handshake "request requires a REQUEST message"
  end.

Definition request_message (self : Bus) (destination : Destination) (message_id : MessageId)
    (deadline_ms : N) (headers : Headers) (payload : bytes) : Client Frame :=
  request self (plain_message MessageKind_Request deadline_ms destination message_id MessageId_absent
    Status_Success headers payload).

Definition Bus_disconnect (self : Bus) : Client () := link_disconnect.

(** [{code:?}] and [{outcome:?}]. *)
Definition ProtocolErrorCode_debug (code : ProtocolErrorCode) : bytes :=
  match code with
  | ProtocolErrorCode_MalformedFrame => bs "MalformedFrame"
  | ProtocolErrorCode_UnsupportedVersion => bs "UnsupportedVersion"
  | ProtocolErrorCode_UnknownFrameKind => bs "UnknownFrameKind"
  | ProtocolErrorCode_NonCanonical => bs "NonCanonical"
  | ProtocolErrorCode_LimitExceeded => bs "LimitExceeded"
  | ProtocolErrorCode_InvalidState => bs "InvalidState"
  | ProtocolErrorCode_NoRecipient => bs "NoRecipient"
  end.
Definition DeliveryOutcome_debug (outcome : DeliveryOutcome) : bytes :=
  match outcome with
  | DeliveryOutcome_Accepted => bs "Accepted"
  | DeliveryOutcome_Received => bs "Received"
  | DeliveryOutcome_Processed => bs "Processed"
  | DeliveryOutcome_Timeout => bs "Timeout"
  | DeliveryOutcome_NoRecipient => bs "NoRecipient"
  | DeliveryOutcome_RecipientDisconnected => bs "RecipientDisconnected"
  | DeliveryOutcome_DeliveryFailed => bs "DeliveryFailed"
  end.

(** [Display for Error]; that of [io::Error] belongs to the standard library. *)
Definition Error_to_string (transport_to_string : IoError -> bytes) (error : Error) : bytes :=
  match error with
  | Error_Transport error => transport_to_string error
  | Error_Codec error => CodecError_to_string error
  | Error_Handshake message => message
  | Error_Rejected code message =>
      bs "broker rejected handshake (" ++ ProtocolErrorCode_debug code ++ bs "): " ++ message
  | Error_Delivery outcome => bs "broker delivery failed: " ++ DeliveryOutcome_debug outcome
  end.

(** ** Reconnecting *)

Record ReconnectingBus := {
  bus : Bus;
  link : Link;
  options : ConnectOptions;
  claims : list NamespaceClaim;
  subscriptions : list Subscription;
}.

(** [Connection::connect(..)?] and what follows on the new connection; with the
    connection that is left when there is no bus. *)
Definition on_connection {A} (opened : io Link) (m : Client A) : progress A * option Link :=
  match opened with
  | Ok l => let '(r, l) := m l in (r, Some l)
  | Err e => (Returned (Err (Error_Transport e)), None)
  | Panic => (Returned Panic, None)
  end.

Definition ReconnectingBus_connect (options : ConnectOptions) (opened : io Link)
    : progress ReconnectingBus :=
  match on_connection opened (Bus_connect options) with
  | (Returned (Ok bus), Some l) =>
      Returned (Ok {| bus := bus; link := l; options := options; claims := []; subscriptions := [] |})
  | (Returned (Err e), _) => Returned (Err e)
  | (Blocked, _) => Blocked
  | _ => Returned Panic
  end.

Definition set_link (l : Link) (self : ReconnectingBus) : ReconnectingBus := {|
  bus := bus self; link := l; options := options self;
  claims := claims self; subscriptions := subscriptions self |}.
Definition set_claims (f : list NamespaceClaim -> list NamespaceClaim) (self : ReconnectingBus)
    : ReconnectingBus := {|
  bus := bus self; link := link self; options := options self;
  claims := f (claims self); subscriptions := subscriptions self |}.
Definition set_subscriptions (f : list Subscription -> list Subscription) (self : ReconnectingBus)
    : ReconnectingBus := {|
  bus := bus self; link := link self; options := options self;
  claims := claims self; subscriptions := f (subscriptions self) |}.

(** An operation on the current connection, recorded when it succeeded. *)
Definition recorded (m : Client ()) (record : ReconnectingBus -> ReconnectingBus)
    (self : ReconnectingBus) : progress () * ReconnectingBus :=
  let '(r, l) := m (link self) in
  let self := set_link l self in
  (r, match r with Returned (Ok _) => record self | _ => self end).

Definition ReconnectingBus_claim (namespace : Namespace) (headers : Headers) (self : ReconnectingBus)
    : progress () * ReconnectingBus :=
  recorded (claim_with_headers (bus self) namespace headers)
    (set_claims (fun l => l ++ [{| claim_namespace := namespace; claim_headers := headers |}])) self.

Definition ReconnectingBus_subscribe (channel : Channel) (filters : list HeaderFilter)
    (self : ReconnectingBus) : progress () * ReconnectingBus :=
  recorded (Bus_subscribe (bus self) channel filters)
    (set_subscriptions (fun l =>
      l ++ [{| subscription_channel := channel; subscription_filters := filters |}])) self.

Definition ReconnectingBus_unsubscribe (channel : Channel) (self : ReconnectingBus)
    : progress () * ReconnectingBus :=
  recorded (Bus_unsubscribe (bus self) channel)
    (set_subscriptions (filter (fun s => subscription_channel s <> channel))) self.

(** [for claim in &self.claims { .. }] and the same for subscriptions. *)
Fixpoint restore_claims (bus : Bus) (l : list NamespaceClaim) : Client () :=
  match l with
  | [] => mret ()
  | c :: l =>
      _ ← claim_with_headers bus (claim_namespace c) (claim_headers c); restore_claims bus l
  end.
Fixpoint restore_subscriptions (bus : Bus) (l : list Subscription) : Client () :=
  match l with
  | [] => mret ()
  | s :: l =>
      _ ← Bus_subscribe bus (subscription_channel s) (subscription_filters s);
      restore_subscriptions bus l
  end.

Definition restore (self : ReconnectingBus) : Client Bus :=
  bus ← Bus_connect (options self);
  _ ← restore_claims bus (claims self);
  _ ← restore_subscriptions bus (subscriptions self);
  mret bus.

(** [reconnect], with the connection it drops: the old one, or the new one when
    it fails. *)
Definition reconnect (opened : io Link) (self : ReconnectingBus)
    : progress PeerId * ReconnectingBus * option Link :=
  match on_connection opened (restore self) with
  | (Returned (Ok bus), Some l) =>
      (Returned (Ok (bus_peer_id bus)),
       {| bus := bus; link := l; options := options self;
          claims := claims self; subscriptions := subscriptions self |}, Some (link self))
  | (Returned (Err e), l) => (Returned (Err e), self, l)
  | (Blocked, _) => (Blocked, self, None)
  | (_, l) => (Returned Panic, self, l)
  end.

Definition ReconnectingBus_receive_frame (self : ReconnectingBus)
    : progress (option Frame) * ReconnectingBus :=
  let '(r, l) := receive_frame (bus self) (link self) in (r, set_link l self).

Definition ReconnectingBus_disconnect (self : ReconnectingBus) : progress () :=
  (Bus_disconnect (bus self) (link self)).1.

(** ** Deduplication *)

Record DeduplicationCache := {
  capacity : N;
  order : list MessageId;
  entries : gset MessageId;
}.

(** [isize::MAX], the size in bytes no allocation may exceed. *)
Definition isize_max : N := 9223372036854775807.

(** A queue of identifiers of sixteen bytes each is reserved at once. *)
Definition DeduplicationCache_new (capacity : N) : result () DeduplicationCache :=
  if isize_max <? 16 * capacity then Panic
  else Ok {| capacity := capacity; order := []; entries := ∅ |}.

Definition record (message_id : MessageId) (self : DeduplicationCache)
    : result () (bool * DeduplicationCache) :=
  if bool_decide (message_id ∈ entries self) then Ok (false, self)
  else if capacity self =? 0 then Ok (true, self)
  else
    let insert order entries := {|
      capacity := capacity self;
      order := order ++ [message_id];
      entries := {[ message_id ]} ∪ entries |} in
    if len (order self) =? capacity self then
      match order self with
      | expired :: rest => Ok (true, insert rest (entries self ∖ {[ expired ]}))
      | [] => Panic
      end
    else Ok (true, insert (order self) (entries self)).

Definition DeduplicationCache_len (self : DeduplicationCache) : N := bs_len (entries self).
Definition DeduplicationCache_is_empty (self : DeduplicationCache) : bool :=
  bool_decide (entries self = ∅).
