(* ===== verification/ClientFacts.v ===== *)
(** * What the client library guarantees

    The deduplication cache against a window of the last identifiers, what a
    request waits for, and what a reconnection restores and keeps. *)

From S2P Require Export CodecFacts Client.

Local Open Scope N_scope.

(** ** The deduplication window *)

(** The reference: a list of at most [cap] identifiers, oldest first. *)
Definition lastn {A} (n : nat) (l : list A) : list A := drop (length l - n) l.

Definition window_record (cap : N) (id : MessageId) (w : list MessageId) : bool * list MessageId :=
  if bool_decide (id ∈ w) then (false, w) else (true, lastn (N.to_nat cap) (w ++ [id])).

Fixpoint window_all (cap : N) (ids w : list MessageId) : list bool * list MessageId :=
  match ids with
  | [] => ([], w)
  | id :: ids =>
      let '(fresh, w) := window_record cap id w in
      let '(rs, w) := window_all cap ids w in (fresh :: rs, w)
  end.

(** The results of recording a sequence. *)
Fixpoint record_all (ids : list MessageId) (c : DeduplicationCache)
    : result () (list bool * DeduplicationCache) :=
  match ids with
  | [] => Ok ([], c)
  | id :: ids =>
      '(fresh, c) ← record id c;
      '(rs, c) ← record_all ids c;
      Ok (fresh :: rs, c)
  end.

Record cache_ok (c : DeduplicationCache) : Prop := {
  ok_entries : entries c = list_to_set (order c);
  ok_nodup : NoDup (order c);
  ok_length : len (order c) <= capacity c;
}.

Lemma cache_step id c :
  cache_ok c ->
  exists c', record id c = Ok ((window_record (capacity c) id (order c)).1, c') /\
    order c' = (window_record (capacity c) id (order c)).2 /\ capacity c' = capacity c /\ cache_ok c'.
Proof.
  intros Hok. pose proof Hok as [He Hn Hl]. unfold record, window_record. rewrite He.
  rewrite (bool_decide_ext (id ∈ (list_to_set (order c) : gset MessageId)) (id ∈ order c))
    by apply elem_of_list_to_set.
  case_bool_decide as Hin; [by exists c|].
  destruct (N.eqb_spec (capacity c) 0) as [H0|H0].
  { exists c. rewrite H0 in *. assert (order c = []) as Ho by (apply len_zero; lia).
    unfold lastn. rewrite Ho. by split_and!. }
  assert (NoDup (order c ++ [id])) as Hnd.
  { apply NoDup_app. split; [done|]. split; [set_solver|]. apply NoDup_singleton. }
  destruct (N.eqb_spec (len (order c)) (capacity c)) as [Hfull|Hroom].
  - destruct (order c) as [|x l] eqn:Eo; [by rewrite <- Hfull in H0|].
    assert (lastn (N.to_nat (capacity c)) ((x :: l) ++ [id]) = l ++ [id]) as ->.
    { unfold lastn. rewrite length_app. unfold len in Hfull. cbn [length] in *.
      replace (S (length l) + 1 - N.to_nat (capacity c))%nat with 1%nat by lia. done. }
    eexists. split; [done|]. split; [done|]. split; [done|].
    apply NoDup_cons in Hn as [Hx Hn]. apply NoDup_cons in Hnd as [_ Hnd]. split; cbn; [|done|].
    + rewrite list_to_set_app_L. set_solver.
    + unfold len in *. rewrite length_app. cbn [length] in *. lia.
  - assert (lastn (N.to_nat (capacity c)) (order c ++ [id]) = order c ++ [id]) as ->.
    { unfold lastn. rewrite length_app. unfold len in *. cbn [length].
      replace (length (order c) + 1 - N.to_nat (capacity c))%nat with 0%nat by lia. done. }
    eexists. split; [done|]. split; [done|]. split; [done|]. split; cbn; [|done|].
    + rewrite list_to_set_app_L. set_solver.
    + unfold len in *. rewrite length_app. cbn [length] in *. lia.
Qed.

Lemma cache_steps ids c :
  cache_ok c ->
  exists c', record_all ids c = Ok ((window_all (capacity c) ids (order c)).1, c') /\
    order c' = (window_all (capacity c) ids (order c)).2 /\ capacity c' = capacity c /\ cache_ok c'.
Proof.
  revert c. induction ids as [|id ids IH]; intros c Hc; [by exists c|].
  destruct (cache_step id c Hc) as (c1 & Hr & Ho & Hk & Hc1).
  destruct (IH c1 Hc1) as (c2 & Hr2 & Ho2 & Hk2 & Hc2).
  cbn [record_all window_all]. rewrite Hr. cbn [mbind result_bind]. rewrite Hr2. cbn [mbind result_bind].
  destruct (window_record (capacity c) id (order c)) as [fresh w]. cbn in *. subst w.
  rewrite Hk in *. destruct (window_all (capacity c) ids (order c1)) as [rs w2]. cbn in *.
  exists c2. split; [done|]. split; [done|]. by split; [congruence|].
Qed.

Lemma new_cache_ok cap c : DeduplicationCache_new cap = Ok c -> cache_ok c /\ order c = [] /\ capacity c = cap.
Proof.
  unfold DeduplicationCache_new. destruct (isize_max <? 16 * cap); [done|]. intros [= <-].
  split; [|done]. split; cbn; [done|apply NoDup_nil_2|unfold len; cbn; lia].
Qed.

(** C36: the cache is a window.  Created with any capacity its memory allows, a
    [DeduplicationCache] answers every sequence of identifiers like the list of
    the last that many new ones: [record] never panics, says [true] exactly for
    an identifier not in the window, and the set and the queue inside stay the
    same, without repetition and within the capacity. *)
Theorem dedup_is_window cap c ids :
  DeduplicationCache_new cap = Ok c ->
  exists c', record_all ids c = Ok ((window_all cap ids []).1, c') /\
    order c' = (window_all cap ids []).2 /\ entries c' = list_to_set (order c') /\
    NoDup (order c') /\ DeduplicationCache_len c' = len (order c') /\ len (order c') <= cap.
Proof.
  intros (Hok & Ho & Hk)%new_cache_ok. destruct (cache_steps ids c Hok) as (c' & Hr & Ho' & Hk' & [He Hn Hl]).
  rewrite Ho, Hk in *. exists c'. split_and!; try done.
  - unfold DeduplicationCache_len, bs_len, len. rewrite He. by rewrite size_list_to_set.
  - by rewrite Hk' in Hl.
Qed.

(** How many of the recorded identifiers were new. *)
Definition fresh_count (rs : list bool) : nat := length (filter (fun r => r = true) rs).

Lemma fresh_count_true rs : fresh_count (true :: rs) = S (fresh_count rs).
Proof. done. Qed.

(** An identifier with fewer than [cap - k] newer ones behind it stays through
    [k] new ones. *)
Lemma window_keeps cap id a b ids :
  (S (length b) + fresh_count (window_all cap ids (a ++ id :: b)).1 <= N.to_nat cap)%nat ->
  id ∈ (window_all cap ids (a ++ id :: b)).2.
Proof.
  revert a b. induction ids as [|x ids IH]; intros a b Hk; cbn [window_all] in *; [set_solver|].
  unfold window_record in *. case_bool_decide as Hx.
  - destruct (window_all cap ids (a ++ id :: b)) as [rs w] eqn:E.
    specialize (IH a b). rewrite E in IH. by apply IH.
  - destruct (window_all cap ids (lastn _ _)) as [rs w] eqn:E. cbn [fst snd] in *.
    rewrite fresh_count_true in Hk.
    assert (exists a', lastn (N.to_nat cap) ((a ++ id :: b) ++ [x]) = a' ++ id :: b ++ [x]) as [a' Ha'].
    { unfold lastn. rewrite <- (assoc_L (++)). cbn [app].
      exists (drop (length (a ++ id :: b ++ [x]) - N.to_nat cap) a).
      rewrite drop_app. f_equal.
      replace (length (a ++ id :: b ++ [x]) - N.to_nat cap - length a)%nat with 0%nat; [done|].
      rewrite !length_app. cbn [length]. rewrite length_app. cbn [length]. lia. }
    rewrite Ha' in E. specialize (IH a' (b ++ [x])). rewrite E in IH. apply IH.
    rewrite length_app. cbn [length fst]. lia.
Qed.

(** A retried message is recognised.  Once an identifier was recorded as
    new, it is reported as a duplicate until the cache has recorded as many new
    identifiers as its capacity, itself included. *)
Theorem dedup_suppresses cap c before id ids r1 c1 c2 rs c3 :
  DeduplicationCache_new cap = Ok c ->
  record_all before c = Ok (r1, c1) -> record id c1 = Ok (true, c2) ->
  record_all ids c2 = Ok (rs, c3) -> (fresh_count rs < N.to_nat cap)%nat ->
  record id c3 = Ok (false, c3).
Proof.
  intros (Hok & _ & Hk)%new_cache_ok H1 H2 H3 Hn.
  destruct (cache_steps before c Hok) as (c1' & E1 & _ & Hk1 & Hok1).
  rewrite E1 in H1. injection H1 as _ ->.
  destruct (cache_step id c1 Hok1) as (c2' & E2 & Ho2 & Hk2 & Hok2).
  rewrite E2 in H2. injection H2 as Hnew ->.
  destruct (cache_steps ids c2 Hok2) as (c3' & E3 & Ho3 & Hk3 & [He _ _]).
  rewrite E3 in H3. injection H3 as <- ->.
  rewrite Hk1, Hk in *. rewrite Hk2 in *.
  assert (exists a, order c2 = a ++ [id]) as [a Ha].
  { rewrite Ho2. unfold window_record in *. case_bool_decide; [done|]. cbn. unfold lastn.
    exists (drop (length (order c1 ++ [id]) - N.to_nat cap) (order c1)).
    rewrite drop_app. f_equal. rewrite length_app. cbn [length].
    replace (length (order c1) + 1 - N.to_nat cap - length (order c1))%nat with 0%nat by lia. done. }
  rewrite Ha in *. unfold record. rewrite bool_decide_eq_true_2; [done|].
  rewrite He, Ho3. apply elem_of_list_to_set. apply window_keeps. cbn. lia.
Qed.

(** ** Requests *)

(** News of the delivery of a message that does not end the wait for it. *)
Definition news (outcome : DeliveryOutcome) : Prop :=
  outcome = DeliveryOutcome_Accepted \/ outcome = DeliveryOutcome_Received \/
  outcome = DeliveryOutcome_Processed.

Inductive keeps_waiting (limits : FrameLimits) (id : MessageId)
    : result IoError (option bytes) -> Prop :=
| waiting_news packet outcome :
    decode_with_limits packet limits = Ok (Frame_DeliveryResult id outcome) -> news outcome ->
    keeps_waiting limits id (Ok (Some packet)).

(** The frames that do not concern a waiting request. *)
Definition unrelated (id : MessageId) (f : Frame) : Prop :=
  match f with
  | Frame_Message m => m_kind m <> MessageKind_Response \/ m_correlation_id m <> id
  | Frame_DeliveryResult i _ => i <> id
  | Frame_ProtocolError _ _ => False
  | _ => True
  end.

(** What ends the wait, and how. *)
Inductive concludes (limits : FrameLimits) (id : MessageId)
    : result IoError (option bytes) -> result Error Frame -> Prop :=
| concludes_response packet m :
    decode_with_limits packet limits = Ok (Frame_Message m) ->
    m_kind m = MessageKind_Response -> m_correlation_id m = id ->
    concludes limits id (Ok (Some packet)) (Ok (Frame_Message m))
| concludes_outcome packet outcome :
    decode_with_limits packet limits = Ok (Frame_DeliveryResult id outcome) -> ~ news outcome ->
    concludes limits id (Ok (Some packet)) (Err (Error_Delivery outcome))
| concludes_rejected packet code message :
    decode_with_limits packet limits = Ok (Frame_ProtocolError code message) ->
    concludes limits id (Ok (Some packet)) (Err (Error_Rejected code message))
| concludes_unrelated packet f :
    decode_with_limits packet limits = Ok f -> unrelated id f ->
    concludes limits id (Ok (Some packet))
      (Err (Error_Handshake (bs "broker sent an unrelated frame during request")))
| concludes_codec packet e :
    decode_with_limits packet limits = Err e ->
    concludes limits id (Ok (Some packet)) (Err (Error_Codec e))
| concludes_gone :
    concludes limits id (Ok None) (Err (Error_Handshake (bs "broker disconnected during request")))
| concludes_transport e : concludes limits id (Err e) (Err (Error_Transport e)).

Lemma request_step_spec limits id packet f :
  decode_with_limits packet limits = Ok f ->
  match request_step id (Some f) with
  | Some r => concludes limits id (Ok (Some packet)) r
  | None => keeps_waiting limits id (Ok (Some packet))
  end.
Proof.
  intros Hd. destruct f as [| | | | |m| |i o| | | |]; cbn [request_step];
    try by eapply concludes_unrelated.
  - case_bool_decide as Hk; [case_bool_decide as Hc|]; cbn [andb].
    + by apply concludes_response.
    + eapply concludes_unrelated; [done|]. by right.
    + eapply concludes_unrelated; [done|]. by left.
  - case_bool_decide as Hi; [subst i|by eapply concludes_unrelated].
    destruct o; first [by eapply waiting_news; [done|unfold news; auto]
                      | apply (concludes_outcome _ _ _ _ Hd); unfold news; naive_solver].
  - by eapply concludes_rejected.
Qed.

Lemma request_loop_spec self id receives r rest :
  ~ Panic ∈ receives ->
  request_loop self id receives = (r, rest) ->
  exists waited, Forall (keeps_waiting (frame_limits self) id) waited /\
    match r with
    | Blocked => receives = waited /\ rest = []
    | Returned v =>
        exists last, receives = waited ++ last :: rest /\ concludes (frame_limits self) id last v
    end.
Proof.
  intros Hp. induction receives as [|a receives IH]; cbn [request_loop]; [by intros [= <- <-]; exists []|].
  assert (forall v, concludes (frame_limits self) id a v ->
    (Returned v, receives) = (r, rest) ->
    exists waited, Forall (keeps_waiting (frame_limits self) id) waited /\
      match r with
      | Blocked => a :: receives = waited /\ rest = []
      | Returned v =>
          exists last, a :: receives = waited ++ last :: rest /\ concludes (frame_limits self) id last v
      end) as Hend by (intros v Hv [= <- <-]; exists []; split; [done|]; by exists a).
  destruct a as [[packet|]|e|]; [| |by apply Hend; constructor|set_solver].
  2: { apply Hend. constructor. }
  pose proof (decode_refines (frame_limits self) packet) as Hno.
  destruct (decode_with_limits packet (frame_limits self)) as [f|e|] eqn:Ed; [| |done].
  2: { apply Hend. by constructor. }
  pose proof (request_step_spec _ id packet f Ed) as Hstep.
  destruct (request_step id (Some f)) as [v|]; [by apply Hend|].
  intros Hr. destruct IH as (waited & Hw & Hres); [set_solver|done|].
  exists (Ok (Some packet) :: waited). split; [by constructor|].
  destruct r; [|by destruct Hres as [-> ->]].
  destruct Hres as (last & -> & Hl). by exists last.
Qed.

(** C29: a request gets its answer.  [request] sends the message once, then skips
    only news of its own delivery and returns with the first other thing the
    connection brings: the correlated response, the final outcome of the
    delivery, the broker's rejection, or an error for a frame that does not
    concern it, for the end of the connection and for a failure; it waits only
    while there is nothing but news. *)
Theorem request_behaviour self m l r l' sends packet :
  m_kind m = MessageKind_Request -> link_sends l = Ok tt :: sends -> ~ Panic ∈ link_receives l ->
  encode_with_limits (Frame_Message m) (frame_limits self) = Ok packet ->
  request self (Frame_Message m) l = (r, l') ->
  link_sent l' = link_sent l ++ [packet] /\ link_sends l' = sends /\
  exists waited, Forall (keeps_waiting (frame_limits self) (m_message_id m)) waited /\
    match r with
    | Blocked => link_receives l = waited /\ link_receives l' = []
    | Returned v =>
        exists last, link_receives l = waited ++ last :: link_receives l' /\
          concludes (frame_limits self) (m_message_id m) last v
    end.
Proof.
  intros Hk Hs Hp He. unfold request. rewrite bool_decide_eq_true_2 by done.
  unfold send_message, send_frame, codec, pure, link_send, await_response.
  unfold mbind, Client_bind. rewrite He. cbn [map_err]. rewrite Hs. cbn [map_err is_ok link_receives link_sends link_sent].
  destruct (request_loop self (m_message_id m) (link_receives l)) as [v rest] eqn:E.
  intros [= <- <-]. cbn. split; [done|]. split; [done|]. by eapply request_loop_spec.
Qed.

(** ** Reconnecting *)

(** Control operations sent on a link and confirmed, in order. *)
Definition confirmed (limits : FrameLimits) (ops : list (Frame * ControlOperation)) (l l' : Link)
    : Prop :=
  exists packets replies,
    Forall2 (fun op packet => encode_with_limits op.1 limits = Ok packet) ops packets /\
    Forall2 (fun op reply => decode_with_limits reply limits = Ok (Frame_ControlResult op.2)) ops replies /\
    link_sent l' = link_sent l ++ packets /\
    link_receives l = (Ok <$> (Some <$> replies)) ++ link_receives l'.

Lemma confirmed_nil limits l : confirmed limits [] l l.
Proof. exists [], []. rewrite app_nil_r. by split_and!; try constructor. Qed.

Lemma confirmed_app limits ops1 ops2 l1 l2 l3 :
  confirmed limits ops1 l1 l2 -> confirmed limits ops2 l2 l3 -> confirmed limits (ops1 ++ ops2) l1 l3.
Proof.
  intros (p1 & r1 & He1 & Hd1 & Hs1 & Hr1) (p2 & r2 & He2 & Hd2 & Hs2 & Hr2).
  exists (p1 ++ p2), (r1 ++ r2). split_and!.
  - by apply Forall2_app.
  - by apply Forall2_app.
  - by rewrite Hs2, Hs1, (assoc_L (++)).
  - by rewrite Hr1, Hr2, !fmap_app, (assoc_L (++)).
Qed.

Lemma link_send_ok packet l l' :
  link_send packet l = (Returned (Ok tt), l') ->
  link_sent l' = link_sent l ++ [packet] /\ link_receives l' = link_receives l.
Proof.
  unfold link_send. destruct (link_sends l) as [|[[]|e|] sends]; cbn; [done| |done..]. by intros [= <-].
Qed.

Lemma link_receive_ok o l l' :
  link_receive l = (Returned (Ok o), l') ->
  link_receives l = Ok o :: link_receives l' /\ link_sent l' = link_sent l.
Proof.
  unfold link_receive. destruct (link_receives l) as [|[o'|e|] receives]; cbn; [done| |done..].
  by intros [= -> <-].
Qed.

Lemma bind_ok {A B} (m : Client A) (k : A -> Client B) l b l' :
  (m ≫= k) l = (Returned (Ok b), l') ->
  exists a l1, m l = (Returned (Ok a), l1) /\ k a l1 = (Returned (Ok b), l').
Proof.
  unfold mbind, Client_bind. destruct (m l) as [[[a|e|]|] l1]; [|done..]. intros. by exists a, l1.
Qed.

Lemma codec_ok {A} (r : result CodecError A) l a l' :
  codec r l = (Returned (Ok a), l') -> r = Ok a /\ l' = l.
Proof. unfold codec, pure. destruct r; cbn; [|done..]. by intros [= -> <-]. Qed.

Lemma receive_frame_ok self o l l' :
  receive_frame self l = (Returned (Ok o), l') ->
  link_sent l' = link_sent l /\
  match o with
  | None => link_receives l = Ok None :: link_receives l'
  | Some f => exists reply, link_receives l = Ok (Some reply) :: link_receives l' /\
      decode_with_limits reply (frame_limits self) = Ok f
  end.
Proof.
  unfold receive_frame. intros (received & l1 & [Hr Hs]%link_receive_ok & Hk)%bind_ok.
  destruct received as [packet|]; [|by injection Hk as <- <-].
  apply bind_ok in Hk as (f & l2 & [Hd ->]%codec_ok & [= <- <-]). split; [done|]. by exists packet.
Qed.

Lemma send_control_ok self f op l l' :
  send_control self f op l = (Returned (Ok tt), l') ->
  confirmed (frame_limits self) [(f, op)] l l'.
Proof.
  unfold send_control. intros (u & l1 & Hsend & Hk)%bind_ok.
  apply bind_ok in Hsend as (packet & l0 & [He ->]%codec_ok & Hsend).
  destruct u. apply link_send_ok in Hsend as [Hs Hr].
  apply bind_ok in Hk as (o & l2 & [Hs2 Ho]%receive_frame_ok & Hk).
  destruct o as [g|]; [|done]. destruct g as [| | | | | | | | |o| |]; try done.
  destruct Ho as (reply & Hrec & Hd). case_bool_decide as Heq; [subst o|done]. injection Hk as <-.
  exists [packet], [reply]. split_and!; [by repeat constructor|by repeat constructor| |].
  - by rewrite Hs2.
  - by rewrite <- Hr.
Qed.

Definition claim_operation (c : NamespaceClaim) : Frame * ControlOperation :=
  (Frame_Claim (claim_namespace c) (claim_headers c), ControlOperation_Claim).
Definition subscribe_operation (s : Subscription) : Frame * ControlOperation :=
  (Frame_Subscribe (subscription_channel s) (subscription_filters s), ControlOperation_Subscribe).

Lemma restore_claims_ok bus cs l l' :
  restore_claims bus cs l = (Returned (Ok tt), l') ->
  confirmed (frame_limits bus) (claim_operation <$> cs) l l'.
Proof.
  revert l. induction cs as [|c cs IH]; intros l; [intros [= <-]; apply confirmed_nil|].
  cbn [restore_claims]. intros ([] & l1 & Hc%send_control_ok & Hk)%bind_ok.
  exact (confirmed_app _ [claim_operation c] _ _ _ _ Hc (IH _ Hk)).
Qed.

Lemma restore_subscriptions_ok bus ss l l' :
  restore_subscriptions bus ss l = (Returned (Ok tt), l') ->
  confirmed (frame_limits bus) (subscribe_operation <$> ss) l l'.
Proof.
  revert l. induction ss as [|s ss IH]; intros l; [intros [= <-]; apply confirmed_nil|].
  cbn [restore_subscriptions]. intros ([] & l1 & Hc%send_control_ok & Hk)%bind_ok.
  exact (confirmed_app _ [subscribe_operation s] _ _ _ _ Hc (IH _ Hk)).
Qed.

(** The greeting of a new connection. *)
Definition hello_frame (options : ConnectOptions) : Frame :=
  Frame_Hello (option_client_id options) (option_headers options) (option_capabilities options).

Lemma connect_ok options l bus l' :
  Bus_connect options l = (Returned (Ok bus), l') ->
  frame_limits bus = option_frame_limits options /\
  exists packet welcome,
    encode_with_limits (hello_frame options) (option_frame_limits options) = Ok packet /\
    decode_with_limits welcome (option_frame_limits options) =
      Ok (Frame_Welcome (bus_peer_id bus) (bus_capabilities bus)) /\
    link_sent l' = link_sent l ++ [packet] /\ link_receives l = Ok (Some welcome) :: link_receives l'.
Proof.
  unfold Bus_connect. intros (packet & l0 & [He ->]%codec_ok & Hk)%bind_ok.
  apply bind_ok in Hk as ([] & l1 & [Hs Hr]%link_send_ok & Hk).
  apply bind_ok in Hk as (o & l2 & [Hr2 Hs2]%link_receive_ok & Hk).
  destruct o as [welcome|]; [|done]. apply bind_ok in Hk as (f & l3 & [Hd ->]%codec_ok & Hk).
  destruct f as [|p c| | | | | | | | | |]; try done. injection Hk as <- <-. split; [done|].
  exists packet, welcome. split_and!; try done; [by rewrite Hs2 | by rewrite <- Hr].
Qed.

(** C35: reconnecting restores the session or leaves it alone.  When [reconnect]
    succeeds, the new connection has carried exactly the greeting and then every
    recorded claim and subscription in the order they were made, each confirmed
    by the broker, and the client speaks under the identity the new session
    was given; the old connection is dropped.  Otherwise the client is
    unchanged.  The records of what to restore are kept in every case. *)
Theorem reconnect_restores opened self :
  let '(r, self', dropped) := reconnect opened self in
  options self' = options self /\ claims self' = claims self /\
  subscriptions self' = subscriptions self /\
  match r with
  | Returned (Ok id) =>
      let limits := option_frame_limits (options self) in
      bus_peer_id (bus self') = id /\ dropped = Some (link self) /\
      exists l l1 hello welcome,
        opened = Ok l /\
        encode_with_limits (hello_frame (options self)) limits = Ok hello /\
        decode_with_limits welcome limits = Ok (Frame_Welcome id (bus_capabilities (bus self'))) /\
        link_sent l1 = link_sent l ++ [hello] /\ link_receives l = Ok (Some welcome) :: link_receives l1 /\
        confirmed limits
          ((claim_operation <$> claims self) ++ (subscribe_operation <$> subscriptions self))
          l1 (link self')
  | _ => self' = self
  end.
Proof.
  unfold reconnect, on_connection. destruct opened as [l|e|]; [|done..].
  destruct (restore self l) as [[[b|e|]|] l'] eqn:E; [|done..]. cbn.
  split_and!; try done. unfold restore in E.
  apply bind_ok in E as (bus1 & l1 & Hc & Hk). apply connect_ok in Hc as (Hlim & hello & welcome & ? & ? & ? & ?).
  apply bind_ok in Hk as ([] & l2 & Hcl%restore_claims_ok & Hk).
  apply bind_ok in Hk as ([] & l3 & Hsu%restore_subscriptions_ok & [= <- <-]).
  exists l, l1, hello, welcome. rewrite Hlim in *. split_and!; try done. by eapply confirmed_app.
Qed.

(** ** Interleaved traffic *)

Lemma send_frame_run self f l sends packet :
  link_sends l = Ok tt :: sends -> encode_with_limits f (frame_limits self) = Ok packet ->
  send_frame self f l = (Returned (Ok tt), {| link_sends := sends; link_receives := link_receives l;
                                              link_sent := link_sent l ++ [packet] |}).
Proof.
  intros Hs He. unfold send_frame, codec, pure, mbind, Client_bind. rewrite He. cbn [map_err].
  unfold link_send. by rewrite Hs.
Qed.

Lemma receive_frame_run self g l packet rest :
  link_receives l = Ok (Some packet) :: rest -> decode_with_limits packet (frame_limits self) = Ok g ->
  receive_frame self l = (Returned (Ok (Some g)), {| link_sends := link_sends l; link_receives := rest;
                                                    link_sent := link_sent l |}).
Proof.
  intros Hr Hd. unfold receive_frame, codec, pure, mbind, Client_bind, link_receive. rewrite Hr.
  cbn [map_err]. by rewrite Hd.
Qed.

(** What a control operation makes of the frame that comes next. *)
Lemma send_control_run self f op l sends packet reply g rest :
  link_sends l = Ok tt :: sends -> encode_with_limits f (frame_limits self) = Ok packet ->
  link_receives l = Ok (Some reply) :: rest -> decode_with_limits reply (frame_limits self) = Ok g ->
  send_control self f op l =
    (Returned (match g with
               | Frame_ControlResult o =>
                   if bool_decide (o = op) then Ok tt
                   else Err (Error_Handshake (bs "broker sent an unexpected control frame"))
               | Frame_ProtocolError code message => Err (Error_Rejected code message)
               | _ => Err (Error_Handshake (bs "broker sent an unexpected control frame"))
               end),
     {| link_sends := sends; link_receives := rest; link_sent := link_sent l ++ [packet] |}).
Proof.
  intros Hs He Hr Hd. unfold send_control, mbind, Client_bind.
  rewrite (send_frame_run self f l sends packet Hs He).
  erewrite receive_frame_run; [|exact Hr|exact Hd]. cbn [link_sends link_receives link_sent].
  destruct g; try done. by case_bool_decide.
Qed.

(** Traffic desynchronises control operations.  When a MESSAGE reaches the
    client before the broker's answer to a control operation, the operation fails
    although the broker did it, and the answer stays on the connection: the next
    operation of the same kind, whatever it asks, takes it for its own. *)
Theorem control_desynchronised self f f' op l sends packet packet' signal m answer rest :
  link_sends l = Ok tt :: Ok tt :: sends ->
  link_receives l = Ok (Some signal) :: Ok (Some answer) :: rest ->
  encode_with_limits f (frame_limits self) = Ok packet ->
  encode_with_limits f' (frame_limits self) = Ok packet' ->
  decode_with_limits signal (frame_limits self) = Ok (Frame_Message m) ->
  decode_with_limits answer (frame_limits self) = Ok (Frame_ControlResult op) ->
  exists l', send_control self f op l =
      (Returned (Err (Error_Handshake (bs "broker sent an unexpected control frame"))), l') /\
    exists l'', send_control self f' op l' = (Returned (Ok tt), l'') /\ link_receives l'' = rest.
Proof.
  intros Hs Hr He He' Hd Hd'.
  pose proof (send_control_run self f op l _ _ _ _ _ Hs He Hr Hd) as H1. cbn beta iota in H1.
  eexists. split; [exact H1|].
  eexists. split; [erewrite send_control_run; [|done..]; cbn beta iota;
    rewrite bool_decide_eq_true_2 by done; reflexivity|done].
Qed.

(** ** Witnesses *)

Definition window_id (b : byte) : MessageId := MessageId_new (replicate 16 b).
Definition small_cache : DeduplicationCache := {| capacity := 2; order := []; entries := ∅ |}.

Lemma dedup_is_window_witness :
  exists c', record_all [window_id x01; window_id x02; window_id x01; window_id x03; window_id x01] small_cache =
      Ok ([true; true; false; true; true], c') /\ order c' = [window_id x03; window_id x01].
Proof.
  destruct (dedup_is_window 2 small_cache
    [window_id x01; window_id x02; window_id x01; window_id x03; window_id x01] eq_refl)
    as (c' & Hr & Ho & _).
  exists c'. split; [exact Hr|exact Ho].
Defined.

Lemma dedup_suppresses_witness :
  exists c3, record (window_id x01) c3 = Ok (false, c3).
Proof.
  destruct (new_cache_ok 2 small_cache eq_refl) as (Hok & _ & _).
  destruct (cache_step (window_id x01) small_cache Hok) as (c2 & H2 & Ho2 & Hk2 & Hok2).
  destruct (cache_steps [window_id x02] c2 Hok2) as (c3 & H3 & _).
  rewrite Ho2, Hk2 in H3. exists c3.
  apply (dedup_suppresses 2 small_cache [] (window_id x01) [window_id x02] [] small_cache c2 _ c3
    eq_refl eq_refl H2 H3). vm_compute. lia.
Defined.

Definition demo_bus : Bus := {|
  frame_limits := FrameLimits_default; bus_peer_id := PeerId_new 9; bus_capabilities := ∅ |}.

Definition wire (f : Frame) : bytes :=
  match encode_with_limits f FrameLimits_default with Ok packet => packet | _ => [] end.

Definition plain (kind : MessageKind) (deadline : N) (id correlation : MessageId) : Message :=
  match plain_message kind deadline (Destination_Peer (PeerId_new 3)) id correlation Status_Success
          ∅ (bs "ping") with
  | Frame_Message m => m | _ => example_message
  end.

(** The request is accepted, then answered. *)
Lemma request_behaviour_witness :
  let m := plain MessageKind_Request 50 (window_id x07) MessageId_absent in
  let answer := plain MessageKind_Response 0 (window_id x08) (window_id x07) in
  let l := {| link_sends := [Ok tt];
              link_receives := [Ok (Some (wire (Frame_DeliveryResult (window_id x07) DeliveryOutcome_Accepted)));
                                Ok (Some (wire (Frame_Message answer))); Ok None];
              link_sent := [] |} in
  let '(r, l') := request demo_bus (Frame_Message m) l in
  link_sent l' = [wire (Frame_Message m)] /\ r = Returned (Ok (Frame_Message answer)).
Proof.
  intros m answer l. destruct (request demo_bus (Frame_Message m) l) as [r l'] eqn:E.
  destruct (request_behaviour demo_bus m l r l' [] (wire (Frame_Message m)) eq_refl eq_refl) as (Hs & _).
  - intros Hin. repeat (apply elem_of_cons in Hin as [Hin|Hin]; [discriminate|]).
    by apply not_elem_of_nil in Hin.
  - vm_compute. reflexivity.
  - exact E.
  - split; [exact Hs|]. vm_compute in E. by injection E as <- _.
Defined.

Lemma control_desynchronised_witness :
  let f n := Frame_Subscribe (Channel_of (bs n)) [] in
  let l := {| link_sends := [Ok tt; Ok tt];
              link_receives := [Ok (Some (wire (Frame_Message (plain MessageKind_Signal 0 (window_id x07) MessageId_absent))));
                                Ok (Some (wire (Frame_ControlResult ControlOperation_Subscribe)))];
              link_sent := [] |} in
  exists l', send_control demo_bus (f "a"%string) ControlOperation_Subscribe l =
      (Returned (Err (Error_Handshake (bs "broker sent an unexpected control frame"))), l') /\
    exists l'', send_control demo_bus (f "b"%string) ControlOperation_Subscribe l' =
        (Returned (Ok tt), l'') /\ link_receives l'' = [].
Proof.
  intros f l. eapply (control_desynchronised demo_bus (f "a"%string) (f "b"%string)
    ControlOperation_Subscribe l [] (wire (f "a"%string)) (wire (f "b"%string))
    (wire (Frame_Message (plain MessageKind_Signal 0 (window_id x07) MessageId_absent)))
    (plain MessageKind_Signal 0 (window_id x07) MessageId_absent)
    (wire (Frame_ControlResult ControlOperation_Subscribe))); vm_compute; reflexivity.
Defined.
