(* ===== verification/EndToEnd.v ===== *)
(** * The client, the daemon and the broker together

    A control operation from the call of the client's method to its result,
    through the codec in both directions, the session thread and the broker. *)

From S2P Require Export ClientFacts SessionFacts.

Local Open Scope N_scope.

(** ** Texts of errors *)

Lemma uint_ascii d : forallb is_ascii (bs (DecimalString.NilEmpty.string_of_uint d)) = true.
Proof. by induction d. Qed.

Lemma dec_ascii n : forallb is_ascii (dec n) = true.
Proof. unfold dec. destruct (N.to_uint n) as [|d|d|d|d|d|d|d|d|d|d]; try done; apply (uint_ascii _). Qed.

Lemma PeerId_text p : utf8_valid (PeerId_to_string p) = true.
Proof. apply utf8_valid_app; [done|]. apply utf8_valid_ascii, dec_ascii. Qed.

(** The errors of claims and subscriptions. *)
Inductive control_error : Error -> Prop :=
| control_unknown p : control_error (Error_UnknownPeer p)
| control_denied a : control_error (Error_Denied a)
| control_limit limit : control_error (Error_LimitExceeded limit)
| control_owned n p : namespace_ok n -> control_error (Error_NamespaceAlreadyOwned n p).

Lemma control_error_text e : control_error e -> utf8_valid (Error_to_string e) = true.
Proof.
  intros []; cbn [Error_to_string].
  - apply utf8_valid_app; [done|]. apply PeerId_text.
  - done.
  - by destruct limit.
  - apply utf8_valid_app; [done|]. apply utf8_valid_app; [|].
    + by apply namespace_text_ok.
    + apply utf8_valid_app; [done|]. apply PeerId_text.
Qed.

Section end_to_end.
Context {P : Type} `{Policy P} {Conn : Type}.

Local Abbreviation broker := (Broker P).
Local Abbreviation sessions := (gmap PeerId Conn).
Local Abbreviation phase := (phase (Conn := Conn)).

(** ** One control operation *)

(** The operation a frame asks for. *)
Inductive asks_for : Frame -> ControlOperation -> Prop :=
| asks_claim n : asks_for (Frame_Claim n ∅) ControlOperation_Claim
| asks_subscribe ch fs : asks_for (Frame_Subscribe ch fs) ControlOperation_Subscribe
| asks_unsubscribe ch : asks_for (Frame_Unsubscribe ch) ControlOperation_Unsubscribe.

(** What the broker holds after it granted the operation. *)
Definition granted (id : PeerId) (f : Frame) (b b' : broker) : Prop :=
  match f with
  | Frame_Claim n _ => namespace_owner b n = None /\ namespace_owner b' n = Some id
  | Frame_Subscribe ch fs => subscription b' id ch = Some fs
  | Frame_Unsubscribe ch => subscription b' id ch = None
  | _ => False
  end.

Lemma serve_control id f op now_ms (b : broker) :
  asks_for f op -> wf_frame f ->
  exists reply b', handle_frame id f now_ms b = (Phase_reply id reply : phase, b') /\ wf_frame reply /\
    (reply = Frame_ControlResult op /\ granted id f b b' \/
     exists e, reply = Frame_ProtocolError (broker_error_code e) (Error_to_string e) /\ b' = b).
Proof.
  intros Hop Hwf. destruct Hop as [n|ch fs|ch]; cbn [handle_frame].
  - rewrite bool_decide_eq_true_2 by done.
    destruct (claim id n b) as [r b'] eqn:E. apply claim_effect in E.
    destruct r as [[]|e|]; [| |done]; eexists _, _; (split; [done|]).
    + destruct E as (-> & _ & _ & Hn). split; [done|]. left. split; [done|]. split; [done|].
      by apply lookup_insert_eq.
    + destruct E as [-> He]. split; [|right; by exists e].
      apply control_error_text. destruct Hwf as [Hn _].
      destruct He as [[_ [->| ->]]|[_ [[-> _]|(owner & -> & _)]]]; by constructor.
  - destruct (subscribe_with_filters id ch fs b) as [r b'] eqn:E. apply subscribe_effect in E.
    destruct r as [[]|e|]; [| |done]; eexists _, _; (split; [done|]).
    + destruct E as (-> & _). split; [done|]. left. split; [done|]. apply subscribed_subscription.
    + destruct E as [-> He]. split; [|right; by exists e]. apply control_error_text.
      destruct He as [[_ [->| ->]]|(_ & -> & _)]; constructor.
  - destruct (unsubscribe id ch b) as [r b'] eqn:E. apply unsubscribe_effect in E.
    destruct r as [[]|e|]; [| |done]; eexists _, _; (split; [done|]).
    + destruct E as (-> & _). split; [done|]. left. split; [done|]. apply unsubscribed_subscription.
    + destruct E as (-> & -> & _). split; [|right; by eexists].
      apply control_error_text. constructor.
Qed.

(** C17: an operation's result is the broker's decision.  A client asks for a
    namespace, a subscription or its end; its packet reaches the session thread
    of its connection, and the thread's answer is the next packet the client
    gets.  Then the client's method returns [Ok] exactly when the broker granted
    the operation, which the broker's state shows, and otherwise the broker's own
    error, and the broker is unchanged; the session and the connection go on. *)
Theorem control_end_to_end limits creds (conn : Conn) id (b : broker) (s : sessions)
    self f op packet env env' :
  asks_for f op -> wf_frame f -> frame_limits self = limits ->
  encode_with_limits f limits = Ok packet ->
  env_received env = Done (Some packet) -> env_sent env' = Done tt ->
  exists reply b', forall answer, encode_with_limits reply limits = Ok answer ->
    thread_steps limits creds conn (Phase_receive id) [env; env'] b s =
      (Phase_receive id, b', s, [(conn, answer)]) /\
    forall l sends rest, link_sends l = Ok tt :: sends -> link_receives l = Ok (Some answer) :: rest ->
      exists v, send_control self f op l =
          (Returned v, {| link_sends := sends; link_receives := rest;
                          link_sent := link_sent l ++ [packet] |}) /\
        (v = Ok tt /\ granted id f b b' \/
         exists e, v = Err (Error_Rejected (broker_error_code e) (Error_to_string e)) /\ b' = b).
Proof.
  intros Hop Hwf Hl He Hr Hs.
  destruct (serve_control id f op (env_now_ms env) b Hop Hwf) as (reply & b' & Hh & Hwfr & Hv).
  exists reply, b'. intros answer Ha.
  assert (decode_with_limits packet limits = Ok f) as Hd
    by by apply stands_for_decode, encode_stands_for.
  assert (decode_with_limits answer limits = Ok reply) as Hda
    by by apply stands_for_decode, encode_stands_for.
  split.
  - cbn [thread_steps thread_step]. rewrite Hr, Hd, Hh. cbn [thread_step].
    unfold send_then, encoded. by rewrite Ha, Hs.
  - intros l sends rest Hls Hlr. subst limits. rewrite (send_control_run self f op l _ _ _ _ _ Hls He Hlr Hda).
    destruct Hv as [[-> Hg]|(e & -> & ->)]; (eexists; split; [reflexivity|]).
    + left. by rewrite bool_decide_eq_true_2.
    + right. by exists e.
Qed.

(** ** Reconnecting while the old session lives *)

Lemma claim_conflict id n owner now_ms (b : broker) :
  namespace_owner b n = Some owner ->
  exists e, handle_frame id (Frame_Claim n ∅) now_ms b =
    (Phase_reply id (Frame_ProtocolError (broker_error_code e) (Error_to_string e)) : phase, b).
Proof.
  intros Ho. cbn [handle_frame]. rewrite bool_decide_eq_true_2 by done.
  destruct (claim id n b) as [r b'] eqn:E. apply claim_effect in E.
  destruct r as [[]|e|]; [|destruct E as [-> _]; by exists e|done].
  destruct E as (_ & _ & _ & Hn). unfold namespace_owner in Ho. congruence.
Qed.

(** A client cannot reconnect over a session that still lives.  [reconnect]
    claims the recorded namespaces on the new connection before it drops the
    old one.  As long as the broker still counts the first of them as anyone's,
    the old session included, the session thread refuses the claim, [reconnect]
    fails with that refusal, and the client keeps its old connection. *)
Theorem reconnect_conflicts id owner now_ms (b : broker) self c cs l sends hello packet welcome answer rest peer caps :
  let limits := option_frame_limits (options self) in
  claims self = c :: cs -> claim_headers c = ∅ ->
  namespace_owner b (claim_namespace c) = Some owner ->
  encode_with_limits (hello_frame (options self)) limits = Ok hello ->
  encode_with_limits (Frame_Claim (claim_namespace c) ∅) limits = Ok packet ->
  decode_with_limits welcome limits = Ok (Frame_Welcome peer caps) ->
  link_sends l = Ok tt :: Ok tt :: sends ->
  link_receives l = Ok (Some welcome) :: Ok (Some answer) :: rest ->
  exists e, handle_frame id (Frame_Claim (claim_namespace c) ∅) now_ms b =
      (Phase_reply id (Frame_ProtocolError (broker_error_code e) (Error_to_string e)) : phase, b) /\
    (decode_with_limits answer limits =
       Ok (Frame_ProtocolError (broker_error_code e) (Error_to_string e)) ->
     exists l', reconnect (Ok l) self =
       (Returned (Err (Error_Rejected (broker_error_code e) (Error_to_string e))), self, Some l')).
Proof.
  intros limits Hc Hh Ho Hhello Hp Hw Hs Hr.
  destruct (claim_conflict id (claim_namespace c) owner now_ms b Ho) as [e He].
  exists e. split; [done|]. intros Ha.
  set (bus := {| frame_limits := limits; bus_peer_id := peer; bus_capabilities := caps |}).
  set (l1 := {| link_sends := Ok tt :: sends; link_receives := Ok (Some answer) :: rest;
                link_sent := link_sent l ++ [hello] |}).
  assert (Bus_connect (options self) l = (Returned (Ok bus), l1)) as Hconn.
  { unfold Bus_connect, codec, pure, mbind, Client_bind. fold limits. fold (hello_frame (options self)).
    rewrite Hhello. cbn [map_err]. unfold link_send. rewrite Hs. cbn [map_err is_ok].
    unfold link_receive. cbn [link_receives]. rewrite Hr. cbn [map_err]. by rewrite Hw. }
  unfold reconnect, on_connection, restore. unfold mbind, Client_bind. rewrite Hconn, Hc.
  cbn [restore_claims]. unfold mbind, Client_bind, claim_with_headers. rewrite Hh.
  rewrite (send_control_run bus _ _ l1 _ _ _ _ _ eq_refl Hp eq_refl Ha). by eexists.
Qed.

End end_to_end.

(** ** Witnesses *)

Definition svc : Namespace := Namespace_of (bs "bus://svc").

Lemma claim_wf n :
  decode_with_limits (wire (Frame_Claim n ∅)) FrameLimits_default = Ok (Frame_Claim n ∅) ->
  wf_frame (Frame_Claim n ∅).
Proof. intros Hd. by apply (stands_for_wf FrameLimits_default _ (wire (Frame_Claim n ∅))), decode_ok_stands_for. Qed.

Lemma control_end_to_end_witness :
  exists reply b', forall answer, encode_with_limits reply FrameLimits_default = Ok answer ->
    thread_steps FrameLimits_default demo_credentials 10%nat (Phase_receive (PeerId_new 1))
      [on_frame (Frame_Claim svc ∅); quiet None] demo demo_table =
      (Phase_receive (PeerId_new 1), b', demo_table, [(10%nat, answer)]) /\
    forall l sends rest, link_sends l = Ok tt :: sends -> link_receives l = Ok (Some answer) :: rest ->
      exists v, send_control demo_bus (Frame_Claim svc ∅) ControlOperation_Claim l =
          (Returned v, {| link_sends := sends; link_receives := rest;
                          link_sent := link_sent l ++ [wire (Frame_Claim svc ∅)] |}) /\
        (v = Ok tt /\ granted (PeerId_new 1) (Frame_Claim svc ∅) demo b' \/
         exists e, v = Err (Error_Rejected (broker_error_code e) (Error_to_string e)) /\ b' = demo).
Proof.
  assert (decode_with_limits (wire (Frame_Claim svc ∅)) FrameLimits_default = Ok (Frame_Claim svc ∅))
    as Hd by (vm_compute; reflexivity).
  assert (encode_with_limits (Frame_Claim svc ∅) FrameLimits_default = Ok (wire (Frame_Claim svc ∅)))
    as He by (vm_compute; reflexivity).
  exact (control_end_to_end FrameLimits_default demo_credentials 10%nat (PeerId_new 1) demo demo_table
    demo_bus (Frame_Claim svc ∅) ControlOperation_Claim (wire (Frame_Claim svc ∅))
    (on_frame (Frame_Claim svc ∅)) (quiet None) (asks_claim svc) (claim_wf svc Hd) eq_refl He
    eq_refl eq_refl).
Defined.

(** The namespace of the demonstration broker's second peer, reclaimed by a new
    session of its client. *)
Lemma reconnect_conflicts_witness :
  let self := {|
    bus := demo_bus; link := {| link_sends := []; link_receives := []; link_sent := [] |};
    options := ConnectOptions_default;
    claims := [{| claim_namespace := demo_namespace; claim_headers := ∅ |}];
    Client.subscriptions := [] |} in
  exists e answer l', reconnect (Ok {| link_sends := [Ok tt; Ok tt];
      link_receives := [Ok (Some (wire (Frame_Welcome (PeerId_new 4) ∅))); Ok (Some answer)];
      link_sent := [] |}) self =
    (Returned (Err (Error_Rejected (broker_error_code e) (Error_to_string e))), self, Some l').
Proof.
  intros self.
  set (refusal := Error_NamespaceAlreadyOwned demo_namespace (PeerId_new 2)).
  set (reply := Frame_ProtocolError (broker_error_code refusal) (Error_to_string refusal)).
  assert (namespace_owner demo demo_namespace = Some (PeerId_new 2)) as Ho by (vm_compute; reflexivity).
  assert (encode_with_limits (hello_frame ConnectOptions_default) FrameLimits_default =
    Ok (wire (hello_frame ConnectOptions_default))) as Hhello by (vm_compute; reflexivity).
  assert (encode_with_limits (Frame_Claim demo_namespace ∅) FrameLimits_default =
    Ok (wire (Frame_Claim demo_namespace ∅))) as Hp by (vm_compute; reflexivity).
  assert (decode_with_limits (wire (Frame_Welcome (PeerId_new 4) ∅)) FrameLimits_default =
    Ok (Frame_Welcome (PeerId_new 4) ∅)) as Hw by (vm_compute; reflexivity).
  destruct (reconnect_conflicts (Conn := nat) (PeerId_new 3) (PeerId_new 2) 0 demo self
    {| claim_namespace := demo_namespace; claim_headers := ∅ |} []
    {| link_sends := [Ok tt; Ok tt];
       link_receives := [Ok (Some (wire (Frame_Welcome (PeerId_new 4) ∅))); Ok (Some (wire reply))];
       link_sent := [] |} [] (wire (hello_frame ConnectOptions_default))
    (wire (Frame_Claim demo_namespace ∅)) (wire (Frame_Welcome (PeerId_new 4) ∅)) (wire reply) []
    (PeerId_new 4) ∅ eq_refl eq_refl Ho Hhello Hp Hw eq_refl eq_refl) as (e & Hh & Hr).
  exists e, (wire reply). apply Hr.
  assert ((handle_frame (Conn := nat) (PeerId_new 3) (Frame_Claim demo_namespace ∅) 0 demo).1 =
    Phase_reply (PeerId_new 3) reply) as Hc by (vm_compute; reflexivity).
  cbn [claim_namespace] in Hh. rewrite Hh in Hc. cbn [fst] in Hc. injection Hc as Hcode Htext.
  change (broker_error_code refusal) with ProtocolErrorCode_InvalidState in Hcode.
  rewrite Hcode. rewrite Htext. vm_compute. reflexivity.
Defined.
