(* ===== verification/Deployment.v ===== *)
(** * The daemon as it is deployed

    From the command line to what the running broker holds: every name and
    subscription in it is one the loaded policy grants to the credentials
    attested for its connection, the configured quotas and packet sizes bound
    it. *)

From S2P Require Export CommandLineFacts DaemonFacts PolicyFacts TransportFacts.

Local Open Scope N_scope.

(** ** What the broker holds, the policy permitted *)

Section authority.
Context {P : Type} `{Policy P}.

Local Abbreviation broker := (Broker P).

Record authorized (b : broker) : Prop := {
  au_connect : forall id, is_Some (b_peers b !! id) -> permitted b id Action_Connect;
  au_claim : forall namespace id, b_namespaces b !! namespace = Some id ->
    permitted b id (Action_ClaimNamespace namespace);
  au_register : forall name id, b_dbus_names b !! name = Some id ->
    permitted b id (Action_RegisterDbusName name);
  au_subscribe : forall channel subscribers id, b_subscriptions b !! channel = Some subscribers ->
    is_Some (subscribers !! id) -> permitted b id (Action_Subscribe channel);
}.

Lemma permitted_mono (b b' : broker) id act :
  b_policy b' = b_policy b ->
  (forall p, b_peers b !! id = Some p -> b_peers b' !! id = Some p) ->
  permitted b id act -> permitted b' id act.
Proof. intros Hp Hm (p & Hi & Hperm). exists p. rewrite Hp. auto. Qed.

(** A command that keeps the policy, the peers, the names and the
    subscriptions. *)
Lemma authorized_static (b b' : broker) : static b' = static b -> authorized b -> authorized b'.
Proof.
  intros (Hpol & _ & _ & _ & Hps & Hns & Hds & Hss & _)%static_fields [Hc Hn Hd Hs].
  assert (forall id act, permitted b id act -> permitted b' id act) as Hm
    by (intros id act; apply permitted_mono; [done|by rewrite Hps]).
  split; rewrite ?Hps, ?Hns, ?Hds, ?Hss; eauto.
Qed.

Lemma authorized_connected creds hello (b : broker) :
  broker_ok b -> b_next_peer b < u64_max -> authorize_hello b creds hello Action_Connect = Ok () ->
  authorized b -> authorized (connected creds hello b).
Proof.
  intros Hb Hlt Ha [Hc Hn Hd Hs]. pose proof (fresh_peer b Hb) as Hf.
  assert (forall id act, permitted b id act -> permitted (connected creds hello b) id act) as Hm.
  { intros id act. apply permitted_mono; [done|]. intros p Hp. cbn.
    rewrite lookup_insert_ne; [done|]. intros <-. congruence. }
  split; cbn; [|by eauto..]. intros id. destruct (decide (id = PeerId_new (b_next_peer b))) as [->|Hne].
  - intros _. eexists. cbn. rewrite lookup_insert_eq. split; [done|]. cbn.
    unfold authorize_hello in Ha. by destruct (permits _ _).
  - rewrite lookup_insert_ne by done. intros Hi. by apply Hm, Hc.
Qed.

Lemma authorized_disconnected id (b : broker) :
  broker_ok b -> authorized b -> authorized (disconnected id b).
Proof.
  intros Hb [Hc Hn Hd Hs].
  assert (forall i act, i <> id -> permitted b i act -> permitted (disconnected id b) i act) as Hm.
  { intros i act Hne. apply permitted_mono; [done|]. intros p Hp. cbn. by rewrite lookup_delete_ne. }
  split; cbn.
  - intros i [p [Hne Hi]%lookup_delete_Some]. apply Hm; [done|]. apply Hc. by exists p.
  - intros n i [Hi Hne]%map_lookup_filter_Some. apply Hm; [done|]. by apply Hn.
  - intros n i [Hi Hne]%map_lookup_filter_Some. apply Hm; [done|]. by apply Hd.
  - intros c subs i (s & Hds & Hs')%lookup_omap_Some Hi. unfold drop_subscriber in Hds.
    case_bool_decide; [done|]. injection Hds as <-. apply lookup_delete_is_Some in Hi as [Hne Hi].
    apply Hm; [done|]. by eapply Hs.
Qed.

Lemma authorized_claimed id namespace (b : broker) :
  permitted b id (Action_ClaimNamespace namespace) -> authorized b -> authorized (claimed id namespace b).
Proof.
  intros Hp [Hc Hn Hd Hs]. split; cbn; [done| |done..].
  intros n i [[<- <-]|[_ Hi]]%lookup_insert_Some; [done|]. by apply Hn.
Qed.

Lemma authorized_registered id name (b : broker) :
  permitted b id (Action_RegisterDbusName name) -> authorized b ->
  authorized (set_dbus_names <[name := id]> b).
Proof.
  intros Hp [Hc Hn Hd Hs]. split; cbn; [done|done| |done].
  intros n i [[<- <-]|[_ Hi]]%lookup_insert_Some; [done|]. by apply Hd.
Qed.

Lemma authorized_subscribed id channel filters (b : broker) :
  permitted b id (Action_Subscribe channel) -> authorized b ->
  authorized (subscribed id channel filters b).
Proof.
  intros Hp [Hc Hn Hd Hs]. split; cbn; [done..|].
  intros c subs i [[<- <-]|[_ Hi]]%lookup_insert_Some Hsub; [|by eapply Hs].
  apply lookup_insert_is_Some in Hsub as [<-|[_ Hsub]]; [done|].
  destruct (b_subscriptions b !! channel) as [s|] eqn:E; cbn in Hsub; [by eapply Hs|].
  rewrite lookup_empty in Hsub. by destruct Hsub.
Qed.

Lemma authorized_unsubscribed id channel (b : broker) :
  authorized b -> authorized (unsubscribed id channel b).
Proof.
  intros [Hc Hn Hd Hs]. split; cbn; [done..|]. intros c subs i.
  destruct (b_subscriptions b !! channel) as [s|] eqn:E; [|apply Hs]. case_bool_decide.
  - intros [_ Hi]%lookup_delete_Some. by apply Hs.
  - intros [[<- <-]|[_ Hi]]%lookup_insert_Some; [|by apply Hs].
    intros [_ Hsub]%lookup_delete_is_Some. by eapply Hs.
Qed.

Lemma apply_authorized c (b b' : broker) r :
  broker_ok b -> Invariants.apply c b = (r, b') -> authorized b -> authorized b'.
Proof.
  intros Hb Hr Ha. pose proof (apply_cases c b b' r Hb Hr) as Hc. destruct c;
    try by (eapply authorized_static; [exact Hc|done]).
  - run_apply Hr; apply connect_session_effect in E; [|by subst|done].
    destruct E as (-> & Hlt & _ & _ & Hh). by apply authorized_connected.
  - destruct Hc as [[-> _]| ->]; [done|]. by apply authorized_disconnected.
  - run_apply Hr; apply claim_effect in E; [|by destruct E as [-> _]|done].
    destruct E as (-> & Hp & _). by apply authorized_claimed.
  - run_apply Hr; apply subscribe_effect in E; [|by destruct E as [-> _]|done].
    destruct E as (-> & Hp & _). by apply authorized_subscribed.
  - destruct Hc as [[-> _]| ->]; [done|]. by apply authorized_unsubscribed.
  - run_apply Hr; apply register_dbus_name_effect in E; [|by destruct E as [-> _]|done].
    destruct E as (-> & _ & Hp & _). by apply authorized_registered.
  - subst b'. by destruct Ha.
Qed.

(** The broker holds nothing the policy did not grant.  In every reachable
    state each connected peer was allowed to connect, each owner of a namespace to
    claim it, each owner of a D-Bus name to register it and each subscriber to
    subscribe, by the broker's policy on the credentials and claims the peer
    connected with. *)
Lemma reachable_authorized policy limits (b : broker) :
  reachable policy limits b -> authorized b.
Proof.
  induction 1 as [|b c r b' Hb IH Hc Hr].
  - split; cbn; [intros id|intros n id|intros n id|intros c subs id];
      rewrite lookup_empty; [by intros []|done..].
  - eapply apply_authorized; [by eapply reachable_ok|done|done].
Qed.

Lemma subscriber_permitted (b : broker) channel id :
  authorized b -> id ∈ subscribers b channel -> permitted b id (Action_Subscribe channel).
Proof.
  intros Ha. unfold subscribers. destruct (b_subscriptions b !! channel) as [s|] eqn:E; [|by intros ?%elem_of_nil].
  intros Hi%elem_of_bt_keys. by eapply au_subscribe.
Qed.

End authority.

(** ** The running daemon *)

Section deployment.
Context {Conn : Type}.

Local Abbreviation World := (World (P := DaemonPolicy) (Conn := Conn)).
Local Abbreviation occurrence := (occurrence (Conn := Conn)).

(** A connection of the run acts for [id], and the policy allows the action to
    the credentials attested for that connection. *)
Definition granted (policy : DaemonPolicy) (l : list occurrence) (w : World) (id : PeerId)
    (act : Action) : Prop :=
  exists i t proc peer client headers,
    w_threads w !! i = Some t /\ phase_peer (t_phase t) = Some id /\
    Accept (t_conn t) proc peer ∈ l /\
    permits policy {| credentials := credentials_from_peer proc peer; client_id := client;
                      claimed_headers := headers; action := act |} = true.

Lemma run_daemon_start read c (w0 : World) :
  run_daemon read c = Some w0 ->
  exists policy, load_policy read (command_policy c) = Some policy /\
    w0 = start policy (command_limits c).
Proof.
  unfold run_daemon. destruct (load_policy _ _) as [policy|]; [|done]. intros [= <-]. by exists policy.
Qed.

Lemma permitted_granted policy quota limits (l : list occurrence) id act :
  let w := execute limits l (start policy quota) in
  permitted (w_broker w) id act -> granted policy l w id act.
Proof.
  intros w (p & Hp & Hperm).
  pose proof (execute_ok policy quota limits l _ (start_ok policy quota limits))
    as [Hb _ Hpe _ Hse _ _ _]. fold w in Hb, Hpe, Hse.
  destruct (Hse id) as (i & t & Hi & Hid); [by exists p|].
  destruct (Hpe i t id Hi Hid) as (p' & Hp' & Hc). rewrite Hp in Hp'. injection Hp' as <-.
  destruct (thread_origin _ _ _ _ _ Hi) as [(u & Hu & _)|(proc & peer & Ha & Hcr)]; [done|].
  destruct (reachable_settings _ _ _ Hb) as [Hpol _]. rewrite Hpol, Hc, Hcr in Hperm.
  exists i, t, proc, peer. eauto 10.
Qed.

Lemma packet_ok_bounded c packet :
  packet_ok (daemon_limits c) packet ->
  HEADER_SIZE <= len packet <= command_maximum_frame_size c \/
  exists code text, Codec.encode (Frame_ProtocolError code text) = Ok packet /\
    len packet <= maximum_frame_size FrameLimits_default.
Proof.
  intros [f Hf]. destruct f; try (left; by apply encode_bounded in Hf).
  - left. destruct Hf as [Hf _]. by apply encode_bounded in Hf.
  - destruct Hf as (limits & [-> | ->] & Hf); [left; by apply encode_bounded in Hf|].
    right. eexists _, _. split; [exact Hf|]. by apply encode_bounded in Hf as [_ ?].
Qed.

(** C2: the policy of the deployment governs everything it holds.  Whatever is
    received, in whatever interleaving, the daemon runs the policy its command
    names; every connected client, every owner of a namespace or of a D-Bus name
    and every subscriber is served by a connection whose credentials, as the
    kernel and /proc attested them when it was accepted, that policy allows to
    connect, to claim, to register and to subscribe. *)
Theorem deployed_policy_holds read c (w0 : World) (l : list occurrence) :
  run_daemon read c = Some w0 ->
  let w := execute (daemon_limits c) l w0 in
  let b := w_broker w in
  load_policy read (command_policy c) = Some (b_policy b) /\
  (forall id, is_Some (b_peers b !! id) -> granted (b_policy b) l w id Action_Connect) /\
  (forall namespace id, namespace_owner b namespace = Some id ->
     granted (b_policy b) l w id (Action_ClaimNamespace namespace)) /\
  (forall name id, dbus_name_owner b name = Some id ->
     granted (b_policy b) l w id (Action_RegisterDbusName name)) /\
  (forall channel id, id ∈ subscribers b channel ->
     granted (b_policy b) l w id (Action_Subscribe channel)).
Proof.
  intros (policy & Hl & ->)%run_daemon_start w b.
  pose proof (execute_ok policy _ (daemon_limits c) l _ (start_ok policy (command_limits c) _))
    as [Hb _ _ _ _ _ _ _]. fold w b in Hb.
  destruct (reachable_settings _ _ _ Hb) as [Hpol _]. rewrite Hpol.
  pose proof (reachable_authorized _ _ _ Hb) as Ha. pose proof Ha as [Hc Hn Hd Hs].
  split; [done|]. split; [|split; [|split]]; intros; apply permitted_granted;
    [by apply Hc|by apply Hn|by apply Hd|by apply (subscriber_permitted _ _ _ Ha)].
Qed.

(** C31: the limits of the command line bound the daemon.  For every command line
    it accepts, the daemon's quotas and packet size are positive, no client ever
    holds more than the quotas allow, and every packet handed to the kernel is at
    most the configured size, except for the PROTOCOL_ERROR packets of a rejection,
    which are only bounded by the default size. *)
Theorem deployed_limits_hold arguments read c (w0 : World) (l : list occurrence) :
  parse_command arguments = Ok (Command_Daemon c) -> run_daemon read c = Some w0 ->
  let w := execute (daemon_limits c) l w0 in
  limits_positive c /\
  (forall peer, within_limits (command_limits c) (w_broker w) peer) /\
  forall conn packet, (conn, packet) ∈ w_sent w ->
    HEADER_SIZE <= len packet <= command_maximum_frame_size c \/
    exists code text, Codec.encode (Frame_ProtocolError code text) = Ok packet /\
      len packet <= maximum_frame_size FrameLimits_default.
Proof.
  intros Hargs (policy & _ & ->)%run_daemon_start w.
  pose proof (execute_ok policy _ (daemon_limits c) l _ (start_ok policy (command_limits c) _))
    as [Hb _ _ _ _ _ _ Hsent]. fold w in Hb, Hsent.
  split; [by eapply command_limits_positive|]. split.
  - intros peer. destruct (reachable_settings _ _ _ Hb) as [_ <-].
    eapply ok_within_limits, reachable_ok, Hb.
  - intros conn packet Hin. rewrite Forall_forall in Hsent.
    by apply packet_ok_bounded, (Hsent (conn, packet)).
Qed.

End deployment.

(** [busd health] keeps no descriptor, whatever the kernel answers. *)
Lemma run_health_balanced K socket :
  let '(r, t) := run K [] (run_health socket) in balanced [] t /\ r <> Panic.
Proof.
  unfold run_health, Connection_connect. destruct (socket_address socket) as [[address length]|e|] eqn:E;
    follow; try (split; [by settle|done]).
  unfold socket_address in E. by destruct (_ || _).
Qed.

(** ** Witnesses *)

Definition demo_arguments : list bytes := [
  bs "daemon"; bs "--policy"; bs "/etc/busd.policy"; bs "--maximum-namespace-claims"; bs "2";
  bs "--maximum-frame-size"; bs "4096"].

Definition demo_command : DaemonCommand := {|
  command_socket := DEFAULT_SOCKET;
  command_policy := PolicySource_File (bs "/etc/busd.policy");
  command_limits := {| maximum_queued_bytes := maximum_queued_bytes Limits_default;
                       maximum_queued_messages := maximum_queued_messages Limits_default;
                       maximum_in_flight_requests := maximum_in_flight_requests Limits_default;
                       maximum_subscriptions := maximum_subscriptions Limits_default;
                       maximum_namespace_claims := 2 |};
  command_maximum_frame_size := 4096;
|}.

(** Everybody may connect; only user 1000 may claim names below bus://app. *)
Definition demo_policy_text : bytes :=
  join x0a [bs "version = 1"; bs "default = deny"; bs "[[rule]]"; bs "effect = allow";
    bs "actions = connect"; bs "[[rule]]"; bs "effect = allow"; bs "actions = claim-namespace";
    bs "target = bus://app*"; bs "uid = 1000"; bs ""].

Definition demo_file (path : bytes) : option bytes :=
  if bool_decide (path = bs "/etc/busd.policy") then Some demo_policy_text else None.

Definition demo_app : Namespace := Namespace_of (bs "bus://app").

(** Two clients, of users 7 and 1000, greet and then claim the same name. *)
Definition demo_session : list (occurrence (Conn := nat)) := [
  Accept 10%nat demo_proc {| peer_pid := 41; peer_uid := 7; peer_gid := 7 |};
  Accept 11%nat demo_proc (demo_peer 42);
  Run 0 (on_frame demo_greeting); Run 0 (quiet None); Run 0 (quiet None);
  Run 1 (on_frame demo_greeting); Run 1 (quiet None); Run 1 (quiet None);
  Run 0 (on_frame (Frame_Claim demo_app ∅)); Run 0 (quiet None);
  Run 1 (on_frame (Frame_Claim demo_app ∅)); Run 1 (quiet None)].

Definition demo_policy : DaemonPolicy :=
  match load_policy demo_file (command_policy demo_command) with
  | Some policy => policy
  | None => DaemonPolicy_SafeDefaults safe_defaults
  end.

Definition demo_start : World (P := DaemonPolicy) (Conn := nat) :=
  start demo_policy (command_limits demo_command).

Abbreviation demo_end := (execute (daemon_limits demo_command) demo_session demo_start).

Lemma demo_runs : run_daemon demo_file demo_command = Some demo_start.
Proof. by vm_compute. Qed.

Example demo_end_sent :
  (fun p => (p.1, decode_with_limits p.2 FrameLimits_default)) <$> w_sent demo_end = [
    (10%nat, Ok (Frame_Welcome (PeerId_new 1) ∅));
    (11%nat, Ok (Frame_Welcome (PeerId_new 2) ∅));
    (10%nat, Ok (Frame_ProtocolError ProtocolErrorCode_InvalidState
                   (Error_to_string (Error_Denied (Action_ClaimNamespace demo_app)))));
    (11%nat, Ok (Frame_ControlResult ControlOperation_Claim))].
Proof. by vm_compute. Qed.

Lemma deployed_policy_holds_witness :
  granted demo_policy demo_session demo_end (PeerId_new 2) (Action_ClaimNamespace demo_app).
Proof.
  assert (namespace_owner (w_broker demo_end) demo_app = Some (PeerId_new 2)) as Ho by by vm_compute.
  assert (b_policy (w_broker demo_end) = demo_policy) as Hp by by vm_compute.
  destruct (deployed_policy_holds demo_file demo_command demo_start demo_session demo_runs)
    as (_ & _ & Hc & _). rewrite <- Hp. exact (Hc demo_app (PeerId_new 2) Ho).
Defined.

Lemma deployed_limits_hold_witness :
  limits_positive demo_command /\
  within_limits (command_limits demo_command) (w_broker demo_end) (PeerId_new 2).
Proof.
  assert (parse_command demo_arguments = Ok (Command_Daemon demo_command)) as Ha by by vm_compute.
  destruct (deployed_limits_hold demo_arguments demo_file demo_command demo_start demo_session
    Ha demo_runs) as (Hl & Hw & _). split; [exact Hl|exact (Hw (PeerId_new 2))].
Defined.
