(* ===== verification/RequestResponse.v ===== *)
(** * A request and its response, from client to client

    The client's [request], the codec, the two session threads, the broker's
    routing and correlation, the dispatch of both messages and the client's wait,
    composed. *)

From S2P Require Export EndToEnd.

Local Open Scope N_scope.

Section request_response.
Context {P : Type} `{Policy P} {Conn : Type}.

Local Abbreviation broker := (Broker P).
Local Abbreviation sessions := (gmap PeerId Conn).
Local Abbreviation phase := (phase (Conn := Conn)).

(** ** One recipient *)

Lemma outputs_for_one id conn (s : sessions) : s !! id = Some conn -> outputs_for [id] s = [conn].
Proof.
  intros Hs. unfold outputs_for.
  assert ((id, conn) ∈ bt_entries s) as Hin by by apply elem_of_bt_entries.
  apply list_elem_of_split in Hin as (l & k & Hl).
  pose proof (bt_keys_nodup s) as Hnd. unfold bt_keys in Hnd. rewrite Hl in Hnd.
  rewrite fmap_app, fmap_cons in Hnd. apply NoDup_app in Hnd as (_ & Hnl & Hnd).
  apply NoDup_cons in Hnd as [Hnk _].
  assert (forall t : list (PeerId * Conn), (id ∉ t.*1) -> filter (fun e => e.1 ∈ [id]) t = []) as Hnone.
  { intros t Ht. induction t as [|e t IH]; [done|]. rewrite filter_cons, decide_False, IH by set_solver.
    done. }
  rewrite Hl, filter_app, filter_cons, decide_True by set_solver.
  rewrite (Hnone k) by done. rewrite Hnone; [done|]. intros Hi. apply (Hnl id Hi). left.
Qed.

(** If duplicating the connection and sending work, an event for one peer is one
    packet on its connection. *)
Lemma dispatch_one limits envs tables sender id (conn : Conn) m packet :
  let events := [DeliveryEvent_Deliver sender [id] (Frame_Message m)] in
  tables (Dispatch_next events) !! id = Some conn ->
  encode_with_limits (Frame_Message (attest sender m)) limits = Ok packet ->
  env_cloned (envs (Dispatch_next events)) = Done tt ->
  env_sent (envs (Dispatch_send packet [conn] [])) = Done tt ->
  dispatch_run limits envs tables (dispatch_bound tables events) (Dispatch_next events) =
    (inr (Ok tt), [(conn, packet)]).
Proof.
  intros events Hs He Hc Hd.
  assert (outputs_of tables (DeliveryEvent_Deliver sender [id] (Frame_Message m)) [] = [conn]) as Ho
    by (unfold outputs_of; cbn [outgoing fst]; by apply outputs_for_one).
  rewrite dispatch_events.
  - unfold events. cbn [all_packets]. unfold event_packets. cbn [app]. rewrite Ho.
    cbn [outgoing snd]. rewrite He. cbn [sends app]. unfold send_answer. by rewrite Hd.
  - split; [|done]. exists packet. cbn [app]. rewrite Ho. split; [done|]. split; [by right|].
    intros before c now' Heq. destruct before as [|? []]; [|done..]. injection Heq as <- <-.
    unfold send_answer. cbn [app]. by rewrite Hd.
Qed.

(** ** The broker's part *)

(** A request routed to one peer is pending for that peer. *)
Lemma request_pending requester responder m now_ms (b b' : broker) :
  m_kind m = MessageKind_Request ->
  begin_delivery requester (Frame_Message m) now_ms b =
    (Ok [DeliveryEvent_Deliver requester [responder] (Frame_Message m)], b') ->
  exists p, b_deliveries b' !! m_message_id m = Some p /\ pd_sender p = requester /\
    pd_message p = Frame_Message m /\ pd_recipients p = {[ responder ]} /\ pd_responses p = ∅.
Proof.
  intros Hk Hr. apply begin_delivery_effect in Hr; [|congruence].
  remember [DeliveryEvent_Deliver requester [responder] (Frame_Message m)] as events eqn:Hev.
  destruct Hr as [|selected|selected recipients _ _ Ht _|selected priority recipients]; try done.
  - unfold tracked in Ht. by rewrite bool_decide_eq_true_2 in Ht.
  - eexists. cbn. rewrite lookup_insert_eq. split; [done|]. split; [done|]. split; [done|].
    split; [|done]. cbn. unfold delivery_events in Hev. injection Hev as Hel _.
    rewrite <- (list_to_set_bs_elems recipients), Hel. set_solver.
Qed.

(** The only response of the only recipient completes the request and is the
    one forwarded, under every policy. *)
Lemma one_response policy status responder (f : Frame) :
  let responses := <[responder := f]> (∅ : gmap PeerId Frame) in
  response_completed policy status (bt_len responses) (bs_len {[ responder ]}) = true /\
  response_forward policy status
    (response_completed policy status (bt_len responses) (bs_len {[ responder ]})) f responses = Some f.
Proof.
  intros responses.
  assert (bt_len responses = 1) as Hl by (unfold bt_len, responses; by rewrite map_size_insert_None, map_size_empty).
  assert (bs_len {[ responder ]} = 1) as Hb by (unfold bs_len; by rewrite size_singleton).
  rewrite Hl, Hb. assert (head (bt_values responses) = Some f) as Hh.
  { unfold bt_values.
    assert ((responder, f) ∈ bt_entries responses) as Hin by (by apply elem_of_bt_entries, lookup_insert_eq).
    assert (forall e, e ∈ bt_entries responses -> e.2 = f) as Hall.
    { intros [k v] [[_ <-]|[_ Hk]]%elem_of_bt_entries%lookup_insert_Some; [done|by rewrite lookup_empty in Hk]. }
    destruct (bt_entries responses) as [|e l]; [by apply not_elem_of_nil in Hin|].
    cbn. f_equal. apply Hall. by left. }
  destruct policy; cbn [response_completed response_forward]; rewrite ?Hh, ?orb_true_r; try done;
    by destruct (bool_decide _).
Qed.

(** The broker accepts a clean response from a recipient that has not answered
    yet, and forwards it to the requester. *)
Lemma response_accepted responder m now_ms p request (b : broker) :
  is_Some (b_peers b !! responder) -> m_kind m = MessageKind_Response ->
  no_reserved (m_headers m) -> is_ok (message_priority (m_headers m)) = true ->
  answers responder m b p request -> pd_recipients p = {[ responder ]} -> pd_responses p = ∅ ->
  exists b', begin_delivery responder (Frame_Message m) now_ms b =
      (Ok [DeliveryEvent_Deliver responder [pd_sender p] (Frame_Message m)], b') /\
    b_deliveries b' = delete (m_correlation_id m) (b_deliveries b).
Proof.
  intros Hp Hk Hh Hprio Ha Hrec Hre.
  assert (begin_delivery responder (Frame_Message m) now_ms b = complete_response responder (Frame_Message m) b)
    as ->.
  { unfold begin_delivery. pose proof (credentials_of_cases b responder) as Hc.
    pose proof (validate_message_headers_cases (m_headers m)) as Hv.
    cbv [mbind St_bind lift asks]. destruct (credentials_of b responder) as [c|e|];
      [|destruct Hc as [_ Hc]; rewrite Hc in Hp; by destruct Hp|done].
    destruct (validate_message_headers (m_headers m)) as [u|e|]; [|destruct Hv as (n & Hn & Hres & _); by destruct (Hh n Hn)|done].
    destruct (message_priority (m_headers m)); [|done..]. by rewrite bool_decide_eq_true_2. }
  destruct (complete_response responder (Frame_Message m) b) as [r b'] eqn:E.
  apply complete_response_effect in E. destruct r as [events|e|]; [|destruct E as (_ & Hn & _);
    by destruct (Hn p request)|done].
  destruct E as [p' request' responses completed Ha'].
  assert (p' = p) as -> by (destruct Ha, Ha'; congruence).
  assert (request' = request) as -> by (destruct Ha, Ha'; congruence).
  exists (set_deliveries (delete (m_correlation_id m)) b).
  pose proof (one_response (m_request_policy request) (m_status m) responder (Frame_Message m)) as [Hc Hf].
  unfold completed, responses in *. rewrite Hre, Hrec in *. by rewrite Hf, Hc.
Qed.

Lemma connected_id_small policy quota (b : broker) id :
  reachable policy quota b -> is_Some (b_peers b !! id) -> PeerId_get id <= u64_max.
Proof.
  intros Hb%reachable_ok [p Hp]. pose proof (ok_next b Hb). destruct (ok_peers b Hb id p Hp). lia.
Qed.

(** ** The theorem *)

(** The step of a session that hands an accepted message to the dispatcher. *)
Lemma message_step limits creds (conn : Conn) id m packet env events (b b' : broker) (s : sessions) :
  wf_message m -> encode_with_limits (Frame_Message m) limits = Ok packet ->
  env_received env = Done (Some packet) ->
  begin_delivery id (Frame_Message m) (env_now_ms env) b = (Ok events, b') ->
  thread_step limits creds conn (Phase_receive id) env b s =
    (Phase_dispatch id (Dispatch_next events), b', s, None).
Proof.
  intros Hwf He Hr Hb. cbn [thread_step]. rewrite Hr.
  rewrite (stands_for_decode limits (Frame_Message m) packet) by by apply encode_stands_for.
  cbn [handle_frame]. by rewrite Hb.
Qed.

(** The client takes the attested response as the answer to its request. *)
Lemma request_answered self m r responder packet answer l sends rest :
  m_kind m = MessageKind_Request -> m_kind r = MessageKind_Response ->
  m_correlation_id r = m_message_id m ->
  encode_with_limits (Frame_Message m) (frame_limits self) = Ok packet ->
  decode_with_limits answer (frame_limits self) = Ok (Frame_Message (attest responder r)) ->
  link_sends l = Ok tt :: sends -> link_receives l = Ok (Some answer) :: rest ->
  request self (Frame_Message m) l =
    (Returned (Ok (Frame_Message (attest responder r))),
     {| link_sends := sends; link_receives := rest; link_sent := link_sent l ++ [packet] |}).
Proof.
  intros Hm Hk Hc He Hd Hs Hr. unfold request, send_message, mbind, Client_bind.
  rewrite bool_decide_eq_true_2 by done. rewrite (send_frame_run self _ l sends packet Hs He).
  unfold await_response. cbn [link_receives]. rewrite Hr. cbn [request_loop]. rewrite Hd.
  cbn [request_step attest m_kind m_correlation_id].
  by rewrite !bool_decide_eq_true_2.
Qed.

(** C3: a request comes back answered.  A client's [request] whose message the
    broker accepts for one recipient, under any request policy, is sent to that
    recipient's connection alone, attested with the requester's identity.  At any
    later time while it is still pending for that recipient and unanswered,
    whatever else has happened to the broker, the first clean response the
    recipient sends to it is accepted, closes it and goes to the requester's
    connection alone; and the waiting [request] returns exactly that response,
    attested with the identity of the recipient.  The two messages reach the
    connections provided that they still fit the limits with the header the
    broker adds, which a message with [maximum_headers] headers does not
    ([attestation_overflow]), and that the system duplicates the connection and
    sends the packet; the client gets the response provided that it is the next
    packet on its connection. *)
Theorem request_round_trip policy quota limits creds creds' (ca cb : Conn) requester responder
    self m packet env (b b1 : broker) (s : sessions) :
  reachable policy quota b -> frame_limits self = limits -> wf_message m ->
  m_kind m = MessageKind_Request ->
  encode_with_limits (Frame_Message m) limits = Ok packet -> env_received env = Done (Some packet) ->
  let asked := [DeliveryEvent_Deliver requester [responder] (Frame_Message m)] in
  begin_delivery requester (Frame_Message m) (env_now_ms env) b = (Ok asked, b1) ->
  thread_step limits creds ca (Phase_receive requester) env b s =
    (Phase_dispatch requester (Dispatch_next asked), b1, s, None) /\
  (forall envs tables out,
     tables (Dispatch_next asked) !! responder = Some cb ->
     encode_with_limits (Frame_Message (attest requester m)) limits = Ok out ->
     env_cloned (envs (Dispatch_next asked)) = Done tt ->
     env_sent (envs (Dispatch_send out [cb] [])) = Done tt ->
     dispatch_run limits envs tables (dispatch_bound tables asked) (Dispatch_next asked) =
       (inr (Ok tt), [(cb, out)])) /\
  exists p1, b_deliveries b1 !! m_message_id m = Some p1 /\
    pd_sender p1 = requester /\ pd_message p1 = Frame_Message m /\
    pd_recipients p1 = {[ responder ]} /\ pd_responses p1 = ∅ /\
  forall (b2 : broker) (s2 : sessions) p2 r rpacket env2,
    reachable policy quota b2 -> b_deliveries b2 !! m_message_id m = Some p2 ->
    pd_sender p2 = pd_sender p1 -> pd_message p2 = pd_message p1 ->
    pd_recipients p2 = pd_recipients p1 -> pd_responses p2 = pd_responses p1 ->
    wf_message r -> m_kind r = MessageKind_Response -> m_correlation_id r = m_message_id m ->
    no_reserved (m_headers r) -> is_ok (message_priority (m_headers r)) = true ->
    encode_with_limits (Frame_Message r) limits = Ok rpacket ->
    env_received env2 = Done (Some rpacket) ->
    let answered := [DeliveryEvent_Deliver responder [requester] (Frame_Message r)] in
    exists b3,
      thread_step limits creds' cb (Phase_receive responder) env2 b2 s2 =
        (Phase_dispatch responder (Dispatch_next answered), b3, s2, None) /\
      b_deliveries b3 = delete (m_message_id m) (b_deliveries b2) /\
      forall answer, encode_with_limits (Frame_Message (attest responder r)) limits = Ok answer ->
        (forall envs tables,
          tables (Dispatch_next answered) !! requester = Some ca ->
          env_cloned (envs (Dispatch_next answered)) = Done tt ->
          env_sent (envs (Dispatch_send answer [ca] [])) = Done tt ->
          dispatch_run limits envs tables (dispatch_bound tables answered) (Dispatch_next answered) =
            (inr (Ok tt), [(ca, answer)])) /\
        forall l sends rest,
          link_sends l = Ok tt :: sends -> link_receives l = Ok (Some answer) :: rest ->
          request self (Frame_Message m) l =
            (Returned (Ok (Frame_Message (attest responder r))),
             {| link_sends := sends; link_receives := rest; link_sent := link_sent l ++ [packet] |}).
Proof.
  intros Hb Hself Hwf Hk He Henv asked Hbegin.
  destruct (request_pending requester responder m _ b b1 Hk Hbegin) as (p & Hp & Hps & Hpm & Hpr & Hre).
  split; [by eapply message_step|].
  split; [intros envs tables out; apply dispatch_one|].
  exists p. do 5 (split; [done|]).
  intros b2 s2 p2 r rpacket env2 Hb2 Hsame Hs2 Hm2 Hr2 Hre2 Hwfr Hkr Hc Hh Hprio Her Henv2 answered.
  rewrite Hps in Hs2. rewrite Hpm in Hm2. rewrite Hpr in Hr2. rewrite Hre in Hre2.
  assert (is_Some (b_peers b2 !! responder)) as Hpeer.
  { destruct (ok_deliveries b2 (reachable_ok _ _ _ Hb2) _ p2 Hsame) as [m' Hok].
    apply (pok_recipients _ _ _ _ _ Hok). rewrite Hr2. set_solver. }
  destruct (response_accepted responder r (env_now_ms env2) p2 m b2 Hpeer Hkr Hh Hprio) as (b3 & Hbr & Hd).
  { split; [by rewrite Hc|done|done|rewrite Hr2; set_solver|by rewrite Hre2]. }
  { done. }
  { done. }
  rewrite Hs2 in Hbr. exists b3. split; [by eapply message_step|]. split; [by rewrite <- Hc|].
  intros answer Ha. split; [intros envs tables Ht Hcl Hsent; by apply dispatch_one|].
  intros l sends rest Hls Hlr. subst limits.
  apply (request_answered self m r responder packet answer); try done. apply stands_for_decode, encode_stands_for; [|done].
  by apply attest_wf; [eapply connected_id_small|].
Qed.

End request_response.

(** ** Witness *)

Definition demo_question : Message := {|
  m_kind := MessageKind_Request;
  m_ack_policy := AckPolicy_None;
  m_ack_requirement := AckRequirement_None;
  m_request_policy := RequestPolicy_Exact;
  m_deadline_ms := 500;
  m_retry := RetryPolicy_None;
  m_destination := Destination_Namespace demo_namespace;
  m_message_id := MessageId_new (replicate 16 x08);
  m_correlation_id := MessageId_absent;
  m_status := Status_Success;
  m_headers := ∅;
  m_payload := bs "ping";
|}.

Definition demo_answer : Message := {|
  m_kind := MessageKind_Response;
  m_ack_policy := AckPolicy_None;
  m_ack_requirement := AckRequirement_None;
  m_request_policy := RequestPolicy_Exact;
  m_deadline_ms := 0;
  m_retry := RetryPolicy_None;
  m_destination := Destination_Peer (PeerId_new 1);
  m_message_id := MessageId_new (replicate 16 x09);
  m_correlation_id := MessageId_new (replicate 16 x08);
  m_status := Status_Success;
  m_headers := ∅;
  m_payload := bs "pong";
|}.

Lemma demo_messages_wf : wf_message demo_question /\ wf_message demo_answer.
Proof.
  split; [eapply (decoded_proper FrameLimits_default (packet_of (Frame_Message demo_question)))
         |eapply (decoded_proper FrameLimits_default (packet_of (Frame_Message demo_answer)))]; by vm_compute.
Qed.

(** The owner of the demonstration namespace answers. *)
Lemma request_round_trip_witness :
  let attested := Frame_Message (attest (PeerId_new 2) demo_answer) in
  request demo_bus (Frame_Message demo_question)
    {| link_sends := [Ok tt]; link_receives := [Ok (Some (packet_of attested))]; link_sent := [] |} =
  (Returned (Ok attested),
   {| link_sends := []; link_receives := []; link_sent := [packet_of (Frame_Message demo_question)] |}).
Proof.
  intros attested.
  set (asked := [DeliveryEvent_Deliver (PeerId_new 1) [PeerId_new 2] (Frame_Message demo_question)]).
  assert ((begin_delivery (PeerId_new 1) (Frame_Message demo_question) 1000 demo).1 = Ok asked) as Hr
    by (vm_compute; reflexivity).
  assert (encode_with_limits (Frame_Message demo_question) FrameLimits_default =
    Ok (packet_of (Frame_Message demo_question))) as Hq by (vm_compute; reflexivity).
  assert (encode_with_limits (Frame_Message demo_answer) FrameLimits_default =
    Ok (packet_of (Frame_Message demo_answer))) as Ha by (vm_compute; reflexivity).
  assert (encode_with_limits attested FrameLimits_default = Ok (packet_of attested)) as Hat
    by (vm_compute; reflexivity).
  assert (demo_table !! PeerId_new 1 = Some 10%nat) as Ht by (vm_compute; reflexivity).
  assert (no_reserved (m_headers demo_answer)) as Hh by (intros n [v Hv]; done).
  destruct (begin_delivery (PeerId_new 1) (Frame_Message demo_question) 1000 demo) as [r b1] eqn:E.
  cbn [fst] in Hr. subst r. destruct demo_messages_wf as [Hwq Hwa].
  assert (proper_message demo_question) as Hproper by (split; [by intros [?|?]|split; [exact Hwq|discriminate]]).
  assert (reachable allow_all Limits_default b1) as Hb1
    by exact (reachable_step _ _ demo (Command_BeginDelivery (PeerId_new 1) (Frame_Message demo_question) 1000)
                _ b1 demo_reachable Hproper E).
  destruct (request_round_trip allow_all Limits_default FrameLimits_default demo_credentials
    demo_credentials 10%nat 11%nat (PeerId_new 1) (PeerId_new 2) demo_bus demo_question
    (packet_of (Frame_Message demo_question)) (on_frame (Frame_Message demo_question)) demo b1 demo_table
    demo_reachable eq_refl Hwq eq_refl Hq eq_refl E) as (_ & _ & p1 & Hp1 & _ & _ & _ & _ & Hback).
  destruct (Hback b1 demo_table p1 demo_answer (packet_of (Frame_Message demo_answer))
    (on_frame (Frame_Message demo_answer)) Hb1 Hp1 eq_refl eq_refl eq_refl eq_refl
    Hwa eq_refl eq_refl Hh eq_refl Ha eq_refl)
    as (b3 & _ & _ & Hfinal).
  destruct (Hfinal (packet_of attested) Hat) as [_ Hrequest].
  exact (Hrequest {| link_sends := [Ok tt]; link_receives := [Ok (Some (packet_of attested))];
    link_sent := [] |} [] [] eq_refl eq_refl).
Defined.
