(* ===== verification/Outcomes.v ===== *)
(** * The outcome of a delivery, from the scheduler to the client

    The clock of the daemon, the broker's tick, the dispatch of outcomes, the
    codec and the client's wait, composed. *)

From S2P Require Export RequestResponse.

Local Open Scope N_scope.

(** The size of a DELIVERY_RESULT packet. *)
Definition result_size : N := HEADER_SIZE + 17.

Lemma result_encoded limits id outcome :
  id_ok id -> id <> MessageId_absent -> result_size <= maximum_frame_size limits ->
  exists packet, encode_with_limits (Frame_DeliveryResult id outcome) limits = Ok packet.
Proof.
  intros Hid Hne Hsize. pose proof (encode_refines limits (Frame_DeliveryResult id outcome) Hid) as He.
  destruct (encode_with_limits _ limits) as [packet|e|]; [by exists packet| |done].
  destruct (He (packet_wire (Frame_DeliveryResult id outcome))). split; [|done]. split; [done|].
  unfold id_ok in Hid. cbn [body_wire]. unfold u8_wire, result_size, u32_max in *.
  rewrite len_app, len_cons, len_nil. unfold len in *. lia.
Qed.

Section outcomes.
Context {P : Type} `{Policy P} {Conn : Type}.

Local Abbreviation broker := (Broker P).
Local Abbreviation sessions := (gmap PeerId Conn).
Local Abbreviation World := (World (P := P) (Conn := Conn)).

(** An outcome that can be encoded. *)
Definition outcome_event limits (e : DeliveryEvent) : Prop :=
  exists sender id outcome packet, e = DeliveryEvent_Result sender id outcome /\
    encode_with_limits (outgoing e).2 limits = Ok packet.

Lemma tick_results_encoded limits now_ms (b : broker) :
  broker_ok b -> result_size <= maximum_frame_size limits ->
  Forall (outcome_event limits) (concat (tick_result now_ms <$> bt_entries (b_deliveries b))).
Proof.
  intros Hb Hsize. apply Forall_concat, Forall_fmap, Forall_forall. intros [id p] Hp%elem_of_bt_entries.
  destruct (ok_deliveries b Hb id p Hp) as [m Hm].
  destruct (pok_proper _ _ _ _ _ Hm) as (_ & Hwf & Hne). rewrite (pok_id _ _ _ _ _ Hm) in Hne.
  assert (id_ok id) as Hid by (rewrite <- (pok_id _ _ _ _ _ Hm); apply Hwf).
  assert (forall sender o, outcome_event limits (DeliveryEvent_Result sender id o)) as Ho.
  { intros sender o. destruct (result_encoded limits id o Hid Hne Hsize) as [packet Hpacket].
    by exists sender, id, o, packet. }
  cbn. unfold tick_result. destruct (tick_decision _ _); try constructor; try done; apply Ho.
Qed.

(** The outcome of a pending message among the events of a tick: only outcomes,
    all of which can be encoded, are before it. *)
Lemma tick_events_split limits now_ms (b : broker) id p :
  broker_ok b -> result_size <= maximum_frame_size limits -> b_deliveries b !! id = Some p ->
  tick_decision now_ms p = Tick_timeout ->
  exists before after,
    tick_events now_ms b = before ++ DeliveryEvent_Result (pd_sender p) id DeliveryOutcome_Timeout :: after /\
    Forall (outcome_event limits) before.
Proof.
  intros Hb Hsize Hp Hd. pose proof (tick_results_encoded limits now_ms b Hb Hsize) as Hf.
  assert (DeliveryEvent_Result (pd_sender p) id DeliveryOutcome_Timeout ∈
    concat (tick_result now_ms <$> bt_entries (b_deliveries b))) as Hin.
  { rewrite list_elem_of_In. apply in_concat. exists (tick_result now_ms (id, p)). split.
    - rewrite <- list_elem_of_In. apply list_elem_of_fmap_2. by apply elem_of_bt_entries.
    - unfold tick_result. cbn [fst snd]. rewrite Hd. by left. }
  apply list_elem_of_split in Hin as (before & after & Heq). rewrite Heq in Hf.
  unfold tick_events. rewrite Heq, <- (assoc_L (++)). cbn [app].
  eexists before, _. split; [done|]. by apply Forall_app in Hf as [? _].
Qed.

(** The dispatch of an outcome that nothing before it stops. *)
Lemma outcome_dispatched limits envs (tables : dispatch (Conn := Conn) -> sessions) before sender id outcome
    after conn packet :
  let e := DeliveryEvent_Result sender id outcome in
  all_out limits envs tables before (e :: after) ->
  encode_with_limits (Frame_DeliveryResult id outcome) limits = Ok packet ->
  tables (Dispatch_next (e :: after)) !! sender = Some conn ->
  env_cloned (envs (Dispatch_next (e :: after))) = Done tt ->
  env_sent (envs (Dispatch_send packet [conn] after)) = Done tt ->
  (conn, packet) ∈
    (dispatch_run limits envs tables (dispatch_bound tables (before ++ e :: after))
       (Dispatch_next (before ++ e :: after))).2.
Proof.
  intros e Ha He Hs Hc Hd. rewrite dispatch_prefix by done. cbn [dispatch_bound].
  assert (outputs_of tables e after = [conn]) as Ho
    by (unfold outputs_of; cbn [e outgoing fst]; by apply outputs_for_one).
  rewrite dispatch_out.
  - destruct (dispatch_run _ _ _ _ (Dispatch_next after)) as [r packets]. cbn [snd].
    apply elem_of_app. right. apply elem_of_app. left. unfold event_packets. rewrite Ho.
    cbn [e outgoing snd]. rewrite He. cbn [sends app]. unfold send_answer. rewrite Hd. by left.
  - exists packet. rewrite Ho. split; [done|]. split; [by right|].
    intros before' c now' Heq. destruct before' as [|? []]; [|done..]. injection Heq as <- <-.
    unfold send_answer. cbn [app]. by rewrite Hd.
Qed.

(** A waiting request ends with the outcome it is told. *)
Lemma request_timed_out self m packet answer l sends rest :
  m_kind m = MessageKind_Request ->
  encode_with_limits (Frame_Message m) (frame_limits self) = Ok packet ->
  decode_with_limits answer (frame_limits self) =
    Ok (Frame_DeliveryResult (m_message_id m) DeliveryOutcome_Timeout) ->
  link_sends l = Ok tt :: sends -> link_receives l = Ok (Some answer) :: rest ->
  request self (Frame_Message m) l =
    (Returned (Err (Error_Delivery DeliveryOutcome_Timeout)),
     {| link_sends := sends; link_receives := rest; link_sent := link_sent l ++ [packet] |}).
Proof.
  intros Hm He Hd Hs Hr. unfold request, send_message, mbind, Client_bind.
  rewrite bool_decide_eq_true_2 by done. rewrite (send_frame_run self _ l sends packet Hs He).
  unfold await_response. cbn [link_receives]. rewrite Hr. cbn [request_loop]. rewrite Hd.
  cbn [request_step]. by rewrite bool_decide_eq_true_2.
Qed.

(** C21: a deadline ends the wait.  When the scheduler runs at or after the
    deadline of a pending message and the broker's lock is free, the message is
    closed and a DELIVERY_RESULT TIMEOUT for its sender is among the events the
    scheduler dispatches; only outcomes, all of which can be encoded, are before
    it, so that a retransmission of the same tick that cannot be encoded does not
    keep it back.  The dispatch sends it to the sender's connection as it is in
    the session table at that moment, however the table changes otherwise,
    provided that the outcomes before it go out (no connection of theirs fails to
    be duplicated or fails a send for another reason than being broken or reset,
    which would end the dispatch: [dispatch_delivers]) and that the sender's own
    connection is duplicated and takes the packet.  And a client waiting in
    [request] for the answer to that message, whose next packet it is, returns
    with the timeout. *)
Theorem timeout_end_to_end policy quota limits (w : World) env id p :
  reachable policy quota (w_broker w) -> w_scheduler w = None -> broker_held w = false ->
  b_deliveries (w_broker w) !! id = Some p -> pd_deadline_ms p <= env_now_ms env ->
  result_size <= maximum_frame_size limits ->
  let result := DeliveryEvent_Result (pd_sender p) id DeliveryOutcome_Timeout in
  exists before after answer,
    let w' := step limits (Schedule env) w in
    let events := before ++ result :: after in
    w_scheduler w' = Some (Dispatch_next events, metrics (w_broker w')) /\ w_sessions w' = w_sessions w /\
    b_deliveries (w_broker w') !! id = None /\
    encode_with_limits (Frame_DeliveryResult id DeliveryOutcome_Timeout) limits = Ok answer /\
    Forall (outcome_event limits) before /\
    (forall (envs : dispatch -> environment) (tables : dispatch -> sessions) (conn : Conn),
       all_out limits envs tables before (result :: after) ->
       tables (Dispatch_next (result :: after)) !! pd_sender p = Some conn ->
       env_cloned (envs (Dispatch_next (result :: after))) = Done tt ->
       env_sent (envs (Dispatch_send answer [conn] after)) = Done tt ->
       (conn, answer) ∈
         (dispatch_run limits envs tables (dispatch_bound tables events) (Dispatch_next events)).2) /\
    forall self m packet l sends rest,
      pd_message p = Frame_Message m -> m_kind m = MessageKind_Request ->
      frame_limits self = limits -> encode_with_limits (Frame_Message m) limits = Ok packet ->
      link_sends l = Ok tt :: sends -> link_receives l = Ok (Some answer) :: rest ->
      request self (Frame_Message m) l =
        (Returned (Err (Error_Delivery DeliveryOutcome_Timeout)),
         {| link_sends := sends; link_receives := rest; link_sent := link_sent l ++ [packet] |}).
Proof.
  intros Hb%reachable_ok Hw Hheld Hp Hdl Hsize result.
  destruct (ok_deliveries _ Hb id p Hp) as [m0 Hm].
  destruct (pok_proper _ _ _ _ _ Hm) as (_ & Hwf & Hne). rewrite (pok_id _ _ _ _ _ Hm) in Hne.
  assert (id_ok id) as Hid by (rewrite <- (pok_id _ _ _ _ _ Hm); apply Hwf).
  destruct (result_encoded limits id DeliveryOutcome_Timeout Hid Hne Hsize) as [answer Ha].
  assert (tick_decision (env_now_ms env) p = Tick_timeout) as Hd
    by (unfold tick_decision; by destruct (N.leb_spec (pd_deadline_ms p) (env_now_ms env)); [|lia]).
  destruct (tick_events_split limits (env_now_ms env) (w_broker w) id p Hb Hsize Hp Hd)
    as (before & after & Hev & Hbefore).
  exists before, after, answer. cbv zeta. cbn [step]. rewrite Hw, Hheld.
  rewrite tick_effect by by apply broker_attempts_fit. cbn [w_scheduler w_sessions w_broker].
  rewrite Hev. split; [done|]. split; [done|]. split.
  { rewrite tick_deliveries, lookup_omap, Hp. cbn. unfold after_tick. by rewrite Hd. }
  split; [done|]. split; [done|]. split.
  - intros envs tables conn Hall Hs Hc Hsent. by apply outcome_dispatched.
  - intros self m packet l sends rest Hmsg Hk <- He Hls Hlr.
    assert (m0 = m) as -> by (pose proof (pok_message _ _ _ _ _ Hm); congruence).
    apply (request_timed_out self m packet answer); try done. rewrite (pok_id _ _ _ _ _ Hm).
    apply stands_for_decode, encode_stands_for; [exact Hid|done].
Qed.

End outcomes.

(** ** Witness *)

(** The demonstration broker, its first two peers connected, before its pending
    request times out. *)
Definition demo_waiting : World (P := AllowAll) (Conn := nat) := {|
  w_broker := demo;
  w_sessions := demo_table;
  w_threads := [];
  w_scheduler := None;
  w_sent := [];
  w_log := [];
|}.

Definition demo_pending : Message :=
  demo_request (Destination_Channel demo_channel) RequestPolicy_FirstSuccess
    (RetryPolicy_Exponential 10 3) x07.

Definition late : environment := {|
  env_now_ms := 1200; env_received := Done None; env_sent := Done tt; env_cloned := Done tt |}.

(** The broker's other pending deliveries do not stand in the way: the outcome is
    sent to the requester, whose [request] ends. *)
Lemma timeout_end_to_end_witness :
  let envs (d : dispatch (Conn := nat)) := late in
  exists events answer,
    w_scheduler (step FrameLimits_default (Schedule late) demo_waiting) =
      Some (Dispatch_next events, metrics (w_broker (step FrameLimits_default (Schedule late) demo_waiting))) /\
    (10%nat, answer) ∈
      (dispatch_run FrameLimits_default envs (fun _ => demo_table)
         (dispatch_bound (fun _ => demo_table) events) (Dispatch_next events)).2 /\
    request demo_bus (Frame_Message demo_pending)
      {| link_sends := [Ok tt]; link_receives := [Ok (Some answer)]; link_sent := [] |} =
    (Returned (Err (Error_Delivery DeliveryOutcome_Timeout)),
     {| link_sends := []; link_receives := []; link_sent := [packet_of (Frame_Message demo_pending)] |}).
Proof.
  intros envs.
  set (p := fresh_pending (PeerId_new 1) demo_pending {[ PeerId_new 2; PeerId_new 3 ]} 1000 0).
  assert (b_deliveries demo !! demo_id = Some p) as Hp by (vm_compute; reflexivity).
  assert (demo_table !! PeerId_new 1 = Some 10%nat) as Ht by (vm_compute; reflexivity).
  assert (pd_deadline_ms p <= 1200) as Hd by (vm_compute; discriminate).
  assert (result_size <= maximum_frame_size FrameLimits_default) as Hsize by (vm_compute; discriminate).
  assert (encode_with_limits (Frame_Message demo_pending) FrameLimits_default =
    Ok (packet_of (Frame_Message demo_pending))) as He by (vm_compute; reflexivity).
  destruct (timeout_end_to_end allow_all Limits_default FrameLimits_default demo_waiting late demo_id p
    demo_reachable eq_refl eq_refl Hp Hd Hsize)
    as (before & after & answer & Hsched & _ & _ & _ & Hbefore & Hsent & Hrequest).
  eexists _, answer. split; [exact Hsched|]. split.
  - apply (Hsent envs (fun _ => demo_table) 10%nat); [|exact Ht|reflexivity|reflexivity].
    revert Hbefore. generalize (DeliveryEvent_Result (pd_sender p) demo_id DeliveryOutcome_Timeout :: after).
    clear. intros rest Hf. induction Hf as [|e events (sender & id & o & packet & _ & He) _ IH]; [exact I|].
    split; [|exact IH]. exists packet. split; [exact He|]. split; [by right|]. by intros ? ? ?.
  - exact (Hrequest demo_bus demo_pending _ {| link_sends := [Ok tt]; link_receives := [Ok (Some answer)];
      link_sent := [] |} [] [] eq_refl eq_refl eq_refl He eq_refl eq_refl).
Defined.
